(* ===== verification/_CoqProject ===== *)
-Q . S2P
Prelude.v
Search.v
Support.v
Layout.v
Meta.v
Freelist.v
Node.v
Page.v
PageNode.v
Inner.v
Spill.v
Db.v
Commit.v
Tx.v
Coordination.v
Open.v
Codecs.v
Changes.v
Journal.v
Persist.v
Buckets.v
Cursor.v
Handle.v
Store.v
MapApi.v
Check.v
Typed.v
Nested.v
Ttl.v
Schema.v
Collection.v
Scan.v
Merge.v
SpillWrite.v
SpillTree.v
Reopen.v
Isolation.v
Run.v
Session.v
Backup.v
CopyTree.v
Cli.v
Forest.v
Ofd.v
