(* ===== verification/Prelude.v ===== *)
(** * A verification of tagdata, an embedded transactional key-value store

    tagdata keeps nested buckets of byte-string keys and values in one file.  The
    file is an array of pages; a commit writes changed pages to pages no snapshot
    uses and then publishes them by writing one of two metadata slots, so readers
    keep their snapshot and a crash leaves the state before or after the commit.

    ** How the program is put together, and where it is modelled

    - [src/src/support]: errors and byte strings.  [Support] has the error type,
      the result monad ([Ok], [Err], [Panic]) and [Bytes].
    - [src/src/storage/page.rs], [meta.rs]: pages as bytes.  [Layout] reads and
      writes the [#[repr(C)]] structs at byte offsets, [Meta] has the metadata,
      [Page] the validation, checksums and the encoding and decoding of nodes.
    - [src/src/storage/freelist.rs]: [Freelist], the reusable and the retired pages
      and the allocator of a transaction.
    - [src/src/tree]: [Node] has the nodes of the B+ tree with insertion, deletion,
      splitting and merging, [PageNode] the view that is a page or a node.
    - [src/src/api/bucket/inner.rs]: [Inner] has the tree of a bucket (search, get,
      put, delete, the pages that become nodes), [Spill] its commit-time half,
      [Buckets] the nested buckets, their opening and their deletion.
    - [src/src/api/cursor.rs], [data.rs]: [Cursor], cursors, ranges and iterators.
    - [src/src/api/bucket/mod.rs], [map.rs], [atomic.rs]: [Handle] has the methods of
      bucket handles, [Store] what they promise ([BucketStore], [BucketLaws]) and
      that they keep it, [MapApi] the methods built on those promises, [Forest] all the
      handles of a transaction together, against a tree of maps.
    - [src/src/storage/db.rs], [format.rs] and [src/src/api/tx.rs]: [Db] has the
      metadata slots, file creation and the plan of a commit, [Commit] what a commit
      and a crash in it leave, [Tx] transactions and the invariant of a file between
      them, [Persist] what writing a node does to the transaction, [SpillWrite] and
      [SpillTree] what spilling a whole tree leaves on the pages of the transaction,
      [Reopen] what the next transaction reads of it, [Check] the integrity check,
      [Run] whole transactions from a file to the committed file.
    - [src/src/storage/coordination]: [Coordination], how readers announce their
      snapshot in byte-range locks and a writer finds them, over any table of locks;
      [Ofd], the lock calls of [ofd.rs] over [fcntl], which are such a table.
      [Isolation] is the state machine of readers and writers that begin, read, write,
      commit, crash and end.
    - [OpenOptions], [DBInner] of [db.rs], [format.rs], [tx.rs], [verification.rs],
      [stats.rs], [scoped.rs]: [Open] finds the page size of a file, [Session] has the
      handle of a database: opening, waiting for the locks, beginning, committing with
      read-back and ending transactions, reports and statistics.
    - [src/src/storage/maintenance.rs], [operator.rs]: [Backup] has the copies and the
      salvage, [CopyTree] what they hold.  [src/src/bin/tagdata.rs]: [Cli].
    - [src/src/api/changes.rs], [journal.rs]: [Changes] and [Journal].
    - [src/src/typed]: [Codecs] has the codecs and the laws they satisfy, [Typed] the
      typed buckets over any store that keeps the laws of a bucket.
    - [src/src/api/ttl.rs]: [Nested] states what a bucket promises about the buckets
      in it ([NestedStore], [NestedLaws]) and that the handles keep it, [Ttl] has
      expiry over that interface.
    - [src/src/application]: [Schema] has the definitions of collections and the
      table of their fingerprints, [Collection] the operations of collections, their
      entries, iterators and batches, [Scan] what a scan of a collection gives.
    - [src/src/api/merge.rs]: [Merge], the merge of one bucket or transaction into
      another, over a pair of transaction states.

    [Search] has the binary search of the standard library and ordered lists; this
    file the bytes, machine integers, the lexicographic order and the automation.

    ** How the state corresponds

    A 64-bit unsigned integer is a [Z]; sums, products and differences wrap
    ([u64_wrap]) or are checked ([checked_add], ...) where the code does so.  Keys,
    values, pages and files are lists of bytes.  [Rc<RefCell<_>>] objects are
    indices into a vector (nodes) or references into a store (buckets), so aliasing
    is visible.  A [HashMap] or [BTreeMap] is a [gmap]; where a hash map is iterated
    the model uses the key order.  A panic of the code, an index out of bounds or an
    [unwrap] of [None] is [Panic]; [debug_assert] is not modelled and arithmetic is
    that of a release build.  A failed operation returns only its error.  SHA3 is a
    parameter, the class [Digest]; a table of locks is the class [LockTable], [fcntl]
    the class [Fcntl] with the laws [FcntlLaws].

    ** What the theorems show

    - Storage: validation of a page is sound and complete for reading it in bounds,
      a written node reads back, a changed block is detected; the allocator gives
      fresh blocks, the lowest that fit; retired pages are released by generation.
    - Transactions: a commit publishes exactly its metadata, every crash in it leaves
      the database before or after it, the freelist survives, every transaction
      keeps the invariant of the file, and no page of a registered snapshot changes;
      the integrity check accepts exactly the files whose pages are all used once.
    - Concurrency: from any database and with any interleaving of readers and writers
      the file stays a database, snapshots stay as they are while they are read, and
      retired pages come back once no reader needs them.  However the lock calls of
      many processes interleave, the readers found are exactly the registered ones,
      the gate excludes, and a registration that fails leaves nothing behind.
    - Opening: a file is opened again with the page size it was made with, without
      being told; the read-back of a commit accepts exactly what was written; waiting
      for the locks under a deadline ends.
    - Copies: a backup or compaction holds the same tree of buckets, at any depth of
      nesting; a salvage is a copy that skips; the tool's commands never change a
      file that exists, and their JSON parses to what they report.
    - Writing trees: [spill] of a changed bucket succeeds and leaves a tree of pages
      with the same entries, and after the commit the bucket opened at the published
      root is a well-formed tree with exactly these entries.
    - Trees: get, put and delete on a bucket are lookup, insertion and removal of the
      finite map its tree holds, whatever pages have become nodes; cursors and
      ranges give exactly the entries in order and end; nested buckets are opened,
      created and deleted with all their pages; the bulk and atomic methods do what
      they say on every branch.
    - A whole transaction: any sequence of lookups, insertions, deletions, openings,
      creations and deletions of buckets through any handles gives the results of a
      tree of maps and never panics; two live handles share their object exactly when
      they are of the same path, and every object stays a well-formed tree.
    - Above them: typed buckets are maps of typed keys to typed values; values with an
      expiry are visible exactly until their deadline and a cleanup removes exactly
      the expired ones, the earliest first; collections are maps of typed records
      that expire, their scans give the live records in order and pages joined by
      their tokens give all of them once; a schema refuses other codecs; a merge
      leaves at every key what its policy says and reports it.
    - Around them: codecs round trip and keep the order of keys, watches lose nothing silently, journal records round
      trip and are kept within their retention.
    - Where the code does not do what it means to, a theorem says so on a concrete
      database: emptied leaves break the commit and the iterators, deleting a bucket
      after a bucket nested in it retires pages twice, a journal consumer can
      overwrite the journal's configuration, the first expiry written to an older
      file hides the older ones from the cleanup, a prefix scan misses the records
      it is for, a bucket merged into its own child is copied without end, a reader
      that fails to start stays counted, one damaged page ends a salvage, and the
      backup of a file that does not exist creates it and succeeds.

    ** Fuel

    Loops that follow page numbers found in the file ([search], [node], [check],
    [descend_first], ...) take fuel, because a file whose pages form a cycle makes
    the code loop forever; running out is [Panic NOFUEL].  The theorems state how
    much is enough: more than the height of the tree for searches and cursors, more
    than the number of entries for loops over them, more than the number of pages
    for the check and for deleting a bucket.  Loops over data in memory are
    structural.

    ** Not modelled

    Memory mapping and the calls of the system on an existing file, which are taken
    not to fail; threads other than as interleaved steps: the answers of locks and of
    the clock are arguments, [fcntl] is a parameter that keeps its documented
    behaviour; temporary names and the synchronisation of directories; [fallocate];
    fault injection; the [MessagePack] codec, which a third-party library implements.

    What the theorems leave open: [SpillTree] and [Reopen] take one bucket whose nodes
    form a tree, so the commit of a transaction is proved for one changed bucket, and
    for nested buckets on concrete databases ([Run], [Backup]); the merge of two leaves
    at a commit is modelled and has a theorem only where it panics. *)

From stdpp Require Export base tactics option list gmap sets strings pretty sorting.
From Stdlib Require Export ZArith Lia.
From Stdlib Require Import Strings.Byte.

(** Notations of the development live in their own scope. *)
Declare Scope tagdata_scope.
Delimit Scope tagdata_scope with tagdata.
#[global] Open Scope Z_scope.

(** ** Bytes *)

Abbreviation byte := Corelib.Init.Byte.byte.
Abbreviation bytes := (list Corelib.Init.Byte.byte).

#[global] Instance byte_eq_dec : EqDecision byte := Byte.byte_eq_dec.

#[global] Instance byte_countable : Countable byte.
Proof. refine (inj_countable Byte.to_N Byte.of_N Byte.of_to_N). Defined.

(** The numeric value of a [u8], and the [u8] of a number taken modulo 256. *)
Definition Z_of_byte (b : byte) : Z := Z.of_N (Byte.to_N b).

Definition byte_of_Z (z : Z) : byte :=
  match Byte.of_N (Z.to_N (z mod 256)) with
  | Some b => b
  | None => Byte.x00
  end.

(** ** Machine integers

    [u64] and (on the 64-bit targets the program supports) [usize] values are
    [Z] between 0 and [u64_max]; the operations write out what happens outside
    the range. *)

Definition u64_mod : Z := 2 ^ 64.
Definition u64_max : Z := 2 ^ 64 - 1.
Definition isize_max : Z := 2 ^ 63 - 1.

Definition in_u64 (z : Z) : Prop := 0 <= z < u64_mod.

Definition u64_wrap (z : Z) : Z := z mod u64_mod.

(** [u64::checked_add], [checked_mul], [checked_sub]. *)
Definition checked_add (a b : Z) : option Z :=
  if a + b <=? u64_max then Some (a + b) else None.

Definition checked_mul (a b : Z) : option Z :=
  if a * b <=? u64_max then Some (a * b) else None.

Definition checked_sub (a b : Z) : option Z :=
  if b <=? a then Some (a - b) else None.

(** [u64::saturating_add], [saturating_mul], [saturating_sub]. *)
Definition saturating_add (a b : Z) : Z := Z.min (a + b) u64_max.
Definition saturating_mul (a b : Z) : Z := Z.min (a * b) u64_max.
Definition saturating_sub (a b : Z) : Z := Z.max (a - b) 0.

(** A length as the u64 the code converts it to. *)
Definition len_u64 {A} (l : list A) : Z := Z.of_nat (length l).

(** ** Little- and big-endian integers ([to_le_bytes], [to_be_bytes]) *)

Fixpoint le_bytes (n : nat) (z : Z) : bytes :=
  match n with
  | O => []
  | S n => byte_of_Z z :: le_bytes n (z / 256)
  end.

Fixpoint of_le (l : bytes) : Z :=
  match l with
  | [] => 0
  | b :: l => Z_of_byte b + 256 * of_le l
  end.

Definition be_bytes (n : nat) (z : Z) : bytes := reverse (le_bytes n z).
Definition of_be (l : bytes) : Z := of_le (reverse l).

(** ** Byte-string order ([<[u8] as Ord>::cmp]): lexicographic. *)

Fixpoint lex_cmp (a b : bytes) : comparison :=
  match a, b with
  | [], [] => Eq
  | [], _ :: _ => Lt
  | _ :: _, [] => Gt
  | x :: a, y :: b =>
      match Z.compare (Z_of_byte x) (Z_of_byte y) with
      | Eq => lex_cmp a b
      | c => c
      end
  end.

Definition lex_lt (a b : bytes) : Prop := lex_cmp a b = Lt.
Definition lex_le (a b : bytes) : Prop := lex_cmp a b ≠ Gt.
Definition lex_ltb (a b : bytes) : bool :=
  match lex_cmp a b with Lt => true | _ => false end.

(** [<[u8]>::starts_with]. *)
Fixpoint starts_with (l prefix : bytes) {struct prefix} : bool :=
  match prefix, l with
  | [], _ => true
  | _ :: _, [] => false
  | p :: prefix, x :: l => bool_decide (x = p) && starts_with l prefix
  end.

(** ** Slices *)

(** [buf.get(off..off + n)]. *)
Definition slice_get {A} (l : list A) (off n : nat) : option (list A) :=
  if (off + n <=? length l)%nat then Some (take n (drop off l)) else None.

(** [buf[off..off + bs.len()].copy_from_slice(bs)] on a buffer that is long
    enough. *)
Definition write_at (buf : bytes) (off : nat) (bs : bytes) : bytes :=
  take off buf ++ bs ++ drop (off + length bs) buf.

(** ** Automation *)

(** Case analysis on the scrutinee of every [match] and [if] of the goal and
    the hypotheses, with the equation kept. *)
Ltac cases := repeat case_match.
Ltac cases_simpl := repeat (case_match; simplify_eq/=); try done.

(** Turn boolean integer tests of the context into propositions. *)
Ltac bool_to_prop :=
  repeat match goal with
  | H : (_ <=? _) = true |- _ => apply Z.leb_le in H
  | H : (_ <=? _) = false |- _ => apply Z.leb_gt in H
  | H : (_ <? _) = true |- _ => apply Z.ltb_lt in H
  | H : (_ <? _) = false |- _ => apply Z.ltb_ge in H
  | H : (_ =? _) = true |- _ => apply Z.eqb_eq in H
  | H : (_ =? _) = false |- _ => apply Z.eqb_neq in H
  | H : (_ <=? _)%nat = true |- _ => apply Nat.leb_le in H
  | H : (_ <=? _)%nat = false |- _ => apply Nat.leb_gt in H
  | H : (_ <? _)%nat = true |- _ => apply Nat.ltb_lt in H
  | H : (_ <? _)%nat = false |- _ => apply Nat.ltb_ge in H
  | H : (_ =? _)%nat = true |- _ => apply Nat.eqb_eq in H
  | H : (_ =? _)%nat = false |- _ => apply Nat.eqb_neq in H
  | H : (_ && _) = true |- _ => apply andb_prop in H as [? ?]
  | H : (_ || _) = false |- _ => apply orb_false_elim in H as [? ?]
  end.

(** Boolean tests decided by linear arithmetic. *)
Ltac btest :=
  repeat first
    [ rewrite (proj2 (Z.leb_le _ _)) by lia
    | rewrite (proj2 (Z.leb_gt _ _)) by lia
    | rewrite (proj2 (Z.ltb_lt _ _)) by lia
    | rewrite (proj2 (Z.ltb_ge _ _)) by lia
    | rewrite (proj2 (Nat.leb_le _ _)) by lia
    | rewrite (proj2 (Nat.leb_gt _ _)) by lia ].

Create HintDb tagdata.

(** ** Byte lemmas *)

Lemma Z_of_byte_range b : 0 <= Z_of_byte b < 256.
Proof. unfold Z_of_byte. pose proof (Byte.to_N_bounded b). lia. Qed.

Lemma byte_of_Z_of_byte b : byte_of_Z (Z_of_byte b) = b.
Proof.
  unfold byte_of_Z. pose proof (Z_of_byte_range b).
  rewrite Z.mod_small by lia. unfold Z_of_byte.
  by rewrite N2Z.id, Byte.of_to_N.
Qed.

Lemma Z_of_byte_of_Z z : Z_of_byte (byte_of_Z z) = z mod 256.
Proof.
  unfold byte_of_Z, Z_of_byte.
  pose proof (Z.mod_pos_bound z 256 ltac:(lia)) as Hz.
  destruct (Byte.of_N _) as [b|] eqn:E.
  - apply Byte.to_of_N in E. rewrite E, Z2N.id; lia.
  - apply Byte.of_N_None_iff in E. lia.
Qed.

#[global] Instance Z_of_byte_inj : Inj (=) (=) Z_of_byte.
Proof.
  intros a b E. rewrite <-(byte_of_Z_of_byte a), <-(byte_of_Z_of_byte b). congruence.
Qed.

(** ** Endianness lemmas *)

Lemma length_le_bytes n z : length (le_bytes n z) = n.
Proof. revert z. induction n as [|n IH]; intros z; simpl; [done|]. by rewrite IH. Qed.

Lemma length_be_bytes n z : length (be_bytes n z) = n.
Proof. unfold be_bytes. by rewrite length_reverse, length_le_bytes. Qed.

Lemma of_le_range l : 0 <= of_le l < 256 ^ Z.of_nat (length l).
Proof.
  induction l as [|b l IH]; [by cbv|].
  cbn [of_le length]. rewrite Nat2Z.inj_succ, Z.pow_succ_r by lia.
  pose proof (Z_of_byte_range b). lia.
Qed.

Lemma of_be_range l : 0 <= of_be l < 256 ^ Z.of_nat (length l).
Proof. unfold of_be. rewrite <-(length_reverse l). apply of_le_range. Qed.

Lemma of_le_bytes n z : of_le (le_bytes n z) = z mod 256 ^ Z.of_nat n.
Proof.
  revert z. induction n as [|n IH]; intros z.
  { cbn. by rewrite Z.mod_1_r. }
  cbn [le_bytes of_le]. rewrite IH, Z_of_byte_of_Z, Nat2Z.inj_succ, Z.pow_succ_r by lia.
  rewrite Z.rem_mul_r by lia. lia.
Qed.

Lemma le_bytes_of_le l : le_bytes (length l) (of_le l) = l.
Proof.
  induction l as [|b l IH]; [done|]. cbn [length le_bytes of_le].
  pose proof (Z_of_byte_range b). f_equal.
  - rewrite <-(byte_of_Z_of_byte b) at 2. unfold byte_of_Z.
    rewrite (Z.mul_comm 256), Z.mod_add by lia. done.
  - rewrite (Z.mul_comm 256), Z.div_add, Z.div_small by lia. by rewrite Z.add_0_l.
Qed.

Lemma of_be_bytes n z : of_be (be_bytes n z) = z mod 256 ^ Z.of_nat n.
Proof. unfold of_be, be_bytes. by rewrite reverse_involutive, of_le_bytes. Qed.

Lemma be_bytes_of_be l : be_bytes (length l) (of_be l) = l.
Proof.
  unfold of_be, be_bytes. rewrite <-(length_reverse l), le_bytes_of_le.
  apply reverse_involutive.
Qed.

(** The round trips at eight and four bytes, as the code uses them. *)
Lemma of_be_bytes8 z : in_u64 z → of_be (be_bytes 8 z) = z.
Proof. intros [??]. rewrite of_be_bytes. by apply Z.mod_small. Qed.

Lemma of_le_bytes8 z : in_u64 z → of_le (le_bytes 8 z) = z.
Proof. intros [??]. rewrite of_le_bytes. by apply Z.mod_small. Qed.

Lemma of_le_bytes4 z : 0 <= z < 2 ^ 32 → of_le (le_bytes 4 z) = z.
Proof. intros [??]. rewrite of_le_bytes. by apply Z.mod_small. Qed.

Lemma of_be_bytes4 z : 0 <= z < 2 ^ 32 → of_be (be_bytes 4 z) = z.
Proof. intros [??]. rewrite of_be_bytes. by apply Z.mod_small. Qed.

Lemma of_le_app l1 l2 : of_le (l1 ++ l2) = of_le l1 + 256 ^ Z.of_nat (length l1) * of_le l2.
Proof.
  induction l1 as [|b l1 IH]; [cbn; lia|].
  cbn [of_le app length]. rewrite IH, Nat2Z.inj_succ, Z.pow_succ_r by lia. lia.
Qed.

Lemma of_be_cons b l : of_be (b :: l) = Z_of_byte b * 256 ^ Z.of_nat (length l) + of_be l.
Proof.
  unfold of_be. rewrite reverse_cons, of_le_app, length_reverse. cbn [of_le]. lia.
Qed.

(** ** The byte-string order is a strict total order *)

Lemma lex_cmp_refl a : lex_cmp a a = Eq.
Proof. induction a as [|x a IH]; [done|]. cbn. by rewrite Z.compare_refl. Qed.

Lemma lex_cmp_eq a b : lex_cmp a b = Eq ↔ a = b.
Proof.
  split; [|intros ->; apply lex_cmp_refl].
  revert b. induction a as [|x a IH]; intros [|y b]; cbn; try done.
  destruct (Z.compare_spec (Z_of_byte x) (Z_of_byte y)) as [E| |]; try done.
  intros ?%IH. apply (inj Z_of_byte) in E. congruence.
Qed.

Lemma lex_cmp_antisym a b : lex_cmp b a = CompOpp (lex_cmp a b).
Proof.
  revert b. induction a as [|x a IH]; intros [|y b]; cbn; try done.
  rewrite (Z.compare_antisym (Z_of_byte x)).
  destruct (Z_of_byte x ?= Z_of_byte y); cbn; [apply IH|done|done].
Qed.

Lemma lex_cmp_gt a b : lex_cmp a b = Gt ↔ lex_lt b a.
Proof. unfold lex_lt. rewrite (lex_cmp_antisym a b). by destruct (lex_cmp a b). Qed.

Lemma lex_lt_trans a b c : lex_lt a b → lex_lt b c → lex_lt a c.
Proof.
  unfold lex_lt. revert b c.
  induction a as [|x a IH]; intros [|y b] [|z c]; cbn; try done.
  destruct (Z.compare_spec (Z_of_byte x) (Z_of_byte y)),
    (Z.compare_spec (Z_of_byte y) (Z_of_byte z)); try done; intros ??.
  - rewrite (proj2 (Z.compare_eq_iff _ _)) by lia. eauto.
  - by rewrite (proj2 (Z.compare_lt_iff _ _)) by lia.
  - by rewrite (proj2 (Z.compare_lt_iff _ _)) by lia.
  - by rewrite (proj2 (Z.compare_lt_iff _ _)) by lia.
Qed.

#[global] Instance lex_lt_strict : StrictOrder lex_lt.
Proof.
  split; [|intros ???; apply lex_lt_trans].
  intros a. unfold complement, lex_lt. by rewrite lex_cmp_refl.
Qed.

#[global] Instance lex_lt_dec : RelDecision lex_lt.
Proof. intros a b. unfold lex_lt. apply _. Defined.

Lemma lex_lt_irrefl a : ¬ lex_lt a a.
Proof. apply (irreflexivity lex_lt). Qed.

Lemma lex_lt_asym a b : lex_lt a b → ¬ lex_lt b a.
Proof. intros ??. by apply (lex_lt_irrefl a), (lex_lt_trans a b a). Qed.

Lemma lex_ltb_lt a b : lex_ltb a b = true ↔ lex_lt a b.
Proof. unfold lex_ltb, lex_lt. by destruct (lex_cmp a b). Qed.

Lemma lex_trichotomy a b : lex_lt a b ∨ a = b ∨ lex_lt b a.
Proof.
  destruct (lex_cmp a b) eqn:E.
  - apply lex_cmp_eq in E; auto.
  - by left.
  - apply lex_cmp_gt in E; auto.
Qed.

Lemma lex_le_alt a b : lex_le a b ↔ lex_lt a b ∨ a = b.
Proof.
  unfold lex_le, lex_lt. destruct (lex_cmp a b) eqn:E.
  - apply lex_cmp_eq in E. subst. naive_solver.
  - naive_solver.
  - split; [done|]. intros [?|?]; [done|]. subst. rewrite lex_cmp_refl in E. done.
Qed.

Lemma lex_not_lt a b : ¬ lex_lt a b ↔ lex_le b a.
Proof.
  rewrite lex_le_alt. destruct (lex_trichotomy a b) as [?|[?|?]].
  - split; [done|]. intros [?| ?]; [by apply lex_lt_asym|subst; by apply lex_lt_irrefl].
  - subst. split; [by right|]. intros _. apply lex_lt_irrefl.
  - split; [by left|]. intros _. by apply lex_lt_asym.
Qed.

Lemma lex_ltb_le a b : lex_ltb a b = false ↔ lex_le b a.
Proof. by rewrite <-lex_not_lt, <-lex_ltb_lt, not_true_iff_false. Qed.

Lemma lex_ltb_irrefl k : lex_ltb k k = false.
Proof. apply lex_ltb_le. rewrite lex_le_alt. by right. Qed.

#[global] Instance lex_le_dec : RelDecision lex_le.
Proof. intros a b. unfold lex_le. apply _. Defined.

#[global] Instance lex_le_trans : Transitive lex_le.
Proof.
  intros a b c. rewrite !lex_le_alt. intros [?|?] [?|?]; subst; auto.
  left. by eapply lex_lt_trans.
Qed.

#[global] Instance lex_le_total : Total lex_le.
Proof. intros a b. rewrite !lex_le_alt. destruct (lex_trichotomy a b) as [?|[?|?]]; auto. Qed.

#[global] Instance lex_le_antisym : AntiSymm (=) lex_le.
Proof.
  intros a b. rewrite !lex_le_alt. intros [?|?] [?|?]; auto.
  exfalso. by eapply lex_lt_asym.
Qed.

Lemma lex_lt_le_trans a b c : lex_lt a b → lex_le b c → lex_lt a c.
Proof. rewrite lex_le_alt. intros ? [?| <-]; [by eapply lex_lt_trans|done]. Qed.

Lemma lex_le_lt_trans a b c : lex_le a b → lex_lt b c → lex_lt a c.
Proof. rewrite lex_le_alt. intros [?| ->] ?; [by eapply lex_lt_trans|done]. Qed.

#[global] Hint Resolve lex_lt_irrefl : core.
#[export] Hint Resolve lex_lt_trans lex_lt_le_trans lex_le_lt_trans : tagdata.

(** Common prefixes do not matter. *)
Lemma lex_cmp_app_l p a b : lex_cmp (p ++ a) (p ++ b) = lex_cmp a b.
Proof. induction p as [|x p IH]; [done|]. cbn. by rewrite Z.compare_refl. Qed.

(** Two equally long strings compare first; the rest decides a tie. *)
Lemma lex_cmp_app p q a b :
  length p = length q →
  lex_cmp (p ++ a) (q ++ b) = match lex_cmp p q with Eq => lex_cmp a b | c => c end.
Proof.
  revert q. induction p as [|x p IH]; intros [|y q] Hl; try done.
  cbn. destruct (Z_of_byte x ?= Z_of_byte y); [|done|done]. apply IH. by injection Hl.
Qed.

(** Big-endian encodings of equal width order like the numbers. *)
Lemma lex_cmp_of_be a b :
  length a = length b → lex_cmp a b = Z.compare (of_be a) (of_be b).
Proof.
  revert b. induction a as [|x a IH]; intros [|y b] Hl; try done.
  injection Hl as Hl. cbn [lex_cmp]. rewrite !of_be_cons, Hl, (IH b Hl).
  pose proof (of_be_range a) as Ha. pose proof (of_be_range b) as Hb. rewrite Hl in Ha.
  set (P := 256 ^ Z.of_nat (length b)) in *.
  destruct (Z.compare_spec (Z_of_byte x) (Z_of_byte y)) as [E|E|E].
  - rewrite E. destruct (Z.compare_spec (of_be a) (of_be b)); symmetry;
      [apply Z.compare_eq_iff|apply Z.compare_lt_iff|apply Z.compare_gt_iff]; lia.
  - symmetry. apply Z.compare_lt_iff. nia.
  - symmetry. apply Z.compare_gt_iff. nia.
Qed.

Lemma lex_cmp_be_bytes8 x y :
  in_u64 x → in_u64 y → lex_cmp (be_bytes 8 x) (be_bytes 8 y) = Z.compare x y.
Proof.
  intros. rewrite lex_cmp_of_be by (by rewrite !length_be_bytes).
  by rewrite !of_be_bytes8.
Qed.

Lemma starts_with_spec l p : starts_with l p = true ↔ ∃ r, l = p ++ r.
Proof.
  revert l. induction p as [|x p IH]; intros l; cbn.
  { split; [by exists l|done]. }
  destruct l as [|y l].
  { split; [done|]. by intros [r ?]. }
  rewrite andb_true_iff, bool_decide_eq_true, IH. split.
  - intros [-> [r ->]]. by exists r.
  - intros [r [= -> ->]]. split; [done|]. by exists r.
Qed.

(** ** Lemmas on buffers *)

Lemma length_write_at buf off bs :
  (off + length bs <= length buf)%nat → length (write_at buf off bs) = length buf.
Proof. intros. unfold write_at. rewrite !length_app, length_take, length_drop. lia. Qed.

(** Reading back what was written, and reading beside it. *)
Lemma write_at_read buf off bs :
  (off <= length buf)%nat → take (length bs) (drop off (write_at buf off bs)) = bs.
Proof.
  intros. unfold write_at.
  rewrite drop_app_length' by (rewrite length_take; lia).
  by rewrite take_app_length.
Qed.

Lemma write_at_read_before buf off bs o n :
  (off <= length buf)%nat → (o + n <= off)%nat →
  take n (drop o (write_at buf off bs)) = take n (drop o buf).
Proof.
  intros. unfold write_at.
  rewrite skipn_app, firstn_app, !length_drop, !length_take.
  replace (n - (off `min` length buf - o))%nat with 0%nat by lia.
  rewrite take_0, app_nil_r, !take_drop_commute, take_take. do 2 f_equal. lia.
Qed.

Lemma write_at_read_after buf off bs o n :
  (off + length bs <= length buf)%nat → (off + length bs <= o)%nat →
  take n (drop o (write_at buf off bs)) = take n (drop o buf).
Proof.
  intros. unfold write_at. rewrite app_assoc.
  rewrite drop_app_ge by (rewrite length_app, length_take; lia).
  rewrite length_app, length_take, drop_drop. do 2 f_equal. lia.
Qed.

Lemma slice_get_Some {A} (l : list A) off n r :
  slice_get l off n = Some r ↔ (off + n <= length l)%nat ∧ r = take n (drop off l).
Proof. unfold slice_get. case_match; bool_to_prop; naive_solver lia. Qed.

(** ** Filters *)

Lemma filter_keeps {A} (P : A → Prop) `{∀ x, Decision (P x)} (l : list A) : Forall P l → filter P l = l.
Proof. induction 1; [done|]. rewrite filter_cons, decide_True by done. by f_equal. Qed.

Lemma filter_none {A} (P : A → Prop) `{∀ x, Decision (P x)} (l : list A) : Forall (λ x, ¬ P x) l → filter P l = [].
Proof. induction 1; [done|]. by rewrite filter_cons_False. Qed.

Lemma filter_agree {A} (P Q : A → Prop) `{∀ x, Decision (P x), ∀ x, Decision (Q x)} (l : list A) :
  (∀ x, x ∈ l → P x ↔ Q x) → filter P l = filter Q l.
Proof.
  induction l as [|x l IH]; intros Hl; [done|]. rewrite !filter_cons, IH by set_solver.
  destruct (decide (P x)), (decide (Q x)); set_solver.
Qed.

(** ** Sorted lists *)

Lemma StronglySorted_sublist {A} (R : A → A → Prop) (l1 l2 : list A) :
  l1 `sublist_of` l2 → StronglySorted R l2 → StronglySorted R l1.
Proof.
  induction 1 as [|x l1 l2 Hs IH|x l1 l2 Hs IH]; intros H; [constructor| |].
  - apply StronglySorted_inv in H as [H1 H2]. constructor; [by apply IH|]. rewrite Forall_forall in *. intros y Hy. apply H2. by eapply sublist_submseteq, elem_of_submseteq in Hs.
  - apply StronglySorted_inv in H as [H1 _]. by apply IH.
Qed.

Lemma StronglySorted_weaken {A} (R R' : A → A → Prop) (l : list A) : (∀ a b, R a b → R' a b) → StronglySorted R l → StronglySorted R' l.
Proof. intros HR Hs. induction Hs as [|a l Hs IH Hall]; constructor; [done|]. eapply Forall_impl; [exact Hall|]. intros b. apply HR. Qed.

(** The front of a sorted list comes before the rest. *)
Lemma StronglySorted_split {A} (R : A → A → Prop) (l : list A) i a c : StronglySorted R l → a ∈ take i l → c ∈ drop i l → R a c.
Proof. intros Hs Ha Hc. rewrite <-(take_drop i l) in Hs. apply StronglySorted_app in Hs as (Hrel & _ & _). by apply Hrel. Qed.
