(* ===== verification/Search.v ===== *)
(** * Searching and sorting slices

    The standard-library routines the tree relies on: [binary_search_by_key]
    with the halving loop of [core::slice], ordered insertion, and
    [sort_unstable_by_key].  Each is related to a reference on sorted lists, so
    that the components only meet the reference. *)

From S2P Require Import Prelude.

(** ** [slice::binary_search_by_key] of the standard library

    The loop halves [size] until one candidate is left; [base] moves right
    whenever the probed key is not greater than the one searched for. *)

Inductive SearchResult :=
  | SFound (i : nat)
  | SMissing (i : nat).

Section binary_search.
Context {A : Type} (key : A → bytes).

Definition probe (l : list A) (k : bytes) (i : nat) : comparison :=
  match l !! i with
  | Some e => lex_cmp (key e) k
  | None => Gt
  end.

Fixpoint bs_loop (fuel : nat) (l : list A) (k : bytes) (base size : nat) : nat :=
  match fuel with
  | O => base
  | S fuel =>
      if (size <=? 1)%nat then base
      else
        let half := (size / 2)%nat in
        let mid := (base + half)%nat in
        let base' := match probe l k mid with Gt => base | _ => mid end in
        bs_loop fuel l k base' (size - half)
  end.

Definition binary_search_by_key (l : list A) (k : bytes) : SearchResult :=
  match length l with
  | O => SMissing 0
  | S _ =>
      let base := bs_loop (length l) l k 0 (length l) in
      match probe l k base with
      | Eq => SFound base
      | Lt => SMissing (base + 1)
      | Gt => SMissing base
      end
  end.

Definition keys_sorted (l : list A) : Prop := StronglySorted lex_lt (key <$> l).

End binary_search.

(** ** The loop *)

Section binary_search_facts.
Context {A : Type} (key : A → bytes).
Implicit Types l : list A.

Lemma keys_sorted_lookup l i j a b :
  keys_sorted key l → l !! i = Some a → l !! j = Some b → (i < j)%nat → lex_lt (key a) (key b).
Proof.
  unfold keys_sorted. revert i j. induction l as [|x l IH]; intros i j Hs Hi Hj Hij; [done|].
  rewrite fmap_cons in Hs. apply StronglySorted_cons in Hs as [Hx Hs].
  destruct j as [|j]; [lia|]. simpl in Hj. destruct i as [|i]; simplify_eq/=.
  - rewrite Forall_fmap, Forall_forall in Hx. apply Hx. by eapply list_elem_of_lookup_2.
  - eapply IH; eauto. lia.
Qed.

Lemma keys_sorted_app l1 l2 :
  keys_sorted key (l1 ++ l2) ↔
  (∀ a b, a ∈ l1 → b ∈ l2 → lex_lt (key a) (key b)) ∧ keys_sorted key l1 ∧ keys_sorted key l2.
Proof.
  unfold keys_sorted. rewrite fmap_app, StronglySorted_app. set_solver.
Qed.

Lemma keys_sorted_cons x l :
  keys_sorted key (x :: l) ↔ (∀ b, b ∈ l → lex_lt (key x) (key b)) ∧ keys_sorted key l.
Proof. unfold keys_sorted. rewrite fmap_cons, StronglySorted_cons, Forall_fmap, Forall_forall. done. Qed.

Lemma keys_sorted_NoDup l : keys_sorted key l → NoDup (key <$> l).
Proof.
  induction l as [|x l IH]; [constructor|].
  rewrite keys_sorted_cons, fmap_cons. intros [Hx Hs]. constructor; [|auto].
  rewrite list_elem_of_fmap. intros (y & Hk & Hy). apply Hx in Hy. rewrite Hk in Hy.
  by apply lex_lt_irrefl in Hy.
Qed.

Lemma keys_sorted_inj l i j a b :
  keys_sorted key l → l !! i = Some a → l !! j = Some b → key a = key b → i = j.
Proof.
  intros Hs Hi Hj E. destruct (Nat.lt_trichotomy i j) as [?|[?|?]]; [|done|]; exfalso.
  - eapply (lex_lt_irrefl (key a)). rewrite E at 2. by eapply keys_sorted_lookup.
  - eapply (lex_lt_irrefl (key a)). rewrite E at 1. by eapply keys_sorted_lookup.
Qed.

Lemma probe_lookup l k i e : l !! i = Some e → probe key l k i = lex_cmp (key e) k.
Proof. unfold probe. by intros ->. Qed.

(** The loop stops on the last element whose key is not above [k], or on 0. *)
Lemma bs_loop_spec l k fuel base size :
  keys_sorted key l → (size <= fuel)%nat → (1 <= size)%nat → (base + size <= length l)%nat →
  (base = 0%nat ∨ probe key l k base ≠ Gt) →
  (∀ j e, l !! j = Some e → (base + size <= j)%nat → lex_lt k (key e)) →
  let b := bs_loop key fuel l k base size in
  (b < length l)%nat ∧ (b = 0%nat ∨ probe key l k b ≠ Gt) ∧
  (∀ j e, l !! j = Some e → (b < j)%nat → lex_lt k (key e)).
Proof.
  intros Hs. revert base size. induction fuel as [|fuel IH]; intros base size Hf H1 Hb Hlo Hhi; [lia|].
  cbn [bs_loop]. destruct (Nat.leb_spec size 1).
  { split_and!; [lia|done|]. intros j e ??. apply (Hhi j e); [done|lia]. }
  assert (1 <= size / 2 /\ 2 * (size / 2) <= size)%nat as [Hh1 Hh2].
  { split; [apply (Nat.div_le_lower_bound size 2 1); lia|apply Nat.Div0.mul_div_le]. }
  set (half := (size / 2)%nat) in *.
  destruct (lookup_lt_is_Some_2 l (base + half)) as [m Hm]; [lia|].
  destruct (probe key l k (base + half)) eqn:E.
  - apply IH; [lia..|right; congruence|]. intros j e ??. apply (Hhi j e); [done|lia].
  - apply IH; [lia..|right; congruence|]. intros j e ??. apply (Hhi j e); [done|lia].
  - apply IH; [lia..|done|]. intros j e Hj Hle.
    rewrite (probe_lookup _ _ _ _ Hm) in E. apply lex_cmp_gt in E.
    destruct (decide (j = base + half)%nat) as [->|Hne].
    + by simplify_eq.
    + eapply lex_lt_trans; [done|]. eapply (keys_sorted_lookup l (base + half) j); eauto. lia.
Qed.

(** What a search result means on a sorted slice. *)
Definition search_ok (l : list A) (k : bytes) (r : SearchResult) : Prop :=
  match r with
  | SFound i => ∃ e, l !! i = Some e ∧ key e = k
  | SMissing i =>
      (i <= length l)%nat ∧
      (∀ j e, l !! j = Some e → (j < i)%nat → lex_lt (key e) k) ∧
      (∀ j e, l !! j = Some e → (i <= j)%nat → lex_lt k (key e))
  end.

Lemma binary_search_ok l k :
  keys_sorted key l → search_ok l k (binary_search_by_key key l k).
Proof.
  intros Hs. unfold binary_search_by_key. destruct (length l) as [|n] eqn:Hl.
  { apply nil_length_inv in Hl as ->. split_and!; [done|by intros ?? [=]|by intros ?? [=]]. }
  rewrite <-Hl. destruct (bs_loop_spec l k (length l) 0 (length l)) as (Hb & Hlo & Hhi); [done|lia..|by left| |].
  { intros j e Hj ?. apply lookup_lt_Some in Hj. lia. }
  set (b := bs_loop key (length l) l k 0 (length l)) in *.
  destruct (lookup_lt_is_Some_2 l b Hb) as [m Hm].
  rewrite (probe_lookup _ _ _ _ Hm) in *.
  assert (lex_lt (key m) k → ∀ j e, l !! j = Some e → (j < b + 1)%nat → lex_lt (key e) k) as Hbelow.
  { intros Hmk j e Hj ?. destruct (decide (j = b)) as [->|]; [by simplify_eq|].
    eapply lex_lt_trans; [|done]. eapply (keys_sorted_lookup l j b); eauto. lia. }
  destruct (lex_cmp (key m) k) eqn:E; cbn.
  - apply lex_cmp_eq in E. eauto.
  - split_and!; [lia|by apply Hbelow|]. intros j e ??. apply (Hhi j e); [done|lia].
  - destruct Hlo as [->|]; [|done]. apply lex_cmp_gt in E.
    split_and!; [lia|intros; lia|]. intros j e Hj ?.
    destruct (decide (j = 0%nat)) as [->|]; [by simplify_eq|].
    apply (Hhi j e); [done|lia].
Qed.

(** A correct result is unique. *)
Lemma search_ok_unique l k r1 r2 :
  keys_sorted key l → search_ok l k r1 → search_ok l k r2 → r1 = r2.
Proof.
  intros Hs. destruct r1 as [i|i], r2 as [j|j]; cbn.
  - intros (a & Ha & Hka) (b & Hb & Hkb). f_equal. eapply keys_sorted_inj; eauto. congruence.
  - intros (a & Ha & Hka) (_ & Hlo & Hhi). exfalso. destruct (decide (i < j)%nat).
    + apply (lex_lt_irrefl k). rewrite <-Hka at 1. eauto.
    + apply (lex_lt_irrefl k). rewrite <-Hka at 2. eapply Hhi; [done|lia].
  - intros (_ & Hlo & Hhi) (a & Ha & Hka). exfalso. destruct (decide (j < i)%nat).
    + apply (lex_lt_irrefl k). rewrite <-Hka at 1. eauto.
    + apply (lex_lt_irrefl k). rewrite <-Hka at 2. eapply Hhi; [done|lia].
  - intros (Hi & Hlo & Hhi) (Hj & Hlo' & Hhi'). f_equal.
    destruct (Nat.lt_trichotomy i j) as [Hlt|[?|Hlt]]; [|done|]; exfalso.
    + destruct (lookup_lt_is_Some_2 l i) as [e He]; [lia|].
      eapply (lex_lt_asym (key e) k); [by eapply Hlo'|]. eapply Hhi; eauto.
    + destruct (lookup_lt_is_Some_2 l j) as [e He]; [lia|].
      eapply (lex_lt_asym (key e) k); [by eapply Hlo|]. eapply Hhi'; eauto.
Qed.

(** ** The linear reference *)

Fixpoint linear_search (l : list A) (k : bytes) (i : nat) : SearchResult :=
  match l with
  | [] => SMissing i
  | e :: l =>
      match lex_cmp (key e) k with
      | Lt => linear_search l k (S i)
      | Eq => SFound i
      | Gt => SMissing i
      end
  end.

Definition shift_result (n : nat) (r : SearchResult) : SearchResult :=
  match r with SFound i => SFound (n + i) | SMissing i => SMissing (n + i) end.

Lemma linear_search_shift l k i n :
  linear_search l k (n + i) = shift_result n (linear_search l k i).
Proof.
  revert i. induction l as [|e l IH]; intros i; cbn; [done|].
  destruct (lex_cmp (key e) k); [done| |done]. rewrite <-IH. f_equal. lia.
Qed.

Lemma linear_search_ok l k : keys_sorted key l → search_ok l k (linear_search l k 0).
Proof.
  induction l as [|e l IH]; intros Hs.
  { split_and!; [done|by intros ?? [=]|by intros ?? [=]]. }
  pose proof Hs as Hs'. apply keys_sorted_cons in Hs as [He Hs]. cbn [linear_search].
  destruct (lex_cmp (key e) k) eqn:E.
  - apply lex_cmp_eq in E. exists e. done.
  - specialize (IH Hs). change 1%nat with (1 + 0)%nat at 1.
    rewrite linear_search_shift.
    destruct (linear_search l k 0) as [i|i]; cbn in *; [done|].
    destruct IH as (Hi & Hlo & Hhi). split_and!; [lia| |].
    + intros [|j] a Ha ?; simplify_eq/=; [done|]. eapply Hlo; eauto. lia.
    + intros [|j] a Ha ?; simplify_eq/=; [lia|]. eapply Hhi; eauto. lia.
  - apply lex_cmp_gt in E. split_and!; [lia|intros; lia|].
    intros [|j] a Ha ?; simplify_eq/=; [done|]. eapply lex_lt_trans; [done|].
    apply He. by eapply list_elem_of_lookup_2.
Qed.

(** The halving loop computes what a left-to-right scan computes. *)
Lemma binary_search_linear l k :
  keys_sorted key l → binary_search_by_key key l k = linear_search l k 0.
Proof.
  intros Hs. eapply search_ok_unique; eauto using binary_search_ok, linear_search_ok.
Qed.

End binary_search_facts.

(** ** Ordered vectors: insertion, removal, lookup by key *)

(** [Vec::insert(i, x)] for [i <= len]; [Vec::remove(i)] for [i < len]. *)
Definition vec_insert {A} (l : list A) (i : nat) (x : A) : list A := take i l ++ x :: drop i l.
Definition vec_remove {A} (l : list A) (i : nat) : list A := take i l ++ drop (S i) l.

Lemma elem_of_take_lookup {A} (l : list A) i e : e ∈ take i l → ∃ j, (j < i)%nat ∧ l !! j = Some e.
Proof. rewrite elem_of_take. naive_solver. Qed.

Lemma elem_of_drop_lookup {A} (l : list A) i e : e ∈ drop i l → ∃ j, (i <= j)%nat ∧ l !! j = Some e.
Proof.
  intros [j Hj]%list_elem_of_lookup. rewrite lookup_drop in Hj. exists (i + j)%nat. split; [lia|done].
Qed.

Section ordered.
Context {A : Type} (key : A → bytes).
Implicit Types (l : list A) (k : bytes) (x e : A).

Fixpoint assoc (l : list A) (k : bytes) : option A :=
  match l with
  | [] => None
  | e :: l => if decide (key e = k) then Some e else assoc l k
  end.

(** Replace the entry with this key or insert a new one, as the node code does
    with the result of [binary_search_by_key]. *)
Definition ordered_put (l : list A) (x : A) : list A :=
  match binary_search_by_key key l (key x) with
  | SFound i => <[i := x]> l
  | SMissing i => vec_insert l i x
  end.

Lemma assoc_app l1 l2 k :
  assoc (l1 ++ l2) k = match assoc l1 k with Some e => Some e | None => assoc l2 k end.
Proof. induction l1 as [|e l1 IH]; cbn; [done|]. by case_decide. Qed.

Lemma assoc_Some_elem l k e : assoc l k = Some e → e ∈ l ∧ key e = k.
Proof.
  induction l as [|x l IH]; cbn; [done|]. case_decide; intros; simplify_eq; set_solver.
Qed.

Lemma assoc_None l k : assoc l k = None ↔ ∀ e, e ∈ l → key e ≠ k.
Proof.
  induction l as [|x l IH]; cbn; [set_solver|]. case_decide as E.
  - split; [done|]. intros H. exfalso. by apply (H x); [left|].
  - rewrite IH. split; [|set_solver]. intros H e [->|?]%elem_of_cons; auto.
Qed.

Lemma assoc_elem l e : keys_sorted key l → e ∈ l → assoc l (key e) = Some e.
Proof.
  intros Hs He. destruct (assoc l (key e)) as [x|] eqn:E.
  - apply assoc_Some_elem in E as [Hx Hk].
    apply list_elem_of_lookup in He as [i Hi]. apply list_elem_of_lookup in Hx as [j Hj].
    assert (i = j) as -> by (eapply keys_sorted_inj; eauto). congruence.
  - exfalso. eapply assoc_None in E; eauto.
Qed.

Lemma assoc_lookup l i e : keys_sorted key l → l !! i = Some e → assoc l (key e) = Some e.
Proof. intros. apply assoc_elem; [done|]. by eapply list_elem_of_lookup_2. Qed.

(** A found position is the entry [assoc] finds; a missing one means [None]. *)
Lemma search_ok_assoc l k r :
  keys_sorted key l → search_ok key l k r →
  assoc l k = match r with SFound i => l !! i | SMissing _ => None end.
Proof.
  intros Hs. destruct r as [i|i]; cbn.
  - intros (e & He & <-). rewrite He. by eapply assoc_lookup.
  - intros (_ & Hlo & Hhi). apply assoc_None. intros e He <-.
    apply list_elem_of_lookup in He as [j Hj]. destruct (decide (j < i)%nat).
    + eapply lex_lt_irrefl, Hlo; eauto.
    + eapply lex_lt_irrefl, (Hhi j); eauto. lia.
Qed.

Lemma binary_search_assoc l k :
  keys_sorted key l →
  assoc l k = match binary_search_by_key key l k with SFound i => l !! i | SMissing _ => None end.
Proof. intros. apply search_ok_assoc; auto using binary_search_ok. Qed.

Lemma keys_sorted_take l i : keys_sorted key l → keys_sorted key (take i l).
Proof. rewrite <-(take_drop i l) at 1. by intros (_ & ? & _)%keys_sorted_app. Qed.

Lemma keys_sorted_drop l i : keys_sorted key l → keys_sorted key (drop i l).
Proof. rewrite <-(take_drop i l) at 1. by intros (_ & _ & ?)%keys_sorted_app. Qed.

Lemma ordered_put_sorted l x : keys_sorted key l → keys_sorted key (ordered_put l x).
Proof.
  intros Hs. unfold ordered_put. pose proof (binary_search_ok key l (key x) Hs) as Hr.
  destruct (binary_search_by_key key l (key x)) as [i|i]; cbn in Hr.
  - destruct Hr as (e & He & Hk). unfold keys_sorted in *.
    rewrite list_fmap_insert, list_insert_id; [done|].
    rewrite list_lookup_fmap, He. cbn. by rewrite Hk.
  - destruct Hr as (Hi & Hlo & Hhi). unfold vec_insert.
    apply keys_sorted_app. rewrite keys_sorted_cons. split_and!; auto using keys_sorted_take, keys_sorted_drop.
    + intros a b (j & Hj & Ha)%elem_of_take_lookup [->|(j' & Hj' & Hb)%elem_of_drop_lookup]%elem_of_cons.
      * eauto.
      * eapply (keys_sorted_lookup key l j j'); eauto. lia.
    + intros b (j & Hj & Hb)%elem_of_drop_lookup. eauto.
Qed.

Lemma assoc_ordered_put l x k :
  keys_sorted key l →
  assoc (ordered_put l x) k = if decide (key x = k) then Some x else assoc l k.
Proof.
  intros Hs. unfold ordered_put. pose proof (binary_search_ok key l (key x) Hs) as Hr.
  destruct (binary_search_by_key key l (key x)) as [i|i]; cbn in Hr.
  - destruct Hr as (e & He & Hk).
    rewrite insert_take_drop by (by eapply lookup_lt_Some). 
    replace (assoc l k) with (assoc (take i l ++ e :: drop (S i) l) k)
      by (by rewrite take_drop_middle).
    rewrite !assoc_app. cbn. rewrite Hk. case_decide as E.
    + rewrite (proj2 (assoc_None (take i l) k)); [done|].
      intros a (j & Hj & Ha)%elem_of_take_lookup E'.
      assert (j = i) by (eapply (keys_sorted_inj key l); eauto; congruence). lia.
    + done.
  - destruct Hr as (Hi & Hlo & Hhi). unfold vec_insert. rewrite assoc_app. cbn.
    replace (assoc l k) with (assoc (take i l ++ drop i l) k) by (by rewrite take_drop).
    rewrite assoc_app. case_decide as E; [|done].
    rewrite (proj2 (assoc_None (take i l) k)); [done|].
    intros a (j & Hj & Ha)%elem_of_take_lookup E'. apply (lex_lt_irrefl k).
    rewrite <-E' at 1. rewrite <-E. eauto.
Qed.

Lemma length_ordered_put l x :
  keys_sorted key l →
  length (ordered_put l x) = match assoc l (key x) with Some _ => length l | None => S (length l) end.
Proof.
  intros Hs. rewrite (binary_search_assoc l (key x) Hs). unfold ordered_put.
  pose proof (binary_search_ok key l (key x) Hs) as Hr.
  destruct (binary_search_by_key key l (key x)) as [i|i]; cbn in Hr.
  - destruct Hr as (e & -> & _). apply length_insert.
  - unfold vec_insert. rewrite length_app. cbn. rewrite length_take, length_drop. lia.
Qed.

Lemma elem_of_ordered_put l x e :
  keys_sorted key l → e ∈ ordered_put l x ↔ e = x ∨ (e ∈ l ∧ key e ≠ key x).
Proof.
  intros Hs. pose proof (ordered_put_sorted l x Hs) as Hs'. split.
  - intros He. apply assoc_elem in He; [|done]. rewrite assoc_ordered_put in He by done.
    case_decide; [naive_solver|]. apply assoc_Some_elem in He. naive_solver.
  - intros Hor. assert (assoc (ordered_put l x) (key e) = Some e) as He.
    { rewrite assoc_ordered_put by done. destruct Hor as [->|[He Hk]].
      - by rewrite decide_True.
      - rewrite decide_False by done. by apply assoc_elem. }
    by apply assoc_Some_elem in He as [? _].
Qed.

Lemma vec_remove_sorted l i : keys_sorted key l → keys_sorted key (vec_remove l i).
Proof.
  intros Hs. unfold vec_remove. rewrite keys_sorted_app. split_and!; auto using keys_sorted_take, keys_sorted_drop.
  intros a b (j & Hj & Ha)%elem_of_take_lookup (j' & Hj' & Hb)%elem_of_drop_lookup.
  eapply (keys_sorted_lookup key l j j'); eauto. lia.
Qed.

Lemma assoc_vec_remove l i e k :
  keys_sorted key l → l !! i = Some e →
  assoc (vec_remove l i) k = if decide (key e = k) then None else assoc l k.
Proof.
  intros Hs He. unfold vec_remove. rewrite assoc_app.
  assert (key e = k → assoc (take i l) k = None ∧ assoc (drop (S i) l) k = None) as Hnone.
  { intros <-. split; apply assoc_None; intros a Hin E.
    - apply elem_of_take_lookup in Hin as (j & Hj & Ha).
      assert (j = i) by (eapply (keys_sorted_inj key l); eauto). lia.
    - apply elem_of_drop_lookup in Hin as (j & Hj & Ha).
      assert (j = i) by (eapply (keys_sorted_inj key l); eauto). lia. }
  case_decide as E.
  - destruct (Hnone E) as [-> ->]. done.
  - replace (assoc l k) with (assoc (take i l ++ e :: drop (S i) l) k)
      by (by rewrite take_drop_middle).
    rewrite assoc_app. cbn. by rewrite decide_False.
Qed.

Lemma keys_sorted_rel l :
  keys_sorted key l → StronglySorted (λ a b, lex_lt (key a) (key b)) l.
Proof.
  induction l as [|x l IH]; [constructor|]. rewrite keys_sorted_cons. intros [Hx Hs].
  constructor; [auto|]. by apply Forall_forall.
Qed.

(** Two sorted vectors with the same lookups are the same vector. *)
Lemma sorted_assoc_ext l1 l2 :
  keys_sorted key l1 → keys_sorted key l2 → (∀ k, assoc l1 k = assoc l2 k) → l1 = l2.
Proof.
  intros H1 H2 Hext.
  assert (∀ e, e ∈ l1 ↔ e ∈ l2) as Hel.
  { intros e. split; intros He; apply assoc_elem in He; [|done| |done];
      [rewrite Hext in He|rewrite <-Hext in He]; by apply assoc_Some_elem in He as [? _]. }
  assert (l1 ≡ₚ l2) as HP.
  { apply NoDup_Permutation; [by eapply NoDup_fmap_1, keys_sorted_NoDup..|done]. }
  apply (StronglySorted_unique_strong (λ a b, lex_lt (key a) (key b))); try done.
  - intros a b _ _ Ha Hb. exfalso. by eapply lex_lt_asym.
  - by apply keys_sorted_rel.
  - by apply keys_sorted_rel.
Qed.

(** ** [sort_unstable_by_key] and [sort_by_cached_key]

    Any sorting algorithm agrees with this one when keys are distinct. *)
Definition key_le (a b : A) : Prop := lex_le (key a) (key b).

#[local] Instance key_le_dec : RelDecision key_le.
Proof. intros a b. unfold key_le. apply _. Defined.

Definition sort_by_key (l : list A) : list A := merge_sort key_le l.

#[local] Instance key_le_total : Total key_le.
Proof. intros a b. unfold key_le. apply (total lex_le). Qed.

#[local] Instance key_le_trans : Transitive key_le.
Proof. intros a b c. unfold key_le. apply lex_le_trans. Qed.

Lemma sort_by_key_Permutation l : sort_by_key l ≡ₚ l.
Proof. apply merge_sort_Permutation. Qed.

Lemma sort_by_key_sorted l : NoDup (key <$> l) → keys_sorted key (sort_by_key l).
Proof.
  intros Hnd. assert (NoDup (key <$> sort_by_key l)) as Hnd'.
  { by rewrite sort_by_key_Permutation. }
  pose proof (StronglySorted_merge_sort key_le l) as Hs. fold (sort_by_key l) in Hs.
  revert Hnd' Hs. generalize (sort_by_key l) as s. clear.
  induction s as [|x s IH]; intros Hnd Hs; [constructor|].
  apply StronglySorted_cons in Hs as [Hx Hs]. rewrite fmap_cons in Hnd.
  apply NoDup_cons in Hnd as [Hni Hnd]. apply keys_sorted_cons. split; [|auto].
  intros b Hb. rewrite Forall_forall in Hx. specialize (Hx b Hb). apply lex_le_alt in Hx as [?|E]; [done|].
  exfalso. apply Hni. rewrite E. by apply list_elem_of_fmap_2.
Qed.

Lemma assoc_Permutation l1 l2 k : l1 ≡ₚ l2 → NoDup (key <$> l1) → assoc l1 k = assoc l2 k.
Proof.
  induction 1 as [|x l1 l2 HP IH|x y l|l1 l2 l3 HP1 IH1 HP2 IH2]; intros Hnd; cbn; [done|..].
  - rewrite fmap_cons in Hnd. apply NoDup_cons in Hnd as [_ ?]. by rewrite IH.
  - rewrite !fmap_cons in Hnd. apply NoDup_cons in Hnd as [Hni _].
    case_decide as E1; case_decide as E2; try done. exfalso. apply Hni. rewrite E1, <-E2. left.
  - rewrite IH1 by done. apply IH2. by rewrite <-HP1.
Qed.

End ordered.

#[export] Hint Resolve ordered_put_sorted vec_remove_sorted keys_sorted_take keys_sorted_drop : tagdata.
