(* ===== verification/Support.v ===== *)
(** * Support types: errors, results, byte handles

    [src/src/support/errors.rs] ([Error], its [PartialEq]) and
    [src/src/support/bytes.rs] ([Bytes], the key and value handle).  A fallible
    function returns [res A]: a value, an [Error], or a panic.  Panics that both
    build profiles raise ([panic!], [assert!], [unwrap], indexing out of range)
    are [Panic]; [debug_assert!] is not part of the release program and is not
    executed by the model. *)

From S2P Require Import Prelude.

(** ** Errors *)

(** The kinds of [std::io::Error] the crate builds or forwards; an error of the
    operating system that the crate looks at keeps its code. *)
Inductive IoErrorKind :=
  | NotFound | AlreadyExists | InvalidInput | WriteZero | UnexpectedEof | WouldBlock | OtherIo | RawOs (code : Z).

Record IoError := mkIoError { io_kind : IoErrorKind; io_message : string }.

Inductive Error :=
  | BucketExists
  | BucketMissing
  | KeyValueMissing
  | IncompatibleValue
  | ReadOnlyTx
  | ReadOnlyDB
  | WriterTimeout
  | CapacityExceeded (required maximum : Z)
  | MergeConflict (path : list bytes)
  | Io (e : IoError)
  | Sync (what : string)
  | InvalidDB (what : string)
  | Alloc.

#[global] Instance io_kind_eq_dec : EqDecision IoErrorKind.
Proof. solve_decision. Defined.
#[global] Instance io_error_eq_dec : EqDecision IoError.
Proof. solve_decision. Defined.
#[global] Instance error_eq_dec : EqDecision Error.
Proof. solve_decision. Defined.

(** [impl PartialEq for Error]: structural, except that an I/O or a layout
    error never equals anything, itself included. *)
Definition error_eqb (a b : Error) : bool :=
  match a, b with
  | BucketExists, BucketExists => true
  | BucketMissing, BucketMissing => true
  | KeyValueMissing, KeyValueMissing => true
  | IncompatibleValue, IncompatibleValue => true
  | ReadOnlyTx, ReadOnlyTx => true
  | ReadOnlyDB, ReadOnlyDB => true
  | WriterTimeout, WriterTimeout => true
  | CapacityExceeded r1 m1, CapacityExceeded r2 m2 => (r1 =? r2) && (m1 =? m2)
  | MergeConflict p1, MergeConflict p2 => bool_decide (p1 = p2)
  | Sync s1, Sync s2 => bool_decide (s1 = s2)
  | InvalidDB s1, InvalidDB s2 => bool_decide (s1 = s2)
  | _, _ => false
  end.

(** ** Results *)

Inductive res (A : Type) :=
  | Ok (a : A)
  | Err (e : Error)
  | Panic (why : string).
Arguments Ok {A} _.
Arguments Err {A} _.
Arguments Panic {A} _.

#[global] Instance res_ret : MRet res := @Ok.
#[global] Instance res_bind : MBind res := λ A B f m,
  match m with
  | Ok a => f a
  | Err e => Err e
  | Panic w => Panic w
  end.
#[global] Instance res_fmap : FMap res := λ A B f m,
  match m with
  | Ok a => Ok (f a)
  | Err e => Err e
  | Panic w => Panic w
  end.

(** A loop of the model ran out of fuel. *)
Definition NOFUEL : string := "the loop did not end".

(** [Option::ok_or] and [Option::unwrap]. *)
Definition ok_or {A} (o : option A) (e : Error) : res A :=
  match o with Some a => Ok a | None => Err e end.

Definition unwrap {A} (o : option A) (why : string) : res A :=
  match o with Some a => Ok a | None => Panic why end.

(** [if b { return Err(e) }] and [assert!(b)]. *)
Definition fail_if (b : bool) (e : Error) : res unit := if b then Err e else Ok ().
Definition assert_that (b : bool) (why : string) : res unit := if b then Ok () else Panic why.

Definition is_ok {A} (r : res A) : Prop := match r with Ok _ => True | _ => False end.

Fixpoint res_fold {A S} (f : S → A → res S) (s : S) (l : list A) : res S :=
  match l with
  | [] => Ok s
  | x :: l => s' ← f s x; res_fold f s' l
  end.

Fixpoint res_map {A B} (f : A → res B) (l : list A) : res (list B) :=
  match l with
  | [] => Ok []
  | x :: l => y ← f x; ys ← res_map f l; Ok (y :: ys)
  end.

(** The text of a message with numbers in it ([format!]). *)
Definition dec (z : Z) : string := pretty z.

(** Run a bind whose head is known, or invert a successful one. *)
Ltac res_inv :=
  repeat match goal with
  | H : (_ ≫= _) = Ok _ |- _ => unfold mbind, res_bind in H
  | H : match ?m with Ok _ => _ | Err _ => _ | Panic _ => _ end = Ok _ |- _ =>
      let E := fresh "E" in destruct m eqn:E; [|discriminate H|discriminate H]
  | H : ok_or ?o _ = Ok _ |- _ =>
      let E := fresh "E" in unfold ok_or in H; destruct o eqn:E; [|discriminate H]
  | H : unwrap ?o _ = Ok _ |- _ =>
      let E := fresh "E" in unfold unwrap in H; destruct o eqn:E; [|discriminate H]
  | H : fail_if ?b _ = Ok _ |- _ =>
      let E := fresh "E" in unfold fail_if in H; destruct b eqn:E; [discriminate H|]
  | H : assert_that ?b _ = Ok _ |- _ =>
      let E := fresh "E" in unfold assert_that in H; destruct b eqn:E; [|discriminate H]
  | H : Ok _ = Ok _ |- _ => injection H as H; subst
  | H : Err _ = Ok _ |- _ => discriminate H
  | H : Panic _ = Ok _ |- _ => discriminate H
  end.

Lemma res_bind_Ok {A B} (m : res A) (f : A → res B) b :
  m ≫= f = Ok b ↔ ∃ a, m = Ok a ∧ f a = Ok b.
Proof. split; [destruct m; cbn; eauto; done|]. by intros (a & -> & ?). Qed.

(** Computations that return or fail, but never panic. *)
Definition no_panic {A} (r : res A) : Prop := match r with Panic _ => False | _ => True end.

Lemma no_panic_bind {A B} (m : res A) (f : A → res B) :
  no_panic m → (∀ a, m = Ok a → no_panic (f a)) → no_panic (m ≫= f).
Proof. destruct m; cbn; auto. Qed.

Lemma no_panic_Ok {A} (a : A) : no_panic (Ok a).
Proof. done. Qed.

Lemma no_panic_Err {A} e : no_panic (Err e : res A).
Proof. done. Qed.

Lemma no_panic_fail_if b e : no_panic (fail_if b e).
Proof. by destruct b. Qed.

Lemma no_panic_ok_or {A} (o : option A) e : no_panic (ok_or o e).
Proof. by destruct o. Qed.

Create HintDb no_panic.
#[export] Hint Resolve no_panic_Ok no_panic_Err no_panic_fail_if no_panic_ok_or : no_panic.

(** Walk through the binds of a computation. *)
Ltac no_panic :=
  repeat first
    [ solve [auto with no_panic]
    | apply no_panic_bind; [|intros]
    | match goal with |- no_panic (if ?b then _ else _) => destruct b eqn:? end
    | match goal with |- no_panic (match ?x with _ => _ end) => destruct x eqn:? end ].

Lemma error_eqb_sound a b : error_eqb a b = true → a = b.
Proof. destruct a, b; cbn; intros; bool_to_prop; try done;
    repeat match goal with H : bool_decide _ = true |- _ => apply bool_decide_eq_true in H end;
    congruence.
Qed.

Lemma error_eqb_refl a :
  error_eqb a a = match a with Io _ | Alloc => false | _ => true end.
Proof. destruct a; cbn; rewrite ?Z.eqb_refl, ?bool_decide_true; done. Qed.

(** ** Byte handles

    [Bytes] keeps a borrowed slice, a counted slice, a [bytes::Bytes], a counted
    vector or a counted string.  Every operation of the crate goes through
    [as_ref], and so do its comparison, equality and hash. *)

Inductive Bytes :=
  | Slice (s : bytes)
  | Owned (s : bytes)
  | Interop (b : bytes)
  | Vec (v : bytes)
  | Str (s : bytes).

Definition Bytes_as_ref (b : Bytes) : bytes :=
  match b with
  | Slice s => s
  | Owned s => s
  | Interop b => b
  | Vec v => v
  | Str s => s
  end.

Definition Bytes_size (b : Bytes) : Z :=
  match b with
  | Slice s => Z.of_nat (length s)
  | Owned s => Z.of_nat (length s)
  | Interop b => Z.of_nat (length b)
  | Vec v => Z.of_nat (length v)
  | Str s => Z.of_nat (length s)
  end.

Definition Bytes_cmp (a b : Bytes) : comparison := lex_cmp (Bytes_as_ref a) (Bytes_as_ref b).
Definition Bytes_eq (a b : Bytes) : bool := bool_decide (Bytes_as_ref a = Bytes_as_ref b).

(** Two handles are interchangeable when their contents agree. *)
#[global] Instance Bytes_equiv : Equiv Bytes := λ a b, Bytes_as_ref a = Bytes_as_ref b.

#[global] Instance Bytes_equivalence : Equivalence (≡@{Bytes}).
Proof. split; unfold equiv, Bytes_equiv; repeat intro; congruence. Qed.

#[global] Instance Bytes_size_proper : Proper ((≡) ==> (=)) Bytes_size.
Proof.
  intros a b E. unfold equiv, Bytes_equiv in E.
  assert (∀ x, Bytes_size x = Z.of_nat (length (Bytes_as_ref x))) as Hs by (by intros []).
  rewrite !Hs. congruence.
Qed.

#[global] Instance Bytes_cmp_proper : Proper ((≡) ==> (≡) ==> (=)) Bytes_cmp.
Proof.
  intros a b E c d E'. unfold equiv, Bytes_equiv in *. unfold Bytes_cmp. congruence.
Qed.

Lemma Bytes_eq_equiv a b : Bytes_eq a b = true ↔ a ≡ b.
Proof. apply bool_decide_eq_true. Qed.

Lemma Bytes_cmp_eq a b : Bytes_cmp a b = Eq ↔ a ≡ b.
Proof. apply lex_cmp_eq. Qed.
