(* ===== verification/Layout.v ===== *)
(** * Memory layout of the persisted structs

    The crate persists [repr(C)] structs by casting pointers into the mapped
    file.  This file writes out what those casts do on the 64-bit little-endian
    targets the crate supports: the offset of each field, little-endian loads
    and stores, and the sizes that [size_of] and [offset_of] return. *)

From S2P Require Import Prelude Support.

(** ** Loads and stores *)

Definition rd (n : nat) (buf : bytes) (off : nat) : Z := of_le (take n (drop off buf)).
Definition wr (n : nat) (buf : bytes) (off : nat) (z : Z) : bytes := write_at buf off (le_bytes n z).

Abbreviation rd8 := (rd 1).
Abbreviation rd32 := (rd 4).
Abbreviation rd64 := (rd 8).
Abbreviation wr8 := (wr 1).
Abbreviation wr32 := (wr 4).
Abbreviation wr64 := (wr 8).

(** ** Sizes and offsets *)

(** [struct Page { id: u64, page_type: u8, count: u64, overflow: u64, ptr: u64 }] *)
Definition PAGE_SIZE_OF : Z := 40.
Definition PAGE_ALIGN_OF : Z := 8.
Definition page_off_id : nat := 0.
Definition page_off_type : nat := 8.
Definition page_off_count : nat := 16.
Definition page_off_overflow : nat := 24.
Definition page_off_ptr : nat := 32.

(** [struct BranchElement { page: u64, key_size: u64, pos: u64 }] *)
Definition BRANCH_SIZE_OF : Z := 24.
(** [struct LeafElement { node_type: u8, pos: u64, key_size: u64, value_size: u64 }] *)
Definition LEAF_SIZE_OF : Z := 32.
(** [struct RetiredPage { page_id: u64, retired_tx_id: u64 }] *)
Definition RETIRED_SIZE_OF : Z := 16.
(** [struct Meta], see Meta.v. *)
Definition META_SIZE_OF : Z := 72.
(** [struct BucketMeta { root_page: u64, next_int: u64 }] *)
Definition META_SIZE : Z := 16.
(** Trailing SHA3-256 digest of each page block. *)
Definition CHECKSUM_SIZE : Z := 32.

(** ** Laws of loads and stores *)

Lemma rd_range n buf off : 0 <= rd n buf off < 256 ^ Z.of_nat n.
Proof.
  unfold rd. pose proof (of_le_range (take n (drop off buf))) as H.
  assert (256 ^ Z.of_nat (length (take n (drop off buf))) <= 256 ^ Z.of_nat n).
  { apply Z.pow_le_mono_r; [lia|]. rewrite length_take. lia. }
  lia.
Qed.

Lemma rd64_u64 buf off : in_u64 (rd64 buf off).
Proof. apply (rd_range 8). Qed.

Lemma length_wr n buf off z : (off + n <= length buf)%nat → length (wr n buf off z) = length buf.
Proof. intros. unfold wr. apply length_write_at. by rewrite length_le_bytes. Qed.

Lemma rd_wr_same n buf off z :
  (off + n <= length buf)%nat → 0 <= z < 256 ^ Z.of_nat n → rd n (wr n buf off z) off = z.
Proof.
  intros Hl Hz. unfold rd, wr. rewrite <-(length_le_bytes n z) at 1.
  rewrite write_at_read by lia. rewrite of_le_bytes. by apply Z.mod_small.
Qed.

Lemma rd_wr_other n m buf off o z :
  (off + n <= length buf)%nat → (o + m <= off ∨ off + n <= o)%nat →
  rd m (wr n buf off z) o = rd m buf o.
Proof.
  intros Hl [Ho|Ho]; unfold rd, wr; f_equal.
  - apply write_at_read_before; lia.
  - apply write_at_read_after; rewrite length_le_bytes; lia.
Qed.

Lemma rd_write_at_other m buf off bs o :
  (off + length bs <= length buf)%nat → (o + m <= off ∨ off + length bs <= o)%nat →
  rd m (write_at buf off bs) o = rd m buf o.
Proof.
  intros Hl [Ho|Ho]; unfold rd; f_equal.
  - apply write_at_read_before; lia.
  - by apply write_at_read_after.
Qed.

(** A load only looks at its own bytes. *)
Lemma rd_drop n buf o off : rd n (drop o buf) off = rd n buf (o + off).
Proof. unfold rd. by rewrite drop_drop. Qed.

Lemma rd_take n m buf off : (off + n <= m)%nat → rd n (take m buf) off = rd n buf off.
Proof.
  intros. unfold rd. rewrite !take_drop_commute, take_take. do 3 f_equal. lia.
Qed.

Lemma rd_app_l n buf buf' off : (off + n <= length buf)%nat → rd n (buf ++ buf') off = rd n buf off.
Proof.
  intros. unfold rd. f_equal. rewrite !take_drop_commute. f_equal.
  by rewrite take_app_le by lia.
Qed.

(** ** Assigning the fields of a struct

    A struct value is written as the list of its assigned fields: width, offset
    in the struct, value. *)

Definition field : Type := nat * nat * Z.

Definition wr_fields (buf : bytes) (base : nat) (fs : list field) : bytes :=
  fold_left (λ b '(n, o, v), wr n b (base + o) v) fs buf.

(** Fields lie inside the struct and do not overlap. *)
Definition disjoint_field (n o : nat) (f : field) : bool :=
  let '(n', o', _) := f in ((o + n <=? o') || (o' + n' <=? o))%nat.

Fixpoint fields_ok (size : nat) (fs : list field) : bool :=
  match fs with
  | [] => true
  | (n, o, _) :: fs => (o + n <=? size)%nat && forallb (disjoint_field n o) fs && fields_ok size fs
  end.

Lemma length_wr_fields buf base size fs :
  fields_ok size fs = true → (base + size <= length buf)%nat →
  length (wr_fields buf base fs) = length buf.
Proof.
  unfold wr_fields. revert buf. induction fs as [|[[n o] v] fs IH]; intros buf Hok Hl; [done|].
  cbn in *. bool_to_prop. rewrite IH by (try rewrite length_wr; try done; lia).
  apply length_wr. lia.
Qed.

(** A load that meets none of the fields is unaffected. *)
Lemma rd_wr_fields_disjoint buf base size fs n o :
  fields_ok size fs = true → (base + size <= length buf)%nat →
  forallb (disjoint_field n o) fs = true →
  rd n (wr_fields buf base fs) (base + o) = rd n buf (base + o).
Proof.
  unfold wr_fields. revert buf. induction fs as [|[[n' o'] v] fs IH]; intros buf Hok Hl Hd; [done|].
  cbn [fold_left forallb fields_ok disjoint_field] in *. bool_to_prop.
  rewrite IH by (try rewrite length_wr; try done; lia).
  apply rd_wr_other; [lia|].
  match goal with H : (_ || _) = true |- _ => apply orb_prop in H as [H|H]; bool_to_prop; lia end.
Qed.

(** A load outside the struct is unaffected. *)
Lemma rd_wr_fields_outside buf base size fs n o :
  fields_ok size fs = true → (base + size <= length buf)%nat →
  (o + n <= base ∨ base + size <= o)%nat →
  rd n (wr_fields buf base fs) o = rd n buf o.
Proof.
  unfold wr_fields. revert buf. induction fs as [|[[n' o'] v] fs IH]; intros buf Hok Hl Hd; [done|].
  cbn [fold_left fields_ok] in *. bool_to_prop.
  rewrite IH by (try rewrite length_wr; try done; lia). apply rd_wr_other; lia.
Qed.

(** A field reads back as it was assigned. *)
Lemma rd_wr_fields buf base size fs n o v :
  fields_ok size fs = true → (base + size <= length buf)%nat →
  (n, o, v) ∈ fs → 0 <= v < 256 ^ Z.of_nat n →
  rd n (wr_fields buf base fs) (base + o) = v.
Proof.
  revert buf. induction fs as [|[[n' o'] v'] fs IH]; intros buf Hok Hl Hin Hv; [by apply elem_of_nil in Hin|].
  cbn [fields_ok] in *. bool_to_prop. change (wr_fields buf base ((n', o', v') :: fs)) with
    (wr_fields (wr n' buf (base + o') v') base fs).
  apply elem_of_cons in Hin as [Heq|Hin].
  - injection Heq as -> -> ->. rewrite (rd_wr_fields_disjoint _ _ size) by (try rewrite length_wr; try done; lia).
    apply rd_wr_same; [lia|done].
  - apply IH; try done. rewrite length_wr; lia.
Qed.

Definition field_fits (f : field) : Prop :=
  let '(n, _, v) := f in 0 <= v < 256 ^ Z.of_nat n.

Lemma fit64 o v : in_u64 v → field_fits (8%nat, o, v).
Proof. unfold in_u64, field_fits. by change (256 ^ Z.of_nat 8) with u64_mod. Qed.

Lemma fit32 o v : 0 <= v < 2 ^ 32 → field_fits (4%nat, o, v).
Proof. unfold field_fits. by change (256 ^ Z.of_nat 4) with (2 ^ 32). Qed.

Lemma fit8 o v : 0 <= v < 256 → field_fits (1%nat, o, v).
Proof. unfold field_fits. by change (256 ^ Z.of_nat 1) with 256. Qed.

Lemma rd_wr_fields_nth buf base size fs i n o v :
  fields_ok size fs = true → (base + size <= length buf)%nat → Forall field_fits fs →
  fs !! i = Some (n, o, v) → rd n (wr_fields buf base fs) (base + o) = v.
Proof.
  intros Hok Hl Hf Hi. apply (rd_wr_fields _ _ size); [done..|by eapply list_elem_of_lookup_2|].
  rewrite Forall_lookup in Hf. exact (Hf i _ Hi).
Qed.

Lemma wr_write_at_drop buf off n z o :
  (off + n <= length buf)%nat → (off + n <= o)%nat → drop o (wr n buf off z) = drop o buf.
Proof.
  intros. unfold wr, write_at. rewrite app_assoc, drop_app_ge by (rewrite length_app, length_take, length_le_bytes; lia).
  rewrite length_app, length_take, length_le_bytes, drop_drop. f_equal. lia.
Qed.

(** The bytes after the struct stay. *)
Lemma drop_wr_fields buf base size fs o :
  fields_ok size fs = true → (base + size <= length buf)%nat → (base + size <= o)%nat →
  drop o (wr_fields buf base fs) = drop o buf.
Proof.
  unfold wr_fields. revert buf. induction fs as [|[[n' o'] v] fs IH]; intros buf Hok Hl Ho; [done|].
  cbn [fold_left fields_ok] in *. bool_to_prop.
  rewrite IH by (try rewrite length_wr; try done; lia). apply wr_write_at_drop; lia.
Qed.
