(* ===== verification/Meta.v ===== *)
(** * Metadata pages

    [src/src/storage/meta.rs]: the [Meta] struct that names the root bucket, the
    freelist page and the transaction id of one committed state, and the FNV-1a
    hash that authenticates it; [BucketMeta] of
    [src/src/api/bucket/inner.rs]. *)

From S2P Require Import Prelude Support Layout.

Record BucketMeta := mkBucketMeta { root_page : Z; next_int : Z }.

#[global] Instance bucket_meta_eq_dec : EqDecision BucketMeta.
Proof. solve_decision. Defined.

(** [BucketMeta::default()]. *)
Definition bucket_meta_default : BucketMeta := mkBucketMeta 0 0.

(** [<BucketMeta as AsRef<[u8]>>::as_ref] and [From<&[u8]>]. *)
Definition bucket_meta_bytes (m : BucketMeta) : bytes :=
  le_bytes 8 (root_page m) ++ le_bytes 8 (next_int m).

Definition bucket_meta_of_bytes (b : bytes) : BucketMeta :=
  mkBucketMeta (rd64 b 0) (rd64 b 8).

Record Meta := mkMeta {
  meta_page : Z;
  magic : Z;
  version : Z;
  pagesize : Z;
  root : BucketMeta;
  num_pages : Z;
  freelist_page : Z;
  tx_id : Z;
  hash : Z
}.

#[global] Instance meta_eq_dec : EqDecision Meta.
Proof. solve_decision. Defined.

Definition FNV_OFFSET_BASIS : Z := 0xcbf29ce484222325.
Definition FNV_PRIME : Z := 0x00000100000001b3.

(** [for byte in bytes { hash ^= byte; hash = hash.wrapping_mul(FNV_PRIME) }] *)
Definition fnv1a (h : Z) (bs : bytes) : Z :=
  fold_left (λ h b, u64_wrap (Z.lxor h (Z_of_byte b) * FNV_PRIME)) bs h.

Definition hash_self (m : Meta) : Z :=
  let h := FNV_OFFSET_BASIS in
  let h := fnv1a h (be_bytes 4 (meta_page m)) in
  let h := fnv1a h (be_bytes 4 (magic m)) in
  let h := fnv1a h (be_bytes 4 (version m)) in
  let h := fnv1a h (be_bytes 8 (pagesize m)) in
  let h := fnv1a h (be_bytes 8 (root_page (root m))) in
  let h := fnv1a h (be_bytes 8 (next_int (root m))) in
  let h := fnv1a h (be_bytes 8 (num_pages m)) in
  let h := fnv1a h (be_bytes 8 (freelist_page m)) in
  fnv1a h (be_bytes 8 (tx_id m)).

Definition meta_valid (m : Meta) : bool := hash m =? hash_self m.

(** ** The struct in memory

    [meta_page] at 0, [magic] at 4, [version] at 8, [pagesize] at 16, [root] at
    24, [num_pages] at 40, [freelist_page] at 48, [tx_id] at 56, [hash] at 64. *)

(** [&*(ptr as *const Meta)]: the struct that starts at [off]. *)
Definition meta_read (buf : bytes) (off : nat) : Meta := {|
  meta_page := rd32 buf off;
  magic := rd32 buf (off + 4);
  version := rd32 buf (off + 8);
  pagesize := rd64 buf (off + 16);
  root := mkBucketMeta (rd64 buf (off + 24)) (rd64 buf (off + 32));
  num_pages := rd64 buf (off + 40);
  freelist_page := rd64 buf (off + 48);
  tx_id := rd64 buf (off + 56);
  hash := rd64 buf (off + 64)
|}.

(** Assigning every field through [&mut *(ptr as *mut Meta)]. *)
Definition meta_fields (m : Meta) : list field :=
  [ (4, 0, meta_page m); (4, 4, magic m); (4, 8, version m); (8, 16, pagesize m);
    (8, 24, root_page (root m)); (8, 32, next_int (root m)); (8, 40, num_pages m);
    (8, 48, freelist_page m); (8, 56, tx_id m); (8, 64, hash m) ]%nat.

Definition meta_write (buf : bytes) (off : nat) (m : Meta) : bytes :=
  wr_fields buf off (meta_fields m).

(** Every field fits its width. *)
Definition meta_wf (m : Meta) : Prop :=
  0 <= meta_page m < 2 ^ 32 ∧ 0 <= magic m < 2 ^ 32 ∧ 0 <= version m < 2 ^ 32 ∧
  in_u64 (pagesize m) ∧ in_u64 (root_page (root m)) ∧ in_u64 (next_int (root m)) ∧
  in_u64 (num_pages m) ∧ in_u64 (freelist_page m) ∧ in_u64 (tx_id m) ∧ in_u64 (hash m).

(** ** Lemmas *)

Lemma u64_wrap_range z : in_u64 (u64_wrap z).
Proof. unfold in_u64, u64_wrap. apply Z.mod_pos_bound. by cbv. Qed.

Lemma fnv1a_range h bs : in_u64 h → in_u64 (fnv1a h bs).
Proof.
  unfold fnv1a. revert h. induction bs as [|b bs IH]; intros h Hh; [done|].
  cbn [fold_left]. apply IH, u64_wrap_range.
Qed.

Lemma hash_self_range m : in_u64 (hash_self m).
Proof. unfold hash_self. repeat apply fnv1a_range. split; by cbv. Qed.

Lemma length_meta_write buf off m :
  (off + 72 <= length buf)%nat → length (meta_write buf off m) = length buf.
Proof. intros. by apply (length_wr_fields _ _ 72). Qed.

Lemma meta_fields_fit m : meta_wf m → Forall field_fits (meta_fields m).
Proof. intros (?&?&?&?&?&?&?&?&?&?). unfold meta_fields. 
  do 10 (constructor; [first [by apply fit32|by apply fit64]|]). constructor.
Qed.

Lemma meta_read_write buf off m :
  meta_wf m → (off + 72 <= length buf)%nat → meta_read (meta_write buf off m) off = m.
Proof.
  intros Hwf%meta_fields_fit Hl.
  assert (∀ i n o v, meta_fields m !! i = Some (n, o, v) →
    rd n (meta_write buf off m) (off + o) = v) as Hrd.
  { intros i n o v. by apply (rd_wr_fields_nth _ _ 72). }
  pose proof (Hrd 0%nat 4%nat 0%nat _ eq_refl) as Hrd0. rewrite Nat.add_0_r in Hrd0.
  unfold meta_read. rewrite Hrd0.
  rewrite (Hrd 1%nat 4%nat 4%nat _ eq_refl), (Hrd 2%nat 4%nat 8%nat _ eq_refl),
    (Hrd 3%nat 8%nat 16%nat _ eq_refl), (Hrd 4%nat 8%nat 24%nat _ eq_refl),
    (Hrd 5%nat 8%nat 32%nat _ eq_refl), (Hrd 6%nat 8%nat 40%nat _ eq_refl),
    (Hrd 7%nat 8%nat 48%nat _ eq_refl), (Hrd 8%nat 8%nat 56%nat _ eq_refl),
    (Hrd 9%nat 8%nat 64%nat _ eq_refl).
  by destruct m as [mp mg ve ps [rp ni] np fp tx h].
Qed.
