(* ===== verification/Freelist.v ===== *)
(** * Page allocation

    [src/src/storage/freelist.rs].  [Freelist] keeps the reusable pages and, per
    transaction id, the pages that transaction retired; [TxFreelist] is the copy
    one write transaction works on, with the dirty page buffers it allocated.
    [BTreeSet] and [BTreeMap] are [gset] and [gmap]; where the code iterates over
    them, the model iterates over the sorted elements. *)

From S2P Require Import Prelude Support Layout Meta.

Abbreviation PageID := Z.

Record RetiredPage := mkRetired { page_id : PageID; retired_tx_id : Z }.

Record Freelist := mkFreelist {
  free_pages : gset PageID;
  pending_pages : gmap Z (list PageID)
}.

(** ** Ordered iteration *)

Definition sorted_set (s : gset Z) : list Z := merge_sort Z.le (elements s).
Definition sorted_keys {A} (m : gmap Z A) : list Z := sorted_set (dom m).

(** [self.pending_pages.entry(tx_id).or_default()]. *)
Definition pending_at (fl : Freelist) (t : Z) : list PageID := default [] (pending_pages fl !! t).

(** ** Freelist operations *)

Definition freelist_new : Freelist := mkFreelist ∅ ∅.

Definition free_count (fl : Freelist) : Z := Z.of_nat (size (free_pages fl)).

Definition pending_list (fl : Freelist) : list PageID :=
  sorted_keys (pending_pages fl) ≫= pending_at fl.

Definition pending_count (fl : Freelist) : Z := Z.of_nat (length (pending_list fl)).

Definition freelist_free (fl : Freelist) (t : Z) (p : PageID) : Freelist :=
  mkFreelist (free_pages fl) (<[t := pending_at fl t ++ [p]]> (pending_pages fl)).

Definition init_entry (fl : Freelist) (e : RetiredPage) : Freelist :=
  if retired_tx_id e =? 0
  then mkFreelist ({[page_id e]} ∪ free_pages fl) (pending_pages fl)
  else freelist_free fl (retired_tx_id e) (page_id e).

Definition freelist_init (fl : Freelist) (es : list RetiredPage) : Freelist :=
  fold_left init_entry es fl.

(** [release]: walk the transaction ids in order and stop at the first that is
    not below [t]. *)
Fixpoint release_loop (ids : list Z) (t : Z) (fl : Freelist) : Freelist :=
  match ids with
  | [] => fl
  | other :: ids =>
      if other <? t then
        release_loop ids t
          (mkFreelist (list_to_set (pending_at fl other) ∪ free_pages fl)
                      (delete other (pending_pages fl)))
      else fl
  end.

Definition release (fl : Freelist) (t : Z) : Freelist :=
  release_loop (sorted_keys (pending_pages fl)) t fl.

(** [allocate]: the first run of [n] consecutive free ids, 0 when there is none. *)
Fixpoint alloc_scan (ids : list PageID) (n start prev : Z) : Z :=
  match ids with
  | [] => 0
  | id :: ids =>
      let start := if (prev =? 0) || negb (id - prev =? 1) then id else start in
      let block_size := id - start + 1 in
      if block_size =? n then start else alloc_scan ids n start id
  end.

(** The pages [p..p + n]. *)
Definition page_range (p n : Z) : gset PageID := list_to_set (seqZ p n).

Definition freelist_allocate (fl : Freelist) (n : Z) : option PageID * Freelist :=
  if decide (free_pages fl = ∅) then (None, fl)
  else
    let found := alloc_scan (sorted_set (free_pages fl)) n 0 0 in
    if 0 <? found then
      (Some found, mkFreelist (free_pages fl ∖ page_range found n) (pending_pages fl))
    else (None, fl).

Definition freelist_pages (fl : Freelist) : list PageID :=
  merge_sort Z.le (sorted_set (free_pages fl) ++ pending_list fl).

Definition retired_le (a b : RetiredPage) : Prop := page_id a <= page_id b.

#[global] Instance retired_le_dec : RelDecision retired_le.
Proof. intros a b. unfold retired_le. apply _. Defined.

Definition raw_entries (fl : Freelist) : list RetiredPage :=
  ((λ p, mkRetired p 0) <$> sorted_set (free_pages fl)) ++
  (sorted_keys (pending_pages fl) ≫= λ t, (λ p, mkRetired p t) <$> pending_at fl t).

Definition freelist_entries (fl : Freelist) : list RetiredPage :=
  merge_sort retired_le (raw_entries fl).

Definition freelist_size (fl : Freelist) : Z :=
  PAGE_SIZE_OF + RETIRED_SIZE_OF * Z.of_nat (length (freelist_pages fl)).

(** ** The freelist of a write transaction *)

Record TxFreelist := mkTxFreelist {
  tf_meta : Meta;
  tf_inner : Freelist;
  tf_pages : gmap PageID bytes
}.

Definition tx_freelist_new (m : Meta) (fl : Freelist) : TxFreelist := mkTxFreelist m fl ∅.

(** [for id in page_id..(page_id + num_pages) { self.inner.free(self.meta.tx_id, id) }] *)
Definition tx_free (tf : TxFreelist) (p n : Z) : TxFreelist :=
  mkTxFreelist (tf_meta tf)
    (fold_left (λ fl id, freelist_free fl (tx_id (tf_meta tf)) id) (seqZ p n) (tf_inner tf))
    (tf_pages tf).

(** The number of pages that hold [bytes] bytes and a checksum. *)
Definition pages_for (pagesize bytes : Z) : Z :=
  let required := u64_wrap (bytes + CHECKSUM_SIZE) in
  if required mod pagesize =? 0 then required / pagesize else required / pagesize + 1.

(** A zeroed buffer whose header names the block. *)
Definition fresh_page (p n stored : Z) : bytes :=
  wr64 (wr64 (replicate (Z.to_nat stored) Byte.x00) page_off_id p) page_off_overflow (n - 1).

Definition set_num_pages (m : Meta) (n : Z) : Meta :=
  mkMeta (meta_page m) (magic m) (version m) (pagesize m) (root m) n (freelist_page m) (tx_id m) (hash m).

(** [TxFreelist::allocate]: the id of the new block, whose buffer is
    [tf_pages !! id].  [Layout::from_size_align(size, 8)] fails when the size,
    rounded up to the alignment, exceeds [isize::MAX]. *)
Definition tx_allocate (tf : TxFreelist) (bytes : Z) : res (PageID * TxFreelist) :=
  _ ← assert_that (PAGE_SIZE_OF <=? bytes) "cannot allocate less than a page header";
  let m := tf_meta tf in
  let n := pages_for (pagesize m) bytes in
  let '(p, m, fl) :=
    match freelist_allocate (tf_inner tf) n with
    | (Some p, fl) => (p, m, fl)
    | (None, fl) => (num_pages m, set_num_pages m (u64_wrap (num_pages m + n)), fl)
    end in
  let stored := u64_wrap (n * pagesize m) in
  _ ← fail_if (isize_max - 7 <? stored) Alloc;
  Ok (p, mkTxFreelist m fl (<[p := fresh_page p n stored]> (tf_pages tf))).

(** ** Sorted iteration lemmas *)

#[global] Instance Zle_total : Total Z.le.
Proof. intros a b. lia. Qed.

Lemma elem_of_sorted_set x s : x ∈ sorted_set s ↔ x ∈ s.
Proof. unfold sorted_set. by rewrite merge_sort_Permutation, elem_of_elements. Qed.

Lemma sorted_set_NoDup s : NoDup (sorted_set s).
Proof. unfold sorted_set. rewrite merge_sort_Permutation. apply NoDup_elements. Qed.

Lemma sorted_set_sorted s : StronglySorted Z.le (sorted_set s).
Proof. apply StronglySorted_merge_sort; apply _. Qed.

Lemma elem_of_sorted_keys {A} (m : gmap Z A) k : k ∈ sorted_keys m ↔ is_Some (m !! k).
Proof. unfold sorted_keys. by rewrite elem_of_sorted_set, elem_of_dom. Qed.

Lemma elem_of_pending_list fl p : p ∈ pending_list fl ↔ ∃ t, p ∈ pending_at fl t.
Proof.
  unfold pending_list. rewrite list_elem_of_bind. split.
  - intros (t & Hp & _). by exists t.
  - intros (t & Hp). exists t. split; [done|]. apply elem_of_sorted_keys.
    unfold pending_at in Hp. destruct (_ !! t); [done|]. by apply elem_of_nil in Hp.
Qed.

Lemma elem_of_page_range p n x : x ∈ page_range p n ↔ p <= x < p + n.
Proof. unfold page_range. by rewrite elem_of_list_to_set, elem_of_seqZ. Qed.

(** ** Allocation finds the first run *)

Definition free_run (s : gset PageID) (p n : Z) : Prop := ∀ x, p <= x < p + n → x ∈ s.

Section scan.
Context (s : gset PageID) (n : Z).
Hypothesis Hpos : ∀ p, p ∈ s → 0 < p.
Hypothesis Hn : 1 <= n.

(** What the loop knows after the ids up to [prev]. *)
Definition scan_inv (start prev : Z) : Prop :=
  0 <= prev ∧ (∀ q, q + n - 1 <= prev → ¬ free_run s q n) ∧
  (prev ≠ 0 → (0 < start <= prev) ∧ (∀ x, start <= x <= prev → x ∈ s) ∧
              (start - 1 ∉ s) ∧ prev - start + 1 < n).

(** The rest of the iteration is the ids above [prev]. *)
Definition scan_rest (l : list Z) (prev : Z) : Prop :=
  StronglySorted Z.le l ∧ NoDup l ∧ (∀ x, x ∈ l ↔ (x ∈ s ∧ prev < x)).

Lemma scan_rest_head id l prev :
  scan_rest (id :: l) prev →
  id ∈ s ∧ prev < id ∧ scan_rest l id ∧ (∀ x, x ∈ s → prev < x → id <= x).
Proof.
  intros (Hs & Hnd & Hel). apply StronglySorted_cons in Hs as [Hid Hs].
  apply NoDup_cons in Hnd as [Hni Hnd]. rewrite Forall_forall in Hid.
  destruct (proj1 (Hel id)) as [Hin Hlt]; [by left|]. split; [done|]. split; [done|]. split.
  - split; [done|]. split; [done|]. intros x. split.
    + intros Hx. destruct (proj1 (Hel x)) as [? _]; [by right|]. split; [done|].
      apply Hid in Hx as Hle. assert (x ≠ id) by (by intros ->). lia.
    + intros [Hx Hlt']. assert (x ∈ id :: l) as Hc by (apply Hel; split; [done|lia]).
      apply elem_of_cons in Hc as [->|?]; [lia|done].
  - intros x Hx Hlt'. assert (x ∈ id :: l) as Hc by (by apply Hel).
    apply elem_of_cons in Hc as [->|?]; [lia|by apply Hid].
Qed.

(** The run that ends at [id] cannot start before its left neighbour. *)
Lemma scan_inv_step start prev id :
  scan_inv start prev → id ∈ s → prev < id → (∀ x, x ∈ s → prev < x → id <= x) →
  let start' := if (prev =? 0) || negb (id - prev =? 1) then id else start in
  (0 < start' <= id) ∧ (∀ x, start' <= x <= id → x ∈ s) ∧ (start' - 1 ∉ s) ∧ id - start' + 1 <= n ∧
  (∀ q, q + n - 1 < id → ¬ free_run s q n).
Proof.
  intros (Hp0 & Hno & Hst) Hid Hlt Hmin.
  assert (∀ q, q + n - 1 < id → ¬ free_run s q n) as Hnone.
  { intros q Hq Hrun. destruct (decide (q + n - 1 <= prev)); [by apply (Hno q)|].
    assert (q + n - 1 ∈ s) as Hin by (apply Hrun; lia). apply Hmin in Hin; lia. }
  cbn. destruct (decide (prev ≠ 0 ∧ id - prev = 1)) as [[Hp1 Hadj]|Hfresh].
  - rewrite (proj2 (Z.eqb_neq _ _)), (proj2 (Z.eqb_eq _ _)) by done. cbn.
    destruct Hst as (? & Hin & Hm1 & Hlen); [done|]. split_and!; try done; try lia.
    intros x ?. destruct (decide (x = id)) as [->|]; [done|]. apply Hin. lia.
  - assert ((prev =? 0) || negb (id - prev =? 1) = true) as ->.
    { destruct (Z.eqb_spec prev 0), (Z.eqb_spec (id - prev) 1); naive_solver. }
    apply Hpos in Hid as ?. split_and!; try done; try lia.
    + intros x ?. by replace x with id by lia.
    + intros Hin. apply Hpos in Hin as ?. apply Hmin in Hin; lia.
Qed.

Lemma alloc_scan_spec l start prev :
  scan_inv start prev → scan_rest l prev →
  let r := alloc_scan l n start prev in
  (0 < r ∧ free_run s r n ∧ ∀ q, q < r → ¬ free_run s q n) ∨
  (r = 0 ∧ ∀ q, ¬ free_run s q n).
Proof.
  revert start prev. induction l as [|id l IH]; intros start prev Hinv Hrest; cbn [alloc_scan].
  - right. split; [done|]. intros q Hrun. destruct Hinv as (_ & Hno & _), Hrest as (_ & _ & Hel).
    apply (Hno q); [|done]. assert (q + n - 1 ∈ s) as Hin by (apply Hrun; lia).
    destruct (decide (prev < q + n - 1)); [|lia].
    assert (q + n - 1 ∈ []) as Hc by (by apply Hel). by apply elem_of_nil in Hc.
  - apply scan_rest_head in Hrest as (Hid & Hlt & Hrest & Hmin).
    pose proof (scan_inv_step _ _ _ Hinv Hid Hlt Hmin) as Hstep. cbn zeta in Hstep |- *.
    set (start' := if (prev =? 0) || _ then id else start) in *.
    destruct Hstep as ((?&?) & Hrun & Hm1 & Hle & Hno).
    destruct (Z.eqb_spec (id - start' + 1) n) as [E|E].
    + left. split_and!; [done| |].
      * intros x ?. apply Hrun. lia.
      * intros q ?. apply Hno. lia.
    + apply IH; [|done]. destruct Hinv as (? & _ & _). split_and!; [lia| |].
      * intros q Hq Hq'. destruct (decide (q + n - 1 < id)); [by eapply Hno|].
        apply Hm1, Hq'. lia.
      * intros _. split_and!; try done; lia.
Qed.

End scan.

Lemma scan_start s n :
  (∀ p, p ∈ s → 0 < p) → 1 <= n → scan_inv s n 0 0 ∧ scan_rest s (sorted_set s) 0.
Proof.
  intros Hpos Hn. split.
  - split_and!; [done| |done]. intros q Hq Hrun. assert (q ∈ s) as Hin by (apply Hrun; lia).
    apply Hpos in Hin. lia.
  - split_and!; [apply sorted_set_sorted|apply sorted_set_NoDup|]. intros x.
    rewrite elem_of_sorted_set. naive_solver.
Qed.

Lemma freelist_allocate_spec (fl : Freelist) (n : Z) :
  (∀ p, p ∈ free_pages fl → 0 < p) → 1 <= n →
  match freelist_allocate fl n with
  | (Some p, fl') =>
      0 < p ∧ free_run (free_pages fl) p n ∧ (∀ q, q < p → ¬ free_run (free_pages fl) q n) ∧
      fl' = mkFreelist (free_pages fl ∖ page_range p n) (pending_pages fl)
  | (None, fl') => fl' = fl ∧ ∀ q, ¬ free_run (free_pages fl) q n
  end.
Proof.
  intros Hpos Hn. unfold freelist_allocate. case_decide as Hemp.
  { split; [done|]. intros q Hrun. assert (q ∈ free_pages fl) by (apply Hrun; lia). set_solver. }
  destruct (scan_start _ n Hpos Hn) as [Hinv Hrest].
  destruct (alloc_scan_spec _ _ Hpos Hn _ _ _ Hinv Hrest) as [(H0 & Hrun & Hmin)|[-> Hno]].
  - rewrite (proj2 (Z.ltb_lt _ _)) by done. done.
  - done.
Qed.

(** First fit.  When every free id is positive and at least one page is
    asked for, [Freelist::allocate] returns the lowest start of a run of [n]
    consecutive free pages and removes exactly that run; it returns [None], and
    changes nothing, only when no such run exists. *)
Theorem freelist_allocate_first_fit (fl : Freelist) (n : Z) :
  (∀ p, p ∈ free_pages fl → 0 < p) → 1 <= n →
  match freelist_allocate fl n with
  | (Some p, fl') =>
      0 < p ∧ free_run (free_pages fl) p n ∧ (∀ q, q < p → ¬ free_run (free_pages fl) q n) ∧
      fl' = mkFreelist (free_pages fl ∖ page_range p n) (pending_pages fl)
  | (None, fl') => fl' = fl ∧ ∀ q, ¬ free_run (free_pages fl) q n
  end.
Proof. apply freelist_allocate_spec. Qed.

Lemma freelist_allocate_first_fit_witness :
  freelist_allocate (mkFreelist {[2; 4; 6; 8; 9; 10]} ∅) 3 =
    (Some 8, mkFreelist {[2; 4; 6]} ∅) ∧
  free_run {[2; 4; 6; 8; 9; 10]} 8 3.
Proof.
  pose proof (freelist_allocate_first_fit (mkFreelist {[2; 4; 6; 8; 9; 10]} ∅) 3) as H.
  assert (freelist_allocate (mkFreelist {[2; 4; 6; 8; 9; 10]} ∅) 3 =
    (Some 8, mkFreelist {[2; 4; 6]} ∅)) as E by (vm_compute; reflexivity).
  rewrite E in H. split; [exact E|]. apply H; cbn; [set_solver by lia|lia].
Defined.

(** ** Release *)

Lemma pending_at_delete fl t t' s :
  pending_at (mkFreelist s (delete t (pending_pages fl))) t' =
  if decide (t = t') then [] else pending_at fl t'.
Proof. unfold pending_at. cbn. rewrite lookup_delete. by case_decide. Qed.

Lemma release_loop_spec ids t fl :
  StronglySorted Z.le ids → (∀ k, is_Some (pending_pages fl !! k) → k < t → k ∈ ids) →
  (∀ p, p ∈ free_pages (release_loop ids t fl) ↔
     p ∈ free_pages fl ∨ ∃ k, k < t ∧ p ∈ pending_at fl k) ∧
  (∀ k, pending_pages (release_loop ids t fl) !! k =
     if decide (k < t) then None else pending_pages fl !! k).
Proof.
  revert fl. induction ids as [|k0 ids IH]; intros fl Hs Hall; cbn [release_loop].
  { assert (∀ k, k < t → pending_pages fl !! k = None) as Hnone.
    { intros k Hk. destruct (pending_pages fl !! k) eqn:E; [|done].
      exfalso. eapply not_elem_of_nil, (Hall k); [by rewrite E|done]. }
    split.
    - intros p. split; [auto|]. intros [?|(k & Hk & Hp)]; [done|].
      unfold pending_at in Hp. rewrite Hnone in Hp by done. by apply elem_of_nil in Hp.
    - intros k. case_decide; [by apply Hnone|done]. }
  apply StronglySorted_cons in Hs as [Hk0 Hs]. destruct (Z.ltb_spec k0 t) as [Hlt|Hge].
  - destruct (IH (mkFreelist (list_to_set (pending_at fl k0) ∪ free_pages fl)
      (delete k0 (pending_pages fl)))) as [IHf IHp]; [done| |].
    { intros k [x Hx] Hk. cbn in Hx. rewrite lookup_delete in Hx. case_decide as Hne; [done|].
      destruct (proj1 (elem_of_cons _ _ _) (Hall k (mk_is_Some _ _ Hx) Hk)); [congruence|done]. }
    split.
    + intros p. rewrite IHf. cbn. rewrite elem_of_union, elem_of_list_to_set. split.
      * intros [[?|?]|(k & Hk & Hp)]; eauto. rewrite pending_at_delete in Hp.
        case_decide; [by apply elem_of_nil in Hp|eauto].
      * intros [?|(k & Hk & Hp)]; [auto|]. destruct (decide (k0 = k)) as [->|Hne]; [auto|].
        right. exists k. by rewrite pending_at_delete, decide_False.
    + intros k. rewrite IHp. cbn. rewrite lookup_delete. repeat case_decide; subst; done || lia.
  - rewrite Forall_forall in Hk0.
    assert (∀ k, k < t → pending_pages fl !! k = None) as Hnone.
    { intros k Hk. destruct (pending_pages fl !! k) eqn:E; [|done]. exfalso.
      destruct (proj1 (elem_of_cons _ _ _) (Hall k (mk_is_Some _ _ E) Hk)) as [->|Hin]; [lia|].
      apply Hk0 in Hin. lia. }
    split.
    + intros p. split; [auto|]. intros [?|(k & Hk & Hp)]; [done|].
      unfold pending_at in Hp. rewrite Hnone in Hp by done. by apply elem_of_nil in Hp.
    + intros k. case_decide; [by apply Hnone|done].
Qed.

Lemma release_spec (fl : Freelist) (t : Z) :
  (∀ p, p ∈ free_pages (release fl t) ↔
     p ∈ free_pages fl ∨ ∃ k, k < t ∧ p ∈ pending_at fl k) ∧
  (∀ k, pending_pages (release fl t) !! k =
     if decide (k < t) then None else pending_pages fl !! k).
Proof.
  apply release_loop_spec; [apply sorted_set_sorted|].
  intros k Hk _. by apply elem_of_sorted_keys.
Qed.

(** Retirement generations.  [Freelist::release] makes reusable exactly the
    pages retired by transactions below the given id, and keeps every later
    generation pending: stopping at the first id that is not below it loses
    none. *)
Theorem release_generations (fl : Freelist) (t : Z) :
  (∀ p, p ∈ free_pages (release fl t) ↔
     p ∈ free_pages fl ∨ ∃ k, k < t ∧ p ∈ pending_at fl k) ∧
  (∀ k, pending_pages (release fl t) !! k =
     if decide (k < t) then None else pending_pages fl !! k).
Proof. apply release_spec. Qed.

(** ** Persisting and reloading *)

(** Freelists that differ only in the order of a generation's pages. *)
#[global] Instance freelist_equiv : Equiv Freelist := λ a b,
  free_pages a = free_pages b ∧ ∀ t, pending_at a t ≡ₚ pending_at b t.

#[global] Instance freelist_equivalence : Equivalence (≡@{Freelist}).
Proof.
  split; unfold equiv, freelist_equiv.
  - done.
  - intros a b [? H]. split; [done|]. intros t. by rewrite H.
  - intros a b c [? H] [? H']. split; [congruence|]. intros t. by rewrite H.
Qed.

Lemma pending_at_free fl t p t' :
  pending_at (freelist_free fl t p) t' =
  if decide (t = t') then pending_at fl t' ++ [p] else pending_at fl t'.
Proof.
  unfold pending_at at 1, freelist_free. cbn. rewrite lookup_insert. by case_decide; subst.
Qed.

#[global] Instance freelist_free_proper : Proper ((≡) ==> (=) ==> (=) ==> (≡)) freelist_free.
Proof.
  intros a b [Hf Hp] ? t -> ? p ->. split; [done|]. intros t'. rewrite !pending_at_free.
  case_decide; by rewrite Hp.
Qed.

#[global] Instance release_proper : Proper ((≡) ==> (=) ==> (≡)) release.
Proof.
  intros a b [Hf Hp] ? t ->. destruct (release_spec a t) as [Fa Pa],
    (release_spec b t) as [Fb Pb]. split.
  - apply set_eq. intros p. rewrite Fa, Fb, Hf. f_equiv. f_equiv. intros k. by rewrite Hp.
  - intros k. unfold pending_at. rewrite Pa, Pb. case_decide; [done|]. apply Hp.
Qed.

#[global] Instance freelist_allocate_proper_free :
  Proper ((≡) ==> (=) ==> (=)) (λ fl n, fst (freelist_allocate fl n)).
Proof.
  intros a b [Hf Hp] ? n ->. unfold freelist_allocate. rewrite Hf. repeat case_match; naive_solver.
Qed.

Definition entries_at (es : list RetiredPage) (t : Z) : list PageID :=
  page_id <$> filter (λ e, retired_tx_id e = t) es.

Lemma freelist_init_spec es fl :
  (∀ p, p ∈ free_pages (freelist_init fl es) ↔ p ∈ free_pages fl ∨ p ∈ entries_at es 0) ∧
  (∀ t, t ≠ 0 → pending_at (freelist_init fl es) t = pending_at fl t ++ entries_at es t) ∧
  pending_at (freelist_init fl es) 0 = pending_at fl 0.
Proof.
  unfold freelist_init. revert fl. induction es as [|e es IH]; intros fl; cbn [fold_left].
  { unfold entries_at. cbn. split_and!; [|intros; by rewrite app_nil_r|done]. set_solver. }
  destruct (IH (init_entry fl e)) as (Hf & Hp & H0). clear IH.
  unfold init_entry in *. unfold entries_at in *. rewrite filter_cons.
  destruct (Z.eqb_spec (retired_tx_id e) 0) as [E|E].
  - split_and!.
    + intros p. rewrite Hf. cbn. rewrite decide_True by done. rewrite fmap_cons. set_solver.
    + intros t Ht. rewrite Hp by done. rewrite filter_cons, decide_False by congruence. done.
    + rewrite H0. done.
  - split_and!.
    + intros p. rewrite Hf. cbn. rewrite decide_False by done. done.
    + intros t Ht. rewrite Hp by done. rewrite pending_at_free, filter_cons.
      case_decide; [|done]. by rewrite fmap_cons, <-app_assoc.
    + rewrite H0, pending_at_free, decide_False by done. done.
Qed.

Lemma entries_at_app es es' t : entries_at (es ++ es') t = entries_at es t ++ entries_at es' t.
Proof. unfold entries_at. by rewrite filter_app, fmap_app. Qed.

Lemma entries_at_generation ps t t' :
  entries_at ((λ p, mkRetired p t) <$> ps) t' = if decide (t = t') then ps else [].
Proof.
  unfold entries_at. induction ps as [|p ps IH]; [by case_decide|].
  rewrite fmap_cons, filter_cons. cbn. case_decide; rewrite ?fmap_cons, IH; done.
Qed.

Lemma entries_at_bind ks f t :
  NoDup ks →
  entries_at (ks ≫= λ k, (λ p, mkRetired p k) <$> f k) t = if decide (t ∈ ks) then f t else [].
Proof.
  induction ks as [|k ks IH]; intros Hnd; [done|].
  apply NoDup_cons in Hnd as [Hni Hnd]. rewrite bind_cons, entries_at_app, IH by done.
  rewrite entries_at_generation. destruct (decide (k = t)) as [->|Hne].
  - rewrite (decide_False (P := t ∈ ks)) by done. rewrite decide_True by (by left). apply app_nil_r.
  - destruct (decide (t ∈ ks)).
    + rewrite decide_True by (by right). done.
    + rewrite decide_False; [done|]. by intros [?|?]%elem_of_cons.
Qed.

Lemma entries_at_raw fl t :
  entries_at (raw_entries fl) t =
  (if decide (t = 0) then sorted_set (free_pages fl) else []) ++ pending_at fl t.
Proof.
  unfold raw_entries. rewrite entries_at_app, entries_at_generation.
  rewrite entries_at_bind by apply sorted_set_NoDup. f_equal; [by repeat case_decide|].
  case_decide as E; [done|]. rewrite elem_of_sorted_keys in E.
  unfold pending_at. destruct (_ !! t); [|done]. exfalso. eauto.
Qed.

#[global] Instance entries_at_perm : Proper ((≡ₚ) ==> (=) ==> (≡ₚ)) entries_at.
Proof. intros a b HP ? t ->. unfold entries_at. by rewrite HP. Qed.

(** Writing [Freelist::entries] and loading them with [Freelist::init] gives back
    the same free set and, per transaction, the same retired pages in some order,
    provided no generation is numbered 0 (the number that marks reusable pages on
    disk). *)
Lemma freelist_init_entries (fl : Freelist) :
  pending_at fl 0 = [] → freelist_init freelist_new (freelist_entries fl) ≡ fl.
Proof.
  intros H0. destruct (freelist_init_spec (freelist_entries fl) freelist_new) as (Hf & Hp & Hp0).
  assert (∀ t, entries_at (freelist_entries fl) t ≡ₚ entries_at (raw_entries fl) t) as HP.
  { intros t. unfold freelist_entries. by rewrite merge_sort_Permutation. }
  split.
  - apply set_eq. intros p. rewrite Hf, HP, entries_at_raw, decide_True, H0, app_nil_r by done.
    rewrite elem_of_sorted_set. set_solver.
  - intros t. destruct (decide (t = 0)) as [->|Hne].
    + rewrite Hp0, H0. done.
    + rewrite Hp by done. rewrite HP, entries_at_raw, decide_False by done. done.
Qed.

(** ** Page accounting of a transaction *)

(** Free and retired pages are data pages below [limit], each listed once. *)
Definition freelist_wf (limit : Z) (fl : Freelist) : Prop :=
  (∀ p, p ∈ free_pages fl → 2 <= p < limit) ∧
  (∀ t p, p ∈ pending_at fl t → 2 <= p < limit ∧ p ∉ free_pages fl) ∧
  (∀ t, NoDup (pending_at fl t)) ∧
  (∀ t t' p, p ∈ pending_at fl t → p ∈ pending_at fl t' → t = t').

#[global] Instance freelist_wf_proper limit : Proper ((≡) ==> iff) (freelist_wf limit).
Proof.
  assert (∀ a b, a ≡ b → freelist_wf limit a → freelist_wf limit b) as H.
  { intros a b [Ef Ep] (H1 & H2 & H3 & H4). rewrite Ef in *. split_and!; [done|..].
    - intros t p. rewrite <-Ep. apply H2.
    - intros t. rewrite <-Ep. apply H3.
    - intros t t' p. rewrite <-!Ep. apply H4. }
  intros a b E. split; apply H; done.
Qed.

(** A dirty block of [n] pages starting at [q]. *)
Definition dirty_block (tf : TxFreelist) (q n : Z) : Prop :=
  1 <= n ∧ ∃ buf, tf_pages tf !! q = Some buf ∧ Z.of_nat (length buf) = n * pagesize (tf_meta tf).

(** The dirty blocks of a transaction lie below [num_pages], outside the
    reusable pages, and do not overlap. *)
Definition tx_freelist_wf (tf : TxFreelist) : Prop :=
  1024 <= pagesize (tf_meta tf) ∧ 2 <= num_pages (tf_meta tf) ∧
  freelist_wf (num_pages (tf_meta tf)) (tf_inner tf) ∧
  (∀ q, is_Some (tf_pages tf !! q) → ∃ n, dirty_block tf q n) ∧
  (∀ q n x, dirty_block tf q n → q <= x < q + n →
     2 <= x < num_pages (tf_meta tf) ∧ x ∉ free_pages (tf_inner tf)) ∧
  (∀ q1 n1 q2 n2 x, dirty_block tf q1 n1 → dirty_block tf q2 n2 →
     q1 <= x < q1 + n1 → q2 <= x < q2 + n2 → q1 = q2).

Lemma pages_for_bounds ps b :
  1024 <= ps → 0 <= b → b + CHECKSUM_SIZE + ps <= u64_max →
  b + CHECKSUM_SIZE <= pages_for ps b * ps < b + CHECKSUM_SIZE + ps.
Proof.
  unfold pages_for, u64_max, CHECKSUM_SIZE. intros Hps Hb Hmax.
  assert (u64_wrap (b + 32) = b + 32) as ->.
  { unfold u64_wrap, u64_mod. apply Z.mod_small. lia. }
  pose proof (Z.div_mod (b + 32) ps) as Hd. pose proof (Z.mod_pos_bound (b + 32) ps) as Hm.
  cbv zeta. destruct (Z.eqb_spec ((b + 32) mod ps) 0); nia.
Qed.

Lemma pages_for_pos ps b :
  1024 <= ps → 0 <= b → b + CHECKSUM_SIZE + ps <= u64_max → 1 <= pages_for ps b.
Proof.
  intros Hps Hb Hmax. pose proof (pages_for_bounds ps b Hps Hb Hmax).
  unfold CHECKSUM_SIZE in *. nia.
Qed.

Lemma length_fresh_page p n stored :
  40 <= stored → Z.of_nat (length (fresh_page p n stored)) = stored.
Proof.
  intros. unfold fresh_page, page_off_id, page_off_overflow.
  rewrite !length_wr; rewrite ?length_wr; rewrite length_replicate; lia.
Qed.

(** The page id and, when the file grows, the new page count. *)
Lemma freelist_allocate_wf limit fl n :
  freelist_wf limit fl → 2 <= limit → 1 <= n →
  match freelist_allocate fl n with
  | (Some p, fl') =>
      (∀ x, p <= x < p + n → x ∈ free_pages fl ∧ x ∉ free_pages fl') ∧
      free_pages fl' ⊆ free_pages fl ∧ pending_pages fl' = pending_pages fl
  | (None, fl') => fl' = fl
  end.
Proof.
  intros (Hfree & _) Hl Hn. pose proof (freelist_allocate_spec fl n) as Hspec.
  destruct (freelist_allocate fl n) as [[p|] fl'].
  - destruct Hspec as (_ & Hrun & _ & ->); [intros p' ?%Hfree; lia|done|]. cbn. split_and!; [|set_solver|done].
    intros x Hx. split; [by apply Hrun|]. rewrite elem_of_difference, elem_of_page_range. naive_solver.
  - by destruct Hspec as [-> _]; [intros p' ?%Hfree; lia|..].
Qed.

Lemma dirty_block_inj tf q n n' :
  1024 <= pagesize (tf_meta tf) → dirty_block tf q n → dirty_block tf q n' → n = n'.
Proof. intros Hps (_ & b & Hb & Hl) (_ & b' & Hb' & Hl'). simplify_eq. nia. Qed.

(** Adding a block whose pages were free or new keeps the accounting. *)
Lemma tx_freelist_wf_add tf m' fl' p n buf :
  tx_freelist_wf tf → 1 <= n →
  pagesize m' = pagesize (tf_meta tf) → num_pages (tf_meta tf) <= num_pages m' →
  Z.of_nat (length buf) = n * pagesize m' →
  free_pages fl' ⊆ free_pages (tf_inner tf) →
  pending_pages fl' = pending_pages (tf_inner tf) →
  (∀ x, p <= x < p + n → 2 <= x < num_pages m' ∧ (x ∉ free_pages fl') ∧
     (x ∈ free_pages (tf_inner tf) ∨ num_pages (tf_meta tf) <= x)) →
  tx_freelist_wf (mkTxFreelist m' fl' (<[p := buf]> (tf_pages tf))).
Proof.
  intros (Hps & H2 & (Hfree & Hpend & Hnd & Huniq) & Hblk & Hin & Hdisj) Hn Eps Hnp Hlen Hsub Epend Hnew.
  assert (∀ t, pending_at fl' t = pending_at (tf_inner tf) t) as Epa.
  { intros t. unfold pending_at. by rewrite Epend. }
  set (tf' := mkTxFreelist _ _ _).
  assert (∀ q k, dirty_block tf' q k → (q = p ∧ k = n) ∨ (q ≠ p ∧ dirty_block tf q k)) as Hcase.
  { intros q k (Hk & b & Hb & Hl). cbn in *. rewrite lookup_insert in Hb. case_decide; simplify_eq.
    - left. split; [done|]. nia.
    - right. split; [done|]. split; [done|]. exists b. split; [done|]. congruence. }
  assert (∀ q k x, dirty_block tf q k → q <= x < q + k → p <= x < p + n → False) as Hsep.
  { intros q k x Hb Hx Hx'. destruct (Hin q k x Hb Hx) as [? Hnf].
    destruct (Hnew x Hx') as (_ & _ & [?|?]); [done|lia]. }
  split_and!; cbn.
  - congruence.
  - lia.
  - split_and!.
    + intros x Hx. apply Hsub, Hfree in Hx. lia.
    + intros t x. rewrite Epa. intros [? Hnf]%Hpend. split; [lia|]. by intros ?%Hsub.
    + intros t. by rewrite Epa.
    + intros t t' x. rewrite !Epa. apply Huniq.
  - intros q [b Hb]. cbn in Hb. rewrite lookup_insert in Hb. case_decide; simplify_eq.
    + exists n. split; [done|]. exists b. cbn. by rewrite lookup_insert_eq.
    + destruct (Hblk q) as [k (Hk & b' & Hb' & Hl)]; [by rewrite Hb|].
      exists k. split; [done|]. exists b'. cbn. rewrite lookup_insert_ne by done. split; [done|congruence].
  - intros q k x [[-> ->]|[Hne Hb]]%Hcase Hx.
    + destruct (Hnew x Hx) as (? & ? & _). done.
    + destruct (Hin q k x Hb Hx) as [? ?]. split; [lia|]. by intros ?%Hsub.
  - intros q1 n1 q2 n2 x [[-> ->]|[Hne1 Hb1]]%Hcase [[-> ->]|[Hne2 Hb2]]%Hcase Hx1 Hx2; try done.
    + exfalso. by eapply Hsep.
    + exfalso. by eapply Hsep.
    + by eapply Hdisj.
Qed.

(** The two ways to find a block: a free run, or the end of the file. *)
Lemma tx_allocate_inv tf b p tf' :
  let ps := pagesize (tf_meta tf) in
  let n := pages_for ps b in
  tx_freelist_wf tf → b + CHECKSUM_SIZE + ps <= u64_max → num_pages (tf_meta tf) + n <= u64_max →
  tx_allocate tf b = Ok (p, tf') →
  0 <= b ∧ ∃ m' fl', tf' = mkTxFreelist m' fl' (<[p := fresh_page p n (n * ps)]> (tf_pages tf)) ∧
  pagesize m' = ps ∧ tx_id m' = tx_id (tf_meta tf) ∧ num_pages (tf_meta tf) <= num_pages m' ∧
  free_pages fl' ⊆ free_pages (tf_inner tf) ∧ pending_pages fl' = pending_pages (tf_inner tf) ∧
  (∀ x, p <= x < p + n → 2 <= x < num_pages m' ∧ (x ∉ free_pages fl') ∧
     (x ∈ free_pages (tf_inner tf) ∨ num_pages (tf_meta tf) <= x)).
Proof.
  cbv zeta. intros (Hps & H2 & Hfl & _) Hmax Hnp Halloc.
  unfold tx_allocate in Halloc. res_inv. bool_to_prop. unfold PAGE_SIZE_OF in *.
  assert (0 <= b) as Hb by lia. split; [done|].
  pose proof (pages_for_bounds _ b Hps Hb Hmax) as Hbnd.
  pose proof (pages_for_pos _ b Hps Hb Hmax) as Hn.
  set (n := pages_for (pagesize (tf_meta tf)) b) in *. unfold CHECKSUM_SIZE in *.
  assert (u64_wrap (n * pagesize (tf_meta tf)) = n * pagesize (tf_meta tf)) as Ewrap.
  { unfold u64_wrap, u64_mod. apply Z.mod_small. unfold u64_max in *. lia. }
  assert (u64_wrap (num_pages (tf_meta tf) + n) = num_pages (tf_meta tf) + n) as Enp.
  { unfold u64_wrap, u64_mod. apply Z.mod_small. unfold u64_max in *. lia. }
  pose proof (freelist_allocate_wf _ (tf_inner tf) n Hfl H2 Hn) as Hspec.
  destruct Hfl as (Hfree & _).
  destruct (freelist_allocate (tf_inner tf) n) as [[q|] fl']; cbn zeta in Halloc; res_inv; simplify_eq.
  - destruct Hspec as (Hrun & Hsub & Epend). rewrite Ewrap.
    eexists _, _. split; [done|]. split_and!; try done.
    intros x Hx. destruct (Hrun x Hx). split; [by apply Hfree|]. auto.
  - cbn [pagesize set_num_pages]. rewrite Enp, Ewrap. eexists _, _. split; [done|]. cbn. split_and!; try done; [lia|].
    intros x Hx. split; [lia|]. split; [|by right; lia]. intros ?%Hfree. lia.
Qed.

(** Allocation only touches the page count. *)
Lemma tx_allocate_meta tf b p tf' :
  let n := pages_for (pagesize (tf_meta tf)) b in
  0 <= num_pages (tf_meta tf) → 0 <= n → num_pages (tf_meta tf) + n <= u64_max → tx_allocate tf b = Ok (p, tf') →
  tf_meta tf' = set_num_pages (tf_meta tf) (num_pages (tf_meta tf')) ∧ num_pages (tf_meta tf') <= num_pages (tf_meta tf) + n.
Proof.
  intros n H0 Hn Hnp Ha. unfold tx_allocate in Ha. fold n in Ha. res_inv.
  destruct (freelist_allocate (tf_inner tf) n) as [[q|] fl2]; cbn zeta in Ha; res_inv; simplify_eq; cbn.
  - split; [by destruct (tf_meta tf)|lia].
  - split; [done|]. unfold u64_wrap, u64_mod, u64_max in *. rewrite Z.mod_small; lia.
Qed.

(** What a successful allocation gives. *)
Lemma tx_allocate_ok (tf : TxFreelist) (b : Z) (p : PageID) (tf' : TxFreelist) :
  let ps := pagesize (tf_meta tf) in
  let n := pages_for ps b in
  tx_freelist_wf tf → b + CHECKSUM_SIZE + ps <= u64_max → num_pages (tf_meta tf) + n <= u64_max →
  tx_allocate tf b = Ok (p, tf') →
  tx_freelist_wf tf' ∧
  tf_pages tf' !! p = Some (fresh_page p n (n * ps)) ∧
  (b + CHECKSUM_SIZE <= n * ps < b + CHECKSUM_SIZE + ps) ∧
  (∀ x, p <= x < p + n →
     (x ∈ free_pages (tf_inner tf) ∨ num_pages (tf_meta tf) <= x) ∧ x < num_pages (tf_meta tf') ∧
     (x ∉ free_pages (tf_inner tf')) ∧ (∀ t, x ∉ pending_at (tf_inner tf') t) ∧
     (∀ q k, dirty_block tf q k → ¬ (q <= x < q + k))).
Proof.
  cbv zeta. intros Hwf Hmax Hnp Halloc.
  destruct (tx_allocate_inv _ _ _ _ Hwf Hmax Hnp Halloc)
    as (Hb & m' & fl' & -> & Eps & _ & Hle & Hsub & Epend & Hnew).
  pose proof Hwf as (Hps & H2 & (Hfree & Hpend & _ & _) & _ & Hin & _).
  pose proof (pages_for_bounds _ b Hps Hb Hmax) as Hbnd.
  pose proof (pages_for_pos _ b Hps Hb Hmax) as Hn.
  set (n := pages_for (pagesize (tf_meta tf)) b) in *. unfold CHECKSUM_SIZE in *.
  split; [|split; [cbn; by rewrite lookup_insert_eq|split; [done|]]].
  - apply (tx_freelist_wf_add _ _ _ _ n); try done. rewrite length_fresh_page; [congruence|nia].
  - intros x Hx. destruct (Hnew x Hx) as (? & ? & Hor). cbn. split_and!; try done; [lia| |].
    + intros t. unfold pending_at. rewrite Epend. intros Hp. destruct (Hpend t x Hp) as [? Hnf].
      destruct Hor; [done|lia].
    + intros q k Hblk Hx'. destruct (Hin q k x Hblk Hx') as [? Hnf]. destruct Hor; [done|lia].
Qed.

(** C31: allocated blocks are fresh.  On a consistent transaction freelist,
    [TxFreelist::allocate] returns a zero-initialised block with the header's id
    and overflow set that is large enough for the requested bytes and the
    checksum by less than one page; its pages were reusable or beyond the old
    end of the file, are no longer reusable, are not retired, and do not overlap
    any block this transaction allocated before, and the accounting stays
    consistent. *)
Theorem tx_allocate_fresh (tf : TxFreelist) (b : Z) (p : PageID) (tf' : TxFreelist) :
  let ps := pagesize (tf_meta tf) in
  let n := pages_for ps b in
  tx_freelist_wf tf → b + CHECKSUM_SIZE + ps <= u64_max → num_pages (tf_meta tf) + n <= u64_max →
  tx_allocate tf b = Ok (p, tf') →
  tx_freelist_wf tf' ∧
  tf_pages tf' !! p = Some (fresh_page p n (n * ps)) ∧
  (b + CHECKSUM_SIZE <= n * ps < b + CHECKSUM_SIZE + ps) ∧
  (∀ x, p <= x < p + n →
     (x ∈ free_pages (tf_inner tf) ∨ num_pages (tf_meta tf) <= x) ∧ x < num_pages (tf_meta tf') ∧
     (x ∉ free_pages (tf_inner tf')) ∧ (∀ t, x ∉ pending_at (tf_inner tf') t) ∧
     (∀ q k, dirty_block tf q k → ¬ (q <= x < q + k))).
Proof. apply tx_allocate_ok. Qed.

(** Retiring a range of live pages keeps the accounting. *)
Lemma tx_free_spec tf p n :
  tf_meta (tx_free tf p n) = tf_meta tf ∧ tf_pages (tx_free tf p n) = tf_pages tf ∧
  free_pages (tf_inner (tx_free tf p n)) = free_pages (tf_inner tf) ∧
  (∀ t, pending_at (tf_inner (tx_free tf p n)) t =
    if decide (tx_id (tf_meta tf) = t) then pending_at (tf_inner tf) t ++ seqZ p n else pending_at (tf_inner tf) t).
Proof.
  unfold tx_free. cbn. generalize (seqZ p n) as ids, (tx_id (tf_meta tf)) as tx. intros ids tx.
  generalize (tf_inner tf) as fl. intros fl. split_and!; try done.
  - revert fl. induction ids as [|id ids IH]; intros fl; cbn; [done|]. by rewrite IH.
  - revert fl. induction ids as [|id ids IH]; intros fl t; cbn; [case_decide; by rewrite ?app_nil_r|].
    rewrite IH, pending_at_free. case_decide; [|done]. by rewrite <-app_assoc.
Qed.

(** Pages a transaction may retire: in use, and not retired yet. *)
Definition retirable (tf : TxFreelist) (p n : Z) : Prop :=
  ∀ x, p <= x < p + n → 2 <= x < num_pages (tf_meta tf) ∧ (x ∉ free_pages (tf_inner tf)) ∧
    (∀ t, x ∉ pending_at (tf_inner tf) t).

Lemma tx_free_wf tf p n : tx_freelist_wf tf → retirable tf p n → tx_freelist_wf (tx_free tf p n).
Proof.
  intros (Hps & H2 & (Hfree & Hpend & Hnd & Huniq) & Hblk & Hin & Hdisj) Hr.
  destruct (tx_free_spec tf p n) as (Em & Eb & Ef & Ep).
  assert (∀ t x, x ∈ pending_at (tf_inner (tx_free tf p n)) t →
    x ∈ pending_at (tf_inner tf) t ∨ (t = tx_id (tf_meta tf) ∧ p <= x < p + n)) as Hin'.
  { intros t x. rewrite Ep. case_decide; [|auto]. rewrite elem_of_app, elem_of_seqZ. intros [?|?]; auto. }
  unfold tx_freelist_wf. rewrite Em, Eb, Ef. split_and!; try done.
  - split_and!; rewrite ?Ef; try done.
    + intros t x [Hx|[-> Hx]]%Hin'; [by apply (Hpend t)|]. destruct (Hr x Hx) as (? & ? & _). done.
    + intros t. rewrite Ep. case_decide; [|done]. apply NoDup_app. split_and!; [done| |apply NoDup_seqZ].
      intros x Hx Hs%elem_of_seqZ. by eapply (proj2 (proj2 (Hr x Hs))).
    + intros t t' x [Hx|[-> Hx]]%Hin' [Hx'|[-> Hx']]%Hin'; [by eapply Huniq| | |done].
      * exfalso. by eapply (proj2 (proj2 (Hr x Hx'))).
      * exfalso. by eapply (proj2 (proj2 (Hr x Hx))).
Qed.

Definition demo_meta (np : Z) : Meta := mkMeta 0 0 4 1024 (mkBucketMeta 3 0) np 2 7 0.

Lemma tx_allocate_fresh_witness :
  ∃ p tf', tx_allocate (mkTxFreelist (demo_meta 20) (mkFreelist {[4; 6; 7]} {[5 := [9]]}) ∅) 1500
             = Ok (p, tf') ∧ p = 6 ∧ tx_freelist_wf tf'.
Proof.
  eexists _, _. split; [vm_compute; reflexivity|]. split; [reflexivity|].
  eapply (tx_allocate_fresh (mkTxFreelist (demo_meta 20) (mkFreelist {[4; 6; 7]} {[5 := [9]]}) ∅) 1500 6);
    [|vm_compute; done|vm_compute; done|vm_compute; reflexivity].
  assert (freelist_wf 20 (mkFreelist {[4; 6; 7]} {[5 := [9]]})) as Hfl.
  { unfold freelist_wf. cbn [free_pages]. split_and!.
  - intros x Hx. rewrite !elem_of_union, !elem_of_singleton in Hx. lia.
  - intros t x. unfold pending_at. cbn. rewrite lookup_singleton. case_decide; cbn; [|by intros ?%elem_of_nil].
    rewrite list_elem_of_singleton, !elem_of_union, !elem_of_singleton. lia.
  - intros t. unfold pending_at. cbn. rewrite lookup_singleton. case_decide; cbn; [apply NoDup_singleton|constructor].
  - intros t t' x. unfold pending_at. cbn. rewrite !lookup_singleton.
    repeat case_decide; cbn; try (intros ?%elem_of_nil; done); try (intros ? ?%elem_of_nil; done). congruence. }
  split_and!; cbn; try done.
  - intros q [? [=]].
  - by intros q n x (_ & ? & [=] & _).
  - by intros q1 n1 q2 n2 x (_ & ? & [=] & _).
Defined.

(** How many entries a freelist has on disk. *)
Lemma length_freelist_entries fl :
  length (freelist_entries fl) = (size (free_pages fl) + length (pending_list fl))%nat.
Proof.
  unfold freelist_entries. rewrite merge_sort_Permutation. unfold raw_entries, pending_list.
  rewrite length_app, length_fmap. unfold sorted_set at 1. rewrite merge_sort_Permutation. f_equal.
  induction (sorted_keys (pending_pages fl)) as [|t ts IH]; [done|]. cbn. rewrite !length_app, length_fmap, IH. done.
Qed.

Lemma freelist_size_alt fl : freelist_size fl = 40 + 16 * Z.of_nat (length (freelist_entries fl)).
Proof.
  rewrite length_freelist_entries. unfold freelist_size, freelist_pages, PAGE_SIZE_OF, RETIRED_SIZE_OF.
  rewrite merge_sort_Permutation, length_app. unfold sorted_set. rewrite merge_sort_Permutation. done.
Qed.

(** The entries name free pages with generation 0 and retired pages with theirs. *)
Lemma elem_of_freelist_entries fl e :
  e ∈ freelist_entries fl →
  (page_id e ∈ free_pages fl ∧ retired_tx_id e = 0) ∨
  (page_id e ∈ pending_at fl (retired_tx_id e) ∧ is_Some (pending_pages fl !! retired_tx_id e)).
Proof.
  unfold freelist_entries. rewrite merge_sort_Permutation. unfold raw_entries.
  rewrite elem_of_app, list_elem_of_fmap, list_elem_of_bind. intros [(p & -> & Hp)|(t & Ht & Hk)].
  - left. split; [|done]. by apply elem_of_sorted_set.
  - right. apply list_elem_of_fmap in Ht as (p & -> & Hp). split; [done|]. by apply elem_of_sorted_keys in Hk.
Qed.
