(* ===== verification/Node.v ===== *)
(** * Tree nodes

    [src/src/tree/node.rs]: the materialised B+ tree node a write transaction
    edits.  Keys and values are byte handles ([Bytes] in the code); every
    operation goes through their contents, which is what the model keeps.  Sizes
    are sums of lengths of live buffers and stay far below [u64::MAX], so they are
    plain integers.  [Node::spill], [split]'s node creation and [write] need the
    bucket and the freelist and are in Spill.v. *)

From S2P Require Import Prelude Search Support Layout Meta Freelist.

Abbreviation NodeID := Z.

Definition HEADER_SIZE : Z := PAGE_SIZE_OF.
Definition LEAF_SIZE : Z := LEAF_SIZE_OF.
Definition BRANCH_SIZE : Z := BRANCH_SIZE_OF.
Definition MIN_KEYS_PER_NODE : nat := 2.

Definition TYPE_BRANCH : Z := 1.
Definition TYPE_LEAF : Z := 2.
Definition TYPE_META : Z := 3.
Definition TYPE_FREELIST : Z := 4.

(** [Node::TYPE_DATA] and [Node::TYPE_BUCKET], the types of a leaf element. *)
Definition TYPE_DATA : Z := 0.
Definition TYPE_BUCKET : Z := 1.

(** ** Branches and leaves *)

Record Branch := mkBranch { b_key : bytes; b_page : PageID }.

Inductive Leaf :=
  | LBucket (name : bytes) (m : BucketMeta)
  | LKv (k v : bytes).

#[global] Instance branch_eq_dec : EqDecision Branch.
Proof. solve_decision. Defined.
#[global] Instance leaf_eq_dec : EqDecision Leaf.
Proof. solve_decision. Defined.


Definition b_key_size (b : Branch) : Z := len_u64 (b_key b).

Definition leaf_node_type (l : Leaf) : Z :=
  match l with
  | LBucket _ _ => TYPE_BUCKET
  | LKv _ _ => TYPE_DATA
  end.

Definition leaf_key (l : Leaf) : bytes :=
  match l with
  | LBucket b _ => b
  | LKv k _ => k
  end.

Definition leaf_value (l : Leaf) : bytes :=
  match l with
  | LBucket _ m => bucket_meta_bytes m
  | LKv _ v => v
  end.

Definition leaf_size (l : Leaf) : Z :=
  match l with
  | LBucket b _ => len_u64 b + META_SIZE
  | LKv k v => len_u64 k + len_u64 v
  end.

Definition leaf_is_kv (l : Leaf) : bool :=
  match l with
  | LBucket _ _ => false
  | LKv _ _ => true
  end.

(** ** Node data *)

Inductive NodeData :=
  | Branches (bs : list Branch)
  | Leaves (ls : list Leaf).

#[global] Instance node_data_eq_dec : EqDecision NodeData.
Proof. solve_decision. Defined.

Definition data_len (d : NodeData) : nat :=
  match d with
  | Branches b => length b
  | Leaves l => length l
  end.

Definition data_size (d : NodeData) : Z :=
  match d with
  | Branches b => fold_left (λ acc b, acc + b_key_size b) b (BRANCH_SIZE * len_u64 b)
  | Leaves l => fold_left (λ acc l, acc + leaf_size l) l (LEAF_SIZE * len_u64 l)
  end.

(** The key of element 0; indexing an empty vector panics. *)
Definition data_first_key (d : NodeData) : res bytes :=
  match d with
  | Branches b => unwrap (b_key <$> head b) "index out of bounds"
  | Leaves l => unwrap (leaf_key <$> head l) "index out of bounds"
  end.

(** [merge]: append, then sort by key.  The check loop over the merged leaves
    only prints, but indexes element 0 first. *)
Definition data_merge (d1 d2 : NodeData) : res NodeData :=
  match d1, d2 with
  | Branches b1, Branches b2 => Ok (Branches (sort_by_key b_key (b1 ++ b2)))
  | Leaves l1, Leaves l2 =>
      let l := sort_by_key leaf_key (l1 ++ l2) in
      _ ← unwrap (head l) "index out of bounds";
      Ok (Leaves l)
  | _, _ => Panic "incompatible data types"
  end.

(** [split_at]: [self] keeps the first [index] elements; [Vec::split_off]
    panics beyond the end. *)
Definition data_split_at (d : NodeData) (i : nat) : res (NodeData * NodeData) :=
  _ ← assert_that (i <=? data_len d)%nat "split_off index should be <= len";
  match d with
  | Branches b => Ok (Branches (take i b), Branches (drop i b))
  | Leaves l => Ok (Leaves (take i l), Leaves (drop i l))
  end.

(** ** Nodes *)

Record Node := mkNode {
  n_id : NodeID;
  n_page_id : PageID;
  n_num_pages : Z;
  n_children : list NodeID;
  n_data : NodeData;
  n_deleted : bool;
  n_original_key : option bytes;
  n_parent : option NodeID;
  n_pagesize : Z;
  n_spilled : bool
}.

(** Field updates. *)
Definition set_data (n : Node) (d : NodeData) : Node :=
  mkNode (n_id n) (n_page_id n) (n_num_pages n) (n_children n) d (n_deleted n) (n_original_key n)
    (n_parent n) (n_pagesize n) (n_spilled n).
Definition set_children (n : Node) (cs : list NodeID) : Node :=
  mkNode (n_id n) (n_page_id n) (n_num_pages n) cs (n_data n) (n_deleted n) (n_original_key n)
    (n_parent n) (n_pagesize n) (n_spilled n).
Definition set_parent (n : Node) (p : option NodeID) : Node :=
  mkNode (n_id n) (n_page_id n) (n_num_pages n) (n_children n) (n_data n) (n_deleted n) (n_original_key n)
    p (n_pagesize n) (n_spilled n).
Definition set_deleted (n : Node) : Node :=
  mkNode (n_id n) (n_page_id n) (n_num_pages n) (n_children n) (n_data n) true (n_original_key n)
    (n_parent n) (n_pagesize n) (n_spilled n).
Definition set_spilled (n : Node) : Node :=
  mkNode (n_id n) (n_page_id n) (n_num_pages n) (n_children n) (n_data n) (n_deleted n) (n_original_key n)
    (n_parent n) (n_pagesize n) true.
Definition set_page (n : Node) (p num : Z) : Node :=
  mkNode (n_id n) p num (n_children n) (n_data n) (n_deleted n) (n_original_key n)
    (n_parent n) (n_pagesize n) (n_spilled n).

Definition node_new (id : NodeID) (t pagesize : Z) : res Node :=
  data ← (if t =? TYPE_BRANCH then Ok (Branches [])
          else if t =? TYPE_LEAF then Ok (Leaves [])
          else Panic "INVALID PAGE TYPE FOR NEW NODE");
  Ok (mkNode id 0 0 [] data false None None pagesize false).

Definition node_with_data (id : NodeID) (data : NodeData) (pagesize : Z) : res Node :=
  key ← data_first_key data;
  Ok (mkNode id 0 0 [] data false (Some key) None pagesize false).

Definition branch_from_node (n : Node) : res Branch :=
  key ← data_first_key (n_data n);
  Ok (mkBranch key (n_page_id n)).

Definition insert_child (n : Node) (id : NodeID) (key : bytes) : res Node :=
  match n_data n with
  | Branches _ => Ok (set_children n (n_children n ++ [id]))
  | Leaves _ => Panic "CANNOT INSERT BRANCH INTO A LEAF NODE"
  end.

Definition insert_data (n : Node) (l : Leaf) : res Node :=
  match n_data n with
  | Branches _ => Panic "CANNOT INSERT DATA INTO A BRANCH NODE"
  | Leaves leaves =>
      match binary_search_by_key leaf_key leaves (leaf_key l) with
      | SFound i => Ok (set_data n (Leaves (<[i := l]> leaves)))
      | SMissing i => Ok (set_data n (Leaves (vec_insert leaves i l)))
      end
  end.

Definition insert_branch (n : Node) (original_key : option bytes) (b : Branch) : res Node :=
  let search_key := match original_key with Some k => k | None => b_key b end in
  match n_data n with
  | Leaves _ => Panic "CANNOT INSERT BRANCH INTO A LEAF NODE"
  | Branches branches =>
      match binary_search_by_key b_key branches search_key with
      | SFound i =>
          _ ← assert_that (bool_decide (is_Some original_key)) "original_key.is_some()";
          Ok (set_data n (Branches (<[i := b]> branches)))
      | SMissing i =>
          _ ← assert_that (bool_decide (original_key = None)) "original_key.is_none()";
          Ok (set_data n (Branches (vec_insert branches i b)))
      end
  end.

(** [Vec::remove] panics when the index is out of range. *)
Definition node_delete (n : Node) (index : nat) : res (Leaf * Node) :=
  match n_data n with
  | Branches _ => Panic "CANNOT DELETE DATA FROM A BRANCH NODE"
  | Leaves leaves =>
      l ← unwrap (leaves !! index) "removal index should be < len";
      Ok (l, set_data n (Leaves (vec_remove leaves index)))
  end.

Definition node_leaf (n : Node) : bool :=
  match n_data n with
  | Branches _ => false
  | Leaves _ => true
  end.

Definition node_size (n : Node) : Z := HEADER_SIZE + data_size (n_data n).

Definition needs_merging (n : Node) : bool :=
  (data_len (n_data n) <? MIN_KEYS_PER_NODE)%nat || (node_size n <? n_pagesize n / 4).

(** ** Splitting *)

(** [z as f32]: 24 significant bits, ties to even. *)
Definition f32_of_u64 (z : Z) : Z :=
  if z <? 2 ^ 24 then z
  else
    let e := Z.log2 z - 23 in
    let q := Z.shiftr z e in
    let r := z - Z.shiftl q e in
    let half := 2 ^ (e - 1) in
    let q := if (half <? r) || ((half =? r) && Z.odd q) then q + 1 else q in
    Z.shiftl q e.

(** [((pagesize as f32) * FILL_PERCENT) as u64]: halving is exact, the cast
    truncates. *)
Definition split_threshold (pagesize : Z) : Z := f32_of_u64 pagesize / 2.

(** The loop over [elements[..len - 2]]; [stop i] is the [break] of the branch
    loop, which the leaf loop has commented out. *)
Fixpoint split_scan {A} (stop : nat → bool) (element_size : A → Z) (threshold : Z)
    (els : list A) (i : nat) (current_size : Z) (count : nat) : list nat :=
  match els with
  | [] => []
  | e :: els =>
      if stop i then []
      else
        let count := S count in
        let size := element_size e in
        let new_size := current_size + size in
        if (MIN_KEYS_PER_NODE <=? count)%nat && (threshold <? new_size)
        then (i + 1)%nat :: split_scan stop element_size threshold els (i + 1) (HEADER_SIZE + size) 0
        else split_scan stop element_size threshold els (i + 1) new_size count
  end.

Definition split_indexes (d : NodeData) (threshold : Z) : list nat :=
  match d with
  | Branches b =>
      let len := length b in
      split_scan (λ i, (len - 3 <? i)%nat) (λ b, BRANCH_SIZE + b_key_size b) threshold
        (take (len - 2) b) 0 HEADER_SIZE 0
  | Leaves l =>
      let len := length l in
      split_scan (λ _, false) (λ l, LEAF_SIZE + leaf_size l) threshold
        (take (len - 2) l) 0 HEADER_SIZE 0
  end.

(** [split_indexes.into_iter().rev().map(|i| self.data.split_at(i))]: what is
    left of the data, and the pieces in that order. *)
Fixpoint split_off_all (d : NodeData) (rev_indexes : list nat) : res (NodeData * list NodeData) :=
  match rev_indexes with
  | [] => Ok (d, [])
  | i :: rest =>
      '(d, piece) ← data_split_at d i;
      '(d, pieces) ← split_off_all d rest;
      Ok (d, piece :: pieces)
  end.

(** [split] up to the creation of the sibling nodes: the data the node keeps
    and the data of its new siblings, in key order. *)
Definition split_data (n : Node) : res (option (NodeData * list NodeData)) :=
  if (data_len (n_data n) <=? MIN_KEYS_PER_NODE * 2)%nat || (node_size n <? n_pagesize n) then Ok None
  else
    match split_indexes (n_data n) (split_threshold (n_pagesize n)) with
    | [] => Ok None
    | indexes =>
        '(d, new_data) ← split_off_all (n_data n) (reverse indexes);
        Ok (Some (d, reverse new_data))
    end.

(** ** Order of a node's keys *)

Definition data_keys (d : NodeData) : list bytes :=
  match d with
  | Branches b => b_key <$> b
  | Leaves l => leaf_key <$> l
  end.

Definition data_sorted (d : NodeData) : Prop := StronglySorted lex_lt (data_keys d).

(** ** Sizes *)

Definition zsum {A} (f : A → Z) (l : list A) : Z := foldr (λ x a, f x + a) 0 l.

Lemma fold_left_zsum {A} (f : A → Z) (l : list A) (z : Z) :
  fold_left (λ acc x, acc + f x) l z = z + zsum f l.
Proof. revert z. induction l as [|x l IH]; intros z; cbn [fold_left]; [unfold zsum; cbn; lia|]. rewrite IH. unfold zsum. cbn. lia. Qed.

Lemma zsum_app {A} (f : A → Z) l1 l2 : zsum f (l1 ++ l2) = zsum f l1 + zsum f l2.
Proof. unfold zsum. induction l1 as [|x l1 IH]; cbn; [done|]. rewrite IH. lia. Qed.

Lemma leaf_size_alt l : leaf_size l = len_u64 (leaf_key l) + len_u64 (leaf_value l).
Proof.
  destruct l; cbn [leaf_size leaf_key leaf_value]; [|done]. unfold len_u64, bucket_meta_bytes.
  rewrite length_app, !length_le_bytes. unfold META_SIZE. lia.
Qed.

(** ** [split] partitions the data *)

(** Indexes that grow by at least two. *)
Fixpoint gaps_ok (lo : nat) (indexes : list nat) : Prop :=
  match indexes with
  | [] => True
  | i :: rest => (lo + 2 <= i)%nat ∧ gaps_ok i rest
  end.

Lemma gaps_ok_snoc lo l j :
  gaps_ok lo (l ++ [j]) →
  gaps_ok lo l ∧ (lo + 2 <= j)%nat ∧ Forall (λ i, (i + 2 <= j)%nat) l.
Proof.
  revert lo. induction l as [|i l IH]; intros lo; cbn; [intuition|].
  intros [? (? & ? & ?)%IH]. split_and!; try done; [lia|]. constructor; [lia|done].
Qed.

Lemma split_scan_gaps {A} stop (esize : A → Z) th els i cur count lo :
  i = (lo + count)%nat →
  gaps_ok lo (split_scan stop esize th els i cur count) ∧
  Forall (λ j, (j <= i + length els)%nat) (split_scan stop esize th els i cur count).
Proof.
  revert i cur count lo. induction els as [|e els IH]; intros i cur count lo ->; cbn [split_scan]; [done|].
  destruct (stop (lo + count)%nat); [done|]. cbv zeta.
  destruct ((MIN_KEYS_PER_NODE <=? S count)%nat && _) eqn:E; cbn [gaps_ok length].
  - bool_to_prop. unfold MIN_KEYS_PER_NODE in *.
    destruct (IH (lo + count + 1)%nat (HEADER_SIZE + esize e) 0%nat (lo + count + 1)%nat) as [Hg Hf]; [lia|].
    split; [split; [lia|done]|]. constructor; [lia|]. eapply Forall_impl; [done|]. cbn. lia.
  - destruct (IH (lo + count + 1)%nat (cur + esize e) (S count) lo) as [Hg Hf]; [lia|].
    split; [done|]. eapply Forall_impl; [done|]. cbn. lia.
Qed.

Section pieces.
Context {A : Type} (K : list A → NodeData).
Hypothesis HK : ∀ l i, (i <= length l)%nat → data_split_at (K l) i = Ok (K (take i l), K (drop i l)).

Lemma split_off_all_pieces indexes l :
  (2 <= length l)%nat → gaps_ok 0 indexes → Forall (λ i, (i + 2 <= length l)%nat) indexes →
  ∃ l0 pieces, split_off_all (K l) (reverse indexes) = Ok (K l0, K <$> reverse pieces) ∧
    l = l0 ++ concat pieces ∧ Forall (λ p, (2 <= length p)%nat) (l0 :: pieces) ∧
    length pieces = length indexes.
Proof.
  revert l. induction indexes as [|j indexes IH] using rev_ind; intros l Hl Hg Hf.
  { exists l, []. cbn. rewrite app_nil_r. split_and!; auto. }
  apply gaps_ok_snoc in Hg as (Hg & Hj & Hlt). apply Forall_app in Hf as [_ [Hf _]%Forall_cons].
  destruct (IH (take j l)) as (l0 & ps & E & El & Hp & Hlen); [rewrite length_take; lia|done| |].
  { eapply Forall_impl; [exact Hlt|]. cbn. intros i ?. rewrite length_take. lia. }
  exists l0, (ps ++ [drop j l]). rewrite reverse_app. cbn. rewrite HK by lia. cbn.
  rewrite E. cbn. rewrite reverse_snoc. split_and!; [done| | |].
  - rewrite concat_app. cbn. rewrite app_nil_r, app_assoc, <-El. by rewrite take_drop.
  - apply Forall_cons in Hp as [? ?]. constructor; [done|]. apply Forall_app. split; [done|].
    constructor; [rewrite length_drop; lia|done].
  - rewrite !length_app. cbn. lia.
Qed.

End pieces.

Lemma split_indexes_ok d th :
  (2 <= data_len d)%nat →
  gaps_ok 0 (split_indexes d th) ∧ Forall (λ i, (i + 2 <= data_len d)%nat) (split_indexes d th).
Proof.
  destruct d as [b|l]; cbn; intros Hl.
  - destruct (split_scan_gaps (λ i, (length b - 3 <? i)%nat) (λ b, BRANCH_SIZE + b_key_size b) th
      (take (length b - 2) b) 0 HEADER_SIZE 0 0) as [? Hf]; [done|]. split; [done|].
    eapply Forall_impl; [done|]. cbn. intros i. rewrite length_take. lia.
  - destruct (split_scan_gaps (λ _, false) (λ l, LEAF_SIZE + leaf_size l) th
      (take (length l - 2) l) 0 HEADER_SIZE 0 0) as [? Hf]; [done|]. split; [done|].
    eapply Forall_impl; [done|]. cbn. intros i. rewrite length_take. lia.
Qed.

Lemma data_split_at_branches l i :
  (i <= length l)%nat → data_split_at (Branches l) i = Ok (Branches (take i l), Branches (drop i l)).
Proof. intros. unfold data_split_at. cbn. by rewrite (proj2 (Nat.leb_le _ _)). Qed.

Lemma data_split_at_leaves l i :
  (i <= length l)%nat → data_split_at (Leaves l) i = Ok (Leaves (take i l), Leaves (drop i l)).
Proof. intros. unfold data_split_at. cbn. by rewrite (proj2 (Nat.leb_le _ _)). Qed.

(** The pieces a split leaves: the same elements in the same order, cut into
    two or more runs of at least two. *)
Definition split_ok (d d0 : NodeData) (pieces : list NodeData) : Prop :=
  pieces ≠ [] ∧ Forall (λ p, (2 <= data_len p)%nat) (d0 :: pieces) ∧
  match d with
  | Branches b => ∃ b0 bs, d0 = Branches b0 ∧ pieces = Branches <$> bs ∧ b = b0 ++ concat bs
  | Leaves l => ∃ l0 ls, d0 = Leaves l0 ∧ pieces = Leaves <$> ls ∧ l = l0 ++ concat ls
  end.

Lemma split_data_ok (n : Node) :
  match split_data n with
  | Ok None => True
  | Ok (Some (d0, pieces)) => split_ok (n_data n) d0 pieces
  | _ => False
  end.
Proof.
  unfold split_data. destruct (_ || _) eqn:E; [done|]. bool_to_prop. unfold MIN_KEYS_PER_NODE in *.
  destruct (split_indexes_ok (n_data n) (split_threshold (n_pagesize n))) as [Hg Hf]; [lia|].
  destruct (split_indexes _ _) as [|i rest] eqn:Ei; [done|].
  destruct (n_data n) as [b|l]; cbn [data_len] in *.
  - destruct (split_off_all_pieces Branches data_split_at_branches (i :: rest) b)
      as (b0 & ps & -> & -> & Hp & Hlen); [lia|done|done|].
    cbn. rewrite <-fmap_reverse, reverse_involutive. split; [by destruct ps|].
    split; [|eauto]. apply Forall_cons in Hp as [? ?]. constructor; [done|]. by apply Forall_fmap.
  - destruct (split_off_all_pieces Leaves data_split_at_leaves (i :: rest) l)
      as (b0 & ps & -> & -> & Hp & Hlen); [lia|done|done|].
    cbn. rewrite <-fmap_reverse, reverse_involutive. split; [by destruct ps|].
    split; [|eauto]. apply Forall_cons in Hp as [? ?]. constructor; [done|]. by apply Forall_fmap.
Qed.

(** [Node::split] never loses, duplicates or reorders an element: either
    the node is left alone, or its elements are cut into two or more consecutive
    runs, each with at least [MIN_KEYS_PER_NODE] keys, of which the node keeps
    the first and the new siblings get the others in key order; the calls of
    [split_off] never panic. *)
Theorem split_partitions (n : Node) :
  match split_data n with
  | Ok None => True
  | Ok (Some (d0, pieces)) => split_ok (n_data n) d0 pieces
  | _ => False
  end.
Proof. apply split_data_ok. Qed.

(** ** Editing a leaf *)

Lemma insert_data_ordered_put n ls l :
  n_data n = Leaves ls → insert_data n l = Ok (set_data n (Leaves (ordered_put leaf_key ls l))).
Proof.
  intros E. unfold insert_data. rewrite E. unfold ordered_put.
  by destruct (binary_search_by_key _ _ _).
Qed.

(** What inserting does to the map from keys to leaves: the abstract [insert]. *)
Definition leaf_map (ls : list Leaf) : gmap bytes Leaf := list_to_map ((λ l, (leaf_key l, l)) <$> ls).

Lemma leaf_map_assoc ls k : leaf_map ls !! k = assoc leaf_key ls k.
Proof.
  induction ls as [|l ls IH]; cbn; [apply lookup_empty|].
  unfold leaf_map in *. cbn. rewrite lookup_insert. case_decide; [done|]. apply IH.
Qed.

Lemma leaf_map_put ls l :
  keys_sorted leaf_key ls → leaf_map (ordered_put leaf_key ls l) = <[leaf_key l := l]> (leaf_map ls).
Proof.
  intros Hs. apply map_eq. intros k.
  rewrite leaf_map_assoc, assoc_ordered_put, lookup_insert, leaf_map_assoc by done. done.
Qed.

Lemma leaf_map_remove ls i l :
  keys_sorted leaf_key ls → ls !! i = Some l →
  leaf_map (vec_remove ls i) = delete (leaf_key l) (leaf_map ls).
Proof.
  intros Hs Hi. apply map_eq. intros k.
  rewrite leaf_map_assoc, (assoc_vec_remove _ _ _ l), lookup_delete, leaf_map_assoc by done. done.
Qed.

(** On a leaf node with sorted keys, [Node::insert_data] is the insertion
    into an ordered map: it succeeds, keeps the keys sorted and distinct,
    overwrites or adds the entry, and touches nothing but the data; [Node::delete]
    at an index removes exactly that entry and returns it. *)
Theorem leaf_edits_refine_map (n : Node) (ls : list Leaf) :
  n_data n = Leaves ls → keys_sorted leaf_key ls →
  (∀ l, ∃ ls', insert_data n l = Ok (set_data n (Leaves ls')) ∧ keys_sorted leaf_key ls' ∧
     leaf_map ls' = <[leaf_key l := l]> (leaf_map ls)) ∧
  (∀ i l, ls !! i = Some l → ∃ ls', node_delete n i = Ok (l, set_data n (Leaves ls')) ∧
     keys_sorted leaf_key ls' ∧ leaf_map ls' = delete (leaf_key l) (leaf_map ls)) ∧
  (∀ i, (length ls <= i)%nat → ∃ w, node_delete n i = Panic w).
Proof.
  intros E Hs. split_and!.
  - intros l. eexists. rewrite (insert_data_ordered_put n ls) by done.
    split_and!; [done|by apply ordered_put_sorted|by apply leaf_map_put].
  - intros i l Hi. exists (vec_remove ls i). unfold node_delete. rewrite E, Hi.
    split_and!; [done|by apply vec_remove_sorted|by apply leaf_map_remove].
  - intros i Hi. unfold node_delete. rewrite E, lookup_ge_None_2 by done. by eexists.
Qed.

Definition demo_leaves : list Leaf :=
  [LKv [Byte.x61] [Byte.x01]; LBucket [Byte.x62] (mkBucketMeta 7 3); LKv [Byte.x64] []].

Definition demo_node (d : NodeData) : Node := mkNode 0 0 0 [] d false None None 1024 false.

Lemma demo_leaves_sorted : keys_sorted leaf_key demo_leaves.
Proof. repeat constructor. Qed.

Lemma leaf_edits_refine_map_witness :
  ∃ ls', insert_data (demo_node (Leaves demo_leaves)) (LKv [Byte.x63] [Byte.x02])
           = Ok (set_data (demo_node (Leaves demo_leaves)) (Leaves ls')) ∧ length ls' = 4%nat.
Proof.
  destruct (proj1 (leaf_edits_refine_map (demo_node (Leaves demo_leaves)) demo_leaves eq_refl demo_leaves_sorted)
    (LKv [Byte.x63] [Byte.x02])) as (ls' & H & _ & _).
  exists ls'. split; [exact H|]. vm_compute in H. by injection H as <-.
Defined.

(** ** Editing a branch *)

(** Replacing an element by one whose key fits between its neighbours. *)
Lemma insert_between_sorted {A} (key : A → bytes) (l : list A) i x :
  keys_sorted key l →
  (∀ j e, l !! j = Some e → (j < i)%nat → lex_lt (key e) (key x)) →
  (∀ j e, l !! j = Some e → (i < j)%nat → lex_lt (key x) (key e)) →
  keys_sorted key (<[i := x]> l).
Proof.
  intros Hs Hlo Hhi. destruct (decide (i < length l)%nat).
  - rewrite insert_take_drop by done. apply keys_sorted_app. rewrite keys_sorted_cons.
    split_and!; [|by apply keys_sorted_take| |by apply keys_sorted_drop].
    + intros a b (j & Hj & Ha)%elem_of_take_lookup [->|(j' & Hj' & Hb)%elem_of_drop_lookup]%elem_of_cons; [eauto|].
      eapply (keys_sorted_lookup key l j j'); eauto. lia.
    + intros b (j & Hj & Hb)%elem_of_drop_lookup. eapply Hhi; [done|lia].
  - by rewrite list_insert_ge by lia.
Qed.

(** [Node::insert_branch] on a branch node with sorted keys.  With the
    child's original key it replaces exactly the branch of that key, keeping the
    order as long as the child's new first key stays between its neighbours;
    without one it inserts a new branch in order.  In the two remaining cases
    (the original key is gone, or the new key is already there) it panics. *)
Theorem insert_branch_spec (n : Node) (bs : list Branch) (b : Branch) :
  n_data n = Branches bs → keys_sorted b_key bs →
  (∀ i old, bs !! i = Some old →
     insert_branch n (Some (b_key old)) b = Ok (set_data n (Branches (<[i := b]> bs))) ∧
     ((∀ j e, bs !! j = Some e → (j < i)%nat → lex_lt (b_key e) (b_key b)) →
      (∀ j e, bs !! j = Some e → (i < j)%nat → lex_lt (b_key b) (b_key e)) →
      keys_sorted b_key (<[i := b]> bs))) ∧
  (assoc b_key bs (b_key b) = None →
     insert_branch n None b = Ok (set_data n (Branches (ordered_put b_key bs b))) ∧
     keys_sorted b_key (ordered_put b_key bs b)) ∧
  (∀ k, assoc b_key bs k = None → ∃ w, insert_branch n (Some k) b = Panic w) ∧
  (is_Some (assoc b_key bs (b_key b)) → ∃ w, insert_branch n None b = Panic w).
Proof.
  intros E Hs. unfold insert_branch. rewrite E.
  pose proof (binary_search_assoc b_key bs) as Ha. pose proof (binary_search_ok b_key bs) as Hok.
  split_and!.
  - intros i old Hi. split; [|by apply insert_between_sorted].
    specialize (Hok (b_key old) Hs). specialize (Ha (b_key old) Hs).
    rewrite (assoc_lookup _ _ _ _ Hs Hi) in Ha.
    destruct (binary_search_by_key _ _ _) as [i'|i']; [|done].
    destruct Hok as (e & He & Hk). by assert (i' = i) as -> by (by eapply keys_sorted_inj).
  - intros Hn. rewrite Ha in Hn by done. specialize (Hok (b_key b) Hs).
    split; [|by apply ordered_put_sorted]. unfold ordered_put.
    destruct (binary_search_by_key _ _ _) as [i'|i']; [|done].
    destruct Hok as (e & He & _). congruence.
  - intros k Hn. rewrite Ha in Hn by done. specialize (Hok k Hs).
    destruct (binary_search_by_key _ _ _) as [i'|i']; [|by eexists].
    destruct Hok as (e & He & _). congruence.
  - intros Hn. rewrite Ha in Hn by done.
    destruct (binary_search_by_key _ _ _) as [i'|i']; [by eexists|]. by destruct Hn.
Qed.

Definition demo_branches : list Branch := [mkBranch [Byte.x61] 5; mkBranch [Byte.x63] 6].

Lemma demo_branches_sorted : keys_sorted b_key demo_branches.
Proof. repeat constructor. Qed.

Lemma insert_branch_spec_witness :
  insert_branch (demo_node (Branches demo_branches)) (Some [Byte.x63]) (mkBranch [Byte.x62] 9)
    = Ok (demo_node (Branches [mkBranch [Byte.x61] 5; mkBranch [Byte.x62] 9])).
Proof.
  exact (proj1 (proj1 (insert_branch_spec (demo_node (Branches demo_branches)) demo_branches
    (mkBranch [Byte.x62] 9) eq_refl demo_branches_sorted) 1%nat (mkBranch [Byte.x63] 6) eq_refl)).
Defined.

(** ** Merging *)

Lemma data_merge_ok (d1 d2 : NodeData) :
  match d1, d2 with
  | Branches b1, Branches b2 => NoDup (b_key <$> b1 ++ b2) →
      ∃ b, data_merge d1 d2 = Ok (Branches b) ∧ keys_sorted b_key b ∧ b ≡ₚ b1 ++ b2
  | Leaves l1, Leaves l2 => NoDup (leaf_key <$> l1 ++ l2) → l1 ++ l2 ≠ [] →
      ∃ l, data_merge d1 d2 = Ok (Leaves l) ∧ keys_sorted leaf_key l ∧ l ≡ₚ l1 ++ l2
  | _, _ => ∃ w, data_merge d1 d2 = Panic w
  end.
Proof.
  destruct d1 as [b1|l1], d2 as [b2|l2]; cbn [data_merge]; try by eexists.
  - intros Hnd. eexists. split_and!; [done|by apply sort_by_key_sorted|apply sort_by_key_Permutation].
  - intros Hnd Hne. pose proof (sort_by_key_Permutation leaf_key (l1 ++ l2)) as HP.
    exists (sort_by_key leaf_key (l1 ++ l2)).
    split_and!; [|by apply sort_by_key_sorted|done].
    destruct (sort_by_key leaf_key (l1 ++ l2)) as [|x l]; [|done].
    by apply Permutation_nil in HP.
Qed.

(** [NodeData::merge] of two siblings keeps every element once and sorts
    them: on branch data, or on leaf data of which one side is not empty, with
    distinct keys, the result is a sorted permutation of the two; it panics on a
    branch and a leaf. *)
Theorem merge_sorted_union (d1 d2 : NodeData) :
  match d1, d2 with
  | Branches b1, Branches b2 => NoDup (b_key <$> b1 ++ b2) →
      ∃ b, data_merge d1 d2 = Ok (Branches b) ∧ keys_sorted b_key b ∧ b ≡ₚ b1 ++ b2
  | Leaves l1, Leaves l2 => NoDup (leaf_key <$> l1 ++ l2) → l1 ++ l2 ≠ [] →
      ∃ l, data_merge d1 d2 = Ok (Leaves l) ∧ keys_sorted leaf_key l ∧ l ≡ₚ l1 ++ l2
  | _, _ => ∃ w, data_merge d1 d2 = Panic w
  end.
Proof. apply data_merge_ok. Qed.

Lemma merge_sorted_union_witness :
  ∃ l, data_merge (Leaves [LKv [Byte.x65] []]) (Leaves demo_leaves) = Ok (Leaves l) ∧ keys_sorted leaf_key l.
Proof.
  destruct (merge_sorted_union (Leaves [LKv [Byte.x65] []]) (Leaves demo_leaves)) as (l & H & Hs & _).
  - apply (bool_decide_unpack _). vm_compute. done.
  - done.
  - by exists l.
Defined.
