(* ===== verification/Page.v ===== *)
(** * Pages

    [src/src/storage/page.rs]: the mapped page header, its element tables, the
    validation that every page read from disk goes through, the encoder
    [write_node], the checksum, and [Node::from_page] of
    [src/src/tree/node.rs].  A page is a buffer and the offset its header starts
    at; [&self.ptr] casts become loads from that buffer. *)

From S2P Require Import Prelude Search Support Layout Meta Freelist Node.

(** ** The digest

    The checksum is SHA3-256 of the [sha3] crate: any function to 32 bytes. *)
Class Digest := {
  sha3_256 : bytes → bytes;
  length_sha3_256 : ∀ b, length (sha3_256 b) = 32%nat
}.

(** ** Header fields *)

Definition page_id_at (buf : bytes) (p : nat) : PageID := rd64 buf (p + page_off_id).
Definition page_type_at (buf : bytes) (p : nat) : Z := rd8 buf (p + page_off_type).
Definition page_count_at (buf : bytes) (p : nat) : Z := rd64 buf (p + page_off_count).
Definition page_overflow_at (buf : bytes) (p : nat) : Z := rd64 buf (p + page_off_overflow).

(** ** Element tables *)

Record BranchElement := mkBranchElement {
  be_at : nat;
  be_page : PageID;
  be_key_size : Z;
  be_pos : Z
}.

Record LeafElement := mkLeafElement {
  le_at : nat;
  le_node_type : Z;
  le_pos : Z;
  le_key_size : Z;
  le_value_size : Z
}.

Definition branch_element_at (buf : bytes) (a : nat) : BranchElement :=
  mkBranchElement a (rd64 buf a) (rd64 buf (a + 8)) (rd64 buf (a + 16)).

Definition leaf_element_at (buf : bytes) (a : nat) : LeafElement :=
  mkLeafElement a (rd8 buf a) (rd64 buf (a + 8)) (rd64 buf (a + 16)) (rd64 buf (a + 24)).

Definition retired_page_at (buf : bytes) (a : nat) : RetiredPage :=
  mkRetired (rd64 buf a) (rd64 buf (a + 8)).

(** The bytes from [start] on of the object at [a]. *)
Definition bytes_at (buf : bytes) (a : nat) (start n : Z) : bytes :=
  take (Z.to_nat n) (drop (a + Z.to_nat start) buf).

Definition branch_element_key (buf : bytes) (e : BranchElement) : bytes :=
  bytes_at buf (be_at e) (be_pos e) (be_key_size e).

Definition leaf_element_key (buf : bytes) (e : LeafElement) : bytes :=
  bytes_at buf (le_at e) (le_pos e) (le_key_size e).

Definition leaf_element_value (buf : bytes) (e : LeafElement) : bytes :=
  bytes_at buf (le_at e) (u64_wrap (le_pos e + le_key_size e)) (le_value_size e).

(** [from_raw_parts(&self.ptr, self.count)] over elements of [size] bytes. *)
Definition table {A} (elem : bytes → nat → A) (size : nat) (buf : bytes) (p : nat) : list A :=
  (λ i, elem buf (p + page_off_ptr + i * size)%nat) <$> seq 0 (Z.to_nat (page_count_at buf p)).

Definition branch_elements (buf : bytes) (p : nat) : res (list BranchElement) :=
  _ ← assert_that (page_type_at buf p =? TYPE_BRANCH) "Did not find branch page";
  Ok (table branch_element_at 24 buf p).

Definition leaf_elements (buf : bytes) (p : nat) : res (list LeafElement) :=
  _ ← assert_that (page_type_at buf p =? TYPE_LEAF) "Did not find leaf page";
  Ok (table leaf_element_at 32 buf p).

Definition retired_pages (buf : bytes) (p : nat) : res (list RetiredPage) :=
  _ ← assert_that (page_type_at buf p =? TYPE_FREELIST) "page_type == TYPE_FREELIST";
  Ok (table retired_page_at 16 buf p).

Definition page_meta (buf : bytes) (p : nat) : res Meta :=
  _ ← assert_that (page_type_at buf p =? TYPE_META) "Did not find meta page";
  Ok (meta_read buf (p + page_off_ptr)).

(** ** Validation *)

Definition invalid_page (id : PageID) (what : string) : Error :=
  InvalidDB ("page " +:+ dec id +:+ " " +:+ what).

(** [usize::try_from(value)]: [usize] has 64 bits here. *)
Definition checked_usize (id : PageID) (value : Z) (field : string) : res Z :=
  if value <=? u64_max then Ok value
  else Err (invalid_page id (field +:+ " does not fit this platform")).

Definition checked_size (id : PageID) (count element_size : Z) : res Z :=
  count ← checked_usize id count "element count";
  ok_or (checked_mul count element_size) (invalid_page id "element count overflow").

Definition ensure_end (id : PageID) (offset len limit : Z) : res unit :=
  end_ ← ok_or (checked_add offset len) (invalid_page id "data offset overflow");
  fail_if (limit <? end_) (invalid_page id "data exceeds its block").

Definition known_page_type (t : Z) : bool :=
  (t =? TYPE_BRANCH) || (t =? TYPE_LEAF) || (t =? TYPE_META) || (t =? TYPE_FREELIST).

(** The header's offset and the length of the block. *)
Definition validate_span (buf : bytes) (id : PageID) (pagesize : Z) : res (nat * Z) :=
  offset ← ok_or (checked_mul id pagesize) (invalid_page id "offset overflow");
  offset ← checked_usize id offset "offset";
  header_end ← ok_or (checked_add offset PAGE_SIZE_OF) (invalid_page id "header overflow");
  _ ← fail_if (len_u64 buf <? header_end) (invalid_page id "is outside the mapped file");
  _ ← fail_if (negb (offset mod PAGE_ALIGN_OF =? 0))
        (invalid_page id ("starts at unaligned offset " +:+ dec offset));
  let page := Z.to_nat offset in
  _ ← fail_if (negb (page_id_at buf page =? id))
        (invalid_page id ("contains page id " +:+ dec (page_id_at buf page)));
  _ ← fail_if (negb (known_page_type (page_type_at buf page)))
        (invalid_page id ("has invalid type " +:+ dec (page_type_at buf page)));
  block_pages ← ok_or (checked_add (page_overflow_at buf page) 1) (invalid_page id "overflow count overflow");
  block_len ← ok_or (checked_mul block_pages pagesize) (invalid_page id "block length overflow");
  block_len ← checked_usize id block_len "block length";
  block_end ← ok_or (checked_add offset block_len) (invalid_page id "block end overflow");
  _ ← fail_if (len_u64 buf <? block_end) (invalid_page id "overflow block exceeds the file");
  _ ← fail_if (block_len <? PAGE_SIZE_OF + CHECKSUM_SIZE) (invalid_page id "block is too small");
  Ok (page, block_len).

(** One iteration of the element loops of [validate_layout]. *)
Definition validate_branch (id : PageID) (data_limit : Z) (index : nat) (e : BranchElement) : res unit :=
  let element_offset := Z.of_nat page_off_ptr + Z.of_nat index * BRANCH_SIZE_OF in
  relative_end ← ok_or (checked_add (be_pos e) (be_key_size e)) (invalid_page id "branch key overflow");
  relative_end ← checked_usize id relative_end "branch key end";
  ensure_end id element_offset relative_end data_limit.

Definition leaf_label (index : nat) : string := "leaf " +:+ dec (Z.of_nat index).

Definition validate_leaf (id : PageID) (data_limit : Z) (index : nat) (e : LeafElement) : res unit :=
  _ ← fail_if (negb ((le_node_type e =? TYPE_BUCKET) || (le_node_type e =? TYPE_DATA)))
        (invalid_page id (leaf_label index +:+ " has invalid node type " +:+ dec (le_node_type e)));
  _ ← fail_if ((le_node_type e =? TYPE_BUCKET) && negb (le_value_size e =? META_SIZE))
        (invalid_page id (leaf_label index +:+ " is a bucket with a " +:+ dec (le_value_size e) +:+ " byte value"));
  let element_offset := Z.of_nat page_off_ptr + Z.of_nat index * LEAF_SIZE_OF in
  relative_end ← ok_or (x ← checked_add (le_pos e) (le_key_size e); checked_add x (le_value_size e))
        (invalid_page id "leaf data overflow");
  relative_end ← checked_usize id relative_end "leaf data end";
  ensure_end id element_offset relative_end data_limit.

(** [for (index, element) in elements.iter().enumerate() { f(index, element)? }] *)
Fixpoint for_each_indexed {A} (f : nat → A → res unit) (i : nat) (l : list A) : res unit :=
  match l with
  | [] => Ok ()
  | x :: l => _ ← f i x; for_each_indexed f (S i) l
  end.

Definition validate_layout (buf : bytes) (p : nat) (data_limit : Z) : res unit :=
  let id := page_id_at buf p in
  let t := page_type_at buf p in
  let count := page_count_at buf p in
  let data_offset := Z.of_nat page_off_ptr in
  if t =? TYPE_META then ensure_end id data_offset META_SIZE_OF data_limit
  else if t =? TYPE_FREELIST then
    size ← checked_size id count RETIRED_SIZE_OF;
    ensure_end id data_offset size data_limit
  else if t =? TYPE_BRANCH then
    elements_size ← checked_size id count BRANCH_SIZE_OF;
    _ ← ensure_end id data_offset elements_size data_limit;
    els ← branch_elements buf p;
    for_each_indexed (validate_branch id data_limit) 0 els
  else if t =? TYPE_LEAF then
    elements_size ← checked_size id count LEAF_SIZE_OF;
    _ ← ensure_end id data_offset elements_size data_limit;
    els ← leaf_elements buf p;
    for_each_indexed (validate_leaf id data_limit) 0 els
  else Panic "internal error: entered unreachable code".

Definition validate_structure (buf : bytes) (id : PageID) (pagesize : Z) : res nat :=
  '(page, block_len) ← validate_span buf id pagesize;
  _ ← validate_layout buf page (block_len - CHECKSUM_SIZE);
  Ok page.

(** [Pages::node_page]: a branch or leaf page a traversal may follow. *)
Definition node_page (buf : bytes) (id : PageID) (pagesize : Z) : res nat :=
  page ← validate_structure buf id pagesize;
  let t := page_type_at buf page in
  _ ← fail_if (negb ((t =? TYPE_BRANCH) || (t =? TYPE_LEAF)))
        (invalid_page id ("is type " +:+ dec t +:+ " where a branch or leaf was expected"));
  Ok page.

Section checksum.
Context `{Digest}.

Definition seal_block (buf : bytes) : res bytes :=
  _ ← fail_if (len_u64 buf <? CHECKSUM_SIZE) (InvalidDB "cannot checksum a short page block");
  let at_ := (length buf - 32)%nat in
  Ok (write_at buf at_ (sha3_256 (take at_ buf))).

Definition verify_checksum (block : bytes) (id : PageID) : res unit :=
  let at_ := (length block - 32)%nat in
  fail_if (negb (bool_decide (sha3_256 (take at_ block) = drop at_ block))) (invalid_page id "checksum mismatch").

Definition validate_block (buf : bytes) (id : PageID) (pagesize : Z) : res nat :=
  '(page, block_len) ← validate_span buf id pagesize;
  _ ← verify_checksum (take (Z.to_nat block_len) (drop page buf)) id;
  _ ← validate_layout buf page (block_len - CHECKSUM_SIZE);
  Ok page.

End checksum.

(** ** Decoding: [Leaf::from_leaf] and [Node::from_page] *)

Definition leaf_from_element (buf : bytes) (e : LeafElement) : res Leaf :=
  if le_node_type e =? TYPE_DATA then Ok (LKv (leaf_element_key buf e) (leaf_element_value buf e))
  else if le_node_type e =? TYPE_BUCKET then
    Ok (LBucket (leaf_element_key buf e) (bucket_meta_of_bytes (leaf_element_value buf e)))
  else Panic "INVALID NODE TYPE".

Definition branch_from_element (buf : bytes) (e : BranchElement) : Branch :=
  mkBranch (branch_element_key buf e) (be_page e).

Definition data_from_page (buf : bytes) (p : nat) : res NodeData :=
  let t := page_type_at buf p in
  if t =? TYPE_BRANCH then
    els ← branch_elements buf p;
    Ok (Branches (branch_from_element buf <$> els))
  else if t =? TYPE_LEAF then
    els ← leaf_elements buf p;
    ls ← res_map (leaf_from_element buf) els;
    Ok (Leaves ls)
  else Panic "INVALID PAGE TYPE FOR FROM_PAGE".

Definition from_page (id : NodeID) (buf : bytes) (p : nat) (pagesize : Z) : res Node :=
  data ← data_from_page buf p;
  original_key ← (if (0 <? data_len data)%nat then k ← data_first_key data; Ok (Some k) else Ok None);
  Ok (mkNode id (page_id_at buf p) (u64_wrap (page_overflow_at buf p + 1)) [] data false original_key None pagesize false).

(** ** Encoding: [Page::write_node] *)

(** The loop over the element table; [weight] is the payload of an element. *)
Fixpoint write_elems {A} (size : nat) (fields : A → Z → list field) (weight : A → Z)
    (buf : bytes) (a : nat) (header_offsets data_size : Z) (els : list A) : bytes * Z :=
  match els with
  | [] => (buf, data_size)
  | e :: els =>
      let buf := wr_fields buf a (fields e (header_offsets + data_size)) in
      write_elems size fields weight buf (a + size) (header_offsets - Z.of_nat size)
        (data_size + weight e) els
  end.

Definition branch_fields (b : Branch) (pos : Z) : list field :=
  [(8, 0, b_page b); (8, 8, b_key_size b); (8, 16, pos)]%nat.

Definition leaf_fields (l : Leaf) (pos : Z) : list field :=
  [(1, 0, leaf_node_type l); (8, 16, len_u64 (leaf_key l)); (8, 24, len_u64 (leaf_value l)); (8, 8, pos)]%nat.

Definition leaf_weight (l : Leaf) : Z := len_u64 (leaf_key l) + len_u64 (leaf_value l).

(** [buf.write_all(b)] on a [&mut [u8]] at [a] with [room] bytes left. *)
Fixpoint write_all (buf : bytes) (a : nat) (room : Z) (data : list bytes) : res bytes :=
  match data with
  | [] => Ok buf
  | b :: data =>
      _ ← fail_if (room <? len_u64 b) (Io (mkIoError WriteZero "failed to write whole buffer"));
      write_all (write_at buf a b) (a + length b) (room - len_u64 b) data
  end.

(** The page starts at 0 of the block's own buffer. *)
Definition write_node (buf : bytes) (n : Node) : res bytes :=
  let count := Z.of_nat (data_len (n_data n)) in
  let buf := wr64 buf page_off_count count in
  match n_data n with
  | Branches branches =>
      let buf := wr8 buf page_off_type TYPE_BRANCH in
      let '(buf, data_size) := write_elems 24 branch_fields b_key_size buf page_off_ptr
                                 (BRANCH_SIZE * len_u64 branches) 0 branches in
      let total_header := BRANCH_SIZE * count in
      write_all buf (page_off_ptr + Z.to_nat total_header) data_size (b_key <$> branches)
  | Leaves leaves =>
      let buf := wr8 buf page_off_type TYPE_LEAF in
      let '(buf, data_size) := write_elems 32 leaf_fields leaf_weight buf page_off_ptr
                                 (LEAF_SIZE * len_u64 leaves) 0 leaves in
      let total_header := LEAF_SIZE * count in
      write_all buf (page_off_ptr + Z.to_nat total_header) data_size
        (leaves ≫= λ l, [leaf_key l; leaf_value l])
  end.

(** ** The element table loop *)

Lemma fields_ok_bound size fs n o v :
  fields_ok size fs = true → (n, o, v) ∈ fs → (o + n <= size)%nat.
Proof.
  induction fs as [|[[n' o'] v'] fs IH]; cbn [fields_ok]; intros Hok Hin; [by apply elem_of_nil in Hin|].
  bool_to_prop. apply elem_of_cons in Hin as [[= -> -> ->]|?]; [done|auto].
Qed.

Section elems.
Context {A : Type} (size : nat) (fields : A → Z → list field) (weight : A → Z).
Hypothesis Hfields : ∀ e pos, fields_ok size (fields e pos) = true.

(** Only the table changes. *)
Lemma write_elems_frame els buf a ho ds :
  (a + size * length els <= length buf)%nat →
  let r := write_elems size fields weight buf a ho ds els in
  length r.1 = length buf ∧ r.2 = ds + zsum weight els ∧
  (∀ n o, (o + n <= a)%nat → rd n r.1 o = rd n buf o).
Proof.
  revert buf a ho ds. induction els as [|e els IH]; intros buf a ho ds Hl.
  { cbn. split_and!; [done|unfold zsum; cbn; lia|done]. }
  cbn [length] in Hl. cbn [write_elems]. cbv zeta.
  set (buf1 := wr_fields buf a _).
  assert (length buf1 = length buf) as Hl1 by (apply (length_wr_fields _ _ size); [done|lia]).
  destruct (IH buf1 (a + size)%nat (ho - Z.of_nat size) (ds + weight e)) as (-> & -> & Hrd); [lia|].
  split_and!; [done|unfold zsum; cbn; lia|]. intros n o Ho. rewrite Hrd by lia.
  apply (rd_wr_fields_outside _ _ size); [done|lia..].
Qed.

(** Element [i] reads back with its position. *)
Lemma write_elems_read els buf a ho ds i e j n o v :
  (a + size * length els <= length buf)%nat →
  els !! i = Some e →
  let fs := fields e (ho - Z.of_nat (i * size) + (ds + zsum weight (take i els))) in
  Forall field_fits fs → fs !! j = Some (n, o, v) →
  rd n (write_elems size fields weight buf a ho ds els).1 (a + i * size + o) = v.
Proof.
  revert buf a ho ds i. induction els as [|e' els IH]; intros buf a ho ds i Hl Hi fs Hfit Hj; [done|].
  cbn [length] in Hl. cbn [write_elems]. cbv zeta.
  set (buf1 := wr_fields buf a _).
  assert (length buf1 = length buf) as Hl1 by (apply (length_wr_fields _ _ size); [done|lia]).
  destruct i as [|i]; simplify_eq/=.
  - assert (fs = fields e (ho + ds)) as Efs by (unfold fs; f_equal; unfold zsum; cbn; lia).
    destruct (write_elems_frame els buf1 (a + size) (ho - Z.of_nat size) (ds + weight e)) as (_ & _ & Hrd); [lia|].
    assert (o + n <= size)%nat.
    { apply (fields_ok_bound _ fs _ _ v); [by unfold fs|]. by eapply list_elem_of_lookup_2. }
    rewrite Hrd by lia. rewrite Nat.add_0_r. unfold buf1. rewrite <-Efs.
    apply (rd_wr_fields_nth _ _ size _ j); [by unfold fs|lia|done|done].
  - replace (a + (size + i * size) + o)%nat with (a + size + i * size + o)%nat by lia.
    assert (fs = fields e (ho - Z.of_nat size - Z.of_nat (i * size) + (ds + weight e' + zsum weight (take i els))))
      as Efs by (unfold fs; f_equal; unfold zsum; cbn [take foldr]; lia).
    apply IH; [lia|done|by rewrite <-Efs|by rewrite <-Efs].
Qed.

End elems.

(** ** The payload *)

Lemma write_at_app buf a b1 b2 :
  (a + length b1 + length b2 <= length buf)%nat →
  write_at (write_at buf a b1) (a + length b1) b2 = write_at buf a (b1 ++ b2).
Proof.
  intros Hl. unfold write_at at 1 3.
  assert (take (a + length b1) (write_at buf a b1) = take a buf ++ b1) as ->.
  { unfold write_at. rewrite app_assoc. apply take_app_length'. rewrite length_app, length_take. lia. }
  assert (drop (a + length b1 + length b2) (write_at buf a b1) = drop (a + length b1 + length b2) buf) as ->.
  { unfold write_at. rewrite app_assoc, drop_app_ge by (rewrite length_app, length_take; lia).
    rewrite length_app, length_take, drop_drop. f_equal. lia. }
  rewrite length_app, <-!app_assoc. do 3 f_equal. f_equal. lia.
Qed.

Lemma write_all_ok data buf a room :
  len_u64 (concat data) <= room → (a + length (concat data) <= length buf)%nat →
  write_all buf a room data = Ok (write_at buf a (concat data)).
Proof.
  revert buf a room. induction data as [|b data IH]; intros buf a room Hr Hl; cbn [write_all concat].
  { unfold write_at. cbn. by rewrite Nat.add_0_r, take_drop. }
  cbn [concat] in Hr, Hl. unfold len_u64 in *. rewrite length_app in Hr, Hl.
  unfold fail_if. rewrite (proj2 (Z.ltb_ge _ _)) by lia. cbn.
  rewrite IH by (rewrite ?length_write_at; lia). f_equal. apply write_at_app. lia.
Qed.

(** A chunk of a concatenation. *)
Lemma concat_chunk {A} (l1 l2 : list (list A)) x :
  take (length x) (drop (length (concat l1)) (concat (l1 ++ x :: l2))) = x.
Proof. rewrite concat_app, drop_app_length. cbn. by rewrite take_app_length. Qed.

Lemma drop_write_at buf D bs : (D <= length buf)%nat → drop D (write_at buf D bs) = bs ++ drop (D + length bs) buf.
Proof. intros. unfold write_at. rewrite drop_app_length'; [done|]. rewrite length_take. lia. Qed.

Lemma payload_read buf D l1 x l2 a start :
  (D <= length buf)%nat → 0 <= start → Z.of_nat a + start = Z.of_nat (D + length (concat l1)) →
  bytes_at (write_at buf D (concat (l1 ++ x :: l2))) a start (len_u64 x) = x.
Proof.
  intros HD Hs Ea. unfold bytes_at, len_u64. rewrite Nat2Z.id.
  replace (a + Z.to_nat start)%nat with (D + length (concat l1))%nat by lia.
  rewrite <-drop_drop, drop_write_at by done. rewrite drop_app_le by (rewrite concat_app, length_app; lia).
  rewrite take_app_le.
  - apply concat_chunk.
  - rewrite concat_app, length_drop, !length_app. cbn. rewrite length_app. lia.
Qed.

Lemma zsum_length_concat {A B} (f : A → list B) (l : list A) :
  zsum (λ x, len_u64 (f x)) l = len_u64 (concat (f <$> l)).
Proof.
  unfold zsum, len_u64. induction l as [|x l IH]; cbn; [done|]. rewrite length_app, IH. lia.
Qed.

(** ** Round trip of the encoder *)

Definition leaf_wf (l : Leaf) : Prop :=
  match l with
  | LBucket _ m => in_u64 (root_page m) ∧ in_u64 (next_int m)
  | LKv _ _ => True
  end.

Definition data_wf (d : NodeData) : Prop :=
  match d with
  | Branches b => Forall (λ b, in_u64 (b_page b)) b
  | Leaves l => Forall leaf_wf l
  end.

Lemma bucket_meta_roundtrip m :
  in_u64 (root_page m) → in_u64 (next_int m) → bucket_meta_of_bytes (bucket_meta_bytes m) = m.
Proof.
  intros H1 H2. unfold bucket_meta_of_bytes, bucket_meta_bytes, rd.
  destruct m as [r n]. cbn [root_page next_int] in *.
  rewrite drop_0, take_app_length' by (by rewrite length_le_bytes).
  rewrite drop_app_length' by (by rewrite length_le_bytes).
  rewrite take_ge by (by rewrite length_le_bytes).
  by rewrite !of_le_bytes8.
Qed.

(** [write_node] sets the count and the type, then the table, then the payload. *)
Definition node_header (buf : bytes) (t count : Z) : bytes := wr8 (wr64 buf page_off_count count) page_off_type t.

Lemma node_header_frame buf t count n o :
  (40 <= length buf)%nat →
  (o + n <= 8 ∨ (9 <= o ∧ o + n <= 16) ∨ 24 <= o)%nat →
  rd n (node_header buf t count) o = rd n buf o.
Proof.
  intros Hl Ho. unfold node_header, page_off_type, page_off_count.
  rewrite rd_wr_other by (rewrite ?length_wr; lia). apply rd_wr_other; lia.
Qed.

Lemma node_header_type buf t count :
  (40 <= length buf)%nat → 0 <= t < 256 → rd8 (node_header buf t count) 8 = t.
Proof.
  intros. unfold node_header, page_off_type, page_off_count. apply rd_wr_same; [rewrite length_wr; lia|].
  by change (256 ^ Z.of_nat 1) with 256.
Qed.

Lemma node_header_count buf t count :
  (40 <= length buf)%nat → in_u64 count → rd64 (node_header buf t count) 16 = count.
Proof.
  intros ? [??]. unfold node_header, page_off_type, page_off_count.
  rewrite rd_wr_other by (rewrite ?length_wr; lia). apply rd_wr_same; [lia|].
  by change (256 ^ Z.of_nat 8) with u64_mod.
Qed.

Lemma length_node_header buf t count : (40 <= length buf)%nat → length (node_header buf t count) = length buf.
Proof. intros. unfold node_header, page_off_type, page_off_count. rewrite !length_wr; rewrite ?length_wr; lia. Qed.

(** Every page built by the encoder: header, table, payload. *)
Section encode.
Context {A : Type} (size : nat) (fields : A → Z → list field) (weight : A → Z) (chunks : A → list bytes).
Hypothesis Hfields : ∀ e pos, fields_ok size (fields e pos) = true.
Hypothesis Hweight : ∀ e, weight e = len_u64 (concat (chunks e)).
Hypothesis Hsize : (1 <= size)%nat.

Definition encode (buf : bytes) (t : Z) (els : list A) : res bytes :=
  let '(buf, data_size) := write_elems size fields weight (node_header buf t (len_u64 els)) page_off_ptr
                             (Z.of_nat size * len_u64 els) 0 els in
  write_all buf (page_off_ptr + size * length els) data_size (els ≫= chunks).

Lemma zsum_weight els : zsum weight els = len_u64 (concat (els ≫= chunks)).
Proof.
  unfold zsum, len_u64. induction els as [|e els IH]; [done|]. cbn.
  rewrite concat_app, length_app, Nat2Z.inj_add, IH, Hweight. done.
Qed.

Context (buf : bytes) (t : Z) (els : list A).
Hypothesis Hcap : 40 + Z.of_nat size * len_u64 els + zsum weight els <= len_u64 buf.
Hypothesis Hbuf : len_u64 buf <= isize_max.
Hypothesis Ht : 0 <= t < 256.

Lemma cap_nat : (40 + size * length els + length (concat (els ≫= chunks)) <= length buf)%nat.
Proof. pose proof Hcap as Hc. rewrite zsum_weight in Hc. unfold len_u64 in Hc. lia. Qed.

Let D := (page_off_ptr + size * length els)%nat.
Let table1 := (write_elems size fields weight (node_header buf t (len_u64 els)) page_off_ptr
                 (Z.of_nat size * len_u64 els) 0 els).1.

Lemma encode_ok : encode buf t els = Ok (write_at table1 D (concat (els ≫= chunks))).
Proof.
  pose proof cap_nat as Hc. unfold encode.
  destruct (write_elems_frame size fields weight Hfields els (node_header buf t (len_u64 els)) page_off_ptr
    (Z.of_nat size * len_u64 els) 0) as (Hl & Hds & _).
  { rewrite length_node_header by lia. unfold page_off_ptr. lia. }
  unfold table1, D. destruct (write_elems _ _ _ _ _ _ _ _) as [b1 ds]. cbn [fst snd] in *.
  rewrite length_node_header in Hl by lia.
  apply write_all_ok; [rewrite <-zsum_weight; lia|]. unfold page_off_ptr. lia.
Qed.

Lemma length_table1 : length table1 = length buf.
Proof.
  pose proof cap_nat as Hc. unfold table1.
  destruct (write_elems_frame size fields weight Hfields els (node_header buf t (len_u64 els)) page_off_ptr
    (Z.of_nat size * len_u64 els) 0) as (-> & _).
  { rewrite length_node_header by lia. unfold page_off_ptr. lia. }
  apply length_node_header. lia.
Qed.

Definition encoded : bytes := write_at table1 D (concat (els ≫= chunks)).

Lemma length_encoded : length encoded = length buf.
Proof.
  pose proof cap_nat as Hc. unfold encoded, D, page_off_ptr.
  rewrite length_write_at; rewrite length_table1; lia.
Qed.

Lemma encoded_before n o : (o + n <= D)%nat → rd n encoded o = rd n table1 o.
Proof.
  pose proof cap_nat as Hc.
  intros Ho. unfold encoded. apply rd_write_at_other; [|by left]. unfold D, page_off_ptr.
  rewrite length_table1. lia.
Qed.

Lemma encoded_header n o :
  (o + n <= 32)%nat → rd n encoded o = rd n (node_header buf t (len_u64 els)) o.
Proof.
  intros Ho. rewrite encoded_before by (unfold D, page_off_ptr; lia).
  pose proof cap_nat as Hc. unfold table1.
  apply write_elems_frame; [done| |unfold page_off_ptr; lia].
  rewrite length_node_header by lia. unfold page_off_ptr. lia.
Qed.

Lemma encoded_type : page_type_at encoded 0 = t.
Proof.
  pose proof cap_nat as Hc.
  unfold page_type_at, page_off_type. rewrite Nat.add_0_l, encoded_header by lia.
  apply node_header_type; [lia|done].
Qed.

Lemma encoded_count : page_count_at encoded 0 = len_u64 els.
Proof.
  pose proof cap_nat as Hc. unfold page_count_at, page_off_count. rewrite Nat.add_0_l, encoded_header by lia.
  apply node_header_count; [unfold len_u64 in *; lia|].
  unfold in_u64, u64_mod, isize_max, len_u64 in *. nia.
Qed.

Lemma encoded_id : page_id_at encoded 0 = page_id_at buf 0.
Proof.
  pose proof cap_nat as Hc.
  unfold page_id_at, page_off_id. rewrite Nat.add_0_l, encoded_header by lia. apply node_header_frame; lia.
Qed.

Lemma encoded_overflow : page_overflow_at encoded 0 = page_overflow_at buf 0.
Proof.
  pose proof cap_nat as Hc.
  unfold page_overflow_at, page_off_overflow. rewrite Nat.add_0_l, encoded_header by lia. apply node_header_frame; lia.
Qed.

(** The position stored for element [i], relative to the element. *)
Definition elem_pos (i : nat) : Z :=
  Z.of_nat size * len_u64 els - Z.of_nat (i * size) + zsum weight (take i els).

Lemma elem_pos_ge i e : els !! i = Some e → 0 <= elem_pos i ∧ Z.of_nat (i * size) + elem_pos i + weight e <= Z.of_nat size * len_u64 els + zsum weight els.
Proof.
  clear Hcap Hbuf Ht. intros Hi. apply lookup_lt_Some in Hi as Hlt. unfold elem_pos.
  assert (zsum weight els = zsum weight (take i els) + (weight e + zsum weight (drop (S i) els))) as ->.
  { rewrite <-(take_drop_middle els i e Hi) at 1. rewrite zsum_app. unfold zsum. cbn. lia. }
  rewrite !zsum_weight. unfold len_u64. split; nia.
Qed.

Lemma encoded_field i e j n o v :
  els !! i = Some e → Forall field_fits (fields e (elem_pos i)) →
  fields e (elem_pos i) !! j = Some (n, o, v) →
  rd n encoded (page_off_ptr + i * size + o) = v.
Proof.
  intros Hi Hfit Hj. pose proof Hj as Hin%list_elem_of_lookup_2.
  pose proof (fields_ok_bound size _ _ _ _ (Hfields e (elem_pos i)) Hin).
  apply lookup_lt_Some in Hi as Hlt.
  rewrite encoded_before by (unfold D; nia). unfold table1.
  pose proof cap_nat as Hc.
  assert (elem_pos i = Z.of_nat size * len_u64 els - Z.of_nat (i * size) + (0 + zsum weight (take i els)))
    as Epos by (unfold elem_pos; lia). rewrite Epos in Hfit, Hj.
  eapply write_elems_read; [done| |done|done|done].
  rewrite length_node_header by lia. unfold page_off_ptr. lia.
Qed.

(** The payload of element [i], chunk by chunk. *)
Lemma encoded_payload i e c1 x c2 start :
  els !! i = Some e → chunks e = c1 ++ x :: c2 → start = elem_pos i + len_u64 (concat c1) →
  bytes_at encoded (page_off_ptr + i * size) start (len_u64 x) = x.
Proof.
  intros Hi Hc ->. destruct (elem_pos_ge i e Hi) as [Hp _]. unfold encoded.
  assert (els ≫= chunks = (take i els ≫= chunks) ++ c1 ++ x :: c2 ++ (drop (S i) els ≫= chunks)) as ->.
  { rewrite <-(take_drop_middle els i e Hi) at 1. rewrite bind_app. cbn. rewrite Hc, <-!app_assoc. done. }
  rewrite app_assoc. apply payload_read.
  - pose proof cap_nat as Hcn. rewrite length_table1. unfold D, page_off_ptr in *. lia.
  - unfold len_u64. lia.
  - rewrite concat_app, length_app. unfold elem_pos, D. rewrite zsum_weight. unfold len_u64.
    apply lookup_lt_Some in Hi as Hlt. nia.
Qed.

End encode.

Definition branch_chunks (b : Branch) : list bytes := [b_key b].
Definition leaf_chunks (l : Leaf) : list bytes := [leaf_key l; leaf_value l].

Lemma write_node_branches buf n bs :
  n_data n = Branches bs →
  write_node buf n = encode 24 branch_fields b_key_size branch_chunks buf TYPE_BRANCH bs.
Proof.
  intros E. unfold write_node, encode. rewrite E. cbn [data_len].
  change (Z.of_nat 24) with BRANCH_SIZE. change (Z.of_nat (length bs)) with (len_u64 bs).
  unfold node_header. destruct (write_elems _ _ _ _ _ _ _ _) as [b ds]. unfold BRANCH_SIZE, BRANCH_SIZE_OF, len_u64.
  replace (Z.to_nat (24 * Z.of_nat (length bs))) with (24 * length bs)%nat by lia.
  done.
Qed.

Lemma write_node_leaves buf n ls :
  n_data n = Leaves ls →
  write_node buf n = encode 32 leaf_fields leaf_weight leaf_chunks buf TYPE_LEAF ls.
Proof.
  intros E. unfold write_node, encode. rewrite E. cbn [data_len].
  change (Z.of_nat 32) with LEAF_SIZE. change (Z.of_nat (length ls)) with (len_u64 ls).
  unfold node_header. destruct (write_elems _ _ _ _ _ _ _ _) as [b ds]. unfold LEAF_SIZE, LEAF_SIZE_OF, len_u64.
  by replace (Z.to_nat (32 * Z.of_nat (length ls))) with (32 * length ls)%nat by lia.
Qed.

Lemma branch_fields_ok b pos : fields_ok 24 (branch_fields b pos) = true.
Proof. done. Qed.
Lemma leaf_fields_ok l pos : fields_ok 32 (leaf_fields l pos) = true.
Proof. done. Qed.
Lemma branch_chunks_weight b : b_key_size b = len_u64 (concat (branch_chunks b)).
Proof. unfold b_key_size, branch_chunks. cbn. by rewrite app_nil_r. Qed.
Lemma leaf_chunks_weight l : leaf_weight l = len_u64 (concat (leaf_chunks l)).
Proof. unfold leaf_weight, leaf_chunks, len_u64. cbn [concat]. rewrite app_nil_r, length_app. lia. Qed.

(** A table whose entries are known one by one. *)
Lemma table_eq {A B} (elem : bytes → nat → A) (f : A → B) size buf p (els : list B) :
  page_count_at buf p = len_u64 els →
  (∀ i x, els !! i = Some x → f (elem buf (p + page_off_ptr + i * size)%nat) = x) →
  f <$> table elem size buf p = els.
Proof.
  intros Hc Hf. unfold table, len_u64 in *. rewrite Hc, Nat2Z.id.
  apply list_eq. intros i. rewrite <-list_fmap_compose, list_lookup_fmap.
  destruct (els !! i) as [x|] eqn:E.
  - apply lookup_lt_Some in E as Hlt. rewrite lookup_seq_lt by done. cbn. f_equal. by apply Hf.
  - apply lookup_ge_None_1 in E. rewrite lookup_seq_ge by done. done.
Qed.

Lemma res_map_pure {A B} (f : A → res B) (g : A → B) l :
  (∀ x, x ∈ l → f x = Ok (g x)) → res_map f l = Ok (g <$> l).
Proof.
  induction l as [|x l IH]; intros Hf; cbn; [done|].
  rewrite Hf by (by left). cbn. rewrite IH by (intros y ?; apply Hf; by right). done.
Qed.

Lemma table_lookup {A} (elem : bytes → nat → A) size buf p i e :
  table elem size buf p !! i = Some e ↔
  (i < Z.to_nat (page_count_at buf p))%nat ∧ e = elem buf (p + page_off_ptr + i * size)%nat.
Proof.
  unfold table. rewrite list_lookup_fmap, fmap_Some. split.
  - intros (j & Hj & ->). apply lookup_seq in Hj as [-> ?]. cbn. auto.
  - intros [? ->]. exists i. rewrite lookup_seq_lt by done. auto.
Qed.

Lemma for_each_indexed_ok {A} (f : nat → A → res unit) k l :
  for_each_indexed f k l = Ok () ↔ ∀ i x, l !! i = Some x → f (k + i)%nat x = Ok ().
Proof.
  revert k. induction l as [|y l IH]; intros k; cbn [for_each_indexed]; [split; [by intros _ []|done]|].
  rewrite res_bind_Ok. split.
  - intros ([] & Hy & Hl) [|i] x; cbn.
    + intros [= ->]. by rewrite Nat.add_0_r.
    + intros Hx. rewrite IH in Hl. rewrite <-Nat.add_succ_comm. auto.
  - intros Hall. exists (). split; [rewrite <-(Nat.add_0_r k); auto|].
    apply IH. intros i x Hx. rewrite Nat.add_succ_comm. by apply Hall.
Qed.

Lemma ensure_end_ok id off len limit :
  limit <= u64_max → ensure_end id off len limit = Ok () ↔ off + len <= limit.
Proof.
  intros Hl. unfold ensure_end, checked_add, ok_or, fail_if. 
  destruct (Z.leb_spec (off + len) u64_max); cbn; [|split; [done|lia]].
  destruct (Z.ltb_spec limit (off + len)); split; try done; lia.
Qed.

Lemma checked_size_ok id count size z :
  checked_size id count size = Ok z ↔ count <= u64_max ∧ count * size <= u64_max ∧ z = count * size.
Proof.
  unfold checked_size, checked_usize, checked_mul.
  destruct (Z.leb_spec count u64_max); cbn; [|split; [done|lia]].
  destruct (Z.leb_spec (count * size) u64_max); cbn; [|split; [done|lia]].
  split; [intros [= <-]; lia|]. by intros (_ & _ & ->).
Qed.

(** What the element checks of [validate_layout] mean. *)
Lemma validate_branch_ok id limit i e :
  limit <= u64_max →
  validate_branch id limit i e = Ok () ↔
  be_pos e + be_key_size e <= u64_max ∧ 32 + Z.of_nat i * 24 + be_pos e + be_key_size e <= limit.
Proof.
  intros Hl. unfold validate_branch, checked_add, checked_usize, page_off_ptr, BRANCH_SIZE_OF.
  destruct (Z.leb_spec (be_pos e + be_key_size e) u64_max); cbn [ok_or mbind res_bind]; [|split; [done|lia]].
  rewrite (proj2 (Z.leb_le _ _)) by done. cbn [mbind res_bind]. rewrite ensure_end_ok by done. lia.
Qed.

Lemma validate_leaf_ok id limit i e :
  limit <= u64_max → 0 <= le_value_size e →
  validate_leaf id limit i e = Ok () ↔
  (le_node_type e = TYPE_BUCKET ∧ le_value_size e = META_SIZE ∨ le_node_type e = TYPE_DATA) ∧
  le_pos e + le_key_size e + le_value_size e <= u64_max ∧
  32 + Z.of_nat i * 32 + (le_pos e + le_key_size e + le_value_size e) <= limit.
Proof.
  intros Hl Hv. unfold validate_leaf, fail_if, TYPE_BUCKET, TYPE_DATA, META_SIZE.
  destruct (Z.eqb_spec (le_node_type e) 1) as [Et|Et]; [|destruct (Z.eqb_spec (le_node_type e) 0) as [Et'|Et']].
  - rewrite Et. cbn [orb negb andb mbind res_bind].
    destruct (Z.eqb_spec (le_value_size e) 16) as [Ev|Ev]; cbn [negb]; [|split; [done|lia]].
    unfold checked_add, checked_usize, page_off_ptr, LEAF_SIZE_OF.
    destruct (Z.leb_spec (le_pos e + le_key_size e) u64_max); cbn [mbind option_bind ok_or res_bind]; [|split; [done|lia]].
    destruct (Z.leb_spec (le_pos e + le_key_size e + le_value_size e) u64_max) as [Hle|]; cbn [ok_or mbind res_bind]; [|split; [done|lia]].
    rewrite (proj2 (Z.leb_le _ _) Hle). cbn [mbind res_bind]. rewrite ensure_end_ok by done. lia.
  - rewrite Et'. cbn [orb negb andb mbind res_bind].
    unfold checked_add, checked_usize, page_off_ptr, LEAF_SIZE_OF.
    destruct (Z.leb_spec (le_pos e + le_key_size e) u64_max); cbn [mbind option_bind ok_or res_bind]; [|split; [done|lia]].
    destruct (Z.leb_spec (le_pos e + le_key_size e + le_value_size e) u64_max) as [Hle|]; cbn [ok_or mbind res_bind]; [|split; [done|lia]].
    rewrite (proj2 (Z.leb_le _ _) Hle). cbn [mbind res_bind]. rewrite ensure_end_ok by done. lia.
  - cbn [orb negb mbind res_bind]. split; [done|lia].
Qed.

Lemma res_map_Forall2 {A B} (f : A → res B) l k :
  Forall2 (λ x y, f x = Ok y) l k → res_map f l = Ok k.
Proof. induction 1 as [|x y l k Hx Hl IH]; cbn; [done|]. rewrite Hx. cbn. rewrite IH. done. Qed.

Section roundtrip.
Context (buf : bytes) (n : Node).
Hypothesis Hcap : node_size n <= len_u64 buf.
Hypothesis Hbuf : len_u64 buf <= isize_max.

Lemma branch_cap bs :
  n_data n = Branches bs → 40 + Z.of_nat 24 * len_u64 bs + zsum b_key_size bs <= len_u64 buf.
Proof.
  intros E. pose proof Hcap as Hc. unfold node_size, data_size in Hc. rewrite E, fold_left_zsum in Hc.
  unfold HEADER_SIZE, PAGE_SIZE_OF, BRANCH_SIZE, BRANCH_SIZE_OF in Hc. lia.
Qed.

Lemma leaf_cap ls :
  n_data n = Leaves ls → 40 + Z.of_nat 32 * len_u64 ls + zsum leaf_weight ls <= len_u64 buf.
Proof.
  intros E. pose proof Hcap as Hc. unfold node_size, data_size in Hc. rewrite E, fold_left_zsum in Hc.
  unfold HEADER_SIZE, PAGE_SIZE_OF, LEAF_SIZE, LEAF_SIZE_OF in Hc.
  assert (zsum leaf_weight ls = zsum leaf_size ls) as ->; [|lia].
  unfold zsum. clear. induction ls as [|l ls IH]; cbn; [done|]. rewrite IH, leaf_size_alt. done.
Qed.

(** The table entry and the payload of one branch. *)
Lemma encoded_branch bs i b :
  n_data n = Branches bs → Forall (λ b, in_u64 (b_page b)) bs → bs !! i = Some b →
  let B := encoded 24 branch_fields b_key_size branch_chunks buf TYPE_BRANCH bs in
  let e := branch_element_at B (0 + page_off_ptr + i * 24) in
  e = mkBranchElement (0 + page_off_ptr + i * 24) (b_page b) (b_key_size b) (elem_pos 24 b_key_size bs i) ∧
  branch_element_key B e = b_key b.
Proof.
  intros E Hwf Hi B e. pose proof (branch_cap bs E) as Hc.
  destruct (elem_pos_ge 24 b_key_size branch_chunks branch_chunks_weight ltac:(lia) bs i b Hi) as [Hp Hpw].
  assert (in_u64 (elem_pos 24 b_key_size bs i) ∧ in_u64 (b_key_size b)) as [Hpr Hkr].
  { unfold in_u64, u64_mod, isize_max, b_key_size, len_u64 in *. lia. }
  assert (Forall field_fits (branch_fields b (elem_pos 24 b_key_size bs i))) as Hfit.
  { rewrite Forall_lookup in Hwf. specialize (Hwf i b Hi).
    do 3 (constructor; [by apply fit64|]). constructor. }
  pose proof (encoded_field 24 branch_fields b_key_size branch_chunks branch_fields_ok branch_chunks_weight ltac:(lia)
    buf TYPE_BRANCH bs Hc ltac:(by cbv) i b) as Hrd.
  assert (e = mkBranchElement (0 + page_off_ptr + i * 24) (b_page b) (b_key_size b) (elem_pos 24 b_key_size bs i)) as ->.
  { unfold e, branch_element_at. rewrite Nat.add_0_l. f_equal.
    - rewrite <-(Hrd 0%nat 8%nat 0%nat _ Hi Hfit eq_refl) at 1. by rewrite Nat.add_0_r.
    - exact (Hrd 1%nat 8%nat 8%nat _ Hi Hfit eq_refl).
    - exact (Hrd 2%nat 8%nat 16%nat _ Hi Hfit eq_refl). }
  split; [done|]. unfold branch_element_key. cbn [be_at be_pos be_key_size]. rewrite Nat.add_0_l. unfold b_key_size at 2.
  apply (encoded_payload 24 branch_fields b_key_size branch_chunks branch_fields_ok branch_chunks_weight ltac:(lia)
    buf TYPE_BRANCH bs Hc i b [] (b_key b) []); [done|done|]. unfold len_u64. cbn. lia.
Qed.

Lemma encoded_leaf ls i l :
  n_data n = Leaves ls → ls !! i = Some l →
  let B := encoded 32 leaf_fields leaf_weight leaf_chunks buf TYPE_LEAF ls in
  let e := leaf_element_at B (0 + page_off_ptr + i * 32) in
  e = mkLeafElement (0 + page_off_ptr + i * 32) (leaf_node_type l) (elem_pos 32 leaf_weight ls i)
        (len_u64 (leaf_key l)) (len_u64 (leaf_value l)) ∧
  leaf_element_key B e = leaf_key l ∧ leaf_element_value B e = leaf_value l.
Proof.
  intros E Hi B e. pose proof (leaf_cap ls E) as Hc.
  destruct (elem_pos_ge 32 leaf_weight leaf_chunks leaf_chunks_weight ltac:(lia) ls i l Hi) as [Hp Hpw].
  assert (in_u64 (elem_pos 32 leaf_weight ls i + len_u64 (leaf_key l)) ∧ in_u64 (elem_pos 32 leaf_weight ls i) ∧
    in_u64 (len_u64 (leaf_key l)) ∧ in_u64 (len_u64 (leaf_value l))) as (Hsr & Hpr & Hkr & Hvr).
  { unfold leaf_weight at 2 in Hpw. unfold in_u64, u64_mod, isize_max, len_u64 in *. lia. }
  assert (Forall field_fits (leaf_fields l (elem_pos 32 leaf_weight ls i))) as Hfit.
  { constructor; [apply fit8; destruct l; by cbv|]. do 3 (constructor; [by apply fit64|]). constructor. }
  pose proof (encoded_field 32 leaf_fields leaf_weight leaf_chunks leaf_fields_ok leaf_chunks_weight ltac:(lia)
    buf TYPE_LEAF ls Hc ltac:(by cbv) i l) as Hrd.
  assert (e = mkLeafElement (0 + page_off_ptr + i * 32) (leaf_node_type l) (elem_pos 32 leaf_weight ls i)
        (len_u64 (leaf_key l)) (len_u64 (leaf_value l))) as ->.
  { unfold e, leaf_element_at. rewrite Nat.add_0_l. f_equal.
    - rewrite <-(Hrd 0%nat 1%nat 0%nat _ Hi Hfit eq_refl) at 1. by rewrite Nat.add_0_r.
    - exact (Hrd 3%nat 8%nat 8%nat _ Hi Hfit eq_refl).
    - exact (Hrd 1%nat 8%nat 16%nat _ Hi Hfit eq_refl).
    - exact (Hrd 2%nat 8%nat 24%nat _ Hi Hfit eq_refl). }
  pose proof (encoded_payload 32 leaf_fields leaf_weight leaf_chunks leaf_fields_ok leaf_chunks_weight ltac:(lia)
    buf TYPE_LEAF ls Hc i l) as Hpay.
  split; [done|]. unfold leaf_element_key, leaf_element_value.
  cbn [le_at le_pos le_key_size le_value_size]. rewrite Nat.add_0_l. split.
  - apply (Hpay [] _ [leaf_value l]); [done|done|]. unfold len_u64. cbn. lia.
  - unfold u64_wrap. rewrite Z.mod_small by done.
    apply (Hpay [leaf_key l] _ []); [done|done|]. unfold len_u64. cbn. by rewrite app_nil_r.
Qed.

Definition page_encodes (B : bytes) : Prop :=
  length B = length buf ∧ page_id_at B 0 = page_id_at buf 0 ∧ page_overflow_at B 0 = page_overflow_at buf 0 ∧
  page_type_at B 0 = (if node_leaf n then TYPE_LEAF else TYPE_BRANCH) ∧
  data_from_page B 0 = Ok (n_data n) ∧
  (∀ limit, node_size n <= limit <= u64_max → validate_layout B 0 limit = Ok ()).

Lemma write_node_branches_ok bs :
  n_data n = Branches bs → data_wf (n_data n) → ∃ B, write_node buf n = Ok B ∧ page_encodes B.
Proof.
  intros E Hwf. rewrite E in Hwf. cbn in Hwf. pose proof (branch_cap bs E) as Hc.
  exists (encoded 24 branch_fields b_key_size branch_chunks buf TYPE_BRANCH bs).
  pose proof branch_fields_ok as Hf. pose proof branch_chunks_weight as Hw.
  assert (1 <= 24)%nat as Hsz by lia. assert (0 <= TYPE_BRANCH < 256) as Ht by (by cbv).
  set (B := encoded _ _ _ _ _ _ _).
  assert (page_type_at B 0 = TYPE_BRANCH) as EB by (by eapply encoded_type).
  assert (page_count_at B 0 = len_u64 bs) as EC by (by eapply encoded_count).
  pose proof (λ i b, encoded_branch bs i b E Hwf) as Henc. cbn zeta in Henc. fold B in Henc.
  split; [rewrite (write_node_branches buf n bs E); by eapply encode_ok|].
  split_and!; [by eapply length_encoded|by eapply encoded_id|by eapply encoded_overflow|..]; clearbody B.
  - unfold node_leaf. by rewrite E.
  - unfold data_from_page, branch_elements. rewrite EB, E. cbn. do 2 f_equal. apply table_eq; [done|].
    intros i b Hi. unfold branch_from_element. destruct (Henc i b Hi) as [He Hk]. rewrite Hk, He.
    by destruct b.
  - intros limit Hlim. unfold validate_layout. rewrite EB, EC. cbn -[checked_size ensure_end branch_elements].
    assert (40 + 24 * len_u64 bs + zsum b_key_size bs = node_size n) as Esz.
    { unfold node_size, data_size. rewrite E, fold_left_zsum. unfold HEADER_SIZE, PAGE_SIZE_OF, BRANCH_SIZE, BRANCH_SIZE_OF. lia. }
    assert (0 <= zsum b_key_size bs) by (rewrite (zsum_weight _ branch_chunks) by done; unfold len_u64; lia).
    rewrite (proj2 (checked_size_ok _ _ _ (len_u64 bs * 24))) by (unfold BRANCH_SIZE_OF, len_u64 in *; lia). cbn.
    rewrite (proj2 (ensure_end_ok _ _ _ _ (proj2 Hlim))) by (unfold page_off_ptr; lia). cbn.
    unfold branch_elements. rewrite EB. cbn. apply for_each_indexed_ok. intros i e [Hi ->]%table_lookup.
    rewrite EC in Hi. destruct (lookup_lt_is_Some_2 bs i) as [b Hb]; [unfold len_u64 in Hi; lia|].
    destruct (Henc i b Hb) as [He _]. rewrite He.
    apply validate_branch_ok; [lia|]. cbn. destruct (elem_pos_ge 24 b_key_size branch_chunks Hw Hsz bs i b Hb). lia.
Qed.

Lemma leaf_of_element e l :
  le_node_type e = leaf_node_type l → leaf_wf l →
  ∀ B, leaf_element_key B e = leaf_key l → leaf_element_value B e = leaf_value l →
  leaf_from_element B e = Ok l.
Proof.
  intros Et Hwf B Hk Hv. unfold leaf_from_element. rewrite Et, Hk, Hv. destruct l as [nm m|k v]; [|done].
  cbn -[bucket_meta_of_bytes bucket_meta_bytes]. destruct Hwf. by rewrite bucket_meta_roundtrip.
Qed.

Lemma write_node_leaves_ok ls :
  n_data n = Leaves ls → data_wf (n_data n) → ∃ B, write_node buf n = Ok B ∧ page_encodes B.
Proof.
  intros E Hwf. rewrite E in Hwf. cbn in Hwf. pose proof (leaf_cap ls E) as Hc.
  exists (encoded 32 leaf_fields leaf_weight leaf_chunks buf TYPE_LEAF ls).
  pose proof leaf_fields_ok as Hf. pose proof leaf_chunks_weight as Hw.
  assert (1 <= 32)%nat as Hsz by lia. assert (0 <= TYPE_LEAF < 256) as Ht by (by cbv).
  set (B := encoded _ _ _ _ _ _ _).
  assert (page_type_at B 0 = TYPE_LEAF) as EB by (by eapply encoded_type).
  assert (page_count_at B 0 = len_u64 ls) as EC by (by eapply encoded_count).
  pose proof (λ i l, encoded_leaf ls i l E) as Henc. cbn zeta in Henc. fold B in Henc.
  split; [rewrite (write_node_leaves buf n ls E); by eapply encode_ok|].
  split_and!; [by eapply length_encoded|by eapply encoded_id|by eapply encoded_overflow|..]; clearbody B.
  - unfold node_leaf. by rewrite E.
  - unfold data_from_page, leaf_elements. rewrite EB, E. cbn.
    assert (table leaf_element_at 32 B 0 = (λ i, leaf_element_at B (0 + page_off_ptr + i * 32)) <$> seq 0 (length ls)) as ->.
    { unfold table. rewrite EC. unfold len_u64. by rewrite Nat2Z.id. }
    assert (res_map (leaf_from_element B) ((λ i, leaf_element_at B (0 + page_off_ptr + i * 32)) <$> seq 0 (length ls)) = Ok ls) as ->; [|done].
    apply res_map_Forall2, Forall2_same_length_lookup_2; [by rewrite length_fmap, length_seq|].
    intros i e l He Hl. rewrite list_lookup_fmap, lookup_seq_lt in He by (by eapply lookup_lt_Some).
    rewrite (Nat.add_0_l i) in He. injection He as <-. destruct (Henc i l Hl) as (He & Hk & Hv).
    rewrite Forall_lookup in Hwf. apply leaf_of_element; eauto. exact (f_equal le_node_type He).
  - intros limit Hlim. unfold validate_layout. rewrite EB, EC. cbn -[checked_size ensure_end leaf_elements].
    assert (zsum leaf_weight ls = zsum leaf_size ls) as Ez.
    { unfold zsum. clear. induction ls as [|l ls IH]; cbn; [done|]. rewrite IH, leaf_size_alt. done. }
    assert (40 + 32 * len_u64 ls + zsum leaf_weight ls = node_size n) as Esz.
    { unfold node_size, data_size. rewrite E, fold_left_zsum. unfold HEADER_SIZE, PAGE_SIZE_OF, LEAF_SIZE, LEAF_SIZE_OF. lia. }
    assert (0 <= zsum leaf_weight ls) by (rewrite (zsum_weight _ leaf_chunks) by done; unfold len_u64; lia).
    rewrite (proj2 (checked_size_ok _ _ _ (len_u64 ls * 32))) by (unfold LEAF_SIZE_OF, len_u64 in *; lia). cbn.
    rewrite (proj2 (ensure_end_ok _ _ _ _ (proj2 Hlim))) by (unfold page_off_ptr; lia). cbn.
    unfold leaf_elements. rewrite EB. cbn. apply for_each_indexed_ok. intros i e [Hi ->]%table_lookup.
    rewrite EC in Hi. destruct (lookup_lt_is_Some_2 ls i) as [l Hl]; [unfold len_u64 in Hi; lia|].
    destruct (Henc i l Hl) as [He _]. rewrite He.
    destruct (elem_pos_ge 32 leaf_weight leaf_chunks Hw Hsz ls i l Hl) as [Hp Hpw]. unfold leaf_weight at 2 in Hpw.
    apply validate_leaf_ok; [lia|cbn; unfold len_u64; lia|]. cbn -[bucket_meta_bytes].
    split; [|lia]. destruct l; [left|by right]. split; [done|].
    cbn [leaf_value]. unfold len_u64, bucket_meta_bytes. rewrite length_app, !length_le_bytes. done.
Qed.

Lemma write_node_ok : data_wf (n_data n) → ∃ B, write_node buf n = Ok B ∧ page_encodes B.
Proof.
  destruct (n_data n) as [bs|ls] eqn:E; rewrite <-E;
    [by eapply write_node_branches_ok|by eapply write_node_leaves_ok].
Qed.

End roundtrip.

(** Encoding a node and decoding the page gives the node back.  On a block
    that holds the node's size, [Page::write_node] succeeds, keeps the block's
    length, id and overflow, writes a page that passes [validate_layout] for every
    limit the node fits in, and that [Node::from_page] reads as exactly the
    node's branches or leaves. *)
Theorem write_node_roundtrip (buf : bytes) (n : Node) :
  node_size n <= len_u64 buf → len_u64 buf <= isize_max → data_wf (n_data n) →
  ∃ B, write_node buf n = Ok B ∧
    length B = length buf ∧ page_id_at B 0 = page_id_at buf 0 ∧ page_overflow_at B 0 = page_overflow_at buf 0 ∧
    page_type_at B 0 = (if node_leaf n then TYPE_LEAF else TYPE_BRANCH) ∧
    data_from_page B 0 = Ok (n_data n) ∧
    (∀ limit, node_size n <= limit <= u64_max → validate_layout B 0 limit = Ok ()).
Proof. intros Hc Hb Hwf. exact (write_node_ok buf n Hc Hb Hwf). Qed.

Lemma write_node_roundtrip_witness :
  ∃ B, write_node (fresh_page 9 1 1024) (demo_node (Leaves demo_leaves)) = Ok B ∧
       data_from_page B 0 = Ok (Leaves demo_leaves).
Proof.
  destruct (write_node_roundtrip (fresh_page 9 1 1024) (demo_node (Leaves demo_leaves)))
    as (B & HB & _ & _ & _ & _ & Hd & _).
  - by vm_compute.
  - by vm_compute.
  - repeat constructor; by vm_compute.
  - by exists B.
Defined.

(** ** What validation means *)

(** The predicate [validate_layout] decides: the element table and every key and
    value lie below [limit], and bucket entries have the width of [BucketMeta]. *)
Definition branch_ok (limit : Z) (i : nat) (e : BranchElement) : Prop :=
  be_pos e + be_key_size e <= u64_max ∧ 32 + Z.of_nat i * 24 + be_pos e + be_key_size e <= limit.

Definition leaf_ok (limit : Z) (i : nat) (e : LeafElement) : Prop :=
  (le_node_type e = TYPE_BUCKET ∧ le_value_size e = META_SIZE ∨ le_node_type e = TYPE_DATA) ∧
  le_pos e + le_key_size e + le_value_size e <= u64_max ∧
  32 + Z.of_nat i * 32 + (le_pos e + le_key_size e + le_value_size e) <= limit.

Definition layout_ok (buf : bytes) (p : nat) (limit : Z) : Prop :=
  let t := page_type_at buf p in
  let count := page_count_at buf p in
  (t = TYPE_META ∧ 32 + META_SIZE_OF <= limit) ∨
  (t = TYPE_FREELIST ∧ 32 + count * RETIRED_SIZE_OF <= limit) ∨
  (t = TYPE_BRANCH ∧ 32 + count * BRANCH_SIZE_OF <= limit ∧
     ∀ i, (i < Z.to_nat count)%nat → branch_ok limit i (branch_element_at buf (p + page_off_ptr + i * 24))) ∨
  (t = TYPE_LEAF ∧ 32 + count * LEAF_SIZE_OF <= limit ∧
     ∀ i, (i < Z.to_nat count)%nat → leaf_ok limit i (leaf_element_at buf (p + page_off_ptr + i * 32))).

Lemma page_count_u64 buf p : in_u64 (page_count_at buf p).
Proof. apply rd64_u64. Qed.

(** The bound checks on an element table. *)
Lemma table_bound_ok id count size limit (k : res unit) :
  limit <= u64_max → 0 <= count <= u64_max →
  (s ← checked_size id count size; _ ← ensure_end id (Z.of_nat page_off_ptr) s limit; k) = Ok () ↔
  32 + count * size <= limit ∧ k = Ok ().
Proof.
  intros Hl Hc. destruct (checked_size id count size) as [s| |] eqn:Es.
  - apply checked_size_ok in Es as (_ & _ & ->). cbn -[ensure_end page_off_ptr].
    pose proof (ensure_end_ok id (Z.of_nat page_off_ptr) (count * size) limit Hl) as He.
    change (Z.of_nat page_off_ptr) with 32 in *.
    destruct (ensure_end id 32 (count * size) limit) as [[]| |]; cbn.
    + pose proof (proj1 He eq_refl). tauto.
    + split; [done|]. intros [?%He _]. done.
    + split; [done|]. intros [?%He _]. done.
  - cbn. split; [done|]. intros [Hle _].
    rewrite (proj2 (checked_size_ok id count size (count * size))) in Es; [done|lia].
  - cbn. split; [done|]. intros [Hle _].
    rewrite (proj2 (checked_size_ok id count size (count * size))) in Es; [done|lia].
Qed.

Lemma validate_layout_spec buf p limit :
  limit <= u64_max → known_page_type (page_type_at buf p) = true →
  validate_layout buf p limit = Ok () ↔ layout_ok buf p limit.
Proof.
  intros Hl Hk. unfold validate_layout, layout_ok, known_page_type in *. cbv zeta.
  pose proof (page_count_u64 buf p) as [Hc0 Hc1]. unfold u64_mod in Hc1.
  assert (0 <= page_count_at buf p <= u64_max) as Hc by (unfold u64_max; lia). clear Hc0 Hc1.
  destruct (Z.eqb_spec (page_type_at buf p) TYPE_META) as [E|E];
    [|destruct (Z.eqb_spec (page_type_at buf p) TYPE_FREELIST) as [E1|E1];
    [|destruct (Z.eqb_spec (page_type_at buf p) TYPE_BRANCH) as [E2|E2];
    [|destruct (Z.eqb_spec (page_type_at buf p) TYPE_LEAF) as [E3|E3]; [|done]]]].
  - rewrite ensure_end_ok by done. rewrite E. change (Z.of_nat page_off_ptr) with 32. unfold TYPE_META, TYPE_FREELIST, TYPE_BRANCH, TYPE_LEAF. intuition lia.
  - rewrite E1. pose proof (table_bound_ok (page_id_at buf p) (page_count_at buf p) RETIRED_SIZE_OF limit (Ok ()) Hl Hc) as Ht.
    assert (∀ (m : res Z) (f : Z → res unit),
      (m ≫= λ s, f s ≫= λ _, Ok ()) = (m ≫= f)) as Hr.
    { intros [s| |] f; cbn; [|done..]. by destruct (f s) as [[]| |]. }
    rewrite Hr in Ht. rewrite Ht.
    unfold TYPE_META, TYPE_FREELIST, TYPE_BRANCH, TYPE_LEAF. intuition lia.
  - unfold branch_elements. rewrite E2. rewrite table_bound_ok by done. cbn [assert_that Z.eqb TYPE_BRANCH Pos.eqb mbind res_bind].
    rewrite for_each_indexed_ok. setoid_rewrite table_lookup.
    assert ((∀ (i : nat) (x : BranchElement), (i < Z.to_nat (page_count_at buf p))%nat ∧ x = branch_element_at buf (p + page_off_ptr + i * 24)
       → validate_branch (page_id_at buf p) limit (0 + i) x = Ok ()) ↔
      (∀ i, (i < Z.to_nat (page_count_at buf p))%nat → branch_ok limit i (branch_element_at buf (p + page_off_ptr + i * 24)))) as ->.
    { split; intros H; [intros i Hi|intros i x [Hi ->]].
      - apply (validate_branch_ok (page_id_at buf p)); [done|]. by apply (H i).
      - apply validate_branch_ok; [done|]. by apply H. }
    unfold TYPE_META, TYPE_FREELIST, TYPE_BRANCH, TYPE_LEAF. intuition lia.
  - unfold leaf_elements. rewrite E3. rewrite table_bound_ok by done. cbn [assert_that Z.eqb TYPE_LEAF Pos.eqb mbind res_bind].
    rewrite for_each_indexed_ok. setoid_rewrite table_lookup.
    assert ((∀ (i : nat) (x : LeafElement), (i < Z.to_nat (page_count_at buf p))%nat ∧ x = leaf_element_at buf (p + page_off_ptr + i * 32)
       → validate_leaf (page_id_at buf p) limit (0 + i) x = Ok ()) ↔
      (∀ i, (i < Z.to_nat (page_count_at buf p))%nat → leaf_ok limit i (leaf_element_at buf (p + page_off_ptr + i * 32)))) as ->.
    { assert (∀ a, 0 <= le_value_size (leaf_element_at buf a)) by (intros a; apply rd64_u64).
      split; intros H'; [intros i Hi|intros i x [Hi ->]].
      - apply (validate_leaf_ok (page_id_at buf p)); [done..|]. by apply (H' i).
      - apply validate_leaf_ok; [done..|]. by apply H'. }
    unfold TYPE_META, TYPE_FREELIST, TYPE_BRANCH, TYPE_LEAF. intuition lia.
Qed.

(** The predicate [validate_span] decides. *)
Definition span_ok (buf : bytes) (id pagesize : Z) (p : nat) (block_len : Z) : Prop :=
  Z.of_nat p = id * pagesize ∧ Z.of_nat p mod 8 = 0 ∧ page_id_at buf p = id ∧
  known_page_type (page_type_at buf p) = true ∧
  block_len = (page_overflow_at buf p + 1) * pagesize ∧ 72 <= block_len ∧
  Z.of_nat p + block_len <= len_u64 buf.

Lemma validate_span_spec buf id pagesize p block_len :
  len_u64 buf <= isize_max → 0 <= id → 0 <= pagesize →
  validate_span buf id pagesize = Ok (p, block_len) ↔ span_ok buf id pagesize p block_len.
Proof.
  intros Hlen Hid Hps. unfold isize_max in *. split.
  - intros H. unfold validate_span, checked_usize, checked_mul, checked_add in H. cbv zeta in H.
    res_inv. simplify_eq.
    repeat match goal with H : (if ?b then _ else _) = _ |- _ => destruct b eqn:?; [|discriminate H] end.
    simplify_eq. repeat match goal with H : negb _ = false |- _ => apply negb_false_iff in H end.
    bool_to_prop. unfold span_ok, PAGE_SIZE_OF, CHECKSUM_SIZE, PAGE_ALIGN_OF in *.
    rewrite Z2Nat.id by nia. split_and!; try done; lia.
  - intros (Ep & Hal & Eid & Ht & -> & Hmin & Hend).
    pose proof (rd64_u64 buf (p + page_off_overflow)) as [Ho _]. fold (page_overflow_at buf p) in Ho.
    unfold validate_span, checked_usize, checked_mul, checked_add, PAGE_SIZE_OF, CHECKSUM_SIZE, PAGE_ALIGN_OF, u64_max, fail_if.
    assert (1 <= pagesize) by nia.
    rewrite <-Ep. btest. cbn [ok_or mbind res_bind]. btest. cbn [mbind res_bind]. 
    rewrite Nat2Z.id, Hal, Eid, Z.eqb_refl, Ht. cbn [negb Z.eqb mbind res_bind].
    rewrite (proj2 (Z.leb_le (page_overflow_at buf p + 1) _)) by nia. cbn [ok_or mbind res_bind].
    repeat (btest; cbn [ok_or mbind res_bind]). done.
Qed.

(** A block seen alone, or inside the file. *)
Section view.
Context (buf : bytes) (p L : nat).
Hypothesis Hin : (p + L <= length buf)%nat.
Let block := take L (drop p buf).

Lemma rd_block n o : (o + n <= L)%nat → rd n block o = rd n buf (p + o).
Proof. intros. unfold block. by rewrite rd_take, rd_drop. Qed.

Lemma bytes_at_block a start n :
  0 <= start → 0 <= n → Z.of_nat a + start + n <= Z.of_nat L → bytes_at block a start n = bytes_at buf (p + a) start n.
Proof.
  intros. unfold bytes_at, block.
  rewrite (take_drop_commute (take L (drop p buf))), take_take, Nat.min_l by lia.
  by rewrite <-take_drop_commute, drop_drop, Nat.add_assoc.
Qed.

Hypothesis H40 : (40 <= L)%nat.

Lemma page_type_block : page_type_at block 0 = page_type_at buf p.
Proof. unfold page_type_at, page_off_type. rewrite rd_block by lia. done. Qed.
Lemma page_count_block : page_count_at block 0 = page_count_at buf p.
Proof. unfold page_count_at, page_off_count. rewrite rd_block by lia. done. Qed.
Lemma page_id_block : page_id_at block 0 = page_id_at buf p.
Proof. unfold page_id_at, page_off_id. rewrite rd_block by lia. by rewrite Nat.add_0_l. Qed.
Lemma page_overflow_block : page_overflow_at block 0 = page_overflow_at buf p.
Proof. unfold page_overflow_at, page_off_overflow. rewrite rd_block by lia. done. Qed.

Definition shift_branch (e : BranchElement) : BranchElement :=
  mkBranchElement (p + be_at e) (be_page e) (be_key_size e) (be_pos e).
Definition shift_leaf (e : LeafElement) : LeafElement :=
  mkLeafElement (p + le_at e) (le_node_type e) (le_pos e) (le_key_size e) (le_value_size e).

Lemma branch_element_block a :
  (a + 24 <= L)%nat → shift_branch (branch_element_at block a) = branch_element_at buf (p + a).
Proof. intros. unfold branch_element_at, shift_branch. cbn [be_at be_page be_key_size be_pos]. rewrite !rd_block by lia. by rewrite !Nat.add_assoc. Qed.

Lemma leaf_element_block a :
  (a + 32 <= L)%nat → shift_leaf (leaf_element_at block a) = leaf_element_at buf (p + a).
Proof. intros. unfold leaf_element_at, shift_leaf. cbn [le_at le_node_type le_pos le_key_size le_value_size]. rewrite !rd_block by lia. by rewrite !Nat.add_assoc. Qed.

Lemma layout_ok_block limit :
  limit <= Z.of_nat L → layout_ok block 0 limit ↔ layout_ok buf p limit.
Proof.
  intros Hl. unfold layout_ok. rewrite page_type_block, page_count_block. cbv zeta.
  pose proof (page_count_u64 buf p) as [Hc _]. set (count := page_count_at buf p) in *.
  unfold BRANCH_SIZE_OF, LEAF_SIZE_OF.
  assert (32 + count * 24 <= limit →
    (∀ i, (i < Z.to_nat count)%nat → branch_ok limit i (branch_element_at block (0 + page_off_ptr + i * 24))) ↔
    (∀ i, (i < Z.to_nat count)%nat → branch_ok limit i (branch_element_at buf (p + page_off_ptr + i * 24)))) as Hb.
  { intros Hle. apply forall_proper. intros i.
    split; intros H Hi; specialize (H Hi); revert H;
      rewrite <-(Nat.add_assoc p), <-branch_element_block by (unfold page_off_ptr; lia); done. }
  assert (32 + count * 32 <= limit →
    (∀ i, (i < Z.to_nat count)%nat → leaf_ok limit i (leaf_element_at block (0 + page_off_ptr + i * 32))) ↔
    (∀ i, (i < Z.to_nat count)%nat → leaf_ok limit i (leaf_element_at buf (p + page_off_ptr + i * 32)))) as Hf.
  { intros Hle. apply forall_proper. intros i.
    split; intros H Hi; specialize (H Hi); revert H;
      rewrite <-(Nat.add_assoc p), <-leaf_element_block by (unfold page_off_ptr; lia); done. }
  tauto.
Qed.

(** Elements of a valid table decode alike. *)
Lemma branch_from_block limit i :
  limit <= Z.of_nat L → 32 + Z.of_nat i * 24 + 24 <= limit →
  branch_ok limit i (branch_element_at buf (p + page_off_ptr + i * 24)) →
  branch_from_element block (branch_element_at block (0 + page_off_ptr + i * 24)) =
  branch_from_element buf (branch_element_at buf (p + page_off_ptr + i * 24)).
Proof.
  intros Hl Hle Hb. unfold branch_ok in *. set (a := (0 + page_off_ptr + i * 24)%nat).
  assert (branch_element_at buf (p + page_off_ptr + i * 24) = shift_branch (branch_element_at block a)) as Ee.
  { unfold a. rewrite branch_element_block by (unfold page_off_ptr; lia). by rewrite Nat.add_0_l, !Nat.add_assoc. }
  rewrite Ee in *. unfold branch_from_element. cbn [shift_branch be_page]. f_equal.
  unfold branch_element_key. cbn [shift_branch be_at be_pos be_key_size] in *.
  destruct (rd64_u64 block (a + 8)) as [? _], (rd64_u64 block (a + 16)) as [? _].
  apply bytes_at_block; cbn [branch_element_at be_at be_pos be_key_size] in *; [done..|].
  unfold a, page_off_ptr in *. lia.
Qed.

Lemma leaf_from_block limit i :
  limit <= Z.of_nat L → 32 + Z.of_nat i * 32 + 32 <= limit →
  leaf_ok limit i (leaf_element_at buf (p + page_off_ptr + i * 32)) →
  leaf_from_element block (leaf_element_at block (0 + page_off_ptr + i * 32)) =
  leaf_from_element buf (leaf_element_at buf (p + page_off_ptr + i * 32)).
Proof.
  intros Hl Hle Hf. unfold leaf_ok in *. set (a := (0 + page_off_ptr + i * 32)%nat).
  assert (leaf_element_at buf (p + page_off_ptr + i * 32) = shift_leaf (leaf_element_at block a)) as Ee.
  { unfold a. rewrite leaf_element_block by (unfold page_off_ptr; lia). by rewrite Nat.add_0_l, !Nat.add_assoc. }
  rewrite Ee in *. destruct Hf as (_ & Hu & Hf). unfold leaf_from_element, leaf_element_key, leaf_element_value.
  cbn [shift_leaf le_at le_pos le_key_size le_node_type le_value_size] in *.
  destruct (rd64_u64 block (a + 8)) as [? _], (rd64_u64 block (a + 16)) as [? _], (rd64_u64 block (a + 24)) as [? _].
  cbn [leaf_element_at le_at le_pos le_key_size le_node_type le_value_size] in *.
  unfold u64_wrap. rewrite (Z.mod_small (_ + _)) by (unfold u64_max, u64_mod in *; lia).
  rewrite !bytes_at_block by (unfold a, page_off_ptr in *; lia). done.
Qed.

Lemma data_from_page_block limit :
  limit <= Z.of_nat L → layout_ok buf p limit → data_from_page block 0 = data_from_page buf p.
Proof.
  intros Hl Hok. unfold data_from_page. rewrite page_type_block. cbv zeta.
  unfold branch_elements, leaf_elements. rewrite page_type_block.
  unfold layout_ok, BRANCH_SIZE_OF, LEAF_SIZE_OF in Hok. cbv zeta in Hok.
  pose proof (page_count_u64 buf p) as [Hc _]. unfold table. rewrite page_count_block.
  destruct Hok as [[-> _]|[[-> _]|[(-> & Hle & Hb)|(-> & Hle & Hf)]]]; [done|done|..];
    cbn [Z.eqb Pos.eqb TYPE_BRANCH TYPE_LEAF assert_that mbind res_bind].
  - do 2 f_equal. rewrite <-!list_fmap_compose. apply list_fmap_ext. intros k i [-> Hi]%lookup_seq.
    apply (branch_from_block limit); [done|lia|auto].
  - assert (∀ l, Forall (λ i, (i < Z.to_nat (page_count_at buf p))%nat) l →
      res_map (leaf_from_element block) ((λ i, leaf_element_at block (0 + page_off_ptr + i * 32)) <$> l) =
      res_map (leaf_from_element buf) ((λ i, leaf_element_at buf (p + page_off_ptr + i * 32)) <$> l)) as Hmap.
    { induction l as [|i l IH]; intros Hall; [done|]. apply Forall_cons in Hall as [Hi Hall].
      cbn [fmap list_fmap res_map]. rewrite IH by done. by rewrite (leaf_from_block limit) by (auto; lia). }
    rewrite Hmap; [done|]. apply Forall_seq. lia.
Qed.

End view.

Lemma validate_structure_spec buf id pagesize p :
  len_u64 buf <= isize_max → 0 <= id → 0 <= pagesize →
  validate_structure buf id pagesize = Ok p ↔
  ∃ block_len, span_ok buf id pagesize p block_len ∧ layout_ok buf p (block_len - CHECKSUM_SIZE).
Proof.
  intros Hlen Hid Hps. unfold validate_structure. split.
  - intros H. destruct (validate_span buf id pagesize) as [[q L]| |] eqn:Es; [|done..].
    cbn -[validate_layout] in H. res_inv. apply validate_span_spec in Es as Hs; [|done..].
    exists L. split; [done|]. destruct Hs as (_ & _ & _ & Ht & _ & _ & Hend).
    match goal with H : validate_layout _ _ _ = Ok ?u |- _ => destruct u; apply validate_layout_spec in H; [done| |done] end.
    unfold isize_max, u64_max, CHECKSUM_SIZE in *. lia.
  - intros (L & Hs & Hl). rewrite (proj2 (validate_span_spec buf id pagesize p L Hlen Hid Hps) Hs). cbn -[validate_layout].
    destruct Hs as (_ & _ & _ & Ht & _ & _ & Hend).
    rewrite (proj2 (validate_layout_spec buf p (L - CHECKSUM_SIZE) ltac:(unfold isize_max, u64_max, CHECKSUM_SIZE in *; lia) Ht) Hl).
    done.
Qed.

Lemma node_page_spec buf id pagesize p :
  node_page buf id pagesize = Ok p ↔
  validate_structure buf id pagesize = Ok p ∧ (page_type_at buf p = TYPE_BRANCH ∨ page_type_at buf p = TYPE_LEAF).
Proof.
  unfold node_page. rewrite res_bind_Ok. unfold fail_if. split.
  - intros (q & Hq & H). destruct (negb _) eqn:E; [done|]. injection H as ->.
    apply negb_false_iff, orb_prop in E as [E|E]; bool_to_prop; auto.
  - intros [Hq Ht]. exists p. split; [done|].
    destruct Ht as [->| ->]; done.
Qed.

(** [Page::validate_structure] is sound and complete for the safety of the
    casts.  On any file contents it accepts a page exactly when the header is
    aligned and inside the file, names its own id and a known type, the whole
    overflow block is inside the file, and the element table and every key and
    value slice end before the block's checksum. *)
Theorem validate_structure_exact (buf : bytes) (id pagesize : Z) (p : nat) :
  len_u64 buf <= isize_max → 0 <= id → 0 <= pagesize →
  validate_structure buf id pagesize = Ok p ↔
  ∃ block_len, span_ok buf id pagesize p block_len ∧ layout_ok buf p (block_len - CHECKSUM_SIZE).
Proof. apply validate_structure_spec. Qed.

Lemma res_map_total {A B} (f : A → res B) l :
  (∀ x, x ∈ l → ∃ y, f x = Ok y) → ∃ ys, res_map f l = Ok ys ∧ length ys = length l.
Proof.
  induction l as [|x l IH]; intros Hf; [by exists []|].
  destruct (Hf x) as [y Hy]; [by left|]. destruct IH as (ys & Hys & Hl); [intros z ?; apply Hf; by right|].
  exists (y :: ys). cbn. rewrite Hy. cbn. rewrite Hys. cbn. by rewrite Hl.
Qed.

(** [from_page] succeeds whenever the elements decode. *)
Lemma from_page_data nid buf p pagesize d :
  data_from_page buf p = Ok d →
  ∃ n, from_page nid buf p pagesize = Ok n ∧ n_data n = d ∧ n_page_id n = page_id_at buf p.
Proof.
  intros Hd. unfold from_page. rewrite Hd. cbn [mbind res_bind].
  destruct d as [[|b bs]|[|l ls]]; cbn [data_len length Nat.ltb Nat.leb data_first_key head fmap option_fmap option_map unwrap mbind res_bind];
    eexists; split; done.
Qed.

(** Two different types of one page. *)
Ltac type_clash :=
  exfalso;
  match goal with
  | H1 : page_type_at ?b ?p = _, H2 : page_type_at ?b ?p = _ |- _ => rewrite H1 in H2; discriminate H2
  end.

(** A leaf element whose type was checked decodes. *)
Lemma leaf_from_element_total buf limit i e : leaf_ok limit i e → ∃ l, leaf_from_element buf e = Ok l.
Proof.
  intros ([[E _]|E] & _); unfold leaf_from_element; rewrite E; cbn; by eexists.
Qed.

(** C32: a page that [Pages::node_page] accepts can be read without leaving its
    block or panicking: [Node::from_page] succeeds with as many elements as the
    header counts, and every slice its element accessors build ends inside the
    block, before the checksum. *)
Theorem node_page_safe (buf : bytes) (id pagesize : Z) (p : nat) (nid : NodeID) :
  len_u64 buf <= isize_max → 0 <= id → 0 <= pagesize →
  node_page buf id pagesize = Ok p →
  ∃ n block_end, from_page nid buf p pagesize = Ok n ∧ n_page_id n = id ∧
    Z.of_nat (data_len (n_data n)) = page_count_at buf p ∧
    (block_end + 32 <= length buf)%nat ∧
    (∀ els e, branch_elements buf p = Ok els → e ∈ els →
       (be_at e + Z.to_nat (be_pos e) + Z.to_nat (be_key_size e) <= block_end)%nat) ∧
    (∀ els e, leaf_elements buf p = Ok els → e ∈ els →
       (le_at e + Z.to_nat (le_pos e) + Z.to_nat (le_key_size e) + Z.to_nat (le_value_size e) <= block_end)%nat).
Proof.
  intros Hlen Hid Hps [(L & Hs & Hl)%validate_structure_spec Ht]%node_page_spec; [|done..].
  destruct Hs as (Ep & _ & Eid & _ & _ & Hmin & Hend). pose proof (page_count_u64 buf p) as [Hc _].
  unfold CHECKSUM_SIZE in *.
  assert (∃ d, data_from_page buf p = Ok d ∧ Z.of_nat (data_len d) = page_count_at buf p) as (d & Hd & Hdl).
  { unfold data_from_page, branch_elements, leaf_elements.
    destruct Hl as [[E _]|[[E _]|[(E & _ & _)|(E & _ & Hf)]]]; [destruct Ht; type_clash..| |];
      rewrite E; cbn [Z.eqb Pos.eqb TYPE_BRANCH TYPE_LEAF assert_that mbind res_bind].
    - eexists. split; [done|]. cbn. rewrite length_fmap. unfold table. rewrite length_fmap, length_seq. lia.
    - destruct (res_map_total (leaf_from_element buf) (table leaf_element_at 32 buf p)) as (ls & -> & Hls).
      + intros e (i & [Hi ->]%table_lookup)%list_elem_of_lookup. eapply leaf_from_element_total. by apply Hf.
      + eexists. split; [done|]. cbn. rewrite Hls. unfold table. rewrite length_fmap, length_seq. lia. }
  destruct (from_page_data nid buf p pagesize d Hd) as (n & Hn & <- & Hpid).
  exists n, (p + Z.to_nat (L - 32))%nat. split_and!; [done|congruence|done|unfold len_u64 in *; lia|..].
  - intros els e He Hin. unfold branch_elements in He. res_inv. bool_to_prop.
    apply list_elem_of_lookup in Hin as (i & [Hi ->]%table_lookup).
    destruct Hl as [[E' _]|[[E' _]|[(_ & _ & Hb)|[E' _]]]]; [type_clash..| |type_clash].
    specialize (Hb i Hi) as [_ Hb]. unfold page_off_ptr in *. cbn [be_at be_pos be_key_size branch_element_at] in *.
    destruct (rd64_u64 buf (p + 32 + i * 24 + 8)) as [? _], (rd64_u64 buf (p + 32 + i * 24 + 16)) as [? _]. lia.
  - intros els e He Hin. unfold leaf_elements in He. res_inv. bool_to_prop.
    apply list_elem_of_lookup in Hin as (i & [Hi ->]%table_lookup).
    destruct Hl as [[E' _]|[[E' _]|[[E' _]|(_ & _ & Hb)]]]; [type_clash..|].
    specialize (Hb i Hi) as (_ & _ & Hb). unfold page_off_ptr in *.
    cbn [le_at le_pos le_key_size le_value_size leaf_element_at] in *.
    destruct (rd64_u64 buf (p + 32 + i * 32 + 8)) as [? _], (rd64_u64 buf (p + 32 + i * 32 + 16)) as [? _],
      (rd64_u64 buf (p + 32 + i * 32 + 24)) as [? _]. lia.
Qed.

(** ** Checksums *)

Section checksum_facts.
Context `{D : Digest}.

Lemma seal_block_ok buf :
  (32 <= length buf)%nat →
  ∃ S, seal_block buf = Ok S ∧ length S = length buf ∧
       take (length buf - 32) S = take (length buf - 32) buf ∧
       drop (length buf - 32) S = sha3_256 (take (length buf - 32) buf).
Proof.
  intros Hl. unfold seal_block, fail_if, len_u64, CHECKSUM_SIZE. rewrite (proj2 (Z.ltb_ge _ _)) by lia.
  cbn [mbind res_bind]. eexists. split; [done|].
  pose proof (length_sha3_256 (take (length buf - 32) buf)) as Hd. split_and!.
  - apply length_write_at. lia.
  - unfold write_at. rewrite take_app_length' by (rewrite length_take; lia). done.
  - rewrite drop_write_at, Hd by lia. rewrite drop_ge by lia. apply app_nil_r.
Qed.

Lemma verify_checksum_ok block id :
  verify_checksum block id = Ok () ↔ sha3_256 (take (length block - 32) block) = drop (length block - 32) block.
Proof.
  unfold verify_checksum, fail_if. cbv zeta. destruct (bool_decide _) eqn:E; cbn.
  - apply bool_decide_eq_true in E. done.
  - apply bool_decide_eq_false in E. done.
Qed.

Lemma seal_verify buf id S : seal_block buf = Ok S → verify_checksum S id = Ok ().
Proof.
  intros Hs. assert (32 <= length buf)%nat as Hl.
  { unfold seal_block in Hs. res_inv. bool_to_prop. unfold len_u64, CHECKSUM_SIZE in *. lia. }
  destruct (seal_block_ok buf Hl) as (S' & E & Hlen & Ht & Hd). rewrite E in Hs. injection Hs as <-.
  apply verify_checksum_ok. rewrite Hlen, Ht. done.
Qed.

End checksum_facts.


(** A concrete digest, for evaluation: 32 copies of the sum of the bytes. *)
Definition toy_digest : Digest := {|
  sha3_256 := λ b, replicate 32 (byte_of_Z (fold_left (λ a x, a + Z_of_byte x) b 0));
  length_sha3_256 := λ b, length_replicate 32 _
|}.


(** ** From the node to the file and back *)

(** Two buffers that agree on a page's bytes hold the same page. *)
Lemma page_prefix buf p B L :
  take L (drop p buf) = take L B → (p + L <= length buf)%nat → (L <= length B)%nat → (40 <= L)%nat →
  page_id_at buf p = page_id_at B 0 ∧ page_type_at buf p = page_type_at B 0 ∧
  page_count_at buf p = page_count_at B 0 ∧
  page_overflow_at buf p = page_overflow_at B 0 ∧
  (∀ limit, limit <= Z.of_nat L → layout_ok buf p limit ↔ layout_ok B 0 limit) ∧
  (∀ limit, limit <= Z.of_nat L → layout_ok B 0 limit → data_from_page buf p = data_from_page B 0).
Proof.
  intros E Hp HL H40. assert (take L (drop p buf) = take L (drop 0 B)) as E' by (by rewrite drop_0).
  split_and!.
  - rewrite <-(page_id_block buf p L), E' by done. by apply page_id_block.
  - rewrite <-(page_type_block buf p L), E' by done. by apply page_type_block.
  - rewrite <-(page_count_block buf p L), E' by done. by apply page_count_block.
  - rewrite <-(page_overflow_block buf p L), E' by done. by apply page_overflow_block.
  - intros limit Hl. rewrite <-(layout_ok_block buf p L), E' by done. by apply layout_ok_block.
  - intros limit Hl Hok. assert (layout_ok buf p limit) as Hok'.
    { rewrite <-(layout_ok_block buf p L), E' by done. by apply layout_ok_block. }
    rewrite <-(data_from_page_block buf p L ltac:(done) ltac:(done) limit) by done. rewrite E'.
    by apply (data_from_page_block B 0 L ltac:(done) ltac:(done) limit).
Qed.

Section on_disk.
Context `{D : Digest}.
Context (file B S : bytes) (id pagesize k : Z).
Hypothesis Hfile : len_u64 file <= isize_max.
Hypothesis Hid : 0 <= id.
Hypothesis Hk : 1 <= k.
Hypothesis Hps : 0 < pagesize ∧ pagesize mod 8 = 0.
Hypothesis HB : len_u64 B = k * pagesize.
Hypothesis Hfit : id * pagesize + len_u64 B <= len_u64 file.
Hypothesis Eid : page_id_at B 0 = id.
Hypothesis Eov : page_overflow_at B 0 = k - 1.
Hypothesis Hty : known_page_type (page_type_at B 0) = true.
Hypothesis Hmin : 72 <= len_u64 B.
Hypothesis Hlay : layout_ok B 0 (len_u64 B - CHECKSUM_SIZE).
Hypothesis Hseal : seal_block B = Ok S.

Definition stored : bytes := write_at file (Z.to_nat (id * pagesize)) S.
Let p := Z.to_nat (id * pagesize).

Lemma stored_view :
  length stored = length file ∧ take (length B) (drop p stored) = S ∧
  take (length B - 32) (drop p stored) = take (length B - 32) B.
Proof.
  unfold len_u64 in *. destruct (seal_block_ok B) as (S' & E & Slen & Spre & _); [lia|].
  rewrite Hseal in E. injection E as <-. assert (0 <= id * pagesize) by nia.
  assert (take (length B) (drop p stored) = S) as Hv.
  { rewrite <-Slen. apply write_at_read. unfold p in *. lia. }
  split_and!; [apply length_write_at; lia|done|].
  rewrite <-Spre, <-Hv, take_take. f_equal. lia.
Qed.

(** A sealed block at its place in the file passes every validation. *)
Lemma stored_page_valid :
  validate_block stored id pagesize = Ok p ∧ validate_structure stored id pagesize = Ok p.
Proof.
  destruct stored_view as (Elen & Hv & Hpre). unfold len_u64, CHECKSUM_SIZE in *. destruct Hps as [Hps0 Hal].
  assert (0 <= id * pagesize) by nia.
  destruct (page_prefix stored p B (length B - 32)) as (Fid & Fty & _ & Fov & Flay & _); [done|unfold p in *; lia|lia..|].
  assert (span_ok stored id pagesize p (k * pagesize)) as Hspan.
  { unfold span_ok, len_u64. rewrite Fid, Fov, Fty, Elen. unfold p. rewrite Z2Nat.id by done. split_and!; try done; try lia.
    rewrite Z.mul_mod, Hal, Z.mul_0_r by lia. done. }
  assert (layout_ok stored p (k * pagesize - CHECKSUM_SIZE)) as HlayS.
  { unfold CHECKSUM_SIZE. apply Flay; [lia|]. by rewrite <-HB. }
  assert (validate_structure stored id pagesize = Ok p) as Hstr.
  { apply validate_structure_spec; [unfold len_u64; lia|done|lia|]. by exists (k * pagesize). }
  split; [|done]. unfold validate_structure in Hstr. unfold validate_block.
  assert (validate_span stored id pagesize = Ok (p, k * pagesize)) as Es.
  { apply validate_span_spec; [unfold len_u64; lia|done|lia|done]. }
  rewrite Es in Hstr |- *. cbn -[validate_layout] in Hstr |- *.
  rewrite <-HB, Nat2Z.id, Hv, (seal_verify B id S Hseal). cbn -[validate_layout]. by rewrite HB.
Qed.

Lemma stored_page_data :
  data_from_page stored p = data_from_page B 0 ∧ page_type_at stored p = page_type_at B 0.
Proof.
  destruct stored_view as (Elen & Hv & Hpre). unfold len_u64, CHECKSUM_SIZE in *.
  assert (0 <= id * pagesize) by nia.
  destruct (page_prefix stored p B (length B - 32)) as (_ & Fty & _ & _ & _ & Fdata); [done|unfold p in *; lia|lia..|].
  split; [|done]. apply (Fdata (Z.of_nat (length B) - 32)); [lia|done].
Qed.

End on_disk.

Lemma node_size_min n : 40 <= node_size n.
Proof.
  unfold node_size, HEADER_SIZE, PAGE_SIZE_OF, data_size, BRANCH_SIZE, BRANCH_SIZE_OF, LEAF_SIZE, LEAF_SIZE_OF.
  destruct (n_data n); rewrite fold_left_zsum; [rewrite (zsum_weight _ branch_chunks branch_chunks_weight)|
    rewrite (zsum_weight _ leaf_chunks (λ l, eq_trans (leaf_size_alt l) (leaf_chunks_weight l)))]; unfold len_u64; lia.
Qed.

(** What a transaction writes, a later one reads.  A node encoded into its
    block of [k] pages, sealed and stored at its page of the file passes the full
    validation with checksum and the traversal's validation, and decodes to the
    node's data. *)
Theorem persisted_node_readable `{D : Digest} (file buf : bytes) (n : Node) (id pagesize k : Z) :
  len_u64 file <= isize_max → 0 <= id → 1 <= k → 0 < pagesize ∧ pagesize mod 8 = 0 →
  len_u64 buf = k * pagesize → id * pagesize + len_u64 buf <= len_u64 file →
  page_id_at buf 0 = id → page_overflow_at buf 0 = k - 1 →
  node_size n + CHECKSUM_SIZE <= len_u64 buf → data_wf (n_data n) →
  ∃ B S, write_node buf n = Ok B ∧ seal_block B = Ok S ∧
    let p := Z.to_nat (id * pagesize) in
    let file' := write_at file p S in
    validate_block file' id pagesize = Ok p ∧ node_page file' id pagesize = Ok p ∧
    data_from_page file' p = Ok (n_data n).
Proof.
  intros Hfile Hid Hk Hps Hbl Hfit Eid Eov Hsz Hwf. pose proof (node_size_min n). unfold CHECKSUM_SIZE in *.
  destruct (write_node_ok buf n ltac:(lia) ltac:(nia) Hwf) as (B & HB & Hlen & Bid & Bov & Bty & Bdata & Blay).
  destruct (seal_block_ok B) as (S & HS & _); [unfold len_u64 in *; lia|].
  exists B, S. split; [done|]. split; [done|]. cbv zeta.
  assert (len_u64 B = len_u64 buf) as EB by (unfold len_u64; congruence).
  assert (page_type_at B 0 = TYPE_BRANCH ∨ page_type_at B 0 = TYPE_LEAF) as Hty by (rewrite Bty; destruct (node_leaf n); auto).
  assert (known_page_type (page_type_at B 0) = true) as Hkn by (by destruct Hty as [->| ->]).
  assert (layout_ok B 0 (len_u64 B - CHECKSUM_SIZE)) as Hlay.
  { apply validate_layout_spec; [unfold isize_max, u64_max, CHECKSUM_SIZE in *; lia|done|].
    apply Blay. unfold isize_max, u64_max, CHECKSUM_SIZE in *. lia. }
  destruct (stored_page_valid file B S id pagesize k) as [Hv Hs]; try done; try lia; [congruence..|].
  destruct (stored_page_data file B S id pagesize k) as [Hd Ht]; try done; try lia; [congruence..|].
  fold (stored file S id pagesize). split_and!; [done| |congruence].
  apply node_page_spec. split; [done|]. by rewrite Ht.
Qed.

Lemma persisted_node_readable_witness :
  ∃ S, data_from_page (write_at (replicate 4096 Byte.x00) 2048 S) 2048 = Ok (Leaves demo_leaves).
Proof.
  destruct (@persisted_node_readable toy_digest (replicate 4096 Byte.x00) (fresh_page 2 1 1024)
    (demo_node (Leaves demo_leaves)) 2 1024 1) as (B & S & _ & _ & _ & _ & H).
  - apply Z.leb_le. vm_compute. reflexivity.
  - lia.
  - lia.
  - split; reflexivity.
  - vm_compute. reflexivity.
  - apply Z.leb_le. vm_compute. reflexivity.
  - vm_compute. reflexivity.
  - vm_compute. reflexivity.
  - apply Z.leb_le. vm_compute. reflexivity.
  - repeat constructor; by vm_compute.
  - exists S. exact H.
Defined.

(** A file of three pages, the last one a leaf page. *)
Definition demo_file : bytes :=
  match write_node (fresh_page 2 1 1024) (demo_node (Leaves demo_leaves)) with
  | Ok B => replicate 2048 Byte.x00 ++ B
  | _ => []
  end.

Lemma validate_structure_exact_witness : ∃ L, span_ok demo_file 2 1024 2048 L ∧ layout_ok demo_file 2048 (L - CHECKSUM_SIZE).
Proof.
  apply (validate_structure_exact demo_file 2 1024 2048).
  - apply Z.leb_le. vm_compute. reflexivity.
  - lia.
  - lia.
  - vm_compute. reflexivity.
Defined.

Lemma node_page_safe_witness : ∃ n, from_page 0 demo_file 2048 1024 = Ok n ∧ n_page_id n = 2.
Proof.
  destruct (node_page_safe demo_file 2 1024 2048 0) as (n & e & Hn & Hid & _).
  - apply Z.leb_le. vm_compute. reflexivity.
  - lia.
  - lia.
  - vm_compute. reflexivity.
  - exists n. split; [exact Hn|exact Hid].
Defined.
