(* ===== verification/PageNode.v ===== *)
(** * Page or node

    [src/src/tree/page_node.rs]: traversals read either a page of the mapped file
    or the node that replaced it in this transaction, through one interface.  The
    theorem of this file is what makes that sound: on a validated page, every
    operation gives what it gives on the decoded node. *)

From S2P Require Import Prelude Search Support Layout Meta Freelist Node Page.

Inductive PageNodeID :=
  | PPage (id : PageID)
  | PNode (id : NodeID).

#[global] Instance page_node_id_eq_dec : EqDecision PageNodeID.
Proof. solve_decision. Defined.

(** [PageNode::Page] is the offset of a page in the mapped file; [PageNode::Node]
    is the node as it is when it is read. *)
Inductive PageNode :=
  | PageOf (p : nat)
  | NodeOf (n : Node).

Section page_node.
Context (file : bytes).

Definition pn_id (pn : PageNode) : PageNodeID :=
  match pn with
  | PageOf p => PPage (page_id_at file p)
  | NodeOf n => PNode (n_id n)
  end.

Definition pn_leaf (pn : PageNode) : bool :=
  match pn with
  | PageOf p => page_type_at file p =? TYPE_LEAF
  | NodeOf n => node_leaf n
  end.

Definition pn_len (pn : PageNode) : Z :=
  match pn with
  | PageOf p => page_count_at file p
  | NodeOf n => Z.of_nat (data_len (n_data n))
  end.

Definition pn_index_page (pn : PageNode) (index : nat) : res PageID :=
  match pn with
  | PageOf p =>
      if page_count_at file p <=? Z.of_nat index then Ok 0
      else if page_type_at file p =? TYPE_BRANCH then
        els ← branch_elements file p;
        e ← unwrap (els !! index) "index out of bounds";
        Ok (be_page e)
      else Panic "INVALID PAGE TYPE FOR INDEX_PAGE"
  | NodeOf n =>
      if (data_len (n_data n) <=? index)%nat then Ok 0
      else match n_data n with
           | Branches b => e ← unwrap (b !! index) "index out of bounds"; Ok (b_page e)
           | Leaves _ => Panic "INVALID NODE TYPE FOR INDEX_PAGE"
           end
  end.

(** A missing key points at the element just before its place. *)
Definition index_result (r : SearchResult) : nat * bool :=
  match r with
  | SFound i => (i, true)
  | SMissing i => ((i - 1)%nat, false)
  end.

Definition pn_index (pn : PageNode) (key : bytes) : res (nat * bool) :=
  match pn with
  | PageOf p =>
      let t := page_type_at file p in
      if t =? TYPE_LEAF then
        els ← leaf_elements file p;
        Ok (index_result (binary_search_by_key (leaf_element_key file) els key))
      else if t =? TYPE_BRANCH then
        els ← branch_elements file p;
        Ok (index_result (binary_search_by_key (branch_element_key file) els key))
      else Panic ("INVALID PAGE TYPE FOR INDEX: " +:+ dec t)
  | NodeOf n =>
      match n_data n with
      | Branches b => Ok (index_result (binary_search_by_key b_key b key))
      | Leaves l => Ok (index_result (binary_search_by_key leaf_key l key))
      end
  end.

Definition pn_val (pn : PageNode) (index : nat) : res (option Leaf) :=
  match pn with
  | PageOf p =>
      if page_type_at file p =? TYPE_LEAF then
        els ← leaf_elements file p;
        match els !! index with
        | Some e => l ← leaf_from_element file e; Ok (Some l)
        | None => Ok None
        end
      else Panic "INVALID PAGE TYPE FOR VAL"
  | NodeOf n =>
      match n_data n with
      | Leaves l => Ok (l !! index)
      | Branches _ => Panic "INVALID NODE TYPE FOR VAL"
      end
  end.

(** ** Reading through the decoded data *)

(** What the operations mean on the data behind a page or node. *)
Definition data_index (d : NodeData) (key : bytes) : nat * bool :=
  match d with
  | Branches b => index_result (binary_search_by_key b_key b key)
  | Leaves l => index_result (binary_search_by_key leaf_key l key)
  end.

Definition pn_data (pn : PageNode) : res NodeData :=
  match pn with
  | PageOf p => data_from_page file p
  | NodeOf n => Ok (n_data n)
  end.

End page_node.

(** The search only looks at keys. *)
Lemma bs_loop_fmap {A B} (f : A → B) (ka : A → bytes) (kb : B → bytes) l k fuel base size :
  (∀ x, x ∈ l → kb (f x) = ka x) → bs_loop kb fuel (f <$> l) k base size = bs_loop ka fuel l k base size.
Proof.
  intros Hk. assert (∀ i, probe kb (f <$> l) k i = probe ka l k i) as Hp.
  { intros i. unfold probe. rewrite list_lookup_fmap. destruct (l !! i) as [x|] eqn:E; cbn; [|done].
    rewrite Hk; [done|]. by eapply list_elem_of_lookup_2. }
  revert base size. induction fuel as [|fuel IH]; intros base size; cbn; [done|].
  destruct (size <=? 1)%nat; [done|]. by rewrite Hp, IH.
Qed.

Lemma binary_search_fmap {A B} (f : A → B) (ka : A → bytes) (kb : B → bytes) l k :
  (∀ x, x ∈ l → kb (f x) = ka x) → binary_search_by_key kb (f <$> l) k = binary_search_by_key ka l k.
Proof.
  intros Hk. unfold binary_search_by_key. rewrite length_fmap, (bs_loop_fmap f ka kb) by done.
  destruct (length l); [done|]. unfold probe. rewrite list_lookup_fmap.
  destruct (l !! _) as [x|] eqn:E; cbn; [|done]. rewrite Hk; [done|]. by eapply list_elem_of_lookup_2.
Qed.

Lemma leaf_from_element_key file e l : leaf_from_element file e = Ok l → leaf_key l = leaf_element_key file e.
Proof. unfold leaf_from_element. repeat case_match; intros; simplify_eq/=; done. Qed.

Lemma res_map_lookup {A B} (f : A → res B) l ys i :
  res_map f l = Ok ys →
  match l !! i with
  | Some x => ∃ y, ys !! i = Some y ∧ f x = Ok y
  | None => ys !! i = None
  end.
Proof.
  revert ys i. induction l as [|x l IH]; intros ys i H; cbn [res_map] in H; res_inv; [by destruct i|].
  destruct i as [|i]; cbn; [eauto|]. by apply IH.
Qed.

(** The leaves decoded from a page have the keys of its elements. *)
Lemma leaf_keys_decoded file els ls :
  res_map (leaf_from_element file) els = Ok ls → leaf_key <$> ls = leaf_element_key file <$> els.
Proof.
  revert ls. induction els as [|e els IH]; intros ls H; cbn [res_map] in H; res_inv; [done|].
  rewrite !fmap_cons, (IH _ eq_refl). f_equal. by apply leaf_from_element_key.
Qed.

Lemma binary_search_keys {A B} (ka : A → bytes) (kb : B → bytes) la lb k :
  ka <$> la = kb <$> lb → binary_search_by_key ka la k = binary_search_by_key kb lb k.
Proof.
  intros E. rewrite <-(binary_search_fmap ka ka id la), E by done. by apply binary_search_fmap.
Qed.

Section agreement.
Context (file : bytes) (pn : PageNode) (d : NodeData).
Hypothesis Hd : pn_data file pn = Ok d.

Lemma pn_leaf_data : pn_leaf file pn = match d with Branches _ => false | Leaves _ => true end.
Proof.
  destruct pn as [p|n]; cbn in *; [|simplify_eq; done].
  unfold data_from_page, branch_elements, leaf_elements in Hd. cbv zeta in Hd.
  destruct (Z.eqb_spec (page_type_at file p) TYPE_BRANCH) as [E|E].
  - rewrite E in *. cbn in Hd. injection Hd as <-. done.
  - destruct (Z.eqb_spec (page_type_at file p) TYPE_LEAF) as [E'|E']; [|done].
    cbn [assert_that mbind res_bind] in Hd. res_inv. done.
Qed.

Lemma pn_len_data : pn_len file pn = Z.of_nat (data_len d).
Proof.
  destruct pn as [p|n]; cbn in *; [|simplify_eq; done].
  pose proof (page_count_u64 file p) as [Hc _].
  unfold data_from_page, branch_elements, leaf_elements in Hd. cbv zeta in Hd.
  destruct (Z.eqb_spec (page_type_at file p) TYPE_BRANCH) as [E|E].
  - cbn [Z.eqb Pos.eqb TYPE_BRANCH assert_that mbind res_bind] in Hd. injection Hd as <-. cbn.
    rewrite length_fmap. unfold table. rewrite length_fmap, length_seq. lia.
  - destruct (Z.eqb_spec (page_type_at file p) TYPE_LEAF) as [E'|E']; [|done].
    cbn [assert_that mbind res_bind] in Hd. res_inv. cbn.
    apply leaf_keys_decoded, (f_equal length) in E0. rewrite !length_fmap in E0. rewrite E0.
    unfold table. rewrite length_fmap, length_seq. lia.
Qed.

Lemma pn_index_data key : pn_index file pn key = Ok (data_index d key).
Proof.
  destruct pn as [p|n]; cbn in *; [|simplify_eq; by destruct (n_data n)].
  unfold data_from_page in Hd. cbv zeta in Hd. unfold branch_elements, leaf_elements in *.
  destruct (Z.eqb_spec (page_type_at file p) TYPE_BRANCH) as [E|E].
  - rewrite E in *. cbn [Z.eqb Pos.eqb TYPE_BRANCH TYPE_LEAF assert_that mbind res_bind] in *.
    injection Hd as <-. cbn. do 2 f_equal. symmetry. by apply binary_search_fmap.
  - destruct (Z.eqb_spec (page_type_at file p) TYPE_LEAF) as [E'|E']; [|done].
    cbn [assert_that mbind res_bind] in *. res_inv. cbn. do 2 f_equal. apply binary_search_keys.
    symmetry. by apply leaf_keys_decoded.
Qed.

Lemma pn_index_page_data i :
  pn_index_page file pn i =
  match d with
  | Branches b => Ok (match b !! i with Some e => b_page e | None => 0 end)
  | Leaves l => if decide (i < length l)%nat then pn_index_page file pn i else Ok 0
  end.
Proof.
  pose proof pn_len_data as Hl. pose proof pn_leaf_data as Hf.
  destruct pn as [p|n]; cbn -[branch_elements] in *.
  - destruct d as [b|l]; cbn in Hl.
    + unfold data_from_page in Hd. cbv zeta in Hd. 
      destruct (Z.eqb_spec (page_type_at file p) TYPE_BRANCH) as [E|E].
      * destruct (branch_elements file p) as [els| |]; [|done..]. cbn in Hd |- *. injection Hd as <-.
        rewrite Hl, length_fmap, list_lookup_fmap. case_match eqn:El; bool_to_prop.
        -- rewrite lookup_ge_None_2 by lia. done.
        -- destruct (lookup_lt_is_Some_2 els i) as [e ->]; [lia|]. done.
      * rewrite Hf in Hd. done.
    + case_decide; [done|]. rewrite Hl. by rewrite (proj2 (Z.leb_le _ _)) by lia.
  - injection Hd as <-. destruct (n_data n) as [b|l]; cbn.
    + destruct (Nat.leb_spec (length b) i) as [Hle|Hlt].
      * by rewrite lookup_ge_None_2 by done.
      * destruct (lookup_lt_is_Some_2 b i) as [e ->]; [lia|]. done.
    + case_decide; [done|]. by rewrite (proj2 (Nat.leb_le _ _)) by lia.
Qed.

Lemma pn_val_data i l : d = Leaves l → pn_val file pn i = Ok (l !! i).
Proof.
  intros E0. pose proof pn_leaf_data as Hf. pose proof Hd as Hl. rewrite E0 in Hf, Hl. clear Hd E0.
  destruct pn as [p|n]; cbn -[leaf_elements] in *; [|by injection Hl as ->].
  unfold data_from_page in Hl. cbv zeta in Hl. rewrite Hf.
  destruct (Z.eqb_spec (page_type_at file p) TYPE_BRANCH) as [E|E].
  { apply Z.eqb_eq in Hf. rewrite E in Hf. done. }
  rewrite Hf in Hl. destruct (leaf_elements file p) as [els| |]; [|done..]. cbn -[res_map] in Hl |- *.
  destruct (res_map _ els) as [ls| |] eqn:Em; [|done..]. cbn in Hl. injection Hl as ->.
  pose proof (res_map_lookup _ _ _ i Em) as Hi. destruct (els !! i) as [e|].
  - destruct Hi as (y & -> & ->). done.
  - by rewrite Hi.
Qed.

End agreement.

(** Reading a page in place and reading the node decoded from it are the
    same.  When [Node::from_page] succeeds on a page, the length, the kind, the
    result of a key search, the child of a branch and the value at an index agree
    between [PageNode::Page] and [PageNode::Node]. *)
Theorem page_node_agree (file : bytes) (p : nat) (nid : NodeID) (pagesize : Z) (n : Node) :
  from_page nid file p pagesize = Ok n →
  pn_leaf file (PageOf p) = pn_leaf file (NodeOf n) ∧
  pn_len file (PageOf p) = pn_len file (NodeOf n) ∧
  (∀ key, pn_index file (PageOf p) key = pn_index file (NodeOf n) key) ∧
  (node_leaf n = false → ∀ i, pn_index_page file (PageOf p) i = pn_index_page file (NodeOf n) i) ∧
  (node_leaf n = true → ∀ i, pn_val file (PageOf p) i = pn_val file (NodeOf n) i).
Proof.
  intros Hn. assert (data_from_page file p = Ok (n_data n)) as Hd.
  { unfold from_page in Hn. res_inv. done. }
  pose proof (pn_len_data file (PageOf p) _ Hd) as Hl. pose proof (pn_leaf_data file (PageOf p) _ Hd) as Hf.
  split_and!; [done|done| | |].
  - intros key. rewrite (pn_index_data file (PageOf p) _ Hd). by rewrite (pn_index_data file (NodeOf n) (n_data n)).
  - intros Hb i. rewrite (pn_index_page_data file (PageOf p) _ Hd), (pn_index_page_data file (NodeOf n) (n_data n)) by done.
    unfold node_leaf in Hb. by destruct (n_data n).
  - intros Hb i. unfold node_leaf in Hb. destruct (n_data n) as [|l] eqn:E; [done|].
    rewrite (pn_val_data file (PageOf p) (Leaves l) Hd i l), (pn_val_data file (NodeOf n) (Leaves l) ltac:(cbn; congruence) i l) by done.
    done.
Qed.

Lemma page_node_agree_witness :
  ∃ n, from_page 0 demo_file 2048 1024 = Ok n ∧
       pn_index demo_file (PageOf 2048) [Byte.x62] = pn_index demo_file (NodeOf n) [Byte.x62].
Proof.
  eexists. split; [vm_compute; reflexivity|].
  refine (proj1 (proj2 (proj2 (page_node_agree demo_file 2048 0 1024 _ _))) [Byte.x62]).
  vm_compute. reflexivity.
Defined.
