(* ===== verification/Inner.v ===== *)
(** * The inner bucket

    [src/src/api/bucket/inner.rs] and the searches of [src/src/api/cursor.rs]:
    one B+ tree of the transaction, whose pages are read from the mapped file
    until a write materialises them as nodes.  Nodes are shared through
    [Rc<RefCell<Node>>]; the model keeps them in the bucket's node vector and
    refers to them by index, as the code's [NodeID] does.  Sub-buckets
    ([Rc<RefCell<InnerBucket>>]) are references into the transaction's bucket
    store, see [Buckets].  The loops that follow pages take fuel: a file whose
    pages form a cycle makes the code loop, and the model answers [NOFUEL].  The
    cache of validated pages is [cached_node_page]; it does not change any
    result, so the bucket reads pages without it. *)

From S2P Require Import Prelude Search Support Layout Meta Freelist Node Page PageNode.

(** [Pages]: the mapped file and its page size. *)
Record Pages := mkPages { pg_data : bytes; pg_pagesize : Z }.

Abbreviation BucketRef := Z.

Record InnerBucket := mkInner {
  ib_meta : BucketMeta;
  ib_root : PageNodeID;
  ib_deleted : bool;
  ib_dirty : bool;
  ib_buckets : gmap bytes BucketRef;
  ib_nodes : list Node;
  ib_page_node_ids : gmap PageID NodeID;
  ib_page_parents : gmap PageID PageID;
  ib_pages : Pages
}.

(** Field updates. *)
Definition with_meta (b : InnerBucket) (m : BucketMeta) : InnerBucket :=
  mkInner m (ib_root b) (ib_deleted b) (ib_dirty b) (ib_buckets b) (ib_nodes b) (ib_page_node_ids b)
    (ib_page_parents b) (ib_pages b).
Definition with_root (b : InnerBucket) (r : PageNodeID) : InnerBucket :=
  mkInner (ib_meta b) r (ib_deleted b) (ib_dirty b) (ib_buckets b) (ib_nodes b) (ib_page_node_ids b)
    (ib_page_parents b) (ib_pages b).
Definition with_deleted (b : InnerBucket) : InnerBucket :=
  mkInner (ib_meta b) (ib_root b) true (ib_dirty b) (ib_buckets b) (ib_nodes b) (ib_page_node_ids b)
    (ib_page_parents b) (ib_pages b).
Definition with_dirty (b : InnerBucket) : InnerBucket :=
  mkInner (ib_meta b) (ib_root b) (ib_deleted b) true (ib_buckets b) (ib_nodes b) (ib_page_node_ids b)
    (ib_page_parents b) (ib_pages b).
Definition with_buckets (b : InnerBucket) (bs : gmap bytes BucketRef) : InnerBucket :=
  mkInner (ib_meta b) (ib_root b) (ib_deleted b) (ib_dirty b) bs (ib_nodes b) (ib_page_node_ids b)
    (ib_page_parents b) (ib_pages b).
Definition with_nodes (b : InnerBucket) (ns : list Node) : InnerBucket :=
  mkInner (ib_meta b) (ib_root b) (ib_deleted b) (ib_dirty b) (ib_buckets b) ns (ib_page_node_ids b)
    (ib_page_parents b) (ib_pages b).
Definition with_page_node_ids (b : InnerBucket) (m : gmap PageID NodeID) : InnerBucket :=
  mkInner (ib_meta b) (ib_root b) (ib_deleted b) (ib_dirty b) (ib_buckets b) (ib_nodes b) m
    (ib_page_parents b) (ib_pages b).
Definition with_page_parents (b : InnerBucket) (m : gmap PageID PageID) : InnerBucket :=
  mkInner (ib_meta b) (ib_root b) (ib_deleted b) (ib_dirty b) (ib_buckets b) (ib_nodes b) (ib_page_node_ids b)
    m (ib_pages b).

Definition root_of (b : InnerBucket) : PageID := root_page (ib_meta b).

(** ** Construction *)

Definition from_meta (m : BucketMeta) (pages : Pages) : InnerBucket :=
  mkInner m (PPage (root_page m)) false false ∅ [] ∅ ∅ pages.

(** The bucket that [new_child] registers under a name: one empty leaf node that
    stands for page 0. *)
Definition new_child_bucket (pages : Pages) : InnerBucket :=
  mkInner bucket_meta_default (PNode 0) false true ∅
    [mkNode 0 0 0 [] (Leaves []) false None None (pg_pagesize pages) false] {[0 := 0]} ∅ pages.

Definition merge_next_int (b : InnerBucket) (next : Z) : InnerBucket :=
  if next_int (ib_meta b) <? next
  then with_dirty (with_meta b (mkBucketMeta (root_of b) next))
  else b.

Definition add_page_parent (b : InnerBucket) (page parent : PageID) : InnerBucket :=
  with_page_parents b (<[page := parent]> (ib_page_parents b)).

(** ** Pages and nodes *)

Definition inner_node_page (b : InnerBucket) (id : PageID) : res nat :=
  node_page (pg_data (ib_pages b)) id (pg_pagesize (ib_pages b)).

(** [InnerBucket::node_page] with its cache of validated pages. *)
Definition cached_node_page (pages : Pages) (validated : gset PageID) (id : PageID) : res (nat * gset PageID) :=
  if decide (id ∈ validated) then
    let offset := Z.to_nat (u64_wrap (id * pg_pagesize pages)) in
    _ ← assert_that (offset <? length (pg_data pages))%nat "index out of bounds";
    Ok (offset, validated)
  else
    p ← node_page (pg_data pages) id (pg_pagesize pages);
    Ok (p, {[id]} ∪ validated).

Definition node_at (b : InnerBucket) (id : NodeID) : res Node :=
  unwrap (ib_nodes b !! Z.to_nat id) "index out of bounds".

Definition update_node (b : InnerBucket) (id : NodeID) (n : Node) : InnerBucket :=
  with_nodes b (<[Z.to_nat id := n]> (ib_nodes b)).

Definition page_node (b : InnerBucket) (id : PageNodeID) : res PageNode :=
  match id with
  | PPage page =>
      match ib_page_node_ids b !! page with
      | Some nid => n ← node_at b nid; Ok (NodeOf n)
      | None => p ← inner_node_page b page; Ok (PageOf p)
      end
  | PNode nid => n ← node_at b nid; Ok (NodeOf n)
  end.

(** ** Searching *)

Record SearchPath := mkPath { sp_index : nat; sp_id : PageNodeID }.

Fixpoint search (fuel : nat) (key : bytes) (page_id : PageID) (b : InnerBucket) (stack : list SearchPath)
    : res (bool * list SearchPath * InnerBucket) :=
  match fuel with
  | O => Panic NOFUEL
  | S fuel =>
      let file := pg_data (ib_pages b) in
      pn ← page_node b (PPage page_id);
      let id := pn_id file pn in
      '(index, exact) ← pn_index file pn key;
      let stack := stack ++ [mkPath index id] in
      if pn_leaf file pn then Ok (exact, stack, b)
      else
        next_page_id ← pn_index_page file pn index;
        if next_page_id =? 0 then Ok (false, stack, b)
        else search fuel key next_page_id (add_page_parent b next_page_id page_id) stack
  end.

Fixpoint search_leaf (fuel : nat) (key : bytes) (page_id : PageID) (b : InnerBucket) : res (bool * SearchPath) :=
  match fuel with
  | O => Panic NOFUEL
  | S fuel =>
      let file := pg_data (ib_pages b) in
      pn ← page_node b (PPage page_id);
      let id := pn_id file pn in
      '(index, exact) ← pn_index file pn key;
      if pn_leaf file pn then Ok (exact, mkPath index id)
      else
        next_page_id ← pn_index_page file pn index;
        if next_page_id =? 0 then Ok (false, mkPath index id)
        else search_leaf fuel key next_page_id b
  end.

(** ** Materialising nodes *)

(** [parent.insert_child(node_id, node_key); n.parent = Some(parent.id)] *)
Definition link_child (b : InnerBucket) (parent_id node_id : NodeID) (key : bytes) : res InnerBucket :=
  parent ← node_at b parent_id;
  parent' ← insert_child parent node_id key;
  let b := update_node b parent_id parent' in
  n ← node_at b node_id;
  Ok (update_node b node_id (set_parent n (Some (n_id parent)))).

(** [InnerBucket::node]; [parent] is the node the caller holds. *)
Fixpoint node (fuel : nat) (b : InnerBucket) (id : PageNodeID) (parent : option NodeID) : res (NodeID * InnerBucket) :=
  match fuel with
  | O => Panic NOFUEL
  | S fuel =>
      match id with
      | PNode id => _ ← node_at b id; Ok (id, b)
      | PPage page_id =>
          match ib_page_node_ids b !! page_id with
          | Some nid => _ ← node_at b nid; Ok (nid, b)
          | None =>
              _ ← fail_if (negb (root_of b =? page_id) && bool_decide (ib_page_parents b !! page_id = None))
                    (InvalidDB ("cannot find reference to page " +:+ dec page_id));
              page ← inner_node_page b page_id;
              let node_id := Z.of_nat (length (ib_nodes b)) in
              let b := with_page_node_ids b (<[page_id := node_id]> (ib_page_node_ids b)) in
              n ← from_page node_id (pg_data (ib_pages b)) page (pg_pagesize (ib_pages b));
              let b := with_nodes b (ib_nodes b ++ [n]) in
              if root_of b =? page_id then Ok (node_id, b)
              else
                node_key ← data_first_key (n_data n);
                match parent with
                | Some pid => b ← link_child b pid node_id node_key; Ok (node_id, b)
                | None =>
                    parent_page ← unwrap (ib_page_parents b !! page_id) "no entry found for key";
                    '(pid, b) ← node fuel b (PPage parent_page) None;
                    b ← link_child b pid node_id node_key;
                    Ok (node_id, b)
                end
          end
      end
  end.

Definition new_node (b : InnerBucket) (d : NodeData) : res (NodeID * InnerBucket) :=
  let node_id := Z.of_nat (length (ib_nodes b)) in
  n ← node_with_data node_id d (pg_pagesize (ib_pages b));
  Ok (node_id, with_nodes b (ib_nodes b ++ [n])).

(** ** Reading and writing entries *)

Definition inner_get (fuel : nat) (b : InnerBucket) (key : bytes) : res (option Leaf) :=
  '(exists_, leaf) ← search_leaf fuel key (root_of b) b;
  if exists_ : bool then
    pn ← page_node b (sp_id leaf);
    pn_val (pg_data (ib_pages b)) pn (sp_index leaf)
  else Ok None.

Definition last_path (stack : list SearchPath) : res SearchPath :=
  unwrap (last stack) "called `Option::unwrap()` on a `None` value".

Definition bump_next_int (b : InnerBucket) : InnerBucket :=
  with_meta b (mkBucketMeta (root_of b) (u64_wrap (next_int (ib_meta b) + 1))).

(** [let node = self.node(id, None)?; node.borrow_mut().insert_data(leaf)] *)
Definition insert_at (fuel : nat) (b : InnerBucket) (id : PageNodeID) (l : Leaf) : res InnerBucket :=
  '(nid, b) ← node fuel b id None;
  n ← node_at b nid;
  n' ← insert_data n l;
  Ok (update_node b nid n').

Definition put_leaf (fuel : nat) (b : InnerBucket) (l : Leaf) : res (option Leaf * InnerBucket) :=
  '(exists_, stack, b) ← search fuel (leaf_key l) (root_of b) b [];
  last ← last_path stack;
  '(current_data, b) ←
    (if exists_ : bool then
       pn ← page_node b (sp_id last);
       v ← pn_val (pg_data (ib_pages b)) pn (sp_index last);
       current ← unwrap v "called `Option::unwrap()` on a `None` value";
       _ ← fail_if (negb (eqb (leaf_is_kv current) (leaf_is_kv l))) IncompatibleValue;
       Ok (Some current, b)
     else Ok (None, bump_next_int b));
  b ← insert_at fuel b (sp_id last) l;
  Ok (current_data, with_dirty b).

Definition inner_put (fuel : nat) (b : InnerBucket) (k v : bytes) : res (option (bytes * bytes) * InnerBucket) :=
  '(old, b) ← put_leaf fuel b (LKv k v);
  match old with
  | Some (LKv k v) => Ok (Some (k, v), b)
  | Some _ => Panic "Unexpected data"
  | None => Ok (None, b)
  end.

(** [let node = self.node(id, None)?; node.borrow_mut().delete(index)] *)
Definition delete_at (fuel : nat) (b : InnerBucket) (id : PageNodeID) (index : nat) : res (Leaf * InnerBucket) :=
  '(nid, b) ← node fuel b id None;
  n ← node_at b nid;
  '(l, n') ← node_delete n index;
  Ok (l, update_node b nid n').

Definition inner_delete (fuel : nat) (b : InnerBucket) (key : bytes) : res (bytes * bytes * InnerBucket) :=
  '(exists_, stack, b) ← search fuel key (root_of b) b [];
  last ← last_path stack;
  if exists_ : bool then
    pn ← page_node b (sp_id last);
    v ← pn_val (pg_data (ib_pages b)) pn (sp_index last);
    data ← unwrap v "called `Option::unwrap()` on a `None` value";
    if leaf_is_kv data then
      '(l, b) ← delete_at fuel (with_dirty b) (sp_id last) (sp_index last);
      match l with
      | LKv k v => Ok (k, v, b)
      | LBucket _ _ => Panic "Unexpected data"
      end
    else Err IncompatibleValue
  else Err KeyValueMissing.

(** ** The cache of validated pages *)

(** A sequence of lookups through the cache. *)
Fixpoint cached_lookups (pages : Pages) (validated : gset PageID) (ids : list PageID) : list (res nat) :=
  match ids with
  | [] => []
  | id :: ids =>
      match cached_node_page pages validated id with
      | Ok (p, validated) => Ok p :: cached_lookups pages validated ids
      | Err e => Err e :: cached_lookups pages validated ids
      | Panic w => Panic w :: cached_lookups pages validated ids
      end
  end.

Lemma node_page_offset file id pagesize p :
  len_u64 file <= isize_max → 0 <= id → 0 <= pagesize → node_page file id pagesize = Ok p →
  p = Z.to_nat (u64_wrap (id * pagesize)) ∧ (p < length file)%nat.
Proof.
  intros Hl Hid Hps [(L & Hs & _)%validate_structure_spec _]%node_page_spec; [|done..].
  destruct Hs as (Ep & _ & _ & _ & _ & Hmin & Hend). unfold len_u64, isize_max in *.
  unfold u64_wrap, u64_mod. rewrite Z.mod_small by lia. lia.
Qed.

Lemma cached_node_page_spec pages validated id :
  len_u64 (pg_data pages) <= isize_max → 0 <= pg_pagesize pages →
  (∀ x, x ∈ validated → 0 <= x ∧ is_ok (node_page (pg_data pages) x (pg_pagesize pages))) → 0 <= id →
  match cached_node_page pages validated id with
  | Ok (p, v) => node_page (pg_data pages) id (pg_pagesize pages) = Ok p ∧ v = {[id]} ∪ validated
  | Err e => node_page (pg_data pages) id (pg_pagesize pages) = Err e
  | Panic w => node_page (pg_data pages) id (pg_pagesize pages) = Panic w
  end.
Proof.
  intros Hl Hps Hv Hid. unfold cached_node_page. case_decide as Hin.
  - destruct (Hv id Hin) as [_ Hok].
    destruct (node_page (pg_data pages) id (pg_pagesize pages)) as [p| |] eqn:E; [|done..].
    destruct (node_page_offset _ _ _ _ Hl Hid Hps E) as [-> Hlt]. cbv zeta. unfold assert_that.
    rewrite (proj2 (Nat.ltb_lt _ _)) by done. cbn. split; [done|]. set_solver.
  - destruct (node_page (pg_data pages) id (pg_pagesize pages)) as [p| |] eqn:E; done.
Qed.

(** The cache of validated pages is transparent.  Starting from the empty
    cache of a new bucket, any sequence of page lookups through
    [InnerBucket::node_page] gives the results of validating every time. *)
Theorem cache_transparent (pages : Pages) (ids : list PageID) :
  len_u64 (pg_data pages) <= isize_max → 0 <= pg_pagesize pages → Forall (λ id, 0 <= id) ids →
  cached_lookups pages ∅ ids = (λ id, node_page (pg_data pages) id (pg_pagesize pages)) <$> ids.
Proof.
  intros Hl Hps Hids. assert (∀ validated,
    (∀ x, x ∈ validated → 0 <= x ∧ is_ok (node_page (pg_data pages) x (pg_pagesize pages))) →
    cached_lookups pages validated ids = (λ id, node_page (pg_data pages) id (pg_pagesize pages)) <$> ids) as H;
    [|apply H; set_solver].
  induction ids as [|id ids IH]; intros validated Hv; [done|]. apply Forall_cons in Hids as [Hid Hids].
  pose proof (cached_node_page_spec pages validated id Hl Hps Hv Hid) as Hc. cbn [cached_lookups]. rewrite fmap_cons.
  destruct (cached_node_page pages validated id) as [[p v]| |].
  - destruct Hc as [Hn ->]. rewrite Hn. f_equal. apply IH; [done|]. intros x [->%elem_of_singleton|?]%elem_of_union; [|auto].
    split; [done|]. by rewrite Hn.
  - rewrite Hc. f_equal. by apply IH.
  - rewrite Hc. f_equal. by apply IH.
Qed.

Lemma cache_transparent_witness :
  cached_lookups (mkPages demo_file 1024) ∅ [2; 5; 2] =
  (λ id, node_page demo_file id 1024) <$> [2; 5; 2].
Proof.
  apply (cache_transparent (mkPages demo_file 1024)).
  - apply Z.leb_le. vm_compute. reflexivity.
  - cbn. lia.
  - repeat constructor; lia.
Defined.

(** ** The tree behind a bucket *)

(** The branches or leaves a page stands for in this transaction. *)
Definition page_data (b : InnerBucket) (page : PageID) : res NodeData :=
  pn ← page_node b (PPage page); pn_data (pg_data (ib_pages b)) pn.

Record Kid := mkKid { k_branch : Branch; k_entries : list Leaf; k_pages : list PageID }.

(** Keys of child [i] are below the next branch key and, except in the first
    child, not below their own. *)
Definition separated (kids : list Kid) : Prop :=
  ∀ i k e, kids !! i = Some k → e ∈ k_entries k →
    ((0 < i)%nat → lex_le (b_key (k_branch k)) (leaf_key e)) ∧
    (∀ k', kids !! S i = Some k' → lex_lt (leaf_key e) (b_key (k_branch k'))).

(** A tree of height [h] at [p] with these entries and pages. *)
Fixpoint tree (b : InnerBucket) (h : nat) (p : PageID) (es : list Leaf) (ps : list PageID) : Prop :=
  match h with
  | O => page_data b p = Ok (Leaves es) ∧ ps = [p]
  | S h => ∃ kids,
      page_data b p = Ok (Branches (k_branch <$> kids)) ∧ kids ≠ [] ∧
      keys_sorted b_key (k_branch <$> kids) ∧ separated kids ∧
      Forall (λ k, b_page (k_branch k) ≠ 0 ∧ tree b h (b_page (k_branch k)) (k_entries k) (k_pages k)) kids ∧
      es = concat (k_entries <$> kids) ∧ ps = p :: concat (k_pages <$> kids)
  end.

(** ** Descending *)

(** The child a search follows: its key is the last one not above [key]. *)
Lemma data_index_branches bs key :
  keys_sorted b_key bs → bs ≠ [] →
  let i := (data_index (Branches bs) key).1 in
  ∃ br, bs !! i = Some br ∧ ((0 < i)%nat → lex_le (b_key br) key) ∧
    (∀ br', bs !! S i = Some br' → lex_lt key (b_key br')).
Proof.
  intros Hs Hne. cbn. pose proof (binary_search_ok b_key bs key Hs) as Hok.
  destruct (binary_search_by_key b_key bs key) as [i|i]; cbn.
  - destruct Hok as (e & He & <-). exists e. split_and!; [done| |].
    + intros _. rewrite lex_le_alt. by right.
    + intros br' Hbr. eapply (keys_sorted_lookup b_key bs i (S i)); eauto.
  - destruct Hok as (Hi & Hlo & Hhi). assert (length bs ≠ 0)%nat by (by destruct bs).
    destruct (lookup_lt_is_Some_2 bs (i - 1)) as [e He]; [lia|]. exists e. split_and!; [done| |].
    + intros ?. rewrite lex_le_alt. left. apply (Hlo (i - 1)%nat); [done|lia].
    + intros br' Hbr. apply (Hhi (S (i - 1))); [done|lia].
Qed.

Lemma concat_middle {A B} (f : A → list B) l i x :
  l !! i = Some x → concat (f <$> l) = concat (f <$> take i l) ++ f x ++ concat (f <$> drop (S i) l).
Proof.
  intros Hi. rewrite <-(take_drop_middle l i x Hi) at 1. by rewrite fmap_app, concat_app, fmap_cons.
Qed.

Lemma elem_of_concat_fmap {A B} (f : A → list B) l e :
  e ∈ concat (f <$> l) ↔ ∃ i x, l !! i = Some x ∧ e ∈ f x.
Proof.
  induction l as [|x l IH]; cbn.
  { split; [by intros ?%elem_of_nil|]. by intros (i & x & ? & _). }
  rewrite elem_of_app, IH. split.
  - intros [He|(i & y & Hi & He)]; [by exists 0%nat, x|by exists (S i), y].
  - intros ([|i] & y & Hi & He); cbn in Hi; [left; congruence|right; eauto].
Qed.

(** Entries of the children left and right of the one a search follows. *)
Lemma separated_split kids i k key :
  separated kids → keys_sorted b_key (k_branch <$> kids) → kids !! i = Some k →
  ((0 < i)%nat → lex_le (b_key (k_branch k)) key) →
  (∀ k', kids !! S i = Some k' → lex_lt key (b_key (k_branch k'))) →
  (∀ e, e ∈ concat (k_entries <$> take i kids) → lex_lt (leaf_key e) key) ∧
  (∀ e, e ∈ concat (k_entries <$> drop (S i) kids) → lex_lt key (leaf_key e)).
Proof.
  intros Hsep Hs Hi Hlo Hhi.
  assert (∀ j1 j2 k1 k2, kids !! j1 = Some k1 → kids !! j2 = Some k2 → (j1 <= j2)%nat →
    lex_le (b_key (k_branch k1)) (b_key (k_branch k2))) as Hmono.
  { intros j1 j2 k1 k2 H1 H2 Hle. rewrite lex_le_alt. destruct (decide (j1 = j2)) as [->|]; [right; congruence|].
    left. eapply (keys_sorted_lookup b_key _ j1 j2 _ _ Hs); [by rewrite list_lookup_fmap, H1|by rewrite list_lookup_fmap, H2|lia]. }
  split; intros e (j & x & Hj & He)%elem_of_concat_fmap.
  - apply lookup_take_Some in Hj as [Hj Hlt]. destruct (Hsep j x e Hj He) as [_ Hnext].
    destruct (lookup_lt_is_Some_2 kids (S j)) as [k' Hk']; [apply lookup_lt_Some in Hi; lia|].
    eapply lex_lt_le_trans; [by apply Hnext|]. transitivity (b_key (k_branch k)).
    + eapply Hmono; [done|done|lia].
    + apply Hlo. lia.
  - rewrite lookup_drop in Hj. destruct (Hsep (S i + j)%nat x e Hj He) as [Hge _].
    destruct (lookup_lt_is_Some_2 kids (S i)) as [k' Hk']; [apply lookup_lt_Some in Hj; lia|].
    eapply lex_lt_le_trans; [by apply Hhi|]. transitivity (b_key (k_branch x)); [|apply Hge; lia].
    eapply Hmono; [done|done|lia].
Qed.

(** The pages a search for [key] visits from [p] down to the leaf page [lp]. *)
Inductive descent (b : InnerBucket) (key : bytes) : nat → PageID → list PageID → PageID → Prop :=
  | descent_leaf p ls : page_data b p = Ok (Leaves ls) → descent b key 0 p [p] p
  | descent_branch h p bs br path lp :
      page_data b p = Ok (Branches bs) →
      bs !! (data_index (Branches bs) key).1 = Some br → b_page br ≠ 0 →
      descent b key h (b_page br) path lp →
      descent b key (S h) p (p :: path) lp.

(** A tree only depends on the data of its own pages. *)
Lemma tree_ext b b' h p es ps :
  (∀ q, q ∈ ps → page_data b' q = page_data b q) → tree b h p es ps → tree b' h p es ps.
Proof.
  revert p es ps. induction h as [|h IH]; intros p es ps Hext; cbn [tree].
  - intros [Hd ->]. split; [|done]. rewrite Hext; [done|by left].
  - intros (kids & Hd & Hne & Hs & Hsep & Hall & -> & ->). exists kids.
    split_and!; try done; [rewrite Hext; [done|by left]|].
    rewrite Forall_lookup in Hall |- *. intros i k Hk. destruct (Hall i k Hk) as [? Ht]. split; [done|].
    apply IH; [|done]. intros q Hq. apply Hext. right. apply elem_of_concat_fmap. eauto.
Qed.

Lemma NoDup_concat_disjoint {A B} (f : A → list B) l i j x y e :
  NoDup (concat (f <$> l)) → l !! i = Some x → l !! j = Some y → e ∈ f x → e ∈ f y → i = j.
Proof.
  revert i j. induction l as [|z l IH]; intros i j Hnd Hi Hj Hx Hy; [done|].
  cbn in Hnd. apply NoDup_app in Hnd as (_ & Hdisj & Hnd).
  destruct i as [|i], j as [|j]; cbn in Hi, Hj; simplify_eq; [done| | |f_equal; by eapply IH].
  - exfalso. apply (Hdisj e); [done|]. apply elem_of_concat_fmap. eauto.
  - exfalso. apply (Hdisj e); [done|]. apply elem_of_concat_fmap. eauto.
Qed.

(** Replacing the entries of the child a search follows. *)
Lemma separated_insert kids i k k' key :
  separated kids → kids !! i = Some k → k_branch k' = k_branch k →
  ((0 < i)%nat → lex_le (b_key (k_branch k)) key) →
  (∀ x, kids !! S i = Some x → lex_lt key (b_key (k_branch x))) →
  (∀ e, e ∈ k_entries k' → e ∈ k_entries k ∨ leaf_key e = key) →
  separated (<[i := k']> kids).
Proof.
  intros Hsep Hi Ebr Hlo Hhi Hes j x e Hj He.
  assert (∀ y, <[i := k']> kids !! S j = Some y → ∃ y', kids !! S j = Some y' ∧ k_branch y' = k_branch y) as Hnext.
  { intros y [(<- & <- & _)|[_ Hy]]%list_lookup_insert_Some; [by exists k|by exists y]. }
  apply list_lookup_insert_Some in Hj as [(-> & -> & _)|[Hne Hj]].
  - rewrite Ebr. destruct (Hes e He) as [He'|<-].
    + destruct (Hsep j k e Hi He') as [H1 H2]. split; [done|]. intros y (y' & Hy' & <-)%Hnext. auto.
    + split; [done|]. intros y (y' & Hy' & <-)%Hnext. auto.
  - destruct (Hsep j x e Hj He) as [H1 H2]. split; [done|]. intros y (y' & Hy' & <-)%Hnext. auto.
Qed.

Lemma descent_last b key h p path lp : descent b key h p path lp → last path = Some lp.
Proof.
  induction 1 as [|h p bs br path lp _ _ _ Hd IH]; [done|]. rewrite last_cons, IH. done.
Qed.

Lemma elem_of_last {A} (l : list A) x : last l = Some x → x ∈ l.
Proof. intros [l' ->]%last_Some. set_solver. Qed.

Lemma NoDup_concat_part {A B} (f : A → list B) l i x :
  NoDup (concat (f <$> l)) → l !! i = Some x → NoDup (f x).
Proof.
  intros Hnd Hi. rewrite (concat_middle f l i x Hi) in Hnd.
  apply NoDup_app in Hnd as (_ & _ & Hnd). by apply NoDup_app in Hnd as [? _].
Qed.

(** A branch whose child [i] changed its entries, the other pages being as before. *)
Lemma tree_replace_kid b b' h p kids i k es' lp key :
  page_data b p = Ok (Branches (k_branch <$> kids)) →
  keys_sorted b_key (k_branch <$> kids) → separated kids →
  Forall (λ k, b_page (k_branch k) ≠ 0 ∧ tree b h (b_page (k_branch k)) (k_entries k) (k_pages k)) kids →
  kids !! i = Some k → ((0 < i)%nat → lex_le (b_key (k_branch k)) key) →
  (∀ x, kids !! S i = Some x → lex_lt key (b_key (k_branch x))) →
  NoDup (p :: concat (k_pages <$> kids)) → lp ∈ k_pages k →
  (∀ q, q ∈ p :: concat (k_pages <$> kids) → q ≠ lp → page_data b' q = page_data b q) →
  tree b' h (b_page (k_branch k)) es' (k_pages k) →
  (∀ e, e ∈ es' → e ∈ k_entries k ∨ leaf_key e = key) →
  tree b' (S h) p (concat (k_entries <$> take i kids) ++ es' ++ concat (k_entries <$> drop (S i) kids))
    (p :: concat (k_pages <$> kids)).
Proof.
  intros Hd Hs Hsep Hall Hi Hlo Hhi [Hp Hnd]%NoDup_cons Hlp Hext Ht' Hes.
  set (k' := mkKid (k_branch k) es' (k_pages k)). exists (<[i := k']> kids).
  assert (k_branch <$> <[i := k']> kids = k_branch <$> kids) as ->.
  { rewrite list_fmap_insert. apply list_insert_id. by rewrite list_lookup_fmap, Hi. }
  apply lookup_lt_Some in Hi as Hlt.
  assert (<[i := k']> kids !! i = Some k') as Hi' by (by apply list_lookup_insert_eq).
  rewrite Forall_lookup in Hall. split_and!; [| |done| | | |].
  - rewrite Hext; [done|by left|]. intros ->. apply Hp, elem_of_concat_fmap. eauto.
  - destruct kids; [done|]. by destruct i.
  - by eapply separated_insert.
  - apply Forall_lookup. intros j x [(-> & <- & _)|[Hne Hj]]%list_lookup_insert_Some; cbn.
    + split; [exact (proj1 (Hall j k Hi))|exact Ht'].
    + destruct (Hall j x Hj) as [? Htx]. split; [done|]. eapply tree_ext; [|done].
      intros q Hq. apply Hext; [right; apply elem_of_concat_fmap; eauto|]. intros ->. apply Hne.
      by eapply (NoDup_concat_disjoint k_pages).
  - rewrite (concat_middle k_entries _ i _ Hi'). by rewrite take_insert_ge, drop_insert_lt by lia.
  - f_equal. rewrite (concat_middle k_pages _ i _ Hi'), (concat_middle k_pages kids i k Hi).
    by rewrite take_insert_ge, drop_insert_lt by lia.
Qed.

(** What a search for [key] finds in a tree: the leaf page, the entries on both
    sides of it, and how the tree changes when only that leaf changes. *)
Lemma tree_descend b key h p es ps :
  tree b h p es ps →
  ∃ path lp ls A C,
    descent b key h p path lp ∧ page_data b lp = Ok (Leaves ls) ∧ es = A ++ ls ++ C ∧
    (∀ e, e ∈ A → lex_lt (leaf_key e) key) ∧ (∀ e, e ∈ C → lex_lt key (leaf_key e)) ∧
    (∀ q, q ∈ path → q ∈ ps) ∧ (NoDup ps → NoDup path) ∧
    (∀ b' ls', NoDup ps → (∀ q, q ∈ ps → q ≠ lp → page_data b' q = page_data b q) →
       page_data b' lp = Ok (Leaves ls') → (∀ e, e ∈ ls' → e ∈ ls ∨ leaf_key e = key) →
       tree b' h p (A ++ ls' ++ C) ps).
Proof.
  revert p es ps. induction h as [|h IH]; intros p es ps; cbn [tree].
  { intros [Hd ->]. exists [p], p, es, [], []. rewrite app_nil_r. split_and!; try done;
      [by eapply descent_leaf|by intros e ?%elem_of_nil|by intros e ?%elem_of_nil|].
    intros b' ls' _ _ Hd' _. by rewrite app_nil_r. }
  intros (kids & Hd & Hne & Hs & Hsep & Hall & -> & ->).
  destruct (data_index_branches (k_branch <$> kids) key Hs) as (br & Hbr & Hlo & Hhi); [by destruct kids|].
  pose proof Hbr as Hbr'. set (i := (data_index (Branches (k_branch <$> kids)) key).1) in *.
  rewrite list_lookup_fmap in Hbr. destruct (kids !! i) as [k|] eqn:Hi; [|done]. cbn in Hbr. injection Hbr as <-.
  assert (∀ k', kids !! S i = Some k' → lex_lt key (b_key (k_branch k'))) as Hhi'.
  { intros k' Hk'. apply Hhi. by rewrite list_lookup_fmap, Hk'. }
  destruct (separated_split kids i k key) as [HA HC]; try done.
  pose proof Hall as Hall'. rewrite Forall_lookup in Hall'. destruct (Hall' i k Hi) as [Hnz Ht].
  destruct (IH _ _ _ Ht) as (path & lp & ls & A & C & Hdesc & Hld & Hes & HA' & HC' & Hpath & Hnd & Hhole).
  exists (p :: path), lp, ls, (concat (k_entries <$> take i kids) ++ A), (C ++ concat (k_entries <$> drop (S i) kids)).
  assert (∀ q, q ∈ k_pages k → q ∈ concat (k_pages <$> kids)) as Hsub by (intros q Hq; apply elem_of_concat_fmap; eauto).
  assert (lp ∈ k_pages k) as Hlp by (by eapply Hpath, elem_of_last, descent_last).
  split_and!; try done.
  - by econstructor.
  - rewrite (concat_middle k_entries kids i k Hi), Hes, <-!app_assoc. done.
  - intros e [?|?]%elem_of_app; auto.
  - intros e [?|?]%elem_of_app; auto.
  - intros q [->|Hq]%elem_of_cons; [by left|]. right. auto.
  - intros [Hp Hndc]%NoDup_cons. constructor; [intros Hin; apply Hp; auto|]. by eapply Hnd, NoDup_concat_part.
  - intros b' ls' Hnd' Hext Hld' Hsub'. rewrite <-!app_assoc, (app_assoc A), (app_assoc (A ++ ls')), <-(app_assoc A).
    eapply (tree_replace_kid b b' h p kids i k); try done.
    + apply NoDup_cons in Hnd' as [_ Hndc]. apply Hhole; [by eapply NoDup_concat_part| |done|done].
      intros q Hq Hql. apply Hext; [right; auto|done].
    + rewrite Hes. intros e [?|[He|?]%elem_of_app]%elem_of_app; [left; set_solver| |left; set_solver].
      destruct (Hsub' e He); [left; set_solver|by right].
Qed.

(** ** Searches *)

Lemma page_data_inv b p d :
  page_data b p = Ok d → ∃ pn, page_node b (PPage p) = Ok pn ∧ pn_data (pg_data (ib_pages b)) pn = Ok d.
Proof. unfold page_data. intros (pn & ? & ?)%res_bind_Ok. eauto. Qed.

(** The parents a search records along its path. *)
Fixpoint record_parents (path : list PageID) (pp : gmap PageID PageID) : gmap PageID PageID :=
  match path with
  | p :: (q :: _) as rest => record_parents rest (<[q := p]> pp)
  | _ => pp
  end.

Lemma search_descent b key h p path lp :
  descent b key h p path lp →
  ∃ pn ls, page_node b (PPage lp) = Ok pn ∧ pn_data (pg_data (ib_pages b)) pn = Ok (Leaves ls) ∧
    page_data b lp = Ok (Leaves ls) ∧
    let r := data_index (Leaves ls) key in
    let last := mkPath r.1 (pn_id (pg_data (ib_pages b)) pn) in
    ∀ fuel, (h < fuel)%nat →
      search_leaf fuel key p b = Ok (r.2, last) ∧
      ∀ pp stack, ∃ stack', search fuel key p (with_page_parents b pp) stack
        = Ok (r.2, stack' ++ [last], with_page_parents b (record_parents path pp)).
Proof.
  induction 1 as [p ls Hd|h p bs br path lp Hd Hbr Hnz Hdesc IH].
  - pose proof Hd as (pn & Hpn & Hdat)%page_data_inv. exists pn, ls. split_and!; try done.
    intros r last_ [|fuel] Hf; [lia|]. split.
    + cbn [search_leaf]. rewrite Hpn. cbn [mbind res_bind].
      rewrite (pn_index_data _ pn _ Hdat), (pn_leaf_data _ pn _ Hdat). cbn [mbind res_bind].
      fold r. by destruct r.
    + intros pp stack. exists stack. cbn [search]. change (page_node (with_page_parents b pp) (PPage p)) with (page_node b (PPage p)).
      rewrite Hpn. cbn [mbind res_bind ib_pages with_page_parents].
      rewrite (pn_index_data _ pn _ Hdat), (pn_leaf_data _ pn _ Hdat). cbn [mbind res_bind].
      fold r. by destruct r.
  - destruct IH as (pnl & ls & Hpnl & Hdl & Hld & IH). exists pnl, ls. split_and!; try done.
    intros r last_ [|fuel] Hf; [lia|]. destruct (IH fuel) as [IHl IHs]; [lia|].
    pose proof Hd as (pn & Hpn & Hdat)%page_data_inv.
    pose proof (pn_index_page_data _ pn _ Hdat (data_index (Branches bs) key).1) as Hip. cbv beta iota in Hip. rewrite Hbr in Hip.
    split.
    + cbn [search_leaf]. rewrite Hpn. cbn [mbind res_bind].
      rewrite (pn_index_data _ pn _ Hdat), (pn_leaf_data _ pn _ Hdat).
      destruct (data_index (Branches bs) key) as [i ex]. cbn [fst mbind res_bind] in *. rewrite Hip. cbn [mbind res_bind].
      by rewrite (proj2 (Z.eqb_neq _ _)) by done.
    + intros pp stack. cbn [search]. change (page_node (with_page_parents b pp) (PPage p)) with (page_node b (PPage p)).
      rewrite Hpn. cbn [mbind res_bind ib_pages with_page_parents].
      rewrite (pn_index_data _ pn _ Hdat), (pn_leaf_data _ pn _ Hdat).
      destruct (data_index (Branches bs) key) as [i ex]. cbn [fst mbind res_bind] in *. rewrite Hip. cbn [mbind res_bind].
      rewrite (proj2 (Z.eqb_neq _ _)) by done.
      destruct (IHs (<[b_page br := p]> pp) (stack ++ [mkPath i (pn_id (pg_data (ib_pages b)) pn)])) as [stack' Hs].
      exists stack'. unfold add_page_parent. cbn [ib_page_parents with_page_parents].
      change (with_page_parents (with_page_parents b pp) (<[b_page br:=p]> pp)) with (with_page_parents b (<[b_page br:=p]> pp)).
      rewrite Hs. destruct Hdesc; done.
Qed.

Lemma node_page_id file id pagesize p : node_page file id pagesize = Ok p → page_id_at file p = id.
Proof.
  unfold node_page, validate_structure, validate_span. intros H. res_inv.
  repeat match goal with
  | H : (let '(_, _) := ?x in _) = Ok _ |- _ => destruct x; res_inv
  | H : negb _ = false |- _ => apply negb_false_iff in H
  end. bool_to_prop. simplify_eq. done.
Qed.

(** Nodes of the bucket's vector know their index, and pages do not share one. *)
Definition store_ok (b : InnerBucket) : Prop :=
  (∀ p nid, ib_page_node_ids b !! p = Some nid →
     0 <= nid ∧ ∃ n, ib_nodes b !! Z.to_nat nid = Some n ∧ n_id n = nid) ∧
  (∀ p p' nid, ib_page_node_ids b !! p = Some nid → ib_page_node_ids b !! p' = Some nid → p = p').

Lemma page_node_id b p pn :
  store_ok b → page_node b (PPage p) = Ok pn → page_node b (pn_id (pg_data (ib_pages b)) pn) = Ok pn.
Proof.
  intros [Hst _] Hpn. pose proof Hpn as Hpn'. cbn [page_node] in Hpn.
  destruct (ib_page_node_ids b !! p) as [nid|] eqn:E.
  - destruct (Hst p nid E) as (H0 & n & Hn & <-). unfold node_at in *. rewrite Hn in Hpn. cbn in Hpn. injection Hpn as <-.
    cbn. unfold node_at. by rewrite Hn.
  - unfold inner_node_page in Hpn. res_inv. cbn [pn_id]. by rewrite (node_page_id _ _ _ _ E0).
Qed.

(** A bucket whose pages and nodes form a tree with these entries. *)
Record bucket_wf (b : InnerBucket) (h : nat) (es : list Leaf) (ps : list PageID) : Prop := {
  wf_tree : tree b h (root_of b) es ps;
  wf_pages : NoDup ps;
  wf_sorted : keys_sorted leaf_key es;
  wf_store : store_ok b;
  wf_nonempty : ∀ q, q ∈ ps → q ≠ root_of b → ib_page_node_ids b !! q = None → page_data b q ≠ Ok (Leaves [])
}.

Lemma assoc_middle {A} (key : A → bytes) l1 l l2 k :
  (∀ e, e ∈ l1 → lex_lt (key e) k) → (∀ e, e ∈ l2 → lex_lt k (key e)) →
  assoc key (l1 ++ l ++ l2) k = assoc key l k.
Proof.
  intros H1 H2. rewrite !assoc_app.
  rewrite (proj2 (assoc_None key l1 k)), (proj2 (assoc_None key l2 k)).
  - by destruct (assoc key l k).
  - intros e He E. apply (lex_lt_irrefl k). rewrite <-E at 2. auto.
  - intros e He E. apply (lex_lt_irrefl k). rewrite <-E at 1. auto.
Qed.

(** The search result on a sorted leaf, as a lookup. *)
Lemma data_index_assoc ls key :
  keys_sorted leaf_key ls →
  let r := data_index (Leaves ls) key in
  if r.2 then ls !! r.1 = assoc leaf_key ls key ∧ is_Some (ls !! r.1) else assoc leaf_key ls key = None.
Proof.
  intros Hs. cbn. rewrite (binary_search_assoc leaf_key ls key Hs).
  pose proof (binary_search_ok leaf_key ls key Hs) as Hok.
  destruct (binary_search_by_key leaf_key ls key) as [i|i]; cbn; [|done].
  destruct Hok as (e & -> & _). done.
Qed.

Lemma keys_sorted_middle {A} (key : A → bytes) l1 l l2 : keys_sorted key (l1 ++ l ++ l2) → keys_sorted key l.
Proof. intros (_ & _ & (_ & ? & _)%keys_sorted_app)%keys_sorted_app. done. Qed.

Lemma inner_get_assoc fuel b h es ps key :
  bucket_wf b h es ps → (h < fuel)%nat → inner_get fuel b key = Ok (assoc leaf_key es key).
Proof.
  intros [Ht _ Hs Hst _] Hf.
  destruct (tree_descend b key h _ es ps Ht) as (path & lp & ls & A & C & Hdesc & Hld & -> & HA & HC & _).
  destruct (search_descent b key h _ path lp Hdesc) as (pn & ls' & Hpn & Hdat & Hld' & Hsearch).
  assert (ls' = ls) as -> by congruence. destruct (Hsearch fuel Hf) as [Hl _]. unfold inner_get. rewrite Hl. cbn [mbind res_bind].
  rewrite assoc_middle by done. pose proof (data_index_assoc ls key (keys_sorted_middle _ _ _ _ Hs)) as Hr. cbv zeta in Hr.
  destruct (data_index (Leaves ls) key) as [i [|]]; cbn [fst snd sp_id sp_index] in *.
  - rewrite (page_node_id b lp pn Hst Hpn). cbn [mbind res_bind].
    rewrite (pn_val_data _ pn _ Hdat i ls) by done. by destruct Hr as [-> _].
  - by rewrite Hr.
Qed.

(** [InnerBucket::get] is the lookup of the ordered map the tree holds.  On a
    well-formed bucket, whatever mix of mapped pages and materialised nodes it is,
    with fuel above the tree's height, [get] finds exactly the entry with the key,
    or nothing. *)
Theorem get_refines_lookup (fuel : nat) (b : InnerBucket) (h : nat) (es : list Leaf) (ps : list PageID) (key : bytes) :
  bucket_wf b h es ps → (h < fuel)%nat → inner_get fuel b key = Ok (leaf_map es !! key).
Proof. intros Hwf Hf. rewrite leaf_map_assoc. by eapply inner_get_assoc. Qed.

(** ** Materialising pages keeps the tree *)

(** What reading a page depends on. *)
Lemma page_data_unfold b q :
  page_data b q =
  match ib_page_node_ids b !! q with
  | Some nid => n ← node_at b nid; Ok (n_data n)
  | None => p ← inner_node_page b q; data_from_page (pg_data (ib_pages b)) p
  end.
Proof.
  unfold page_data. cbn [page_node]. destruct (ib_page_node_ids b !! q) as [nid|].
  - by destruct (node_at b nid).
  - by destruct (inner_node_page b q).
Qed.

(** [b'] reads the same as [b] and has at least its nodes. *)
Record extends (b b' : InnerBucket) : Prop := {
  ext_meta : ib_meta b' = ib_meta b;
  ext_pages : ib_pages b' = ib_pages b;
  ext_parents : ib_page_parents b' = ib_page_parents b;
  ext_buckets : ib_buckets b' = ib_buckets b;
  ext_deleted : ib_deleted b' = ib_deleted b;
  ext_dirty : ib_dirty b' = ib_dirty b;
  ext_data : ∀ q, page_data b' q = page_data b q;
  ext_ids : ib_page_node_ids b ⊆ ib_page_node_ids b';
  ext_store : store_ok b → store_ok b'
}.

#[global] Instance extends_preorder : PreOrder extends.
Proof.
  split.
  - intros b. by split.
  - intros b1 b2 b3 [] []. split; [congruence..| | |auto].
    + intros q. congruence.
    + by etrans.
Qed.

(** Changing the links of a node but not its data. *)
Lemma extends_update b nid n n' :
  ib_nodes b !! Z.to_nat nid = Some n → n_data n' = n_data n → n_id n' = n_id n → extends b (update_node b nid n').
Proof.
  intros Hn Ed Ei. assert (Z.to_nat nid < length (ib_nodes b))%nat as Hlt by (by eapply lookup_lt_Some).
  assert (∀ i m, ib_nodes b !! i = Some m → ∃ m', ib_nodes (update_node b nid n') !! i = Some m' ∧
    n_data m' = n_data m ∧ n_id m' = n_id m) as Hup.
  { intros i m Hm. cbn. destruct (decide (i = Z.to_nat nid)) as [->|Hne].
    - exists n'. rewrite list_lookup_insert_eq by done. simplify_eq. done.
    - exists m. rewrite list_lookup_insert_ne by done. done. }
  split; try done.
  - intros q. rewrite !page_data_unfold. cbn [ib_page_node_ids update_node with_nodes ib_pages].
    destruct (ib_page_node_ids b !! q) as [i|]; [|done]. unfold node_at.
    destruct (ib_nodes b !! Z.to_nat i) as [m|] eqn:Em.
    + destruct (Hup _ _ Em) as (m' & -> & Hd & _). cbn. by rewrite Hd.
    + cbn [ib_nodes update_node with_nodes]. rewrite list_lookup_insert_ne, Em; [done|]. intros ?. congruence.
  - intros [Hst Hinj]. split; [|done]. intros p i Hp. destruct (Hst p i Hp) as (H0 & m & Hm & Hi). split; [done|].
    destruct (Hup _ _ Hm) as (m' & Hm' & _ & Hi'). exists m'. split; [done|congruence].
Qed.

(** Decoding a page into a new node. *)
Definition push_node (b : InnerBucket) (page : PageID) (n : Node) : InnerBucket :=
  with_nodes (with_page_node_ids b (<[page := Z.of_nat (length (ib_nodes b))]> (ib_page_node_ids b)))
    (ib_nodes b ++ [n]).

Lemma extends_push b page n :
  store_ok b → ib_page_node_ids b !! page = None → page_data b page = Ok (n_data n) →
  n_id n = Z.of_nat (length (ib_nodes b)) → extends b (push_node b page n).
Proof.
  intros [Hst Hinj] Hnone Hd Hid. split; try done.
  - intros q. destruct (decide (q = page)) as [->|Hne].
    + rewrite page_data_unfold. cbn [ib_page_node_ids push_node with_nodes with_page_node_ids]. rewrite lookup_insert_eq.
      unfold node_at. cbn [ib_nodes push_node with_nodes with_page_node_ids]. rewrite Nat2Z.id, lookup_app_r, Nat.sub_diag by done. done.
    + rewrite !page_data_unfold. cbn [ib_page_node_ids push_node with_nodes with_page_node_ids]. rewrite lookup_insert_ne by done.
      destruct (ib_page_node_ids b !! q) as [i|] eqn:E; [|done]. unfold node_at.
      cbn [ib_nodes push_node with_nodes with_page_node_ids]. destruct (Hst q i E) as (_ & m & Hm & _).
      rewrite lookup_app_l by (by eapply lookup_lt_Some). done.
  - cbn. by apply insert_subseteq.
  - intros _. split; cbn.
    + intros p i [[-> <-]|[Hne Hp]]%lookup_insert_Some.
      * split; [lia|]. exists n. rewrite Nat2Z.id, lookup_app_r, Nat.sub_diag by done. done.
      * destruct (Hst p i Hp) as (H0 & m & Hm & Hi). split; [done|]. exists m.
        rewrite lookup_app_l by (by eapply lookup_lt_Some). done.
    + assert (∀ p i, ib_page_node_ids b !! p = Some i → i ≠ Z.of_nat (length (ib_nodes b))) as Hlt.
      { intros p i Hp ->. destruct (Hst p _ Hp) as (_ & m & Hm%lookup_lt_Some & _). lia. }
      intros p p' i [[-> <-]|[Hne Hp]]%lookup_insert_Some [[-> Hi]|[Hne' Hp']]%lookup_insert_Some; try done.
      * by eapply Hlt in Hp'.
      * subst i. by eapply Hlt in Hp.
      * by eapply Hinj.
Qed.

(** A page reached from the root through recorded parents. *)
Inductive rooted (b : InnerBucket) : nat → PageID → Prop :=
  | rooted_root : rooted b 0 (root_of b)
  | rooted_step n p q bs :
      p ≠ root_of b → ib_page_parents b !! p = Some q → page_data b q = Ok (Branches bs) → bs ≠ [] →
      rooted b n q → rooted b (S n) p.

Lemma rooted_extends b b' n p : extends b b' → rooted b n p → rooted b' n p.
Proof.
  intros Hext. induction 1 as [|n p q bs Hne Hp Hd Hbs _ IH].
  - assert (root_of b = root_of b') as -> by (unfold root_of; by rewrite (ext_meta _ _ Hext)). constructor.
  - econstructor; [|by rewrite (ext_parents _ _ Hext)|by rewrite (ext_data _ _ Hext)|done|done].
    unfold root_of. by rewrite (ext_meta _ _ Hext).
Qed.

Lemma link_child_ok b pid nid key pn n bs :
  ib_nodes b !! Z.to_nat pid = Some pn → n_data pn = Branches bs → ib_nodes b !! Z.to_nat nid = Some n →
  ∃ b', link_child b pid nid key = Ok b' ∧ extends b b' ∧ ib_page_node_ids b' = ib_page_node_ids b.
Proof.
  intros Hp Hd Hn. unfold link_child, node_at, insert_child. rewrite Hp. cbn [unwrap mbind res_bind]. rewrite Hd. cbn [mbind res_bind].
  set (pn' := set_children pn _). assert (extends b (update_node b pid pn')) as He1 by (by apply (extends_update b pid pn)).
  assert (∃ n1, ib_nodes (update_node b pid pn') !! Z.to_nat nid = Some n1) as [n1 Hn1].
  { cbn. destruct (decide (Z.to_nat pid = Z.to_nat nid)) as [<-|Hne].
    - exists pn'. apply list_lookup_insert_eq. by eapply lookup_lt_Some.
    - exists n. by rewrite list_lookup_insert_ne. }
  rewrite Hn1. cbn [unwrap mbind res_bind]. eexists. split; [done|]. split; [|done].
  etrans; [exact He1|]. by apply (extends_update _ nid n1).
Qed.


Lemma node_known b p i fuel d :
  store_ok b → page_data b p = Ok d → ib_page_node_ids b !! p = Some i →
  ∃ nd, node (S fuel) b (PPage p) None = Ok (i, b) ∧ ib_nodes b !! Z.to_nat i = Some nd ∧ n_data nd = d.
Proof.
  intros [Hst _] Hd Hi. destruct (Hst p i Hi) as (_ & m & Hm & _). exists m.
  rewrite page_data_unfold, Hi in Hd. unfold node_at in Hd. rewrite Hm in Hd. cbn in Hd. injection Hd as <-.
  cbn [node]. rewrite Hi. unfold node_at. by rewrite Hm.
Qed.

Lemma node_decode b p d nid :
  ib_page_node_ids b !! p = None → page_data b p = Ok d →
  ∃ q nd, inner_node_page b p = Ok q ∧
    from_page nid (pg_data (ib_pages b)) q (pg_pagesize (ib_pages b)) = Ok nd ∧ n_data nd = d ∧ n_id nd = nid.
Proof.
  intros Hn Hd. rewrite page_data_unfold, Hn in Hd. destruct (inner_node_page b p) as [q| |] eqn:Eq; [|done..].
  cbn in Hd. destruct (from_page_data nid _ q (pg_pagesize (ib_pages b)) d Hd) as (nd & Hfp & <- & _).
  exists q, nd. split_and!; try done. unfold from_page in Hfp. by res_inv.
Qed.

Lemma data_first_key_ok d : (0 < data_len d)%nat → ∃ k, data_first_key d = Ok k.
Proof. destruct d as [[|b bs]|[|l ls]]; cbn; try lia; eauto. Qed.

(** [InnerBucket::node] on a page that a search reached: it returns a node with
    the page's data and changes nothing else a reader can see. *)
Lemma node_materialise b n p fuel d :
  store_ok b → rooted b n p → (n < fuel)%nat → page_data b p = Ok d →
  (p ≠ root_of b → ib_page_node_ids b !! p = None → (0 < data_len d)%nat) →
  ∃ nid b' nd, node fuel b (PPage p) None = Ok (nid, b') ∧ extends b b' ∧
    ib_page_node_ids b' !! p = Some nid ∧ ib_nodes b' !! Z.to_nat nid = Some nd ∧ n_data nd = d.
Proof.
  revert b p fuel d. induction n as [|n IH]; intros b p fuel d Hst Hr Hf Hd Hne.
  all: destruct fuel as [|fuel]; [lia|].
  all: destruct (ib_page_node_ids b !! p) as [i|] eqn:Hi;
    [destruct (node_known b p i fuel d Hst Hd Hi) as (nd & ? & ? & ?); exists i, b, nd; by split_and!|].
  all: destruct (node_decode b p d (Z.of_nat (length (ib_nodes b))) Hi Hd) as (q & nd & Hq & Hfp & <- & Hid).
  all: pose proof (extends_push b p nd Hst Hi Hd Hid) as He1.
  all: assert (ib_page_node_ids (push_node b p nd) !! p = Some (Z.of_nat (length (ib_nodes b)))) as Hp1
    by (apply lookup_insert_eq).
  all: assert (ib_nodes (push_node b p nd) !! length (ib_nodes b) = Some nd) as Hn1
    by (cbn; by rewrite lookup_app_r, Nat.sub_diag by done).
  - inversion Hr as [E|]; subst p. exists (Z.of_nat (length (ib_nodes b))), (push_node b (root_of b) nd), nd.
    rewrite Nat2Z.id. split_and!; try done. cbn [node]. rewrite Hi, Z.eqb_refl, Hq. cbn [negb andb fail_if mbind res_bind ib_pages with_page_node_ids].
    rewrite Hfp. cbn [mbind res_bind]. unfold root_of at 1. cbn [ib_meta with_nodes with_page_node_ids]. by rewrite Z.eqb_refl.
  - inversion Hr as [|n' p' pp bs Hnr Hpp Hpd Hbs Hrq]; subst n' p'.
    destruct (IH (push_node b p nd) pp fuel (Branches bs)) as (pid & b2 & pnd & Hnode & He2 & Hpid & Hpn & Hpdat).
    + by apply (ext_store _ _ He1).
    + by eapply rooted_extends.
    + lia.
    + by rewrite (ext_data _ _ He1).
    + intros _ _. destruct bs; [done|cbn; lia].
    + assert (extends b b2) as He12 by (by etrans).
      pose proof (lookup_weaken _ _ _ _ Hp1 (ext_ids _ _ He2)) as Hp2.
      destruct (node_known b2 p (Z.of_nat (length (ib_nodes b))) 0 (n_data nd)) as (nd2 & _ & Hn2 & Hd2); [by apply (ext_store _ _ He12)|by rewrite (ext_data _ _ He12)|done|].
      destruct (data_first_key_ok (n_data nd)) as [key Hkey]; [by apply Hne|].
      destruct (link_child_ok b2 pid (Z.of_nat (length (ib_nodes b))) key pnd nd2 bs Hpn Hpdat Hn2) as (b3 & Hlink & He3 & Hids).
      assert (extends b b3) as He13 by (by etrans).
      destruct (node_known b3 p (Z.of_nat (length (ib_nodes b))) 0 (n_data nd)) as (nd3 & _ & Hn3 & Hd3);
        [by apply (ext_store _ _ He13)|by rewrite (ext_data _ _ He13)|by rewrite Hids|].
      exists (Z.of_nat (length (ib_nodes b))), b3, nd3. split_and!; try done; [|by rewrite Hids].
      cbn [node]. assert ((root_of b =? p) = false) as Hneq by (by apply Z.eqb_neq). rewrite Hi, Hneq. rewrite bool_decide_false by (by rewrite Hpp).
      cbn [negb andb fail_if mbind res_bind]. rewrite Hq. cbn [mbind res_bind ib_pages with_page_node_ids]. rewrite Hfp. cbn [mbind res_bind].
      change (root_of (with_nodes _ _)) with (root_of b). rewrite Hneq.
      rewrite Hkey. cbn [mbind res_bind ib_page_parents with_nodes with_page_node_ids]. rewrite Hpp. cbn [unwrap mbind res_bind].
      change (with_nodes (with_page_node_ids b _) _) with (push_node b p nd). rewrite Hnode. cbn [mbind res_bind]. by rewrite Hlink.
Qed.

(** ** Editing the leaf a search reached *)

Lemma record_parents_lookup path pp q :
  q ∉ tail path → record_parents path pp !! q = pp !! q.
Proof.
  revert pp. induction path as [|p [|c rest] IH]; intros pp Hq; [done..|].
  change (record_parents (p :: c :: rest) pp) with (record_parents (c :: rest) (<[c := p]> pp)).
  cbn [tail] in Hq. rewrite IH by (cbn; set_solver).
  apply lookup_insert_ne. set_solver.
Qed.

Lemma descent_head b key h p path lp : descent b key h p path lp → ∃ rest, path = p :: rest.
Proof. intros []; eauto. Qed.

Lemma rooted_path b key h p path lp :
  descent b key h p path lp → NoDup path → root_of b ∉ tail path → ∀ pp k,
  let b1 := with_page_parents b (record_parents path pp) in rooted b1 k p → rooted b1 (k + h) lp.
Proof.
  induction 1 as [p ls Hd|h p bs br path lp Hd Hbr Hnz Hdesc IH]; intros Hnd Hroot pp k b1 Hr.
  { by rewrite Nat.add_0_r. }
  destruct (descent_head _ _ _ _ _ _ Hdesc) as [rest ->]. apply NoDup_cons in Hnd as [Hp Hnd].
  cbn [tail] in Hroot. rewrite <-Nat.add_succ_comm.
  apply (IH Hnd) with (pp := <[b_page br := p]> pp); [set_solver|].
  econstructor; [|idtac|exact Hd| |exact Hr].
  - change (b_page br ≠ root_of b). set_solver.
  - cbn [ib_page_parents with_page_parents b1]. rewrite record_parents_lookup; [apply lookup_insert_eq|].
    cbn. by apply NoDup_cons in Hnd as [? _].
  - intros ->. done.
Qed.

Lemma extends_parents_data b pp q : page_data (with_page_parents b pp) q = page_data b q.
Proof. done. Qed.

Lemma store_parents b pp : store_ok b → store_ok (with_page_parents b pp).
Proof. done. Qed.

(** The node behind the search's last path element. *)
Lemma node_of_search b n lp pn ls fuel :
  store_ok b → rooted b n lp → (n < fuel)%nat →
  page_node b (PPage lp) = Ok pn → pn_data (pg_data (ib_pages b)) pn = Ok (Leaves ls) →
  (lp ≠ root_of b → ib_page_node_ids b !! lp = None → ls ≠ []) →
  ∃ nid b' nd, node fuel b (pn_id (pg_data (ib_pages b)) pn) None = Ok (nid, b') ∧ extends b b' ∧
    ib_page_node_ids b' !! lp = Some nid ∧ ib_nodes b' !! Z.to_nat nid = Some nd ∧ n_data nd = Leaves ls.
Proof.
  intros Hst Hr Hf Hpn Hdat Hne. destruct (ib_page_node_ids b !! lp) as [i|] eqn:Hi.
  - pose proof Hst as [Hst' _]. destruct (Hst' lp i Hi) as (H0 & m & Hm & Hid).
    cbn [page_node] in Hpn. rewrite Hi in Hpn. unfold node_at in Hpn. rewrite Hm in Hpn. cbn in Hpn. injection Hpn as <-.
    cbn in Hdat. injection Hdat as Hdat. exists i, b, m. destruct fuel as [|fuel]; [lia|]. cbn [pn_id node]. rewrite Hid.
    unfold node_at. rewrite Hm. split_and!; try done.
  - pose proof Hpn as Hpn'. cbn [page_node] in Hpn. rewrite Hi in Hpn. unfold inner_node_page in Hpn. res_inv.
    cbn [pn_id]. rewrite (node_page_id _ _ _ _ E). apply (node_materialise b n lp fuel (Leaves ls)); try done.
    + unfold page_data. rewrite Hpn'. done.
    + intros H1 _. destruct ls; [by destruct Hne|cbn; lia].
Qed.

(** Replacing the data of one node. *)
Lemma update_data b lp nid nd ls' :
  store_ok b → ib_page_node_ids b !! lp = Some nid → ib_nodes b !! Z.to_nat nid = Some nd →
  let b' := update_node b nid (set_data nd (Leaves ls')) in
  store_ok b' ∧ page_data b' lp = Ok (Leaves ls') ∧ (∀ q, q ≠ lp → page_data b' q = page_data b q).
Proof.
  intros [Hst Hinj] Hlp Hnd b'. apply lookup_lt_Some in Hnd as Hlt.
  assert (ib_nodes b' !! Z.to_nat nid = Some (set_data nd (Leaves ls'))) as Hnew by (by apply list_lookup_insert_eq).
  assert (∀ i, i ≠ Z.to_nat nid → ib_nodes b' !! i = ib_nodes b !! i) as Hold
    by (intros i ?; by apply list_lookup_insert_ne).
  split_and!.
  - split; [|done]. intros p i Hp. destruct (Hst p i Hp) as (H0 & m & Hm & Hi). split; [done|].
    destruct (decide (Z.to_nat i = Z.to_nat nid)) as [E|Hne].
    + exists (set_data nd (Leaves ls')). rewrite E in *. split; [done|]. cbn. congruence.
    + exists m. by rewrite Hold.
  - rewrite page_data_unfold. change (ib_page_node_ids b') with (ib_page_node_ids b). rewrite Hlp.
    unfold node_at. by rewrite Hnew.
  - intros q Hq. rewrite !page_data_unfold. change (ib_page_node_ids b') with (ib_page_node_ids b).
    destruct (ib_page_node_ids b !! q) as [i|] eqn:E; [|done]. unfold node_at. rewrite Hold; [done|].
    destruct (Hst q i E) as (H0 & _), (Hst lp nid Hlp) as (H0' & _). intros E'. assert (i = nid) as -> by lia.
    by eapply Hq, Hinj.
Qed.

Lemma ordered_put_middle l1 l l2 x :
  keys_sorted leaf_key (l1 ++ l ++ l2) →
  (∀ e, e ∈ l1 → lex_lt (leaf_key e) (leaf_key x)) → (∀ e, e ∈ l2 → lex_lt (leaf_key x) (leaf_key e)) →
  ordered_put leaf_key (l1 ++ l ++ l2) x = l1 ++ ordered_put leaf_key l x ++ l2.
Proof.
  intros Hs H1 H2. pose proof (keys_sorted_middle _ _ _ _ Hs) as Hsl.
  pose proof Hs as (Hc1 & Hs1 & (Hc2 & _ & Hs2)%keys_sorted_app)%keys_sorted_app.
  apply (sorted_assoc_ext leaf_key).
  - by apply ordered_put_sorted.
  - apply keys_sorted_app. rewrite keys_sorted_app. split_and!; auto using ordered_put_sorted.
    + intros a c Ha [Hc|Hc]%elem_of_app; [|by apply Hc1; [|set_solver]].
      apply elem_of_ordered_put in Hc as [->|[Hc _]]; [auto| |done]. apply Hc1; [done|set_solver].
    + intros a c [->|[Ha _]]%elem_of_ordered_put Hc; auto.
  - intros k. rewrite assoc_ordered_put by done. rewrite !assoc_app, assoc_ordered_put by done.
    case_decide as E; [|done]. subst k. 
    rewrite (proj2 (assoc_None leaf_key l1 _)); [done|]. intros e He E. apply (lex_lt_irrefl (leaf_key x)).
    rewrite <-E at 1. auto.
Qed.

(** Buckets that only differ in what a reader of the tree does not see. *)
Record same_tree (b b' : InnerBucket) : Prop := {
  st_root : root_of b' = root_of b;
  st_nodes : ib_nodes b' = ib_nodes b;
  st_ids : ib_page_node_ids b' = ib_page_node_ids b;
  st_parents : ib_page_parents b' = ib_page_parents b;
  st_pages : ib_pages b' = ib_pages b
}.

Lemma same_tree_page_node b b' id : same_tree b b' → page_node b' id = page_node b id.
Proof.
  intros [Hr Hn Hi Hp Hg]. unfold page_node, node_at, inner_node_page. rewrite Hn, Hi, Hg. done.
Qed.

Lemma same_tree_data b b' q : same_tree b b' → page_data b' q = page_data b q.
Proof. intros Hs. unfold page_data. rewrite (same_tree_page_node b b') by done. by rewrite (st_pages _ _ Hs). Qed.

Lemma same_tree_store b b' : same_tree b b' → store_ok b → store_ok b'.
Proof. intros [_ Hn Hi _ _]. unfold store_ok. by rewrite Hn, Hi. Qed.

Lemma same_tree_rooted b b' n p : same_tree b b' → rooted b n p → rooted b' n p.
Proof.
  intros Hs. induction 1 as [|n p q bs Hne Hp Hd Hbs _ IH].
  - rewrite <-(st_root _ _ Hs). constructor.
  - econstructor; [by rewrite (st_root _ _ Hs)|by rewrite (st_parents _ _ Hs)|by rewrite (same_tree_data b)|done|done].
Qed.

Lemma same_tree_wf b b' h es ps : same_tree b b' → bucket_wf b h es ps → bucket_wf b' h es ps.
Proof.
  intros Hs [Ht Hnd Hso Hst Hne]. split; try done.
  - rewrite (st_root _ _ Hs). eapply tree_ext; [|done]. intros q _. by apply same_tree_data.
  - by eapply same_tree_store.
  - intros q. rewrite (st_root _ _ Hs), (st_ids _ _ Hs), (same_tree_data b) by done. apply Hne.
Qed.

(** Recording parents does not change the tree. *)
Lemma parents_wf b pp h es ps : bucket_wf b h es ps → bucket_wf (with_page_parents b pp) h es ps.
Proof.
  intros [Ht Hnd Hso Hst Hne]. split; try done. eapply tree_ext; [|done]. done.
Qed.

(** A search for [key] on a well-formed bucket, ready for an edit of the leaf it
    reached. *)
(** No leaf of [b'] is empty that was not. *)
Definition no_new_empty (b b' : InnerBucket) : Prop := ∀ q, page_data b' q = Ok (Leaves []) → page_data b q = Ok (Leaves []).

Lemma search_ready fuel b h es ps key :
  bucket_wf b h es ps → (h < fuel)%nat →
  ∃ ls A C stack last pp pn,
    let r := data_index (Leaves ls) key in
    let b1 := with_page_parents b pp in
    search fuel key (root_of b) b [] = Ok (r.2, stack ++ [last], b1) ∧ sp_index last = r.1 ∧
    page_node b (sp_id last) = Ok pn ∧ pn_data (pg_data (ib_pages b)) pn = Ok (Leaves ls) ∧
    es = A ++ ls ++ C ∧ (∀ e, e ∈ A → lex_lt (leaf_key e) key) ∧ (∀ e, e ∈ C → lex_lt key (leaf_key e)) ∧
    ∀ b2, same_tree b1 b2 → ∃ nid b3 nd,
      node fuel b2 (sp_id last) None = Ok (nid, b3) ∧ extends b2 b3 ∧
      ib_nodes b3 !! Z.to_nat nid = Some nd ∧ n_data nd = Leaves ls ∧
      ∀ ls', (∀ e, e ∈ ls' → e ∈ ls ∨ leaf_key e = key) → keys_sorted leaf_key (A ++ ls' ++ C) →
        bucket_wf (update_node b3 nid (set_data nd (Leaves ls'))) h (A ++ ls' ++ C) ps ∧
        (ls' ≠ [] → no_new_empty b (update_node b3 nid (set_data nd (Leaves ls')))).
Proof.
  intros Hwf Hf. pose proof Hwf as [Ht Hnd Hso Hst Hne].
  destruct (tree_descend b key h _ es ps Ht) as (path & lp & ls & A & C & Hdesc & Hld & -> & HA & HC & Hpath & Hndp & Hhole).
  destruct (search_descent b key h _ path lp Hdesc) as (pn & ls0 & Hpn & Hdat & Hld' & Hsearch).
  assert (ls0 = ls) as -> by congruence. destruct (Hsearch fuel Hf) as [_ Hs].
  destruct (Hs (ib_page_parents b) []) as [stack Hst1]. set (pp := record_parents path (ib_page_parents b)) in *.
  exists ls, A, C, stack, (mkPath (data_index (Leaves ls) key).1 (pn_id (pg_data (ib_pages b)) pn)), pp, pn.
  cbv zeta. split_and!; try done.
  - rewrite <-Hst1. by destruct b.
  - by eapply page_node_id.
  - intros b2 Hb2. cbn [sp_id]. pose proof (st_root _ _ Hb2) as Er. change (root_of b2 = root_of b) in Er.
    assert (rooted b2 h lp) as Hroot.
    { apply (same_tree_rooted _ _ _ _ Hb2). change h with (0 + h)%nat. apply (rooted_path b key h (root_of b) path lp Hdesc); [by apply Hndp| |].
      - destruct (descent_head _ _ _ _ _ _ Hdesc) as [rest ->]. cbn. specialize (Hndp Hnd). by apply NoDup_cons in Hndp as [? _].
      - change (root_of b) with (root_of (with_page_parents b (record_parents path (ib_page_parents b)))). constructor. }
    assert (lp ∈ ps) as Hlp by (by eapply Hpath, elem_of_last, descent_last).
    destruct (node_of_search b2 h lp pn ls fuel) as (nid & b3 & nd & Hnode & He & Hids & Hn & Hd).
    { by eapply same_tree_store. } { done. } { done. } { by rewrite (same_tree_page_node _ _ _ Hb2). }
    { by rewrite (st_pages _ _ Hb2). }
    { rewrite (st_ids _ _ Hb2). intros H1 H2 ->. apply (Hne lp); [done|congruence|done|done]. }
    rewrite (st_pages _ _ Hb2) in Hnode. exists nid, b3, nd. split_and!; try done.
    intros ls' Hls' Hso'. assert (store_ok b3) as Hst3 by (by eapply (ext_store _ _ He), same_tree_store).
    destruct (update_data b3 lp nid nd ls' Hst3 Hids Hn) as (Hst4 & Hlp4 & Hq4).
    set (b4 := update_node b3 nid (set_data nd (Leaves ls'))) in *.
    assert (root_of b4 = root_of b) as Er4 by (rewrite <-Er; unfold root_of; cbn; by rewrite (ext_meta _ _ He)).
    assert (∀ q, q ≠ lp → page_data b4 q = page_data b q) as Hq.
    { intros q Hne'. rewrite Hq4, (ext_data _ _ He), (same_tree_data _ _ _ Hb2) by done. done. }
    split; [split; try done|].
    + rewrite Er4. apply Hhole; [done| |done|done]. intros q _ ?. by apply Hq.
    + intros q Hin Hnr Hnone. change (ib_page_node_ids b4) with (ib_page_node_ids b3) in Hnone.
      assert (q ≠ lp) as Hnl by (intros ->; congruence). rewrite Hq by done.
      apply Hne; [done|congruence|]. apply (lookup_weaken_None _ (ib_page_node_ids b3)); [done|].
      pose proof (st_ids _ _ Hb2) as Ei. change (ib_page_node_ids b2 = ib_page_node_ids b) in Ei.
      rewrite <-Ei. apply (ext_ids _ _ He).
    + intros Hls q Hq0. destruct (decide (q = lp)) as [->|]; [congruence|]. by rewrite <-Hq.
Qed.

Lemma last_path_snoc stack x : last_path (stack ++ [x]) = Ok x.
Proof. unfold last_path. by rewrite last_snoc. Qed.

Lemma page_node_parents b pp id : page_node (with_page_parents b pp) id = page_node b id.
Proof. done. Qed.

(** Inserting at the leaf the search found. *)
Lemma insert_at_ok fuel b2 id l nid b3 nd ls :
  node fuel b2 id None = Ok (nid, b3) → ib_nodes b3 !! Z.to_nat nid = Some nd → n_data nd = Leaves ls →
  insert_at fuel b2 id l = Ok (update_node b3 nid (set_data nd (Leaves (ordered_put leaf_key ls l)))).
Proof.
  intros Hn Hnd Hd. unfold insert_at, node_at. rewrite Hn. cbn [mbind res_bind]. rewrite Hnd. cbn [unwrap mbind res_bind].
  by rewrite (insert_data_ordered_put nd ls l Hd).
Qed.

(** The fields the edits of entries do not touch. *)
Definition same_handle (b b' : InnerBucket) : Prop :=
  ib_meta b' = ib_meta b ∧ ib_buckets b' = ib_buckets b ∧ ib_pages b' = ib_pages b ∧
  ib_deleted b' = ib_deleted b ∧ ib_dirty b' = ib_dirty b.

Lemma extends_handle b b' nid n : extends b b' → same_handle b (update_node b' nid n).
Proof. intros []. by split_and!. Qed.

Lemma vec_remove_middle l1 l l2 i x :
  keys_sorted leaf_key (l1 ++ l ++ l2) → l !! i = Some x →
  keys_sorted leaf_key (l1 ++ vec_remove l i ++ l2) ∧
  leaf_map (l1 ++ vec_remove l i ++ l2) = delete (leaf_key x) (leaf_map (l1 ++ l ++ l2)).
Proof.
  intros Hs Hi. assert (vec_remove (l1 ++ l ++ l2) (length l1 + i) = l1 ++ vec_remove l i ++ l2) as E.
  { apply lookup_lt_Some in Hi. unfold vec_remove. rewrite take_app_add, <-Nat.add_succ_r, drop_app_add.
    rewrite take_app_le, drop_app_le by lia. by rewrite <-!app_assoc. }
  assert ((l1 ++ l ++ l2) !! (length l1 + i)%nat = Some x) as Hx.
  { rewrite lookup_app_r by lia. replace (length l1 + i - length l1)%nat with i by lia.
    rewrite lookup_app_l; [done|by eapply lookup_lt_Some]. }
  rewrite <-E. split; [by apply vec_remove_sorted|by apply leaf_map_remove].
Qed.

Lemma elem_of_vec_remove {A} (l : list A) i x : x ∈ vec_remove l i → x ∈ l.
Proof.
  intros [[j Hj]%list_elem_of_lookup|[j Hj]%list_elem_of_lookup]%elem_of_app.
  - apply lookup_take_Some in Hj as [Hj _]. by eapply list_elem_of_lookup_2.
  - rewrite lookup_drop in Hj. by eapply list_elem_of_lookup_2.
Qed.

(** Deleting at the leaf the search found. *)
Lemma delete_at_ok fuel b2 id i l nid b3 nd ls :
  node fuel b2 id None = Ok (nid, b3) → ib_nodes b3 !! Z.to_nat nid = Some nd → n_data nd = Leaves ls → ls !! i = Some l →
  delete_at fuel b2 id i = Ok (l, update_node b3 nid (set_data nd (Leaves (vec_remove ls i)))).
Proof.
  intros Hn Hnd Hd Hi. unfold delete_at, node_at, node_delete. rewrite Hn. cbn [mbind res_bind]. rewrite Hnd.
  cbn [unwrap mbind res_bind]. by rewrite Hd, Hi.
Qed.

(** What the binary search in the leaf says about the whole tree. *)
Lemma search_outcome A ls C key :
  keys_sorted leaf_key (A ++ ls ++ C) → (∀ e, e ∈ A → lex_lt (leaf_key e) key) → (∀ e, e ∈ C → lex_lt key (leaf_key e)) →
  let found := assoc leaf_key (A ++ ls ++ C) key in
  (data_index (Leaves ls) key).2 = bool_decide (is_Some found) ∧
  ∀ old, found = Some old → ls !! (data_index (Leaves ls) key).1 = Some old.
Proof.
  intros Hso HA HC. cbv zeta. rewrite assoc_middle by done.
  pose proof (data_index_assoc ls key (keys_sorted_middle _ _ _ _ Hso)) as Hr. cbv zeta in Hr.
  destruct (data_index (Leaves ls) key) as [i [|]]; cbn [fst snd] in *.
  - destruct Hr as [Hr [old Hold]]. rewrite <-Hr, Hold. by rewrite bool_decide_eq_true_2.
  - rewrite Hr. by rewrite bool_decide_eq_false_2 by (by intros [? ?]).
Qed.

(** A search for [key], ready for the insertion or the deletion of its entry. *)
Lemma edit_ready fuel b h es ps key :
  bucket_wf b h es ps → (h < fuel)%nat →
  ∃ stack last pp, let b1 := with_page_parents b pp in let found := assoc leaf_key es key in
    search fuel key (root_of b) b [] = Ok (bool_decide (is_Some found), stack ++ [last], b1) ∧
    (∀ old, found = Some old → ∃ pn, page_node b1 (sp_id last) = Ok pn ∧
       pn_val (pg_data (ib_pages b1)) pn (sp_index last) = Ok (Some old)) ∧
    ∀ b2, same_tree b1 b2 →
      (∀ l, leaf_key l = key → ∃ b', insert_at fuel b2 (sp_id last) l = Ok b' ∧
         bucket_wf b' h (ordered_put leaf_key es l) ps ∧ same_handle b2 b') ∧
      (∀ old, found = Some old → ∃ b' es', delete_at fuel b2 (sp_id last) (sp_index last) = Ok (old, b') ∧
         bucket_wf b' h es' ps ∧ leaf_map es' = delete key (leaf_map es) ∧ same_handle b2 b').
Proof.
  intros Hwf Hf. destruct (search_ready fuel b h es ps key Hwf Hf)
    as (ls & A & C & stack & last & pp & pn & Hs & Hidx & Hpn & Hdat & Ees & HA & HC & Hedit).
  pose proof (wf_sorted _ _ _ _ Hwf) as Hso. rewrite Ees in Hso |- *. cbv zeta in Hs.
  destruct (search_outcome A ls C key Hso HA HC) as [Hb Hv].
  exists stack, last, pp. cbv zeta. split_and!; [by rewrite Hs, Hb| |].
  - intros old Hold. exists pn. rewrite page_node_parents. split; [done|]. cbn [ib_pages with_page_parents].
    rewrite (pn_val_data _ pn _ Hdat (sp_index last) ls) by done. by rewrite Hidx, (Hv old Hold).
  - intros b2 Hb2. destruct (Hedit b2 Hb2) as (nid & b3 & nd & Hn & He & Hnd & Hd & Hw). split.
    + intros l <-. eexists. split; [by eapply insert_at_ok|]. split; [|by apply extends_handle].
      rewrite ordered_put_middle by done. apply (Hw _); [|rewrite <-ordered_put_middle by done; by apply ordered_put_sorted].
      intros e [->|[? _]]%elem_of_ordered_put; [by right|by left|by eapply keys_sorted_middle].
    + intros old Hold. assert (leaf_key old = key) as Hk by (by apply assoc_Some_elem in Hold as [_ ?]). pose proof (Hv old Hold) as Hi.
      destruct (vec_remove_middle A ls C _ old Hso Hi) as [Hs' Hm]. rewrite Hk in Hm.
      eexists _, _. split; [rewrite Hidx; by eapply delete_at_ok|]. split; [|split; [exact Hm|by apply extends_handle]].
      apply Hw; [|done]. intros e He'. left. by eapply elem_of_vec_remove.
Qed.

(** An edit marks the bucket dirty. *)
Definition same_but_dirty (b b' : InnerBucket) : Prop := same_handle (with_dirty b) b'.

Lemma put_leaf_ok fuel b h es ps l :
  bucket_wf b h es ps → (h < fuel)%nat →
  match assoc leaf_key es (leaf_key l) with
  | Some old =>
      if eqb (leaf_is_kv old) (leaf_is_kv l) then
        ∃ b', put_leaf fuel b l = Ok (Some old, b') ∧ bucket_wf b' h (ordered_put leaf_key es l) ps ∧ same_but_dirty b b'
      else put_leaf fuel b l = Err IncompatibleValue
  | None =>
      ∃ b', put_leaf fuel b l = Ok (None, b') ∧ bucket_wf b' h (ordered_put leaf_key es l) ps ∧ same_but_dirty (bump_next_int b) b'
  end.
Proof.
  intros Hwf Hf. destruct (edit_ready fuel b h es ps (leaf_key l) Hwf Hf) as (stack & last & pp & Hs & Hval & Hedit). cbv zeta in Hs, Hval.
  assert (∀ b', bucket_wf b' h (ordered_put leaf_key es l) ps → bucket_wf (with_dirty b') h (ordered_put leaf_key es l) ps) as Hd.
  { intros b' Hw. by apply (same_tree_wf b'). }
  unfold put_leaf. rewrite Hs. cbn [mbind res_bind]. rewrite last_path_snoc. cbn [mbind res_bind].
  destruct (assoc leaf_key es (leaf_key l)) as [old|].
  - rewrite bool_decide_eq_true_2 by done. destruct (Hval old eq_refl) as (pn & -> & Hv). cbn [mbind res_bind]. rewrite Hv.
    cbn [unwrap mbind res_bind fail_if]. destruct (eqb (leaf_is_kv old) (leaf_is_kv l)); cbn [negb fail_if mbind res_bind]; [|done].
    destruct (proj1 (Hedit (with_page_parents b pp) ltac:(by split)) l eq_refl) as (b' & -> & Hw & Hh). cbn [mbind res_bind].
    exists (with_dirty b'). split; [done|]. split; [by apply Hd|]. destruct Hh as (? & ? & ? & ? & _). by split_and!.
  - rewrite bool_decide_eq_false_2 by (by intros [? ?]). cbn [mbind res_bind].
    destruct (proj1 (Hedit (bump_next_int (with_page_parents b pp)) ltac:(by split)) l eq_refl) as (b' & -> & Hw & Hh). cbn [mbind res_bind].
    exists (with_dirty b'). split; [done|]. split; [by apply Hd|]. destruct Hh as (? & ? & ? & ? & _). by split_and!.
Qed.

(** A put empties no leaf. *)
Lemma put_leaf_full fuel b h es ps l o b' :
  bucket_wf b h es ps → (h < fuel)%nat → put_leaf fuel b l = Ok (o, b') → no_new_empty b b'.
Proof.
  intros Hwf Hf Hp. destruct (search_ready fuel b h es ps (leaf_key l) Hwf Hf)
    as (ls & A & C & stack & last & pp & pn & Hs & _ & _ & _ & Ees & HA & HC & Hedit). cbv zeta in Hs.
  unfold put_leaf in Hp. rewrite Hs in Hp. cbn [mbind res_bind] in Hp. rewrite last_path_snoc in Hp. cbn [mbind res_bind] in Hp.
  assert (∃ b2 b4, same_tree (with_page_parents b pp) b2 ∧ insert_at fuel b2 (sp_id last) l = Ok b4 ∧ b' = with_dirty b4) as (b2 & b4 & Hst & Hins & ->).
  { destruct ((data_index (Leaves ls) (leaf_key l)).2); res_inv; simplify_eq; eexists _, _; (split_and!; [|done|done]); by split. }
  destruct (Hedit b2 Hst) as (nid & b3 & nd & Hn & He & Hnd & Hd & Hw). rewrite (insert_at_ok _ _ _ _ _ _ _ _ Hn Hnd Hd) in Hins. injection Hins as <-.
  pose proof (wf_sorted _ _ _ _ Hwf) as Hso. rewrite Ees in Hso. intros q Hq.
  refine (proj2 (Hw (ordered_put leaf_key ls l) _ _) _ q Hq).
  - intros e [->|[? _]]%elem_of_ordered_put; [by right|by left|by eapply keys_sorted_middle].
  - rewrite <-ordered_put_middle by done. by apply ordered_put_sorted.
  - intros E. assert (l ∈ ordered_put leaf_key ls l) as Hin by (apply elem_of_ordered_put; [by eapply keys_sorted_middle|by left]).
    rewrite E in Hin. by apply elem_of_nil in Hin.
Qed.

(** C10: [InnerBucket::put_leaf] is the insertion into the ordered map the tree
    holds.  On a well-formed bucket it replaces the entry of the key and returns
    the old one when both are values or both are buckets, fails with
    [IncompatibleValue] when they are not, and otherwise adds the entry and
    advances [next_int]; in every successful case the bucket stays a well-formed
    tree of the same height over the same pages, with the map updated at the key
    and nowhere else, whatever pages had to be turned into nodes. *)
Theorem put_refines_insert (fuel : nat) (b : InnerBucket) (h : nat) (es : list Leaf) (ps : list PageID) (l : Leaf) :
  bucket_wf b h es ps → (h < fuel)%nat →
  match leaf_map es !! leaf_key l with
  | Some old =>
      if eqb (leaf_is_kv old) (leaf_is_kv l) then
        ∃ b' es', put_leaf fuel b l = Ok (Some old, b') ∧ bucket_wf b' h es' ps ∧
          leaf_map es' = <[leaf_key l := l]> (leaf_map es) ∧ ib_meta b' = ib_meta b
      else put_leaf fuel b l = Err IncompatibleValue
  | None =>
      ∃ b' es', put_leaf fuel b l = Ok (None, b') ∧ bucket_wf b' h es' ps ∧
        leaf_map es' = <[leaf_key l := l]> (leaf_map es) ∧
        ib_meta b' = mkBucketMeta (root_of b) (u64_wrap (next_int (ib_meta b) + 1))
  end.
Proof.
  intros Hwf Hf. rewrite leaf_map_assoc. pose proof (put_leaf_ok fuel b h es ps l Hwf Hf) as Hp.
  pose proof (leaf_map_put es l (wf_sorted _ _ _ _ Hwf)) as Hm.
  destruct (assoc leaf_key es (leaf_key l)) as [old|]; [destruct (eqb _ _); [|done]|];
    destruct Hp as (b' & ? & ? & []); eauto 6.
Qed.

Lemma inner_delete_ok fuel b h es ps key :
  bucket_wf b h es ps → (h < fuel)%nat →
  match assoc leaf_key es key with
  | Some (LKv k v) =>
      ∃ b' es', inner_delete fuel b key = Ok (k, v, b') ∧ bucket_wf b' h es' ps ∧
        leaf_map es' = delete key (leaf_map es) ∧ same_but_dirty b b'
  | Some (LBucket _ _) => inner_delete fuel b key = Err IncompatibleValue
  | None => inner_delete fuel b key = Err KeyValueMissing
  end.
Proof.
  intros Hwf Hf. destruct (edit_ready fuel b h es ps key Hwf Hf) as (stack & last & pp & Hs & Hval & Hedit). cbv zeta in Hs, Hval.
  unfold inner_delete. rewrite Hs. cbn [mbind res_bind]. rewrite last_path_snoc. cbn [mbind res_bind].
  destruct (assoc leaf_key es key) as [old|]; [|by rewrite bool_decide_eq_false_2 by (by intros [? ?])].
  rewrite bool_decide_eq_true_2 by done. destruct (Hval old eq_refl) as (pn & -> & Hv). cbn [mbind res_bind]. rewrite Hv.
  cbn [unwrap mbind res_bind]. destruct old as [nm m|k v]; cbn [leaf_is_kv]; [done|].
  destruct (proj2 (Hedit (with_dirty (with_page_parents b pp)) ltac:(by split)) (LKv k v) eq_refl) as (b' & es' & -> & Hw & Hm & Hh).
  cbn [mbind res_bind]. eauto 6.
Qed.

(** C11: [InnerBucket::delete] is the removal from the ordered map the tree holds.
    On a well-formed bucket it removes exactly the key's entry and returns it
    when it is a value, fails with [IncompatibleValue] on a bucket and with
    [KeyValueMissing] when there is none, and leaves the bucket a well-formed
    tree over the same pages. *)
Theorem delete_refines_delete (fuel : nat) (b : InnerBucket) (h : nat) (es : list Leaf) (ps : list PageID) (key : bytes) :
  bucket_wf b h es ps → (h < fuel)%nat →
  match leaf_map es !! key with
  | Some (LKv k v) =>
      ∃ b' es', inner_delete fuel b key = Ok (k, v, b') ∧ bucket_wf b' h es' ps ∧
        leaf_map es' = delete key (leaf_map es) ∧ ib_meta b' = ib_meta b
  | Some (LBucket _ _) => inner_delete fuel b key = Err IncompatibleValue
  | None => inner_delete fuel b key = Err KeyValueMissing
  end.
Proof.
  intros Hwf Hf. rewrite leaf_map_assoc. pose proof (inner_delete_ok fuel b h es ps key Hwf Hf) as Hd.
  destruct (assoc leaf_key es key) as [[nm m|k v]|]; [done| |done]. destruct Hd as (b' & es' & ? & ? & ? & []); eauto 6.
Qed.

(** ** A concrete two-level tree: root page 2 over the leaf pages 3 and 4 *)

Definition page_image (id : PageID) (d : NodeData) : bytes :=
  match write_node (fresh_page id 1 1024) (demo_node d) with Ok B => B | _ => [] end.

Definition demo_right : list Leaf := [LKv [Byte.x6d] [Byte.x07]; LKv [Byte.x78] []].

Definition demo_kids : list Kid :=
  [mkKid (mkBranch [Byte.x61] 3) demo_leaves [3]; mkKid (mkBranch [Byte.x6d] 4) demo_right [4]].

Definition demo_tree_file : bytes :=
  replicate 2048 Byte.x00 ++ page_image 2 (Branches (k_branch <$> demo_kids)) ++
  page_image 3 (Leaves demo_leaves) ++ page_image 4 (Leaves demo_right).

Definition demo_bucket : InnerBucket := from_meta (mkBucketMeta 2 0) (mkPages demo_tree_file 1024).

(** Delete the keys one after another. *)
Definition delete_keys (b : InnerBucket) (keys : list bytes) : res InnerBucket :=
  res_fold (λ b k, '(_, _, b) ← inner_delete 9 b k; Ok b) b keys.

Lemma demo_bucket_wf : bucket_wf demo_bucket 1 (demo_leaves ++ demo_right) [2; 3; 4].
Proof.
  split.
  - exists demo_kids. split_and!; [vm_compute; reflexivity|done|repeat constructor| | |done|done].
    + intros [|[|i]] k e Hk; simplify_eq/=; intros He; split; try lia.
      * intros k' [= <-]. unfold demo_leaves in He. rewrite !elem_of_cons in He. destruct He as [->|[->|[->|?%elem_of_nil]]]; done.
      * intros _. unfold demo_right in He. rewrite !elem_of_cons in He. destruct He as [->|[->|?%elem_of_nil]]; done.
      * done.
    + repeat constructor; try done; vm_compute; reflexivity.
  - apply (bool_decide_unpack _). vm_compute. done.
  - repeat constructor.
  - split; by intros ???.
  - intros q Hq _ _. rewrite !elem_of_cons in Hq. destruct Hq as [->|[->|[->|?%elem_of_nil]]]; [vm_compute; discriminate..|done].
Qed.

Lemma get_refines_lookup_witness : inner_get 2 demo_bucket [Byte.x6d] = Ok (Some (LKv [Byte.x6d] [Byte.x07])).
Proof.
  rewrite (get_refines_lookup 2 demo_bucket 1 _ _ [Byte.x6d] demo_bucket_wf); [vm_compute; reflexivity|lia].
Defined.

Lemma put_refines_insert_witness :
  ∃ b' es', put_leaf 2 demo_bucket (LKv [Byte.x6e] [Byte.x01]) = Ok (None, b') ∧ bucket_wf b' 1 es' [2; 3; 4].
Proof.
  pose proof (put_refines_insert 2 demo_bucket 1 _ _ (LKv [Byte.x6e] [Byte.x01]) demo_bucket_wf ltac:(lia)) as H.
  assert (leaf_map (demo_leaves ++ demo_right) !! [Byte.x6e] = None) as E by (vm_compute; reflexivity).
  cbn [leaf_key] in H. rewrite E in H. destruct H as (b' & es' & H1 & H2 & _). eauto.
Defined.

Lemma delete_refines_delete_witness :
  ∃ b' es', inner_delete 2 demo_bucket [Byte.x78] = Ok ([Byte.x78], [], b') ∧ bucket_wf b' 1 es' [2; 3; 4].
Proof.
  pose proof (delete_refines_delete 2 demo_bucket 1 _ _ [Byte.x78] demo_bucket_wf ltac:(lia)) as H.
  assert (leaf_map (demo_leaves ++ demo_right) !! [Byte.x78] = Some (LKv [Byte.x78] [])) as E by (vm_compute; reflexivity).
  rewrite E in H. destruct H as (b' & es' & H1 & H2 & _). eauto.
Defined.
