(* ===== verification/Spill.v ===== *)
(** * Rebalancing and spilling

    The commit-time half of [src/src/api/bucket/inner.rs] ([rebalance],
    [merge_nodes], [spill]) and of [src/src/tree/node.rs] ([spill], [split],
    [write], [allocate], [free_page]): nodes that became too small are merged
    into a sibling, nodes that became too large are split, and every changed node
    is written to freshly allocated dirty pages.  A node is its index in the
    bucket's vector; a bucket is its reference in the transaction's store.
    [HashMap]s of sub-buckets are iterated in key order. *)

From S2P Require Import Prelude Search Support Layout Meta Freelist Node Page PageNode Inner.

(** ** Writing a node *)

Definition free_page (n : Node) (tf : TxFreelist) : Node * TxFreelist :=
  if n_page_id n =? 0 then (n, tf)
  else (set_page n 0 (n_num_pages n), tx_free tf (n_page_id n) (n_num_pages n)).

Definition node_allocate (n : Node) (tf : TxFreelist) : res (Node * TxFreelist) :=
  let '(n, tf) := free_page n tf in
  '(p, tf) ← tx_allocate tf (node_size n);
  buf ← unwrap (tf_pages tf !! p) "the allocated page";
  Ok (set_page n (page_id_at buf 0) (page_overflow_at buf 0 + 1), tf).

Definition node_write (n : Node) (tf : TxFreelist) : res (Node * TxFreelist) :=
  if n_deleted n then Ok (n, tf)
  else
    '(n, tf) ← node_allocate (set_spilled n) tf;
    buf ← unwrap (tf_pages tf !! n_page_id n) "the allocated page";
    buf ← write_node buf n;
    Ok (n, mkTxFreelist (tf_meta tf) (tf_inner tf) (<[n_page_id n := buf]> (tf_pages tf))).

(** [write] on the node with this index. *)
Definition write_at_node (b : InnerBucket) (tf : TxFreelist) (nid : NodeID) : res (InnerBucket * TxFreelist) :=
  n ← node_at b nid;
  '(n, tf) ← node_write n tf;
  Ok (update_node b nid n, tf).

Fixpoint write_all_nodes (b : InnerBucket) (tf : TxFreelist) (nids : list NodeID) : res (InnerBucket * TxFreelist) :=
  match nids with
  | [] => Ok (b, tf)
  | nid :: nids => '(b, tf) ← write_at_node b tf nid; write_all_nodes b tf nids
  end.

(** ** Splitting *)

Fixpoint new_nodes (b : InnerBucket) (ds : list NodeData) : res (list NodeID * InnerBucket) :=
  match ds with
  | [] => Ok ([], b)
  | d :: ds =>
      '(nid, b) ← new_node b d;
      '(nids, b) ← new_nodes b ds;
      Ok (nid :: nids, b)
  end.

Definition split (b : InnerBucket) (nid : NodeID) : res (option (list NodeID) * InnerBucket) :=
  n ← node_at b nid;
  pieces ← split_data n;
  match pieces with
  | None => Ok (None, b)
  | Some (d, new_data) =>
      let b := update_node b nid (set_data n d) in
      '(nids, b) ← new_nodes b new_data;
      Ok (Some nids, b)
  end.

(** ** Spilling a node *)

(** [children.sort_by_cached_key(|id| nodes[id].data.first_key())]: the keys are
    computed only when there are two or more children. *)
Definition sort_children (b : InnerBucket) (children : list NodeID) : res (list NodeID) :=
  match children with
  | [] | [_] => Ok children
  | _ =>
      keyed ← res_map (λ id, n ← node_at b id; k ← data_first_key (n_data n); Ok (k, id)) children;
      Ok (snd <$> sort_by_key fst keyed)
  end.

(** [parent.insert_branch(key, Branch::from_node(n))] *)
Definition insert_branch_at (b : InnerBucket) (parent : NodeID) (key : option bytes) (nid : NodeID) : res InnerBucket :=
  n ← node_at b nid;
  br ← branch_from_node n;
  p ← node_at b parent;
  p ← insert_branch p key br;
  Ok (update_node b parent p).

Fixpoint insert_branches_at (b : InnerBucket) (parent : NodeID) (nids : list NodeID) : res InnerBucket :=
  match nids with
  | [] => Ok b
  | nid :: nids => b ← insert_branch_at b parent None nid; insert_branches_at b parent nids
  end.

Fixpoint node_spill (fuel : nat) (b : InnerBucket) (tf : TxFreelist) (nid : NodeID) (parent : option NodeID)
    : res (option PageID * InnerBucket * TxFreelist) :=
  match fuel with
  | O => Panic NOFUEL
  | S fuel =>
      self ← node_at b nid;
      if n_spilled self then Ok (None, b, tf)
      else
        children ← sort_children b (n_children self);
        let b := update_node b nid (set_children self children) in
        '(b, tf) ← res_fold (λ '(b, tf) child,
            '(_, b, tf) ← node_spill fuel b tf child (Some nid); Ok (b, tf)) (b, tf) children;
        '(new_siblings, b) ← split b nid;
        '(b, tf) ← write_at_node b tf nid;
        '(b, tf) ← match new_siblings with
                   | Some siblings =>
                       '(b, tf) ← write_at_node b tf nid;
                       write_all_nodes b tf siblings
                   | None => Ok (b, tf)
                   end;
        self ← node_at b nid;
        match parent with
        | Some parent =>
            b ← insert_branch_at b parent (n_original_key self) nid;
            b ← insert_branches_at b parent (default [] new_siblings);
            Ok (None, b, tf)
        | None =>
            match new_siblings with
            | Some siblings =>
                branches ← res_map (λ id, n ← node_at b id; branch_from_node n) (nid :: siblings);
                '(new_parent, b) ← new_node b (Branches branches);
                '(page_id, b, tf) ← node_spill fuel b tf new_parent None;
                page_id ← unwrap page_id "New parent did not return a new root_page_id";
                Ok (Some page_id, b, tf)
            | None => Ok (Some (n_page_id self), b, tf)
            end
        end
  end.

(** ** Merging small nodes *)

Definition set_root_page (b : InnerBucket) (p : PageID) : InnerBucket :=
  with_meta b (mkBucketMeta p (next_int (ib_meta b))).

(** [c.parent = Some(sibling.id)] for every child. *)
Fixpoint reparent (b : InnerBucket) (children : list NodeID) (parent : NodeID) : res InnerBucket :=
  match children with
  | [] => Ok b
  | c :: children =>
      n ← node_at b c;
      reparent (update_node b c (set_parent n (Some parent))) children parent
  end.

Definition empty_like (d : NodeData) : NodeData :=
  match d with
  | Branches _ => Branches []
  | Leaves _ => Leaves []
  end.

(** Move the data and the children of a node to its sibling. *)
Definition merge_into (b : InnerBucket) (nid sid : NodeID) : res InnerBucket :=
  node_ ← node_at b nid;
  sibling ← node_at b sid;
  data ← data_merge (n_data sibling) (n_data node_);
  b ← (match n_children node_ with
       | [] => Ok b
       | cs => reparent b cs (n_id sibling)
       end);
  node_ ← node_at b nid;
  let b := update_node b nid (set_children (set_data node_ (empty_like (n_data node_))) []) in
  sibling ← node_at b sid;
  Ok (update_node b sid (set_children (set_data sibling data) (n_children sibling ++ n_children node_))).

(** Remove a merged or emptied child from its parent. *)
Definition remove_child (b : InnerBucket) (parent_id nid : NodeID) (index : nat) : res InnerBucket :=
  parent ← node_at b parent_id;
  match n_data parent with
  | Branches bs =>
      _ ← unwrap (bs !! index) "removal index should be < len";
      let children :=
        match list_find (λ x, x = nid) (n_children parent) with
        | Some (i, _) => vec_remove (n_children parent) i
        | None => n_children parent
        end in
      Ok (update_node b parent_id (set_children (set_data parent (Branches (vec_remove bs index))) children))
  | Leaves _ => Ok b
  end.

(** One node of the traversal that is a leaf or was visited before. *)
Definition merge_node (fuel : nat) (b : InnerBucket) (tf : TxFreelist) (nid : NodeID) : res (InnerBucket * TxFreelist) :=
  n ← node_at b nid;
  if negb (needs_merging n) then Ok (b, tf)
  else if n_page_id n =? root_of b then
    match n_data n with
    | Branches [br] =>
        let '(n, tf) := free_page n tf in
        let b := update_node b nid (set_deleted n) in
        Ok (with_root (set_root_page b (b_page br)) (PPage (b_page br)), tf)
    | _ => Ok (b, tf)
    end
  else
    parent_id ← unwrap (n_parent n) "non root node must have parent";
    parent ← node_at b parent_id;
    match n_data parent with
    | Leaves _ => Ok (b, tf)
    | Branches [_] => Ok (b, tf)
    | Branches branches =>
        key ← unwrap (n_original_key n) "called `Option::unwrap()` on a `None` value";
        index ← (match binary_search_by_key b_key branches key with
                 | SFound i => Ok i
                 | SMissing _ => Panic "child branch not found"
                 end);
        b ← (if (0 <? data_len (n_data n))%nat && (1 <? length branches)%nat then
               sibling ← unwrap (branches !! (if (index =? 0)%nat then index + 1 else index - 1)%nat) "index out of bounds";
               let b := add_page_parent b (b_page sibling) (n_page_id parent) in
               '(sid, b) ← node fuel b (PPage (b_page sibling)) (Some parent_id);
               merge_into b nid sid
             else Ok b);
        n ← node_at b nid;
        let '(n, tf) := free_page n tf in
        let b := update_node b nid (set_deleted n) in
        b ← remove_child b parent_id nid index;
        Ok (b, tf)
    end.

(** The traversal; the head of the list is the top of the stack. *)
Fixpoint merge_loop (fuel : nat) (b : InnerBucket) (tf : TxFreelist) (stack : list (bool * NodeID))
    : res (InnerBucket * TxFreelist) :=
  match fuel with
  | O => Panic NOFUEL
  | S fuel =>
      match stack with
      | [] => Ok (b, tf)
      | (visited, nid) :: stack =>
          n ← node_at b nid;
          if visited || node_leaf n then
            '(b, tf) ← merge_node (S fuel) b tf nid;
            merge_loop fuel b tf stack
          else merge_loop fuel b tf (((λ id, (false, id)) <$> n_children n) ++ (true, nid) :: stack)
      end
  end.

Definition merge_nodes (fuel : nat) (b : InnerBucket) (tf : TxFreelist) : res (InnerBucket * TxFreelist) :=
  b ← (if decide (ib_page_node_ids b = ∅)
       then '(_, b) ← node fuel b (PPage (root_of b)) None; Ok b
       else Ok b);
  root ← unwrap (ib_page_node_ids b !! root_of b) "no entry found for key";
  merge_loop fuel b tf [(false, root)].

(** ** The bucket store *)

Abbreviation Buckets := (gmap BucketRef InnerBucket).

Definition bucket_at (st : Buckets) (r : BucketRef) : res InnerBucket := unwrap (st !! r) "bucket reference".

(** The sub-buckets in key order. *)
Definition sub_buckets (b : InnerBucket) : list (bytes * BucketRef) :=
  sort_by_key fst (map_to_list (ib_buckets b)).

(** [is_dirty]: the first dirty sub-bucket makes its parent dirty. *)
Fixpoint is_dirty (fuel : nat) (st : Buckets) (r : BucketRef) : res (bool * Buckets) :=
  match fuel with
  | O => Panic NOFUEL
  | S fuel =>
      b ← bucket_at st r;
      if ib_dirty b then Ok (true, st)
      else
        '(found, st) ← res_fold (λ '(found, st) '(_, r'),
            if found : bool then Ok (true, st) else is_dirty fuel st r') (false, st) (sub_buckets b);
        if found : bool then
          b ← bucket_at st r;
          Ok (true, <[r := with_dirty b]> st)
        else Ok (false, st)
  end.

Fixpoint rebalance (fuel : nat) (st : Buckets) (tf : TxFreelist) (r : BucketRef) : res (Buckets * TxFreelist) :=
  match fuel with
  | O => Panic NOFUEL
  | S fuel =>
      '(dirty, st) ← is_dirty (S fuel) st r;
      if negb dirty then Ok (st, tf)
      else
        b ← bucket_at st r;
        '(st, tf) ← res_fold (λ '(st, tf) '(_, r'), rebalance fuel st tf r') (st, tf) (sub_buckets b);
        b ← bucket_at st r;
        '(b, tf) ← merge_nodes (S fuel) b tf;
        Ok (<[r := b]> st, tf)
  end.

Fixpoint spill (fuel : nat) (st : Buckets) (tf : TxFreelist) (r : BucketRef) : res (BucketMeta * Buckets * TxFreelist) :=
  match fuel with
  | O => Panic NOFUEL
  | S fuel =>
      '(dirty, st) ← is_dirty (S fuel) st r;
      b ← bucket_at st r;
      if negb dirty then Ok (ib_meta b, st, tf)
      else
        '(metas, st, tf) ← res_fold (λ '(metas, st, tf) '(name, r'),
            '(m, st, tf) ← spill fuel st tf r'; Ok (metas ++ [(name, m)], st, tf)) ([], st, tf) (sub_buckets b);
        b ← bucket_at st r;
        b ← res_fold (λ b '(name, m), '(_, b) ← put_leaf (S fuel) b (LBucket name m); Ok b) b metas;
        root ← unwrap (ib_page_node_ids b !! root_of b) "no entry found for key";
        '(page_id, b, tf) ← node_spill (S fuel) b tf root None;
        page_id ← unwrap page_id "root node did not return a new page_id";
        let b := set_root_page b page_id in
        Ok (ib_meta b, <[r := b]> st, tf)
  end.
