(* ===== verification/Db.v ===== *)
(** * The database file: metadata slots, creation, commit

    [src/src/storage/db.rs] ([DBInner::meta], [reload_freelist], [init_file]),
    [src/src/storage/format.rs] ([inspect_candidate]) and [TxInner::write_data]
    of [src/src/api/tx.rs].  The file is its contents; a commit is a plan of
    writes: the size the file grows to, the sealed data blocks in page order, and
    the metadata block that publishes them.  What a crash leaves of the writes is
    any file that agrees with the old one outside the blocks being written. *)

From S2P Require Import Prelude Search Support Layout Meta Freelist Node Page.

Definition MAGIC_VALUE : Z := 0x00ABCDEF.
Definition FORMAT_VERSION : Z := 4.

Section db.
Context `{D : Digest}.

(** ** Choosing the metadata *)

(** A slot counts when its page validates and the metadata is authentic and of
    this format. *)
Definition slot_meta (data : bytes) (pagesize_ slot : Z) : res (option Meta) :=
  match validate_block data slot pagesize_ with
  | Ok p =>
      m ← page_meta data p;
      Ok (if meta_valid m && (magic m =? MAGIC_VALUE) && (version m =? FORMAT_VERSION) && (pagesize m =? pagesize_)
          then Some m else None)
  | Err _ => Ok None
  | Panic w => Panic w
  end.

(** [DBInner::meta]. *)
Definition db_meta (data : bytes) (pagesize_ : Z) : res Meta :=
  meta1 ← slot_meta data pagesize_ 0;
  meta2 ← slot_meta data pagesize_ 1;
  match meta1, meta2 with
  | Some m1, Some m2 => Ok (if tx_id m2 <? tx_id m1 then m1 else m2)
  | Some m1, None => Ok m1
  | None, Some m2 => Ok m2
  | None, None => Err (InvalidDB "no valid metadata pages for the current format")
  end.

(** [inspect_candidate] of format.rs: the page size, version, transaction id and
    slot of the newest valid metadata, and how many slots are valid.  The slots
    are read from the first two pages alone; [max_by_key] keeps the last of equal
    keys. *)
Record FormatInfo := mkFormatInfo {
  fi_page_size : Z; fi_version : Z; fi_transaction_id : Z; fi_metadata_page : Z; fi_file_bytes : Z
}.

Definition inspect_candidate (file : bytes) (page_size : Z) : res (FormatInfo * nat) :=
  bootstrap_len ← ok_or (checked_mul page_size 2) (InvalidDB "bootstrap length overflow");
  _ ← fail_if (len_u64 file <? bootstrap_len) (InvalidDB "metadata pages exceed the file");
  let data := take (Z.to_nat bootstrap_len) file in
  m0 ← slot_meta data page_size 0;
  m1 ← slot_meta data page_size 1;
  let valid := option_list m0 ++ option_list m1 in
  let newest := fold_left (λ best m,
      match best with
      | Some b => if tx_id m <? tx_id b then Some b else Some m
      | None => Some m
      end) valid None in
  m ← ok_or newest (InvalidDB "no valid metadata pages");
  Ok (mkFormatInfo page_size (version m) (tx_id m) (meta_page m) (len_u64 file), length valid).

(** [Freelist::init_page] of a validated freelist page, as [reload_freelist] does. *)
Definition load_freelist (data : bytes) (pagesize_ : Z) (m : Meta) : res Freelist :=
  p ← validate_block data (freelist_page m) pagesize_;
  entries ← retired_pages data p;
  Ok (freelist_init freelist_new entries).

(** ** Metadata blocks *)

Definition with_hash (m : Meta) : Meta :=
  mkMeta (meta_page m) (magic m) (version m) (pagesize m) (root m) (num_pages m) (freelist_page m) (tx_id m) (hash_self m).

(** The metadata as it is published in a slot. *)
Definition published (slot : Z) (m : Meta) : Meta :=
  with_hash (mkMeta slot (magic m) FORMAT_VERSION (pagesize m) (root m) (num_pages m) (freelist_page m) (tx_id m) 0).

(** A zeroed page with id, type and the metadata struct. *)
Definition meta_image (pagesize_ : Z) (slot : Z) (m : Meta) : bytes :=
  let buf := replicate (Z.to_nat pagesize_) Byte.x00 in
  let buf := wr64 buf page_off_id slot in
  let buf := wr8 buf page_off_type TYPE_META in
  meta_write buf page_off_ptr m.

(** ** Creating a file: [init_file] *)

Definition empty_image (pagesize_ id t : Z) : bytes :=
  wr64 (wr8 (wr64 (replicate (Z.to_nat pagesize_) Byte.x00) page_off_id id) page_off_type t) page_off_count 0.

Definition init_meta (pagesize_ slot : Z) : Meta :=
  with_hash (mkMeta slot MAGIC_VALUE FORMAT_VERSION pagesize_ (mkBucketMeta 3 0) 4 2 0 0).

Definition init_image (pagesize_ : Z) : res bytes :=
  b0 ← seal_block (meta_image pagesize_ 0 (init_meta pagesize_ 0));
  b1 ← seal_block (meta_image pagesize_ 1 (init_meta pagesize_ 1));
  b2 ← seal_block (empty_image pagesize_ 2 TYPE_FREELIST);
  b3 ← seal_block (empty_image pagesize_ 3 TYPE_LEAF);
  Ok (b0 ++ b1 ++ b2 ++ b3).

(** The allocated file is zero beyond what is written. *)
Definition init_file (pagesize_ num_pages_ : Z) : res bytes :=
  buf ← init_image pagesize_;
  Ok (write_at (replicate (Z.to_nat (pagesize_ * num_pages_)) Byte.x00) 0 buf).

(** ** Commit: [TxInner::write_data] *)

Record DbConfig := mkDbConfig {
  db_pagesize : Z;
  db_max_file_bytes : option Z;
  db_growth_increment : Z
}.

Definition retired_bytes (e : RetiredPage) : bytes := le_bytes 8 (page_id e) ++ le_bytes 8 (retired_tx_id e).

(** [page.page_type = ..; page.count = ..; page.retired_pages_mut().copy_from_slice(&entries)] *)
Definition write_freelist_page (buf : bytes) (entries : list RetiredPage) : bytes :=
  let buf := wr8 buf page_off_type TYPE_FREELIST in
  let buf := wr64 buf page_off_count (len_u64 entries) in
  write_at buf page_off_ptr (entries ≫= retired_bytes).

Definition set_page_buf (tf : TxFreelist) (p : PageID) (buf : bytes) : TxFreelist :=
  mkTxFreelist (tf_meta tf) (tf_inner tf) (<[p := buf]> (tf_pages tf)).

(** Retire the old freelist page and write the new one: its id and the
    transaction's freelist. *)
Definition write_freelist (tf : TxFreelist) (old_page old_pages : Z) : res (PageID * TxFreelist) :=
  let tf := tx_free tf old_page old_pages in
  '(p, tf) ← tx_allocate tf (freelist_size (tf_inner tf));
  buf ← unwrap (tf_pages tf !! p) "the allocated page";
  Ok (page_id_at buf 0, set_page_buf tf p (write_freelist_page buf (freelist_entries (tf_inner tf)))).

Definition div_ceil (a b : Z) : Z := (a + b - 1) / b.

(** The size the file needs, if it has to grow. *)
Definition grow_size (cfg : DbConfig) (current required : Z) : res (option Z) :=
  _ ← (match db_max_file_bytes cfg with
       | Some maximum => fail_if (maximum <? required) (CapacityExceeded required maximum)
       | None => Ok ()
       end);
  if current <? required then
    let increment := db_growth_increment cfg in
    let increments := div_ceil (required - current) increment in
    new_size ← ok_or (checked_add current (saturating_mul increments increment)) (InvalidDB "file growth overflow");
    Ok (Some (match db_max_file_bytes cfg with Some maximum => Z.min new_size maximum | None => new_size end))
  else Ok None.

Definition block_offset (cfg : DbConfig) (p : PageID) : res Z :=
  ok_or (checked_mul (db_pagesize cfg) p) (InvalidDB "page offset overflow").

(** The dirty blocks in page order, sealed, with their offsets. *)
Definition seal_blocks (cfg : DbConfig) (tf : TxFreelist) : res (list (Z * bytes)) :=
  res_map (λ p,
    buf ← unwrap (tf_pages tf !! p) "the dirty page";
    buf ← seal_block buf;
    off ← block_offset cfg p;
    Ok (off, buf)) (sorted_keys (tf_pages tf)).

Record Plan := mkPlan {
  pl_meta : Meta;
  pl_freelist : Freelist;
  pl_size : option Z;
  pl_blocks : list (Z * bytes);
  pl_slot : Z;
  pl_meta_block : Z * bytes
}.

(** [u64::from(self.meta.meta_page == 0)] *)
Definition other_slot (m : Meta) : Z := if meta_page m =? 0 then 1 else 0.

Definition write_data (cfg : DbConfig) (file_len : Z) (m : Meta) (num_freelist_pages : Z) (tf : TxFreelist) : res Plan :=
  '(fp, tf) ← write_freelist tf (freelist_page m) num_freelist_pages;
  let m := mkMeta (meta_page m) (magic m) (version m) (pagesize m) (root m)
             (num_pages (tf_meta tf)) fp (tx_id m) (hash m) in
  required ← ok_or (checked_mul (num_pages m) (db_pagesize cfg)) (InvalidDB "required file size overflow");
  new_size ← grow_size cfg file_len required;
  blocks ← seal_blocks cfg tf;
  let slot := other_slot m in
  meta_buf ← seal_block (meta_image (db_pagesize cfg) slot (published slot m));
  off ← block_offset cfg slot;
  Ok (mkPlan m (tf_inner tf) new_size blocks slot (off, meta_buf)).

(** Growing the file and writing blocks. *)
Definition extend_to (file : bytes) (size : option Z) : bytes :=
  match size with
  | Some n => file ++ replicate (Z.to_nat n - length file) Byte.x00
  | None => file
  end.

Definition write_blocks (file : bytes) (blocks : list (Z * bytes)) : bytes :=
  fold_left (λ f '(off, buf), write_at f (Z.to_nat off) buf) blocks file.

(** The file after the data sync, and after the metadata sync. *)
Definition data_written (file : bytes) (pl : Plan) : bytes :=
  write_blocks (extend_to file (pl_size pl)) (pl_blocks pl).
Definition committed (file : bytes) (pl : Plan) : bytes :=
  write_blocks (data_written file pl) [pl_meta_block pl].

End db.

(** ** Validation is local *)

Section local.
Context `{D : Digest}.

Lemma validate_block_spec buf id pagesize_ p :
  len_u64 buf <= isize_max → 0 <= id → 0 <= pagesize_ →
  validate_block buf id pagesize_ = Ok p ↔
  ∃ block_len, span_ok buf id pagesize_ p block_len ∧
    verify_checksum (take (Z.to_nat block_len) (drop p buf)) id = Ok () ∧
    layout_ok buf p (block_len - CHECKSUM_SIZE).
Proof.
  intros Hlen Hid Hps. unfold validate_block. split.
  - intros H. destruct (validate_span buf id pagesize_) as [[q L]| |] eqn:Es; [|done..].
    cbn -[validate_layout verify_checksum] in H. res_inv. destruct a, a0.
    apply validate_span_spec in Es as Hs; [|done..]. exists L. split; [done|]. split; [done|].
    destruct Hs as (_ & _ & _ & Ht & _ & _ & Hend). apply validate_layout_spec in E0; [done| |done].
    unfold isize_max, u64_max, CHECKSUM_SIZE in *. lia.
  - intros (L & Hs & Hv & Hl). rewrite (proj2 (validate_span_spec buf id pagesize_ p L Hlen Hid Hps) Hs).
    cbn -[validate_layout verify_checksum]. rewrite Hv. cbn -[validate_layout].
    destruct Hs as (_ & _ & _ & Ht & _ & _ & Hend).
    rewrite (proj2 (validate_layout_spec buf p (L - CHECKSUM_SIZE) ltac:(unfold isize_max, u64_max, CHECKSUM_SIZE in *; lia) Ht) Hl).
    done.
Qed.

(** A page without overflow whose bytes two files share. *)
Definition same_block (f f' : bytes) (ps id : Z) : Prop :=
  let p := Z.to_nat (id * ps) in
  take (Z.to_nat ps) (drop p f) = take (Z.to_nat ps) (drop p f') ∧
  id * ps + ps <= len_u64 f ∧ id * ps + ps <= len_u64 f' ∧ page_overflow_at f p = 0.

Lemma same_block_sym f f' ps id :
  1024 <= ps → 0 <= id → same_block f f' ps id → same_block f' f ps id.
Proof.
  intros Hps Hid (E & H1 & H2 & Ho). split_and!; try done. unfold len_u64 in *.
  assert (0 <= id * ps) by nia.
  destruct (page_prefix f' (Z.to_nat (id * ps)) (take (Z.to_nat ps) (drop (Z.to_nat (id * ps)) f)) (Z.to_nat ps))
    as (_ & _ & _ & -> & _); [by rewrite take_take, Nat.min_id|lia|rewrite length_take, length_drop; lia|lia|].
  rewrite <-Ho. apply (page_overflow_block f _ (Z.to_nat ps)); lia.
Qed.

Lemma same_block_valid f f' ps id q :
  1024 <= ps → 0 <= id → len_u64 f <= isize_max → len_u64 f' <= isize_max → same_block f f' ps id →
  validate_block f id ps = Ok q → validate_block f' id ps = Ok q.
Proof.
  intros Hps Hid Hl Hl' (E & H1 & H2 & Ho). rewrite !validate_block_spec by (done || lia).
  intros (L & (Ep & Hal & Eid & Ht & -> & Hmin & Hend) & Hv & Hlay).
  assert (q = Z.to_nat (id * ps)) as -> by lia. set (p := Z.to_nat (id * ps)) in *.
  rewrite Ho in *. replace ((0 + 1) * ps) with ps in * by lia. unfold len_u64 in *.
  set (B := take (Z.to_nat ps) (drop p f)) in *.
  assert (length B = Z.to_nat ps) as HB by (unfold B; rewrite length_take, length_drop; lia).
  destruct (page_prefix f p B (Z.to_nat ps)) as (Bid & Bty & _ & Bov & Blay & _); [unfold B; by rewrite take_take, Nat.min_id|lia..|].
  destruct (page_prefix f' p B (Z.to_nat ps)) as (Fid & Fty & _ & Fov & Flay & _); [rewrite <-E; unfold B; by rewrite take_take, Nat.min_id|lia..|].
  exists ps. split_and!.
  - unfold span_ok, len_u64. rewrite Fid, Fty, Fov, <-Bid, <-Bty, <-Bov, Ho. split_and!; try done; lia.
  - by rewrite <-E.
  - apply Flay; [unfold CHECKSUM_SIZE; lia|]. apply Blay; [unfold CHECKSUM_SIZE; lia|done].
Qed.

Lemma checked_usize_no_panic id v f : no_panic (checked_usize id v f).
Proof. unfold checked_usize. no_panic. Qed.
#[local] Hint Resolve checked_usize_no_panic : no_panic.

Lemma ensure_end_no_panic id off len l : no_panic (ensure_end id off len l).
Proof. unfold ensure_end. no_panic. Qed.
#[local] Hint Resolve ensure_end_no_panic : no_panic.

Lemma checked_size_no_panic id c s : no_panic (checked_size id c s).
Proof. unfold checked_size. no_panic. Qed.
#[local] Hint Resolve checked_size_no_panic : no_panic.

Lemma for_each_no_panic {A} (f : nat → A → res unit) k l :
  (∀ i x, no_panic (f i x)) → no_panic (for_each_indexed f k l).
Proof. intros Hf. revert k. induction l as [|x l IH]; intros k; cbn; no_panic. Qed.

Lemma validate_layout_no_panic buf p limit :
  known_page_type (page_type_at buf p) = true → no_panic (validate_layout buf p limit).
Proof.
  intros Hk. unfold known_page_type in Hk. unfold validate_layout, branch_elements, leaf_elements. cbv zeta.
  destruct (Z.eqb_spec (page_type_at buf p) TYPE_META); [no_panic|].
  destruct (Z.eqb_spec (page_type_at buf p) TYPE_FREELIST); [no_panic|].
  destruct (Z.eqb_spec (page_type_at buf p) TYPE_BRANCH).
  { cbn [assert_that]. no_panic. apply for_each_no_panic. intros i x. unfold validate_branch. no_panic. }
  destruct (Z.eqb_spec (page_type_at buf p) TYPE_LEAF); [|done].
  cbn [assert_that]. no_panic. apply for_each_no_panic. intros i x. unfold validate_leaf. no_panic.
Qed.

Lemma validate_span_no_panic buf id ps : no_panic (validate_span buf id ps).
Proof. unfold validate_span. no_panic. Qed.
#[local] Hint Resolve validate_span_no_panic : no_panic.

Lemma validate_span_type buf id ps p L :
  validate_span buf id ps = Ok (p, L) → known_page_type (page_type_at buf p) = true.
Proof.
  unfold validate_span. intros H. res_inv. simplify_eq.
  repeat match goal with H : negb _ = false |- _ => apply negb_false_iff in H end. done.
Qed.

Lemma validate_block_no_panic buf id ps : no_panic (validate_block buf id ps).
Proof.
  unfold validate_block. apply no_panic_bind; [auto with no_panic|]. intros [p L] Es.
  apply no_panic_bind; [unfold verify_checksum; no_panic|]. intros _ _.
  apply no_panic_bind; [|no_panic]. by eapply validate_layout_no_panic, validate_span_type.
Qed.

Lemma same_block_slot f f' ps id :
  1024 <= ps → 0 <= id → len_u64 f <= isize_max → len_u64 f' <= isize_max → same_block f f' ps id →
  slot_meta f ps id = slot_meta f' ps id.
Proof.
  intros Hps Hid Hl Hl' Hs. pose proof (same_block_sym _ _ _ _ Hps Hid Hs) as Hs'.
  unfold slot_meta. destruct (validate_block f id ps) as [q|e|w] eqn:Ev; [| |by pose proof (validate_block_no_panic f id ps) as Hnp; rewrite Ev in Hnp].
  - rewrite (same_block_valid f f' ps id q) by done.
    apply validate_block_spec in Ev as (L & (Ep & _) & _); [|done|done|lia].
    destruct Hs as (E & H1 & H2 & Ho). assert (q = Z.to_nat (id * ps)) as -> by lia. set (p := Z.to_nat (id * ps)) in *. unfold len_u64 in *.
    assert (∀ n o, (o + n <= Z.to_nat ps)%nat → rd n f (p + o) = rd n f' (p + o)) as Hrd.
    { intros n o Ho'. rewrite <-!(rd_block _ p (Z.to_nat ps)) by lia. by rewrite E. }
    assert (page_meta f p = page_meta f' p) as ->; [|done].
    unfold page_meta, page_type_at, page_off_type, meta_read, page_off_ptr. rewrite <-!Nat.add_assoc. rewrite !Hrd by lia. done.
  - destruct (validate_block f' id ps) as [q|e'|w] eqn:Ev'; [|done|by pose proof (validate_block_no_panic f' id ps) as Hnp; rewrite Ev' in Hnp].
    apply (same_block_valid f' f ps id q) in Ev'; try done. congruence.
Qed.

End local.

(** ** Publishing metadata *)

Lemma of_le_zeros n : of_le (replicate n Byte.x00) = 0.
Proof. induction n as [|n IH]; cbn; [done|]. by rewrite IH. Qed.

Lemma rd_zeros n k o : rd n (replicate k Byte.x00) o = 0.
Proof. unfold rd. rewrite drop_replicate, take_replicate. apply of_le_zeros. Qed.

Section meta_image.
Context (ps slot : Z) (m : Meta).
Hypothesis Hps : 1024 <= ps.
Hypothesis Hslot : 0 <= slot <= 1.
Hypothesis Hm : meta_wf m.

Let base := wr8 (wr64 (replicate (Z.to_nat ps) Byte.x00) page_off_id slot) page_off_type TYPE_META.

Lemma length_base : length base = Z.to_nat ps.
Proof.
  unfold base, page_off_id, page_off_type. rewrite !length_wr; rewrite ?length_wr; rewrite length_replicate; lia.
Qed.

Lemma length_meta_image : length (meta_image ps slot m) = Z.to_nat ps.
Proof.
  unfold meta_image. fold base. rewrite length_meta_write; rewrite length_base; [done|]. unfold page_off_ptr. lia.
Qed.

Lemma meta_image_header n o : (o + n <= 32)%nat → rd n (meta_image ps slot m) o = rd n base o.
Proof.
  intros Ho. unfold meta_image. fold base. apply (rd_wr_fields_outside _ _ 72); [done| |unfold page_off_ptr; lia].
  rewrite length_base. unfold page_off_ptr. lia.
Qed.

Lemma meta_image_id : page_id_at (meta_image ps slot m) 0 = slot.
Proof.
  unfold page_id_at, page_off_id. rewrite meta_image_header by lia. unfold base, page_off_type, page_off_id.
  rewrite rd_wr_other by (rewrite ?length_wr; rewrite ?length_replicate; lia).
  apply rd_wr_same; [rewrite length_replicate; lia|]. change (256 ^ Z.of_nat 8) with u64_mod. unfold u64_mod. lia.
Qed.

Lemma meta_image_type : page_type_at (meta_image ps slot m) 0 = TYPE_META.
Proof.
  unfold page_type_at, page_off_type. rewrite meta_image_header by lia. unfold base, page_off_type, page_off_id.
  apply rd_wr_same; [rewrite length_wr; rewrite length_replicate; lia|by cbv].
Qed.

Lemma meta_image_overflow : page_overflow_at (meta_image ps slot m) 0 = 0.
Proof.
  unfold page_overflow_at, page_off_overflow. rewrite meta_image_header by lia. unfold base, page_off_type, page_off_id.
  rewrite !rd_wr_other by (rewrite ?length_wr; rewrite ?length_replicate; lia). apply rd_zeros.
Qed.

Lemma meta_image_read : meta_read (meta_image ps slot m) page_off_ptr = m.
Proof.
  unfold meta_image. fold base. apply meta_read_write; [done|]. rewrite length_base. unfold page_off_ptr. lia.
Qed.

Lemma meta_image_layout : layout_ok (meta_image ps slot m) 0 (ps - CHECKSUM_SIZE).
Proof. left. split; [apply meta_image_type|]. unfold META_SIZE_OF, CHECKSUM_SIZE. lia. Qed.

End meta_image.

Section publish.
Context `{D : Digest}.
Context (ps : Z).
Hypothesis Hps : 1024 <= ps ∧ ps mod 8 = 0.

(** A metadata block of this format, stored in its slot, is what the slot reads. *)
Lemma publish_slot file slot m S :
  0 <= slot <= 1 → meta_wf m → meta_valid m = true → magic m = MAGIC_VALUE → version m = FORMAT_VERSION → pagesize m = ps →
  2 * ps <= len_u64 file → len_u64 file <= isize_max →
  seal_block (meta_image ps slot m) = Ok S →
  let file' := write_at file (Z.to_nat (slot * ps)) S in
  slot_meta file' ps slot = Ok (Some m) ∧ length file' = length file ∧ length S = Z.to_nat ps ∧
  page_overflow_at file' (Z.to_nat (slot * ps)) = 0.
Proof.
  intros Hslot Hwf Hv Hmg Hver Hmps Hl Hl' Hseal. destruct Hps as [Hps0 Hal].
  pose proof (length_meta_image ps slot m Hps0) as HB. set (B := meta_image ps slot m) in *.
  pose proof (meta_image_id ps slot m Hps0 Hslot) as Bid. pose proof (meta_image_type ps slot m Hps0) as Bty.
  pose proof (meta_image_overflow ps slot m Hps0) as Bov. pose proof (meta_image_read ps slot m Hps0 Hwf) as Brd.
  pose proof (meta_image_layout ps slot m Hps0) as Blay. fold B in Bid, Bty, Bov, Brd, Blay.
  assert (0 <= slot * ps ∧ slot * ps + ps <= 2 * ps) as [Hs0 Hs1] by nia.
  assert (len_u64 B = ps) as HBu by (unfold len_u64; lia).
  destruct (stored_view file B S slot ps 1) as (Elen & Hview & Hpre); try done; try lia.
  destruct (stored_page_valid file B S slot ps 1) as [Hval _]; try done; try lia; try (by rewrite HBu); try (by rewrite Bty).
  change (stored file S slot ps) with (write_at file (Z.to_nat (slot * ps)) S) in *.
  set (file' := write_at file (Z.to_nat (slot * ps)) S) in *. set (p := Z.to_nat (slot * ps)) in *.
  unfold len_u64 in *. rewrite HB in *.
  assert (∀ n o, (o + n <= Z.to_nat ps - 32)%nat → rd n file' (p + o) = rd n B o) as Hrd.
  { intros n o Ho. rewrite <-(rd_block file' p (Z.to_nat ps - 32)) by lia. rewrite Hpre. by apply rd_take. }
  split_and!; [|done| |].
  - unfold slot_meta. rewrite Hval. unfold page_meta, page_type_at, page_off_type in *. rewrite Hrd by lia.
    rewrite Nat.add_0_l in Bty. rewrite Bty. cbn [Z.eqb TYPE_META Pos.eqb assert_that mbind res_bind].
    assert (meta_read file' (p + page_off_ptr) = m) as ->.
    { rewrite <-Brd. unfold meta_read, page_off_ptr. rewrite <-!Nat.add_assoc. rewrite !Hrd by lia. done. }
    rewrite Hv, Hmg, Hver, Hmps, !Z.eqb_refl. done.
  - destruct (seal_block_ok B) as (S' & E & HS & _); [lia|]. rewrite Hseal in E. injection E as <-. lia.
  - unfold page_overflow_at, page_off_overflow in *. rewrite Hrd by lia. done.
Qed.

(** Writing one slot leaves the other. *)
Lemma other_slot_kept file slot S :
  0 <= slot <= 1 → length S = Z.to_nat ps → 2 * ps <= len_u64 file →
  page_overflow_at file (Z.to_nat ((1 - slot) * ps)) = 0 →
  same_block file (write_at file (Z.to_nat (slot * ps)) S) ps (1 - slot).
Proof.
  intros Hslot HS Hl Ho. destruct Hps as [Hps0 _]. unfold len_u64 in *.
  assert (length (write_at file (Z.to_nat (slot * ps)) S) = length file) as Elen by (apply length_write_at; nia).
  unfold same_block, len_u64. rewrite Elen. split_and!; [|nia|nia|done]. symmetry.
  assert (slot = 0 ∨ slot = 1) as [->| ->] by lia.
  - apply write_at_read_after; lia.
  - apply write_at_read_before; lia.
Qed.

End publish.

(** ** The freelist page *)

Lemma rd_write_at_in n buf a bs o :
  (a <= length buf)%nat → (o + n <= length bs)%nat → rd n (write_at buf a bs) (a + o) = rd n bs o.
Proof.
  intros Ha Ho. unfold rd. f_equal. rewrite <-drop_drop, drop_write_at by done.
  rewrite drop_app_le by lia. rewrite take_app_le; [done|]. rewrite length_drop. lia.
Qed.

Lemma length_retired_bytes e : length (retired_bytes e) = 16%nat.
Proof. unfold retired_bytes. by rewrite length_app, !length_le_bytes. Qed.

Lemma length_retired_list es : length (es ≫= retired_bytes) = (16 * length es)%nat.
Proof. induction es as [|e es IH]; [done|]. cbn [mbind list_bind]. rewrite length_app, length_retired_bytes. fold (es ≫= retired_bytes). rewrite IH. cbn. lia. Qed.

Definition retired_fits (e : RetiredPage) : Prop := in_u64 (page_id e) ∧ in_u64 (retired_tx_id e).

(** Entry [i] of the concatenated structs. *)
Lemma retired_list_read es i e :
  es !! i = Some e → retired_fits e → retired_page_at (es ≫= retired_bytes) (i * 16) = e.
Proof.
  revert i. induction es as [|x es IH]; intros i Hi Hf; [done|].
  change ((x :: es) ≫= retired_bytes) with (retired_bytes x ++ (es ≫= retired_bytes)). destruct i as [|i].
  - cbn in Hi. injection Hi as ->. destruct Hf as [H1 H2]. unfold retired_page_at. cbn [Nat.mul Nat.add].
    rewrite !rd_app_l by (rewrite length_retired_bytes; lia). unfold retired_bytes, rd. destruct e as [p t]. f_equal.
    + rewrite drop_0, take_app_length' by (by rewrite length_le_bytes). by apply of_le_bytes8.
    + rewrite drop_app_length' by (by rewrite length_le_bytes). rewrite take_ge by (by rewrite length_le_bytes). by apply of_le_bytes8.
  - cbn in Hi. rewrite <-(IH i Hi Hf). unfold retired_page_at.
    f_equal.
Qed.

Lemma write_freelist_page_ok buf es :
  (40 + 16 * length es <= length buf)%nat → len_u64 buf <= isize_max → Forall retired_fits es →
  let B := write_freelist_page buf es in
  length B = length buf ∧ page_id_at B 0 = page_id_at buf 0 ∧ page_overflow_at B 0 = page_overflow_at buf 0 ∧
  page_type_at B 0 = TYPE_FREELIST ∧ page_count_at B 0 = len_u64 es ∧ retired_pages B 0 = Ok es.
Proof.
  intros Hl Hmax Hes B. pose proof (length_retired_list es) as Hrl.
  set (base := wr64 (wr8 buf page_off_type TYPE_FREELIST) page_off_count (len_u64 es)).
  assert (length base = length buf) as Hb.
  { unfold base, page_off_type, page_off_count. rewrite !length_wr; rewrite ?length_wr; lia. }
  assert (∀ n o, (o + n <= 32)%nat → rd n B o = rd n base o) as Hh.
  { intros n o Ho. unfold B, write_freelist_page. fold base. apply rd_write_at_other; unfold page_off_ptr; lia. }
  assert (page_type_at B 0 = TYPE_FREELIST) as Ht.
  { unfold page_type_at, page_off_type. rewrite Hh by lia. unfold base, page_off_type, page_off_count.
    rewrite rd_wr_other by (rewrite ?length_wr; lia). apply rd_wr_same; [lia|by cbv]. }
  assert (page_count_at B 0 = len_u64 es) as Hc.
  { unfold page_count_at, page_off_count. rewrite Hh by lia. unfold base, page_off_type, page_off_count.
    apply rd_wr_same; [rewrite length_wr; lia|]. change (256 ^ Z.of_nat 8) with u64_mod. unfold u64_mod, isize_max, len_u64 in *. lia. }
  split_and!; try done.
  - unfold B, write_freelist_page. fold base. rewrite length_write_at; unfold page_off_ptr; lia.
  - unfold page_id_at, page_off_id. rewrite Hh by lia. unfold base, page_off_type, page_off_count.
    rewrite !rd_wr_other by (rewrite ?length_wr; lia). done.
  - unfold page_overflow_at, page_off_overflow. rewrite Hh by lia. unfold base, page_off_type, page_off_count.
    rewrite !rd_wr_other by (rewrite ?length_wr; lia). done.
  - unfold retired_pages. rewrite Ht. cbn [Z.eqb TYPE_FREELIST Pos.eqb assert_that mbind res_bind]. f_equal.
    rewrite <-(list_fmap_id (table _ _ _ _)). apply table_eq; [done|]. intros i e Hi. cbn [id].
    rewrite Forall_lookup in Hes. rewrite <-(retired_list_read es i e Hi) by (by eapply Hes).
    apply lookup_lt_Some in Hi as Hlt. unfold retired_page_at, B, write_freelist_page. fold base.
    rewrite Nat.add_0_l. rewrite <-(Nat.add_assoc page_off_ptr).
    rewrite !rd_write_at_in by (unfold page_off_ptr; lia). done.
Qed.

Lemma fresh_page_header p n stored :
  40 <= stored → in_u64 p → in_u64 (n - 1) →
  page_id_at (fresh_page p n stored) 0 = p ∧ page_overflow_at (fresh_page p n stored) 0 = n - 1.
Proof.
  intros Hs Hp Hn. unfold fresh_page, page_id_at, page_overflow_at, page_off_id, page_off_overflow. split.
  - rewrite rd_wr_other by (rewrite ?length_wr; rewrite ?length_replicate; lia).
    apply rd_wr_same; [rewrite length_replicate; lia|]. by change (256 ^ Z.of_nat 8) with u64_mod.
  - apply rd_wr_same; [rewrite length_wr; rewrite length_replicate; lia|]. by change (256 ^ Z.of_nat 8) with u64_mod.
Qed.

(** Replacing the contents of a dirty block. *)
Lemma set_page_buf_wf tf p buf buf' :
  tx_freelist_wf tf → tf_pages tf !! p = Some buf → length buf' = length buf → tx_freelist_wf (set_page_buf tf p buf').
Proof.
  intros (Hps & H2 & Hfl & Hblk & Hin & Hdisj) Hp Hl.
  assert (∀ q k, dirty_block (set_page_buf tf p buf') q k ↔ dirty_block tf q k) as Hd.
  { intros q k. unfold dirty_block, set_page_buf. cbn. rewrite lookup_insert. case_decide as E; [subst|done].
    rewrite Hp. split; intros (H1 & x & [= <-] & Hx); split; try done; eexists; (split; [done|]); congruence. }
  split_and!; try done.
  - intros q Hq. cbn in Hq. rewrite lookup_insert in Hq. destruct (Hblk q) as [k Hk].
    { case_decide; [subst; by rewrite Hp|done]. } exists k. by apply Hd.
  - intros q k x Hqk%Hd. by apply Hin.
  - intros q1 n1 q2 n2 x H1%Hd H2'%Hd. by eapply Hdisj.
Qed.

(** Every id and generation of a transaction's freelist fits on disk. *)
Definition freelist_u64 (tf : TxFreelist) : Prop :=
  num_pages (tf_meta tf) <= u64_max ∧ in_u64 (tx_id (tf_meta tf)) ∧ tx_id (tf_meta tf) ≠ 0 ∧
  (∀ t, pending_at (tf_inner tf) t ≠ [] → in_u64 t ∧ t ≠ 0).

(** A dirty freelist page that holds the transaction's freelist. *)
Definition freelist_image (B : bytes) (fp ps : Z) (fl : Freelist) : Prop :=
  ∃ k, 1 <= k ∧ len_u64 B = k * ps ∧ page_id_at B 0 = fp ∧ page_overflow_at B 0 = k - 1 ∧
    page_type_at B 0 = TYPE_FREELIST ∧ retired_pages B 0 = Ok (freelist_entries fl) ∧
    layout_ok B 0 (len_u64 B - CHECKSUM_SIZE).

Section freelist_commit.
Context (tf : TxFreelist) (old n : Z).
Let tf0 := tx_free tf old n.
Let ps := pagesize (tf_meta tf).
Let size := freelist_size (tf_inner tf0).
Hypothesis Hwf : tx_freelist_wf tf.
Hypothesis Hret : retirable tf old n.
Hypothesis Hu64 : freelist_u64 tf.
Hypothesis Hsize : size + CHECKSUM_SIZE + ps <= isize_max.
Hypothesis Hnp : num_pages (tf_meta tf) + pages_for ps size <= u64_max.

(** Generations of the retired pages. *)
Lemma retired_generations t : pending_at (tf_inner tf0) t ≠ [] → in_u64 t ∧ t ≠ 0.
Proof.
  destruct Hu64 as (_ & Htx & Htx0 & Hgen). destruct (tx_free_spec tf old n) as (_ & _ & _ & Ep).
  unfold tf0. rewrite Ep. case_decide; [by subst|apply Hgen].
Qed.

(** What the allocation of the freelist page leaves. *)
Lemma freelist_page_allocated p tf2 :
  tx_allocate tf0 size = Ok (p, tf2) →
  let k := pages_for ps size in
  tx_freelist_wf tf2 ∧ tf_pages tf2 !! p = Some (fresh_page p k (k * ps)) ∧
  tf_meta tf2 = set_num_pages (tf_meta tf) (num_pages (tf_meta tf2)) ∧ num_pages (tf_meta tf2) <= u64_max ∧
  pending_pages (tf_inner tf2) = pending_pages (tf_inner tf0) ∧
  free_pages (tf_inner tf2) ⊆ free_pages (tf_inner tf0) ∧
  1024 <= ps ∧ 1 <= k ∧ size + CHECKSUM_SIZE <= k * ps <= isize_max ∧ 2 <= p < num_pages (tf_meta tf2).
Proof.
  intros Ea. cbv zeta.
  pose proof (tx_free_wf tf old n Hwf Hret) as Hwf0. fold tf0 in Hwf0.
  destruct (tx_free_spec tf old n) as (Em & _ & _ & _). fold tf0 in Em.
  pose proof Hwf as (Hps & H2 & _). fold ps in Hps. clear Hu64.
  assert (40 <= size) as H40 by (unfold size; rewrite freelist_size_alt; lia).
  assert (u64_max = 2 ^ 64 - 1 ∧ isize_max = 2 ^ 63 - 1 ∧ CHECKSUM_SIZE = 32) as (Eu & Ei & Ec) by done.
  pose proof (pages_for_pos ps size Hps ltac:(lia) ltac:(lia)) as Hk.
  assert (pagesize (tf_meta tf0) = ps) as Eps by (by rewrite Em).
  assert (num_pages (tf_meta tf0) = num_pages (tf_meta tf)) as En by (by rewrite Em).
  destruct (tx_allocate_meta tf0 size p tf2) as [Emeta Hnp2]; [rewrite En; lia|rewrite Eps; lia|rewrite Eps, En; lia|done|].
  destruct (tx_allocate_inv tf0 size p tf2) as (_ & m' & fl' & Etf2 & _ & _ & _ & Hsub & Epend & Hnew);
    [done|rewrite Eps; lia|rewrite Eps, En; lia|done|].
  destruct (tx_allocate_ok tf0 size p tf2) as (Hwf2 & Hbuf & Hbnd & Hfresh);
    [done|rewrite Eps; lia|rewrite Eps, En; lia|done|].
  rewrite Eps in Hnp2, Hnew, Hbuf, Hbnd, Hfresh. rewrite En in Hnp2. rewrite Em in Emeta.
  destruct (Hnew p) as (Hp2 & _); [lia|]. destruct (Hfresh p) as (_ & Hpn & _); [lia|].
  rewrite Etf2 in *. cbn [tf_inner tf_meta] in *. split_and!; try done; lia.
Qed.

Lemma allocated_entries tf2 :
  tx_freelist_wf tf2 → num_pages (tf_meta tf2) <= u64_max →
  pending_pages (tf_inner tf2) = pending_pages (tf_inner tf0) →
  free_pages (tf_inner tf2) ⊆ free_pages (tf_inner tf0) →
  Forall retired_fits (freelist_entries (tf_inner tf2)) ∧
  40 + 16 * len_u64 (freelist_entries (tf_inner tf2)) <= size.
Proof.
  intros (_ & _ & (Hfree & Hpend & _) & _) Hmax Epend Hsub. unfold u64_max in Hmax. split.
  - apply Forall_forall. intros e He%elem_of_freelist_entries.
    destruct He as [[Hp Ht]|[Hp Hs]]; split.
    + apply Hfree in Hp. unfold in_u64, u64_mod. lia.
    + rewrite Ht. by cbv.
    + apply Hpend in Hp as [Hp _]. unfold in_u64, u64_mod. lia.
    + apply retired_generations. unfold pending_at. rewrite <-Epend. intros E. unfold pending_at in Hp. rewrite E in Hp. set_solver.
  - unfold size. rewrite freelist_size_alt. apply subseteq_size in Hsub. unfold len_u64.
    rewrite !length_freelist_entries. unfold pending_list, sorted_keys, pending_at. rewrite Epend. lia.
Qed.

Lemma write_freelist_steps fp tf1 :
  write_freelist tf old n = Ok (fp, tf1) →
  ∃ tf2 B, tx_allocate tf0 size = Ok (fp, tf2) ∧ tf1 = set_page_buf tf2 fp B ∧
    len_u64 B = pages_for ps size * ps ∧ freelist_image B fp ps (tf_inner tf2).
Proof.
  intros H. unfold write_freelist in H. fold tf0 size in H.
  destruct (tx_allocate tf0 size) as [[p tf2]| |] eqn:Ea; [|done..]. cbn -[page_id_at write_freelist_page] in H.
  destruct (freelist_page_allocated p tf2 Ea) as (Hwf2 & Hbuf & Emeta & Hmax & Epend & Hsub & Hps & Hk & Hbnd & Hp).
  destruct (allocated_entries tf2 Hwf2 Hmax Epend Hsub) as [Hfits Hcount]. unfold u64_max in Hmax.
  assert (isize_max = 2 ^ 63 - 1 ∧ CHECKSUM_SIZE = 32 ∧ u64_mod = 2 ^ 64) as (Ei & Ec & Eu) by done.
  set (k := pages_for ps size) in *. clearbody k. rewrite Hbuf in H. cbn [mbind res_bind unwrap] in H.
  set (B := write_freelist_page (fresh_page p k (k * ps)) (freelist_entries (tf_inner tf2))) in *.
  assert (page_id_at (fresh_page p k (k * ps)) 0 = fp ∧ tf1 = set_page_buf tf2 p B) as [Efp ->] by (split; congruence). clear H.
  destruct (fresh_page_header p k (k * ps)) as [Hid Hov]; [nia|unfold in_u64; lia|unfold in_u64; nia|].
  rewrite Hid in Efp. subst p.
  assert (Z.of_nat (length (fresh_page fp k (k * ps))) = k * ps) as Hlen by (apply length_fresh_page; nia).
  destruct (write_freelist_page_ok (fresh_page fp k (k * ps)) (freelist_entries (tf_inner tf2)))
    as (Bl & Bid & Bov & Bty & Bc & Bret); [unfold len_u64 in *; lia|unfold len_u64; lia|done|]. fold B in Bl, Bid, Bov, Bty, Bc, Bret.
  assert (len_u64 B = k * ps) as EB by (unfold len_u64; rewrite Bl; lia). clearbody B.
  exists tf2, B. split_and!; try done. exists k.
  split_and!; try done; [congruence..|]. right. left. split; [done|]. rewrite Bc, EB, Ec. unfold RETIRED_SIZE_OF. lia.
Qed.

(** The freelist page is not listed in the freelist it holds. *)
Lemma write_freelist_unlisted fp tf1 x :
  write_freelist tf old n = Ok (fp, tf1) → fp <= x < fp + pages_for ps size →
  2 <= x < num_pages (tf_meta tf1) ∧ (x ∉ free_pages (tf_inner tf1)) ∧ ∀ t, x ∉ pending_at (tf_inner tf1) t.
Proof.
  intros H Hx. destruct (write_freelist_steps fp tf1 H) as (tf2 & B & Ea & -> & _).
  destruct (freelist_page_allocated fp tf2 Ea) as (_ & _ & _ & _ & _ & _ & Hps & _ & _ & Hp).
  pose proof (tx_free_wf tf old n Hwf Hret) as Hwf0. fold tf0 in Hwf0.
  destruct (tx_free_spec tf old n) as (Em & _). fold tf0 in Em.
  destruct (tx_allocate_ok tf0 size fp tf2) as (_ & _ & _ & Hfresh);
    [done|rewrite Em; fold ps; unfold u64_max, isize_max in *; lia|by rewrite Em|done|].
  rewrite Em in Hfresh. fold ps in Hfresh. destruct (Hfresh x Hx) as (_ & H1 & H2 & H3 & _). cbn [tf_meta tf_inner set_page_buf]. split_and!; try done; lia.
Qed.

Lemma write_freelist_image fp tf1 :
  write_freelist tf old n = Ok (fp, tf1) →
  tx_freelist_wf tf1 ∧ tf_meta tf1 = set_num_pages (tf_meta tf) (num_pages (tf_meta tf1)) ∧
  num_pages (tf_meta tf1) <= u64_max ∧ (2 <= fp) ∧
  pending_pages (tf_inner tf1) = pending_pages (tf_inner tf0) ∧
  ∃ B, tf_pages tf1 !! fp = Some B ∧ freelist_image B fp ps (tf_inner tf1).
Proof.
  intros H. destruct (write_freelist_steps fp tf1 H) as (tf2 & B & Ea & -> & HB & Him).
  destruct (freelist_page_allocated fp tf2 Ea) as (Hwf2 & Hbuf & Emeta & Hmax & Epend & _ & Hps & Hk & _ & Hp).
  split_and!; try done; [|lia|exists B; split; [apply lookup_insert_eq|done]].
  eapply set_page_buf_wf; [done..|]. apply Nat2Z.inj. rewrite length_fresh_page by nia. done.
Qed.

(** Writing the freelist dirties no page but reusable and new ones. *)
Lemma write_freelist_fresh fp tf1 q k x :
  write_freelist tf old n = Ok (fp, tf1) → dirty_block tf1 q k → q <= x < q + k →
  dirty_block tf q k ∨ x ∈ free_pages (tf_inner tf) ∨ num_pages (tf_meta tf) <= x.
Proof.
  intros H Hd Hx. destruct (write_freelist_image fp tf1 H) as (_ & Emeta & _).
  destruct (write_freelist_steps fp tf1 H) as (tf2 & B' & Ea & E1 & HB & _).
  destruct (freelist_page_allocated fp tf2 Ea) as (_ & _ & _ & _ & _ & _ & Hps & Hk & _).
  pose proof (tx_free_wf tf old n Hwf Hret) as Hwf0. fold tf0 in Hwf0.
  destruct (tx_free_spec tf old n) as (Em & Eb & Ef & _). fold tf0 in Em, Eb, Ef.
  destruct (tx_allocate_inv tf0 size fp tf2) as (_ & m' & fl' & Etf2 & _ & _ & _ & _ & _ & Hnew);
    [done|rewrite Em; fold ps; unfold u64_max, isize_max in *; lia|by rewrite Em|done|].
  rewrite Em in Hnew, Etf2. fold ps in Hnew, Etf2. set (kp := pages_for ps size) in *. clearbody kp.
  destruct Hd as (Hk1 & B & EB & El). rewrite Emeta in El. change (pagesize (set_num_pages (tf_meta tf) _)) with ps in El.
  rewrite E1, Etf2 in EB. cbn [tf_pages set_page_buf] in EB. rewrite lookup_insert in EB. case_decide as Eq.
  - injection EB as <-. subst q. right. unfold len_u64 in HB. assert (k = kp) as -> by nia. rewrite <-Ef. apply Hnew. lia.
  - rewrite lookup_insert_ne, Eb in EB by done. left. split; [done|]. by exists B.
Qed.

End freelist_commit.
