(* ===== verification/Commit.v ===== *)
(** * Commit, crash and recovery

    What a commit plan of [Db] leaves in the file, and what opening the file
    finds after a crash at any point of the commit.  A crash may leave any
    mixture of old and new bytes inside the blocks whose writes have been issued
    but not synced; it leaves the bytes outside those blocks alone. *)

From S2P Require Import Prelude Search Support Layout Meta Freelist Node Page Db.

(** ** Files written in part *)

(** Byte [i] belongs to one of the blocks. *)
Definition covers (blocks : list (Z * bytes)) (i : nat) : Prop :=
  ∃ off buf, (off, buf) ∈ blocks ∧ off <= Z.of_nat i < off + len_u64 buf.

Definition blocks_in (f : bytes) (blocks : list (Z * bytes)) : Prop :=
  ∀ off buf, (off, buf) ∈ blocks → 0 <= off ∧ off + len_u64 buf <= len_u64 f.

(** [f'] is [f] with the blocks written in full, in part or not at all. *)
Definition torn (f : bytes) (blocks : list (Z * bytes)) (f' : bytes) : Prop :=
  length f' = length f ∧ ∀ i, ¬ covers blocks i → f' !! i = f !! i.

Lemma block_ext (f f' : bytes) (a n : nat) :
  (∀ i, (a <= i < a + n)%nat → f !! i = f' !! i) → take n (drop a f) = take n (drop a f').
Proof.
  intros H. apply list_eq. intros j. destruct (decide (j < n)%nat).
  - rewrite !lookup_take_lt, !lookup_drop by done. apply H. lia.
  - rewrite !lookup_take_ge by lia. done.
Qed.

Lemma lookup_write_at_other (f : bytes) off b i :
  (off + length b <= length f)%nat → (i < off ∨ off + length b <= i)%nat → write_at f off b !! i = f !! i.
Proof.
  intros Hl [Hi|Hi]; unfold write_at.
  - rewrite lookup_app_l by (rewrite length_take; lia). by apply lookup_take_lt.
  - rewrite !lookup_app_r by (rewrite ?length_take; lia). rewrite length_take, lookup_drop. f_equal. lia.
Qed.

Lemma write_blocks_snoc f blocks off b :
  write_blocks f (blocks ++ [(off, b)]) = write_at (write_blocks f blocks) (Z.to_nat off) b.
Proof. unfold write_blocks. by rewrite fold_left_app. Qed.

Lemma blocks_in_app f bs1 bs2 : blocks_in f (bs1 ++ bs2) ↔ blocks_in f bs1 ∧ blocks_in f bs2.
Proof.
  unfold blocks_in. split; [intros H; split|intros [H1 H2]]; intros off buf; set_solver.
Qed.

Lemma write_blocks_torn f blocks : blocks_in f blocks → torn f blocks (write_blocks f blocks).
Proof.
  induction blocks as [|[off b] blocks IH] using rev_ind; [done|]. intros [[Hl Hk]%IH Hb]%blocks_in_app.
  rewrite write_blocks_snoc. destruct (Hb off b) as [H0 H1]; [set_solver|]. unfold len_u64 in *. split.
  - rewrite length_write_at; lia.
  - intros i Hi. rewrite lookup_write_at_other; [|lia|].
    + apply Hk. intros (o & b' & Hin & Hr). apply Hi. exists o, b'. set_solver.
    + destruct (decide (Z.of_nat i < off)); [lia|]. destruct (decide (off + Z.of_nat (length b) <= Z.of_nat i)); [lia|].
      destruct Hi. exists off, b. unfold len_u64. split; [set_solver|lia].
Qed.

(** Two blocks that are the same or do not meet. *)
Definition apart (x y : Z * bytes) : Prop :=
  x = y ∨ x.1 + len_u64 x.2 <= y.1 ∨ y.1 + len_u64 y.2 <= x.1.

Lemma write_blocks_read f blocks off b :
  blocks_in f blocks → (off, b) ∈ blocks → (∀ y, y ∈ blocks → apart (off, b) y) →
  take (length b) (drop (Z.to_nat off) (write_blocks f blocks)) = b.
Proof.
  induction blocks as [|[o c] blocks IH] using rev_ind; [set_solver|].
  intros [Hb Hc]%blocks_in_app Hin Hap. destruct (write_blocks_torn f blocks Hb) as [Hl _].
  destruct (Hc o c) as [H0 H1]; [set_solver|]. unfold len_u64 in *. rewrite write_blocks_snoc.
  destruct (Hap (o, c)) as [[= -> ->]|Hd]; [set_solver| |].
  - apply write_at_read. lia.
  - destruct (decide ((off, b) = (o, c))) as [[= -> ->]|Hne]; [apply write_at_read; lia|].
    assert ((off, b) ∈ blocks) as Hin' by set_solver.
    rewrite <-(IH Hb Hin') at 2 by (intros y Hy; apply Hap; set_solver). apply block_ext. intros i Hi.
    destruct (Hb off b Hin') as [Ho _]. apply lookup_write_at_other; [lia|]. unfold len_u64 in *. cbn in Hd. lia.
Qed.

(** A file that already holds the block at its place. *)
Lemma write_at_same (f : bytes) off b :
  (off + length b <= length f)%nat → take (length b) (drop off f) = b → write_at f off b = f.
Proof.
  intros Hl E. unfold write_at. transitivity (take off f ++ take (length b) (drop off f) ++ drop (off + length b) f); [by rewrite E|].
  rewrite <-(drop_drop f), take_drop. apply take_drop.
Qed.

(** ** Growing the file *)

(** The outcome of [grow_size], error paths included. *)
Definition grow_outcome (cfg : DbConfig) (current required : Z) (r : res (option Z)) : Prop :=
  match r with
  | Ok (Some n) => current < required <= n ∧ n < required + db_growth_increment cfg ∧
                   (∀ mx, db_max_file_bytes cfg = Some mx → n <= mx)
  | Ok None => required <= current ∧ (∀ mx, db_max_file_bytes cfg = Some mx → required <= mx)
  | Err (CapacityExceeded r mx) => r = required ∧ db_max_file_bytes cfg = Some mx ∧ mx < required
  | Err e => e = InvalidDB "file growth overflow" ∧ u64_max < required + db_growth_increment cfg
  | Panic _ => False
  end.

Lemma div_ceil_bounds a b : 0 <= a → 0 < b → a <= div_ceil a b * b < a + b.
Proof.
  intros Ha Hb. unfold div_ceil. pose proof (Z.div_mod (a + b - 1) b ltac:(lia)).
  pose proof (Z.mod_pos_bound (a + b - 1) b ltac:(lia)). nia.
Qed.

Lemma grow_size_outcome cfg current required :
  0 <= current <= u64_max → 0 <= required <= u64_max → 0 < db_growth_increment cfg →
  grow_outcome cfg current required (grow_size cfg current required).
Proof.
  intros Hc Hr Hi. set (inc := db_growth_increment cfg) in *.
  pose proof (div_ceil_bounds (Z.max 0 (required - current)) inc ltac:(lia) Hi) as Hk.
  unfold grow_size, grow_outcome. fold inc.
  destruct (db_max_file_bytes cfg) as [mx|] eqn:Emx; cbn -[div_ceil]; unfold fail_if.
  1: destruct (Z.ltb_spec mx required); cbn -[div_ceil]; [done|].
  all: destruct (Z.ltb_spec current required) as [Hlt|Hge]; [|split; [done|intros ? [=]; lia]].
  all: rewrite Z.max_r in Hk by lia; set (k := div_ceil (required - current) inc) in *.
  all: unfold checked_add, saturating_mul; destruct (Z.leb_spec (current + Z.min (k * inc) u64_max) u64_max); cbn.
  all: split_and!; try done; try lia; intros ? [=]; lia.
Qed.

(** Growing the file for a commit.  The commit is refused for lack of space
    exactly when the required size exceeds the configured maximum; otherwise the
    file keeps its size when that is enough, and grows to a size that holds every
    page, exceeds the required size by less than one increment and stays within
    the maximum; the only other error is a size that does not fit 64 bits. *)
Theorem grow_size_exact (cfg : DbConfig) (current required : Z) :
  0 <= current <= u64_max → 0 <= required <= u64_max → 0 < db_growth_increment cfg →
  match grow_size cfg current required with
  | Ok (Some n) => current < required <= n ∧ n < required + db_growth_increment cfg ∧
                   (∀ mx, db_max_file_bytes cfg = Some mx → n <= mx)
  | Ok None => required <= current ∧ (∀ mx, db_max_file_bytes cfg = Some mx → required <= mx)
  | Err (CapacityExceeded r mx) => r = required ∧ db_max_file_bytes cfg = Some mx ∧ mx < required
  | Err e => e = InvalidDB "file growth overflow" ∧ u64_max < required + db_growth_increment cfg
  | Panic _ => False
  end.
Proof.
  apply grow_size_outcome.
Qed.

Lemma grow_size_exact_witness :
  match grow_size (mkDbConfig 1024 (Some 8192) 4096) 4096 6144 with Ok (Some n) => n = 8192 | _ => False end.
Proof.
  pose proof (grow_size_exact (mkDbConfig 1024 (Some 8192) 4096) 4096 6144
    ltac:(unfold u64_max; lia) ltac:(unfold u64_max; lia) ltac:(cbn; lia)) as H.
  destruct (grow_size (mkDbConfig 1024 (Some 8192) 4096) 4096 6144) as [[n|]| |] eqn:E; vm_compute in E; try discriminate E.
  injection E as <-. reflexivity.
Defined.

(** ** The plan of a commit *)

Lemma res_map_elem {A B} (f : A → res B) l ys y :
  res_map f l = Ok ys → y ∈ ys ↔ ∃ x, x ∈ l ∧ f x = Ok y.
Proof.
  revert ys. induction l as [|x l IH]; intros ys H; cbn in H.
  - injection H as <-. set_solver.
  - destruct (f x) as [z| |] eqn:Ef; [|done..]. cbn in H. destruct (res_map f l) as [zs| |] eqn:El; [|done..].
    cbn in H. injection H as <-. rewrite elem_of_cons, (IH zs eq_refl). split.
    + intros [->|(x' & Hx & E)]; [by exists x; split; [left|]|exists x'; split; [by right|done]].
    + intros (x' & [->|Hx]%elem_of_cons & E); [left; congruence|right; by exists x'].
Qed.

Section plan.
Context `{D : Digest}.

Lemma seal_blocks_elem cfg tf blocks off S :
  seal_blocks cfg tf = Ok blocks →
  (off, S) ∈ blocks ↔ ∃ p B, tf_pages tf !! p = Some B ∧ seal_block B = Ok S ∧ off = db_pagesize cfg * p ∧ off <= u64_max.
Proof.
  intros H. rewrite (res_map_elem _ _ _ _ H). clear H. split.
  - intros (p & _ & H). destruct (tf_pages tf !! p) as [B|] eqn:EB; [|done]. cbn in H.
    destruct (seal_block B) as [S'| |] eqn:ES; [|done..]. cbn in H. unfold block_offset, checked_mul in H.
    destruct (Z.leb_spec (db_pagesize cfg * p) u64_max); [|done]. cbn in H. injection H as <- <-.
    exists p, B. done.
  - intros (p & B & EB & ES & -> & Ho). exists p. split; [apply elem_of_sorted_keys; by rewrite EB|].
    rewrite EB. cbn. rewrite ES. cbn. unfold block_offset, checked_mul.
    destruct (Z.leb_spec (db_pagesize cfg * p) u64_max); [done|lia].
Qed.

Lemma length_seal B S : seal_block B = Ok S → length S = length B.
Proof.
  intros H. destruct (decide (32 <= length B)%nat) as [Hl|Hl].
  - destruct (seal_block_ok B Hl) as (S' & E & HS & _). congruence.
  - unfold seal_block in H. res_inv. bool_to_prop. unfold len_u64, CHECKSUM_SIZE in *. lia.
Qed.

(** The dirty blocks lie in the data pages and do not meet. *)
Lemma sealed_blocks_placed cfg tf blocks :
  tx_freelist_wf tf → db_pagesize cfg = pagesize (tf_meta tf) → seal_blocks cfg tf = Ok blocks →
  (∀ off S, (off, S) ∈ blocks →
     2 * db_pagesize cfg <= off ∧ off + len_u64 S <= num_pages (tf_meta tf) * db_pagesize cfg) ∧
  (∀ x y, x ∈ blocks → y ∈ blocks → apart x y).
Proof.
  intros (Hps & H2 & _ & Hblk & Hin & Hdisj) Eps Hs. rewrite Eps in *. set (ps := pagesize (tf_meta tf)) in *.
  assert (∀ off S, (off, S) ∈ blocks → ∃ p n, off = ps * p ∧ len_u64 S = n * ps ∧ dirty_block tf p n ∧
    ∃ B, tf_pages tf !! p = Some B ∧ seal_block B = Ok S) as Hd.
  { intros off S (p & B & EB & ES & -> & _)%(seal_blocks_elem _ _ _ _ _ Hs).
    destruct (Hblk p) as (n & Hdb); [by rewrite EB|]. exists p, n. rewrite Eps. split_and!; [done| |done|by exists B].
    destruct Hdb as (_ & B' & EB' & El). rewrite EB in EB'. injection EB' as <-.
    unfold len_u64. by rewrite (length_seal B S ES). }
  split.
  - intros off S (p & n & -> & -> & Hdb & _)%Hd. pose proof Hdb as [Hn _].
    destruct (Hin p n p Hdb) as [Hp _]; [lia|]. destruct (Hin p n (p + n - 1) Hdb) as [Hp' _]; [lia|]. split; nia.
  - intros [o1 S1] [o2 S2] (p1 & n1 & -> & E1 & Hd1 & B1 & EB1 & ES1)%Hd (p2 & n2 & -> & E2 & Hd2 & B2 & EB2 & ES2)%Hd.
    unfold apart. cbn. rewrite E1, E2. destruct (decide (p1 = p2)) as [->|Hne]; [left; congruence|right].
    pose proof (Hdisj p1 n1 p2 n2 p1 Hd1 Hd2). pose proof (Hdisj p1 n1 p2 n2 p2 Hd1 Hd2).
    pose proof (proj1 Hd1). pose proof (proj1 Hd2).
    destruct (decide (p1 < p2)); [left|right]; nia.
Qed.

Lemma write_data_inv cfg len m nfp tf pl :
  write_data cfg len m nfp tf = Ok pl →
  ∃ fp tf1 S, write_freelist tf (freelist_page m) nfp = Ok (fp, tf1) ∧
    pl_meta pl = mkMeta (meta_page m) (magic m) (version m) (pagesize m) (root m) (num_pages (tf_meta tf1)) fp (tx_id m) (hash m) ∧
    num_pages (tf_meta tf1) * db_pagesize cfg <= u64_max ∧
    pl_freelist pl = tf_inner tf1 ∧
    grow_size cfg len (num_pages (tf_meta tf1) * db_pagesize cfg) = Ok (pl_size pl) ∧
    seal_blocks cfg tf1 = Ok (pl_blocks pl) ∧
    pl_slot pl = other_slot m ∧
    seal_block (meta_image (db_pagesize cfg) (pl_slot pl) (published (pl_slot pl) (pl_meta pl))) = Ok S ∧
    pl_meta_block pl = (db_pagesize cfg * pl_slot pl, S).
Proof.
  unfold write_data, block_offset, checked_mul. intros H.
  destruct (write_freelist tf (freelist_page m) nfp) as [[fp tf1]| |] eqn:Ef; [|done..]. cbn [mbind res_bind num_pages] in H.
  destruct (Z.leb_spec (num_pages (tf_meta tf1) * db_pagesize cfg) u64_max) as [Hle|]; [|done]. cbn [ok_or mbind res_bind] in H.
  destruct (grow_size _ _ _) as [sz| |] eqn:Eg; [|done..]. cbn [mbind res_bind] in H.
  destruct (seal_blocks cfg tf1) as [bs| |] eqn:Es; [|done..]. cbn [mbind res_bind] in H.
  destruct (seal_block _) as [S| |] eqn:Em; [|done..]. cbn [mbind res_bind] in H.
  destruct (Z.leb_spec (db_pagesize cfg * other_slot m) u64_max) as [Hle'|Hgt]; unfold other_slot in *; cbn [meta_page] in *;
    [|by rewrite (proj2 (Z.leb_gt _ _)) in H by done].
  rewrite (proj2 (Z.leb_le _ _)) in H by done. cbn [ok_or mbind res_bind] in H. injection H as <-.
  exists fp, tf1, S. cbn [pl_meta pl_freelist pl_size pl_blocks pl_slot pl_meta_block].
  unfold other_slot. exact (conj eq_refl (conj eq_refl (conj Hle (conj eq_refl (conj Eg (conj Es (conj eq_refl (conj Em eq_refl)))))))).
Qed.

End plan.

(** ** The metadata that opening finds *)

Lemma published_valid slot m : meta_valid (published slot m) = true.
Proof.
  unfold meta_valid, published, with_hash. apply Z.eqb_eq. unfold hash_self.
  cbn [hash meta_page magic version pagesize root num_pages freelist_page tx_id]. reflexivity.
Qed.

Section recovery.
Context `{D : Digest}.

Definition older (m0 : Meta) (o : option Meta) : Prop :=
  ∀ m', o = Some m' → tx_id m' < tx_id m0 ∨ (meta_page m0 = 1 ∧ tx_id m' = tx_id m0).

Lemma older_some m0 m' : tx_id m' < tx_id m0 ∨ (meta_page m0 = 1 ∧ tx_id m' = tx_id m0) → older m0 (Some m').
Proof. intros H m [= <-]. done. Qed.

(** [m0] is the metadata of [file]: its slot holds it, and the other slot holds an
    older one or none. *)
Definition current (file : bytes) (ps : Z) (m0 : Meta) : Prop :=
  1024 <= ps ∧ ps mod 8 = 0 ∧ 2 * ps <= len_u64 file <= isize_max ∧ 0 <= meta_page m0 <= 1 ∧
  (∀ slot, 0 <= slot <= 1 → page_overflow_at file (Z.to_nat (slot * ps)) = 0) ∧
  slot_meta file ps (meta_page m0) = Ok (Some m0) ∧
  ∃ o, slot_meta file ps (1 - meta_page m0) = Ok o ∧ older m0 o.

Lemma slots_meta f ps m0 o :
  0 <= meta_page m0 <= 1 → slot_meta f ps (meta_page m0) = Ok (Some m0) →
  slot_meta f ps (1 - meta_page m0) = Ok o → older m0 o → db_meta f ps = Ok m0.
Proof.
  intros Hp E1 E2 Ho. unfold db_meta.
  assert (meta_page m0 = 0 ∨ meta_page m0 = 1) as [Hm|Hm] by lia; rewrite Hm in E1, E2; [change (1 - 0) with 1 in E2|change (1 - 1) with 0 in E2];
    rewrite E1, E2; cbn; destruct o as [m'|]; try done; specialize (Ho m' eq_refl);
    match goal with |- context[?a <? ?b] => destruct (Z.ltb_spec a b) end; try done; lia.
Qed.

Lemma current_meta file ps m0 : current file ps m0 → db_meta file ps = Ok m0.
Proof. intros (_ & _ & _ & Hp & _ & E1 & o & E2 & Ho). by eapply slots_meta. Qed.

(** A slot whose bytes are kept. *)
Lemma slot_kept f f' ps slot :
  1024 <= ps → 0 <= slot <= 1 → 2 * ps <= len_u64 f <= isize_max → 2 * ps <= len_u64 f' <= isize_max →
  page_overflow_at f (Z.to_nat (slot * ps)) = 0 →
  (∀ i, slot * ps <= Z.of_nat i < slot * ps + ps → f' !! i = f !! i) →
  slot_meta f' ps slot = slot_meta f ps slot ∧ page_overflow_at f' (Z.to_nat (slot * ps)) = 0.
Proof.
  intros Hps Hs Hl Hl' Ho Hb.
  assert (same_block f f' ps slot) as Hsb.
  { split_and!; [|nia|nia|done]. apply block_ext. intros i Hi. symmetry. apply Hb. nia. }
  split; [symmetry; apply same_block_slot; try done; lia|].
  apply same_block_sym in Hsb as (_ & _ & _ & E); [done|done|lia].
Qed.

(** A file that keeps the first two pages keeps the metadata. *)
Lemma current_kept f f' ps m0 :
  current f ps m0 → 2 * ps <= len_u64 f' <= isize_max → (∀ i, Z.of_nat i < 2 * ps → f' !! i = f !! i) → current f' ps m0.
Proof.
  intros (Hps & Hal & Hl & Hp & Hov & E1 & o & E2 & Ho) Hl' Hb.
  assert (∀ slot, 0 <= slot <= 1 → slot_meta f' ps slot = slot_meta f ps slot ∧ page_overflow_at f' (Z.to_nat (slot * ps)) = 0) as Hk.
  { intros slot Hs. apply slot_kept; try done; [by apply Hov|]. intros i Hi. apply Hb. nia. }
  unfold current. split_and!; try done; try lia.
  - intros slot Hs. by apply Hk.
  - by rewrite (proj1 (Hk _ Hp)).
  - exists o. rewrite (proj1 (Hk (1 - meta_page m0) ltac:(lia))). done.
Qed.

End recovery.

(** ** A commit *)

Section commit.
Context `{D : Digest}.

(** A writer that began on [m0] and commits the freelist [tf] and the metadata
    [m], at the moment [write_data] has decided what to write. *)
Record commit_of (cfg : DbConfig) (file : bytes) (m0 m : Meta) (nfp : Z) (tf : TxFreelist) (pl : Plan) : Prop := {
  co_current : current file (db_pagesize cfg) m0;
  co_pagesize : pagesize (tf_meta tf) = db_pagesize cfg ∧ pagesize m = db_pagesize cfg;
  co_growth : 0 < db_growth_increment cfg;
  co_wf : tx_freelist_wf tf;
  co_retirable : retirable tf (freelist_page m) nfp;
  co_u64 : freelist_u64 tf;
  co_size : freelist_size (tf_inner (tx_free tf (freelist_page m) nfp)) + CHECKSUM_SIZE + db_pagesize cfg <= isize_max;
  co_pages : num_pages (tf_meta tf) + pages_for (db_pagesize cfg) (freelist_size (tf_inner (tx_free tf (freelist_page m) nfp))) <= u64_max;
  co_slot : meta_page m = meta_page m0;
  co_tx : tx_id m = tx_id m0 + 1 ∧ in_u64 (tx_id m);
  co_magic : magic m = MAGIC_VALUE;
  co_root : in_u64 (root_page (root m)) ∧ in_u64 (next_int (root m));
  co_plan : write_data cfg (len_u64 file) m nfp tf = Ok pl;
  co_len : len_u64 (extend_to file (pl_size pl)) <= isize_max
}.

Context (cfg : DbConfig) (file : bytes) (m0 m : Meta) (nfp : Z) (tf : TxFreelist) (pl : Plan).
Hypothesis Hco : commit_of cfg file m0 m nfp tf pl.
Let ps := db_pagesize cfg.
Let f1 := extend_to file (pl_size pl).
Let m1 := published (pl_slot pl) (pl_meta pl).

(** The freelist page and what the plan holds. *)
Lemma commit_freelist :
  ∃ fp tf1, write_freelist tf (freelist_page m) nfp = Ok (fp, tf1) ∧
    tx_freelist_wf tf1 ∧ pagesize (tf_meta tf1) = ps ∧ num_pages (tf_meta tf1) <= u64_max ∧
    pending_pages (tf_inner tf1) = pending_pages (tf_inner (tx_free tf (freelist_page m) nfp)) ∧
    (∃ B, tf_pages tf1 !! fp = Some B ∧ freelist_image B fp ps (tf_inner tf1)) ∧
    pl_meta pl = mkMeta (meta_page m) (magic m) (version m) (pagesize m) (root m) (num_pages (tf_meta tf1)) fp (tx_id m) (hash m) ∧
    pl_freelist pl = tf_inner tf1 ∧ seal_blocks cfg tf1 = Ok (pl_blocks pl) ∧
    num_pages (tf_meta tf1) * ps <= len_u64 f1 ∧ len_u64 file <= len_u64 f1.
Proof.
  destruct Hco as [Hcur [Ep Epm] Hinc Hwf Hret Hu Hsz Hnp _ _ _ _ Hpl Hl].
  destruct (write_data_inv _ _ _ _ _ _ Hpl) as (fp & tf1 & S & Ef & Em & Hmx & Efl & Eg & Es & _).
  rewrite <-Ep in Hsz, Hnp. destruct (write_freelist_image tf _ nfp Hwf Hret Hu Hsz Hnp fp tf1 Ef) as (Hwf1 & Emeta & Hmax & _ & Epend & HB).
  rewrite Ep in HB. assert (pagesize (tf_meta tf1) = ps) as Ep1 by (rewrite Emeta; done).
  destruct Hcur as (Hps & _ & Hlen & _). pose proof Hwf1 as (_ & Hnp1 & _). fold ps in Hps, Hmx, Eg, Hlen.
  assert (u64_max = 2 ^ 64 - 1 ∧ isize_max = 2 ^ 63 - 1) as [Eu Ei] by done.
  pose proof (grow_size_outcome cfg (len_u64 file) (num_pages (tf_meta tf1) * ps) ltac:(lia) ltac:(nia) Hinc) as Hg.
  rewrite Eg in Hg. exists fp, tf1. split_and!; try done.
  all: unfold f1, extend_to, len_u64 in *; destruct (pl_size pl) as [n|]; cbn in Hg.
  all: rewrite ?length_app, ?length_replicate; lia.
Qed.

Lemma extend_keeps i : (i < length file)%nat → f1 !! i = file !! i.
Proof.
  intros Hi. unfold f1, extend_to. destruct (pl_size pl); [|done]. by apply lookup_app_l.
Qed.

Lemma commit_blocks :
  blocks_in f1 (pl_blocks pl) ∧ (∀ i, covers (pl_blocks pl) i → 2 * ps <= Z.of_nat i) ∧
  (∀ x y, x ∈ pl_blocks pl → y ∈ pl_blocks pl → apart x y).
Proof.
  destruct commit_freelist as (fp & tf1 & _ & Hwf1 & Ep1 & _ & _ & _ & _ & _ & Es & Hlen & _).
  destruct (sealed_blocks_placed cfg tf1 (pl_blocks pl) Hwf1 ltac:(by rewrite Ep1) Es) as [Hpl Hap].
  fold ps in Hpl. destruct Hco as [(Hps & _) _ _ _ _ _ _ _ _ _ _ _ _ _]. fold ps in Hps. split_and!; [| |done].
  - intros off S [H1 H2]%Hpl. lia.
  - intros i (off & S & [H1 H2]%Hpl & Hi). lia.
Qed.

(** The metadata block and its slot. *)
Lemma commit_meta_block :
  ∃ S, pl_meta_block pl = (pl_slot pl * ps, S) ∧ seal_block (meta_image ps (pl_slot pl) m1) = Ok S ∧
    len_u64 S = ps ∧ pl_slot pl = 1 - meta_page m0 ∧ 0 <= pl_slot pl <= 1.
Proof.
  destruct Hco as [(Hps & _ & _ & Hp & _) _ _ _ _ _ _ _ Hslot _ _ _ Hpl _].
  destruct (write_data_inv _ _ _ _ _ _ Hpl) as (fp & tf1 & S & _ & _ & _ & _ & _ & _ & Esl & ES & Eb).
  exists S. fold ps m1 in ES, Eb, Hps. unfold other_slot in Esl. rewrite Hslot in Esl.
  assert (pl_slot pl = 1 - meta_page m0) as E by (rewrite Esl; destruct (Z.eqb_spec (meta_page m0) 0); lia).
  split_and!; [rewrite Eb; f_equal; lia|done| |done|lia..].
  unfold len_u64. rewrite (length_seal _ _ ES), length_meta_image by done. lia.
Qed.

(** A crash before the data is synced leaves the old metadata. *)
Lemma torn_data_current f' : torn f1 (pl_blocks pl) f' → current f' ps m0.
Proof.
  intros [El Hk]. destruct commit_blocks as (_ & Hcov & _). destruct commit_freelist as (_ & _ & _ & _ & _ & _ & _ & _ & _ & _ & _ & _ & Hlen).
  destruct Hco as [Hcur _ _ _ _ _ _ _ _ _ _ _ _ Hmax]. fold f1 in Hmax. fold ps in Hcur. pose proof Hcur as (_ & _ & Hl & _).
  eapply current_kept; [done|unfold len_u64 in *; rewrite El; lia|]. intros i Hi. rewrite Hk.
  - apply extend_keeps. unfold len_u64 in *. lia.
  - intros H%Hcov. lia.
Qed.

Lemma data_written_current : current (data_written file pl) ps m0 ∧ length (data_written file pl) = length f1.
Proof.
  destruct commit_blocks as (Hin & _). pose proof (write_blocks_torn f1 (pl_blocks pl) Hin) as Ht.
  split; [by apply torn_data_current|apply Ht].
Qed.

Lemma meta_block_in : blocks_in (data_written file pl) [pl_meta_block pl].
Proof.
  destruct data_written_current as [(Hps & _ & Hl & _) _]. destruct commit_meta_block as (S & Eb & _ & HS & _ & Hsl).
  intros off b Hin. rewrite Eb in Hin. apply list_elem_of_singleton in Hin as [= -> ->]. nia.
Qed.

Lemma committed_torn : torn (data_written file pl) [pl_meta_block pl] (committed file pl).
Proof. apply write_blocks_torn, meta_block_in. Qed.

(** The slot of the old metadata while the other one is being written. *)
Lemma torn_meta_slot f' :
  torn (data_written file pl) [pl_meta_block pl] f' →
  slot_meta f' ps (meta_page m0) = Ok (Some m0) ∧ 2 * ps <= len_u64 f' <= isize_max ∧
  page_overflow_at f' (Z.to_nat (meta_page m0 * ps)) = 0.
Proof.
  intros [El Hk]. destruct data_written_current as [(Hps & _ & Hl & Hp & Hov & E1 & _) _].
  destruct commit_meta_block as (S & Eb & _ & ES & Esl & Hsl).
  assert (2 * ps <= len_u64 f' <= isize_max) as Hl' by (unfold len_u64 in *; lia).
  destruct (slot_kept (data_written file pl) f' ps (meta_page m0)) as [E2 Ho]; try done; [by apply Hov| |split_and!; [congruence|lia..|done]].
  intros i Hi. apply Hk. intros (off & b & Hin & Hr). rewrite Eb in Hin. apply list_elem_of_singleton in Hin as [= -> ->].
  rewrite ES, Esl in Hr. assert (meta_page m0 = 0 ∨ meta_page m0 = 1) as [Em|Em] by lia; rewrite Em in *; lia.
Qed.

Lemma published_wf : meta_wf m1 ∧ magic m1 = MAGIC_VALUE ∧ version m1 = FORMAT_VERSION ∧ pagesize m1 = ps ∧
  tx_id m1 = tx_id m0 + 1 ∧ meta_page m1 = pl_slot pl.
Proof.
  destruct commit_freelist as (fp & tf1 & _ & (_ & Hn2 & _) & _ & Hmax & _ & (B & _ & Him) & Em & _).
  destruct commit_meta_block as (_ & _ & _ & _ & _ & Hsl).
  destruct Hco as [(Hps & _ & Hlen & _) [_ Epm] _ _ _ _ _ _ _ [Etx Htx] Emg Hroot _ _]. fold ps in Hps, Hlen, Epm.
  destruct Him as (k & _ & _ & Eid & _). pose proof (rd_range 8 B (0 + page_off_id)) as Hfp. fold (page_id_at B 0) in Hfp. rewrite Eid in Hfp.
  change (256 ^ Z.of_nat 8) with u64_mod in Hfp.
  unfold m1, published, with_hash. rewrite Em. cbn [meta_page magic version pagesize root num_pages freelist_page tx_id hash].
  split_and!; try done. unfold meta_wf. cbn [meta_page magic version pagesize root num_pages freelist_page tx_id hash].
  rewrite Emg, Epm. unfold u64_max in Hmax. assert (isize_max = 2 ^ 63 - 1) as Ei by done.
  split_and!; try done; try apply Hroot; try apply hash_self_range; unfold in_u64, u64_mod in *; lia.
Qed.

Lemma older_published o : slot_meta file ps (pl_slot pl) = Ok o → older m0 o.
Proof.
  destruct commit_meta_block as (_ & _ & _ & _ & Esl & _).
  destruct Hco as [(_ & _ & _ & _ & _ & _ & o' & E2 & Ho) _ _ _ _ _ _ _ _ _ _ _ _ _]. fold ps in E2.
  rewrite Esl. intros E. rewrite E2 in E. by injection E as <-.
Qed.

(** Once the new metadata is readable in its slot, it is the one found. *)
Lemma torn_meta_new f' :
  torn (data_written file pl) [pl_meta_block pl] f' → slot_meta f' ps (pl_slot pl) = Ok (Some m1) →
  slot_meta f' ps (meta_page m1) = Ok (Some m1) ∧ slot_meta f' ps (1 - meta_page m1) = Ok (Some m0) ∧ older m1 (Some m0).
Proof.
  intros Ht E. destruct (torn_meta_slot f' Ht) as [E0 _]. destruct published_wf as (_ & _ & _ & _ & Etx & Eslot).
  destruct commit_meta_block as (_ & _ & _ & _ & Esl & _). rewrite Eslot.
  split_and!; [done|rewrite Esl; by replace (1 - (1 - meta_page m0)) with (meta_page m0) by lia|].
  intros m' [= <-]. left. lia.
Qed.

Lemma commit_current : current (committed file pl) ps m1.
Proof.
  destruct commit_meta_block as (S & Eb & ES & HS & Esl & Hsl). destruct published_wf as (Hwf & Hmg & Hver & Hpg & Etx & Eslot).
  destruct data_written_current as [(Hps & Hal & Hl & Hp & Hov & _) _].
  destruct (publish_slot ps (conj Hps Hal) (data_written file pl) (pl_slot pl) m1 S) as (Hnew & Hlen & _ & Ho);
    try done; [apply published_valid|lia|lia|].
  change (write_at (data_written file pl) (Z.to_nat (pl_slot pl * ps)) S)
    with (write_blocks (data_written file pl) [(pl_slot pl * ps, S)]) in *. rewrite <-Eb in *. fold (committed file pl) in *.
  pose proof committed_torn as Ht.
  destruct (torn_meta_slot _ Ht) as (_ & Hl2 & Ho0). destruct (torn_meta_new _ Ht Hnew) as (E1 & E2 & Hold).
  unfold current. rewrite Eslot in *. split_and!; try done; try lia; [|by exists (Some m0)].
  intros slot Hs. destruct (decide (slot = pl_slot pl)) as [->|Hne]; [done|]. replace slot with (meta_page m0) by lia. done.
Qed.

(** The sealed blocks are in place after the commit. *)
Lemma commit_block_stored off S :
  (off, S) ∈ pl_blocks pl → write_at (committed file pl) (Z.to_nat off) S = committed file pl ∧
  0 <= off ∧ off + len_u64 S <= len_u64 (committed file pl) ∧ len_u64 (committed file pl) <= isize_max.
Proof.
  intros Hin. destruct commit_blocks as (Hbl & Hcov & Hap). destruct commit_meta_block as (M & Eb & _ & HM & _ & Hsl).
  destruct commit_current as (Hps & _ & Hl & _). destruct (Hbl off S Hin) as [H0 H1].
  destruct (write_blocks_torn f1 (pl_blocks pl) Hbl) as [El _]. fold f1 (data_written file pl) in El.
  change (write_blocks f1 (pl_blocks pl)) with (data_written file pl) in El.
  destruct committed_torn as [El2 Hk]. unfold len_u64 in *. split_and!; try lia.
  apply write_at_same; [lia|]. rewrite <-(write_blocks_read f1 (pl_blocks pl) off S Hbl Hin) at 2 by (intros y Hy; by apply Hap).
  apply block_ext. intros i Hi. apply Hk. intros (o & b & Hin' & Hr). rewrite Eb in Hin'.
  apply list_elem_of_singleton in Hin' as [= -> ->].
  assert (2 * ps <= Z.of_nat i). { apply Hcov. exists off, S. unfold len_u64. split; [done|lia]. } unfold len_u64 in *. nia.
Qed.

End commit.

(** A freelist page in place is read back. *)
Lemma freelist_stored `{D : Digest} F B S fp ps fl m :
  freelist_image B fp ps fl → 1024 <= ps → ps mod 8 = 0 → 0 <= fp → seal_block B = Ok S →
  fp * ps + len_u64 B <= len_u64 F → len_u64 F <= isize_max → write_at F (Z.to_nat (fp * ps)) S = F → freelist_page m = fp →
  load_freelist F ps m = Ok (freelist_init freelist_new (freelist_entries fl)) ∧
  validate_block F fp ps = Ok (Z.to_nat (fp * ps)) ∧ (page_overflow_at F (Z.to_nat (fp * ps)) + 1) * ps = len_u64 B.
Proof.
  intros (k & Hk & HB & Eid & Eov & Ety & Eret & Elay) Hps Hal Hfp ES Hend Hl Hst Em.
  assert (72 <= len_u64 B) as Hmin by (rewrite HB; nia).
  destruct (stored_page_valid F B S fp ps k) as [Hv _]; try done; try lia; [by rewrite Ety|].
  destruct (stored_view F B S fp ps k) as (_ & _ & Hpre); try done; try lia; try (by rewrite Ety).
  unfold stored in Hv, Hpre. rewrite Hst in Hv, Hpre.
  set (p := Z.to_nat (fp * ps)) in *. unfold len_u64, CHECKSUM_SIZE in *.
  destruct (page_prefix F p B (length B - 32)) as (_ & Fty & Fc & Fov & _); [done|lia..|].
  split; [|split; [done|rewrite Fov, Eov, HB; lia]]. unfold load_freelist. rewrite Em, Hv. cbn [mbind res_bind].
  assert (retired_pages F p = retired_pages B 0) as ->; [|by rewrite Eret].
  unfold retired_pages. rewrite Fty, Ety. cbn [Z.eqb TYPE_FREELIST Pos.eqb assert_that mbind res_bind]. f_equal. unfold table. rewrite Fc.
  assert (32 + page_count_at B 0 * 16 <= Z.of_nat (length B) - 32) as Hcount.
  { destruct Elay as [[E _]|[[_ E]|[[E _]|[E _]]]]; [by rewrite Ety in E|done|by rewrite Ety in E|by rewrite Ety in E]. }
  apply list_fmap_ext. intros i x [-> Hx]%lookup_seq. unfold retired_page_at, page_off_ptr.
  assert (∀ n o, (o + n <= length B - 32)%nat → rd n F (p + o) = rd n B o) as Hrd.
  { intros n o Ho. rewrite <-(rd_block F p (length B - 32)) by lia. rewrite Hpre. by apply rd_take. }
  rewrite <-!Nat.add_assoc. rewrite !Hrd by lia. done.
Qed.

(** ** The theorems *)

Section theorems.
Context `{D : Digest}.

(** Committing publishes the transaction.  After the metadata write the file
    again has a current metadata (its own slot valid, the other slot older), and
    it is the transaction's: the next open finds it. *)
Theorem commit_publishes (cfg : DbConfig) (file : bytes) (m0 m : Meta) (nfp : Z) (tf : TxFreelist) (pl : Plan) :
  commit_of cfg file m0 m nfp tf pl →
  let m1 := published (pl_slot pl) (pl_meta pl) in
  current (committed file pl) (db_pagesize cfg) m1 ∧ db_meta (committed file pl) (db_pagesize cfg) = Ok m1 ∧
  tx_id m1 = tx_id m0 + 1 ∧ root m1 = root m.
Proof.
  intros Hco m1. pose proof (commit_current _ _ _ _ _ _ _ Hco) as Hc. split; [done|]. split; [by apply current_meta|].
  split; [apply (published_wf _ _ _ _ _ _ _ Hco)|].
  destruct (commit_freelist _ _ _ _ _ _ _ Hco) as (fp & tf1 & _ & _ & _ & _ & _ & _ & Em & _). unfold m1, published, with_hash.
  by rewrite Em.
Qed.


(** The freelist page of the committed file. *)
Lemma commit_freelist_stored cfg file m0 m nfp tf pl :
  commit_of cfg file m0 m nfp tf pl →
  let C := committed file pl in let ps := db_pagesize cfg in let m1 := published (pl_slot pl) (pl_meta pl) in
  let p := Z.to_nat (freelist_page m1 * ps) in
  ∃ fl fp tf1, write_freelist tf (freelist_page m) nfp = Ok (fp, tf1) ∧ freelist_page m1 = fp ∧ num_pages m1 = num_pages (tf_meta tf1) ∧
    pl_freelist pl = tf_inner tf1 ∧ tx_freelist_wf tf1 ∧
    load_freelist C ps m1 = Ok fl ∧ fl ≡ tf_inner tf1 ∧ validate_block C fp ps = Ok p ∧
    page_overflow_at C p + 1 = pages_for ps (freelist_size (tf_inner (tx_free tf (freelist_page m) nfp))) ∧
    num_pages m1 * ps <= len_u64 C.
Proof.
  intros Hco. cbv zeta. pose proof (commit_current _ _ _ _ _ _ _ Hco) as Hcur. pose proof Hcur as (Hps & Hal & _).
  destruct (commit_freelist _ _ _ _ _ _ _ Hco) as (fp & tf1 & Ef & Hwf1 & Ep1 & Hmax & Epend & (B & EB & Him) & Em & Efl & Es & Hnl & _).
  pose proof Hwf1 as (_ & _ & _ & Hblk & Hin & _). destruct (Hblk fp) as (n & Hdb); [by rewrite EB|].
  destruct (Hin fp n fp Hdb) as [Hfp2 _]; [destruct Hdb; lia|].
  assert (∃ S, seal_block B = Ok S) as [S ES].
  { destruct Him as (k & Hk & HB & _). destruct (seal_block_ok B) as (S & ES & _); [unfold len_u64 in HB; nia|by exists S]. }
  destruct (commit_block_stored _ _ _ _ _ _ _ Hco (db_pagesize cfg * fp) S) as (Hst & H0 & Hend & Hl).
  { apply (seal_blocks_elem _ _ _ _ _ Es). exists fp, B. split_and!; try done.
    destruct (write_data_inv _ _ _ _ _ _ (co_plan _ _ _ _ _ _ _ Hco)) as (fp' & tf1' & _ & Ef' & _ & Hmx & _).
    rewrite Ef in Ef'. injection Ef' as <- <-. nia. }
  rewrite (Z.mul_comm (db_pagesize cfg)) in Hst, Hend.
  assert (len_u64 B = len_u64 S) as EBS by (unfold len_u64; by rewrite (length_seal B S ES)).
  destruct (freelist_stored (committed file pl) B S fp (db_pagesize cfg) (tf_inner tf1) (published (pl_slot pl) (pl_meta pl)))
    as (Hload & Hval & Hov); try done; [lia|lia|unfold published, with_hash; by rewrite Em|].
  assert (freelist_page (published (pl_slot pl) (pl_meta pl)) = fp ∧
          num_pages (published (pl_slot pl) (pl_meta pl)) = num_pages (tf_meta tf1)) as [Efp Enp].
  { unfold published, with_hash. by rewrite Em. }
  eexists _, fp, tf1. rewrite Efp, Enp. split_and!; [done..|exact Hload| |done| |].
  - apply freelist_init_entries. unfold pending_at. rewrite Epend.
    destruct (decide (pending_at (tf_inner (tx_free tf (freelist_page m) nfp)) 0 = [])) as [|Hn]; [done|].
    by destruct (retired_generations tf (freelist_page m) nfp (co_u64 _ _ _ _ _ _ _ Hco) 0 Hn) as [_ ?].
  - pose proof Hco as [_ [Epg _] _ Hwf Hret Hu Hsz Hnp _ _ _ _ _ _]. rewrite <-Epg in Hsz, Hnp.
    destruct (write_freelist_steps tf _ nfp Hwf Hret Hu Hsz Hnp fp tf1 Ef) as (tf2 & B' & _ & E1 & HB' & _).
    rewrite E1 in EB. cbn [tf_pages set_page_buf] in EB. rewrite lookup_insert_eq in EB. injection EB as <-.
    rewrite HB', Epg in Hov. nia.
  - etransitivity; [exact Hnl|].
    destruct (data_written_current _ _ _ _ _ _ _ Hco) as [_ El].
    destruct (committed_torn _ _ _ _ _ _ _ Hco) as [El2 _]. unfold len_u64. lia.
Qed.

(** The freelist survives a commit.  Opening the committed file and loading
    the freelist page of its metadata gives the transaction's freelist: the same
    reusable pages and, per generation, the same retired pages. *)
Theorem commit_freelist_durable (cfg : DbConfig) (file : bytes) (m0 m : Meta) (nfp : Z) (tf : TxFreelist) (pl : Plan) :
  commit_of cfg file m0 m nfp tf pl →
  ∃ m1 fl, db_meta (committed file pl) (db_pagesize cfg) = Ok m1 ∧
    load_freelist (committed file pl) (db_pagesize cfg) m1 = Ok fl ∧ fl ≡ pl_freelist pl.
Proof.
  intros Hco. destruct (commit_freelist_stored _ _ _ _ _ _ _ Hco) as (fl & fp & tf1 & _ & _ & _ & Efl & _ & Hload & Heq & _).
  exists (published (pl_slot pl) (pl_meta pl)), fl. split; [apply current_meta; by eapply commit_current|]. by rewrite Efl.
Qed.

(** A page neither reusable nor rewritten by the transaction lies outside the
    blocks of the commit. *)
Lemma kept_page_uncovered cfg file m0 m nfp tf pl x i :
  commit_of cfg file m0 m nfp tf pl →
  x < num_pages (tf_meta tf) → x ∉ free_pages (tf_inner tf) → (∀ q k, dirty_block tf q k → ¬ (q <= x < q + k)) →
  x * db_pagesize cfg <= Z.of_nat i < x * db_pagesize cfg + db_pagesize cfg → ¬ covers (pl_blocks pl) i.
Proof.
  intros Hco Hn Hfree Hdirty Hi (off & S & Hin & Hr).
  destruct (commit_freelist _ _ _ _ _ _ _ Hco) as (fp & tf1 & Ef & Hwf1 & Ep1 & _ & _ & _ & _ & _ & Es & _).
  apply (seal_blocks_elem _ _ _ _ _ Es) in Hin as (p & B & EB & ES & -> & _).
  pose proof Hwf1 as (_ & _ & _ & Hblk & _). destruct (Hblk p) as (k & Hd); [by rewrite EB|].
  pose proof Hd as (Hk & B' & EB' & El). rewrite EB in EB'. injection EB' as <-.
  unfold len_u64 in Hr. rewrite (length_seal B S ES), El, Ep1 in Hr.
  destruct Hco as [(Hps & _) [Ep _] _ Hwf Hret Hu Hsz Hnp _ _ _ _ _ _]. rewrite <-Ep in Hsz, Hnp.
  assert (p <= x < p + k) as Hx by nia.
  destruct (write_freelist_fresh tf _ nfp Hwf Hret Hu Hsz Hnp fp tf1 p k x Ef Hd Hx) as [Hd0|[Hf|Hlt]]; [|done|lia].
  by apply (Hdirty p k).
Qed.

Lemma commit_page_kept cfg file m0 m nfp tf pl x f' :
  commit_of cfg file m0 m nfp tf pl →
  torn (extend_to file (pl_size pl)) (pl_blocks pl) f' ∨ torn (data_written file pl) [pl_meta_block pl] f' →
  2 <= x < num_pages (tf_meta tf) → x * db_pagesize cfg + db_pagesize cfg <= len_u64 file →
  x ∉ free_pages (tf_inner tf) → (∀ q k, dirty_block tf q k → ¬ (q <= x < q + k)) →
  take (Z.to_nat (db_pagesize cfg)) (drop (Z.to_nat (x * db_pagesize cfg)) f') =
  take (Z.to_nat (db_pagesize cfg)) (drop (Z.to_nat (x * db_pagesize cfg)) file).
Proof.
  intros Hco Ht Hx Hend Hfree Hdirty. pose proof (co_current _ _ _ _ _ _ _ Hco) as (Hps & _).
  apply block_ext. intros i Hi.
  assert (x * db_pagesize cfg <= Z.of_nat i < x * db_pagesize cfg + db_pagesize cfg) as Hi' by nia.
  pose proof (kept_page_uncovered _ _ _ _ _ _ _ x i Hco ltac:(lia) Hfree Hdirty Hi') as Hnc.
  assert (extend_to file (pl_size pl) !! i = file !! i) as He by (apply extend_keeps; unfold len_u64 in *; lia).
  rewrite <-He. destruct Ht as [[_ Hk]|[_ Hk]]; [by apply Hk|]. rewrite Hk.
  - destruct (commit_blocks _ _ _ _ _ _ _ Hco) as (Hbl & _). by apply (write_blocks_torn _ _ Hbl).
  - destruct (commit_meta_block _ _ _ _ _ _ _ Hco) as (S & Eb & _ & HS & _ & Hsl).
    intros (off & b & Hin & Hr). rewrite Eb in Hin. apply list_elem_of_singleton in Hin as [= -> ->]. nia.
Qed.

End theorems.

(** ** Creating a database *)

Section create.
Context `{D : Digest}.

Section empty.
Context (ps id t : Z).
Hypothesis Hps : 1024 <= ps.
Hypothesis Hid : 0 <= id <= 3.
Hypothesis Ht : 0 <= t < 256.

Lemma length_empty_image : length (empty_image ps id t) = Z.to_nat ps.
Proof.
  unfold empty_image, page_off_count, page_off_type, page_off_id.
  rewrite !length_wr; rewrite ?length_wr; rewrite ?length_wr; rewrite ?length_replicate; lia.
Qed.

Lemma empty_image_header :
  page_id_at (empty_image ps id t) 0 = id ∧ page_type_at (empty_image ps id t) 0 = t ∧
  page_count_at (empty_image ps id t) 0 = 0 ∧ page_overflow_at (empty_image ps id t) 0 = 0.
Proof.
  unfold empty_image, page_id_at, page_type_at, page_count_at, page_overflow_at.
  unfold page_off_count, page_off_type, page_off_id, page_off_overflow.
  split_and!; repeat (rewrite rd_wr_other by (rewrite ?length_wr; rewrite ?length_wr; rewrite ?length_replicate; lia)).
  - apply rd_wr_same; [rewrite length_replicate; lia|]. change (256 ^ Z.of_nat 8) with u64_mod. unfold u64_mod. lia.
  - apply rd_wr_same; [rewrite length_wr; rewrite length_replicate; lia|]. by change (256 ^ Z.of_nat 1) with 256.
  - apply rd_wr_same; [rewrite ?length_wr; rewrite ?length_wr; rewrite ?length_replicate; lia|by cbv].
  - apply rd_zeros.
Qed.

End empty.

(** Four blocks at the start of a zeroed file. *)
Lemma init_blocks_read N (b0 b1 b2 b3 : bytes) n i b :
  length b0 = N → length b1 = N → length b2 = N → length b3 = N → (4 * N <= n)%nat →
  [b0; b1; b2; b3] !! i = Some b →
  let f := write_at (replicate n Byte.x00) 0 (b0 ++ b1 ++ b2 ++ b3) in
  length f = n ∧ write_at f (i * N) b = f.
Proof.
  intros H0 H1 H2 H3 Hn Hi f.
  assert (length f = n) as Hl.
  { unfold f. rewrite length_write_at; rewrite ?length_replicate, ?length_app; lia. }
  split; [done|]. assert (length b = N ∧ i < 4)%nat as [Hb Hi4].
  { destruct i as [|[|[|[|i]]]]; cbn in Hi; try injection Hi as <-; [lia..|done]. }
  apply write_at_same; [rewrite Hl; nia|]. unfold f, write_at. rewrite take_0. cbn [app]. rewrite <-!app_assoc, Hb.
  destruct i as [|[|[|[|i]]]]; cbn in Hi; try injection Hi as <-; cbn [Nat.mul]; [..|done].
  - by rewrite drop_0, take_app_length'.
  - rewrite Nat.add_0_r, drop_app_length', take_app_length' by done. done.
  - rewrite Nat.add_0_r, <-drop_drop, !drop_app_length', take_app_length' by done. done.
  - rewrite Nat.add_0_r, <-!drop_drop, !drop_app_length', take_app_length' by done. done.
Qed.

Lemma init_meta_fields ps slot :
  meta_page (init_meta ps slot) = slot ∧ tx_id (init_meta ps slot) = 0 ∧ freelist_page (init_meta ps slot) = 2 ∧
  root_page (root (init_meta ps slot)) = 3.
Proof. unfold init_meta, with_hash. cbn [meta_page tx_id freelist_page root root_page]. done. Qed.

Lemma init_meta_wf ps slot : 1024 <= ps <= isize_max → 0 <= slot <= 1 → meta_wf (init_meta ps slot).
Proof.
  intros Hps Hs. unfold init_meta, with_hash, meta_wf. cbn [meta_page magic version pagesize root num_pages freelist_page tx_id hash root_page next_int].
  assert (isize_max = 2 ^ 63 - 1) as Ei by done.
  split_and!; try done; try apply hash_self_range; try (unfold in_u64, u64_mod; lia).
Qed.

Lemma init_meta_valid ps slot : meta_valid (init_meta ps slot) = true.
Proof.
  unfold meta_valid, init_meta, with_hash. apply Z.eqb_eq. unfold hash_self.
  cbn [hash meta_page magic version pagesize root num_pages freelist_page tx_id]. reflexivity.
Qed.

Lemma init_image_ok ps :
  1024 <= ps → ∃ b0 b1 b2 b3, init_image ps = Ok (b0 ++ b1 ++ b2 ++ b3) ∧
    seal_block (meta_image ps 0 (init_meta ps 0)) = Ok b0 ∧ seal_block (meta_image ps 1 (init_meta ps 1)) = Ok b1 ∧
    seal_block (empty_image ps 2 TYPE_FREELIST) = Ok b2 ∧ seal_block (empty_image ps 3 TYPE_LEAF) = Ok b3.
Proof.
  intros Hps.
  destruct (seal_block_ok (meta_image ps 0 (init_meta ps 0))) as (b0 & E0 & _); [rewrite length_meta_image; lia|].
  destruct (seal_block_ok (meta_image ps 1 (init_meta ps 1))) as (b1 & E1 & _); [rewrite length_meta_image; lia|].
  destruct (seal_block_ok (empty_image ps 2 TYPE_FREELIST)) as (b2 & E2 & _); [rewrite length_empty_image; lia|].
  destruct (seal_block_ok (empty_image ps 3 TYPE_LEAF)) as (b3 & E3 & _); [rewrite length_empty_image; lia|].
  exists b0, b1, b2, b3. unfold init_image. rewrite E0, E1, E2, E3. done.
Qed.

(** An empty page in place. *)
Lemma empty_page_stored f ps id t S :
  1024 <= ps → ps mod 8 = 0 → 0 <= id <= 3 → t = TYPE_FREELIST ∨ t = TYPE_LEAF → seal_block (empty_image ps id t) = Ok S →
  4 * ps <= len_u64 f → len_u64 f <= isize_max → write_at f (Z.to_nat (id * ps)) S = f →
  validate_block f id ps = Ok (Z.to_nat (id * ps)) ∧
  page_type_at f (Z.to_nat (id * ps)) = t ∧ page_count_at f (Z.to_nat (id * ps)) = 0 ∧
  page_overflow_at f (Z.to_nat (id * ps)) = 0.
Proof.
  intros Hps Hal Hid Ht ES Hl Hmax Hst.
  assert (0 <= t < 256) as Ht' by (destruct Ht as [->| ->]; by cbv).
  destruct (empty_image_header ps id t Hps Hid Ht') as (Eid & Ety & Ec & Eov).
  pose proof (length_empty_image ps id t Hps) as EB. set (B := empty_image ps id t) in *. clearbody B.
  assert (len_u64 B = 1 * ps) as HB by (unfold len_u64; lia).
  assert (layout_ok B 0 (len_u64 B - CHECKSUM_SIZE)) as Elay.
  { unfold layout_ok, RETIRED_SIZE_OF, LEAF_SIZE_OF, CHECKSUM_SIZE. rewrite Ety, Ec.
    destruct Ht as [->| ->]; [right; left|right; right; right]; split_and!; try done; try lia. }
  assert (known_page_type (page_type_at B 0) = true) as Hk by (rewrite Ety; by destruct Ht as [->| ->]).
  destruct (stored_page_valid f B S id ps 1) as [Hv _]; try done; try nia.
  destruct (stored_view f B S id ps 1) as (_ & _ & Hpre); try done; try nia.
  unfold stored in Hv, Hpre. rewrite Hst in Hv, Hpre. unfold len_u64 in *.
  destruct (page_prefix f (Z.to_nat (id * ps)) B (length B - 32)) as (_ & Fty & Fc & Fov & _); [done|nia|lia|lia|].
  rewrite Fty, Fc, Fov. done.
Qed.

(** A metadata block of a new file in place. *)
Lemma init_slot f ps slot S :
  1024 <= ps → ps mod 8 = 0 → 0 <= slot <= 1 → seal_block (meta_image ps slot (init_meta ps slot)) = Ok S →
  4 * ps <= len_u64 f → len_u64 f <= isize_max → write_at f (Z.to_nat (slot * ps)) S = f →
  slot_meta f ps slot = Ok (Some (init_meta ps slot)) ∧ page_overflow_at f (Z.to_nat (slot * ps)) = 0.
Proof.
  intros Hps Hal Hs ES Hl Hmax Hst.
  destruct (publish_slot ps (conj Hps Hal) f slot (init_meta ps slot) S) as (H1 & _ & _ & H2); try done; try lia.
  - apply init_meta_wf; lia.
  - apply init_meta_valid.
  - rewrite Hst in H1, H2. done.
Qed.

Lemma init_file_ok (ps n : Z) :
  1024 <= ps → ps mod 8 = 0 → 4 <= n → ps * n <= isize_max →
  ∃ f, init_file ps n = Ok f ∧ len_u64 f = ps * n ∧
    current f ps (init_meta ps 1) ∧ db_meta f ps = Ok (init_meta ps 1) ∧
    load_freelist f ps (init_meta ps 1) = Ok freelist_new ∧
    validate_block f 2 ps = Ok (Z.to_nat (2 * ps)) ∧ page_overflow_at f (Z.to_nat (2 * ps)) = 0 ∧
    (let p := Z.to_nat (root_page (root (init_meta ps 1)) * ps) in
     validate_block f (root_page (root (init_meta ps 1))) ps = Ok p ∧ data_from_page f p = Ok (Leaves [])) ∧
    slot_meta f ps 0 = Ok (Some (init_meta ps 0)).
Proof.
  intros Hps Hal Hn Hmax. destruct (init_image_ok ps Hps) as (b0 & b1 & b2 & b3 & Ei & E0 & E1 & E2 & E3).
  assert (length b0 = Z.to_nat ps ∧ length b1 = Z.to_nat ps ∧ length b2 = Z.to_nat ps ∧ length b3 = Z.to_nat ps) as (L0 & L1 & L2 & L3).
  { rewrite (length_seal _ _ E0), (length_seal _ _ E1), (length_seal _ _ E2), (length_seal _ _ E3).
    rewrite !length_meta_image, !length_empty_image by done. done. }
  unfold init_file. rewrite Ei. cbn [mbind res_bind]. eexists. split; [done|].
  set (f := write_at _ 0 _). assert (4 * Z.to_nat ps <= Z.to_nat (ps * n))%nat as H4 by nia.
  pose proof (init_blocks_read (Z.to_nat ps) b0 b1 b2 b3 (Z.to_nat (ps * n))) as Hst.
  assert (len_u64 f = ps * n) as Hl. { unfold len_u64, f. rewrite (proj1 (Hst 0%nat b0 L0 L1 L2 L3 H4 eq_refl)). lia. }
  assert (∀ i b, [b0; b1; b2; b3] !! i = Some b → write_at f (Z.to_nat (Z.of_nat i * ps)) b = f) as Hat.
  { intros i b Hi. rewrite Z2Nat.inj_mul, Nat2Z.id by lia. by apply Hst. }
  clearbody f. clear Hst H4 L0 L1 L2 L3 Ei. assert (4 * ps <= len_u64 f ∧ len_u64 f <= isize_max) as [Hl4 Hlm] by nia.
  destruct (init_slot f ps 0 b0 Hps Hal ltac:(lia) E0 Hl4 Hlm (Hat 0%nat b0 eq_refl)) as [S0 O0].
  destruct (init_slot f ps 1 b1 Hps Hal ltac:(lia) E1 Hl4 Hlm (Hat 1%nat b1 eq_refl)) as [S1 O1].
  destruct (empty_page_stored f ps 2 TYPE_FREELIST b2 Hps Hal ltac:(lia) (or_introl eq_refl) E2 Hl4 Hlm (Hat 2%nat b2 eq_refl)) as (V2 & T2 & C2 & Z2).
  destruct (empty_page_stored f ps 3 TYPE_LEAF b3 Hps Hal ltac:(lia) (or_intror eq_refl) E3 Hl4 Hlm (Hat 3%nat b3 eq_refl)) as (V3 & T3 & C3 & _).
  clear E0 E1 E2 E3 Hat.
  destruct (init_meta_fields ps 0) as (_ & X0 & _). destruct (init_meta_fields ps 1) as (P1 & X1 & F1 & R1).
  assert (current f ps (init_meta ps 1)) as Hcur.
  { unfold current. rewrite P1. split_and!; [exact Hps|exact Hal|lia|lia|lia|lia| |exact S1|].
    - intros slot Hs. assert (slot = 0 ∨ slot = 1) as [->| ->] by lia; [exact O0|exact O1].
    - exists (Some (init_meta ps 0)). split; [exact S0|]. apply older_some. right. split; congruence. }
  split; [exact Hl|]. split; [exact Hcur|]. split; [by apply current_meta|]. split; [|split; [exact V2|split; [exact Z2|]]].
  - unfold load_freelist. rewrite F1, V2. cbn [mbind res_bind]. unfold retired_pages, table. rewrite T2, C2. done.
  - split; [|exact S0]. rewrite R1. split; [exact V3|]. unfold data_from_page, leaf_elements, table. rewrite T3, C3. done.
Qed.

(** A newly created file is a valid, empty database: [init_file] succeeds, the
    metadata found on opening is that of slot 1 (transaction 0), the freelist it
    names is empty and the root page it names is a valid leaf without elements. *)
Theorem init_file_valid (ps n : Z) :
  1024 <= ps → ps mod 8 = 0 → 4 <= n → ps * n <= isize_max →
  ∃ f, init_file ps n = Ok f ∧ len_u64 f = ps * n ∧
    current f ps (init_meta ps 1) ∧ db_meta f ps = Ok (init_meta ps 1) ∧
    load_freelist f ps (init_meta ps 1) = Ok freelist_new ∧
    (let p := Z.to_nat (root_page (root (init_meta ps 1)) * ps) in
     validate_block f (root_page (root (init_meta ps 1))) ps = Ok p ∧ data_from_page f p = Ok (Leaves [])).
Proof.
  intros Hps Hal Hn Hmax. destruct (init_file_ok ps n Hps Hal Hn Hmax) as (f & E & Hl & Hcur & Em & Hfl & _ & _ & Hroot & _).
  exists f. exact (conj E (conj Hl (conj Hcur (conj Em (conj Hfl Hroot))))).
Qed.

End create.

Lemma init_file_valid_witness :
  ∃ f, @init_file toy_digest 1024 4 = Ok f ∧ @db_meta toy_digest f 1024 = Ok (init_meta 1024 1).
Proof.
  destruct (@init_file_valid toy_digest 1024 4) as (f & E & _ & _ & Em & _); [lia|reflexivity|lia|unfold isize_max; lia|].
  exists f. split; [exact E|exact Em].
Defined.
