(* ===== verification/Tx.v ===== *)
(** * Transactions: [src/src/api/tx.rs]

    [Tx::new_impl] past its locks: what a writer and a reader start from; a whole
    commit from there.  The invariant of a database file between transactions,
    and that every transaction keeps it and every page of a snapshot in use. *)

From S2P Require Import Prelude Search Support Layout Meta Freelist Node Page Db Commit.

Section tx.
Context `{D : Digest}.

(** [meta.tx_id += 1] *)
Definition next_tx (m : Meta) : Meta :=
  mkMeta (meta_page m) (magic m) (version m) (pagesize m) (root m) (num_pages m) (freelist_page m) (u64_wrap (tx_id m + 1)) (hash m).

Record WriteTx := mkWriteTx {
  w_meta : Meta;
  w_freelist : TxFreelist;
  w_num_freelist_pages : Z
}.

(** A write transaction on the mapped file, with the oldest registered reader.
    [reload_freelist] reads the metadata and the freelist page; the metadata is
    read again for the transaction. *)
Definition begin_write (data : bytes) (pagesize_ : Z) (oldest_reader : option Z) : res WriteTx :=
  m0 ← db_meta data pagesize_;
  freelist ← load_freelist data pagesize_ m0;
  m ← db_meta data pagesize_;
  let m := next_tx m in
  let freelist := release freelist (default (tx_id m) oldest_reader) in
  p ← validate_block data (freelist_page m) pagesize_;
  Ok (mkWriteTx m (mkTxFreelist m freelist ∅) (page_overflow_at data p + 1)).

(** Commit with the root the tree was written to, past the locks. *)
Definition commit_tx (cfg : DbConfig) (file : bytes) (w : WriteTx) (root_ : BucketMeta) : res (bytes * Plan) :=
  let m := w_meta w in
  let m := mkMeta (meta_page m) (magic m) (version m) (pagesize m) root_ (num_pages m) (freelist_page m) (tx_id m) (hash m) in
  pl ← write_data cfg (len_u64 file) m (w_num_freelist_pages w) (w_freelist w);
  Ok (committed file pl, pl).

(** ** The body of a transaction *)

(** What the tree code does to the transaction's freelist: allocate a block,
    retire pages that are in use (never the freelist's own pages [keep], which the
    commit retires), fill a dirty block. *)
Inductive tx_step (keep : PageID → Prop) : TxFreelist → TxFreelist → Prop :=
  | step_allocate tf b p tf' :
      b + CHECKSUM_SIZE + pagesize (tf_meta tf) <= u64_max →
      num_pages (tf_meta tf) + pages_for (pagesize (tf_meta tf)) b <= u64_max →
      tx_allocate tf b = Ok (p, tf') → tx_step keep tf tf'
  | step_free tf p n :
      retirable tf p n → (∀ x, p <= x < p + n → ¬ keep x) → tx_step keep tf (tx_free tf p n)
  | step_write tf p buf buf' :
      tf_pages tf !! p = Some buf → length buf' = length buf → tx_step keep tf (set_page_buf tf p buf').

(** ** The invariant of a database file *)

Record db_ok (file : bytes) (ps : Z) (m0 : Meta) (fl : Freelist) : Prop := {
  ok_current : current file ps m0;
  ok_pages : 2 <= num_pages m0 <= u64_max ∧ num_pages m0 * ps <= len_u64 file;
  ok_tx : 0 <= tx_id m0 < u64_max;
  ok_freelist : load_freelist file ps m0 = Ok fl;
  ok_freelist_wf : freelist_wf (num_pages m0) fl;
  ok_generations : ∀ t, pending_at fl t ≠ [] → 0 < t <= tx_id m0;
  ok_freelist_page :
    let p := Z.to_nat (freelist_page m0 * ps) in
    validate_block file (freelist_page m0) ps = Ok p ∧
    ∀ x, freelist_page m0 <= x < freelist_page m0 + (page_overflow_at file p + 1) →
      2 <= x < num_pages m0 ∧ (x ∉ free_pages fl) ∧ ∀ t, x ∉ pending_at fl t
}.

(** The state of a running transaction that began on [m0]. *)
Record tx_ok (m : Meta) (nfp : Z) (free0 : gset PageID) (tf : TxFreelist) : Prop := {
  tx_wf : tx_freelist_wf tf;
  tx_meta : tf_meta tf = set_num_pages m (num_pages (tf_meta tf));
  tx_grow : num_pages m <= num_pages (tf_meta tf) <= u64_max;
  tx_gens : ∀ t, pending_at (tf_inner tf) t ≠ [] → 0 < t <= tx_id m;
  tx_keep : retirable tf (freelist_page m) nfp;
  tx_free_sub : free_pages (tf_inner tf) ⊆ free0;
  tx_dirty : ∀ q k x, dirty_block tf q k → q <= x < q + k → x ∈ free0 ∨ num_pages m <= x
}.

End tx.

Lemma set_num_pages_twice m a b : set_num_pages (set_num_pages m a) b = set_num_pages m b.
Proof. done. Qed.

(** Allocation within a running transaction. *)
Lemma tx_ok_allocate m nfp free0 tf b p tf' :
  tx_ok m nfp free0 tf →
  b + CHECKSUM_SIZE + pagesize (tf_meta tf) <= u64_max →
  num_pages (tf_meta tf) + pages_for (pagesize (tf_meta tf)) b <= u64_max →
  tx_allocate tf b = Ok (p, tf') → tx_ok m nfp free0 tf'.
Proof.
  intros [Hwf Hm Hgr Hgen Hkeep Hsub Hdirty] Hb Hn Ha.
  destruct (tx_allocate_inv tf b p tf' Hwf Hb Hn Ha) as (Hb0 & m' & fl' & E & Eps & Etx & Hle & Hsub' & Ep & Hnew).
  destruct (tx_allocate_ok tf b p tf' Hwf Hb Hn Ha) as (Hwf' & _).
  pose proof Hwf as (Hps & H2 & _ & _). pose proof (pages_for_pos _ b Hps Hb0 Hb) as Hk.
  destruct (tx_allocate_meta tf b p tf') as [Em Hnp]; [lia|lia|done|done|].
  rewrite Hm, set_num_pages_twice in Em. split; try done.
  - rewrite E in *. cbn [tf_meta] in *. lia.
  - intros t. rewrite E. unfold pending_at. cbn [tf_inner]. rewrite Ep. apply Hgen.
  - intros x Hx. destruct (Hkeep x Hx) as (Hx1 & Hx2 & Hx3). rewrite E. cbn [tf_meta tf_inner]. split_and!; [lia|lia|set_solver|].
    intros t. unfold pending_at. rewrite Ep. apply Hx3.
  - rewrite E. cbn [tf_inner]. set_solver.
  - intros q k x (Hk1 & B & EB & EL) Hx. rewrite E in EB, EL. cbn [tf_pages tf_meta] in EB, EL. rewrite Eps in EL.
    rewrite lookup_insert in EB. case_decide as Eq.
    + injection EB as <-. subst q. rewrite length_fresh_page in EL by nia. assert (k = pages_for (pagesize (tf_meta tf)) b) as -> by nia.
      destruct (Hnew x Hx) as (_ & _ & [Hf|Hf]); [left; set_solver|right; lia].
    + apply (Hdirty q k x); [|done]. split; [done|]. by exists B.
Qed.

Lemma tx_ok_free m nfp free0 tf p n :
  tx_ok m nfp free0 tf → 0 < tx_id m → retirable tf p n → (∀ x, p <= x < p + n → ¬ (freelist_page m <= x < freelist_page m + nfp)) →
  tx_ok m nfp free0 (tx_free tf p n).
Proof.
  intros [Hwf Hm Hgr Hgen Hkeep Hsub Hdirty] Htx Hr Hnk. destruct (tx_free_spec tf p n) as (Em & Eb & Ef & Ep).
  assert (tx_id (tf_meta tf) = tx_id m) as Etx by (by rewrite Hm).
  split; rewrite ?Em, ?Ef; try done.
  - by apply tx_free_wf.
  - intros t. rewrite Ep, Etx. case_decide; [subst; intros _; lia|apply Hgen].
  - intros x Hx. destruct (Hkeep x Hx) as (Hx1 & Hx2 & Hx3). rewrite Em, Ef. split_and!; try done; try lia.
    intros t. rewrite Ep. case_decide; [|apply Hx3]. rewrite elem_of_app, elem_of_seqZ. intros [Hin|Hin]; [by apply Hx3 in Hin|].
    by apply (Hnk x).
Qed.

Lemma tx_ok_write m nfp free0 tf p buf buf' :
  tx_ok m nfp free0 tf → tf_pages tf !! p = Some buf → length buf' = length buf → tx_ok m nfp free0 (set_page_buf tf p buf').
Proof.
  intros [Hwf Hm Hgr Hgen Hkeep Hsub Hdirty] Hp Hl. split; try done; [by eapply set_page_buf_wf|].
  intros q k x (Hk & B & EB & EL) Hx. cbn in EB, EL. apply (Hdirty q k x); [|done]. split; [done|].
  rewrite lookup_insert in EB. case_decide as Eq; [subst|by exists B]. injection EB as <-. exists buf. split; [done|]. congruence.
Qed.

Lemma tx_ok_steps m nfp free0 tf tf' :
  0 < tx_id m → rtc (tx_step (λ x, freelist_page m <= x < freelist_page m + nfp)) tf tf' →
  tx_ok m nfp free0 tf → tx_ok m nfp free0 tf'.
Proof.
  intros Htx. induction 1 as [tf|tf tf1 tf2 Hs _ IH]; [done|]. intros Hok. apply IH. destruct Hs.
  - by eapply tx_ok_allocate.
  - by apply tx_ok_free.
  - by eapply tx_ok_write.
Qed.

(** Only the transaction's own generation gains retired pages. *)
Lemma tx_steps_retired m nfp free0 tf tf' t x :
  0 < tx_id m → rtc (tx_step (λ x, freelist_page m <= x < freelist_page m + nfp)) tf tf' → tx_ok m nfp free0 tf →
  x ∈ pending_at (tf_inner tf') t → t = tx_id m ∨ x ∈ pending_at (tf_inner tf) t.
Proof.
  intros Htx. induction 1 as [tf|tf tf1 tf2 Hs _ IH]; [by right|]. intros Hok Hin.
  assert (tx_ok m nfp free0 tf1) as Hok1 by (eapply tx_ok_steps; [done|by apply rtc_once|done]).
  destruct (IH Hok1 Hin) as [?|Hin1]; [by left|]. clear IH Hin. destruct Hs as [tf b p tf' Hb Hn Ha|tf p n Hr Hk|tf p buf buf' Hp Hl]; [|clear Hk|by right].
  - destruct (tx_allocate_inv tf b p tf' (tx_wf _ _ _ _ Hok) Hb Hn Ha) as (_ & m' & fl' & -> & _ & _ & _ & _ & Ep & _).
    right. unfold pending_at in *. cbn [tf_inner] in Hin1. by rewrite Ep in Hin1.
  - destruct (tx_free_spec tf p n) as (_ & _ & _ & Ep). rewrite Ep in Hin1. case_decide as Et; [left|by right].
    rewrite <-Et, (tx_meta _ _ _ _ Hok). done.
Qed.

Lemma release_wf limit fl t : freelist_wf limit fl → freelist_wf limit (release fl t).
Proof.
  intros (H1 & H2 & H3 & H4). destruct (release_spec fl t) as [Hf Hp].
  assert (∀ k, pending_at (release fl t) k = if decide (k < t) then [] else pending_at fl k) as Hpa.
  { intros k. unfold pending_at. rewrite Hp. by case_decide. }
  split_and!.
  - intros p [Hin|(k & _ & Hin)]%Hf; [by apply H1|by apply H2 in Hin as [? _]].
  - intros k p. rewrite Hpa. case_decide as Hk; [set_solver|]. intros Hin. split; [by apply (H2 k)|].
    intros [Hfr|(k' & Hk' & Hin')]%Hf; [by apply H2 in Hin as [_ ?]|]. rewrite (H4 _ _ _ Hin Hin') in Hk. lia.
  - intros k. rewrite Hpa. case_decide; [constructor|apply H3].
  - intros k k' p. rewrite !Hpa. do 2 case_decide; [set_solver..|]. apply H4.
Qed.

Section file.
Context `{D : Digest}.

Lemma slot_meta_fields f ps slot m :
  slot_meta f ps slot = Ok (Some m) →
  magic m = MAGIC_VALUE ∧ pagesize m = ps ∧ in_u64 (root_page (root m)) ∧ in_u64 (next_int (root m)).
Proof.
  unfold slot_meta. destruct (validate_block f slot ps) as [p| |]; [|done..]. unfold page_meta. intros H.
  destruct (page_type_at f p =? TYPE_META); [|done]. cbn [assert_that mbind res_bind] in H.
  destruct (meta_valid _ && _ && _ && _) eqn:E; [|done]. apply andb_prop in E as [[[_ E1]%andb_prop _]%andb_prop E2].
  injection H as <-. apply Z.eqb_eq in E1, E2. split_and!; [done..| |]; unfold meta_read; cbn [root root_page next_int]; apply rd64_u64.
Qed.

(** Starting a transaction. *)
Lemma begin_write_ok file ps m0 fl oldest :
  db_ok file ps m0 fl →
  let t := default (tx_id m0 + 1) oldest in
  ∃ w, begin_write file ps oldest = Ok w ∧ w_meta w = next_tx m0 ∧ tx_id (w_meta w) = tx_id m0 + 1 ∧
    tf_inner (w_freelist w) = release fl t ∧
    tx_ok (w_meta w) (w_num_freelist_pages w) (free_pages (release fl t)) (w_freelist w).
Proof.
  intros [Hcur [Hn Hlen] Htx Hfl Hwf Hgen [Hval Hfp]]. cbv zeta. pose proof (current_meta _ _ _ Hcur) as Em.
  pose proof Hcur as (Hps & _ & _ & _ & _ & Hslot & _). destruct (slot_meta_fields _ _ _ _ Hslot) as (_ & Epg & _).
  unfold begin_write. rewrite Em. cbn [mbind res_bind]. rewrite Hfl. cbn [mbind res_bind].
  change (freelist_page (next_tx m0)) with (freelist_page m0). rewrite Hval. cbn [mbind res_bind].
  assert (tx_id (next_tx m0) = tx_id m0 + 1) as Et.
  { unfold next_tx. cbn [tx_id]. unfold u64_wrap, u64_mod, u64_max in *. apply Z.mod_small. lia. }
  rewrite Et. eexists. split; [done|]. cbn [w_meta w_freelist w_num_freelist_pages tf_inner]. split_and!; try done.
  set (t := default (tx_id m0 + 1) oldest). destruct (release_spec fl t) as [Hf Hp].
  split; cbn [tf_meta tf_inner tf_pages].
  - split_and!; cbn; try done; [by rewrite Epg|lia|by apply release_wf|by intros q [? ?]|by intros q k x (_ & B & ? & _)|].
    by intros q1 n1 q2 n2 x (_ & B & ? & _).
  - by destruct m0.
  - cbn. lia.
  - intros k. unfold pending_at. rewrite Hp. case_decide; [done|]. rewrite Et. intros Hk. specialize (Hgen k Hk). lia.
  - intros x Hx. cbn [tf_meta tf_inner num_pages next_tx freelist_page] in *. destruct (Hfp x Hx) as (Hx1 & Hx2 & Hx3).
    split_and!; [lia|lia| |].
    + intros [?|(k & _ & ?)]%Hf; [done|by eapply Hx3].
    + intros k. unfold pending_at. rewrite Hp. case_decide; [set_solver|]. apply Hx3.
  - done.
  - by intros q k x (_ & B & ? & _).
Qed.

(** Sizes of a commit that fit the machine. *)
Record commit_fits (cfg : DbConfig) (file : bytes) (m : Meta) (nfp : Z) (tf : TxFreelist) (pl : Plan) : Prop := {
  cf_growth : 0 < db_growth_increment cfg;
  cf_size : freelist_size (tf_inner (tx_free tf (freelist_page m) nfp)) + CHECKSUM_SIZE + db_pagesize cfg <= isize_max;
  cf_pages : num_pages (tf_meta tf) + pages_for (db_pagesize cfg) (freelist_size (tf_inner (tx_free tf (freelist_page m) nfp))) <= u64_max;
  cf_len : len_u64 (extend_to file (pl_size pl)) <= isize_max;
  cf_root : in_u64 (root_page (root m)) ∧ in_u64 (next_int (root m))
}.

(** [tx.meta.root = meta] *)
Definition set_root (m : Meta) (r : BucketMeta) : Meta :=
  mkMeta (meta_page m) (magic m) (version m) (pagesize m) r (num_pages m) (freelist_page m) (tx_id m) (hash m).

(** A transaction from begin to the plan of its commit. *)
Definition tx_run (cfg : DbConfig) (file : bytes) (oldest : option Z) (w : WriteTx) (tf : TxFreelist) (r : BucketMeta) (pl : Plan) : Prop :=
  begin_write file (db_pagesize cfg) oldest = Ok w ∧
  rtc (tx_step (λ x, freelist_page (w_meta w) <= x < freelist_page (w_meta w) + w_num_freelist_pages w)) (w_freelist w) tf ∧
  write_data cfg (len_u64 file) (set_root (w_meta w) r) (w_num_freelist_pages w) tf = Ok pl ∧
  commit_fits cfg file (set_root (w_meta w) r) (w_num_freelist_pages w) tf pl.

Lemma tx_run_commit cfg file m0 fl oldest w tf r pl :
  db_ok file (db_pagesize cfg) m0 fl → tx_run cfg file oldest w tf r pl →
  tx_ok (w_meta w) (w_num_freelist_pages w) (free_pages (release fl (default (tx_id m0 + 1) oldest))) tf ∧
  num_pages (w_meta w) = num_pages m0 ∧ tx_id (w_meta w) = tx_id m0 + 1 ∧
  commit_of cfg file m0 (set_root (w_meta w) r) (w_num_freelist_pages w) tf pl.
Proof.
  intros Hok (Hb & Hsteps & Hw & [Hgr Hsz Hpg Hln Hrt]).
  destruct (begin_write_ok _ _ _ _ oldest Hok) as (w' & Hb' & Em & Et & _ & Htx). rewrite Hb in Hb'. injection Hb' as <-.
  pose proof Hok as [Hcur [Hn Hlen] Htid _ _ _ _]. pose proof Hcur as (Hps & _ & _ & _ & _ & Hslot & _).
  destruct (slot_meta_fields _ _ _ _ Hslot) as (Emg & Epg & _).
  assert (0 < tx_id (w_meta w)) as Hpos by lia. pose proof (tx_ok_steps _ _ _ _ _ Hpos Hsteps Htx) as Htf. pose proof Htf as [Hwf Hm Hnp Hgens Hkeep _ _].
  split_and!; [done|by rewrite Em|done|]. split; try done.
  - rewrite Hm, Em. done.
  - assert (tx_id (tf_meta tf) = tx_id m0 + 1) as Etf by (rewrite Hm; cbn [tx_id set_num_pages]; done).
    unfold freelist_u64. rewrite Etf. unfold in_u64, u64_mod, u64_max in *. split_and!; try lia.
    intros t Hne%Hgens. lia.
  - cbn [set_root meta_page]. by rewrite Em.
  - cbn [set_root tx_id]. rewrite Et. unfold in_u64, u64_mod, u64_max in *. lia.
  - cbn [set_root magic]. by rewrite Em.
Qed.

(** Writing the freelist takes pages and lists no others. *)
Lemma write_freelist_sub tf old n fp tf1 :
  tx_freelist_wf tf → retirable tf old n → freelist_u64 tf →
  freelist_size (tf_inner (tx_free tf old n)) + CHECKSUM_SIZE + pagesize (tf_meta tf) <= isize_max →
  num_pages (tf_meta tf) + pages_for (pagesize (tf_meta tf)) (freelist_size (tf_inner (tx_free tf old n))) <= u64_max →
  write_freelist tf old n = Ok (fp, tf1) →
  num_pages (tf_meta tf) <= num_pages (tf_meta tf1) ∧ free_pages (tf_inner tf1) ⊆ free_pages (tf_inner tf).
Proof.
  intros Hwf Hret Hu Hsz Hnp Ef. destruct (write_freelist_steps tf old n Hwf Hret Hu Hsz Hnp fp tf1 Ef) as (tf2 & B & Ea & -> & _).
  destruct (tx_free_spec tf old n) as (Em & _ & Efr & _).
  destruct (tx_allocate_inv (tx_free tf old n) (freelist_size (tf_inner (tx_free tf old n))) fp tf2 (tx_free_wf tf old n Hwf Hret)
    ltac:(rewrite Em; unfold u64_max, isize_max in *; lia) ltac:(by rewrite Em) Ea) as (_ & m' & fl' & -> & _ & _ & Hle & Hsub & _). rewrite Em in Hle. rewrite Efr in Hsub. done.
Qed.

(** The committed file, and the pages its freelist may list. *)
Lemma tx_run_db_ok cfg file m0 fl oldest w tf r pl :
  db_ok file (db_pagesize cfg) m0 fl → tx_id m0 + 1 < u64_max → tx_run cfg file oldest w tf r pl →
  let m1 := published (pl_slot pl) (pl_meta pl) in
  ∃ fl1, db_ok (committed file pl) (db_pagesize cfg) m1 fl1 ∧ root m1 = r ∧ tx_id m1 = tx_id m0 + 1 ∧ num_pages m0 <= num_pages m1 ∧
    ∀ x, x < num_pages m0 → x ∉ free_pages (release fl (default (tx_id m0 + 1) oldest)) →
      (x ∉ free_pages fl1) ∧ ∀ t, x ∈ pending_at fl1 t → t = tx_id m1 ∨ x ∈ pending_at fl t.
Proof.
  intros Hok Hmax Hrun m1. destruct (tx_run_commit _ _ _ _ _ _ _ _ _ Hok Hrun) as (Htx & Enp0 & Etx0 & Hco).
  destruct (commit_freelist_stored _ _ _ _ _ _ _ Hco)
    as (fl1 & fp & tf1 & Ef & Efp & Enp & _ & Hwf1 & Hload & Heq & Hval & Hov & Hlen). fold m1 in Efp, Enp, Hload, Hval, Hov, Hlen.
  destruct (published_wf _ _ _ _ _ _ _ Hco) as (_ & _ & _ & _ & Etx & _). fold m1 in Etx.
  pose proof Hco as [_ [Ep _] _ Hwf Hret Hu Hsz Hnp _ _ _ _ _ _]. rewrite <-Ep in Hsz, Hnp.
  destruct (write_freelist_image tf _ _ Hwf Hret Hu Hsz Hnp fp tf1 Ef) as (_ & _ & Hmx & _ & Epend & _).
  pose proof Htx as [_ Hm _ Hgens _ _ _]. destruct (tx_free_spec tf (freelist_page (set_root (w_meta w) r)) (w_num_freelist_pages w)) as (_ & _ & _ & Epf).
  destruct (write_freelist_sub tf _ _ fp tf1 Hwf Hret Hu Hsz Hnp Ef) as [Hnle Hfsub].
  exists fl1. split_and!; [split| |done|destruct Htx; lia|].
  - by eapply commit_current.
  - destruct Hwf1 as (_ & H2 & _). rewrite Enp. split; [lia|congruence].
  - destruct Hok as [_ _ Ht _ _ _ _]. lia.
  - done.
  - rewrite Heq, Enp. by destruct Hwf1 as (_ & _ & H & _).
  - intros t Hne. rewrite Etx, <-Etx0.
    assert (pending_at (tf_inner tf1) t ≠ []) as Hne1.
    { intros E. apply Hne. pose proof (proj2 Heq t) as HP. rewrite E in HP. by apply Permutation_nil_r in HP. }
    unfold pending_at in Hne1. rewrite Epend in Hne1. fold (pending_at (tf_inner (tx_free tf (freelist_page (set_root (w_meta w) r)) (w_num_freelist_pages w))) t) in Hne1.
    rewrite Epf, Hm in Hne1. change (tx_id (set_num_pages (w_meta w) _)) with (tx_id (w_meta w)) in Hne1. case_decide as Et; [|by apply Hgens].
    destruct Hok as [_ _ Ht _ _ _ _]. lia.
  - cbv zeta. rewrite Efp in *. split; [done|]. intros x Hx. rewrite Hov, <-Ep in Hx.
    destruct (write_freelist_unlisted tf _ _ Hwf Hret Hu Hsz Hnp fp tf1 x Ef Hx) as (Hx1 & Hx2 & Hx3).
    rewrite Enp. destruct Heq as [Hef Hep]. rewrite Hef. split_and!; try done; [lia..|]. intros t. rewrite Hep. apply Hx3.
  - destruct (commit_freelist _ _ _ _ _ _ _ Hco) as (? & ? & _ & _ & _ & _ & _ & _ & Em & _). unfold m1, published, with_hash. by rewrite Em.
  - intros x Hx Hxf. destruct Heq as [Hef Hep]. rewrite Hef. pose proof Htx as [_ _ _ _ _ Hfs _]. split; [set_solver|].
    intros t. rewrite Hep. unfold pending_at at 1. rewrite Epend. fold (pending_at (tf_inner (tx_free tf (freelist_page (set_root (w_meta w) r)) (w_num_freelist_pages w))) t).
    rewrite Epf, Hm. change (tx_id (set_num_pages (w_meta w) _)) with (tx_id (w_meta w)). rewrite Etx, <-Etx0. case_decide as Et; [by left|]. intros Hin.
    destruct Hrun as (Hb & Hst & _). destruct (begin_write_ok _ _ _ _ oldest Hok) as (w' & Hb' & _ & _ & Efl & Htx'). rewrite Hb in Hb'. injection Hb' as <-.
    assert (0 < tx_id (w_meta w)) as Hpos by (destruct Hok as [_ _ Ht _ _ _ _]; lia).
    destruct (tx_steps_retired _ _ _ _ _ t x Hpos Hst Htx' Hin) as [?|Hin0]; [by left|right].
    rewrite Efl in Hin0. unfold pending_at in Hin0 |- *. rewrite (proj2 (release_spec _ _)) in Hin0. case_decide; [set_solver|done].
Qed.



Lemma block_lookup (f f' : bytes) a n i :
  take n (drop a f') = take n (drop a f) → (a <= i < a + n)%nat → f' !! i = f !! i.
Proof.
  intros E Hi. replace i with (a + (i - a))%nat by lia. rewrite <-!lookup_drop.
  rewrite <-(lookup_take_lt (drop a f') n), <-(lookup_take_lt (drop a f) n) by lia. by rewrite E.
Qed.

(** A page that the transaction may not reuse, during and after its commit. *)
Lemma tx_run_page_kept cfg file m0 fl oldest w tf r pl x f' :
  db_ok file (db_pagesize cfg) m0 fl → tx_run cfg file oldest w tf r pl →
  torn (extend_to file (pl_size pl)) (pl_blocks pl) f' ∨ torn (data_written file pl) [pl_meta_block pl] f' →
  2 <= x < num_pages m0 → x ∉ free_pages (release fl (default (tx_id m0 + 1) oldest)) →
  take (Z.to_nat (db_pagesize cfg)) (drop (Z.to_nat (x * db_pagesize cfg)) f') =
  take (Z.to_nat (db_pagesize cfg)) (drop (Z.to_nat (x * db_pagesize cfg)) file).
Proof.
  intros Hok Hrun Ht Hx Hnf. destruct (tx_run_commit _ _ _ _ _ _ _ _ _ Hok Hrun) as (Htx & Enp0 & _ & Hco).
  destruct Htx as [_ _ Hgr _ _ Hsub Hdirty]. rewrite Enp0 in Hgr, Hdirty.
  pose proof Hok as [(Hps & _) [_ Hlen] _ _ _ _ _]. eapply commit_page_kept; try done; [lia|nia|set_solver|].
  intros q k Hd Hq. destruct (Hdirty q k x Hd Hq); [done|lia].
Qed.

(** Snapshots are isolated from writers.  Let [m0] be the latest metadata and
    let some reader be registered at the oldest snapshot [t], or none.  A page in
    use (not reusable before the transaction) that was not retired before [t] keeps
    its bytes in every state of the file during and after a write transaction: in
    particular the pages of the latest tree and those retired by transactions [t]
    and later, which the snapshots from [t] on may still reach. *)
Theorem snapshot_isolated (cfg : DbConfig) (file : bytes) (m0 : Meta) (fl : Freelist) (oldest : option Z)
    (w : WriteTx) (tf : TxFreelist) (r : BucketMeta) (pl : Plan) (x : PageID) (f' : bytes) :
  db_ok file (db_pagesize cfg) m0 fl → tx_run cfg file oldest w tf r pl →
  torn (extend_to file (pl_size pl)) (pl_blocks pl) f' ∨ torn (data_written file pl) [pl_meta_block pl] f' →
  2 <= x < num_pages m0 → x ∉ free_pages fl →
  (∀ t, t < default (tx_id m0 + 1) oldest → x ∉ pending_at fl t) →
  take (Z.to_nat (db_pagesize cfg)) (drop (Z.to_nat (x * db_pagesize cfg)) f') =
  take (Z.to_nat (db_pagesize cfg)) (drop (Z.to_nat (x * db_pagesize cfg)) file).
Proof.
  intros Hok Hrun Ht Hx Hfree Hpend. eapply tx_run_page_kept; try done.
  intros [?|(k & Hk & Hin)]%release_spec; [done|by apply (Hpend k)].
Qed.

End file.

(** ** A new file, and a transaction on it *)

Lemma init_db_ok `{D : Digest} ps n :
  1024 <= ps → ps mod 8 = 0 → 4 <= n → ps * n <= isize_max →
  ∃ f, init_file ps n = Ok f ∧ len_u64 f = ps * n ∧ slot_meta f ps 0 = Ok (Some (init_meta ps 0)) ∧ db_ok f ps (init_meta ps 1) freelist_new.
Proof.
  intros Hps Hal Hn Hmax. destruct (init_file_ok ps n Hps Hal Hn Hmax) as (f & E & Hl & Hcur & _ & Hfl & V2 & O2 & _ & S0).
  destruct (init_meta_fields ps 1) as (_ & X1 & F1 & _). exists f. split; [exact E|]. split; [exact Hl|]. split; [exact S0|].
  assert (num_pages (init_meta ps 1) = 4) as N1 by (unfold init_meta, with_hash; cbn [num_pages]; done).
  split; rewrite ?N1, ?X1, ?F1; try done; try (unfold u64_max; lia).
  - unfold u64_max. nia.
  - split_and!; try set_solver. intros t. constructor.
  - cbv zeta. rewrite O2. split; [exact V2|]. intros x Hx. split_and!; [lia|lia|set_solver|set_solver].
Qed.

Module Demo.

Definition cfg : DbConfig := mkDbConfig 1024 None 4096.
Definition disk : bytes := match @init_file toy_digest 1024 4 with Ok f => f | _ => [] end.
Definition writer : WriteTx :=
  match @begin_write toy_digest disk 1024 None with Ok w => w | _ => mkWriteTx (demo_meta 4) (mkTxFreelist (demo_meta 4) freelist_new ∅) 0 end.
Definition edited : TxFreelist :=
  match tx_allocate (w_freelist writer) 100 with Ok (_, tf) => tf | _ => w_freelist writer end.
Lemma disk_ok : @db_ok toy_digest disk 1024 (init_meta 1024 1) freelist_new.
Proof.
  destruct (@init_db_ok toy_digest 1024 4) as (f & E & _ & _ & Hok); [lia|done|lia|unfold isize_max; lia|].
  unfold disk. rewrite E. exact Hok.
Qed.

Lemma run : ∃ pl, @tx_run toy_digest cfg disk None writer edited (mkBucketMeta 4 0) pl.
Proof.
  destruct (@write_data toy_digest cfg (len_u64 disk) (set_root (w_meta writer) (mkBucketMeta 4 0)) (w_num_freelist_pages writer) edited)
    as [pl| |] eqn:Epl.
  2-3: assert ((match @write_data toy_digest cfg (len_u64 disk) (set_root (w_meta writer) (mkBucketMeta 4 0)) (w_num_freelist_pages writer) edited
      with Ok _ => true | _ => false end) = true) as Hok by (vm_compute; reflexivity); by rewrite Epl in Hok.
  assert ((match @write_data toy_digest cfg (len_u64 disk) (set_root (w_meta writer) (mkBucketMeta 4 0)) (w_num_freelist_pages writer) edited
      with Ok pl => len_u64 (extend_to disk (pl_size pl)) <=? isize_max | _ => false end) = true) as Hlen by (vm_compute; reflexivity).
  rewrite Epl in Hlen.
  exists pl. split_and!.
  - vm_compute. reflexivity.
  - apply rtc_once. apply (step_allocate _ _ 100 4); [apply Z.leb_le; vm_compute; reflexivity..|vm_compute; reflexivity].
  - exact Epl.
  - split; [done|apply Z.leb_le; vm_compute; reflexivity..|by apply Z.leb_le|vm_compute; repeat split; congruence].
Qed.

Lemma commit : ∃ m nfp tf pl, @commit_of toy_digest cfg disk (init_meta 1024 1) m nfp tf pl.
Proof.
  destruct run as [pl Hrun]. destruct (@tx_run_commit toy_digest cfg _ _ _ _ _ _ _ _ disk_ok Hrun) as (_ & _ & _ & Hco).
  eauto.
Qed.

End Demo.

Lemma commit_publishes_witness :
  ∃ pl, @db_meta toy_digest (committed Demo.disk pl) 1024 = Ok (published (pl_slot pl) (pl_meta pl)).
Proof.
  destruct Demo.commit as (m & nfp & tf & pl & Hco). exists pl.
  destruct (@commit_publishes toy_digest Demo.cfg Demo.disk (init_meta 1024 1) m nfp tf pl Hco) as (_ & E & _). exact E.
Defined.


Lemma commit_freelist_durable_witness :
  ∃ pl m1 fl, @load_freelist toy_digest (committed Demo.disk pl) 1024 m1 = Ok fl ∧ fl ≡ pl_freelist pl.
Proof.
  destruct Demo.commit as (m & nfp & tf & pl & Hco). exists pl.
  destruct (@commit_freelist_durable toy_digest Demo.cfg Demo.disk (init_meta 1024 1) m nfp tf pl Hco) as (m1 & fl & _ & E & Heq).
  exists m1, fl. exact (conj E Heq).
Defined.


Lemma snapshot_isolated_witness :
  ∃ pl, take 1024 (drop 3072 (committed Demo.disk pl)) = take 1024 (drop 3072 Demo.disk).
Proof.
  destruct Demo.run as [pl Hrun]. exists pl.
  refine (@snapshot_isolated toy_digest Demo.cfg Demo.disk _ _ None _ _ _ pl 3 (committed Demo.disk pl) Demo.disk_ok Hrun _ _ _ _).
  - right. eapply committed_torn. destruct (@tx_run_commit toy_digest Demo.cfg _ _ _ _ _ _ _ _ Demo.disk_ok Hrun) as (_ & _ & _ & Hco). exact Hco.
  - assert (num_pages (init_meta 1024 1) = 4) as -> by reflexivity. lia.
  - vm_compute. congruence.
  - intros t _. unfold pending_at. cbn. set_solver.
Defined.
