(* ===== verification/Coordination.v ===== *)
(** * Reader registration: [src/src/storage/coordination/ofd.rs]

    Readers announce the snapshot they hold through advisory locks beyond the end
    of the data: a one-byte token per slot and, in the slot's payload block, a
    range whose offset and length encode the transaction id.  A writer recovers
    the readers by probing for conflicting locks.  The lock table is the operating
    system's; it enters through [LockTable], with the documented behaviour of
    [F_OFD_GETLK]: it reports some lock that conflicts with the probed range, and
    nothing when there is none. *)

From S2P Require Import Prelude Support.

(** ** The layout of the lock region *)

Definition LOCK_BASE : Z := 2 ^ 60.
Definition MAX_DATA_FILE_BYTES : Z := LOCK_BASE.
Definition GATE_OFFSET : Z := LOCK_BASE.
Definition TOKEN_BASE : Z := LOCK_BASE + 8.
Definition MAX_READER_SLOTS : Z := 65536.
Definition PAYLOAD_BASE : Z := LOCK_BASE + 2 ^ 20.
Definition PAYLOAD_STRIDE : Z := 2 ^ 33.
Definition LOW_MASK : Z := 2 ^ 32 - 1.

Record LockRange := mkLockRange { lock_start : Z; lock_length : Z }.

#[global] Instance lock_range_eq_dec : EqDecision LockRange.
Proof. solve_decision. Defined.

Definition token_offset (slot : Z) : Z := TOKEN_BASE + slot.
Definition payload_block (slot : Z) : Z := PAYLOAD_BASE + slot * PAYLOAD_STRIDE.

Definition encode_tx_id (slot tx : Z) : LockRange :=
  let low := Z.land tx LOW_MASK in
  let high := Z.shiftr tx 32 + 1 in
  mkLockRange (payload_block slot + low) high.

Definition filter_low (o : option Z) : option Z :=
  match o with Some v => if v <=? LOW_MASK then Some v else None | None => None end.

Definition decode_tx_id (block : Z) (lock : LockRange) : res Z :=
  low ← ok_or (filter_low (checked_sub (lock_start lock) block)) (InvalidDB "invalid reader transaction lock offset");
  high ← ok_or (filter_low (checked_sub (lock_length lock) 1)) (InvalidDB "invalid reader transaction lock length");
  Ok (Z.lor (u64_wrap (Z.shiftl high 32)) low).

(** ** The lock table *)

Definition overlaps (r : LockRange) (start length : Z) : Prop :=
  lock_start r < start + length ∧ start < lock_start r + lock_length r.

#[global] Instance overlaps_dec r start len : Decision (overlaps r start len).
Proof. unfold overlaps. apply _. Defined.

(** The ranges the lock interface takes: offsets are signed. *)
Definition valid_range (start length : Z) : Prop := 0 <= start ∧ 0 < length ∧ start + length <= 2 ^ 63 - 1.

(** What a probe of a range gives. *)
Class LockProbe := { get_lock : Z → Z → res (option LockRange) }.

Class LockTable := {
  #[global] table_probe :: LockProbe;
  held : list LockRange;
  get_lock_conflict start len r : valid_range start len → get_lock start len = Ok (Some r) → r ∈ held ∧ overlaps r start len;
  get_lock_free start len : valid_range start len → get_lock start len = Ok None → ∀ r, r ∈ held → ¬ overlaps r start len
}.

Coercion table_probe : LockTable >-> LockProbe.

(** No probe of a valid range fails. *)
Definition probing (L : LockTable) : Prop := ∀ start len, valid_range start len → ∃ o, get_lock start len = Ok o.

(** ** Finding the readers *)

Section readers.
Context `{L : LockProbe}.

(** [locked_tokens]: the ranges still to probe are a stack. *)
Fixpoint tokens_loop (fuel : nat) (ranges : list (Z * Z)) (slots : list Z) : res (list Z) :=
  match fuel with
  | O => Panic NOFUEL
  | S fuel =>
      match ranges with
      | [] => Ok slots
      | (start, end_) :: ranges =>
          if end_ <=? start then tokens_loop fuel ranges slots
          else
            found ← get_lock start (end_ - start);
            match found with
            | None => tokens_loop fuel ranges slots
            | Some lock =>
                lock_end ← ok_or (checked_add (lock_start lock) (lock_length lock))
                             (InvalidDB "reader coordination lock range overflowed");
                _ ← fail_if ((lock_start lock <? TOKEN_BASE) || (TOKEN_BASE + MAX_READER_SLOTS <? lock_end))
                      (InvalidDB "reader coordination lock escaped the token region");
                tokens_loop fuel ((lock_end, end_) :: (start, lock_start lock) :: ranges)
                  (slots ++ [lock_start lock - TOKEN_BASE])
            end
      end
  end.

Definition locked_tokens : res (list Z) :=
  tokens_loop (Z.to_nat (2 * MAX_READER_SLOTS + 2)) [(TOKEN_BASE, TOKEN_BASE + MAX_READER_SLOTS)] [].

Fixpoint readers_loop (slots : list Z) (count : Z) (oldest : option Z) : res (Z * option Z) :=
  match slots with
  | [] => Ok (count, oldest)
  | slot :: slots =>
      let block := payload_block slot in
      found ← get_lock block PAYLOAD_STRIDE;
      match found with
      | None => readers_loop slots count oldest
      | Some lock =>
          tx ← decode_tx_id block lock;
          readers_loop slots (count + 1)
            (Some (match oldest with None => tx | Some current => Z.min current tx end))
      end
  end.

(** [Coordination::readers]: how many readers there are and the oldest snapshot. *)
Definition readers : res (Z * option Z) :=
  slots ← locked_tokens;
  readers_loop slots 0 None.

End readers.

(** [Coordination::register] from the value of the slot counter: [try_token slot]
    is whether the token byte could be locked.  The result is the slot and the
    payload lock taken. *)
Fixpoint register_loop (try_token : Z → res bool) (first tx : Z) (remaining : nat) (attempt : Z) : res (Z * LockRange) :=
  match remaining with
  | O => Err (Sync "reader registration table is full")
  | S remaining =>
      let slot := (first + attempt) mod MAX_READER_SLOTS in
      free ← try_token slot;
      if (free : bool) then Ok (slot, encode_tx_id slot tx)
      else register_loop try_token first tx remaining (attempt + 1)
  end.

Definition register (try_token : Z → res bool) (counter tx : Z) : res (Z * LockRange) :=
  register_loop try_token (counter mod MAX_READER_SLOTS) tx (Z.to_nat MAX_READER_SLOTS) 0.

(** ** Transaction ids as lock ranges *)

Lemma lor_shift_low a b : 0 <= a → 0 <= b < 2 ^ 32 → Z.lor (Z.shiftl a 32) b = a * 2 ^ 32 + b.
Proof.
  intros Ha Hb. rewrite <-Z.shiftl_mul_pow2 by lia. rewrite <-Z.add_lor_land.
  assert (Z.land (Z.shiftl a 32) b = 0) as ->; [|lia].
  apply Z.bits_inj'. intros n Hn. rewrite Z.land_spec, Z.bits_0. destruct (decide (n < 32)).
  - rewrite Z.shiftl_spec_low by lia. done.
  - assert (Z.testbit b n = false) as ->; [|apply andb_false_r]. rewrite <-(Z.mod_small b (2 ^ 32)) by done.
    apply Z.mod_pow2_bits_high. lia.
Qed.

Lemma encode_bounds slot tx :
  in_u64 tx → let r := encode_tx_id slot tx in
  payload_block slot <= lock_start r ∧ 0 < lock_length r ∧
  lock_start r + lock_length r <= payload_block slot + PAYLOAD_STRIDE.
Proof.
  intros Htx. cbn -[Z.shiftr payload_block]. unfold LOW_MASK. change (2 ^ 32 - 1) with (Z.ones 32). rewrite Z.land_ones, Z.shiftr_div_pow2 by lia.
  unfold in_u64, u64_mod, PAYLOAD_STRIDE in *. pose proof (Z.mod_pos_bound tx (2 ^ 32) ltac:(lia)). pose proof (Z.div_mod tx (2 ^ 32) ltac:(lia)). lia.
Qed.

Lemma decode_encode slot tx : in_u64 tx → decode_tx_id (payload_block slot) (encode_tx_id slot tx) = Ok tx.
Proof.
  intros Htx. unfold decode_tx_id, encode_tx_id, LOW_MASK. cbn [lock_start lock_length].
  change (2 ^ 32 - 1) with (Z.ones 32). rewrite Z.land_ones, Z.shiftr_div_pow2 by lia.
  unfold in_u64, u64_mod in Htx. pose proof (Z.mod_pos_bound tx (2 ^ 32) ltac:(lia)). pose proof (Z.div_mod tx (2 ^ 32) ltac:(lia)).
  unfold checked_sub, filter_low, LOW_MASK. rewrite !(proj2 (Z.leb_le _ _)) by lia. cbv beta iota.
  replace (payload_block slot + tx mod 2 ^ 32 - payload_block slot) with (tx mod 2 ^ 32) by lia.
  replace (tx / 2 ^ 32 + 1 - 1) with (tx / 2 ^ 32) by lia.
  cbn [ok_or mbind res_bind]. f_equal. unfold u64_wrap, u64_mod. rewrite Z.shiftl_mul_pow2, Z.mod_small by lia.
  rewrite <-Z.shiftl_mul_pow2, lor_shift_low by lia. lia.
Qed.

(** Transaction ids survive the encoding into lock ranges: for every slot and
    every 64-bit transaction id, the range lies inside the slot's payload block,
    within the offsets the lock interface supports, and decodes to the id. *)
Theorem tx_id_lock_roundtrip (slot tx : Z) :
  0 <= slot < MAX_READER_SLOTS → in_u64 tx →
  let r := encode_tx_id slot tx in
  decode_tx_id (payload_block slot) r = Ok tx ∧
  payload_block slot <= lock_start r ∧ 0 < lock_length r ∧
  lock_start r + lock_length r <= payload_block slot + PAYLOAD_STRIDE ∧
  payload_block slot + PAYLOAD_STRIDE <= 2 ^ 63 - 1.
Proof.
  intros Hs Htx r. pose proof (encode_bounds slot tx Htx) as (H1 & H2 & H3). fold r in H1, H2, H3.
  split_and!; try done; [by apply decode_encode|]. unfold MAX_READER_SLOTS, payload_block, PAYLOAD_BASE, LOCK_BASE, PAYLOAD_STRIDE in *. lia.
Qed.

Lemma tx_id_lock_roundtrip_witness : decode_tx_id (payload_block 7) (encode_tx_id 7 (2 ^ 64 - 1)) = Ok (2 ^ 64 - 1).
Proof. apply tx_id_lock_roundtrip; [unfold MAX_READER_SLOTS; lia|unfold in_u64, u64_mod; lia]. Defined.

(** ** The readers a probe finds *)

(** The locks of registered readers: each slot's token, and the payload of those
    that have taken it; the gate may be held too. *)
Definition lock_of (regs : gmap Z (option Z)) (r : LockRange) : Prop :=
  r = mkLockRange GATE_OFFSET 1 ∨
  ∃ slot o, regs !! slot = Some o ∧
    (r = mkLockRange (token_offset slot) 1 ∨ ∃ tx, o = Some tx ∧ r = encode_tx_id slot tx).

Record registered `{L : LockTable} (regs : gmap Z (option Z)) : Prop := {
  reg_slots : ∀ slot o, regs !! slot = Some o → 0 <= slot < MAX_READER_SLOTS;
  reg_txs : ∀ slot tx, regs !! slot = Some (Some tx) → in_u64 tx;
  reg_held : ∀ r, r ∈ held → lock_of regs r;
  reg_locks : ∀ slot o, regs !! slot = Some o →
    mkLockRange (token_offset slot) 1 ∈ held ∧ ∀ tx, o = Some tx → encode_tx_id slot tx ∈ held;
  reg_probe : probing L
}.

Section find.
Context `{L : LockTable} (regs : gmap Z (option Z)).
Hypothesis Hreg : registered regs.

(** The slots whose token lies in a range. *)
Definition in_token_range (range : Z * Z) (slot : Z) : Prop := range.1 <= token_offset slot < range.2.

(** Within the token region the probe finds tokens, one byte long. *)
Lemma probe_token start end_ :
  TOKEN_BASE <= start < end_ → end_ <= TOKEN_BASE + MAX_READER_SLOTS →
  (get_lock start (end_ - start) = Ok None ∧ ∀ slot, is_Some (regs !! slot) → ¬ in_token_range (start, end_) slot) ∨
  (∃ slot, get_lock start (end_ - start) = Ok (Some (mkLockRange (token_offset slot) 1)) ∧ is_Some (regs !! slot) ∧ in_token_range (start, end_) slot).
Proof.
  intros Hs He. destruct Hreg as [Hslots Htxs Hheld Hlocks Hprobe].
  assert (valid_range start (end_ - start)) as Hv by (unfold valid_range, TOKEN_BASE, LOCK_BASE, MAX_READER_SLOTS in *; lia).
  destruct (Hprobe start (end_ - start) Hv) as [[r|] E]; [right|left].
  - destruct (get_lock_conflict _ _ _ Hv E) as [Hin [Ho1 Ho2]]. rewrite E.
    destruct (Hheld r Hin) as [->|(slot & o & Hr & [->|(tx & -> & ->)])].
    + cbn in Ho2. unfold GATE_OFFSET, TOKEN_BASE in *. lia.
    + exists slot. unfold in_token_range. cbn in *. split_and!; [done|by rewrite Hr|lia|lia].
    + pose proof (Hslots _ _ Hr). pose proof (encode_bounds slot tx (Htxs _ _ Hr)) as (B1 & B2 & B3).
      unfold payload_block, PAYLOAD_BASE, PAYLOAD_STRIDE, TOKEN_BASE, MAX_READER_SLOTS in *. lia.
  - split; [done|]. intros slot [o Hr] [H1 H2]. cbn in *. destruct (Hlocks _ _ Hr) as [Hin _].
    apply (get_lock_free _ _ Hv E _ Hin). unfold overlaps. cbn. lia.
Qed.

Definition range_ok (range : Z * Z) : Prop := TOKEN_BASE <= range.1 ∧ range.2 <= TOKEN_BASE + MAX_READER_SLOTS.

(** The registered slots of a range. *)
Definition slots_in (range : Z * Z) : list Z :=
  elements (filter (λ slot, in_token_range range slot) (dom regs)).

Lemma elem_of_slots_in range slot : slot ∈ slots_in range ↔ is_Some (regs !! slot) ∧ in_token_range range slot.
Proof. unfold slots_in. rewrite elem_of_elements, elem_of_filter, elem_of_dom. tauto. Qed.

Lemma NoDup_slots_in range : NoDup (slots_in range).
Proof. unfold slots_in. apply NoDup_elements. Qed.

Lemma slots_in_empty range : (∀ slot, is_Some (regs !! slot) → ¬ in_token_range range slot) → slots_in range = [].
Proof.
  intros H. apply elem_of_nil_inv. intros slot [Hs Hr]%elem_of_slots_in. by apply (H slot).
Qed.

(** Removing a found token splits the range. *)
Lemma slots_in_split start end_ slot :
  is_Some (regs !! slot) → in_token_range (start, end_) slot →
  slots_in (start, end_) ≡ₚ slot :: slots_in (token_offset slot + 1, end_) ++ slots_in (start, token_offset slot).
Proof.
  intros Hs Hr. apply NoDup_Permutation; [apply NoDup_slots_in| |].
  - constructor; [|apply NoDup_app; split_and!; [apply NoDup_slots_in| |apply NoDup_slots_in]].
    + rewrite elem_of_app, !elem_of_slots_in. unfold in_token_range. cbn. lia.
    + intros x. rewrite !elem_of_slots_in. unfold in_token_range. cbn. lia.
  - intros x. rewrite elem_of_cons, elem_of_app, !elem_of_slots_in. unfold in_token_range, token_offset in *. cbn in *.
    destruct (decide (x = slot)) as [->|Hne]; [tauto|]. split; [intros [H1 H2]|]; [right|intros [?|[[H1 H2]|[H1 H2]]]; [done|..]].
    + destruct (decide (slot < x)); [left|right]; split; try done; lia.
    + split; [done|lia].
    + split; [done|lia].
Qed.

Lemma tokens_loop_spec fuel ranges slots :
  Forall range_ok ranges → (length ranges + 2 * length (ranges ≫= slots_in) < fuel)%nat →
  ∃ l, tokens_loop fuel ranges slots = Ok (slots ++ l) ∧ l ≡ₚ ranges ≫= slots_in.
Proof.
  revert ranges slots. induction fuel as [|fuel IH]; intros ranges slots Hok Hf; [lia|].
  destruct ranges as [|[start end_] ranges]; cbn [tokens_loop].
  { exists []. by rewrite app_nil_r. }
  apply Forall_cons in Hok as [[Hs He] Hok]. cbn [fst snd] in *.
  change (((start, end_) :: ranges) ≫= slots_in) with (slots_in (start, end_) ++ (ranges ≫= slots_in)) in *.
  assert (slots_in (start, end_) = [] → ∃ l, tokens_loop fuel ranges slots = Ok (slots ++ l) ∧ l ≡ₚ slots_in (start, end_) ++ (ranges ≫= slots_in)) as Hskip.
  { intros E. rewrite E in *. apply IH; [done|]. cbn [length app] in Hf. lia. }
  destruct (Z.leb_spec end_ start).
  { apply Hskip, slots_in_empty. intros slot _. unfold in_token_range. cbn. lia. }
  destruct (probe_token start end_) as [[E Hno]|(slot & E & Hs' & Hr)]; [lia|done|..]; rewrite E; cbn [mbind res_bind].
  { by apply Hskip, slots_in_empty. }
  cbn [lock_start lock_length]. pose proof Hr as [Hr1 Hr2]. cbn in Hr1, Hr2.
  unfold checked_add. rewrite (proj2 (Z.leb_le _ _)) by (unfold u64_max, TOKEN_BASE, LOCK_BASE, MAX_READER_SLOTS in *; lia).
  cbn [ok_or mbind res_bind]. rewrite (proj2 (Z.ltb_ge _ _)), (proj2 (Z.ltb_ge _ _)) by lia. cbn [orb fail_if mbind res_bind].
  pose proof (slots_in_split start end_ slot Hs' Hr) as HP.
  destruct (IH ((token_offset slot + 1, end_) :: (start, token_offset slot) :: ranges) (slots ++ [token_offset slot - TOKEN_BASE])) as (l & El & HPl).
  - repeat constructor; cbn; try done; lia.
  - cbn [length mbind list_bind]. apply Permutation_length in HP. cbn [length] in HP. rewrite !length_app in *. cbn [length] in *.
    fold (ranges ≫= slots_in). lia.
  - exists (slot :: l). rewrite El, <-app_assoc. unfold token_offset. replace (TOKEN_BASE + slot - TOKEN_BASE) with slot by lia. split; [done|].
    rewrite HP, HPl. cbn [mbind list_bind app]. by rewrite <-app_assoc.
Qed.

Lemma locked_tokens_spec : ∃ l, locked_tokens = Ok l ∧ l ≡ₚ elements (dom regs).
Proof.
  assert (slots_in (TOKEN_BASE, TOKEN_BASE + MAX_READER_SLOTS) ≡ₚ elements (dom regs)) as HP.
  { apply NoDup_Permutation; [apply NoDup_slots_in|apply NoDup_elements|]. intros slot.
    rewrite elem_of_slots_in, elem_of_elements, elem_of_dom. split; [tauto|]. intros [o Hs]. split; [by exists o|].
    pose proof (reg_slots _ Hreg _ _ Hs). unfold in_token_range, token_offset. cbn. lia. }
  assert (length (slots_in (TOKEN_BASE, TOKEN_BASE + MAX_READER_SLOTS)%Z) <= Z.to_nat MAX_READER_SLOTS)%nat as Hlen.
  { rewrite <-(length_seqZ 0 MAX_READER_SLOTS). apply submseteq_length, NoDup_submseteq; [apply NoDup_slots_in|].
    intros slot [[o Hs] _]%elem_of_slots_in. apply elem_of_seqZ. pose proof (reg_slots _ Hreg _ _ Hs). lia. }
  destruct (tokens_loop_spec (Z.to_nat (2 * MAX_READER_SLOTS + 2)) [(TOKEN_BASE, TOKEN_BASE + MAX_READER_SLOTS)] []) as (l & E & HPl).
  - repeat constructor; cbn; lia.
  - cbn [length mbind list_bind]. rewrite app_nil_r. unfold MAX_READER_SLOTS in *. lia.
  - exists l. split; [exact E|]. rewrite HPl. cbn [mbind list_bind]. by rewrite app_nil_r.
Qed.

(** The payload of a registered slot. *)
Lemma probe_payload slot o :
  regs !! slot = Some o → get_lock (payload_block slot) PAYLOAD_STRIDE = Ok (encode_tx_id slot <$> o).
Proof.
  intros Hs. pose proof (reg_slots _ Hreg _ _ Hs) as Hb. destruct Hreg as [Hslots Htxs Hheld Hlocks Hprobe].
  assert (valid_range (payload_block slot) PAYLOAD_STRIDE) as Hv.
  { unfold valid_range, payload_block, PAYLOAD_BASE, PAYLOAD_STRIDE, LOCK_BASE, MAX_READER_SLOTS in *. lia. }
  destruct (Hprobe (payload_block slot) PAYLOAD_STRIDE Hv) as [[r|] E]; rewrite E; f_equal.
  - destruct (get_lock_conflict _ _ _ Hv E) as [Hin [Ho1 Ho2]].
    destruct (Hheld r Hin) as [->|(slot' & o' & Hr & [->|(tx & -> & ->)])].
    + cbn in Ho2. unfold payload_block, GATE_OFFSET, PAYLOAD_BASE, PAYLOAD_STRIDE in *. lia.
    + pose proof (Hslots _ _ Hr). cbn in Ho1, Ho2. unfold payload_block, token_offset, PAYLOAD_BASE, PAYLOAD_STRIDE, TOKEN_BASE, MAX_READER_SLOTS in *. lia.
    + pose proof (encode_bounds slot' tx (Htxs _ _ Hr)) as (B1 & B2 & B3). unfold payload_block, PAYLOAD_STRIDE in *.
      assert (slot' = slot) as -> by lia. rewrite Hs in Hr. by injection Hr as ->.
  - destruct o as [tx|]; [|done]. exfalso. destruct (Hlocks _ _ Hs) as [_ Hp]. apply (get_lock_free _ _ Hv E _ (Hp tx eq_refl)).
    pose proof (encode_bounds slot tx (Htxs _ _ Hs)) as (B1 & B2 & B3). unfold overlaps. lia.
Qed.

(** The transaction ids of a list of slots. *)
Definition payloads (slots : list Z) : list Z := omap (λ slot, mjoin (regs !! slot)) slots.

Definition min_opt (o : option Z) (l : list Z) : option Z :=
  fold_left (λ o tx, Some (match o with None => tx | Some c => Z.min c tx end)) l o.

Lemma readers_loop_spec slots count oldest :
  (∀ slot, slot ∈ slots → is_Some (regs !! slot)) →
  readers_loop slots count oldest = Ok (count + Z.of_nat (length (payloads slots)), min_opt oldest (payloads slots)).
Proof.
  revert count oldest. induction slots as [|slot slots IH]; intros count oldest Hs; cbn [readers_loop].
  { cbn. by rewrite Z.add_0_r. }
  destruct (Hs slot) as [o Ho]; [left|]. rewrite (probe_payload slot o Ho). cbn [mbind res_bind].
  unfold payloads. cbn [omap list_omap]. rewrite Ho. destruct o as [tx|]; cbn [fmap option_fmap option_map mjoin option_join].
  - rewrite decode_encode by (by eapply reg_txs). cbn [mbind res_bind]. rewrite IH by (intros; apply Hs; by right).
    fold (payloads slots). cbn [length min_opt fold_left]. f_equal. f_equal. lia.
  - apply IH. intros; apply Hs; by right.
Qed.

End find.

Lemma min_opt_spec o l :
  match min_opt o l with
  | None => o = None ∧ l = []
  | Some t => (o = Some t ∨ t ∈ l) ∧ (∀ c, o = Some c → t <= c) ∧ ∀ x, x ∈ l → t <= x
  end.
Proof.
  revert o. induction l as [|x l IH]; intros o; cbn [min_opt fold_left].
  { destruct o as [c|]; [|done]. split_and!; [by left|by intros ? [= ->]|set_solver]. }
  specialize (IH (Some (match o with None => x | Some c => Z.min c x end))). unfold min_opt in IH.
  destruct (fold_left _ l _) as [t|]; [|by destruct IH]. destruct IH as (Hin & Hle & Hall). specialize (Hle _ eq_refl).
  split_and!.
  - destruct Hin as [[= <-]|Hin]; [|right; by right]. destruct o as [c|]; [|right; by left].
    destruct (Z.min_spec c x) as [[_ ->]|[_ ->]]; [by left|right; by left].
  - intros c ->. lia.
  - intros y [->|Hy]%elem_of_cons; [destruct o; lia|by apply Hall].
Qed.

Lemma length_payloads regs l :
  l ≡ₚ elements (dom regs) → length (payloads regs l) = size (filter (λ kv : Z * option Z, is_Some kv.2) regs).
Proof.
  intros HP. transitivity (length (filter (λ slot, is_Some (mjoin (regs !! slot))) l)).
  - clear HP. unfold payloads. induction l as [|slot l IH]; [done|]. cbn [omap list_omap]. rewrite filter_cons.
    destruct (mjoin (regs !! slot)) as [tx|]; [rewrite decide_True by done; cbn; by f_equal|rewrite decide_False by (by intros [? ?]); done].
  - rewrite <-size_dom. unfold size, set_size. apply Permutation_length. apply NoDup_Permutation.
    + apply NoDup_filter. rewrite HP. apply NoDup_elements.
    + apply NoDup_elements.
    + intros slot. rewrite list_elem_of_filter, HP, !elem_of_elements, !elem_of_dom. split.
      * intros [[tx E] [o Ho]]. rewrite Ho in E. cbn in E. subst o. exists (Some tx). apply map_lookup_filter_Some. done.
      * intros [o [Ho [tx E]]%map_lookup_filter_Some]. cbn in E. subst o. rewrite Ho. done.
Qed.

Lemma readers_found `{L : LockTable} (regs : gmap Z (option Z)) :
  registered regs →
  ∃ n oldest, readers = Ok (n, oldest) ∧
    n = Z.of_nat (size (filter (λ kv, is_Some kv.2) regs)) ∧
    match oldest with
    | Some t => (∃ slot, regs !! slot = Some (Some t)) ∧ ∀ slot tx, regs !! slot = Some (Some tx) → t <= tx
    | None => ∀ slot tx, regs !! slot ≠ Some (Some tx)
    end.
Proof.
  intros Hreg. destruct (locked_tokens_spec regs Hreg) as (l & El & HP). unfold readers. rewrite El. cbn [mbind res_bind].
  rewrite (readers_loop_spec regs Hreg) by (intros slot Hs; rewrite HP, elem_of_elements in Hs; by apply elem_of_dom).
  eexists _, _. split; [done|].
  assert (∀ tx, tx ∈ payloads regs l ↔ ∃ slot, regs !! slot = Some (Some tx)) as Hpay.
  { intros tx. unfold payloads. rewrite list_elem_of_omap. split.
    - intros (slot & _ & E). exists slot. by destruct (regs !! slot) as [[?|]|]; cbn in E; simplify_eq.
    - intros (slot & E). exists slot. rewrite HP, elem_of_elements, elem_of_dom, E. done. }
  split.
  - rewrite Z.add_0_l. f_equal. by apply length_payloads.
  - pose proof (min_opt_spec None (payloads regs l)) as Hm. destruct (min_opt None (payloads regs l)) as [t|].
    + destruct Hm as ([?|Hin] & _ & Hall); [done|]. split; [by apply Hpay|]. intros slot tx E. apply Hall, Hpay. by exists slot.
    + destruct Hm as [_ E]. intros slot tx Es. assert (tx ∈ payloads regs l) as Hin by (apply Hpay; by exists slot). rewrite E in Hin. set_solver.
Qed.

(** A writer finds every reader.  Whatever conflicting lock the system
    reports to each probe, the search ends, counts exactly the registered readers
    that have announced a snapshot, and returns the oldest of their snapshots; it
    returns none exactly when there is no such reader. *)
Theorem readers_exact `{L : LockTable} (regs : gmap Z (option Z)) :
  registered regs →
  ∃ n oldest, readers = Ok (n, oldest) ∧
    n = Z.of_nat (size (filter (λ kv, is_Some kv.2) regs)) ∧
    match oldest with
    | Some t => (∃ slot, regs !! slot = Some (Some t)) ∧ ∀ slot tx, regs !! slot = Some (Some tx) → t <= tx
    | None => ∀ slot tx, regs !! slot ≠ Some (Some tx)
    end.
Proof. apply readers_found. Qed.

(** A lock table that reports the first conflicting lock of a list. *)
Definition list_locks (l : list LockRange) : LockTable.
Proof.
  refine {| table_probe := {| get_lock start len := Ok (snd <$> list_find (λ r, overlaps r start len) l) |}; held := l |}.
  - intros start len r _ [= E]. destruct (list_find _ l) as [[i r']|] eqn:Ef; [|done]. injection E as ->.
    apply list_find_Some in Ef as (Hi & Ho & _). split; [by eapply list_elem_of_lookup_2|done].
  - intros start len _ [= E] r Hr Ho. destruct (list_find _ l) as [[i r']|] eqn:Ef; [done|].
    apply list_find_None in Ef. rewrite Forall_forall in Ef. by apply (Ef r).
Defined.

Definition demo_locks : LockTable := list_locks
  [mkLockRange (token_offset 3) 1; encode_tx_id 3 9; mkLockRange (token_offset 8) 1; encode_tx_id 8 5; mkLockRange (token_offset 4) 1].

Lemma demo_registered : @registered demo_locks {[3 := Some 9; 8 := Some 5; 4 := None]}.
Proof.
  split.
  - intros slot o. rewrite !lookup_insert_Some, lookup_singleton_Some. unfold MAX_READER_SLOTS. intros [[<- _]|[_ [[<- _]|[_ [<- _]]]]]; lia.
  - intros slot tx. rewrite !lookup_insert_Some, lookup_singleton_Some. unfold in_u64, u64_mod.
    intros [[_ [= <-]]|[_ [[_ [= <-]]|[_ [_ ?]]]]]; [lia..|done].
  - intros r Hr. right. cbn in Hr. rewrite !elem_of_cons in Hr.
    destruct Hr as [->|[->|[->|[->|[->|Hr]]]]]; [exists 3, (Some 9)|exists 3, (Some 9)|exists 8, (Some 5)|exists 8, (Some 5)|exists 4, None|set_solver];
      (split; [reflexivity|]); first [by left|by right; eexists].
  - intros slot o. rewrite !lookup_insert_Some, lookup_singleton_Some. cbn [held demo_locks list_locks].
    intros [[<- <-]|[_ [[<- <-]|[_ [<- <-]]]]]; (split; [set_solver|]); intros tx [=]; subst; set_solver.
  - intros start len _. by eexists.
Qed.

Lemma readers_exact_witness : ∃ n oldest, @readers demo_locks = Ok (n, oldest) ∧ n = 2 ∧ oldest = Some 5.
Proof.
  destruct (@readers_exact demo_locks _ demo_registered) as (n & oldest & E & En & Ho). exists n, oldest. split; [exact E|].
  split; [rewrite En; vm_compute; reflexivity|]. destruct oldest as [t|].
  - destruct Ho as [(slot & Hs) Hle]. pose proof (Hle 8 5 eq_refl) as H8. f_equal.
    rewrite !lookup_insert_Some, lookup_singleton_Some in Hs.
    destruct Hs as [[_ [= <-]]|[_ [[_ [= <-]]|[_ [_ Hs]]]]]; [lia|reflexivity|discriminate Hs].
  - destruct (Ho 8 5). reflexivity.
Defined.

(** ** Registering *)

Lemma register_loop_spec (free : Z → bool) try_token first tx remaining attempt :
  (∀ slot, 0 <= slot < MAX_READER_SLOTS → try_token slot = Ok (free slot)) →
  match register_loop try_token first tx remaining attempt with
  | Ok (slot, r) => 0 <= slot < MAX_READER_SLOTS ∧ free slot = true ∧ r = encode_tx_id slot tx
  | Err e => e = Sync "reader registration table is full" ∧
             ∀ a, attempt <= a < attempt + Z.of_nat remaining → free ((first + a) mod MAX_READER_SLOTS) = false
  | Panic _ => False
  end.
Proof.
  intros Ht. revert attempt. induction remaining as [|remaining IH]; intros attempt; cbn [register_loop]; [split; [done|lia]|].
  assert (0 <= (first + attempt) mod MAX_READER_SLOTS < MAX_READER_SLOTS) as Hb by (by apply Z.mod_pos_bound).
  rewrite (Ht _ Hb). cbn [mbind res_bind]. destruct (free _) eqn:E; [done|]. specialize (IH (attempt + 1)).
  destruct (register_loop try_token first tx remaining (attempt + 1)) as [[slot r]|e|w]; [done| |done].
  destruct IH as [-> Hall]. split; [done|]. intros a Ha. destruct (decide (a = attempt)) as [->|]; [done|apply Hall; lia].
Qed.

(** Registration takes a free slot and announces the snapshot.  When the token
    of a slot can be locked exactly if no reader holds it, [register] ends with a
    slot that was free, and the table with the two locks it takes added announces
    the reader beside the others; it fails only when every slot is taken. *)
Theorem register_announces (L L' : LockTable) (regs : gmap Z (option Z)) (try_token : Z → res bool) (counter tx : Z) :
  @registered L regs → in_u64 tx →
  (∀ slot, 0 <= slot < MAX_READER_SLOTS → try_token slot = Ok (bool_decide (regs !! slot = None))) →
  match register try_token counter tx with
  | Ok (slot, r) =>
      0 <= slot < MAX_READER_SLOTS ∧ regs !! slot = None ∧
      ((∀ q, q ∈ @held L' ↔ q ∈ @held L ∨ q = mkLockRange (token_offset slot) 1 ∨ q = r) →
       probing L' → @registered L' (<[slot := Some tx]> regs))
  | Err e => e = Sync "reader registration table is full" ∧ ∀ slot, 0 <= slot < MAX_READER_SLOTS → is_Some (regs !! slot)
  | Panic _ => False
  end.
Proof.
  intros Hreg Htx Htry. unfold register.
  pose proof (register_loop_spec _ _ (counter mod MAX_READER_SLOTS) tx (Z.to_nat MAX_READER_SLOTS) 0 Htry) as H.
  destruct (register_loop _ _ _ _ _) as [[slot r]|e|w]; [|destruct H as [-> Hall]; split; [done|]|done].
  - destruct H as (Hb & Hfree%bool_decide_eq_true & ->). split_and!; [lia|lia|done|]. intros Hheld Hprobe.
    destruct Hreg as [Hslots Htxs Hh Hl _]. split; [..|done].
    + intros s o [[<- _]|[_ Hs]]%lookup_insert_Some; [done|by eapply Hslots].
    + intros s t [[<- [= <-]]|[_ Hs]]%lookup_insert_Some; [done|by eapply Htxs].
    + intros q [Hq|Hq]%Hheld.
      * destruct (Hh q Hq) as [?|(s & o & Hs & Hs')]; [by left|right]. exists s, o. split; [|done].
        rewrite lookup_insert_ne; [done|]. intros ->. congruence.
      * right. exists slot, (Some tx). rewrite lookup_insert_eq. split; [done|]. destruct Hq; [by left|right; by exists tx].
    + intros s o [[<- <-]|[_ Hs]]%lookup_insert_Some.
      * split; [apply Hheld; auto|]. intros t [= <-]. apply Hheld. auto.
      * destruct (Hl _ _ Hs) as [H1 H2]. split; [apply Hheld; auto|]. intros t Ht. apply Hheld. left. by apply H2.
  - intros slot Hs. set (first := counter mod MAX_READER_SLOTS) in *.
    specialize (Hall ((slot - first) mod MAX_READER_SLOTS)). rewrite Zplus_mod_idemp_r in Hall.
    replace (first + (slot - first)) with slot in Hall by lia. rewrite (Z.mod_small slot) in Hall by done.
    apply not_eq_None_Some. eapply bool_decide_eq_false_1, Hall. pose proof (Z.mod_pos_bound (slot - first) MAX_READER_SLOTS ltac:(by unfold MAX_READER_SLOTS)). lia.
Qed.

Definition demo_token (slot : Z) : res bool :=
  Ok (bool_decide (({[3 := Some 9; 8 := Some 5; 4 := None]} : gmap Z (option Z)) !! slot = None)).

Lemma demo_register : register demo_token 3 7 = Ok (5, encode_tx_id 5 7).
Proof. vm_compute. reflexivity. Qed.

Lemma register_announces_witness :
  ∃ slot r, register demo_token 3 7 = Ok (slot, r) ∧ slot = 5 ∧ ({[3 := Some 9; 8 := Some 5; 4 := None]} : gmap Z (option Z)) !! slot = None.
Proof.
  exists 5, (encode_tx_id 5 7). split; [exact demo_register|]. split; [reflexivity|].
  assert (in_u64 7) as Htx by (unfold in_u64, u64_mod; lia).
  pose proof (register_announces demo_locks demo_locks _ demo_token 3 7 demo_registered Htx (λ _ _, eq_refl)) as H.
  rewrite demo_register in H. exact (proj1 (proj2 H)).
Defined.
