(* ===== verification/Open.v ===== *)
(** * Opening a database

    [src/src/storage/format.rs] (the page size of a file that does not say where its
    pages start) and [OpenOptions], [DBFlags], [DBInner] of [src/src/storage/db.rs];
    [OpenOptions::open] itself, which may verify the database, is in [Session].
    A path is what is at it: nothing, or the contents of a file.  The mapping of a
    file is shared with it, so the model keeps its length ([in_len]) and reads the
    file through it ([mapped]).  The system's page size is an argument.  Locks on
    the file and the errors of the system's calls on an existing file are left out. *)

From S2P Require Import Prelude Search Support Layout Meta Freelist Node Page Db Commit Tx Coordination.

(** ** Inspecting the format *)

Definition MAX_BOOTSTRAP_SCAN : Z := 16 * 1024 * 1024.

(** [bytes.get(offset..offset + n)?.try_into().ok()?] *)
Definition read_u32 (bytes_ : bytes) (offset : Z) : option Z :=
  if offset + 4 <=? len_u64 bytes_ then Some (rd32 bytes_ (Z.to_nat offset)) else None.
Definition read_u64 (bytes_ : bytes) (offset : Z) : option Z :=
  if offset + 8 <=? len_u64 bytes_ then Some (rd64 bytes_ (Z.to_nat offset)) else None.

(** The page size the metadata at an offset declares. *)
Definition metadata_page_size (bytes_ : bytes) (offset expected_id : Z) : option Z :=
  header_end ← checked_add offset PAGE_SIZE_OF;
  meta_end ← checked_add offset (Z.of_nat page_off_ptr + META_SIZE_OF);
  if (len_u64 bytes_ <? header_end) || (len_u64 bytes_ <? meta_end) then None
  else
    id ← read_u64 bytes_ offset;
    if negb (id =? expected_id) then None
    else
      _ ← bytes_ !! Z.to_nat (offset + Z.of_nat page_off_type);
      if negb (rd8 bytes_ (Z.to_nat (offset + Z.of_nat page_off_type)) =? TYPE_META) then None
      else
        let meta := offset + Z.of_nat page_off_ptr in
        magic_ ← read_u32 bytes_ (meta + 4);
        if negb (magic_ =? MAGIC_VALUE) then None
        else
          page_size ← read_u64 bytes_ (meta + 16);
          if (1024 <=? page_size) && (page_size <=? MAX_BOOTSTRAP_SCAN) then Some page_size else None.

Section inspect.
Context `{D : Digest}.

(** The page sizes for which there is metadata in the scanned prefix, in order. *)
Definition scan_offsets (prefix : bytes) : list Z :=
  let header := PAGE_SIZE_OF + META_SIZE_OF in
  filter (λ offset, metadata_page_size prefix offset 1 = Some offset)
    (seqZ 1024 (saturating_sub (len_u64 prefix) header - 1024)).

Definition candidates (prefix : bytes) : list Z :=
  merge_sort Z.le (elements (list_to_set (option_list (metadata_page_size prefix 0 0) ++ scan_offsets prefix) : gset Z)).

(** The candidates that authenticate. *)
Fixpoint valid_infos (file : bytes) (page_sizes : list Z) : res (list FormatInfo) :=
  match page_sizes with
  | [] => Ok []
  | page_size :: rest =>
      match inspect_candidate file page_size with
      | Ok (info, _) => infos ← valid_infos file rest; Ok (info :: infos)
      | Err _ => valid_infos file rest
      | Panic w => Panic w
      end
  end.

Definition bootstrap_scan (file : bytes) : res FormatInfo :=
  let prefix := take (Z.to_nat (Z.min (len_u64 file) MAX_BOOTSTRAP_SCAN)) file in
  valid ← valid_infos file (candidates prefix);
  match valid with
  | [info] => Ok info
  | [] => Err (InvalidDB "could not identify a valid metadata page size")
  | _ => Err (InvalidDB "ambiguous metadata page sizes; use the forensic override")
  end.

(** [FormatInfo::inspect] *)
Definition inspect (file : bytes) : res FormatInfo :=
  let header := Z.of_nat page_off_ptr + META_SIZE_OF in
  let primary := take (Z.to_nat (Z.min header (len_u64 file))) file in
  match metadata_page_size primary 0 0 with
  | Some page_size =>
      match inspect_candidate file page_size with
      | Ok (info, 2%nat) => Ok info
      | Panic w => Panic w
      | _ => bootstrap_scan file
      end
  | None => bootstrap_scan file
  end.

End inspect.

(** ** Options *)

Inductive WriteVerification := Standard | ReadBack | Full.

Record DBFlags := mkFlags {
  write_verification : WriteVerification;
  mmap_populate : bool;
  direct_writes : bool;
  read_only : bool;
  verify_on_open : bool
}.

Record OpenOptions := mkOpenOptions {
  oo_pagesize : option Z;
  oo_num_pages : Z;
  oo_max_file_bytes : option Z;
  oo_growth_increment : Z;
  oo_flags : DBFlags
}.

Definition MIN_ALLOC_SIZE : Z := 8 * 1024 * 1024.
Definition DEFAULT_NUM_PAGES : Z := 32.

(** [OpenOptions::new], on a system with pages of this size. *)
Definition options_default (os_page_size : Z) : res OpenOptions :=
  _ ← assert_that (1024 <=? os_page_size) "Pagesize must be 1024 bytes minimum";
  Ok (mkOpenOptions None DEFAULT_NUM_PAGES None MIN_ALLOC_SIZE (mkFlags ReadBack false false false false)).

Definition with_pagesize (o : OpenOptions) (pagesize_ : Z) : res OpenOptions :=
  _ ← assert_that (1024 <=? pagesize_) "Pagesize must be 1024 bytes minimum";
  Ok (mkOpenOptions (Some pagesize_) (oo_num_pages o) (oo_max_file_bytes o) (oo_growth_increment o) (oo_flags o)).

Definition with_max_file_bytes (o : OpenOptions) (bytes_ : Z) : res OpenOptions :=
  _ ← assert_that (4096 <=? bytes_) "Maximum file size must be at least 4096 bytes";
  Ok (mkOpenOptions (oo_pagesize o) (oo_num_pages o) (Some bytes_) (oo_growth_increment o) (oo_flags o)).

Definition with_growth_increment (o : OpenOptions) (bytes_ : Z) : res OpenOptions :=
  _ ← assert_that (0 <? bytes_) "Growth increment must be non-zero";
  Ok (mkOpenOptions (oo_pagesize o) (oo_num_pages o) (oo_max_file_bytes o) bytes_ (oo_flags o)).

Definition with_num_pages (o : OpenOptions) (num_pages_ : Z) : res OpenOptions :=
  _ ← assert_that (4 <=? num_pages_) "Must have a minimum of 4 pages";
  Ok (mkOpenOptions (oo_pagesize o) num_pages_ (oo_max_file_bytes o) (oo_growth_increment o) (oo_flags o)).

Definition with_flags (o : OpenOptions) (f : DBFlags) : OpenOptions :=
  mkOpenOptions (oo_pagesize o) (oo_num_pages o) (oo_max_file_bytes o) (oo_growth_increment o) f.

Definition set_write_verification (o : OpenOptions) (v : WriteVerification) : OpenOptions :=
  let f := oo_flags o in with_flags o (mkFlags v (mmap_populate f) (direct_writes f) (read_only f) (verify_on_open f)).
Definition strict_mode (o : OpenOptions) (strict : bool) : OpenOptions := set_write_verification o (if strict then Full else ReadBack).
Definition set_mmap_populate (o : OpenOptions) (populate : bool) : OpenOptions :=
  let f := oo_flags o in with_flags o (mkFlags (write_verification f) populate (direct_writes f) (read_only f) (verify_on_open f)).
Definition set_direct_writes (o : OpenOptions) (direct : bool) : OpenOptions :=
  let f := oo_flags o in with_flags o (mkFlags (write_verification f) (mmap_populate f) direct (read_only f) (verify_on_open f)).
Definition set_read_only (o : OpenOptions) : OpenOptions :=
  let f := oo_flags o in with_flags o (mkFlags (write_verification f) (mmap_populate f) false true (verify_on_open f)).
Definition set_verify_on_open (o : OpenOptions) (verify : bool) : OpenOptions :=
  let f := oo_flags o in with_flags o (mkFlags (write_verification f) (mmap_populate f) (direct_writes f) (read_only f) verify).

(** ** The open database *)

(** [coordination] and [readback_file] are open files; the model keeps whether
    they are there. *)
Record DBInner := mkDBInner {
  in_len : Z;
  in_freelist : Freelist;
  in_open_ro_txs : list Z;
  in_coordination : bool;
  in_readback_file : bool;
  in_flags : DBFlags;
  in_pagesize : Z;
  in_max_file_bytes : option Z;
  in_growth_increment : Z;
  in_committed_transactions : Z;
  in_bytes_written : Z
}.

Definition mapped (db : DBInner) (file : bytes) : bytes := take (Z.to_nat (in_len db)) file.

Definition with_len (db : DBInner) (len : Z) : DBInner :=
  mkDBInner len (in_freelist db) (in_open_ro_txs db) (in_coordination db) (in_readback_file db) (in_flags db) (in_pagesize db)
    (in_max_file_bytes db) (in_growth_increment db) (in_committed_transactions db) (in_bytes_written db).
Definition with_freelist (db : DBInner) (fl : Freelist) : DBInner :=
  mkDBInner (in_len db) fl (in_open_ro_txs db) (in_coordination db) (in_readback_file db) (in_flags db) (in_pagesize db)
    (in_max_file_bytes db) (in_growth_increment db) (in_committed_transactions db) (in_bytes_written db).
Definition with_open_ro_txs (db : DBInner) (txs : list Z) : DBInner :=
  mkDBInner (in_len db) (in_freelist db) txs (in_coordination db) (in_readback_file db) (in_flags db) (in_pagesize db)
    (in_max_file_bytes db) (in_growth_increment db) (in_committed_transactions db) (in_bytes_written db).

Section open.
Context `{D : Digest}.

(** [DBInner::open] *)
Definition inner_open (file : bytes) (pagesize_ : Z) (flags : DBFlags) (max_file_bytes : option Z) (growth_increment : Z) : res DBInner :=
  let coordination := negb (read_only flags) in
  let readback := match write_verification flags with Standard => false | _ => negb (read_only flags) end in
  let db := mkDBInner (len_u64 file) freelist_new [] coordination readback flags pagesize_ max_file_bytes growth_increment 0 0 in
  m ← db_meta (mapped db file) pagesize_;
  freelist ← load_freelist (mapped db file) pagesize_ m;
  Ok (with_freelist db freelist).

(** [DBInner::refresh]: map the file again when its length has changed. *)
Definition refresh (db : DBInner) (file : bytes) : DBInner :=
  if in_len db =? len_u64 file then db else with_len db (len_u64 file).

(** [DBInner::reload_freelist] *)
Definition reload_freelist (db : DBInner) (file : bytes) : res DBInner :=
  m ← db_meta (mapped db file) (in_pagesize db);
  freelist ← load_freelist (mapped db file) (in_pagesize db) m;
  Ok (with_freelist db freelist).

(** The page size to open a file with. *)
Definition choose_page_size (os_page_size : Z) (o : OpenOptions) (disk : option bytes) : res Z :=
  match disk with
  | Some file =>
      match oo_pagesize o, inspect file with
      | _, Panic w => Panic w
      | None, Ok info => Ok (fi_page_size info)
      | Some explicit, Ok info =>
          if explicit =? fi_page_size info then Ok explicit
          else Err (InvalidDB ("explicit page size " +:+ dec explicit +:+ " conflicts with detected page size " +:+ dec (fi_page_size info)))
      | Some explicit, Err _ => Ok explicit
      | None, Err error => Err error
      end
  | None => Ok (default os_page_size (oo_pagesize o))
  end.

(** The file to open: an existing one, or a new one. *)
Definition open_or_create (o : OpenOptions) (pagesize_ : Z) (disk : option bytes) : res bytes :=
  match disk with
  | Some file => Ok file
  | None =>
      if read_only (oo_flags o) then Err (Io (mkIoError NotFound "No such file or directory (os error 2)"))
      else init_file pagesize_ (oo_num_pages o)
  end.

End open.

(** ** What the inspection finds *)

Section inspected.
Context `{D : Digest}.

(** A valid slot declares its page size. *)
Lemma slot_declares f ps slot m k :
  1024 <= ps <= MAX_BOOTSTRAP_SCAN → 0 <= slot → len_u64 f <= isize_max →
  slot_meta f ps slot = Ok (Some m) → slot * ps + 104 <= Z.of_nat k → slot * ps + 104 <= len_u64 f →
  metadata_page_size (take k f) (slot * ps) slot = Some ps.
Proof.
  intros Hps Hs Hl Hm Hk Hf. destruct (slot_meta_fields f ps slot m Hm) as (Hmg & Hpg & _).
  unfold slot_meta in Hm. destruct (validate_block f slot ps) as [p| |] eqn:Ev; [|done..].
  apply validate_block_spec in Ev as (L & (Ep & _ & Eid & _) & _); [|lia..].
  unfold page_meta in Hm. destruct (Z.eqb_spec (page_type_at f p) TYPE_META) as [Et|]; [|done]. cbn [assert_that mbind res_bind] in Hm.
  destruct (meta_valid _ && _ && _ && _); [|done]. injection Hm as <-. unfold meta_read in Hmg, Hpg. cbn [magic pagesize] in Hmg, Hpg.
  assert (p = Z.to_nat (slot * ps)) as -> by lia. assert (0 <= slot * ps) as H0 by nia. unfold len_u64 in *.
  unfold page_id_at, page_type_at, page_off_id, page_off_type, page_off_ptr in *.
  unfold metadata_page_size, checked_add, read_u64, read_u32, PAGE_SIZE_OF, META_SIZE_OF, page_off_ptr, page_off_type, len_u64.
  rewrite length_take. assert (slot * ps + 104 <= Z.of_nat (k `min` length f)) as Hm by lia. unfold isize_max, u64_max in *.
  btest. cbn [mbind option_bind]. btest. cbn [orb mbind option_bind]. rewrite rd_take by lia.
  replace (Z.to_nat (slot * ps)) with (Z.to_nat (slot * ps) + 0)%nat at 1 by lia. rewrite Eid, Z.eqb_refl. cbn [negb].
  destruct (lookup_lt_is_Some_2 (take k f) (Z.to_nat (slot * ps + Z.of_nat 8))) as [x ->]; [rewrite length_take; lia|].
  cbn [mbind option_bind]. rewrite rd_take by lia. replace (Z.to_nat (slot * ps + Z.of_nat 8)) with (Z.to_nat (slot * ps) + 8)%nat by lia.
  rewrite Et, Z.eqb_refl. cbn [negb]. btest. cbn [mbind option_bind]. rewrite rd_take by lia.
  replace (Z.to_nat (slot * ps + Z.of_nat 32 + 4)) with (Z.to_nat (slot * ps) + 32 + 4)%nat by lia. rewrite Hmg, Z.eqb_refl. cbn [negb].
  btest. cbn [mbind option_bind]. rewrite rd_take by lia.
  replace (Z.to_nat (slot * ps + Z.of_nat 32 + 16)) with (Z.to_nat (slot * ps) + 32 + 16)%nat by lia. rewrite Hpg. btest. done.
Qed.

(** The first two pages hold the metadata. *)
Lemma bootstrap_slot f ps m0 slot :
  current f ps m0 → 0 <= slot <= 1 → slot_meta (take (Z.to_nat (ps * 2)) f) ps slot = slot_meta f ps slot.
Proof.
  intros (Hps & _ & Hl & _ & Hov & _) Hs. unfold len_u64 in *.
  apply slot_kept; try done; [unfold len_u64; rewrite length_take; lia|by apply Hov|].
  intros i Hi. apply lookup_take_lt. nia.
Qed.

(** What the inspection of a page size reports. *)
Definition format_of (f : bytes) (ps : Z) (m : Meta) : FormatInfo := mkFormatInfo ps (version m) (tx_id m) (meta_page m) (len_u64 f).

Definition slots_valid (o : option Meta) : nat := match o with Some _ => 2 | None => 1 end.

Lemma candidate_current f ps m0 o :
  current f ps m0 → slot_meta f ps (1 - meta_page m0) = Ok o →
  inspect_candidate f ps = Ok (format_of f ps m0, slots_valid o).
Proof.
  intros Hc Eo. pose proof Hc as (Hps & _ & Hl & Hp & _ & E1 & o' & E2 & Ho). rewrite Eo in E2. injection E2 as <-.
  unfold inspect_candidate, checked_mul. unfold isize_max, u64_max in *. btest. cbn [ok_or mbind res_bind]. unfold fail_if. btest. cbn [mbind res_bind].
  rewrite !(bootstrap_slot f ps m0) by (done || lia).
  assert (meta_page m0 = 0 ∨ meta_page m0 = 1) as [Em|Em] by lia; rewrite Em in E1, Eo; [change (1 - 0) with 1 in Eo|change (1 - 1) with 0 in Eo];
    rewrite E1, Eo; cbn [mbind res_bind]; destruct o as [m'|]; try done; specialize (Ho m' eq_refl); unfold option_list, slots_valid; simpl;
    match goal with |- context[?a <? ?b] => destruct (Z.ltb_spec a b) end; try lia; done.
Qed.

(** Page sizes that authenticate among candidates without repetition. *)
Lemma valid_infos_unique f ps info n l :
  ps ∈ l → NoDup l → inspect_candidate f ps = Ok (info, n) → (∀ ps', ps' ≠ ps → ∃ e, inspect_candidate f ps' = Err e) →
  valid_infos f l = Ok [info].
Proof.
  intros Hin Hnd E Hother. assert (∀ l', ps ∉ l' → valid_infos f l' = Ok []) as Hnone.
  { intros l'. induction l' as [|x l' IH]; [done|]. intros [Hne Hni]%not_elem_of_cons. cbn. destruct (Hother x) as [e ->]; [done|]. by apply IH. }
  induction Hnd as [|x l Hx Hnd IH]; [by apply elem_of_nil in Hin|]. cbn. apply elem_of_cons in Hin as [->|Hin].
  - rewrite E, Hnone by done. done.
  - destruct (Hother x) as [e ->]; [by intros ->|]. by apply IH.
Qed.

Lemma candidates_spec prefix ps :
  ps ∈ candidates prefix ↔ metadata_page_size prefix 0 0 = Some ps ∨
    (1024 <= ps < len_u64 prefix - 112 ∧ metadata_page_size prefix ps 1 = Some ps).
Proof.
  unfold candidates. rewrite merge_sort_Permutation, elem_of_elements, elem_of_list_to_set, elem_of_app. unfold scan_offsets.
  rewrite list_elem_of_filter, elem_of_seqZ. unfold saturating_sub, PAGE_SIZE_OF, META_SIZE_OF.
  assert (ps ∈ option_list (metadata_page_size prefix 0 0) ↔ metadata_page_size prefix 0 0 = Some ps) as ->.
  { destruct (metadata_page_size prefix 0 0); cbn; [rewrite list_elem_of_singleton; naive_solver|rewrite elem_of_nil; naive_solver]. }
  split; (intros [?|[? ?]]; [by left|right]); split; try done; lia.
Qed.

Lemma NoDup_candidates prefix : NoDup (candidates prefix).
Proof. unfold candidates. rewrite merge_sort_Permutation. apply NoDup_elements. Qed.

Lemma inspect_current f ps m0 :
  current f ps m0 → ps + 112 < MAX_BOOTSTRAP_SCAN →
  (∃ m', slot_meta f ps (1 - meta_page m0) = Ok (Some m')) ∨ (∀ ps', ps' ≠ ps → ∃ e, inspect_candidate f ps' = Err e) →
  inspect f = Ok (format_of f ps m0).
Proof.
  intros Hc Hmax Hor. pose proof Hc as (Hps & _ & Hl & Hp & _ & E1 & o & E2 & _).
  pose proof (candidate_current f ps m0 o Hc E2) as Ec.
  assert (∀ slot m k, 0 <= slot <= 1 → slot_meta f ps slot = Ok (Some m) → slot * ps + 104 <= Z.of_nat k → metadata_page_size (take k f) (slot * ps) slot = Some ps) as Hd.
  { intros slot m k Hs Em Hk. eapply slot_declares; try done; try lia. nia. }
  assert (o = None → bootstrap_scan f = Ok (format_of f ps m0)) as Hscan.
  { intros ->. destruct Hor as [[m' Em']|Hother]; [congruence|]. unfold bootstrap_scan.
    rewrite (valid_infos_unique f ps (format_of f ps m0) 1); [done| |apply NoDup_candidates|exact Ec|exact Hother].
    apply candidates_spec. assert (meta_page m0 = 0 ∨ meta_page m0 = 1) as [Em|Em] by lia; rewrite Em in E1.
    - left. apply (Hd 0 m0); [lia|done|]. lia.
    - right. split; [unfold len_u64 in *; rewrite length_take; lia|]. pose proof (Hd 1 m0 (Z.to_nat (Z.min (len_u64 f) MAX_BOOTSTRAP_SCAN)) ltac:(lia) E1 ltac:(lia)) as H1.
      by rewrite Z.mul_1_l in H1. }
  assert (∀ k m', o = Some m' → Z.of_nat k = 104 → metadata_page_size (take k f) 0 0 = Some ps) as Hboth.
  { intros k m' -> Hk. assert (meta_page m0 = 0 ∨ meta_page m0 = 1) as [Em|Em] by lia; rewrite Em in E1, E2;
      [apply (Hd 0 m0)|apply (Hd 0 m')]; (done || lia). }
  unfold inspect. set (k := Z.to_nat (Z.min _ _)). assert (Z.of_nat k = 104) as Hk by (unfold k, page_off_ptr, META_SIZE_OF; lia). clearbody k.
  destruct o as [m'|].
  - by rewrite (Hboth k m' eq_refl Hk), Ec.
  - rewrite Hscan by done. destruct (metadata_page_size (take k f) 0 0) as [ps0|]; [|done].
    destruct (decide (ps0 = ps)) as [->|Hne]; [by rewrite Ec|].
    destruct Hor as [[m' Em']|Hother]; [congruence|]. by destruct (Hother ps0 Hne) as [e ->].
Qed.

(** C18: The page size of a database is found again without being told.  Let the file
    hold current metadata for a page size that the scan covers, of whichever slot.
    When both slots are valid, or no other page size authenticates, the inspection
    reports this page size with the version, the transaction and the slot of the
    current metadata: the metadata [DBInner::meta] then finds. *)
Theorem inspect_finds_current (f : bytes) (ps : Z) (m0 : Meta) :
  current f ps m0 → ps + 112 < MAX_BOOTSTRAP_SCAN →
  (∃ m', slot_meta f ps (1 - meta_page m0) = Ok (Some m')) ∨ (∀ ps', ps' ≠ ps → ∃ e, inspect_candidate f ps' = Err e) →
  inspect f = Ok (format_of f ps m0) ∧ db_meta f ps = Ok m0.
Proof. intros Hc Hmax Hor. split; [by apply inspect_current|by apply current_meta]. Qed.

End inspected.

Lemma inspect_finds_current_witness :
  ∃ f, @init_file toy_digest 1024 4 = Ok f ∧ inspect (D := toy_digest) f = Ok (format_of f 1024 (init_meta 1024 1)).
Proof.
  destruct (@init_file_ok toy_digest 1024 4) as (f & E & Hl & Hcur & _); [lia|reflexivity|lia|unfold isize_max; lia|].
  exists f. split; [exact E|]. refine (proj1 (@inspect_finds_current toy_digest f 1024 _ Hcur _ _)); [unfold MAX_BOOTSTRAP_SCAN; lia|].
  left. assert ((match @init_file toy_digest 1024 4 with Ok f => match @slot_meta toy_digest f 1024 0 with Ok (Some _) => true | _ => false end | _ => false end) = true)
    as H by (vm_compute; reflexivity).
  rewrite E in H. change (1 - meta_page (init_meta 1024 1)) with 0. destruct (slot_meta f 1024 0) as [[m'|]| |]; [by exists m'|discriminate H..].
Defined.
