(* ===== verification/Codecs.v ===== *)
(** * Key and value codecs: [src/src/typed/codecs.rs], [src/src/typed/mod.rs]

    The traits [KeyCodec] and [ValueCodec] are type classes; what a caller may rely
    on (every key encodes, decoding inverts encoding, nothing but an encoding
    decodes, the byte order is the key order) is the class [LawfulKey], proved of
    each codec.  A Rust string is its UTF-8 bytes; the text of the error that
    [String::from_utf8] returns is not modelled. *)

From S2P Require Import Prelude Support.

(** ** Errors of typed access *)

Inductive CodecError :=
  | Storage (e : Error)
  | Encode (why : string)
  | Decode (why : string)
  | OrderingRequired
  | InvalidDefinition
  | SchemaMissing (collection : string)
  | SchemaMismatch (collection expected_id : string) (expected_version : Z).

Inductive cres (A : Type) :=
  | COk (a : A)
  | CErr (e : CodecError)
  | CPanic (why : string).
Arguments COk {A} _.
Arguments CErr {A} _.
Arguments CPanic {A} _.

#[global] Instance cres_ret : MRet cres := @COk.
#[global] Instance cres_bind : MBind cres := λ A B f m, 
  match m with COk a => f a | CErr e => CErr e | CPanic w => CPanic w end.

(** [impl From<Error> for CodecError]; a panic of the storage call unwinds. *)
Definition from_storage {A} (r : res A) : cres A :=
  match r with Ok a => COk a | Err e => CErr (Storage e) | Panic w => CPanic w end.

Definition cok_or {A} (o : option A) (e : CodecError) : cres A :=
  match o with Some a => COk a | None => CErr e end.

(** ** Traits *)

Class KeyCodec (K : Type) := {
  ORDER_PRESERVING : bool;
  encode_key : K → cres bytes;
  decode_key : bytes → cres K
}.

Class ValueCodec (V : Type) := {
  encode_value : V → cres bytes;
  decode_value : bytes → cres V
}.

(** ** UTF-8 *)

Definition within (lo hi z : Z) : bool := (lo <=? z) && (z <=? hi).
Definition is_cont (b : byte) : bool := within 0x80 0xBF (Z_of_byte b).

(** The second byte after the lead of a three- or four-byte sequence. *)
Definition second3 (lead z : Z) : bool :=
  if lead =? 0xE0 then within 0xA0 0xBF z else if lead =? 0xED then within 0x80 0x9F z else within 0x80 0xBF z.
Definition second4 (lead z : Z) : bool :=
  if lead =? 0xF0 then within 0x90 0xBF z else if lead =? 0xF4 then within 0x80 0x8F z else within 0x80 0xBF z.

Fixpoint utf8_valid (l : bytes) : bool :=
  match l with
  | [] => true
  | b0 :: l1 =>
      let z := Z_of_byte b0 in
      if z <? 0x80 then utf8_valid l1
      else match l1 with
      | [] => false
      | b1 :: l2 =>
          if within 0xC2 0xDF z then is_cont b1 && utf8_valid l2
          else match l2 with
          | [] => false
          | b2 :: l3 =>
              if within 0xE0 0xEF z then second3 z (Z_of_byte b1) && is_cont b2 && utf8_valid l3
              else match l3 with
              | [] => false
              | b3 :: l4 =>
                  within 0xF0 0xF4 z && second4 z (Z_of_byte b1) && is_cont b2 && is_cont b3 && utf8_valid l4
              end
          end
      end
  end.

Definition UTF8_ERROR : string := "invalid utf-8 sequence".

(** [String::from_utf8], errors mapped. *)
Definition from_utf8 (b : bytes) : cres bytes := if utf8_valid b then COk b else CErr (Decode UTF8_ERROR).

(** ** Integers *)

(** [bytes.try_into()] to an array of [n] bytes. *)
Definition fixed (n : nat) (b : bytes) (name : string) : cres bytes :=
  if (length b =? n)%nat then COk b else CErr (Decode (name +:+ " must contain " +:+ dec (Z.of_nat n) +:+ " bytes")).

(** [as u64], [as i64] *)
Definition i64_as_u64 (k : Z) : Z := u64_wrap k.
Definition u64_as_i64 (z : Z) : Z := if z <? 2 ^ 63 then z else z - 2 ^ 64.
Definition in_i64 (z : Z) : Prop := - 2 ^ 63 <= z < 2 ^ 63.

Definition U64Codec : KeyCodec Z := {|
  ORDER_PRESERVING := true;
  encode_key key := COk (be_bytes 8 key);
  decode_key b := a ← fixed 8 b "u64 key"; COk (of_be a)
|}.

Definition U64ValueCodec : ValueCodec Z := {|
  encode_value value := COk (be_bytes 8 value);
  decode_value b := a ← fixed 8 b "u64 value"; COk (of_be a)
|}.

Definition I64Codec : KeyCodec Z := {|
  ORDER_PRESERVING := true;
  encode_key key := COk (be_bytes 8 (Z.lxor (i64_as_u64 key) (2 ^ 63)));
  decode_key b := a ← fixed 8 b "i64 key"; COk (u64_as_i64 (Z.lxor (of_be a) (2 ^ 63)))
|}.

Definition I64ValueCodec : ValueCodec Z := {|
  encode_value value := COk (be_bytes 8 (i64_as_u64 value));
  decode_value b := a ← fixed 8 b "i64 value"; COk (u64_as_i64 (of_be a))
|}.

(** ** Strings and bytes *)

Definition StringCodec : KeyCodec bytes := {|
  ORDER_PRESERVING := true;
  encode_key key := COk key;
  decode_key b := from_utf8 b
|}.

Definition StringValueCodec : ValueCodec bytes := {|
  encode_value value := COk value;
  decode_value b := from_utf8 b
|}.

Definition BytesCodec : KeyCodec bytes := {|
  ORDER_PRESERVING := true;
  encode_key key := COk key;
  decode_key b := COk b
|}.

Definition BytesValueCodec : ValueCodec bytes := {|
  encode_value value := COk value;
  decode_value b := COk b
|}.

(** ** Pairs of strings *)

Fixpoint escape_bytes (value : bytes) : bytes :=
  match value with
  | [] => []
  | b :: value => (if decide (b = Byte.x00) then [Byte.x00; Byte.xff] else [b]) ++ escape_bytes value
  end.

Definition escape (value : bytes) : bytes := escape_bytes value ++ [Byte.x00; Byte.x00].

(** [unescape] from [index] on, with what has been read; the remaining bytes are
    [bytes[index..]]. *)
Fixpoint unescape_loop (b : bytes) (result : bytes) (index : nat) : cres (bytes * nat) :=
  match b with
  | [] => CErr (Decode "unterminated compound key")
  | c :: b =>
      if decide (c ≠ Byte.x00) then unescape_loop b (result ++ [c]) (index + 1)
      else match b with
      | d :: b =>
          if decide (d = Byte.xff) then unescape_loop b (result ++ [Byte.x00]) (index + 2)
          else if decide (d = Byte.x00) then s ← from_utf8 result; COk (s, index + 2)%nat
          else CErr (Decode "invalid compound key escape")
      | [] => CErr (Decode "invalid compound key escape")
      end
  end.

Definition unescape (b : bytes) : cres (bytes * nat) := unescape_loop b [] 0.

Definition StringPairCodec : KeyCodec (bytes * bytes) := {|
  ORDER_PRESERVING := true;
  encode_key key := COk (escape key.1 ++ escape key.2);
  decode_key b :=
    '(first, used) ← unescape b;
    '(second, tail) ← unescape (drop used b);
    if (used + tail =? length b)%nat then COk (first, second)
    else CErr (Decode "trailing compound key bytes")
|}.

(** [TypedCodec]: a key and a value codec side by side. *)
Record TypedCodec (K V : Type) := mkTypedCodec { tc_key : KeyCodec K; tc_value : ValueCodec V }.
Arguments mkTypedCodec {K V}.
Arguments tc_key {K V}.
Arguments tc_value {K V}.

(** ** What a codec promises *)

Class LawfulKey {K} (C : KeyCodec K) (valid : K → Prop) (cmp : K → K → comparison) : Prop := {
  key_roundtrip k : valid k → ∃ b, encode_key k = COk b ∧ decode_key b = COk k;
  key_canonical b k : decode_key b = COk k → valid k ∧ encode_key k = COk b;
  key_order k1 k2 b1 b2 : ORDER_PRESERVING = true → valid k1 → valid k2 →
    encode_key k1 = COk b1 → encode_key k2 = COk b2 → lex_cmp b1 b2 = cmp k1 k2
}.

Class LawfulValue {V} (C : ValueCodec V) (valid : V → Prop) : Prop := {
  value_roundtrip v : valid v → ∃ b, encode_value v = COk b ∧ decode_value b = COk v;
  value_canonical b v : decode_value b = COk v → valid v ∧ encode_value v = COk b
}.

(** ** Integers *)

Ltac ltb_cases := repeat match goal with |- context[?a <? ?b] => destruct (Z.ltb_spec a b) end.

Lemma fixed_ok n b name a : fixed n b name = COk a ↔ a = b ∧ length b = n.
Proof.
  unfold fixed. destruct (Nat.eqb_spec (length b) n); split; intros H; [by injection H as <-|by destruct H as [-> _]|done|by destruct H].
Qed.

Lemma fixed_be8 z name : fixed 8 (be_bytes 8 z) name = COk (be_bytes 8 z).
Proof. apply fixed_ok. split; [done|apply length_be_bytes]. Qed.

(** What decoding eight big-endian bytes accepts. *)
Lemma be8_canonical b : length b = 8%nat → in_u64 (of_be b) ∧ be_bytes 8 (of_be b) = b.
Proof.
  intros Hl. pose proof (of_be_range b) as Hr. rewrite Hl in Hr. change (256 ^ Z.of_nat 8) with u64_mod in Hr.
  split; [done|]. rewrite <-Hl. apply be_bytes_of_be.
Qed.

Lemma flip_sign u : in_u64 u → Z.lxor u (2 ^ 63) = if u <? 2 ^ 63 then u + 2 ^ 63 else u - 2 ^ 63.
Proof.
  assert (∀ v, 0 <= v < 2 ^ 63 → Z.lxor v (2 ^ 63) = v + 2 ^ 63) as Hlow.
  { intros v Hv. symmetry. apply Z.add_nocarry_lxor. apply Z.bits_inj'. intros n Hn.
    rewrite Z.land_spec, Z.bits_0. destruct (decide (n = 63)) as [->|Hne].
    - rewrite <-(Z.mod_small v (2 ^ 63)) by done. by rewrite Z.mod_pow2_bits_high by lia.
    - rewrite Z.pow2_bits_false by lia. apply andb_false_r. }
  intros Hu. unfold in_u64, u64_mod in Hu. destruct (Z.ltb_spec u (2 ^ 63)); [apply Hlow; lia|].
  replace u with (Z.lxor (u - 2 ^ 63) (2 ^ 63)) at 1 by (rewrite Hlow; lia).
  rewrite Z.lxor_assoc, Z.lxor_nilpotent. apply Z.lxor_0_r.
Qed.

Lemma i64_flip k : in_i64 k → Z.lxor (i64_as_u64 k) (2 ^ 63) = k + 2 ^ 63.
Proof.
  intros Hk. unfold in_i64 in Hk. unfold i64_as_u64, u64_wrap, u64_mod.
  assert (k mod 2 ^ 64 = if k <? 0 then k + 2 ^ 64 else k) as ->.
  { destruct (Z.ltb_spec k 0); [|by apply Z.mod_small; lia]. symmetry. apply (Z.mod_unique_pos k (2 ^ 64) (-1)); lia. }
  rewrite flip_sign by (unfold in_u64, u64_mod; destruct (Z.ltb_spec k 0); lia).
  ltb_cases; lia.
Qed.

Lemma i64_flip_back u : in_u64 u → u64_as_i64 (Z.lxor u (2 ^ 63)) = u - 2 ^ 63.
Proof.
  intros Hu. rewrite flip_sign by done. unfold in_u64, u64_mod, u64_as_i64 in *.
  ltb_cases; lia.
Qed.

#[global] Instance u64_lawful : LawfulKey U64Codec in_u64 Z.compare.
Proof.
  split.
  - intros k Hk. exists (be_bytes 8 k). split; [done|]. cbn -[be_bytes fixed]. rewrite fixed_be8. cbn [mbind cres_bind]. by rewrite of_be_bytes8.
  - intros b k. cbn -[be_bytes fixed]. destruct (fixed 8 b _) as [a| |] eqn:E; [|done..]. apply fixed_ok in E as [-> Hl].
    cbn [mbind cres_bind]. intros [= <-]. destruct (be8_canonical b Hl) as [H1 ->]. done.
  - intros k1 k2 b1 b2 _ H1 H2 [= <-] [= <-]. by apply lex_cmp_be_bytes8.
Qed.

#[global] Instance i64_lawful : LawfulKey I64Codec in_i64 Z.compare.
Proof.
  assert (∀ k, in_i64 k → in_u64 (k + 2 ^ 63)) as Hu by (unfold in_i64, in_u64, u64_mod; lia).
  split.
  - intros k Hk. eexists. split; [done|]. cbn -[be_bytes fixed]. rewrite fixed_be8. cbn [mbind cres_bind].
    rewrite i64_flip by done. rewrite of_be_bytes8 by (by apply Hu). f_equal. rewrite i64_flip_back by (by apply Hu). lia.
  - intros b k. cbn -[be_bytes fixed]. destruct (fixed 8 b _) as [a| |] eqn:E; [|done..]. apply fixed_ok in E as [-> Hl].
    cbn [mbind cres_bind]. intros [= <-]. destruct (be8_canonical b Hl) as [H1 H2]. rewrite i64_flip_back by done.
    assert (in_i64 (of_be b - 2 ^ 63)) as Hi by (unfold in_i64, in_u64, u64_mod in *; lia). split; [done|].
    rewrite i64_flip by done. replace (of_be b - 2 ^ 63 + 2 ^ 63) with (of_be b) by lia. by rewrite H2.
  - intros k1 k2 b1 b2 _ H1 H2 [= <-] [= <-]. rewrite !i64_flip by done. rewrite lex_cmp_be_bytes8 by (by apply Hu).
    destruct (Z.compare_spec k1 k2); [apply Z.compare_eq_iff|apply Z.compare_lt_iff|apply Z.compare_gt_iff]; lia.
Qed.

(** ** Strings *)

#[global] Instance string_lawful : LawfulKey StringCodec (λ s, utf8_valid s = true) lex_cmp.
Proof.
  split; cbn; unfold from_utf8.
  - intros k Hk. exists k. by rewrite Hk.
  - intros b k. destruct (utf8_valid b) eqn:E; [|done]. by intros [= <-].
  - by intros k1 k2 b1 b2 _ _ _ [= <-] [= <-].
Qed.

(** ** Pairs *)

Lemma byte_pos b : b ≠ Byte.x00 ↔ 0 < Z_of_byte b.
Proof.
  pose proof (Z_of_byte_range b). split.
  - intros Hb. destruct (decide (Z_of_byte b = 0)) as [E|]; [|lia]. destruct Hb. apply (inj Z_of_byte). by rewrite E.
  - intros H0 ->. by cbv in H0.
Qed.

(** The first byte of an escaped byte is the byte. *)
Lemma escape_byte_head c x : ∃ y, (if decide (c = Byte.x00) then [Byte.x00; Byte.xff] else [c]) ++ x = c :: y.
Proof. case_decide; [subst|]; by eexists. Qed.

Lemma lex_cmp_escape_bytes a b x y :
  lex_cmp (escape_bytes a ++ Byte.x00 :: Byte.x00 :: x) (escape_bytes b ++ Byte.x00 :: Byte.x00 :: y) =
  match lex_cmp a b with Eq => lex_cmp x y | c => c end.
Proof.
  revert b. induction a as [|c a IH]; intros [|d b]; cbn [escape_bytes lex_cmp app]; rewrite <-?app_assoc.
  - done.
  - case_decide as Hd; [by subst|]. cbn [app lex_cmp]. apply byte_pos in Hd.
    by rewrite (proj2 (Z.compare_lt_iff (Z_of_byte Byte.x00) (Z_of_byte d)) Hd).
  - case_decide as Hc; [by subst|]. cbn [app lex_cmp]. apply byte_pos in Hc.
    by rewrite (proj2 (Z.compare_gt_iff (Z_of_byte c) (Z_of_byte Byte.x00)) Hc).
  - destruct (Z.compare_spec (Z_of_byte c) (Z_of_byte d)) as [E|E|E].
    + apply (inj Z_of_byte) in E as ->. rewrite lex_cmp_app_l. apply IH.
    + destruct (escape_byte_head c (escape_bytes a ++ Byte.x00 :: Byte.x00 :: x)) as [u ->].
      destruct (escape_byte_head d (escape_bytes b ++ Byte.x00 :: Byte.x00 :: y)) as [v ->].
      cbn [lex_cmp]. by rewrite (proj2 (Z.compare_lt_iff _ _) E).
    + destruct (escape_byte_head c (escape_bytes a ++ Byte.x00 :: Byte.x00 :: x)) as [u ->].
      destruct (escape_byte_head d (escape_bytes b ++ Byte.x00 :: Byte.x00 :: y)) as [v ->].
      cbn [lex_cmp]. by rewrite (proj2 (Z.compare_gt_iff _ _) E).
Qed.

(** Comparing what follows an escaped string: the strings decide, then the rest. *)
Lemma lex_cmp_escape a b x y :
  lex_cmp (escape a ++ x) (escape b ++ y) = match lex_cmp a b with Eq => lex_cmp x y | c => c end.
Proof. unfold escape. rewrite <-!app_assoc. apply lex_cmp_escape_bytes. Qed.

Lemma unescape_loop_escape a rest result index :
  unescape_loop (escape_bytes a ++ Byte.x00 :: Byte.x00 :: rest) result index =
  (s ← from_utf8 (result ++ a); COk (s, index + length (escape a))%nat).
Proof.
  unfold escape. revert result index. induction a as [|c a IH]; intros result index; cbn [escape_bytes].
  - cbn. by rewrite app_nil_r.
  - case_decide as Hc; cbn [app unescape_loop].
    + subst c. rewrite decide_False by (by intros H). rewrite decide_True by done. rewrite IH, <-app_assoc. cbn [app length]. rewrite !length_app.
      destruct (from_utf8 _); [|done..]. cbn [mbind cres_bind length]. do 2 f_equal. lia.
    + rewrite decide_True by done. rewrite IH, <-app_assoc. cbn [app length]. rewrite !length_app.
      destruct (from_utf8 _); [|done..]. cbn [mbind cres_bind length]. do 2 f_equal. lia.
Qed.

Lemma unescape_escape a rest : utf8_valid a = true → unescape (escape a ++ rest) = COk (a, length (escape a)).
Proof.
  intros Ha. unfold unescape. assert (escape a ++ rest = escape_bytes a ++ Byte.x00 :: Byte.x00 :: rest) as ->
    by (unfold escape; by rewrite <-app_assoc).
  rewrite unescape_loop_escape. unfold from_utf8. cbn [app]. by rewrite Ha.
Qed.

(** Only escaped strings unescape. *)
Lemma unescape_loop_inv b result index s n :
  unescape_loop b result index = COk (s, n) →
  ∃ a rest, s = result ++ a ∧ utf8_valid s = true ∧ b = escape a ++ rest ∧ n = (index + length (escape a))%nat.
Proof.
  assert (∀ k b, (length b <= k)%nat → ∀ result index, unescape_loop b result index = COk (s, n) →
    ∃ a rest, s = result ++ a ∧ utf8_valid s = true ∧ b = escape a ++ rest ∧ n = (index + length (escape a))%nat) as H.
  2: { by eapply H. }
  clear. induction k as [|k IH]; intros [|c b] Hk result index H; try done; [cbn in Hk; lia|]. cbn [unescape_loop] in H. cbn [length] in Hk.
  case_decide as Hc.
  { apply IH in H as (a & rest & -> & Hv & -> & ->); [|lia]. exists (c :: a), rest. unfold escape. cbn [escape_bytes]. rewrite decide_False by done.
    rewrite <-app_assoc. split_and!; [done|by rewrite <-app_assoc in Hv|done|]. cbn [app length]. lia. }
  subst c. destruct b as [|d b]; [done|]. case_decide as Hd.
  { subst d. apply IH in H as (a & rest & -> & Hv & -> & ->); [|cbn in Hk; lia]. exists (Byte.x00 :: a), rest. unfold escape. cbn [escape_bytes].
    rewrite decide_True by done. rewrite <-app_assoc. split_and!; [done|by rewrite <-app_assoc in Hv|done|]. cbn [app length]. lia. }
  case_decide as Hd0; [|done]. subst d. unfold from_utf8 in H. destruct (utf8_valid result) eqn:Hv; [|done]. injection H as <- <-.
  exists [], b. rewrite app_nil_r. split_and!; done.
Qed.

Definition pair_cmp (k1 k2 : bytes * bytes) : comparison :=
  match lex_cmp k1.1 k2.1 with Eq => lex_cmp k1.2 k2.2 | c => c end.

#[global] Instance string_pair_lawful :
  LawfulKey StringPairCodec (λ k, utf8_valid k.1 = true ∧ utf8_valid k.2 = true) pair_cmp.
Proof.
  split.
  - intros [a b] [Ha Hb]. eexists. split; [done|]. cbn -[escape unescape]. rewrite unescape_escape by done. cbn [mbind cres_bind].
    rewrite drop_app_length. rewrite <-(app_nil_r (escape b)). rewrite unescape_escape by done. cbn [mbind cres_bind].
    rewrite length_app, app_nil_r, Nat.eqb_refl. done.
  - intros b [k1 k2]. cbn -[escape unescape]. unfold unescape. destruct (unescape_loop b [] 0) as [[s1 n1]| |] eqn:E1; [|done..].
    cbn [mbind cres_bind]. apply unescape_loop_inv in E1 as (a1 & r1 & -> & V1 & -> & ->). rewrite Nat.add_0_l. cbn [app] in *. rewrite drop_app_length.
    destruct (unescape_loop r1 [] 0) as [[s2 n2]| |] eqn:E2; [|done..]. cbn [mbind cres_bind].
    apply unescape_loop_inv in E2 as (a2 & r2 & -> & V2 & -> & ->). cbn [app] in *. destruct (Nat.eqb_spec (length (escape a1) + (0 + length (escape a2))) (length (escape a1 ++ escape a2 ++ r2))) as [E|]; [|done].
    intros [= <- <-]. rewrite !length_app in E. destruct r2; [|cbn in E; lia]. by rewrite app_nil_r.
  - intros [a1 b1] [a2 b2] x1 x2 _ _ _ [= <-] [= <-]. unfold pair_cmp. cbn [fst snd]. rewrite lex_cmp_escape.
    destruct (lex_cmp a1 a2); [|done..]. rewrite <-(app_nil_r (escape b1)), <-(app_nil_r (escape b2)), lex_cmp_escape. by destruct (lex_cmp b1 b2).
Qed.

(** ** Values *)

#[global] Instance u64_value_lawful : LawfulValue U64ValueCodec in_u64.
Proof.
  split.
  - intros v Hv. exists (be_bytes 8 v). split; [done|]. cbn -[be_bytes fixed]. rewrite fixed_be8. cbn [mbind cres_bind]. by rewrite of_be_bytes8.
  - intros b v. cbn -[be_bytes fixed]. destruct (fixed 8 b _) as [a| |] eqn:E; [|done..]. apply fixed_ok in E as [-> Hl].
    cbn [mbind cres_bind]. intros [= <-]. by destruct (be8_canonical b Hl) as [H1 ->].
Qed.

Lemma i64_as_u64_range k : in_u64 (i64_as_u64 k).
Proof. unfold i64_as_u64, u64_wrap, in_u64, u64_mod. apply Z.mod_pos_bound. lia. Qed.

Lemma i64_u64_roundtrip k : in_i64 k → u64_as_i64 (i64_as_u64 k) = k.
Proof.
  unfold in_i64, u64_as_i64, i64_as_u64, u64_wrap, u64_mod. intros Hk.
  destruct (decide (k < 0)).
  - replace (k mod 2 ^ 64) with (k + 2 ^ 64) by (apply (Z.mod_unique_pos k (2 ^ 64) (-1)); lia). ltb_cases; lia.
  - rewrite Z.mod_small by lia. ltb_cases; lia.
Qed.

Lemma u64_i64_roundtrip u : in_u64 u → in_i64 (u64_as_i64 u) ∧ i64_as_u64 (u64_as_i64 u) = u.
Proof.
  unfold in_i64, u64_as_i64, i64_as_u64, u64_wrap, u64_mod, in_u64, u64_mod. intros Hu. ltb_cases; (split; [lia|]).
  - apply Z.mod_small. lia.
  - symmetry. apply (Z.mod_unique_pos (u - 2 ^ 64) (2 ^ 64) (-1)); lia.
Qed.

#[global] Instance i64_value_lawful : LawfulValue I64ValueCodec in_i64.
Proof.
  split.
  - intros v Hv. eexists. split; [done|]. cbn -[be_bytes fixed]. rewrite fixed_be8. cbn [mbind cres_bind].
    rewrite of_be_bytes8 by apply i64_as_u64_range. by rewrite i64_u64_roundtrip.
  - intros b v. cbn -[be_bytes fixed]. destruct (fixed 8 b _) as [a| |] eqn:E; [|done..]. apply fixed_ok in E as [-> Hl].
    cbn [mbind cres_bind]. intros [= <-]. destruct (be8_canonical b Hl) as [H1 H2]. destruct (u64_i64_roundtrip _ H1) as [H3 ->]. by rewrite H2.
Qed.

#[global] Instance string_value_lawful : LawfulValue StringValueCodec (λ s, utf8_valid s = true).
Proof.
  split; cbn; unfold from_utf8.
  - intros k Hk. exists k. by rewrite Hk.
  - intros b k. destruct (utf8_valid b) eqn:E; [|done]. by intros [= <-].
Qed.

#[global] Instance bytes_lawful : LawfulKey BytesCodec (λ _, True) lex_cmp.
Proof. split; cbn; [by eauto|by intros b k [= <-]|by intros k1 k2 b1 b2 _ _ _ [= <-] [= <-]]. Qed.

#[global] Instance bytes_value_lawful : LawfulValue BytesValueCodec (λ _, True).
Proof. split; cbn; [by eauto|by intros b k [= <-]]. Qed.

(** ** The theorems *)

(** The integer codecs are lawful.  Every 64-bit value encodes and decodes to
    itself; only the encodings decode (a decoded key encodes to the very bytes);
    and the byte order of the encoded keys is the numeric order, for signed keys
    too, so that ranges over encoded keys are ranges over the integers. *)
Theorem integer_codecs_lawful :
  LawfulKey U64Codec in_u64 Z.compare ∧ LawfulKey I64Codec in_i64 Z.compare ∧
  LawfulValue U64ValueCodec in_u64 ∧ LawfulValue I64ValueCodec in_i64.
Proof. split_and!; apply _. Qed.

(** The string codecs are lawful.  Valid UTF-8 strings, and pairs of them,
    encode and decode to themselves; invalid UTF-8, unterminated or wrongly
    escaped pairs and trailing bytes are refused; and pairs order like their first
    strings, ties broken by the second, although the strings may contain zero
    bytes and one may be a prefix of the other. *)
Theorem string_codecs_lawful :
  LawfulKey StringCodec (λ s, utf8_valid s = true) lex_cmp ∧
  LawfulKey StringPairCodec (λ k, utf8_valid k.1 = true ∧ utf8_valid k.2 = true) pair_cmp ∧
  LawfulValue StringValueCodec (λ s, utf8_valid s = true).
Proof. split_and!; apply _. Qed.
