(* ===== verification/Changes.v ===== *)
(** * The change feed: [src/src/api/changes.rs]

    The tracker a write transaction records its changes in, and the hub that hands
    the committed change sets to the subscribers of a process.  A subscription is
    a bounded channel; what the consumer has taken from it is kept beside its
    queue, so that what was delivered can be stated. *)

From S2P Require Import Prelude Support.

Definition MAX_CHANGES : nat := 4096.
Definition MAX_CHANGE_BYTES : Z := 4 * 1024 * 1024.

Definition bytes_of_string (s : string) : bytes := byte_of_Z ∘ Z.of_N ∘ Ascii.N_of_ascii <$> String.list_ascii_of_string s.

Definition TTL_BUCKET : bytes := Byte.x00 :: bytes_of_string "tagdata.ttl.lookup".
Definition TTL_DEADLINES_BUCKET : bytes := Byte.x00 :: bytes_of_string "tagdata.ttl.deadlines".
Definition JOURNAL_BUCKET : bytes := Byte.x00 :: bytes_of_string "tagdata.journal".

Inductive ChangeOperation := OpPut | OpDelete | OpBucketCreate | OpBucketDelete | OpExpire.

#[global] Instance change_operation_eq_dec : EqDecision ChangeOperation.
Proof. solve_decision. Defined.

Record Change := mkChange { bucket_path : list bytes; change_key : bytes; operation : ChangeOperation }.

#[global] Instance change_eq_dec : EqDecision Change.
Proof. solve_decision. Defined.

Record ChangeSet := mkChangeSet { transaction_id : Z; changes : list Change; truncated : bool }.

#[global] Instance change_set_eq_dec : EqDecision ChangeSet.
Proof. solve_decision. Defined.

(** ** Filters *)

Record WatchFilter := mkFilter {
  f_bucket_path : option (list bytes);
  f_key_prefix : option bytes;
  f_key_range : option (bytes * bytes);
  f_operations : list ChangeOperation
}.

Definition filter_new : WatchFilter := mkFilter None None None [].
Definition filter_collection (f : WatchFilter) (name : bytes) : WatchFilter :=
  mkFilter (Some [name]) (f_key_prefix f) (f_key_range f) (f_operations f).
Definition filter_bucket_path (f : WatchFilter) (path : list bytes) : WatchFilter :=
  mkFilter (Some path) (f_key_prefix f) (f_key_range f) (f_operations f).
Definition filter_prefix (f : WatchFilter) (prefix : bytes) : WatchFilter :=
  mkFilter (f_bucket_path f) (Some prefix) (f_key_range f) (f_operations f).
Definition filter_range (f : WatchFilter) (start end_ : bytes) : WatchFilter :=
  mkFilter (f_bucket_path f) (f_key_prefix f) (Some (start, end_)) (f_operations f).
Definition filter_operations (f : WatchFilter) (ops : list ChangeOperation) : WatchFilter :=
  mkFilter (f_bucket_path f) (f_key_prefix f) (f_key_range f) ops.

Definition is_none_or {A} (o : option A) (p : A → bool) : bool := match o with None => true | Some a => p a end.

Definition matches (f : WatchFilter) (c : Change) : bool :=
  is_none_or (f_bucket_path f) (λ path, bool_decide (path = bucket_path c)) &&
  is_none_or (f_key_prefix f) (λ prefix, starts_with (change_key c) prefix) &&
  is_none_or (f_key_range f) (λ '(start, end_), negb (lex_ltb (change_key c) start) && lex_ltb (change_key c) end_) &&
  (bool_decide (f_operations f = []) || bool_decide (operation c ∈ f_operations f)).

(** ** The tracker of a transaction *)

Record ChangeTracker := mkTracker { tr_enabled : bool; tr_bytes : Z; tr_changes : list Change; tr_truncated : bool }.

Definition tracker_new (enabled : bool) : ChangeTracker := mkTracker enabled 0 [] false.

(** The buckets the library keeps for itself. *)
Definition hidden (part : bytes) : bool :=
  bool_decide (part = TTL_BUCKET) || bool_decide (part = TTL_DEADLINES_BUCKET) || bool_decide (part = JOURNAL_BUCKET).

Definition change_bytes (path : list bytes) (key : bytes) : Z :=
  foldr (λ part n, len_u64 part + n) 0 path + len_u64 key.

Definition record (t : ChangeTracker) (path : list bytes) (key : bytes) (op : ChangeOperation) : ChangeTracker :=
  if negb (tr_enabled t) || hidden key || existsb hidden path then t
  else
    let bytes_ := change_bytes path key in
    if (length (tr_changes t) =? MAX_CHANGES)%nat || (MAX_CHANGE_BYTES <? saturating_add (tr_bytes t) bytes_)
    then mkTracker (tr_enabled t) (tr_bytes t) (tr_changes t) true
    else mkTracker (tr_enabled t) (tr_bytes t + bytes_) (tr_changes t ++ [mkChange path key op]) (tr_truncated t).

Definition finish (t : ChangeTracker) (tx : Z) : ChangeSet * ChangeTracker :=
  (mkChangeSet tx (tr_changes t) (tr_truncated t), mkTracker (tr_enabled t) (tr_bytes t) [] (tr_truncated t)).

Definition snapshot (t : ChangeTracker) (tx : Z) : ChangeSet := mkChangeSet tx (tr_changes t) (tr_truncated t).

(** ** Paths *)

Definition path_root (key : bytes) : list bytes := [key].
Definition path_child (path : list bytes) (key : bytes) : list bytes := path ++ [key].
Definition path_leaf (path : list bytes) : bytes := default [] (last path).

(** ** Subscriptions *)

Inductive WatchError := WatchEmpty | WatchOverflow | WatchDisconnected.

(** One subscription: the sending side in the hub, the queue of the channel and
    the receiving side. *)
Record Subscription := mkSub {
  sub_filter : WatchFilter;
  sub_capacity : nat;
  sub_queue : list ChangeSet;
  sub_received : list ChangeSet;
  sub_open : bool;                (** the receiver has not been dropped *)
  sub_listed : bool;              (** the hub still holds the sender *)
  sub_terminal : option WatchError
}.

(** [sync_channel(capacity.max(1))], pushed to the hub. *)
Definition subscribe (capacity : nat) (filter_ : WatchFilter) : Subscription :=
  mkSub filter_ (Nat.max capacity 1) [] [] true true None.

(** What [publish] sends to a subscription, if anything. *)
Definition selection (f : WatchFilter) (cs : ChangeSet) : option ChangeSet :=
  let selected := filter (λ c, matches f c = true) (changes cs) in
  if bool_decide (selected = []) && negb (truncated cs) then None
  else Some (mkChangeSet (transaction_id cs) selected (truncated cs)).

(** The closure of [senders.retain]: [try_send], and the sender is dropped with a
    reason when the channel is full or the receiver is gone. *)
Definition offer (cs : ChangeSet) (s : Subscription) : Subscription :=
  if negb (sub_listed s) then s
  else match selection (sub_filter s) cs with
  | None => s
  | Some m =>
      if negb (sub_open s) then
        mkSub (sub_filter s) (sub_capacity s) (sub_queue s) (sub_received s) (sub_open s) false (Some WatchDisconnected)
      else if (length (sub_queue s) <? sub_capacity s)%nat then
        mkSub (sub_filter s) (sub_capacity s) (sub_queue s ++ [m]) (sub_received s) (sub_open s) true (sub_terminal s)
      else
        mkSub (sub_filter s) (sub_capacity s) (sub_queue s) (sub_received s) (sub_open s) false (Some WatchOverflow)
  end.

Definition publish (cs : ChangeSet) (subs : list Subscription) : list Subscription := offer cs <$> subs.

(** [try_recv_event]: the queue first, then the reason the channel ended with. *)
Definition try_recv_event (s : Subscription) : (ChangeSet + WatchError) * Subscription :=
  match sub_queue s with
  | m :: queue => (inl m, mkSub (sub_filter s) (sub_capacity s) queue (sub_received s ++ [m]) (sub_open s) (sub_listed s) (sub_terminal s))
  | [] => (inr (if sub_listed s then WatchEmpty else default WatchDisconnected (sub_terminal s)), s)
  end.

(** Dropping the subscription. *)
Definition drop_receiver (s : Subscription) : Subscription :=
  mkSub (sub_filter s) (sub_capacity s) [] (sub_received s) false (sub_listed s) (sub_terminal s).

(** ** The tracker's budget *)

Definition visible (c : Change) : bool := negb (hidden (change_key c) || existsb hidden (bucket_path c)).

Definition record_all (t : ChangeTracker) (cs : list Change) : ChangeTracker :=
  fold_left (λ t c, record t (bucket_path c) (change_key c) (operation c)) cs t.

Definition total_bytes (cs : list Change) : Z := foldr (λ c n, change_bytes (bucket_path c) (change_key c) + n) 0 cs.

(** The tracker holds, in order, changes that were made, within its budget. *)
Record tracker_ok (seen : list Change) (t : ChangeTracker) : Prop := {
  to_enabled : tr_enabled t = true;
  to_count : (length (tr_changes t) <= MAX_CHANGES)%nat;
  to_bytes : tr_bytes t = total_bytes (tr_changes t) ∧ 0 <= tr_bytes t <= MAX_CHANGE_BYTES;
  to_sublist : tr_changes t `sublist_of` filter (λ c, visible c = true) seen;
  to_exact : tr_truncated t = false → tr_changes t = filter (λ c, visible c = true) seen
}.

Lemma change_bytes_nonneg path key : 0 <= change_bytes path key.
Proof. unfold change_bytes, len_u64. induction path as [|p path IH]; cbn; lia. Qed.

Lemma total_bytes_app cs1 cs2 : total_bytes (cs1 ++ cs2) = total_bytes cs1 + total_bytes cs2.
Proof. unfold total_bytes. induction cs1 as [|c cs1 IH]; cbn; lia. Qed.

Lemma record_ok seen t c :
  tracker_ok seen t → tracker_ok (seen ++ [c]) (record t (bucket_path c) (change_key c) (operation c)).
Proof.
  intros [He Hc [Hb Hr] Hs Hx]. unfold record. rewrite He. cbn [negb orb]. 
  assert (filter (λ c, visible c = true) (seen ++ [c]) = filter (λ c, visible c = true) seen ++ (if visible c then [c] else [])) as Ef.
  { rewrite filter_app. f_equal. destruct (visible c) eqn:E; [by rewrite filter_cons_True|by rewrite filter_cons_False by (by rewrite E)]. }
  destruct (hidden (change_key c) || existsb hidden (bucket_path c)) eqn:Eh.
  { assert (visible c = false) as Ev by (unfold visible; by rewrite Eh). rewrite Ev, app_nil_r in Ef. split; try done; rewrite Ef; done. }
  assert (visible c = true) as Ev by (unfold visible; by rewrite Eh). rewrite Ev in Ef.
  pose proof (change_bytes_nonneg (bucket_path c) (change_key c)) as Hcb.
  destruct ((length (tr_changes t) =? MAX_CHANGES)%nat || _) eqn:Eb; split; cbn [tr_enabled tr_changes tr_bytes tr_truncated]; try done; rewrite ?Ef.
  - etransitivity; [exact Hs|]. by apply sublist_inserts_r.
  - apply orb_false_elim in Eb as [E1 E2]. apply Nat.eqb_neq in E1. rewrite length_app. cbn. lia.
  - apply orb_false_elim in Eb as [E1 E2]. apply Z.ltb_ge in E2. rewrite total_bytes_app. unfold saturating_add, u64_max, MAX_CHANGE_BYTES in *. cbn. lia.
  - destruct c. by apply sublist_app.
  - intros Ht. destruct c. by rewrite Hx.
Qed.

Lemma record_all_ok seen t cs : tracker_ok seen t → tracker_ok (seen ++ cs) (record_all t cs).
Proof.
  revert seen t. induction cs as [|c cs IH]; intros seen t Ht; [by rewrite app_nil_r|].
  cbn. replace (seen ++ c :: cs) with ((seen ++ [c]) ++ cs) by (by rewrite <-app_assoc). apply IH. by apply record_ok.
Qed.

(** The change set of a transaction is complete or says that it is not.
    However many changes a transaction makes, the tracker keeps at most 4096 of
    them and 4 MiB, in the order they were made, none of them in the library's own
    buckets; and unless the change set is marked truncated it holds every visible
    change. *)
Theorem change_set_complete (cs : list Change) (tx : Z) :
  let set := snapshot (record_all (tracker_new true) cs) tx in
  (length (changes set) <= MAX_CHANGES)%nat ∧ total_bytes (changes set) <= MAX_CHANGE_BYTES ∧
  changes set `sublist_of` filter (λ c, visible c = true) cs ∧
  (truncated set = false → changes set = filter (λ c, visible c = true) cs).
Proof.
  assert (tracker_ok [] (tracker_new true)) as H0.
  { split; cbn; try done. unfold MAX_CHANGES. lia. }
  destruct (record_all_ok [] _ cs H0) as [_ Hc [Hb Hr] Hs Hx]. cbn [app] in *. unfold snapshot. cbn [changes truncated].
  split_and!; try done. lia.
Qed.

(** ** Delivery *)

(** The life of a subscription, with the change sets published since it began. *)
Inductive sub_step : Subscription * list ChangeSet → Subscription * list ChangeSet → Prop :=
  | step_publish s log cs : sub_step (s, log) (offer cs s, log ++ [cs])
  | step_receive s log : sub_step (s, log) ((try_recv_event s).2, log)
  | step_drop s log : sub_step (s, log) (drop_receiver s, log).

Record sub_ok (f : WatchFilter) (capacity : nat) (s : Subscription) (log : list ChangeSet) : Prop := {
  so_filter : sub_filter s = f;
  so_capacity : sub_capacity s = Nat.max capacity 1 ∧ (length (sub_queue s) <= sub_capacity s)%nat;
  so_prefix : sub_open s = true → sub_received s ++ sub_queue s `prefix_of` omap (selection f) log;
  so_exact : sub_open s = true → sub_listed s = true → sub_received s ++ sub_queue s = omap (selection f) log;
  so_reason : sub_open s = true → sub_listed s = false → sub_terminal s = Some WatchOverflow
}.

Lemma omap_snoc {A B} (g : A → option B) l x : omap g (l ++ [x]) = omap g l ++ option_list (g x).
Proof. rewrite omap_app. cbn. by destruct (g x). Qed.

Lemma offer_ok f cap s log cs : sub_ok f cap s log → sub_ok f cap (offer cs s) (log ++ [cs]).
Proof.
  intros [Hf [Hc Hq] Hp Hx Hr]. unfold offer.
  assert (∀ s', sub_open s' = true → sub_received s' ++ sub_queue s' `prefix_of` omap (selection f) log →
    sub_received s' ++ sub_queue s' `prefix_of` omap (selection f) (log ++ [cs])) as Hpre.
  { intros s' _ H. rewrite omap_snoc. by apply prefix_app_r. }
  destruct (sub_listed s) eqn:El; cbn [negb].
  2: { split; [done|done|intros Ho; by apply Hpre, Hp|congruence|intros Ho _; by apply Hr]. }
  rewrite Hf. destruct (selection f cs) as [m|] eqn:Es.
  2: { assert (omap (selection f) (log ++ [cs]) = omap (selection f) log) as E by (rewrite omap_snoc, Es; apply app_nil_r).
       split; rewrite ?E; try done; [intros Ho _; by apply Hx|congruence]. }
  destruct (sub_open s) eqn:Eo; cbn [negb].
  2: { split; cbn [sub_open sub_filter sub_capacity sub_queue sub_listed]; try done; congruence. }
  specialize (Hx eq_refl eq_refl). destruct (Nat.ltb_spec (length (sub_queue s)) (sub_capacity s)).
  - split; cbn [sub_open sub_filter sub_capacity sub_queue sub_received sub_listed]; try done.
    + split; [done|]. rewrite length_app. cbn. lia.
    + intros _. rewrite omap_snoc, Es, <-Hx. cbn. by rewrite app_assoc.
    + intros _ _. rewrite omap_snoc, Es, <-Hx. cbn. by rewrite app_assoc.
  - split; cbn [sub_open sub_filter sub_capacity sub_queue sub_received sub_listed]; try done.
    intros _. apply (Hpre s); [done|by apply Hp].
Qed.

Lemma receive_ok f cap s log : sub_ok f cap s log → sub_ok f cap (try_recv_event s).2 log.
Proof.
  intros Hok. pose proof Hok as [Hf [Hc Hq] Hp Hx Hr]. unfold try_recv_event. destruct (sub_queue s) as [|m q]; [done|].
  split; cbn [snd sub_open sub_filter sub_capacity sub_queue sub_received sub_listed sub_terminal]; try done.
  - cbn in Hq. split; [done|lia].
  - intros Ho. rewrite <-app_assoc. by apply Hp.
  - intros Ho Hl. rewrite <-app_assoc. by apply Hx.
Qed.

Lemma drop_ok f cap s log : sub_ok f cap s log → sub_ok f cap (drop_receiver s) log.
Proof. intros [Hf [Hc Hq] Hp Hx Hr]. split; cbn; try done. split; [done|lia]. Qed.


