(* ===== verification/Journal.v ===== *)
(** * The durable journal: [src/src/api/journal.rs]

    Records of committed change sets in a bucket of the database.  The bucket is
    its key-value pairs in key order; [persist] writes the record of the committing
    transaction and drops the oldest records beyond the retention. *)

From S2P Require Import Prelude Search Support Changes.

(** ** Encoding *)

Definition CONFIG_KEY : bytes := bytes_of_string "config".
Definition TX_PREFIX : byte := Byte.x74.
Definition CHECKPOINT_PREFIX : byte := Byte.x63.
Definition MAGIC : bytes := bytes_of_string "ISJR".

Definition encode_operation (op : ChangeOperation) : Z :=
  match op with OpPut => 1 | OpDelete => 2 | OpBucketCreate => 3 | OpBucketDelete => 4 | OpExpire => 5 end.

Definition decode_operation (value : Z) : res ChangeOperation :=
  if value =? 1 then Ok OpPut else if value =? 2 then Ok OpDelete else if value =? 3 then Ok OpBucketCreate
  else if value =? 4 then Ok OpBucketDelete else if value =? 5 then Ok OpExpire
  else Err (InvalidDB "journal operation is invalid").

Definition push_u16 (out : bytes) (value : Z) : res bytes :=
  _ ← fail_if (2 ^ 16 - 1 <? value) (InvalidDB "journal path is too deep");
  Ok (out ++ be_bytes 2 value).

Definition push_u32 (out : bytes) (value : Z) : res bytes :=
  _ ← fail_if (2 ^ 32 - 1 <? value) (InvalidDB "journal record is too large");
  Ok (out ++ be_bytes 4 value).

Definition push_bytes (out b : bytes) : res bytes :=
  out ← push_u32 out (len_u64 b);
  Ok (out ++ b).

Definition encode_change (out : bytes) (c : Change) : res bytes :=
  let out := out ++ [byte_of_Z (encode_operation (operation c))] in
  out ← push_u16 out (len_u64 (bucket_path c));
  out ← res_fold push_bytes out (bucket_path c);
  push_bytes out (change_key c).

Definition encode_change_set (set : ChangeSet) : res bytes :=
  let out := MAGIC ++ [if truncated set then Byte.x01 else Byte.x00] in
  out ← push_u32 out (len_u64 (changes set));
  res_fold encode_change out (changes set).

(** ** Decoding: [Input] is the bytes that remain *)

Definition input_take (input : bytes) (count : nat) : res (bytes * bytes) :=
  _ ← fail_if (length input <? count)%nat (InvalidDB "journal record is truncated");
  Ok (take count input, drop count input).

Definition input_byte (input : bytes) : res (Z * bytes) :=
  '(v, input) ← input_take input 1; Ok (of_be v, input).
Definition input_u16 (input : bytes) : res (Z * bytes) :=
  '(v, input) ← input_take input 2; Ok (of_be v, input).
Definition input_u32 (input : bytes) : res (Z * bytes) :=
  '(v, input) ← input_take input 4; Ok (of_be v, input).
Definition input_bytes (input : bytes) : res (bytes * bytes) :=
  '(length_, input) ← input_u32 input; input_take input (Z.to_nat length_).

(** [for _ in 0..count] *)
Fixpoint repeat_read {A} (read : bytes → res (A * bytes)) (count : nat) (input : bytes) : res (list A * bytes) :=
  match count with
  | O => Ok ([], input)
  | S count =>
      '(x, input) ← read input;
      '(xs, input) ← repeat_read read count input;
      Ok (x :: xs, input)
  end.

Definition decode_change (input : bytes) : res (Change * bytes) :=
  '(op, input) ← input_byte input;
  operation ← decode_operation op;
  '(path_count, input) ← input_u16 input;
  '(path, input) ← repeat_read input_bytes (Z.to_nat path_count) input;
  '(key, input) ← input_bytes input;
  Ok (mkChange path key operation, input).

Definition decode_change_set (tx : Z) (b : bytes) : res ChangeSet :=
  '(magic, input) ← input_take b 4;
  _ ← fail_if (bool_decide (magic ≠ MAGIC)) (InvalidDB "journal record magic is invalid");
  '(flag, input) ← input_byte input;
  '(count, input) ← input_u32 input;
  '(cs, input) ← repeat_read decode_change (Z.to_nat count) input;
  _ ← fail_if (bool_decide (input ≠ [])) (InvalidDB "journal record has trailing bytes");
  Ok (mkChangeSet tx cs (negb (flag =? 0))).

(** ** Keys *)

Definition tx_key (tx : Z) : bytes := TX_PREFIX :: be_bytes 8 tx.

Definition decode_tx_key (key : bytes) : option Z :=
  match key with
  | p :: rest => if (length key =? 9)%nat && bool_decide (p = TX_PREFIX) then Some (of_be rest) else None
  | [] => None
  end.

Definition checkpoint_key (consumer : bytes) : res bytes :=
  _ ← fail_if ((length consumer =? 0)%nat || (255 <? len_u64 consumer))
        (InvalidDB "journal consumer name must contain 1..=255 bytes");
  Ok (CHECKPOINT_PREFIX :: consumer).

Definition decode_u64 (b : bytes) : res Z :=
  if (length b =? 8)%nat then Ok (of_be b) else Err (InvalidDB "journal integer must contain eight bytes").

(** ** The journal bucket *)

(** Key-value pairs in key order. *)
Definition pair_get (l : list (bytes * bytes)) (k : bytes) : option bytes := snd <$> assoc fst l k.
Definition pair_put (l : list (bytes * bytes)) (k v : bytes) : (list (bytes * bytes)) := ordered_put fst l (k, v).
Definition pair_delete (l : list (bytes * bytes)) (k : bytes) : res (list (bytes * bytes)) :=
  match list_find (λ e, e.1 = k) l with
  | Some (i, _) => Ok (vec_remove l i)
  | None => Err KeyValueMissing
  end.

Definition enable_journal (max_transactions : Z) (journal : list (bytes * bytes)) : res (list (bytes * bytes)) :=
  _ ← fail_if (max_transactions =? 0) (InvalidDB "journal retention must be non-zero");
  Ok (pair_put journal CONFIG_KEY (be_bytes 8 max_transactions)).

Definition checkpoint_journal (consumer : bytes) (tx : Z) (journal : list (bytes * bytes)) : res (list (bytes * bytes)) :=
  key ← checkpoint_key consumer;
  Ok (pair_put journal key (be_bytes 8 tx)).

Definition journal_checkpoint (consumer : bytes) (journal : list (bytes * bytes)) : res (option Z) :=
  key ← checkpoint_key consumer;
  match pair_get journal key with
  | Some v => x ← decode_u64 v; Ok (Some x)
  | None => Ok None
  end.

(** [persist], on an existing journal bucket. *)
Definition persist (journal : list (bytes * bytes)) (set : ChangeSet) : res (list (bytes * bytes)) :=
  config ← ok_or (pair_get journal CONFIG_KEY) (InvalidDB "journal configuration is missing");
  retention ← decode_u64 config;
  record ← encode_change_set set;
  let journal := pair_put journal (tx_key (transaction_id set)) record in
  let keys := filter (λ k, is_Some (decode_tx_key k)) (fst <$> journal) in
  let remove := Z.to_nat (saturating_sub (len_u64 keys) retention) in
  res_fold pair_delete journal (take remove keys).

Record JournalGap := mkGap { requested_after : Z; gap_oldest_available : Z }.
Record JournalReplay := mkReplay {
  transactions : list ChangeSet; gap : option JournalGap; oldest_available : option Z; newest_available : option Z
}.

(** The records of the journal, by transaction id. *)
Definition journal_records (journal : list (bytes * bytes)) : list (Z * bytes) :=
  omap (λ '(k, v), (λ id, (id, v)) <$> decode_tx_key k) journal.

Definition filter_set (f : option WatchFilter) (set : ChangeSet) : ChangeSet :=
  match f with
  | Some f => mkChangeSet (transaction_id set) (filter (λ c, matches f c = true) (changes set)) (truncated set)
  | None => set
  end.

Definition replay_journal (journal : list (bytes * bytes)) (tx : Z) (limit : nat) (f : option WatchFilter) : res JournalReplay :=
  let records := journal_records journal in
  let oldest := fst <$> head records in
  let newest := fst <$> last records in
  let gap := match oldest with
    | Some o => if saturating_add tx 1 <? o then Some (mkGap tx o) else None
    | None => None
    end in
  transactions ← res_fold (λ acc '(id, b),
      if (id <=? tx) || (length acc =? limit)%nat then Ok acc
      else set ← decode_change_set id b; Ok (acc ++ [filter_set f set])) [] records;
  Ok (mkReplay transactions gap oldest newest).

(** ** Records round trip *)

(** What a writer appends, a reader reads back. *)
Definition appends {A} (out out' : bytes) (read : bytes → res (A * bytes)) (x : A) : Prop :=
  ∃ e, out' = out ++ e ∧ ∀ rest, read (e ++ rest) = Ok (x, rest).

Lemma input_take_app e rest : input_take (e ++ rest) (length e) = Ok (e, rest).
Proof.
  unfold input_take. destruct (Nat.ltb_spec (length (e ++ rest)) (length e)) as [H|_]; [rewrite length_app in H; lia|].
  cbn. by rewrite take_app_length, drop_app_length.
Qed.

Lemma be_take n z rest : input_take (be_bytes n z ++ rest) n = Ok (be_bytes n z, rest).
Proof. rewrite <-(length_be_bytes n z) at 2. apply input_take_app. Qed.

Lemma push_u32_appends out v out' :
  0 <= v → push_u32 out v = Ok out' → appends out out' input_u32 v.
Proof.
  intros Hv H. unfold push_u32 in H. res_inv. bool_to_prop. eexists. split; [done|]. intros rest.
  unfold input_u32. rewrite be_take. cbn [mbind res_bind]. rewrite of_be_bytes4 by lia. done.
Qed.

Lemma push_u16_appends out v out' :
  0 <= v → push_u16 out v = Ok out' → appends out out' input_u16 v.
Proof.
  intros Hv H. unfold push_u16 in H. res_inv. bool_to_prop. eexists. split; [done|]. intros rest.
  unfold input_u16. rewrite be_take. cbn [mbind res_bind]. rewrite of_be_bytes, Z.mod_small by lia. done.
Qed.

Lemma push_bytes_appends out b out' : push_bytes out b = Ok out' → appends out out' input_bytes b.
Proof.
  intros H. unfold push_bytes in H. destruct (push_u32 out (len_u64 b)) as [o| |] eqn:E; [|done..]. cbn in H. injection H as <-.
  apply push_u32_appends in E as (e & -> & He); [|unfold len_u64; lia]. exists (e ++ b). split; [by rewrite app_assoc|]. intros rest.
  unfold input_bytes. rewrite <-app_assoc, He. cbn [mbind res_bind]. unfold len_u64. rewrite Nat2Z.id. apply input_take_app.
Qed.

Lemma fold_appends {A} (write : bytes → A → res bytes) (read : bytes → res (A * bytes)) xs out out' :
  (∀ out x out', write out x = Ok out' → appends out out' read x) →
  res_fold write out xs = Ok out' → appends out out' (repeat_read read (length xs)) xs.
Proof.
  intros Hw. revert out. induction xs as [|x xs IH]; intros out H; cbn in H.
  - injection H as <-. exists []. by rewrite app_nil_r.
  - destruct (write out x) as [o| |] eqn:E; [|done..]. cbn in H. apply Hw in E as (e & -> & He). apply IH in H as (e' & -> & He').
    exists (e ++ e'). split; [by rewrite app_assoc|]. intros rest. cbn [length repeat_read]. rewrite <-app_assoc, He. cbn [mbind res_bind].
    rewrite He'. done.
Qed.

Lemma decode_encode_operation op : decode_operation (encode_operation op) = Ok op.
Proof. by destruct op. Qed.

Lemma input_byte_app z rest : 0 <= z < 256 → input_byte (byte_of_Z z :: rest) = Ok (z, rest).
Proof.
  intros Hz. unfold input_byte. change (byte_of_Z z :: rest) with ([byte_of_Z z] ++ rest). change 1%nat with (length [byte_of_Z z]) at 1.
  rewrite input_take_app. cbn [mbind res_bind]. rewrite of_be_cons, Z_of_byte_of_Z, Z.mod_small by done. cbn. do 2 f_equal. unfold of_be. cbn. lia.
Qed.

Lemma encode_change_appends out c out' : encode_change out c = Ok out' → appends out out' decode_change c.
Proof.
  intros H. unfold encode_change in H.
  destruct (push_u16 _ _) as [o1| |] eqn:E1; [|done..]. cbn [mbind res_bind] in H.
  destruct (res_fold push_bytes o1 _) as [o2| |] eqn:E2; [|done..]. cbn [mbind res_bind] in H.
  apply push_u16_appends in E1 as (e1 & -> & H1); [|unfold len_u64; lia].
  apply (fold_appends push_bytes input_bytes) in E2 as (e2 & -> & H2); [|intros; by apply push_bytes_appends].
  apply push_bytes_appends in H as (e3 & -> & H3).
  exists ([byte_of_Z (encode_operation (operation c))] ++ e1 ++ e2 ++ e3). split; [by rewrite !app_assoc|]. intros rest.
  unfold decode_change. rewrite <-!app_assoc. cbn [app]. rewrite input_byte_app by (by destruct (operation c)). cbn [mbind res_bind].
  rewrite decode_encode_operation. cbn [mbind res_bind]. rewrite H1. cbn [mbind res_bind]. unfold len_u64. rewrite Nat2Z.id, H2.
  cbn [mbind res_bind]. rewrite H3. by destruct c.
Qed.

(** C35: Journal records round trip: whatever change set [encode_change_set] can
    write (it refuses paths deeper than 65535 and oversized fields),
    [decode_change_set] reads back exactly: the changes with their paths, keys and
    operations, in order, and the truncation mark. *)
Theorem journal_record_roundtrip (set : ChangeSet) (b : bytes) :
  encode_change_set set = Ok b → decode_change_set (transaction_id set) b = Ok set.
Proof.
  intros H. unfold encode_change_set in H. destruct (push_u32 _ _) as [o1| |] eqn:E1; [|done..]. cbn [mbind res_bind] in H.
  apply push_u32_appends in E1 as (e1 & -> & H1); [|unfold len_u64; lia].
  apply (fold_appends encode_change decode_change) in H as (e2 & -> & H2); [|intros; by apply encode_change_appends].
  unfold decode_change_set. rewrite <-!app_assoc. change 4%nat with (length MAGIC) at 1. rewrite input_take_app. cbn [mbind res_bind].
  rewrite bool_decide_eq_false_2 by (by intros Hn). cbn [fail_if mbind res_bind app].
  assert (∃ z, (if truncated set then Byte.x01 else Byte.x00) = byte_of_Z z ∧ 0 <= z < 256 ∧ negb (z =? 0) = truncated set) as (z & -> & Hz & Ez).
  { destruct (truncated set); [by exists 1|by exists 0]. }
  rewrite input_byte_app by done. cbn [mbind res_bind]. rewrite H1. cbn [mbind res_bind]. unfold len_u64. rewrite Nat2Z.id.
  rewrite <-(app_nil_r e2), H2. cbn [mbind res_bind]. rewrite bool_decide_eq_false_2 by (by intros Hn). cbn [fail_if mbind res_bind].
  rewrite Ez. by destruct set.
Qed.

Lemma journal_record_roundtrip_witness :
  ∃ b, encode_change_set (mkChangeSet 3 [mkChange [[Byte.x61]; []] [Byte.x62] OpExpire] true) = Ok b ∧
    decode_change_set 3 b = Ok (mkChangeSet 3 [mkChange [[Byte.x61]; []] [Byte.x62] OpExpire] true).
Proof.
  eexists. split; [vm_compute; reflexivity|].
  apply (journal_record_roundtrip (mkChangeSet 3 [mkChange [[Byte.x61]; []] [Byte.x62] OpExpire] true)). vm_compute. reflexivity.
Defined.

(** ** Retention *)

Lemma pairs_NoDup (l : list (bytes * bytes)) : keys_sorted fst l → NoDup (fst <$> l).
Proof. apply keys_sorted_NoDup. Qed.

Lemma filter_all {A} (P : A → Prop) `{∀ x, Decision (P x)} (l : list A) : Forall P l → filter P l = l.
Proof. induction 1 as [|x l Hx _ IH]; [done|]. rewrite filter_cons_True by done. by rewrite IH. Qed.

Lemma filter_comm {A} (P Q : A → Prop) `{∀ x, Decision (P x)} `{∀ x, Decision (Q x)} (l : list A) :
  filter P (filter Q l) = filter Q (filter P l).
Proof. rewrite !list_filter_filter. apply list_filter_iff. tauto. Qed.

Lemma pair_delete_filter (l : list (bytes * bytes)) k :
  NoDup (fst <$> l) → k ∈ fst <$> l → pair_delete l k = Ok (filter (λ e, e.1 ≠ k) l).
Proof.
  intros Hnd Hin. unfold pair_delete. destruct (list_find (λ e, e.1 = k) l) as [[i e]|] eqn:E.
  - apply list_find_Some in E as (Hi & Hk & Hlt). f_equal. unfold vec_remove. apply take_drop_middle in Hi as El.
    transitivity (filter (λ e, e.1 ≠ k) (take i l ++ e :: drop (S i) l)); [|by rewrite El].
    rewrite filter_app, filter_cons_False by (by intros Hn).
    rewrite <-El in Hnd. rewrite fmap_app, fmap_cons in Hnd. apply NoDup_app in Hnd as (_ & Hd & [Hn _]%NoDup_cons).
    f_equal; symmetry; apply filter_all, Forall_forall; intros x Hx Ex.
    + apply (Hd x.1); [by apply list_elem_of_fmap_2|]. rewrite Ex, <-Hk. left.
    + apply Hn. rewrite Hk, <-Ex. by apply list_elem_of_fmap_2.
  - apply list_find_None in E. rewrite Forall_forall in E. apply list_elem_of_fmap in Hin as (e & -> & He). by destruct (E e He).
Qed.

Lemma delete_all (l : list (bytes * bytes)) ks :
  NoDup (fst <$> l) → NoDup ks → (∀ k, k ∈ ks → k ∈ fst <$> l) →
  res_fold pair_delete l ks = Ok (filter (λ e, e.1 ∉ ks) l).
Proof.
  revert l. induction ks as [|k ks IH]; intros l Hnd Hks Hin; cbn [res_fold].
  - f_equal. symmetry. apply filter_all, Forall_forall. set_solver.
  - apply NoDup_cons in Hks as [Hk Hks]. rewrite pair_delete_filter by (done || (apply Hin; left)). cbn [mbind res_bind].
    rewrite IH; [|by eapply sublist_NoDup; [exact Hnd|apply fmap_sublist, sublist_filter]|done|].
    + f_equal. rewrite list_filter_filter. apply list_filter_iff. intros x. rewrite not_elem_of_cons. tauto.
    + intros k' Hk'. pose proof (Hin k' ltac:(by right)) as H. apply list_elem_of_fmap in H as (e & -> & He).
      apply list_elem_of_fmap_2, list_elem_of_filter. split; [|done]. intros E. by rewrite E in Hk'.
Qed.

Definition is_tx (e : bytes * bytes) : Prop := is_Some (decode_tx_key e.1).

(** Dropping the first [n] keys of a kind keeps the rest of the kind and all
    others. *)
Lemma filter_drop_first (P : bytes * bytes → Prop) `{∀ x, Decision (P x)} (l : list (bytes * bytes)) n :
  NoDup (fst <$> l) →
  filter P (filter (λ e, e.1 ∉ take n (fst <$> filter P l)) l) = drop n (filter P l) ∧
  filter (λ e, ¬ P e) (filter (λ e, e.1 ∉ take n (fst <$> filter P l)) l) = filter (λ e, ¬ P e) l.
Proof.
  intros Hnd. split.
  - rewrite filter_comm. set (m := filter P l).
    assert (NoDup (fst <$> m)) as Hm by (eapply sublist_NoDup; [exact Hnd|apply fmap_sublist, sublist_filter]).
    transitivity (filter (λ e, e.1 ∉ take n (fst <$> m)) (take n m ++ drop n m)); [by rewrite take_drop|].
    rewrite filter_app. rewrite <-(take_drop n m), fmap_app in Hm. apply NoDup_app in Hm as (_ & Hd & _).
    rewrite <-fmap_take.
    assert (filter (λ e, e.1 ∉ fst <$> take n m) (take n m) = []) as ->.
    { apply elem_of_nil_inv. intros x [Hx Hin]%list_elem_of_filter. by apply Hx, list_elem_of_fmap_2. }
    cbn [app]. apply filter_all, Forall_forall. intros x Hx Hin. by apply (Hd x.1 Hin), list_elem_of_fmap_2.
  - rewrite filter_comm. apply filter_all, Forall_forall. intros x [Hx Hin]%list_elem_of_filter Hk.
    apply elem_of_take in Hk as (i & Hk & _). apply list_elem_of_lookup_2, list_elem_of_fmap in Hk as (y & Ey & [Hy Hiny]%list_elem_of_filter).
    assert (x = y) as ->; [|done]. 
    apply list_elem_of_lookup in Hin as [i1 E1]. apply list_elem_of_lookup in Hiny as [i2 E2].
    assert (i1 = i2) as ->; [|congruence]. eapply (NoDup_lookup _ i1 i2 x.1 Hnd); rewrite list_lookup_fmap; [by rewrite E1|rewrite E2; cbn; congruence].
Qed.

(** The journal keeps the latest transactions within its retention.  When
    [persist] succeeds, the journal records are the former ones with the
    transaction's record added at its place, less the oldest ones beyond the
    configured number, and everything else in the bucket (configuration,
    checkpoints) is untouched; a transaction later than all recorded ones is
    itself retained. *)
Theorem journal_retention (journal journal' : list (bytes * bytes)) (set : ChangeSet) (retention : Z) (record : bytes) :
  keys_sorted fst journal → in_u64 retention → 1 <= retention →
  pair_get journal CONFIG_KEY = Some (be_bytes 8 retention) → encode_change_set set = Ok record →
  persist journal set = Ok journal' →
  let added := pair_put journal (tx_key (transaction_id set)) record in
  let recs := filter is_tx added in
  filter is_tx journal' = drop (length recs - Z.to_nat retention) recs ∧
  (len_u64 (filter is_tx journal') <= retention) ∧
  filter (λ e, ¬ is_tx e) journal' = filter (λ e, ¬ is_tx e) added ∧
  keys_sorted fst journal'.
Proof.
  intros Hs Hr Hr1 Hc He H added recs. unfold persist in H. rewrite Hc in H. cbn [ok_or mbind res_bind] in H.
  unfold decode_u64 in H. rewrite length_be_bytes, Nat.eqb_refl in H. cbn [mbind res_bind] in H. rewrite of_be_bytes8 in H by done.
  rewrite He in H. cbn [mbind res_bind] in H. fold added in H.
  assert (keys_sorted fst added) as Hsa by (by apply ordered_put_sorted). pose proof (pairs_NoDup _ Hsa) as Hnd.
  assert (filter (λ k, is_Some (decode_tx_key k)) (fst <$> added) = fst <$> recs) as Ek.
  { unfold recs. clear. induction added as [|e l IH]; [done|]. rewrite fmap_cons, !filter_cons. unfold is_tx.
    case_decide; [|done]. rewrite fmap_cons. f_equal. apply IH. }
  rewrite Ek in H. set (n := Z.to_nat (saturating_sub (len_u64 (fst <$> recs)) retention)) in *.
  assert (n = length recs - Z.to_nat retention)%nat as En.
  { unfold n, saturating_sub, len_u64. rewrite length_fmap. unfold in_u64 in Hr. lia. }
  rewrite delete_all in H; [|done| |].
  - injection H as <-. destruct (filter_drop_first is_tx added n Hnd) as [E1 E2]. fold recs in E1, E2.
    rewrite E1, E2, En. split_and!; [done| |done|].
    + unfold len_u64. rewrite length_drop. lia.
    + unfold keys_sorted in *. eapply StronglySorted_sublist; [|exact Hsa]. apply fmap_sublist, sublist_filter.
  - eapply sublist_NoDup; [|apply sublist_take]. unfold recs. eapply sublist_NoDup; [exact Hnd|apply fmap_sublist, sublist_filter].
  - intros k Hk. apply elem_of_take in Hk as (i & Hk & _). apply list_elem_of_lookup_2, list_elem_of_fmap in Hk as (e & -> & [_ Hin]%list_elem_of_filter).
    by apply list_elem_of_fmap_2.
Qed.

Definition demo_set (tx : Z) : ChangeSet := mkChangeSet tx [mkChange [[Byte.x61]] [Byte.x62] OpPut] false.
Definition demo_record : bytes := match encode_change_set (demo_set 0) with Ok b => b | _ => [] end.
Definition demo_journal : list (bytes * bytes) :=
  [(CONFIG_KEY, be_bytes 8 2); (tx_key 4, demo_record); (tx_key 5, demo_record)].

Lemma journal_retention_witness :
  ∃ journal', persist demo_journal (demo_set 9) = Ok journal' ∧ fst <$> filter is_tx journal' = [tx_key 5; tx_key 9].
Proof.
  eexists. split; [vm_compute; reflexivity|].
  refine (eq_trans (f_equal (λ l, fst <$> l) (proj1 (journal_retention demo_journal _ (demo_set 9) 2 demo_record _ _ _ _ _ _))) _).
  - repeat constructor.
  - unfold in_u64, u64_mod. lia.
  - lia.
  - reflexivity.
  - vm_compute. reflexivity.
  - vm_compute. reflexivity.
  - vm_compute. reflexivity.
Defined.

(** ** Checkpoints *)

Lemma pair_get_put (l : list (bytes * bytes)) k k' v :
  keys_sorted fst l → pair_get (pair_put l k v) k' = if decide (k = k') then Some v else pair_get l k'.
Proof.
  intros Hs. unfold pair_get, pair_put. rewrite assoc_ordered_put by done. cbn [fst]. repeat case_decide; try done; by subst.
Qed.

(** A consumer's checkpoint can destroy the journal's configuration.  The
    checkpoint of the consumer named [onfig] is stored under the key of the
    configuration, so checkpointing it sets the retention to the checkpointed
    transaction id; with id 0, the next commit that journals drops every record. *)
Theorem checkpoint_overwrites_config (journal : list (bytes * bytes)) (tx : Z) :
  keys_sorted fst journal →
  ∃ journal', checkpoint_journal (bytes_of_string "onfig") tx journal = Ok journal' ∧
    pair_get journal' CONFIG_KEY = Some (be_bytes 8 tx).
Proof.
  intros Hs. eexists. split; [done|]. change (pair_get (pair_put journal CONFIG_KEY (be_bytes 8 tx)) CONFIG_KEY = Some (be_bytes 8 tx)).
  rewrite pair_get_put by done. by rewrite decide_True.
Qed.

Lemma checkpoint_overwrites_config_witness :
  ∃ journal', checkpoint_journal (bytes_of_string "onfig") 0 demo_journal = Ok journal' ∧
    pair_get journal' CONFIG_KEY = Some (be_bytes 8 0) ∧
    (∃ journal'', persist journal' (demo_set 9) = Ok journal'' ∧ filter is_tx journal'' = []).
Proof.
  destruct (checkpoint_overwrites_config demo_journal 0) as (j & E & Ec); [repeat constructor|].
  exists j. split; [exact E|]. split; [exact Ec|]. vm_compute in E. injection E as <-.
  eexists. split; [vm_compute; reflexivity|]. vm_compute. reflexivity.
Defined.

(** For every other consumer name, checkpoints are kept apart from the
    configuration and the records. *)
Lemma checkpoint_key_apart consumer key :
  checkpoint_key consumer = Ok key → consumer ≠ bytes_of_string "onfig" → key ≠ CONFIG_KEY ∧ decode_tx_key key = None.
Proof.
  unfold checkpoint_key. intros H Hne. res_inv. simplify_eq. split.
  - intros E. apply Hne. by injection E as ->.
  - unfold decode_tx_key. rewrite (bool_decide_eq_false_2 (CHECKPOINT_PREFIX = TX_PREFIX)) by done. by rewrite andb_false_r.
Qed.
