(* ===== verification/Persist.v ===== *)
(** * Writing the tree

    What the commit-time operations of [Spill] do to the transaction's pages:
    writing a node is a sequence of the steps of [Tx] and leaves a dirty block that
    reads back as the node; and the commit of a bucket one of whose leaves was
    emptied. *)

From S2P Require Import Prelude Search Support Layout Meta Freelist Node Page PageNode Inner Spill Db Commit Tx.

Section write.
Context (n : Node) (tf : TxFreelist) (keep : PageID → Prop).
Let ps := pagesize (tf_meta tf).
Let size := node_size n.
Hypothesis Hwf : tx_freelist_wf tf.
Hypothesis Hdata : data_wf (n_data n).
Hypothesis Hlive : n_deleted n = false.
Hypothesis Hold : n_page_id n ≠ 0 →
  retirable tf (n_page_id n) (n_num_pages n) ∧ ∀ x, n_page_id n <= x < n_page_id n + n_num_pages n → ¬ keep x.
Hypothesis Hsize : size + CHECKSUM_SIZE + ps <= isize_max.
Hypothesis Hnp : num_pages (tf_meta tf) + pages_for ps size <= u64_max.

Let tf0 := (free_page n tf).2.

Lemma free_page_ok : tx_freelist_wf tf0 ∧ tf_meta tf0 = tf_meta tf ∧ tf_pages tf0 = tf_pages tf ∧
  free_pages (tf_inner tf0) = free_pages (tf_inner tf) ∧ rtc (tx_step keep) tf tf0 ∧
  ((free_page n tf).1 = set_page n 0 (n_num_pages n) ∨ (free_page n tf).1 = n) ∧
  (∀ x, n_page_id n ≠ 0 → n_page_id n <= x < n_page_id n + n_num_pages n → x ∈ pending_at (tf_inner tf0) (tx_id (tf_meta tf))).
Proof.
  unfold tf0, free_page. destruct (Z.eqb_spec (n_page_id n) 0) as [E|E]; cbn [fst snd].
  - split_and!; try done. by right.
  - destruct (Hold E) as [Hr Hk]. destruct (tx_free_spec tf (n_page_id n) (n_num_pages n)) as (Em & Eb & Ef & Ep).
    split_and!; try done; [by apply tx_free_wf|apply rtc_once; by constructor|by left|].
    intros x _ Hx. rewrite Ep, decide_True by done. apply elem_of_app. right. by apply elem_of_seqZ.
Qed.

(** The dirty block a node is written to. *)
Definition written (tf' : TxFreelist) (p : PageID) : Prop :=
  ∃ B k, tf_pages tf' !! p = Some B ∧ 1 <= k ∧ len_u64 B = k * ps ∧ page_id_at B 0 = p ∧ page_overflow_at B 0 = k - 1 ∧
    page_type_at B 0 = (if node_leaf n then TYPE_LEAF else TYPE_BRANCH) ∧
    data_from_page B 0 = Ok (n_data n) ∧ validate_layout B 0 (len_u64 B - CHECKSUM_SIZE) = Ok ().

(** The allocation for the node. *)
Lemma node_allocated p tf2 :
  tx_allocate tf0 size = Ok (p, tf2) → let k := pages_for ps size in
  tf_pages tf2 !! p = Some (fresh_page p k (k * ps)) ∧ Z.of_nat (length (fresh_page p k (k * ps))) = k * ps ∧
  page_id_at (fresh_page p k (k * ps)) 0 = p ∧ page_overflow_at (fresh_page p k (k * ps)) 0 = k - 1 ∧
  1 <= k ∧ size + CHECKSUM_SIZE <= k * ps <= isize_max ∧ 40 <= size.
Proof.
  intros Ea. cbv zeta. destruct free_page_ok as (Hwf0 & Em & _).
  assert (isize_max = 2 ^ 63 - 1 ∧ u64_max = 2 ^ 64 - 1 ∧ CHECKSUM_SIZE = 32 ∧ u64_mod = 2 ^ 64) as (Ei & Eu & Eck & Eum) by done.
  assert (size + CHECKSUM_SIZE + pagesize (tf_meta tf0) <= u64_max) as Hb1 by (rewrite Em; fold ps; lia).
  assert (num_pages (tf_meta tf0) + pages_for (pagesize (tf_meta tf0)) size <= u64_max) as Hb2 by (by rewrite Em).
  destruct (tx_allocate_ok tf0 size p tf2 Hwf0 Hb1 Hb2 Ea) as (_ & Hbuf & Hbnd & Hfresh).
  destruct (tx_allocate_inv tf0 size p tf2 Hwf0 Hb1 Hb2 Ea) as (_ & m2 & fl2 & _ & _ & _ & _ & _ & _ & Hnew).
  pose proof Hwf as (Hps & H2 & _). fold ps in Hps. pose proof (node_size_min n) as H40. fold size in H40.
  pose proof (pages_for_pos ps size Hps ltac:(lia) ltac:(lia)) as Hk.
  destruct (tx_allocate_meta tf0 size p tf2) as [_ Hle]; [rewrite Em; lia|rewrite Em; fold ps; lia|done|done|].
  rewrite Em in Hbuf, Hbnd, Hfresh, Hnew, Hle. fold ps in Hbuf, Hbnd, Hfresh, Hnew, Hle. set (k := pages_for ps size) in *. clearbody k.
  destruct (Hnew p) as (Hp2 & _); [lia|]. destruct (Hfresh p) as (_ & Hpn & _); [lia|].
  destruct (fresh_page_header p k (k * ps)) as [Hid Hov]; [nia|unfold in_u64; lia|unfold in_u64; nia|].
  split_and!; try done; try lia. apply length_fresh_page; nia.
Qed.

Lemma node_write_shape n' tf' :
  node_write n tf = Ok (n', tf') →
  ∃ tf2 B, tx_allocate tf0 size = Ok (n_page_id n', tf2) ∧ tf' = set_page_buf tf2 (n_page_id n') B ∧
    n_data n' = n_data n ∧ n_spilled n' = true ∧ written tf' (n_page_id n') ∧ len_u64 B = pages_for ps size * ps.
Proof.
  intros H. unfold node_write in H. rewrite Hlive in H. unfold node_allocate in H.
  assert (∃ n0, free_page (set_spilled n) tf = (n0, tf0) ∧ n_data n0 = n_data n ∧ n_spilled n0 = true) as (n0 & E0 & Ed0 & Es0).
  { unfold tf0, free_page. cbn [set_spilled n_page_id n_num_pages]. destruct (n_page_id n =? 0); by eexists. }
  rewrite E0 in H. assert (node_size n0 = size) as Esz by (unfold size, node_size; by rewrite Ed0). rewrite Esz in H.
  destruct (tx_allocate tf0 size) as [[p tf2]| |] eqn:Ea; [|done..]. cbn [mbind res_bind] in H.
  destruct (node_allocated p tf2 Ea) as (Hbuf & Hlen & Hid & Hov & Hk & Hbnd & H40). set (k := pages_for ps size) in *. clearbody k.
  rewrite Hbuf in H. cbn [unwrap mbind res_bind set_page n_page_id] in H. rewrite Hid, Hov, Hbuf in H. cbn [unwrap mbind res_bind] in H.
  set (n2 := set_page n0 p (k - 1 + 1)) in *.
  assert (node_size n2 = size ∧ n_data n2 = n_data n ∧ node_leaf n2 = node_leaf n) as (Esz2 & Ed2 & El2)
    by (unfold n2, size, node_size, node_leaf; cbn; by rewrite Ed0).
  destruct (write_node_ok (fresh_page p k (k * ps)) n2) as (B & HB & Bl & Bid & Bov & Bty & Bd & Blay);
    [unfold len_u64, CHECKSUM_SIZE in *; lia|unfold len_u64; lia|by rewrite Ed2|].
  rewrite HB in H. cbn [mbind res_bind] in H. injection H as En Et.
  assert (n' = n2 ∧ tf' = set_page_buf tf2 p B) as [-> ->] by (split; [done|rewrite <-Et; reflexivity]). clear En Et.
  assert (len_u64 B = k * ps) as EB by (unfold len_u64; rewrite Bl; lia).
  exists tf2, B. cbn [n2 n_page_id set_page]. split_and!; try done.
  exists B, k. split; [apply lookup_insert_eq|]. split_and!; try done; [by rewrite Bid|by rewrite Bov|by rewrite Bty, El2|by rewrite Bd, Ed2|].
  apply Blay. unfold isize_max, u64_max, CHECKSUM_SIZE in *. lia.
Qed.

Lemma node_write_steps n' tf' :
  node_write n tf = Ok (n', tf') →
  rtc (tx_step keep) tf tf' ∧ tx_freelist_wf tf' ∧
  n_data n' = n_data n ∧ n_spilled n' = true ∧ written tf' (n_page_id n') ∧
  (∀ x, n_page_id n' <= x < n_page_id n' + pages_for ps size →
     (x ∈ free_pages (tf_inner tf) ∨ num_pages (tf_meta tf) <= x) ∧ (x ∉ free_pages (tf_inner tf')) ∧
     ∀ q k, dirty_block tf q k → ¬ (q <= x < q + k)) ∧
  (∀ x, n_page_id n ≠ 0 → n_page_id n <= x < n_page_id n + n_num_pages n → x ∈ pending_at (tf_inner tf') (tx_id (tf_meta tf))).
Proof.
  intros H. destruct (node_write_shape n' tf' H) as (tf2 & B & Ea & -> & Ed & Es & Hw & HB).
  destruct free_page_ok as (Hwf0 & Em & Eb & Ef & Hsteps & _ & Hpend).
  destruct (node_allocated _ tf2 Ea) as (Hbuf & Hlen & _).
  assert (size + CHECKSUM_SIZE + pagesize (tf_meta tf0) <= u64_max) as Hb1 by (rewrite Em; fold ps; unfold isize_max, u64_max in *; lia).
  assert (num_pages (tf_meta tf0) + pages_for (pagesize (tf_meta tf0)) size <= u64_max) as Hb2 by (by rewrite Em).
  destruct (tx_allocate_ok tf0 size _ tf2 Hwf0 Hb1 Hb2 Ea) as (Hwf2 & _ & _ & Hfresh).
  destruct (tx_allocate_inv tf0 size _ tf2 Hwf0 Hb1 Hb2 Ea) as (_ & m2 & fl2 & Etf2 & _ & _ & _ & _ & Ep2 & _).
  assert (length B = length (fresh_page (n_page_id n') (pages_for ps size) (pages_for ps size * ps))) as HBl by (unfold len_u64 in HB; lia).
  split_and!; try done.
  - etransitivity; [exact Hsteps|]. eapply rtc_l; [by eapply step_allocate|]. apply rtc_once. by eapply step_write.
  - by eapply set_page_buf_wf.
  - intros x Hx. rewrite Em in Hfresh. fold ps in Hfresh. destruct (Hfresh x Hx) as (H1 & _ & H3 & _ & H5). rewrite Ef in H1.
    split_and!; [done|done|]. intros q k (Hk & Bq & EBq & ELq). apply H5. split; [done|]. exists Bq. by rewrite Eb, Em.
  - intros x Hx0 Hx. cbn [set_page_buf tf_inner]. rewrite Etf2. unfold pending_at. cbn [tf_inner]. rewrite Ep2. by apply Hpend.
Qed.

End write.

(** Writing a node.  A node that is not deleted is written to a block that was
    reusable or beyond the file, disjoint from every dirty block; the block reads
    back as exactly the node's data and passes the layout checks below its
    checksum; the node's former pages are retired under the transaction; the page
    accounting stays consistent; and all of it is a sequence of the transaction
    steps under which the database invariant and the older snapshots are kept. *)
Theorem node_write_persists (n n' : Node) (tf tf' : TxFreelist) (keep : PageID → Prop) :
  tx_freelist_wf tf → data_wf (n_data n) → n_deleted n = false →
  (n_page_id n ≠ 0 → retirable tf (n_page_id n) (n_num_pages n) ∧
     ∀ x, n_page_id n <= x < n_page_id n + n_num_pages n → ¬ keep x) →
  node_size n + CHECKSUM_SIZE + pagesize (tf_meta tf) <= isize_max →
  num_pages (tf_meta tf) + pages_for (pagesize (tf_meta tf)) (node_size n) <= u64_max →
  node_write n tf = Ok (n', tf') →
  rtc (tx_step keep) tf tf' ∧ tx_freelist_wf tf' ∧
  n_data n' = n_data n ∧ n_spilled n' = true ∧ written n tf tf' (n_page_id n') ∧
  (∀ x, n_page_id n' <= x < n_page_id n' + pages_for (pagesize (tf_meta tf)) (node_size n) →
     (x ∈ free_pages (tf_inner tf) ∨ num_pages (tf_meta tf) <= x) ∧ (x ∉ free_pages (tf_inner tf')) ∧
     ∀ q k, dirty_block tf q k → ¬ (q <= x < q + k)) ∧
  (∀ x, n_page_id n ≠ 0 → n_page_id n <= x < n_page_id n + n_num_pages n → x ∈ pending_at (tf_inner tf') (tx_id (tf_meta tf))).
Proof. intros. by apply node_write_steps. Qed.

Lemma node_write_persists_witness :
  ∃ n' tf', node_write (demo_node (Leaves demo_right)) (w_freelist Demo.writer) = Ok (n', tf') ∧
    written (demo_node (Leaves demo_right)) (w_freelist Demo.writer) tf' (n_page_id n').
Proof.
  destruct (node_write (demo_node (Leaves demo_right)) (w_freelist Demo.writer)) as [[n' tf']| |] eqn:E;
    [|vm_compute in E; discriminate E..].
  exists n', tf'. split; [reflexivity|].
  destruct (@begin_write_ok toy_digest Demo.disk 1024 _ _ None Demo.disk_ok) as (w & Hb & _ & _ & _ & Hok).
  assert (w = Demo.writer) as -> by (unfold Demo.writer; rewrite Hb; reflexivity).
  refine (proj1 (proj2 (proj2 (proj2 (proj2 (node_write_persists (demo_node (Leaves demo_right)) n' _ tf' (λ _, False) (tx_wf _ _ _ _ Hok) _ _ _ _ _ E)))))).
  - repeat constructor; vm_compute; congruence.
  - reflexivity.
  - intros H. destruct (H eq_refl).
  - apply Z.leb_le. vm_compute. reflexivity.
  - apply Z.leb_le. vm_compute. reflexivity.
Defined.

(** ** Emptying one leaf *)

Definition demo_tf : TxFreelist := tx_freelist_new (demo_meta 5) freelist_new.

