(* ===== verification/Buckets.v ===== *)
(** * Nested buckets

    [bucket_getter] and [delete_bucket] of [src/src/api/bucket/inner.rs].  The
    [Rc<RefCell<InnerBucket>>]s a transaction hands out are references into a
    store, so that two handles of one bucket see the same state.  Opening a bucket
    gives the one bucket object of its name; deleting one retires every page
    reachable from its root on disk. *)

From S2P Require Import Prelude Search Support Layout Meta Freelist Node Page PageNode Inner Spill.

(** ** Opening and creating *)

(** A new bucket object. *)
Definition fresh_ref (st : Buckets) : BucketRef := Z.of_nat (size st).

(** [self.buckets.insert(name, Rc::new(RefCell::new(child)))] on the bucket [b] at [r]. *)
Definition register_child (st : Buckets) (r : BucketRef) (b : InnerBucket) (name : bytes) (child : InnerBucket) : Buckets :=
  <[fresh_ref st := child]> (<[r := with_buckets b (<[name := fresh_ref st]> (ib_buckets b))]> st).

(** [new_child]: mark the parent dirty and register a bucket with one empty leaf. *)
Definition new_child (st : Buckets) (r : BucketRef) (b : InnerBucket) (name : bytes) : Buckets :=
  register_child st r (with_dirty b) name (new_child_bucket (ib_pages b)).

(** [self.buckets.get(&name).unwrap().clone()] *)
Definition child_ref (st : Buckets) (r : BucketRef) (name : bytes) : res BucketRef :=
  b ← bucket_at st r;
  unwrap (ib_buckets b !! name) "called `Option::unwrap()` on a `None` value".

Definition bucket_getter (fuel : nat) (st : Buckets) (r : BucketRef) (name : bytes) (should_create must_create : bool)
    : res (BucketRef * Buckets) :=
  b ← bucket_at st r;
  st ← (match ib_buckets b !! name with
        | None =>
            '(exists_, stack, b) ← search fuel name (root_of b) b [];
            last ← last_path stack;
            if negb exists_ then
              if should_create then
                let st := new_child st r (bump_next_int b) name in
                b ← bucket_at st r;
                b ← insert_at fuel b (sp_id last) (LBucket name bucket_meta_default);
                Ok (<[r := b]> st)
              else Err BucketMissing
            else
              pn ← page_node b (sp_id last);
              v ← pn_val (pg_data (ib_pages b)) pn (sp_index last);
              match v with
              | Some (LBucket name meta) =>
                  _ ← fail_if must_create BucketExists;
                  Ok (register_child st r b name (from_meta meta (ib_pages b)))
              | Some _ => Err IncompatibleValue
              | None => Err BucketMissing
              end
        | Some _ => _ ← fail_if must_create BucketExists; Ok st
        end);
  c ← child_ref st r name;
  Ok (c, st).

Definition create_bucket (fuel : nat) (st : Buckets) (r : BucketRef) (name : bytes) : res (BucketRef * Buckets) :=
  bucket_getter fuel st r name true true.
Definition get_bucket (fuel : nat) (st : Buckets) (r : BucketRef) (name : bytes) : res (BucketRef * Buckets) :=
  bucket_getter fuel st r name false false.
Definition get_or_create_bucket (fuel : nat) (st : Buckets) (r : BucketRef) (name : bytes) : res (BucketRef * Buckets) :=
  bucket_getter fuel st r name true false.

(** ** Deleting *)

(** The pages a page on disk points to: the children of a branch, the roots of
    the buckets in a leaf. *)
Definition page_pointers (file : bytes) (p : nat) : res (list PageID) :=
  let t := page_type_at file p in
  if t =? TYPE_BRANCH then
    els ← branch_elements file p;
    Ok (be_page <$> (els : list BranchElement))
  else if t =? TYPE_LEAF then
    els ← leaf_elements file p;
    Ok (omap (λ e, if le_node_type e =? TYPE_BUCKET
                   then Some (root_page (bucket_meta_of_bytes (leaf_element_value file e))) else None) (els : list LeafElement))
  else Ok [].

(** [while let Some(page_id) = remaining_pages.pop()]; the head of the list is the
    end of the vector. *)
Fixpoint free_reachable (fuel : nat) (b : InnerBucket) (tf : TxFreelist) (remaining : list PageID) : res TxFreelist :=
  match fuel with
  | O => Panic NOFUEL
  | S fuel =>
      match remaining with
      | [] => Ok tf
      | page_id :: remaining =>
          let file := pg_data (ib_pages b) in
          p ← inner_node_page b page_id;
          pointers ← page_pointers file p;
          free_reachable fuel b (tx_free tf page_id (page_overflow_at file p + 1)) (rev pointers ++ remaining)
      end
  end.

Definition delete_bucket (fuel : nat) (st : Buckets) (tf : TxFreelist) (r : BucketRef) (name : bytes)
    : res (Buckets * TxFreelist) :=
  '(c, st) ← get_bucket fuel st r name;
  self ← bucket_at st r;
  let self := with_buckets self (delete name (ib_buckets self)) in
  let st := <[r := self]> st in
  b ← bucket_at st c;
  let st := <[c := with_deleted b]> st in
  self ← bucket_at st r;
  tf ← (if negb (root_of b =? 0) then free_reachable fuel self tf [root_of b] else Ok tf);
  '(exists_, stack, self) ← search fuel name (root_of self) self [];
  last ← last_path stack;
  if exists_ : bool then
    pn ← page_node self (sp_id last);
    v ← pn_val (pg_data (ib_pages self)) pn (sp_index last);
    data ← unwrap v "called `Option::unwrap()` on a `None` value";
    if negb (leaf_is_kv data) then
      '(_, self) ← delete_at fuel (with_dirty self) (sp_id last) (sp_index last);
      Ok (<[r := self]> st, tf)
    else Err IncompatibleValue
  else Panic "Did not find data for bucket we already deleted".

(** ** The store of bucket objects *)

(** References are handed out in order and never reused. *)
Definition refs_ok (st : Buckets) : Prop := ∀ r, is_Some (st !! r) → 0 <= r < fresh_ref st.

Lemma fresh_ref_None st : refs_ok st → st !! fresh_ref st = None.
Proof. intros H. apply eq_None_not_Some. intros Hs. specialize (H _ Hs). lia. Qed.

Lemma refs_ok_update st r b : refs_ok st → is_Some (st !! r) → refs_ok (<[r := b]> st).
Proof.
  intros H Hr r' Hr'. unfold fresh_ref. rewrite map_size_insert_Some by done. apply H.
  destruct (decide (r = r')) as [->|]; [done|by rewrite lookup_insert_ne in Hr'].
Qed.

Lemma refs_ok_push st b : refs_ok st → refs_ok (<[fresh_ref st := b]> st).
Proof.
  intros H r Hr. assert (fresh_ref (<[fresh_ref st := b]> st) = fresh_ref st + 1) as ->.
  { unfold fresh_ref at 1. rewrite map_size_insert_None by (by apply fresh_ref_None). unfold fresh_ref. lia. }
  assert (0 <= fresh_ref st) by (unfold fresh_ref; lia).
  destruct (decide (r = fresh_ref st)) as [->|Hne]; [lia|]. rewrite lookup_insert_ne in Hr by done. specialize (H _ Hr). lia.
Qed.

(** What registering a child does to the store. *)
Record registered (st st' : Buckets) (r c : BucketRef) (name : bytes) (b b' child : InnerBucket) : Prop := {
  reg_fresh : st !! c = None;
  reg_child : st' !! c = Some child;
  reg_parent : st' !! r = Some b';
  reg_named : ib_buckets b' = <[name := c]> (ib_buckets b);
  reg_pages : ib_pages b' = ib_pages b;
  reg_deleted : ib_deleted b' = ib_deleted b;
  reg_others : ∀ r', r' ≠ r → r' ≠ c → st' !! r' = st !! r';
  reg_refs : refs_ok st'
}.

Lemma register_child_ok st r b0 b b' name child :
  refs_ok st → is_Some (st !! r) → ib_buckets b' = <[name := fresh_ref st]> (ib_buckets b0) → ib_pages b' = ib_pages b0 → ib_deleted b' = ib_deleted b0 →
  registered st (<[r := b']> (register_child st r b name child)) r (fresh_ref st) name b0 b' child.
Proof.
  intros Hr Hs Hb Hpg Hdel. pose proof (fresh_ref_None st Hr) as Hf. assert (r ≠ fresh_ref st) as Hne by (intros ->; rewrite Hf in Hs; by destruct Hs).
  unfold register_child. split; [done| | |done|done|done| |].
  - rewrite lookup_insert_ne by done. apply lookup_insert_eq.
  - apply lookup_insert_eq.
  - intros r' H1 H2. by rewrite !lookup_insert_ne by done.
  - set (st1 := <[r := with_buckets b (<[name := fresh_ref st]> (ib_buckets b))]> st).
    assert (fresh_ref st1 = fresh_ref st) as E by (unfold fresh_ref, st1; by rewrite map_size_insert_Some).
    apply refs_ok_update; [rewrite <-E; apply refs_ok_push; by apply refs_ok_update|].
    rewrite lookup_insert_ne by done. unfold st1. by rewrite lookup_insert_eq.
Qed.

Lemma new_child_wf pages : bucket_wf (new_child_bucket pages) 0 [] [0].
Proof.
  assert (page_data (new_child_bucket pages) 0 = Ok (Leaves [])) as Hp by done. split.
  - by split.
  - repeat constructor. set_solver.
  - constructor.
  - split; cbn.
    + intros p nid [<- <-]%lookup_singleton_Some. split; [lia|]. eexists. by split.
    + intros p p' nid [<- _]%lookup_singleton_Some [<- _]%lookup_singleton_Some. done.
  - intros q ->%list_elem_of_singleton. intros H; destruct (H eq_refl).
Qed.

(** ** Opening *)

(** The parent right after the registration. *)
Lemma register_child_parent st r b name child :
  refs_ok st → is_Some (st !! r) →
  register_child st r b name child !! r = Some (with_buckets b (<[name := fresh_ref st]> (ib_buckets b))).
Proof.
  intros Hr [x Hs]. pose proof (fresh_ref_None st Hr) as Hf. unfold register_child.
  rewrite lookup_insert_ne by congruence. apply lookup_insert_eq.
Qed.

Lemma bucket_getter_ok fuel st r name should_create must_create b h es ps :
  st !! r = Some b → refs_ok st → bucket_wf b h es ps → (h < fuel)%nat →
  let result := bucket_getter fuel st r name should_create must_create in
  match ib_buckets b !! name, leaf_map es !! name with
  | Some c, _ => result = if must_create then Err BucketExists else Ok (c, st)
  | None, Some (LBucket _ m) =>
      if must_create then result = Err BucketExists
      else ∃ c st' b', result = Ok (c, st') ∧ registered st st' r c name b b' (from_meta m (ib_pages b)) ∧
        bucket_wf b' h es ps ∧ ib_meta b' = ib_meta b
  | None, Some (LKv _ _) => result = Err IncompatibleValue
  | None, None =>
      if should_create then
        ∃ c st' b' child es', result = Ok (c, st') ∧ registered st st' r c name b b' child ∧
          bucket_wf b' h es' ps ∧ leaf_map es' = <[name := LBucket name bucket_meta_default]> (leaf_map es) ∧
          next_int (ib_meta b') = u64_wrap (next_int (ib_meta b) + 1) ∧ bucket_wf child 0 [] [0] ∧ ib_deleted child = false ∧ ib_buckets child = ∅ ∧
          ib_pages child = ib_pages b ∧ root_of child = 0 ∧ root_of b' = root_of b
      else result = Err BucketMissing
  end.
Proof.
  intros Hr Href Hwf Hf. cbv zeta. rewrite leaf_map_assoc.
  destruct (edit_ready fuel b h es ps name Hwf Hf) as (stack & last & pp & Hs & Hval & Hedit). cbv zeta in Hs, Hval.
  unfold bucket_getter, child_ref, bucket_at. rewrite Hr. cbn [unwrap mbind res_bind].
  destruct (ib_buckets b !! name) as [c|] eqn:Hc.
  { destruct must_create; cbn [fail_if mbind res_bind]; [done|]. rewrite Hr. cbn [unwrap mbind res_bind]. by rewrite Hc. }
  rewrite Hs. cbn [mbind res_bind]. rewrite last_path_snoc. cbn [mbind res_bind].
  destruct (assoc leaf_key es name) as [old|] eqn:Ha.
  - rewrite bool_decide_eq_true_2 by done. cbn [negb]. destruct (Hval old eq_refl) as (pn & -> & Hv). cbn [mbind res_bind]. rewrite Hv.
    cbn [mbind res_bind]. apply assoc_Some_elem in Ha as [_ Hk]. destruct old as [nm m|k v]; [|done]. cbn in Hk. subst nm.
    destruct must_create; cbn [fail_if mbind res_bind]; [done|].
    set (b1 := with_page_parents b pp). set (child := from_meta m (ib_pages b1)).
    rewrite (register_child_parent st r b1 name child) by done. cbn [unwrap mbind res_bind].
    cbn [with_buckets ib_buckets]; rewrite lookup_insert_eq. cbn [unwrap mbind res_bind].
    eexists _, _, (with_buckets b1 (<[name := fresh_ref st]> (ib_buckets b1))). split; [done|]. split; [|split; [by apply (same_tree_wf b1); [split|apply parents_wf]|done]].
    rewrite <-(insert_id (register_child _ _ _ _ _) r _ (register_child_parent st r b1 name child Href ltac:(done))).
    by apply register_child_ok.
  - rewrite bool_decide_eq_false_2 by (by intros [? ?]). cbn [negb]. destruct should_create; [|done].
    unfold new_child. set (b1 := with_dirty (bump_next_int (with_page_parents b pp))).
    rewrite (register_child_parent st r b1 name) by done. cbn [unwrap mbind res_bind].
    destruct (proj1 (Hedit (with_buckets b1 (<[name := fresh_ref st]> (ib_buckets b1))) ltac:(by split))
      (LBucket name bucket_meta_default) eq_refl) as (b' & -> & Hw & Hm & Hb & Hpg & Hdl & _).
    cbn [unwrap mbind res_bind]. rewrite lookup_insert_eq. cbn [unwrap mbind res_bind]. rewrite Hb. cbn [with_buckets ib_buckets].
    rewrite lookup_insert_eq. cbn [unwrap mbind res_bind].
    eexists _, _, _, _, _. split; [done|]. split; [by apply register_child_ok|].
    split; [exact Hw|]. split; [by apply (leaf_map_put es (LBucket name _)), (wf_sorted _ _ _ _ Hwf)|].
    split; [by rewrite Hm|]. split; [apply new_child_wf|]. split_and!; try done. unfold root_of. by rewrite Hm.
Qed.

(** Searching records parents, and opening a bucket registers it: the tree is the same. *)
Lemma search_parents fuel key p b stack ex stack' b' : search fuel key p b stack = Ok (ex, stack', b') → ∃ pp, b' = with_page_parents b pp.
Proof.
  revert p b stack. induction fuel as [|fuel IH]; intros p b stack H; [done|]. cbn [search] in H. res_inv. destruct a0 as [i exact_].
  assert (∃ pp, b = with_page_parents b pp) as Hb by (exists (ib_page_parents b); by destruct b).
  destruct (pn_leaf _ _); [by injection H as _ _ <-|]. res_inv. destruct (a0 =? 0); [by injection H as _ _ <-|].
  destruct (IH _ _ _ H) as [pp ->]. by exists pp.
Qed.

Lemma get_bucket_shape fuel st r name b c st' :
  get_bucket fuel st r name = Ok (c, st') → st !! r = Some b → refs_ok st → ∃ pp bk, st' !! r = Some (with_buckets (with_page_parents b pp) bk).
Proof.
  intros H Hb Hr. unfold get_bucket, bucket_getter, bucket_at in H. rewrite Hb in H. cbn [unwrap mbind res_bind] in H.
  apply res_bind_Ok in H as (st1 & E1 & H). apply res_bind_Ok in H as (c1 & _ & H). injection H as _ <-.
  destruct (ib_buckets b !! name) as [c2|].
  - cbn [fail_if mbind res_bind] in E1. injection E1 as <-. exists (ib_page_parents b), (ib_buckets b). rewrite Hb. by destruct b.
  - apply res_bind_Ok in E1 as ([[ex stack] b1] & Es & E1). destruct (search_parents _ _ _ _ _ _ _ _ Es) as [pp ->].
    apply res_bind_Ok in E1 as (last & _ & E1). destruct ex; [|done]. cbn [negb] in E1.
    apply res_bind_Ok in E1 as (pn & _ & E1). apply res_bind_Ok in E1 as (v & _ & E1). destruct v as [[nm meta|]|]; [|done..].
    cbn [fail_if mbind res_bind] in E1. injection E1 as <-. exists pp. eexists. by apply register_child_parent.
Qed.

(** Opening and creating nested buckets.  On a bucket that is a well-formed
    tree, [bucket_getter] answers from the bucket's open children, then from its
    entries: a bucket that is open is returned as the same object, a stored bucket
    is opened from its stored root, a missing one is created empty with a bucket
    entry and an advanced [next_int] when that was asked for; existing, missing and
    value entries give [BucketExists], [BucketMissing] and [IncompatibleValue] as
    asked.  The new object is one nothing else refers to, every other bucket is
    untouched, and the parent stays a well-formed tree. *)
Theorem bucket_getter_spec (fuel : nat) (st : Buckets) (r : BucketRef) (name : bytes) (should_create must_create : bool)
    (b : InnerBucket) (h : nat) (es : list Leaf) (ps : list PageID) :
  st !! r = Some b → refs_ok st → bucket_wf b h es ps → (h < fuel)%nat →
  let result := bucket_getter fuel st r name should_create must_create in
  match ib_buckets b !! name, leaf_map es !! name with
  | Some c, _ => result = if must_create then Err BucketExists else Ok (c, st)
  | None, Some (LBucket _ m) =>
      if must_create then result = Err BucketExists
      else ∃ c st' b', result = Ok (c, st') ∧ registered st st' r c name b b' (from_meta m (ib_pages b)) ∧
        bucket_wf b' h es ps ∧ ib_meta b' = ib_meta b
  | None, Some (LKv _ _) => result = Err IncompatibleValue
  | None, None =>
      if should_create then
        ∃ c st' b' child es', result = Ok (c, st') ∧ registered st st' r c name b b' child ∧
          bucket_wf b' h es' ps ∧ leaf_map es' = <[name := LBucket name bucket_meta_default]> (leaf_map es) ∧
          next_int (ib_meta b') = u64_wrap (next_int (ib_meta b) + 1) ∧ bucket_wf child 0 [] [0] ∧ ib_deleted child = false ∧ ib_buckets child = ∅ ∧
          ib_pages child = ib_pages b ∧ root_of child = 0 ∧ root_of b' = root_of b
      else result = Err BucketMissing
  end.
Proof. apply bucket_getter_ok. Qed.

(** ** Retiring the pages of a bucket *)

Section reachable.
Context (b : InnerBucket).
Let file := pg_data (ib_pages b).

(** The blocks (first page, number of pages) reachable from a list of pages when
    the pages on disk form a forest. *)
Inductive disk_forest : list PageID → list (PageID * Z) → Prop :=
  | forest_nil : disk_forest [] []
  | forest_cons id ids p pointers below beside :
      inner_node_page b id = Ok p → page_pointers file p = Ok pointers →
      disk_forest pointers below → disk_forest ids beside →
      disk_forest (id :: ids) ((id, page_overflow_at file p + 1) :: below ++ beside).

Lemma disk_forest_app ids1 ids2 bs1 bs2 :
  disk_forest ids1 bs1 → disk_forest ids2 bs2 → disk_forest (ids1 ++ ids2) (bs1 ++ bs2).
Proof.
  intros H1 H2. induction H1 as [|id ids p ptrs below beside Hp Hptr Hb _ _ IH]; [done|].
  cbn [app]. rewrite <-app_assoc. by eapply forest_cons.
Qed.

Lemma disk_forest_perm ids ids' bs :
  ids ≡ₚ ids' → disk_forest ids bs → ∃ bs', disk_forest ids' bs' ∧ bs ≡ₚ bs'.
Proof.
  intros Hp. revert bs. induction Hp as [|x l l' _ IH|x y l|l1 l2 l3 _ IH1 _ IH2]; intros bs Hf.
  - by exists bs.
  - inversion Hf as [|? ? p ptrs below beside Hn Hptr Hb Hs]; subst. destruct (IH _ Hs) as (bs' & Hf' & Hperm).
    eexists. split; [exact (forest_cons _ _ _ _ _ _ Hn Hptr Hb Hf')|]. by rewrite Hperm.
  - inversion Hf as [|? ? p ptrs below beside Hn Hptr Hb Hs]; subst.
    inversion Hs as [|? ? p' ptrs' below' beside' Hn' Hptr' Hb' Hs']; subst.
    eexists. split; [exact (forest_cons _ _ _ _ _ _ Hn' Hptr' Hb' (forest_cons _ _ _ _ _ _ Hn Hptr Hb Hs'))|]. solve_Permutation.
  - destruct (IH1 _ Hf) as (bs' & Hf' & E1). destruct (IH2 _ Hf') as (bs'' & Hf'' & E2). exists bs''. by rewrite E1, E2.
Qed.

(** The pages of a list of blocks, and their retirement one block at a time. *)
Definition block_pages (bs : list (PageID * Z)) : list PageID := concat ((λ '(p, n), seqZ p n) <$> bs).

Lemma free_reachable_ok fuel tf ids bs :
  disk_forest ids bs → (length bs < fuel)%nat →
  ∃ order, order ≡ₚ bs ∧ free_reachable fuel b tf ids = Ok (fold_left (λ tf '(p, n), tx_free tf p n) order tf).
Proof.
  revert tf ids bs. induction fuel as [|fuel IH]; intros tf ids bs Hf Hl; [lia|].
  inversion Hf as [|id ids' p ptrs below beside Hn Hptr Hb Hs]; subst; [by exists []|].
  cbn [length] in Hl. cbn [free_reachable]. fold file. rewrite Hn. cbn [mbind res_bind]. rewrite Hptr. cbn [mbind res_bind].
  destruct (disk_forest_perm ptrs (rev ptrs) below) as (below' & Hb' & Ebb); [apply Permutation_rev|done|].
  destruct (IH (tx_free tf id (page_overflow_at file p + 1)) (rev ptrs ++ ids') (below' ++ beside)) as (order & Ho & ->).
  { by apply disk_forest_app. } { rewrite <-Ebb. lia. }
  exists ((id, page_overflow_at file p + 1) :: order). split; [by rewrite Ho, Ebb|done].
Qed.

End reachable.

(** What retiring blocks does to the freelist. *)
Lemma free_blocks_spec bs tf :
  let tf' := fold_left (λ tf '(p, n), tx_free tf p n) bs tf in
  tf_meta tf' = tf_meta tf ∧ tf_pages tf' = tf_pages tf ∧ free_pages (tf_inner tf') = free_pages (tf_inner tf) ∧
  ∀ t, pending_at (tf_inner tf') t =
    if decide (tx_id (tf_meta tf) = t) then pending_at (tf_inner tf) t ++ block_pages bs else pending_at (tf_inner tf) t.
Proof.
  cbv zeta. revert tf. induction bs as [|[p n] bs IH]; intros tf.
  - split_and!; try done. intros t. cbn. rewrite app_nil_r. by case_decide.
  - cbn [fold_left]. destruct (tx_free_spec tf p n) as (Em & Eb & Ef & Ep). destruct (IH (tx_free tf p n)) as (Em' & Eb' & Ef' & Ep').
    rewrite Em', Eb', Ef', Em, Eb, Ef. split_and!; try done. intros t. rewrite Ep', Em, Ep. case_decide; [|done].
    unfold block_pages. cbn. by rewrite app_assoc.
Qed.

Lemma block_pages_perm bs bs' : bs ≡ₚ bs' → block_pages bs ≡ₚ block_pages bs'.
Proof. intros H. unfold block_pages. rewrite <-!flat_map_concat_map. by apply Permutation_flat_map. Qed.

(** The root page of the child of this name: of the open bucket, or of the entry. *)
Definition child_root (st : Buckets) (b : InnerBucket) (name : bytes) (m : BucketMeta) : PageID :=
  match ib_buckets b !! name with
  | Some c => default 0 (root_of <$> st !! c)
  | None => root_page m
  end.

(** The open children of a bucket are other buckets of the store. *)
Definition children_ok (st : Buckets) (r : BucketRef) (b : InnerBucket) : Prop :=
  ∀ name c, ib_buckets b !! name = Some c → c ≠ r ∧ is_Some (st !! c).

Lemma disk_forest_pages b b' ids bs : ib_pages b' = ib_pages b → disk_forest b ids bs → disk_forest b' ids bs.
Proof.
  intros E H. induction H as [|id ids p ptrs below beside Hn Hp _ IH1 _ IH2]; [constructor|].
  rewrite <-E in *. eapply forest_cons; [|done..]. unfold inner_node_page in *. by rewrite E.
Qed.

Lemma get_bucket_open fuel st r name b h es ps m :
  st !! r = Some b → refs_ok st → bucket_wf b h es ps → (h < fuel)%nat → children_ok st r b →
  leaf_map es !! name = Some (LBucket name m) →
  ∃ c st' b' child, get_bucket fuel st r name = Ok (c, st') ∧ c ≠ r ∧ st' !! r = Some b' ∧ st' !! c = Some child ∧
    root_of child = child_root st b name m ∧ bucket_wf b' h es ps ∧ ib_pages b' = ib_pages b ∧
    delete name (ib_buckets b') = delete name (ib_buckets b) ∧ (∀ r', r' ≠ r → r' ≠ c → st' !! r' = st !! r') ∧
    ib_meta b' = ib_meta b ∧ (∀ c', ib_buckets b !! name = Some c' → c' = c) ∧ ib_deleted b' = ib_deleted b ∧ refs_ok st' ∧
    (ib_buckets b !! name = None → st !! c = None).
Proof.
  intros Hr Href Hwf Hf Hc Hn. pose proof (bucket_getter_ok fuel st r name false false b h es ps Hr Href Hwf Hf) as Hg.
  cbv zeta in Hg. rewrite Hn in Hg. unfold child_root. destruct (ib_buckets b !! name) as [c|] eqn:E.
  - destruct (Hc _ _ E) as [Hne [child Hch]]. exists c, st, b, child. rewrite Hch. split_and!; try done; congruence.
  - destruct Hg as (c & st' & b' & Hres & [H1 H2 H3 H4 H5 H6 H7 H8] & Hw & Hm).
    exists c, st', b', (from_meta m (ib_pages b)). split_and!; try done; [congruence|by rewrite H4, delete_insert_eq].
Qed.

(** What [delete_bucket] leaves behind. *)
Record bucket_deleted (st st' : Buckets) (tf tf' : TxFreelist) (r : BucketRef) (b : InnerBucket) (name : bytes)
    (h : nat) (es : list Leaf) (ps : list PageID) (bs : list (PageID * Z)) : Prop := {
  bd_parent : ∃ b' es', st' !! r = Some b' ∧ bucket_wf b' h es' ps ∧ leaf_map es' = delete name (leaf_map es) ∧
    ib_buckets b' = delete name (ib_buckets b) ∧ ib_meta b' = ib_meta b ∧ ib_pages b' = ib_pages b ∧ ib_deleted b' = ib_deleted b;
  bd_refs : refs_ok st';
  bd_child : ∃ c child, c ≠ r ∧ st' !! c = Some child ∧ ib_deleted child = true ∧
    (∀ c', ib_buckets b !! name = Some c' → c' = c) ∧ (ib_buckets b !! name = None → st !! c = None) ∧ ∀ r', r' ≠ r → r' ≠ c → st' !! r' = st !! r';
  bd_retired : pending_at (tf_inner tf') (tx_id (tf_meta tf)) ≡ₚ pending_at (tf_inner tf) (tx_id (tf_meta tf)) ++ block_pages bs;
  bd_pending : ∀ t, t ≠ tx_id (tf_meta tf) → pending_at (tf_inner tf') t = pending_at (tf_inner tf) t;
  bd_free : free_pages (tf_inner tf') = free_pages (tf_inner tf);
  bd_meta : tf_meta tf' = tf_meta tf
}.

Lemma delete_bucket_ok (fuel : nat) (st : Buckets) (tf : TxFreelist) (r : BucketRef) (name : bytes) (b : InnerBucket)
    (h : nat) (es : list Leaf) (ps : list PageID) (m : BucketMeta) (bs : list (PageID * Z)) :
  st !! r = Some b → refs_ok st → bucket_wf b h es ps → (h < fuel)%nat → children_ok st r b →
  leaf_map es !! name = Some (LBucket name m) →
  (if child_root st b name m =? 0 then bs = [] else disk_forest b [child_root st b name m] bs) → (length bs < fuel)%nat →
  ∃ st' tf', delete_bucket fuel st tf r name = Ok (st', tf') ∧ bucket_deleted st st' tf tf' r b name h es ps bs.
Proof.
  intros Hr Href Hwf Hf Hc Hn Hbs Hl.
  destruct (get_bucket_open fuel st r name b h es ps m Hr Href Hwf Hf Hc Hn)
    as (c & st1 & b1 & child & Hg & Hne & H1 & Hch & Hroot & Hw1 & Hpg & Hdel & Hoth & Hmeta & Huniq & Hbd & Href1 & Hnew).
  unfold delete_bucket. rewrite Hg. cbn [mbind res_bind]. unfold bucket_at. rewrite H1. cbn [unwrap mbind res_bind].
  rewrite (lookup_insert_ne st1 r c), Hch by done. cbn [unwrap mbind res_bind].
  rewrite lookup_insert_ne, lookup_insert_eq by done. cbn [unwrap mbind res_bind].
  set (b2 := with_buckets b1 (delete name (ib_buckets b1))). assert (bucket_wf b2 h es ps) as Hw2 by (by apply (same_tree_wf b1)).
  assert (∃ order, order ≡ₚ bs ∧ (if negb (root_of child =? 0) then free_reachable fuel b2 tf [root_of child] else Ok tf) =
    Ok (fold_left (λ tf '(p, n), tx_free tf p n) order tf)) as (order & Ho & ->).
  { rewrite Hroot. destruct (child_root st b name m =? 0); cbn [negb]; [subst bs; by exists []|].
    apply free_reachable_ok; [|done]. by apply (disk_forest_pages b). }
  cbn [mbind res_bind]. destruct (edit_ready fuel b2 h es ps name Hw2 Hf) as (stack & last & pp & Hs & Hval & Hedit). cbv zeta in Hs, Hval.
  rewrite leaf_map_assoc in Hn. rewrite Hn in Hs, Hval. rewrite Hs, bool_decide_eq_true_2 by done. cbn [mbind res_bind].
  rewrite last_path_snoc. cbn [mbind res_bind]. destruct (Hval _ eq_refl) as (pn & -> & Hv).
  cbn [mbind res_bind]. rewrite Hv. cbn [unwrap mbind res_bind leaf_is_kv negb].
  destruct (proj2 (Hedit (with_dirty (with_page_parents b2 pp)) ltac:(by split)) _ Hn) as (b' & es' & -> & Hw & Hm & Hme & Hbk & Hpg' & Hdl' & _).
  cbn [mbind res_bind]. eexists _, _. split; [done|]. destruct (free_blocks_spec order tf) as (Em & Eb & Ef & Ep). cbv zeta in Em, Ef, Ep.
  split; try done.
  - exists b', es'. rewrite lookup_insert_eq. split_and!; try done; [by rewrite Hbk; exact Hdel|by rewrite Hme; exact Hmeta|by rewrite Hpg'; exact Hpg|by rewrite Hdl'; exact Hbd].
  - repeat apply refs_ok_update; rewrite ?lookup_insert; repeat case_decide; rewrite ?H1, ?Hch; eauto.
  - exists c, (with_deleted child). rewrite lookup_insert_ne, lookup_insert_eq by done. split_and!; try done.
    intros r' ? ?. rewrite !lookup_insert_ne by done. by apply Hoth.
  - rewrite Ep, decide_True by done. by rewrite (block_pages_perm order bs).
  - intros t Ht. by rewrite Ep, decide_False by congruence.
Qed.

(** C15: Deleting a nested bucket.  On a well-formed bucket with a bucket entry of
    this name whose pages on disk form a forest, [delete_bucket] ends, removes
    exactly that entry and the open child, marks the child's object deleted so that
    other handles to it are refused, and retires under the transaction every page
    reachable from the child's root, including those of the buckets nested in it,
    each as often as it is reachable and no other page; a child created in this
    transaction has no pages to retire. *)
Theorem delete_bucket_spec (fuel : nat) (st : Buckets) (tf : TxFreelist) (r : BucketRef) (name : bytes) (b : InnerBucket)
    (h : nat) (es : list Leaf) (ps : list PageID) (m : BucketMeta) (bs : list (PageID * Z)) :
  st !! r = Some b → refs_ok st → bucket_wf b h es ps → (h < fuel)%nat → children_ok st r b →
  leaf_map es !! name = Some (LBucket name m) →
  (if child_root st b name m =? 0 then bs = [] else disk_forest b [child_root st b name m] bs) → (length bs < fuel)%nat →
  ∃ st' tf', delete_bucket fuel st tf r name = Ok (st', tf') ∧ bucket_deleted st st' tf tf' r b name h es ps bs.
Proof. apply delete_bucket_ok. Qed.

(** ** A bucket in a bucket: page 2 holds bucket [b] at page 3, which holds bucket
    [c] at page 4 *)

Module Nested.

Definition b_name : bytes := [Byte.x62].
Definition c_name : bytes := [Byte.x63].
Definition root_leaves : list Leaf := [LKv [Byte.x61] []; LBucket b_name (mkBucketMeta 3 0)].
Definition b_leaves : list Leaf := [LBucket c_name (mkBucketMeta 4 0)].

Definition file : bytes :=
  replicate 2048 Byte.x00 ++ page_image 2 (Leaves root_leaves) ++ page_image 3 (Leaves b_leaves) ++
  page_image 4 (Leaves demo_right).

Definition root : InnerBucket := from_meta (mkBucketMeta 2 0) (mkPages file 1024).
Definition store : Buckets := {[0 := root]}.
Definition freelist : TxFreelist := tx_freelist_new (demo_meta 5) freelist_new.

Lemma root_wf : bucket_wf root 0 root_leaves [2].
Proof.
  split.
  - split; [vm_compute; reflexivity|done].
  - repeat constructor. set_solver.
  - repeat constructor.
  - split; intros ?; intros; by simplify_map_eq.
  - intros q ->%list_elem_of_singleton H. destruct (H eq_refl).
Qed.

Lemma refs : refs_ok store.
Proof. intros r [b Hb]. unfold store in Hb. apply lookup_singleton_Some in Hb as [<- _]. unfold fresh_ref, store. rewrite map_size_singleton. lia. Qed.

Lemma no_children : children_ok store 0 root.
Proof. by intros name c H. Qed.

Lemma forest : disk_forest root [3] [(3, 1); (4, 1)].
Proof.
  assert (∀ id p ptrs bs, inner_node_page root id = Ok p → page_pointers file p = Ok ptrs → page_overflow_at file p = 0 →
    disk_forest root ptrs bs → disk_forest root [id] ((id, 1) :: bs)) as H.
  { intros id p ptrs bs Hn Hp Ho Hf. rewrite <-(app_nil_r bs). change 1 with (0 + 1). rewrite <-Ho.
    by apply (forest_cons root id [] p ptrs bs []); [..|constructor]. }
  eapply H; [vm_compute; reflexivity..|]. eapply H; [vm_compute; reflexivity..|]. constructor.
Qed.

End Nested.

Lemma bucket_getter_spec_witness :
  ∃ c st' b', get_bucket 1 Nested.store 0 Nested.b_name = Ok (c, st') ∧
    registered Nested.store st' 0 c Nested.b_name Nested.root b' (from_meta (mkBucketMeta 3 0) (mkPages Nested.file 1024)) ∧
    bucket_wf b' 0 Nested.root_leaves [2] ∧ ib_meta b' = mkBucketMeta 2 0.
Proof.
  exact (bucket_getter_spec 1 Nested.store 0 Nested.b_name false false Nested.root 0 Nested.root_leaves [2]
    eq_refl Nested.refs Nested.root_wf (le_n 1)).
Defined.

Lemma delete_bucket_spec_witness :
  ∃ st' tf', delete_bucket 3 Nested.store Nested.freelist 0 Nested.b_name = Ok (st', tf') ∧
    bucket_deleted Nested.store st' Nested.freelist tf' 0 Nested.root Nested.b_name 0 Nested.root_leaves [2] [(3, 1); (4, 1)].
Proof.
  apply (delete_bucket_spec 3 Nested.store Nested.freelist 0 Nested.b_name Nested.root 0 Nested.root_leaves [2] (mkBucketMeta 3 0)).
  - reflexivity.
  - exact Nested.refs.
  - exact Nested.root_wf.
  - lia.
  - exact Nested.no_children.
  - reflexivity.
  - exact Nested.forest.
  - cbn. lia.
Defined.

(** Deleting a bucket and then the bucket that held it retires pages twice.
    When a transaction deletes the nested bucket [c] of [b] and then [b] itself,
    [delete_bucket] walks the page of [b] as it is on disk, which still lists [c]:
    the page of [c] is retired by both calls and stands twice in the
    transaction's list of retired pages. *)
Theorem nested_delete_retires_twice :
  ∃ rb st1 st2 tf2 st3 tf3,
    get_bucket 9 Nested.store 0 Nested.b_name = Ok (rb, st1) ∧
    delete_bucket 9 st1 Nested.freelist rb Nested.c_name = Ok (st2, tf2) ∧
    delete_bucket 9 st2 tf2 0 Nested.b_name = Ok (st3, tf3) ∧
    pending_at (tf_inner tf3) (tx_id (tf_meta tf3)) = [4; 3; 4].
Proof.
  eexists _, _, _, _, _, _. split; [vm_compute; reflexivity|]. split; [vm_compute; reflexivity|].
  split; [vm_compute; reflexivity|]. vm_compute. reflexivity.
Qed.
