(* ===== verification/Cursor.v ===== *)
(** * Cursors and iterators: [src/src/api/cursor.rs] and [src/src/api/data.rs]

    A cursor is the stack of a search and two flags; the bucket it borrows is an
    argument of its operations.  The head of the model's stack is the end of the
    code's vector.  Iterators are state machines: a function from the state to an
    optional item and the next state, and [drain] is the [for] loop over one. *)

From S2P Require Import Prelude Search Support Layout Meta Freelist Node Page PageNode Inner Spill Buckets.

(** ** What callers see of an entry: data.rs *)

Inductive Data :=
  | DBucket (name : bytes)
  | DKeyValue (key value : bytes).

#[global] Instance data_eq_dec : EqDecision Data.
Proof. solve_decision. Defined.

Definition data_of_leaf (l : Leaf) : Data :=
  match l with
  | LBucket name _ => DBucket name
  | LKv key value => DKeyValue key value
  end.

Definition data_is_kv (d : Data) : bool := match d with DKeyValue _ _ => true | DBucket _ => false end.

Definition data_key (d : Data) : bytes :=
  match d with
  | DBucket name => name
  | DKeyValue key _ => key
  end.

(** [From<Leaf> for Option<KVPair>] *)
Definition kv_of_leaf (l : Leaf) : option (bytes * bytes) :=
  match l with
  | LBucket _ _ => None
  | LKv key value => Some (key, value)
  end.

(** ** The cursor *)

Record Cursor := mkCursor { c_stack : list SearchPath; c_next_called : bool; c_previous_called : bool }.

Definition cursor_new : Cursor := mkCursor [] false false.

Section cursor.
Context (fuel : nat) (b : InnerBucket).
Let file := pg_data (ib_pages b).

Definition seek (key : bytes) : res (bool * Cursor * InnerBucket) :=
  _ ← assert_that (negb (ib_deleted b)) "Cannot seek cursor on a deleted bucket.";
  '(exists_, stack, b') ← search fuel key (root_of b) b [];
  Ok (exists_, mkCursor (rev stack) false false, b').

Definition current (c : Cursor) : res (option Data) :=
  _ ← assert_that (negb (ib_deleted b)) "Cannot get data from a deleted bucket.";
  match c_stack c with
  | e :: _ =>
      n ← page_node b (sp_id e);
      v ← pn_val file n (sp_index e);
      Ok (data_of_leaf <$> (v : option Leaf))
  | [] => Ok None
  end.

(** The loop of [seek_first]. *)
Fixpoint descend_first (fuel : nat) (stack : list SearchPath) : res (list SearchPath) :=
  match fuel, stack with
  | O, _ => Panic NOFUEL
  | _, [] => Panic "called `Option::unwrap()` on a `None` value"
  | S fuel, elem :: _ =>
      pn ← page_node b (sp_id elem);
      if pn_leaf file pn then Ok stack
      else if pn_len file pn =? 0 then Ok stack
      else
        page_id ← pn_index_page file pn (sp_index elem);
        descend_first fuel (mkPath 0 (PPage page_id) :: stack)
  end.

Definition seek_first (stack : list SearchPath) : res (list SearchPath) :=
  descend_first fuel (match stack with [] => [mkPath 0 (PPage (root_of b))] | _ => stack end).

(** The loops that follow the last elements, of [seek_last] and [previous]: whether
    a leaf was reached, and the stack. *)
Fixpoint descend_last (fuel : nat) (id : PageNodeID) (stack : list SearchPath) : res (bool * list SearchPath) :=
  match fuel with
  | O => Panic NOFUEL
  | S fuel =>
      pn ← page_node b id;
      if pn_len file pn =? 0 then Ok (false, stack)
      else
        let index := Z.to_nat (pn_len file pn - 1) in
        let stack := mkPath index id :: stack in
        if pn_leaf file pn then Ok (true, stack)
        else
          page_id ← pn_index_page file pn index;
          descend_last fuel (PPage page_id) stack
  end.

Definition seek_last : res Cursor :=
  '(_, stack) ← descend_last fuel (PPage (root_of b)) [];
  Ok (mkCursor stack false false).

(** The loop of [previous] up to the move: [None] when the stack ran empty,
    otherwise the stack after the move and the page to descend into. *)
Fixpoint retreat (stack : list SearchPath) : res (option (list SearchPath * option PageNodeID)) :=
  match stack with
  | [] => Ok None
  | e :: rest =>
      if (sp_index e =? 0)%nat then retreat rest
      else
        let index := (sp_index e - 1)%nat in
        pn ← page_node b (sp_id e);
        if pn_leaf file pn then Ok (Some (mkPath index (sp_id e) :: rest, None))
        else
          page_id ← pn_index_page file pn index;
          Ok (Some (mkPath index (sp_id e) :: rest, Some (PPage page_id)))
  end.

Definition previous (c : Cursor) : res (option Data * Cursor) :=
  let finish stack :=
    let c := mkCursor stack false true in
    d ← current c;
    Ok (d, c) in
  match c_stack c with
  | [] =>
      c ← seek_last;
      finish (c_stack c)
  | stack =>
      if c_previous_called c then
        moved ← retreat stack;
        match moved with
        | None => Ok (None, mkCursor [] (c_next_called c) (c_previous_called c))
        | Some (stack, None) => finish stack
        | Some (stack, Some id) =>
            '(reached, stack) ← descend_last fuel id stack;
            if reached : bool then finish stack
            else Ok (None, mkCursor stack (c_next_called c) (c_previous_called c))
        end
      else finish stack
  end.

(** The loop of [advance] up to the move: whether the cursor moved, and the stack. *)
Fixpoint climb (stack : list SearchPath) : res (bool * list SearchPath) :=
  match stack with
  | [] => Panic "called `Option::unwrap()` on a `None` value"
  | e :: rest =>
      _ ← assert_that (negb (ib_deleted b)) "Cannot get data from a deleted bucket.";
      pn ← page_node b (sp_id e);
      if u64_wrap (pn_len file pn - 1) <=? Z.of_nat (sp_index e) then
        match rest with
        | [] => Ok (false, stack)
        | _ => climb rest
        end
      else Ok (true, mkPath (S (sp_index e)) (sp_id e) :: rest)
  end.

(** The fallible body of [Iterator::next]. *)
Definition advance (c : Cursor) : res (option Data * Cursor) :=
  let finish stack :=
    let c := mkCursor stack true false in
    d ← current c;
    Ok (d, c) in
  match c_stack c with
  | [] =>
      stack ← seek_first [];
      finish stack
  | stack =>
      if c_next_called c then
        '(moved, stack) ← climb stack;
        if moved : bool then
          stack ← seek_first stack;
          finish stack
        else Ok (None, mkCursor stack (c_next_called c) false)
      else finish stack
  end.

End cursor.

(** ** Ranges *)

Inductive Bound := Included (k : bytes) | Excluded (k : bytes) | Unbounded.

Record Range := mkRange { r_cursor : Cursor; r_start : Bound; r_end : Bound }.

Definition range_new (start end_ : Bound) : Range := mkRange cursor_new start end_.

Definition in_end (end_ : Bound) (key : bytes) : bool :=
  match end_ with
  | Excluded e => lex_ltb key e
  | Included e => negb (lex_ltb e key)
  | Unbounded => true
  end.

(** The seek of the first call. *)
Definition range_start (fuel : nat) (r : Range) (b : InnerBucket) : res (Cursor * InnerBucket) :=
  let c := r_cursor r in
  match c_next_called c, r_start r with
  | false, Included key =>
      '(exists_, c, b) ← seek fuel b key;
      if exists_ : bool then Ok (c, b)
      else
        d ← current b c;
        match d with
        | Some data =>
            if lex_ltb (data_key data) key then '(_, c) ← advance fuel b c; Ok (c, b)
            else Ok (c, b)
        | None => Ok (c, b)
        end
  | _, _ => Ok (c, b)
  end.

(** [Iterator::next] of a range. *)
Definition range_next (fuel : nat) (s : Range * InnerBucket) : res (option Data * (Range * InnerBucket)) :=
  let '(r, b) := s in
  '(c, b) ← range_start fuel r b;
  '(d, c) ← advance fuel b c;
  let r := mkRange c (r_start r) (r_end r) in
  match d with
  | None => Ok (None, (r, b))
  | Some data => Ok (if in_end (r_end r) (data_key data) then Some data else None, (r, b))
  end.

(** ** Loops over iterators *)

Section iterator.
Context {St A : Type} (next : St → res (option A * St)).

(** [for x in iter { .. }]: the items up to the first [None]. *)
Fixpoint drain (n : nat) (s : St) : res (list A) :=
  match n with
  | O => Panic NOFUEL
  | S n =>
      '(x, s) ← next s;
      match x with
      | None => Ok []
      | Some x => xs ← drain n s; Ok (x :: xs)
      end
  end.

(** The same, with the state it ends in. *)
Fixpoint drain_with (n : nat) (s : St) : res (list A * St) :=
  match n with
  | O => Panic NOFUEL
  | S n =>
      '(x, s) ← next s;
      match x with
      | None => Ok ([], s)
      | Some x => '(xs, s) ← drain_with n s; Ok (x :: xs, s)
      end
  end.

End iterator.

(** [KVPairs::next]: the next item that is a key / value pair. *)
Fixpoint kv_next {St} (next : St → res (option Data * St)) (n : nat) (s : St) : res (option (bytes * bytes) * St) :=
  match n with
  | O => Panic NOFUEL
  | S n =>
      '(d, s) ← next s;
      match d with
      | Some (DKeyValue k v) => Ok (Some (k, v), s)
      | Some (DBucket _) => kv_next next n s
      | None => Ok (None, s)
      end
  end.

(** [Buckets::next]: the next item that is a bucket, opened. *)
Fixpoint buckets_next (fuel : nat) (r : BucketRef) (n : nat) (s : Cursor * Buckets)
    : res (option (bytes * BucketRef) * (Cursor * Buckets)) :=
  match n with
  | O => Panic NOFUEL
  | S n =>
      let '(c, st) := s in
      b ← bucket_at st r;
      '(d, c) ← advance fuel b c;
      match d with
      | Some (DBucket name) =>
          '(child, st) ← get_bucket fuel st r name;
          Ok (Some (name, child), (c, st))
      | Some (DKeyValue _ _) => buckets_next fuel r n (c, st)
      | None => Ok (None, (c, st))
      end
  end.

(** ** Where a cursor stands *)

Definition id_data (b : InnerBucket) (id : PageNodeID) : res NodeData :=
  pn ← page_node b id; pn_data (pg_data (ib_pages b)) pn.

Lemma id_data_inv b id d :
  id_data b id = Ok d → ∃ pn, page_node b id = Ok pn ∧ pn_data (pg_data (ib_pages b)) pn = Ok d.
Proof. unfold id_data. intros (pn & ? & ?)%res_bind_Ok. eauto. Qed.

(** No leaf of the tree is empty. *)
Definition leaves_full (b : InnerBucket) (ps : list PageID) : Prop :=
  ∀ q, q ∈ ps → page_data b q ≠ Ok (Leaves []).

Section position.
Context (b : InnerBucket).

Definition kid_full (h : nat) (k : Kid) : Prop :=
  tree b h (b_page (k_branch k)) (k_entries k) (k_pages k) ∧ leaves_full b (k_pages k).

Lemma leaves_full_kids p kids h :
  leaves_full b (p :: concat (k_pages <$> kids)) →
  Forall (λ k, b_page (k_branch k) ≠ 0 ∧ tree b h (b_page (k_branch k)) (k_entries k) (k_pages k)) kids →
  Forall (kid_full h) kids.
Proof.
  intros Hf Hall. apply Forall_lookup. intros i k Hi. rewrite Forall_lookup in Hall. destruct (Hall i k Hi) as [_ Ht].
  split; [done|]. intros q Hq. apply Hf. right. apply elem_of_concat_fmap. eauto.
Qed.

Lemma full_nonempty h p es ps : tree b h p es ps → leaves_full b ps → es ≠ [].
Proof.
  revert p es ps. induction h as [|h IH]; intros p es ps; cbn [tree].
  - intros [Hd ->] Hf ->. apply (Hf p); [by left|done].
  - intros (kids & _ & Hne & _ & _ & Hall & -> & ->) Hf. pose proof (leaves_full_kids _ _ _ Hf Hall) as Hk.
    destruct kids as [|k kids]; [done|]. apply Forall_cons in Hk as [[Ht Hfk] _]. cbn. specialize (IH _ _ _ Ht Hfk).
    by destruct (k_entries k).
Qed.

Lemma kids_nonempty h kids : Forall (kid_full h) kids → Forall (λ k, k_entries k ≠ []) kids.
Proof. intros H. eapply Forall_impl; [exact H|]. intros k [? ?]. by eapply full_nonempty. Qed.

(** The frames above a subtree with entries [cur]: the entries before and after it. *)
Inductive spine (H : nat) (all : list Leaf) : list SearchPath → nat → list Leaf → list Leaf → list Leaf → Prop :=
  | spine_root : spine H all [] H all [] []
  | spine_down st h before after id j kids k :
      spine H all st (S h) (concat (k_entries <$> kids)) before after →
      id_data b id = Ok (Branches (k_branch <$> kids)) → Forall (kid_full h) kids → kids !! j = Some k →
      spine H all (mkPath j id :: st) h (k_entries k)
        (before ++ concat (k_entries <$> take j kids)) (concat (k_entries <$> drop (S j) kids) ++ after).

(** A cursor that stands on an entry: the entries before it, and those from it on. *)
Inductive position (H : nat) (all : list Leaf) : list SearchPath → list Leaf → list Leaf → Prop :=
  | position_at id i ls st before after :
      id_data b id = Ok (Leaves ls) → spine H all st 0 ls before after → (i < length ls)%nat →
      position H all (mkPath i id :: st) (before ++ take i ls) (drop i ls ++ after).

Context (H : nat) (all : list Leaf).
Hypothesis Hlen : Z.of_nat (length all) <= u64_max.
Hypothesis Hlive : ib_deleted b = false.

Lemma spine_all st h cur before after : spine H all st h cur before after → all = before ++ cur ++ after.
Proof.
  induction 1 as [|st h before after id j kids k _ IH _ _ Hj]; [by rewrite app_nil_r|].
  rewrite IH, (concat_middle k_entries kids j k Hj), <-!app_assoc. done.
Qed.

Lemma position_all stack before rest : position H all stack before rest → all = before ++ rest.
Proof.
  intros [id i ls st bef aft _ Hs _]. rewrite (spine_all _ _ _ _ _ Hs), <-!app_assoc. f_equal.
  by rewrite app_assoc, take_drop.
Qed.

Lemma current_at stack before rest nc pc :
  position H all stack before rest → current b (mkCursor stack nc pc) = Ok (data_of_leaf <$> head rest).
Proof.
  intros [id i ls st bef aft Hd Hs Hi]. unfold current. rewrite Hlive. cbn [negb assert_that mbind res_bind c_stack sp_id sp_index].
  destruct (id_data_inv _ _ _ Hd) as (pn & -> & Hdat). cbn [mbind res_bind]. rewrite (pn_val_data _ pn _ Hdat i ls) by done.
  cbn [mbind res_bind]. destruct (lookup_lt_is_Some_2 ls i Hi) as [x Hx]. rewrite Hx. by rewrite (drop_S ls x i Hx).
Qed.

(** Following the first elements below a frame. *)
Lemma descend_first_at h p es ps st before after fuel :
  tree b h p es ps → leaves_full b ps → spine H all st h es before after → (h < fuel)%nat →
  ∃ stack, descend_first b fuel (mkPath 0 (PPage p) :: st) = Ok stack ∧ position H all stack before (es ++ after).
Proof.
  revert p es ps st before after fuel. induction h as [|h IH]; intros p es ps st before after [|fuel] Ht Hf Hs Hfu; try lia;
    pose proof (full_nonempty _ _ _ _ Ht Hf) as Hne; cbn [tree] in Ht; cbn [descend_first sp_id sp_index].
  - destruct Ht as [Hd ->]. pose proof Hd as (pn & Hpn & Hdat)%page_data_inv. rewrite Hpn. cbn [mbind res_bind].
    rewrite (pn_leaf_data _ pn _ Hdat). eexists. split; [done|].
    rewrite <-(app_nil_r before). apply (position_at _ _ (PPage p) 0 es st before after Hd Hs). destruct es; [done|cbn; lia].
  - destruct Ht as (kids & Hd & Hkne & _ & _ & Hall & -> & ->). pose proof Hd as (pn & Hpn & Hdat)%page_data_inv.
    rewrite Hpn. cbn [mbind res_bind]. rewrite (pn_leaf_data _ pn _ Hdat), (pn_len_data _ pn _ Hdat). cbn [data_len].
    destruct kids as [|k kids]; [done|]. rewrite (proj2 (Z.eqb_neq _ _)) by (cbn; lia).
    rewrite (pn_index_page_data _ pn _ Hdat 0). cbn [mbind res_bind]. rewrite fmap_cons. cbn [lookup list_lookup].
    pose proof (leaves_full_kids _ _ _ Hf Hall) as Hk. pose proof Hk as [[Htk Hfk] _]%Forall_cons.
    pose proof (spine_down H all st h before after (PPage p) 0 (k :: kids) k Hs Hd Hk eq_refl) as Hs'.
    cbn [take fmap list_fmap concat drop] in Hs'. rewrite app_nil_r in Hs'.
    destruct (IH _ _ _ _ _ _ fuel Htk Hfk Hs') as (stack & -> & Hp); [lia|]. exists stack. split; [done|].
    cbn. by rewrite <-app_assoc.
Qed.

(** A branch has no more children than the tree has entries. *)
Lemma kids_bound h kids : Forall (kid_full h) kids → (length kids <= length (concat (k_entries <$> kids)))%nat.
Proof.
  intros Hk%kids_nonempty. induction Hk as [|k kids Hne _ IH]; [done|]. cbn. rewrite length_app.
  destruct (k_entries k); [done|]. cbn. lia.
Qed.

Lemma spine_length st h cur before after : spine H all st h cur before after → (length cur <= length all)%nat.
Proof. intros Hs. rewrite (spine_all _ _ _ _ _ Hs), !length_app. lia. Qed.

Lemma spine_height st h cur before after : spine H all st h cur before after → (h <= H)%nat.
Proof. induction 1; lia. Qed.

(** The test whether a frame stands on its last element. *)
Lemma last_test pn d i :
  pn_data (pg_data (ib_pages b)) pn = Ok d → (0 < data_len d)%nat → (data_len d <= length all)%nat →
  (u64_wrap (pn_len (pg_data (ib_pages b)) pn - 1) <=? Z.of_nat i) = (data_len d <=? S i)%nat.
Proof.
  intros Hd Hpos Hle. rewrite (pn_len_data _ _ _ Hd). unfold u64_wrap, u64_max, u64_mod in *.
  rewrite Z.mod_small by lia. apply eq_true_iff_eq. rewrite Z.leb_le, Nat.leb_le. lia.
Qed.

(** Leaving the subtree below the frames: the next entry, if there is one. *)
Lemma climb_at st h cur before after fuel :
  spine H all st h cur before after → st ≠ [] → (H < fuel)%nat →
  (after = [] ∧ ∃ stack, climb b st = Ok (false, stack) ∧ stack ≠ []) ∨
  ∃ stack stack', climb b st = Ok (true, stack) ∧ seek_first fuel b stack = Ok stack' ∧
    position H all stack' (before ++ cur) after.
Proof.
  induction 1 as [|st h before after id j kids k Hs IH Hd Hk Hj]; [done|]. intros _ Hf. pose proof (spine_height _ _ _ _ _ Hs) as Hh.
  destruct (id_data_inv _ _ _ Hd) as (pn & Hpn & Hdat). cbn [climb sp_id sp_index]. rewrite Hlive, Hpn.
  cbn [negb assert_that mbind res_bind]. apply lookup_lt_Some in Hj as Hlt.
  assert (data_len (Branches (k_branch <$> kids)) = length kids) as El by (cbn; by rewrite length_fmap).
  rewrite (last_test pn _ j Hdat) by (rewrite El; pose proof (kids_bound _ _ Hk); pose proof (spine_length _ _ _ _ _ Hs); lia).
  rewrite El. destruct (Nat.leb_spec (length kids) (S j)) as [Hlast|Hmore].
  - rewrite (drop_ge kids (S j)) by lia. cbn [fmap list_fmap concat app].
    assert (before ++ concat (k_entries <$> take j kids) ++ k_entries k = before ++ concat (k_entries <$> kids)) as E.
    { f_equal. rewrite (concat_middle k_entries kids j k Hj), (drop_ge kids (S j)) by lia. cbn. by rewrite app_nil_r. }
    rewrite <-app_assoc, E. destruct st as [|f st].
    + left. inversion Hs; subst. split; [done|]. eauto.
    + destruct (IH ltac:(done) Hf) as [(-> & stack & -> & Hne)|(stack & stack' & -> & Hsf & Hp)]; [left; eauto|right; eauto].
  - right. destruct (lookup_lt_is_Some_2 kids (S j)) as [k' Hk']; [lia|].
    exists (mkPath (S j) id :: st). cbn [seek_first]. destruct fuel as [|fuel]; [lia|].
    unfold seek_first. cbn [descend_first sp_id sp_index]. rewrite Hpn. cbn [mbind res_bind].
    rewrite (pn_leaf_data _ pn _ Hdat), (pn_len_data _ pn _ Hdat), El. rewrite (proj2 (Z.eqb_neq _ _)) by lia.
    rewrite (pn_index_page_data _ pn _ Hdat (S j)), list_lookup_fmap, Hk'. cbn [fmap option_fmap option_map mbind res_bind].
    pose proof Hk as Hk2. rewrite Forall_lookup in Hk2. destruct (Hk2 _ _ Hk') as [Htk Hfk].
    pose proof (spine_down H all st h before after id (S j) kids k' Hs Hd Hk Hk') as Hs'.
    destruct (descend_first_at h _ _ _ _ _ _ fuel Htk Hfk Hs') as (stack' & -> & Hp); [lia|].
    exists stack'. split; [done|]. split; [done|].
    rewrite (take_S_r kids j k Hj), fmap_app, concat_app in Hp. cbn [fmap list_fmap concat] in Hp. rewrite app_nil_r in Hp.
    rewrite (drop_S kids k' (S j) Hk'). cbn [fmap list_fmap concat]. by rewrite <-!app_assoc in *.
Qed.

(** One step to the right. *)
Lemma climb_position stack before x rest fuel :
  position H all stack before (x :: rest) → (H < fuel)%nat →
  (rest = [] ∧ ∃ stack', climb b stack = Ok (false, stack') ∧ stack' ≠ []) ∨
  ∃ stack1 stack', climb b stack = Ok (true, stack1) ∧ seek_first fuel b stack1 = Ok stack' ∧
    position H all stack' (before ++ [x]) rest.
Proof.
  intros Hp Hf. inversion Hp as [id i ls st bef aft Hd Hs Hi E1 E2 E3]; subst.
  destruct (id_data_inv _ _ _ Hd) as (pn & Hpn & Hdat). destruct (lookup_lt_is_Some_2 ls i Hi) as [y Hy].
  rewrite (drop_S ls y i Hy) in E3. cbn in E3. injection E3 as -> <-.
  assert (data_len (Leaves ls) = length ls) as El by done.
  assert ((bef ++ take i ls) ++ [x] = bef ++ take (S i) ls) as Etake by (by rewrite (take_S_r ls i x Hy), app_assoc).
  rewrite Etake. cbn [climb sp_id sp_index]. rewrite Hlive, Hpn. cbn [negb assert_that mbind res_bind].
  rewrite (last_test pn _ i Hdat) by (rewrite El; pose proof (spine_length _ _ _ _ _ Hs); lia).
  rewrite El. destruct (Nat.leb_spec (length ls) (S i)) as [Hlast|Hmore].
  - rewrite (drop_ge ls (S i)), (take_ge ls (S i)) by lia. cbn [app]. destruct st as [|f st].
    + left. inversion Hs; subst. eauto.
    + destruct (climb_at _ _ _ _ _ fuel Hs) as [(-> & stack & -> & Hne)|(stack & stack' & -> & Hsf & Hp')]; [done|done|left; eauto|right; eauto].
  - right. exists (mkPath (S i) id :: st), (mkPath (S i) id :: st). split; [done|]. destruct fuel as [|fuel]; [lia|].
    unfold seek_first. cbn [descend_first sp_id sp_index]. rewrite Hpn. cbn [mbind res_bind]. rewrite (pn_leaf_data _ pn _ Hdat).
    split; [done|]. by constructor.
Qed.

(** Following the last elements below a frame. *)
Lemma descend_last_at h p es ps st before after fuel :
  tree b h p es ps → leaves_full b ps → spine H all st h es before after → (h < fuel)%nat →
  ∃ stack front y, descend_last b fuel (PPage p) st = Ok (true, stack) ∧ es = front ++ [y] ∧
    position H all stack (before ++ front) (y :: after).
Proof.
  revert p es ps st before after fuel. induction h as [|h IH]; intros p es ps st before after [|fuel] Ht Hf Hs Hfu; try lia;
    pose proof (full_nonempty _ _ _ _ Ht Hf) as Hne; cbn [tree] in Ht; cbn [descend_last].
  - destruct Ht as [Hd ->]. pose proof Hd as (pn & Hpn & Hdat)%page_data_inv. rewrite Hpn. cbn [mbind res_bind].
    rewrite (pn_leaf_data _ pn _ Hdat), (pn_len_data _ pn _ Hdat). cbn [data_len].
    destruct (exists_last Hne) as (front & y & ->). rewrite length_app. cbn [length]. rewrite (proj2 (Z.eqb_neq _ _)) by lia.
    exists (mkPath (length front) (PPage p) :: st), front, y. split; [do 4 f_equal; lia|]. split; [done|].
    pose proof (position_at H all (PPage p) (length front) (front ++ [y]) st before after Hd Hs) as Hp.
    rewrite take_app_length, drop_app_length in Hp. apply Hp. rewrite length_app. cbn. lia.
  - destruct Ht as (kids & Hd & Hkne & _ & _ & Hall & -> & ->). pose proof Hd as (pn & Hpn & Hdat)%page_data_inv.
    rewrite Hpn. cbn [mbind res_bind]. rewrite (pn_leaf_data _ pn _ Hdat), (pn_len_data _ pn _ Hdat). cbn [data_len].
    destruct (exists_last Hkne) as (kids' & k & ->). rewrite length_fmap, length_app. cbn [length].
    rewrite (proj2 (Z.eqb_neq _ _)) by lia. replace (Z.to_nat _) with (length kids') by lia.
    assert ((kids' ++ [k]) !! length kids' = Some k) as Hk by (by apply list_lookup_middle).
    rewrite (pn_index_page_data _ pn _ Hdat), list_lookup_fmap, Hk. cbn [fmap option_fmap option_map mbind res_bind].
    pose proof (leaves_full_kids _ _ _ Hf Hall) as Hkf. pose proof Hkf as Hkf'. rewrite Forall_lookup in Hkf'. destruct (Hkf' _ _ Hk) as [Htk Hfk].
    pose proof (spine_down H all st h before after (PPage p) _ _ k Hs Hd Hkf Hk) as Hs'.
    destruct (IH _ _ _ _ _ _ fuel Htk Hfk Hs') as (stack & front & y & -> & Ek & Hp); [lia|].
    exists stack, (concat (k_entries <$> kids') ++ front), y. split; [done|]. split.
    + rewrite fmap_app, concat_app. cbn. by rewrite app_nil_r, Ek, app_assoc.
    + rewrite take_app_length, (drop_ge _ (S (length kids'))) in Hp by (rewrite length_app; cbn; lia). cbn in Hp. by rewrite app_assoc.
Qed.

(** Leaving the subtree below the frames to the left. *)
Definition retreated (fuel : nat) (moved : option (list SearchPath * option PageNodeID)) (stack : list SearchPath) : Prop :=
  match moved with
  | Some (st, None) => stack = st
  | Some (st, Some id) => descend_last b fuel id st = Ok (true, stack)
  | None => False
  end.

Lemma retreat_at st h cur before after fuel :
  spine H all st h cur before after → (H < fuel)%nat →
  (before = [] ∧ retreat b st = Ok None) ∨
  ∃ moved stack front y, retreat b st = Ok moved ∧ retreated fuel moved stack ∧ before = front ++ [y] ∧
    position H all stack front (y :: cur ++ after).
Proof.
  induction 1 as [|st h before after id j kids k Hs IH Hd Hk Hj]; intros Hf; [by left|]. pose proof (spine_height _ _ _ _ _ Hs) as Hh.
  destruct (id_data_inv _ _ _ Hd) as (pn & Hpn & Hdat). cbn [retreat sp_id sp_index].
  pose proof (concat_middle k_entries kids j k Hj) as Emid. destruct (Nat.eqb_spec j 0) as [->|Hj0].
  - rewrite take_0 in Emid |- *. cbn [fmap list_fmap concat app] in Emid |- *. rewrite app_nil_r, app_assoc, <-Emid. by apply IH.
  - right. rewrite Hpn. cbn [mbind res_bind]. rewrite (pn_leaf_data _ pn _ Hdat), (pn_index_page_data _ pn _ Hdat), list_lookup_fmap.
    destruct (lookup_lt_is_Some_2 kids (j - 1)) as [k' Hk']; [apply lookup_lt_Some in Hj; lia|]. rewrite Hk'.
    cbn [fmap option_fmap option_map mbind res_bind]. pose proof Hk as Hk2. rewrite Forall_lookup in Hk2. destruct (Hk2 _ _ Hk') as [Htk Hfk].
    pose proof (spine_down H all st h before after id (j - 1) kids k' Hs Hd Hk Hk') as Hs'.
    destruct (descend_last_at h _ _ _ _ _ _ fuel Htk Hfk Hs') as (stack & front & y & Hdl & Ek & Hp); [lia|].
    eexists _, stack, ((before ++ concat (k_entries <$> take (j - 1) kids)) ++ front), y. split; [done|]. split; [exact Hdl|].
    replace (S (j - 1)) with j in Hp by lia. replace (take j kids) with (take (j - 1) kids ++ [k']).
    2: { rewrite <-take_S_r by done. f_equal. lia. }
    rewrite fmap_app, concat_app. cbn [fmap list_fmap concat]. rewrite app_nil_r, Ek. split; [by rewrite <-!app_assoc|].
    rewrite (drop_S kids k j Hj) in Hp. cbn [fmap list_fmap concat] in Hp. by rewrite <-!app_assoc in *.
Qed.

(** One step to the left. *)
Lemma retreat_position stack before rest fuel :
  position H all stack before rest → (H < fuel)%nat →
  (before = [] ∧ retreat b stack = Ok None) ∨
  ∃ moved stack' front y, retreat b stack = Ok moved ∧ retreated fuel moved stack' ∧ before = front ++ [y] ∧
    position H all stack' front (y :: rest).
Proof.
  intros Hp Hf. inversion Hp as [id i ls st bef aft Hd Hs Hi E1 E2 E3]; subst.
  destruct (id_data_inv _ _ _ Hd) as (pn & Hpn & Hdat). cbn [retreat sp_id sp_index]. destruct (Nat.eqb_spec i 0) as [->|Hi0].
  - rewrite take_0, drop_0, app_nil_r. by apply (retreat_at _ 0).
  - right. rewrite Hpn. cbn [mbind res_bind]. rewrite (pn_leaf_data _ pn _ Hdat).
    destruct (lookup_lt_is_Some_2 ls (i - 1)) as [y Hy]; [lia|].
    assert (take i ls = take (i - 1) ls ++ [y]) as Et by (rewrite <-take_S_r by done; f_equal; lia).
    eexists _, _, (bef ++ take (i - 1) ls), y. split; [done|]. split; [done|]. split; [by rewrite Et, app_assoc|].
    assert (y :: drop i ls = drop (i - 1) ls) as Edr by (rewrite (drop_S ls y _ Hy); do 2 f_equal; lia).
    change (y :: drop i ls ++ aft) with ((y :: drop i ls) ++ aft). rewrite Edr. constructor; [done|done|lia].
Qed.

(** What the following calls of [previous] give, last first. *)
Inductive ready_back : Cursor → list Leaf → Prop :=
  | back_start c before : c_stack c = [] → before = all → ready_back c before
  | back_after c before rest :
      c_stack c ≠ [] → c_previous_called c = true → position H all (c_stack c) before rest → ready_back c before.

(** What the following calls of [next] give. *)
Inductive ready : Cursor → list Leaf → Prop :=
  | ready_start c rest : c_stack c = [] → rest = all → ready c rest
  | ready_here c before rest : c_stack c ≠ [] → c_next_called c = false → position H all (c_stack c) before rest → ready c rest
  | ready_after c before x rest :
      c_stack c ≠ [] → c_next_called c = true → position H all (c_stack c) before (x :: rest) → ready c rest.

Context (ps : list PageID) (fuel : nat).
Hypothesis Htree : tree b H (root_of b) all ps.
Hypothesis Hfull : leaves_full b ps ∨ all = [] ∧ H = O.
Hypothesis Hfuel : (H < fuel)%nat.

Lemma position_stack stack before rest : position H all stack before rest → stack ≠ [] ∧ rest ≠ [].
Proof.
  intros [id i ls st bef aft _ _ Hi]. split; [done|]. destruct (lookup_lt_is_Some_2 ls i Hi) as [y Hy]. by rewrite (drop_S ls y i Hy).
Qed.

(** A cursor that reached a position. *)
Lemma advance_finish stack before y rest :
  position H all stack before (y :: rest) →
  current b (mkCursor stack true false) = Ok (Some (data_of_leaf y)) ∧ ready (mkCursor stack true false) rest.
Proof.
  intros Hp. split; [by rewrite (current_at _ _ _ _ _ Hp)|]. destruct (position_stack _ _ _ Hp). by eapply ready_after.
Qed.

Lemma advance_ready c rest :
  ready c rest →
  match rest with
  | [] => ∃ c', advance fuel b c = Ok (None, c')
  | y :: rest' => ∃ c', advance fuel b c = Ok (Some (data_of_leaf y), c') ∧ ready c' rest' ∧ c_next_called c' = true
  end.
Proof.
  intros Hr. unfold advance. destruct Hr as [c rest Hst Erest|c before rest Hst Hnc Hp|c before x rest Hst Hnc Hp].
  - rewrite Hst. unfold seek_first. destruct Hfull as [Hf|[Ea EH]].
    + destruct (descend_first_at H _ _ _ _ _ _ fuel Htree Hf (spine_root H all) Hfuel) as (stack & -> & Hp).
      rewrite app_nil_r in Hp. assert (position H all stack [] rest) as Hp' by (by rewrite Erest). clear Hp. rename Hp' into Hp.
      cbn [mbind res_bind]. destruct (position_stack _ _ _ Hp). destruct rest as [|y rest]; [done|].
      destruct (advance_finish _ _ _ _ Hp) as [-> ?]. cbn [mbind res_bind]. eauto.
    + rewrite Ea in Erest. subst rest. pose proof Htree as Ht. rewrite Ea, EH in Ht. destruct Ht as [Hd _]. pose proof Hd as (pn & Hpn & Hdat)%page_data_inv. destruct fuel as [|fuel']; [lia|].
      cbn [descend_first sp_id]. rewrite Hpn. cbn [mbind res_bind]. rewrite (pn_leaf_data _ pn _ Hdat). cbn [mbind res_bind].
      unfold current. cbn [c_stack sp_id sp_index]. rewrite Hlive, Hpn. cbn [negb assert_that mbind res_bind].
      rewrite (pn_val_data _ pn _ Hdat 0 []) by done. cbn. eauto.
  - destruct c as [[|f st] nc pc]; [done|]. cbn [c_stack c_next_called] in *. subst nc.
    destruct (position_stack _ _ _ Hp). destruct rest as [|y rest]; [done|].
    destruct (advance_finish _ _ _ _ Hp) as [-> ?]. cbn [mbind res_bind]. eauto.
  - destruct c as [[|f st] nc pc]; [done|]. cbn [c_stack c_next_called] in *. subst nc.
    destruct (climb_position _ _ _ _ fuel Hp Hfuel) as [(-> & stack' & -> & Hne)|(stack1 & stack' & -> & Hsf & Hp')].
    + cbn [mbind res_bind]. eauto.
    + cbn [mbind res_bind]. rewrite Hsf. cbn [mbind res_bind]. destruct (position_stack _ _ _ Hp'). destruct rest as [|y rest]; [done|].
      destruct (advance_finish _ _ _ _ Hp') as [-> ?]. cbn [mbind res_bind]. eauto.
Qed.

(** At the end a cursor stays at the end. *)
Lemma climb_stuck stack stack' : climb b stack = Ok (false, stack') → climb b stack' = Ok (false, stack').
Proof.
  induction stack as [|e rest IH]; [done|]. intros Hc. pose proof Hc as Hc'. cbn [climb] in Hc. res_inv. destruct (_ <=? _) eqn:El; [|done].
  destruct rest as [|e' rest]; [|by apply IH]. injection Hc as <-. exact Hc'.
Qed.

Lemma advance_ends c : ready c [] → ∃ c', advance fuel b c = Ok (None, c') ∧ ∃ c'', advance fuel b c' = Ok (None, c'').
Proof.
  intros Hr. destruct (advance_ready c [] Hr) as [c' E]. exists c'. split; [done|]. inversion Hr as [? ? Hst Ea|? ? ? Hst Hnc Hp|? ? x ? Hst Hnc Hp]; subst.
  - assert (H = O) as EH by (destruct Hfull as [Hf|[_ ?]]; [by destruct (full_nonempty _ _ _ _ Htree Hf)|done]).
    pose proof Htree as Ht. rewrite EH, <-Ea in Ht. destruct Ht as [Hd _]. destruct (page_data_inv _ _ _ Hd) as (pn & Hpn & Hdat). destruct fuel as [|fuel']; [lia|].
    assert (∀ i nc pc, current b (mkCursor [mkPath i (PPage (root_of b))] nc pc) = Ok None) as Hcur.
    { intros i nc pc. unfold current. cbn [c_stack sp_id sp_index]. rewrite Hlive, Hpn. cbn [negb assert_that mbind res_bind].
      by rewrite (pn_val_data _ pn _ Hdat i []) by done. }
    assert (∀ i, seek_first (S fuel') b [mkPath i (PPage (root_of b))] = Ok [mkPath i (PPage (root_of b))]) as Hsf.
    { intros i. unfold seek_first. cbn [descend_first sp_id]. rewrite Hpn. cbn [mbind res_bind]. by rewrite (pn_leaf_data _ pn _ Hdat). }
    unfold advance in E |- *. rewrite Hst in E. change (seek_first (S fuel') b []) with (seek_first (S fuel') b [mkPath 0 (PPage (root_of b))]) in E.
    rewrite Hsf in E. cbn [mbind res_bind] in E. rewrite Hcur in E. cbn [mbind res_bind] in E. injection E as <-. cbn [c_stack c_next_called climb sp_id sp_index].
    rewrite Hlive, Hpn. cbn [negb assert_that mbind res_bind]. rewrite (pn_len_data _ pn _ Hdat). cbn [data_len length Z.of_nat].
    change (u64_wrap (Z.of_nat 0 - 1) <=? Z.of_nat 0) with false. cbn [mbind res_bind]. rewrite Hsf. cbn [mbind res_bind]. rewrite Hcur. cbn. eauto.
  - by destruct (position_stack _ _ _ Hp).
  - destruct c as [[|f st] nc pc]; [done|]. cbn [c_stack c_next_called] in *. subst nc. unfold advance in E |- *. cbn [c_stack c_next_called] in E.
    destruct (climb_position _ _ _ _ fuel Hp Hfuel) as [(_ & stack' & Ec & Hne)|(stack1 & stack' & Ec & Hsf & Hp')].
    + rewrite Ec in E. cbn [mbind res_bind] in E. injection E as <-. cbn [c_stack c_next_called]. apply climb_stuck in Ec. destruct stack' as [|f' st']; [done|].
      rewrite Ec. cbn [mbind res_bind]. eauto.
    + by destruct (position_stack _ _ _ Hp').
Qed.

(** A loop over the cursor. *)
Lemma drain_ready n c rest :
  ready c rest → (length rest < n)%nat → drain (advance fuel b) n c = Ok (data_of_leaf <$> rest).
Proof.
  revert c rest. induction n as [|n IH]; intros c rest Hr Hn; [lia|]. cbn [drain]. pose proof (advance_ready c rest Hr) as Ha.
  destruct rest as [|y rest].
  - destruct Ha as [c' ->]. done.
  - destruct Ha as (c' & -> & Hr' & _). cbn [mbind res_bind]. cbn in Hn. rewrite (IH c' rest Hr') by lia. done.
Qed.

Lemma previous_finish stack front y rest :
  position H all stack front (y :: rest) →
  current b (mkCursor stack false true) = Ok (Some (data_of_leaf y)) ∧ ready_back (mkCursor stack false true) front.
Proof.
  intros Hp. split; [by rewrite (current_at _ _ _ _ _ Hp)|]. destruct (position_stack _ _ _ Hp). by eapply back_after.
Qed.

Lemma previous_ready c before :
  leaves_full b ps → ready_back c before →
  (before = [] ∧ ∃ c', previous fuel b c = Ok (None, c')) ∨
  ∃ front y c', before = front ++ [y] ∧ previous fuel b c = Ok (Some (data_of_leaf y), c') ∧ ready_back c' front.
Proof.
  intros Hf Hr. unfold previous. destruct Hr as [c before Hst Eb|c before rest Hst Hpc Hp].
  - rewrite Hst. unfold seek_last.
    destruct (descend_last_at H _ _ _ _ _ _ fuel Htree Hf (spine_root H all) Hfuel) as (stack & front & y & -> & Ea & Hp).
    cbn [mbind res_bind c_stack]. destruct (previous_finish _ _ _ _ Hp) as [-> ?]. right. exists front, y. cbn [mbind res_bind].
    eexists. split; [congruence|]. split; [done|done].
  - destruct c as [[|f st] nc pc]; [done|]. cbn [c_stack c_previous_called c_next_called] in *. subst pc.
    destruct (retreat_position _ _ _ fuel Hp Hfuel) as [(-> & ->)|(moved & stack' & front & y & -> & Hm & -> & Hp')].
    + left. cbn [mbind res_bind]. eauto.
    + right. cbn [mbind res_bind]. destruct (previous_finish _ _ _ _ Hp') as [Hc ?]. exists front, y.
      destruct moved as [[st' [id|]]|]; [|..|done]; cbn in Hm.
      * rewrite Hm. cbn [mbind res_bind]. rewrite Hc. cbn [mbind res_bind]. eauto.
      * subst st'. rewrite Hc. cbn [mbind res_bind]. eauto.
Qed.

Lemma drain_back n c before :
  leaves_full b ps → ready_back c before → (length before < n)%nat →
  drain (previous fuel b) n c = Ok (data_of_leaf <$> reverse before).
Proof.
  intros Hf. revert c before. induction n as [|n IH]; intros c before Hr Hn; [lia|]. cbn [drain].
  destruct (previous_ready c before Hf Hr) as [(-> & c' & ->)|(front & y & c' & -> & -> & Hr')]; [done|].
  cbn [mbind res_bind]. rewrite length_app in Hn. cbn in Hn. rewrite (IH c' front Hr') by lia. by rewrite reverse_snoc.
Qed.

(** ** Seeking *)

Lemma search_position key h p es qs st before after n pp :
  tree b h p es qs → leaves_full b qs → spine H all st h es before after → store_ok b → (h < n)%nat →
  ∃ id ls st' A C pp', let r := data_index (Leaves ls) key in
    search n key p (with_page_parents b pp) (rev st) = Ok (r.2, rev (mkPath r.1 id :: st'), with_page_parents b pp') ∧
    id_data b id = Ok (Leaves ls) ∧ ls ≠ [] ∧ spine H all st' 0 ls (before ++ A) (C ++ after) ∧ es = A ++ ls ++ C ∧
    (∀ e, e ∈ A → lex_lt (leaf_key e) key) ∧ (∀ e, e ∈ C → lex_lt key (leaf_key e)).
Proof.
  revert p es qs st before after n pp. induction h as [|h IH]; intros p es qs st before after [|n] pp Ht Hf Hs Hst Hn; try lia;
    pose proof (full_nonempty _ _ _ _ Ht Hf) as Hne; cbn [tree] in Ht; cbn [search]; rewrite page_node_parents.
  - destruct Ht as [Hd ->]. pose proof Hd as (pn & Hpn & Hdat)%page_data_inv. rewrite Hpn. cbn [mbind res_bind ib_pages with_page_parents].
    rewrite (pn_index_data _ pn _ Hdat), (pn_leaf_data _ pn _ Hdat). cbn [mbind res_bind].
    eexists (pn_id (pg_data (ib_pages b)) pn), es, st, [], [], pp. cbv zeta. destruct (data_index (Leaves es) key) as [i ex].
    cbn [fst snd rev mbind res_bind app]. rewrite !app_nil_r. split_and!; try done.
    + unfold id_data. by rewrite (page_node_id b p pn Hst Hpn).
    + by intros e ?%elem_of_nil.
    + by intros e ?%elem_of_nil.
  - destruct Ht as (kids & Hd & Hkne & Hso & Hsep & Hall & -> & ->). pose proof Hd as (pn & Hpn & Hdat)%page_data_inv.
    rewrite Hpn. cbn [mbind res_bind ib_pages with_page_parents].
    rewrite (pn_index_data _ pn _ Hdat), (pn_leaf_data _ pn _ Hdat).
    destruct (data_index_branches (k_branch <$> kids) key Hso) as (br & Hbr & Hlo & Hhi); [by destruct kids|].
    pose proof (pn_index_page_data _ pn _ Hdat (data_index (Branches (k_branch <$> kids)) key).1) as Hip.
    cbv beta iota in Hip. rewrite Hbr in Hip. set (j := (data_index (Branches (k_branch <$> kids)) key).1) in *.
    destruct (data_index (Branches (k_branch <$> kids)) key) as [j' ex]. cbn [fst] in j. subst j. cbn [mbind res_bind]. rewrite Hip. cbn [mbind res_bind].
    rewrite list_lookup_fmap in Hbr. destruct (kids !! j') as [k|] eqn:Hj; [|done]. injection Hbr as <-.
    rewrite Forall_lookup in Hall. destruct (Hall _ _ Hj) as [Hnz Htk]. rewrite <-Forall_lookup in Hall.
    rewrite (proj2 (Z.eqb_neq _ _)) by done. pose proof (leaves_full_kids _ _ _ Hf Hall) as Hk.
    pose proof Hk as Hk2. rewrite Forall_lookup in Hk2. destruct (Hk2 _ _ Hj) as [_ Hfk].
    destruct (separated_split kids j' k key) as [HA HC]; try done. { intros k' Hk'. apply Hhi. by rewrite list_lookup_fmap, Hk'. }
    assert (id_data b (pn_id (pg_data (ib_pages b)) pn) = Ok (Branches (k_branch <$> kids))) as Hid.
    { unfold id_data. by rewrite (page_node_id b p pn Hst Hpn). }
    pose proof (spine_down H all st h before after _ j' kids k Hs Hid Hk Hj) as Hs'.
    destruct (IH _ _ _ _ _ _ n (<[b_page (k_branch k) := p]> pp) Htk Hfk Hs' Hst) as (id & ls & st' & A & C & pp' & Hres & Hd' & Hls & Hs2 & Ek & HA' & HC'); [lia|].
    exists id, ls, st', (concat (k_entries <$> take j' kids) ++ A), (C ++ concat (k_entries <$> drop (S j') kids)), pp'.
    cbv zeta in Hres |- *. split; [exact Hres|]. split_and!; try done.
    + by rewrite app_assoc, <-(app_assoc C).
    + rewrite (concat_middle k_entries kids j' k Hj), Ek, <-!app_assoc. done.
    + intros e [?|?]%elem_of_app; auto.
    + intros e [?|?]%elem_of_app; auto.
Qed.

(** Where a seek stops: everything before is smaller, everything after is larger. *)
Lemma seek_ready key :
  leaves_full b ps → store_ok b → keys_sorted leaf_key all →
  ∃ stack pp before y rest,
    seek fuel b key = Ok (bool_decide (leaf_key y = key), mkCursor stack false false, with_page_parents b pp) ∧
    position H all stack before (y :: rest) ∧ (∀ e, e ∈ before → lex_lt (leaf_key e) key) ∧ (∀ e, e ∈ rest → lex_lt key (leaf_key e)).
Proof.
  intros Hf Hst Hso.
  destruct (search_position key H _ _ _ _ _ _ fuel (ib_page_parents b) Htree Hf (spine_root H all) Hst Hfuel)
    as (id & ls & st' & A & C & pp & Hs & Hid & Hne & Hsp & Eall & HA & HC). cbv zeta in Hs. cbn [app] in Hsp. rewrite app_nil_r in Hsp.
  unfold seek. rewrite Hlive. cbn [negb assert_that mbind res_bind].
  replace (with_page_parents b (ib_page_parents b)) with b in Hs by (by destruct b). change (rev []) with (@nil SearchPath) in Hs. rewrite Hs. cbn [mbind res_bind].
  rewrite rev_involutive. pose proof (keys_sorted_middle leaf_key A ls C ltac:(by rewrite <-Eall)) as Hsl.
  pose proof (binary_search_ok leaf_key ls key Hsl) as Hok. cbn [data_index].
  assert (∃ i y, index_result (binary_search_by_key leaf_key ls key) = (i, bool_decide (leaf_key y = key)) ∧ ls !! i = Some y ∧
    (∀ j e, ls !! j = Some e → (j < i)%nat → lex_lt (leaf_key e) key) ∧ (∀ j e, ls !! j = Some e → (i < j)%nat → lex_lt key (leaf_key e)))
    as (i & y & -> & Hy & Hlo & Hhi).
  { destruct (binary_search_by_key leaf_key ls key) as [i|m]; cbn [index_result].
    - destruct Hok as (x & Hx & Hk). exists i, x. rewrite bool_decide_eq_true_2 by done. split_and!; try done; intros j e Hj Hij; rewrite <-Hk;
        by eapply (keys_sorted_lookup leaf_key ls).
    - destruct Hok as (Hm & Hlo & Hhi). destruct (lookup_lt_is_Some_2 ls (m - 1)) as [y Hy]; [destruct ls; [done|cbn in *; lia]|].
      exists (m - 1)%nat, y. split_and!; [|done|intros j e Hj ?; eapply Hlo; [done|lia]|intros j e Hj ?; eapply Hhi; [done|lia]].
      rewrite bool_decide_eq_false_2; [done|]. intros E. destruct m as [|m].
      + apply (lex_lt_irrefl key). rewrite <-E at 2. eapply Hhi; [done|lia].
      + apply (lex_lt_irrefl key). rewrite <-E at 1. eapply Hlo; [done|lia]. }
  cbn [fst snd]. apply lookup_lt_Some in Hy as Hi. pose proof (position_at H all id i ls st' A C Hid Hsp Hi) as Hpos.
  rewrite (drop_S ls y _ Hy) in Hpos. exists (mkPath i id :: st'), pp, (A ++ take i ls), y, (drop (S i) ls ++ C). split; [done|]. split; [done|].
  split; intros e [He|He]%elem_of_app; auto; apply list_elem_of_lookup in He as [j Hj].
  - apply lookup_take_Some in Hj as [Hj ?]. by eapply Hlo.
  - rewrite lookup_drop in Hj. eapply Hhi; [done|lia].
Qed.

(** The first call of a range with an included start: the entries below the start
    are behind the cursor. *)
Lemma range_start_ready key end_ :
  leaves_full b ps → store_ok b → keys_sorted leaf_key all →
  ∃ c pp below rest, range_start fuel (range_new (Included key) end_) b = Ok (c, with_page_parents b pp) ∧ ready c rest ∧
    all = below ++ rest ∧ (∀ e, e ∈ below → lex_lt (leaf_key e) key) ∧ (∀ e, e ∈ rest → lex_le key (leaf_key e)).
Proof.
  intros Hf Hst Hso. destruct (seek_ready key Hf Hst Hso) as (stack & pp & before & y & rest & Hs & Hpos & Hlo & Hhi).
  pose proof (position_all _ _ _ Hpos) as Eall. destruct (position_stack _ _ _ Hpos) as [Hne _].
  assert (ready (mkCursor stack false false) (y :: rest)) as Hr by (by eapply ready_here).
  assert (∀ e, e ∈ rest → lex_le key (leaf_key e)) as Hle by (intros e He; rewrite lex_le_alt; left; auto).
  unfold range_start, range_new. cbn [r_cursor r_start cursor_new c_next_called]. rewrite Hs. cbn [mbind res_bind].
  case_bool_decide as E.
  - exists (mkCursor stack false false), pp, before, (y :: rest). split_and!; try done.
    intros e [->|?]%elem_of_cons; [|auto]. rewrite lex_le_alt. by right.
  - change (current (with_page_parents b pp)) with (current b). change (advance fuel (with_page_parents b pp)) with (advance fuel b).
    rewrite (current_at _ _ _ _ _ Hpos). cbn [head fmap option_fmap option_map mbind res_bind].
    assert (data_key (data_of_leaf y) = leaf_key y) as -> by (by destruct y). destruct (lex_ltb (leaf_key y) key) eqn:El.
    + destruct (advance_ready _ _ Hr) as (c' & -> & Hr' & _). cbn [mbind res_bind]. exists c', pp, (before ++ [y]), rest.
      split_and!; try done; [by rewrite <-app_assoc|]. intros e [?| ->%list_elem_of_singleton]%elem_of_app; [auto|by apply lex_ltb_lt].
    + exists (mkCursor stack false false), pp, before, (y :: rest). split_and!; try done.
      intros e [->|?]%elem_of_cons; [by apply lex_ltb_le|auto].
Qed.

Lemma data_of_leaf_key l : data_key (data_of_leaf l) = leaf_key l.
Proof. by destruct l. Qed.

(** Beyond the end bound there is nothing more. *)
Lemma in_end_mono end_ k k' : in_end end_ k = false → lex_lt k k' → in_end end_ k' = false.
Proof.
  destruct end_ as [e|e|]; cbn; [| |done].
  - rewrite !negb_false_iff, !lex_ltb_lt. intros ??. by eapply lex_lt_trans.
  - rewrite !lex_ltb_le. intros ??. rewrite lex_le_alt. left. by eapply lex_le_lt_trans.
Qed.

(** One call of a range, after its seek if it does one. *)
Lemma range_next_ready c0 b0 c start end_ pp rest :
  range_start fuel (mkRange c0 start end_) b0 = Ok (c, with_page_parents b pp) → ready c rest →
  ∃ c', range_next fuel (mkRange c0 start end_, b0) =
    Ok (match head rest with
        | Some y => if in_end end_ (leaf_key y) then Some (data_of_leaf y) else None
        | None => None
        end, (mkRange c' start end_, with_page_parents b pp)) ∧
    (rest ≠ [] → ready c' (tail rest) ∧ c_next_called c' = true).
Proof.
  intros Hst Hr. cbn [range_next]. rewrite Hst. cbn [mbind res_bind r_start r_end].
  change (advance fuel (with_page_parents b pp)) with (advance fuel b). pose proof (advance_ready c rest Hr) as Ha.
  destruct rest as [|y rest]; cbn [head tail].
  - destruct Ha as [c' ->]. cbn [mbind res_bind]. eexists. split; [done|]. intros H0. destruct (H0 eq_refl).
  - destruct Ha as (c' & -> & Hr' & Hnc). cbn [mbind res_bind]. rewrite data_of_leaf_key. eauto.
Qed.

Lemma drain_range n c0 b0 c start end_ pp rest :
  range_start fuel (mkRange c0 start end_) b0 = Ok (c, with_page_parents b pp) → ready c rest →
  keys_sorted leaf_key rest → (length rest < n)%nat →
  drain (range_next fuel) n (mkRange c0 start end_, b0) =
    Ok (data_of_leaf <$> filter (λ l, in_end end_ (leaf_key l)) rest).
Proof.
  revert c0 b0 c rest. induction n as [|n IH]; intros c0 b0 c rest Hst Hr Hso Hn; [lia|]. cbn [drain].
  destruct (range_next_ready c0 b0 c start end_ pp rest Hst Hr) as (c' & -> & Hr'). cbn [mbind res_bind].
  destruct rest as [|y rest]; [done|]. cbn [head tail] in *. destruct (Hr' ltac:(done)) as [Hr2 Hnc].
  apply keys_sorted_cons in Hso as [Hlt Hso]. rewrite filter_cons. destruct (in_end end_ (leaf_key y)) eqn:E.
  - rewrite decide_True by done. cbn in Hn. rewrite (IH c' _ c' rest); [done| |done|done|lia].
    unfold range_start. cbn [r_cursor r_start]. by rewrite Hnc.
  - rewrite decide_False by (by intros []). rewrite filter_none; [done|].
    apply Forall_forall. intros z Hz Ht. by rewrite (in_end_mono end_ (leaf_key y)) in Ht by auto.
Qed.

End position.

(** ** Iterating a bucket *)

Lemma empty_leaves_root b h es ps :
  bucket_wf b h es ps → leaves_full b ps ∨ h = O → leaves_full b ps ∨ es = [] ∧ h = O.
Proof.
  intros [Ht _ _ _ _] [Hf| ->]; [by left|]. destruct Ht as [Hd ->]. destruct es as [|e es]; [by right|left].
  intros q ->%list_elem_of_singleton. by rewrite Hd.
Qed.


(** The entries a range asks for. *)
Definition in_start (start : Bound) (key : bytes) : bool :=
  match start with
  | Included s => negb (lex_ltb key s)
  | Excluded s => lex_ltb s key
  | Unbounded => true
  end.

(** Seeking in a bucket that is one empty leaf: the cursor has nothing to give. *)
Lemma empty_seek b ps fuel key :
  bucket_wf b 0 [] ps → ib_deleted b = false → (0 < fuel)%nat →
  ∃ id, seek fuel b key = Ok (false, mkCursor [mkPath 0 id] false false, b) ∧
    ∀ i nc pc, current b (mkCursor [mkPath i id] nc pc) = Ok None ∧
      ∃ j, advance fuel b (mkCursor [mkPath i id] nc pc) = Ok (None, mkCursor [mkPath j id] true false).
Proof.
  intros Hwf Hd Hfu. destruct fuel as [|fuel]; [lia|]. pose proof (wf_tree _ _ _ _ Hwf) as [Hp _].
  pose proof Hp as (pn & Hpn & Hdat)%page_data_inv. exists (pn_id (pg_data (ib_pages b)) pn).
  assert (page_node b (pn_id (pg_data (ib_pages b)) pn) = Ok pn) as Hid by (apply (page_node_id b (root_of b)), Hpn; apply Hwf). split.
  - unfold seek. rewrite Hd. cbn [negb assert_that mbind res_bind search]. rewrite Hpn. cbn [mbind res_bind].
    rewrite (pn_index_data _ pn _ Hdat), (pn_leaf_data _ pn _ Hdat). done.
  - assert (∀ i nc pc, current b (mkCursor [mkPath i (pn_id (pg_data (ib_pages b)) pn)] nc pc) = Ok None) as Hcur.
    { intros i nc pc. unfold current. rewrite Hd. cbn [negb assert_that mbind res_bind c_stack sp_id sp_index]. rewrite Hid. cbn [mbind res_bind].
      by rewrite (pn_val_data _ pn _ Hdat i []). }
    intros i nc pc. split; [done|]. unfold advance. cbn [c_stack c_next_called]. destruct nc; [|rewrite Hcur; cbn [mbind res_bind]; eauto].
    cbn [climb sp_id sp_index]. rewrite Hd, Hid. cbn [negb assert_that mbind res_bind]. destruct (_ <=? _); cbn [mbind res_bind]; [eauto|].
    unfold seek_first. cbn [descend_first sp_id]. rewrite Hid. cbn [mbind res_bind]. rewrite (pn_leaf_data _ pn _ Hdat). cbn [mbind res_bind].
    rewrite Hcur. cbn [mbind res_bind]. eauto.
Qed.

(** A range over a bucket that is one empty leaf. *)
Lemma range_empty b ps start end_ fuel n :
  bucket_wf b 0 [] ps → ib_deleted b = false → (0 < fuel)%nat → (0 < n)%nat →
  drain (range_next fuel) n (range_new start end_, b) = Ok [].
Proof.
  intros Hwf Hd Hfu Hn. destruct n as [|n]; [lia|]. cbn [drain]. unfold range_next, range_start, range_new. cbn [r_cursor r_start cursor_new c_next_called r_end].
  assert (∃ c', advance fuel b cursor_new = Ok (None, c')) as [c' Hnew].
  { destruct (advance_ends b 0 [] ltac:(done) Hd ps fuel) with (c := cursor_new) as (c' & E & _); eauto; [apply Hwf|by constructor]. }
  destruct start as [s|s|]; [|cbn [mbind res_bind]; rewrite Hnew; done..].
  destruct (empty_seek b ps fuel s Hwf Hd Hfu) as (id & -> & Hempty). cbn [mbind res_bind]. destruct (Hempty 0%nat false false) as [-> [j Ha]].
  cbn [mbind res_bind]. by rewrite Ha.
Qed.

Lemma range_drained b h es ps start end_ fuel n :
  bucket_wf b h es ps → leaves_full b ps ∨ h = O → ib_deleted b = false → Z.of_nat (length es) <= u64_max →
  (h < fuel)%nat → (length es < n)%nat → (∀ k, start ≠ Excluded k) →
  drain (range_next fuel) n (range_new start end_, b) =
    Ok (data_of_leaf <$> filter (λ l, in_start start (leaf_key l) && in_end end_ (leaf_key l)) es).
Proof.
  intros Hwf Hf0 Hd Hl Hfu Hn Hs. destruct (empty_leaves_root b h es ps Hwf Hf0) as [Hf|[-> ->]]; [|by apply (range_empty b ps)].
  pose proof (wf_sorted _ _ _ _ Hwf) as Hso.
  destruct start as [s|s|]; [|by destruct (Hs s)|].
  - destruct (range_start_ready b h es Hl Hd ps fuel (wf_tree _ _ _ _ Hwf) (or_introl Hf) Hfu s end_ Hf (wf_store _ _ _ _ Hwf) Hso)
      as (c & pp & below & rest & Hst & Hr & Ees & Hlo & Hhi).
    rewrite Ees in Hso, Hn. rewrite length_app in Hn. unfold range_new.
    rewrite (drain_range b h es Hl Hd ps fuel (wf_tree _ _ _ _ Hwf) (or_introl Hf) Hfu n _ _ c _ _ pp rest Hst Hr); [|by apply keys_sorted_app in Hso as (_ & _ & ?)|lia].
    do 2 f_equal. rewrite Ees, filter_app, (filter_none _ below).
    + cbn [app]. apply filter_agree. intros l Hin. cbn. by rewrite (proj2 (lex_ltb_le _ _) (Hhi l Hin)).
    + apply Forall_forall. intros l Hin. cbn. rewrite (proj2 (lex_ltb_lt _ _) (Hlo l Hin)). by intros [].
  - assert (range_start fuel (range_new Unbounded end_) b = Ok (cursor_new, with_page_parents b (ib_page_parents b))) as Hst by (by destruct b).
    unfold range_new in *. erewrite (drain_range b h es Hl Hd ps fuel (wf_tree _ _ _ _ Hwf) (or_introl Hf) Hfu n _ _ _ _ _ _ es Hst); [done| |done|done].
    by apply ready_start.
Qed.


(** A tree like [demo_bucket] without buckets in it. *)
Definition demo_left : list Leaf := [LKv [Byte.x61] [Byte.x01]; LKv [Byte.x64] []].

Definition demo_pairs : InnerBucket :=
  from_meta (mkBucketMeta 2 0)
    (mkPages (replicate 2048 Byte.x00 ++ page_image 2 (Branches [mkBranch [Byte.x61] 3; mkBranch [Byte.x6d] 4]) ++
       page_image 3 (Leaves demo_left) ++ page_image 4 (Leaves demo_right)) 1024).

Lemma demo_bucket_full : leaves_full demo_bucket [2; 3; 4].
Proof.
  intros q Hq E. rewrite !elem_of_cons in Hq. destruct Hq as [->|[->|[->|?%elem_of_nil]]]; [vm_compute in E; discriminate E..|done].
Qed.



(** Iterators break on a leaf that was emptied in the transaction.  In a bucket
    with two leaf pages, deleting every key of the second leaf leaves an empty leaf
    in the tree until the commit: [Cursor::previous], and with it [Bucket::last],
    stops its descent at the parent and panics on reading a value there; and after
    the first leaf is emptied, a loop over the bucket ends at once although the
    second leaf has entries.  The remaining entries are those of the map after the
    deletions. *)
Theorem emptied_leaf_breaks_iteration :
  (∃ b, delete_keys demo_bucket (leaf_key <$> demo_right) = Ok b ∧
     previous 9 b cursor_new = Panic "INVALID NODE TYPE FOR VAL" ∧
     drain (advance 9 b) 9 cursor_new = Ok (data_of_leaf <$> demo_leaves)) ∧
  (∃ b, delete_keys demo_pairs (leaf_key <$> demo_left) = Ok b ∧
     inner_get 9 b [Byte.x6d] = Ok (Some (LKv [Byte.x6d] [Byte.x07])) ∧
     drain (advance 9 b) 9 cursor_new = Ok []).
Proof.
  split; eexists; (split; [vm_compute; reflexivity|]); split; vm_compute; reflexivity.
Qed.

(** An excluded start bound is ignored.  A range that excludes its start gives
    the entries from the first one on, the start itself included. *)
Theorem excluded_start_ignored :
  drain (range_next 9) 9 (range_new (Excluded [Byte.x6d]) Unbounded, demo_bucket) = Ok (data_of_leaf <$> demo_leaves ++ demo_right) ∧
  filter (λ l, in_start (Excluded [Byte.x6d]) (leaf_key l)) (demo_leaves ++ demo_right) = [LKv [Byte.x78] []].
Proof. split; vm_compute; reflexivity. Qed.
