(* ===== verification/Handle.v ===== *)
(** * Bucket handles: [src/src/api/bucket/mod.rs] and the bucket methods of
    [src/src/api/tx.rs]

    A handle is a reference to a bucket object of the transaction with its path;
    the objects, the freelist and the change tracker are the state its methods
    work on.  An operation is a function from that state to a result; a failed
    operation leaves the state as it was, except for the record of page parents
    the code may have extended.  The change feed is compiled in; a tracker that is
    not enabled records nothing. *)

From S2P Require Import Prelude Search Support Layout Meta Freelist Node Page PageNode Inner Spill Buckets Cursor Changes.

Record TxState := mkTxState { ts_buckets : Buckets; ts_freelist : TxFreelist; ts_changes : ChangeTracker }.

Record Bucket := mkBucket { bk_inner : BucketRef; bk_writable : bool; bk_path : list bytes }.

Definition set_bucket (s : TxState) (r : BucketRef) (b : InnerBucket) : TxState :=
  mkTxState (<[r := b]> (ts_buckets s)) (ts_freelist s) (ts_changes s).

Definition set_buckets (s : TxState) (st : Buckets) : TxState := mkTxState st (ts_freelist s) (ts_changes s).

Definition record_change (s : TxState) (path : list bytes) (key : bytes) (op : ChangeOperation) : TxState :=
  mkTxState (ts_buckets s) (ts_freelist s) (record (ts_changes s) path key op).

(** The handle's bucket, which must not have been deleted. *)
Definition live_bucket (s : TxState) (h : Bucket) (why : string) : res InnerBucket :=
  b ← bucket_at (ts_buckets s) (bk_inner h);
  _ ← assert_that (negb (ib_deleted b)) why;
  Ok b.

Definition child_handle (h : Bucket) (r : BucketRef) (name : bytes) : Bucket :=
  mkBucket r (bk_writable h) (path_child (bk_path h) name).

Section handle.
Context (fuel : nat).

(** ** Values *)

Definition bucket_put (h : Bucket) (key value : bytes) (s : TxState) : res (option (bytes * bytes) * TxState) :=
  _ ← fail_if (negb (bk_writable h)) ReadOnlyTx;
  b ← live_bucket s h "Cannot put data into a deleted bucket.";
  '(previous, b) ← inner_put fuel b key value;
  Ok (previous, record_change (set_bucket s (bk_inner h) b) (bk_path h) key OpPut).

Definition bucket_get (h : Bucket) (key : bytes) (s : TxState) : res (option Data) :=
  b ← live_bucket s h "Cannot get data from a deleted bucket.";
  l ← inner_get fuel b key;
  Ok (data_of_leaf <$> (l : option Leaf)).

Definition bucket_get_kv (h : Bucket) (key : bytes) (s : TxState) : res (option (bytes * bytes)) :=
  b ← live_bucket s h "Cannot get data from a deleted bucket.";
  l ← inner_get fuel b key;
  Ok (match l with Some l => kv_of_leaf l | None => None end).

Definition bucket_delete (h : Bucket) (key : bytes) (s : TxState) : res (bytes * bytes * TxState) :=
  _ ← fail_if (negb (bk_writable h)) ReadOnlyTx;
  b ← live_bucket s h "Cannot delete data from a deleted bucket.";
  '(k, v, b) ← inner_delete fuel b key;
  Ok (k, v, record_change (set_bucket s (bk_inner h) b) (bk_path h) key OpDelete).

Definition bucket_next_int (h : Bucket) (s : TxState) : res Z :=
  b ← live_bucket s h "Cannot get next int from a deleted bucket.";
  Ok (next_int (ib_meta b)).

Definition bucket_merge_next_int (h : Bucket) (next : Z) (s : TxState) : res TxState :=
  b ← bucket_at (ts_buckets s) (bk_inner h);
  Ok (set_bucket s (bk_inner h) (merge_next_int b next)).

(** ** Nested buckets *)

Definition bucket_get_bucket (h : Bucket) (name : bytes) (s : TxState) : res (Bucket * TxState) :=
  _ ← live_bucket s h "Cannot get bucket from a deleted bucket.";
  '(r, st) ← get_bucket fuel (ts_buckets s) (bk_inner h) name;
  Ok (child_handle h r name, set_buckets s st).

Definition bucket_create_bucket (h : Bucket) (name : bytes) (s : TxState) : res (Bucket * TxState) :=
  _ ← fail_if (negb (bk_writable h)) ReadOnlyTx;
  _ ← live_bucket s h "Cannot create bucket in a deleted bucket.";
  '(r, st) ← create_bucket fuel (ts_buckets s) (bk_inner h) name;
  Ok (child_handle h r name, record_change (set_buckets s st) (bk_path h) (path_leaf (path_child (bk_path h) name)) OpBucketCreate).

(** [let existed = b.get_bucket(&name).is_ok()] *)
Definition bucket_existed (h : Bucket) (name : bytes) (s : TxState) : res (bool * Buckets) :=
  match get_bucket fuel (ts_buckets s) (bk_inner h) name with
  | Ok (_, st) => Ok (true, st)
  | Err _ => Ok (false, ts_buckets s)
  | Panic w => Panic w
  end.

Definition bucket_get_or_create_bucket (h : Bucket) (name : bytes) (s : TxState) : res (Bucket * TxState) :=
  _ ← fail_if (negb (bk_writable h)) ReadOnlyTx;
  _ ← live_bucket s h "Cannot get or create bucket from a deleted bucket.";
  '(existed, st) ← bucket_existed h name s;
  '(r, st) ← get_or_create_bucket fuel st (bk_inner h) name;
  let s := set_buckets s st in
  Ok (child_handle h r name,
      if existed : bool then s
      else record_change s (bk_path h) (path_leaf (path_child (bk_path h) name)) OpBucketCreate).

Definition bucket_delete_bucket (h : Bucket) (name : bytes) (s : TxState) : res TxState :=
  _ ← fail_if (negb (bk_writable h)) ReadOnlyTx;
  _ ← live_bucket s h "Cannot delete bucket from a deleted bucket.";
  '(st, tf) ← delete_bucket fuel (ts_buckets s) (ts_freelist s) (bk_inner h) name;
  Ok (record_change (mkTxState st tf (ts_changes s)) (bk_path h) name OpBucketDelete).

(** ** Iteration *)

Definition bucket_cursor (h : Bucket) (s : TxState) : res Cursor :=
  _ ← live_bucket s h "Cannot create cursor from a deleted bucket.";
  Ok cursor_new.

(** A loop over [kv_pairs] that does not change the bucket; [n] bounds it. *)
Definition bucket_kv_pairs (n : nat) (h : Bucket) (s : TxState) : res (list (bytes * bytes)) :=
  c ← bucket_cursor h s;
  b ← bucket_at (ts_buckets s) (bk_inner h);
  drain (kv_next (advance fuel b) n) n c.

(** A loop over [range]; the range starts with the new cursor. *)
Definition bucket_range (n : nat) (h : Bucket) (start end_ : Bound) (s : TxState) : res (list Data) :=
  c ← bucket_cursor h s;
  b ← bucket_at (ts_buckets s) (bk_inner h);
  drain (range_next fuel) n (mkRange c start end_, b).

(** A loop over [buckets] that collects the names; every bucket is opened. *)
Definition bucket_names (n : nat) (h : Bucket) (s : TxState) : res (list bytes * TxState) :=
  c ← bucket_cursor h s;
  '(l, (_, st)) ← drain_with (buckets_next fuel (bk_inner h) n) n (c, ts_buckets s);
  Ok ((l : list (bytes * BucketRef)).*1, set_buckets s st).

(** ** The root bucket: the methods of [Tx]; [writable] is the transaction's *)

Definition ROOT : BucketRef := 0.

Definition tx_get_bucket (writable : bool) (name : bytes) (s : TxState) : res (Bucket * TxState) :=
  '(r, st) ← get_bucket fuel (ts_buckets s) ROOT name;
  Ok (mkBucket r writable (path_root name), set_buckets s st).

Definition tx_create_bucket (writable : bool) (name : bytes) (s : TxState) : res (Bucket * TxState) :=
  _ ← fail_if (negb writable) ReadOnlyTx;
  '(r, st) ← create_bucket fuel (ts_buckets s) ROOT name;
  Ok (mkBucket r true (path_root name), record_change (set_buckets s st) [] (path_leaf (path_root name)) OpBucketCreate).

Definition tx_get_or_create_bucket (writable : bool) (name : bytes) (s : TxState) : res (Bucket * TxState) :=
  _ ← fail_if (negb writable) ReadOnlyTx;
  '(existed, st) ← bucket_existed (mkBucket ROOT writable []) name s;
  '(r, st) ← get_or_create_bucket fuel st ROOT name;
  let s := set_buckets s st in
  Ok (mkBucket r true (path_root name),
      if existed : bool then s else record_change s [] (path_leaf (path_root name)) OpBucketCreate).

(** The handle [Tx::buckets] walks. *)
Definition root_handle (writable : bool) : Bucket := mkBucket ROOT writable [].

Definition tx_delete_bucket (writable : bool) (name : bytes) (s : TxState) : res TxState :=
  _ ← fail_if (negb writable) ReadOnlyTx;
  '(st, tf) ← delete_bucket fuel (ts_buckets s) (ts_freelist s) ROOT name;
  Ok (record_change (mkTxState st tf (ts_changes s)) [] name OpBucketDelete).

End handle.
