(* ===== verification/Store.v ===== *)
(** * What a bucket promises to the code built on it

    [BucketStore] names the operations of a bucket handle that the map-like
    methods, the typed buckets and the collections use, [BucketLaws] what they rely
    on: a handle stands for a finite map of entries.  The handles of [Handle] are
    an instance, by the refinement theorems of the tree and the cursor. *)

From S2P Require Import Prelude Search Support Layout Meta Freelist Node Page PageNode Inner Spill Buckets Cursor Changes Handle.

Class BucketStore (St H : Type) := {
  s_get : H → bytes → St → res (option Data);
  s_get_kv : H → bytes → St → res (option (bytes * bytes));
  s_put : H → bytes → bytes → St → res (option (bytes * bytes) * St);
  s_delete : H → bytes → St → res (bytes * bytes * St);
  s_pairs : nat → H → St → res (list (bytes * bytes));
  s_range : nat → H → Bound → Bound → St → res (list Data)
}.

(** The pair of an item, and the pairs of a map of entries in key order. *)
Definition kv_of_data (d : Data) : option (bytes * bytes) := match d with DKeyValue k v => Some (k, v) | DBucket _ => None end.

Definition lists_pairs (m : gmap bytes Leaf) (ps : list (bytes * bytes)) : Prop :=
  keys_sorted fst ps ∧ ∀ k v, (k, v) ∈ ps ↔ m !! k = Some (LKv k v).

(** The entries with a key between the bounds. *)
Definition between (start end_ : Bound) (m : gmap bytes Leaf) : gmap bytes Leaf :=
  filter (λ kl, in_start start kl.1 && in_end end_ kl.1) m.

Class BucketLaws (St H : Type) `{BucketStore St H} := {
  holds : St → H → gmap bytes Leaf → Prop;
  writable : H → bool;
  iterable : St → H → gmap bytes Leaf → Prop;
  apart : H → H → Prop;
  keyed_law s h m k l : holds s h m → m !! k = Some l → leaf_key l = k;
  get_law s h m k : holds s h m → s_get h k s = Ok (data_of_leaf <$> m !! k);
  get_kv_law s h m k : holds s h m → s_get_kv h k s = Ok (m !! k ≫= kv_of_leaf);
  put_law s h m k v : holds s h m →
    if writable h then
      match m !! k with
      | Some (LBucket _ _) => s_put h k v s = Err IncompatibleValue
      | old => ∃ s', s_put h k v s = Ok (old ≫= kv_of_leaf, s') ∧ holds s' h (<[k := LKv k v]> m) ∧
          ∀ h' m', apart h h' → holds s h' m' → holds s' h' m'
      end
    else s_put h k v s = Err ReadOnlyTx;
  delete_law s h m k : holds s h m →
    if writable h then
      match m !! k with
      | Some (LKv k' v) => ∃ s', s_delete h k s = Ok (k', v, s') ∧ holds s' h (delete k m) ∧
          ∀ h' m', apart h h' → holds s h' m' → holds s' h' m'
      | Some (LBucket _ _) => s_delete h k s = Err IncompatibleValue
      | None => s_delete h k s = Err KeyValueMissing
      end
    else s_delete h k s = Err ReadOnlyTx;
  pairs_law n s h m : holds s h m → iterable s h m → (size m < n)%nat → ∃ ps, s_pairs n h s = Ok ps ∧ lists_pairs m ps;
  range_law n s h m start end_ : holds s h m → iterable s h m → (size m < n)%nat → (∀ k, start ≠ Excluded k) →
    ∃ ds, s_range n h start end_ s = Ok ds ∧ lists_pairs (between start end_ m) (omap kv_of_data ds)
}.

(** ** The handles of a transaction *)

Section instance.
Context (fuel : nat).

#[local] Instance tx_store : BucketStore TxState Bucket := {|
  s_get := bucket_get fuel;
  s_get_kv := bucket_get_kv fuel;
  s_put := bucket_put fuel;
  s_delete := bucket_delete fuel;
  s_pairs := bucket_kv_pairs fuel;
  s_range := bucket_range fuel
|}.

(** The handle's bucket is a live, well-formed tree with these entries. *)
Definition tx_holds (s : TxState) (h : Bucket) (m : gmap bytes Leaf) : Prop :=
  ∃ b ht es ps, ts_buckets s !! bk_inner h = Some b ∧ ib_deleted b = false ∧ bucket_wf b ht es ps ∧
    (ht < fuel)%nat ∧ leaf_map es = m.

(** None of its leaves is empty. *)
Definition tx_iterable (s : TxState) (h : Bucket) (m : gmap bytes Leaf) : Prop :=
  ∃ b ht es ps, ts_buckets s !! bk_inner h = Some b ∧ bucket_wf b ht es ps ∧ (ht < fuel)%nat ∧
    (leaves_full b ps ∨ ht = O) ∧ leaf_map es = m ∧ Z.of_nat (size m) <= u64_max.

Definition tx_apart (h h' : Bucket) : Prop := bk_inner h ≠ bk_inner h'.

(** Reading and replacing the bucket of a handle. *)
Lemma live_bucket_ok s h b why : ts_buckets s !! bk_inner h = Some b → ib_deleted b = false → live_bucket s h why = Ok b.
Proof. intros Hb Hd. unfold live_bucket, bucket_at. rewrite Hb. cbn. by rewrite Hd. Qed.

Lemma tx_holds_set s h b ht es ps path key op :
  ib_deleted b = false → bucket_wf b ht es ps → (ht < fuel)%nat →
  tx_holds (record_change (set_bucket s (bk_inner h) b) path key op) h (leaf_map es).
Proof. intros Hd Hw Hf. exists b, ht, es, ps. split_and!; try done. apply lookup_insert_eq. Qed.

Lemma tx_holds_other s h b path key op h' m' :
  tx_apart h h' → tx_holds s h' m' → tx_holds (record_change (set_bucket s (bk_inner h) b) path key op) h' m'.
Proof.
  intros Ha (b' & ht & es & ps & Hb & Hr). exists b', ht, es, ps. split; [|done]. cbn. by rewrite lookup_insert_ne.
Qed.

Lemma tx_put_law s h m k v :
  tx_holds s h m →
  if bk_writable h then
    match m !! k with
    | Some (LBucket _ _) => bucket_put fuel h k v s = Err IncompatibleValue
    | old => ∃ s', bucket_put fuel h k v s = Ok (old ≫= kv_of_leaf, s') ∧ tx_holds s' h (<[k := LKv k v]> m) ∧
        ∀ h' m', tx_apart h h' → tx_holds s h' m' → tx_holds s' h' m'
    end
  else bucket_put fuel h k v s = Err ReadOnlyTx.
Proof.
  intros (b & ht & es & ps & Hb & Hd & Hw & Hf & <-). unfold bucket_put. destruct (bk_writable h); [|done].
  cbn [negb fail_if mbind res_bind]. rewrite (live_bucket_ok s h b) by done. cbn [mbind res_bind]. unfold inner_put.
  pose proof (put_leaf_ok fuel b ht es ps (LKv k v) Hw Hf) as Hp. cbn [leaf_key leaf_is_kv] in Hp.
  pose proof (leaf_map_put es (LKv k v) (wf_sorted _ _ _ _ Hw)) as Em. cbn [leaf_key] in Em. rewrite leaf_map_assoc.
  destruct (assoc leaf_key es k) as [[nm mt|k' v']|]; cbn [leaf_is_kv eqb] in Hp.
  - by rewrite Hp.
  - destruct Hp as (b' & -> & Hw' & Hm & Hbk & Hpg & Hd' & _). cbn [mbind res_bind]. eexists. split; [done|]. rewrite <-Em.
    split; [eapply tx_holds_set; [by rewrite Hd'|done|done]|]. intros. by apply tx_holds_other.
  - destruct Hp as (b' & -> & Hw' & Hm & Hbk & Hpg & Hd' & _). cbn [mbind res_bind]. eexists. split; [done|]. rewrite <-Em.
    split; [eapply tx_holds_set; [by rewrite Hd'|done|done]|]. intros. by apply tx_holds_other.
Qed.

Lemma tx_delete_law s h m k :
  tx_holds s h m →
  if bk_writable h then
    match m !! k with
    | Some (LKv k' v) => ∃ s', bucket_delete fuel h k s = Ok (k', v, s') ∧ tx_holds s' h (delete k m) ∧
        ∀ h' m', tx_apart h h' → tx_holds s h' m' → tx_holds s' h' m'
    | Some (LBucket _ _) => bucket_delete fuel h k s = Err IncompatibleValue
    | None => bucket_delete fuel h k s = Err KeyValueMissing
    end
  else bucket_delete fuel h k s = Err ReadOnlyTx.
Proof.
  intros (b & ht & es & ps & Hb & Hd & Hw & Hf & <-). unfold bucket_delete. destruct (bk_writable h); [|done].
  cbn [negb fail_if mbind res_bind]. rewrite (live_bucket_ok s h b) by done. cbn [mbind res_bind].
  pose proof (inner_delete_ok fuel b ht es ps k Hw Hf) as Hp. rewrite leaf_map_assoc.
  destruct (assoc leaf_key es k) as [[nm mt|k' v']|]; [by rewrite Hp| |by rewrite Hp].
  destruct Hp as (b' & es' & -> & Hw' & Em & Hm & Hbk & Hpg & Hd' & _). cbn [mbind res_bind]. eexists. split; [done|]. rewrite <-Em.
  split; [eapply tx_holds_set; [by rewrite Hd'|done|done]|]. intros. by apply tx_holds_other.
Qed.

(** Draining the pairs of an iterator that can be drained. *)
Lemma kv_next_drain {St} (next : St → res (option Data * St)) n N s ds :
  drain next n s = Ok ds → (n <= N)%nat →
  match omap kv_of_data ds with
  | [] => ∃ s', kv_next next N s = Ok (None, s')
  | p :: ps => ∃ s' n' ds', kv_next next N s = Ok (Some p, s') ∧ (n' < n)%nat ∧ drain next n' s' = Ok ds' ∧ omap kv_of_data ds' = ps
  end.
Proof.
  revert N s ds. induction n as [|n IH]; intros [|N] s ds H HN; [done|done|lia|]. cbn [drain] in H. cbn [kv_next].
  destruct (next s) as [[d s']| |]; [|done..]. cbn [mbind res_bind] in *. destruct d as [d|]; [|injection H as <-; cbn; eauto].
  destruct (drain next n s') as [ds'| |] eqn:E; [|done..]. cbn in H. injection H as <-. destruct d as [nm|k v]; cbn [omap list_omap kv_of_data].
  - pose proof (IH N s' ds' E ltac:(lia)) as Hi. destruct (omap kv_of_data ds') as [|p ps]; [done|].
    destruct Hi as (s'' & n' & ds'' & ? & ? & ? & ?). exists s'', n', ds''. split_and!; try done. lia.
  - exists s', n, ds'. split_and!; try done. lia.
Qed.

Lemma drain_kv {St} (next : St → res (option Data * St)) n N s ds :
  drain next n s = Ok ds → (n <= N)%nat → drain (kv_next next N) N s = Ok (omap kv_of_data ds).
Proof.
  intros H HN. assert (∀ M n s ds, drain next n s = Ok ds → (n <= N)%nat → (n <= M)%nat →
    drain (kv_next next N) M s = Ok (omap kv_of_data ds)) as Hgen; [|by eapply Hgen].
  clear. induction M as [|M IH]; intros n s ds H HN HM; [by destruct n; [|lia]|]. cbn [drain].
  pose proof (kv_next_drain next n N s ds H HN) as Hk. destruct (omap kv_of_data ds) as [|p ps].
  - destruct Hk as [s' ->]. done.
  - destruct Hk as (s' & n' & ds' & -> & Hn' & Hd & <-). cbn [mbind res_bind]. by rewrite (IH n' s' ds' Hd) by lia.
Qed.

(** The pairs among sorted entries. *)
Lemma lists_pairs_leaves es : keys_sorted leaf_key es → lists_pairs (leaf_map es) (omap kv_of_data (data_of_leaf <$> es)).
Proof.
  intros Hs. assert (∀ k v, (k, v) ∈ omap kv_of_data (data_of_leaf <$> es) ↔ LKv k v ∈ es) as Hin.
  { intros k v. rewrite list_elem_of_omap. split.
    - intros (d & (l & -> & Hl)%list_elem_of_fmap & Hd). destruct l; simplify_eq/=. done.
    - intros Hl. exists (DKeyValue k v). split; [|done]. apply list_elem_of_fmap. by exists (LKv k v). }
  split.
  - clear Hin. induction es as [|e es IH]; [constructor|]. apply keys_sorted_cons in Hs as [Hlt Hs]. specialize (IH Hs).
    destruct e as [nm mt|k v]; cbn; [done|]. apply keys_sorted_cons. split; [|done]. intros [k' v'] Hk.
    apply list_elem_of_omap in Hk as (d & (l & -> & Hl)%list_elem_of_fmap & Hd). destruct l; simplify_eq/=. by apply (Hlt (LKv k' v')).
  - intros k v. rewrite Hin, leaf_map_assoc. symmetry. split.
    + by intros [? _]%assoc_Some_elem.
    + intros Hl. by apply (assoc_elem leaf_key es (LKv k v)).
Qed.

Lemma size_leaf_map es : keys_sorted leaf_key es → size (leaf_map es) = length es.
Proof.
  induction es as [|e es IH]; [reflexivity|]. intros [Hlt Hs]%keys_sorted_cons.
  change (leaf_map (e :: es)) with (<[leaf_key e := e]> (leaf_map es)). rewrite map_size_insert_None, IH by
    (try done; rewrite leaf_map_assoc; apply assoc_None; intros x Hx E; apply (lex_lt_irrefl (leaf_key e)); rewrite <-E at 2; auto). done.
Qed.

Lemma tx_pairs_law n s h m :
  tx_holds s h m → tx_iterable s h m → (size m < n)%nat → ∃ ps, bucket_kv_pairs fuel n h s = Ok ps ∧ lists_pairs m ps.
Proof.
  intros (b & _ & _ & _ & Hb & Hd & _) (b' & ht & es & ps & Hb' & Hw & Hf & Hfull & <- & Hlen) Hn.
  rewrite Hb in Hb'. injection Hb' as <-. pose proof (wf_sorted _ _ _ _ Hw) as Hs. rewrite (size_leaf_map es Hs) in Hn, Hlen.
  unfold bucket_kv_pairs, bucket_cursor. rewrite (live_bucket_ok s h b) by done. cbn [mbind res_bind]. unfold bucket_at. rewrite Hb.
  cbn [unwrap mbind res_bind]. eexists. split; [|by apply lists_pairs_leaves].
  apply (drain_kv _ n); [|done]. apply (empty_leaves_root b ht es ps Hw) in Hfull.
  eapply (drain_ready b ht es); try done; [apply Hw|by constructor].
Qed.

Lemma keys_sorted_filter {A} (key : A → bytes) (P : A → Prop) `{∀ x, Decision (P x)} l : keys_sorted key l → keys_sorted key (filter P l).
Proof.
  induction l as [|x l IH]; [done|]. intros [Hlt Hs]%keys_sorted_cons. rewrite filter_cons. case_decide; [|auto].
  apply keys_sorted_cons. split; [|auto]. intros y [_ Hy]%list_elem_of_filter. auto.
Qed.

Lemma leaf_map_filter (P : bytes → bool) es : keys_sorted leaf_key es →
  leaf_map (filter (λ l, P (leaf_key l)) es) = filter (λ kl, P kl.1) (leaf_map es).
Proof.
  induction es as [|e es IH]; [reflexivity|]. intros [Hlt Hs]%keys_sorted_cons. rewrite filter_cons.
  change (leaf_map (e :: es)) with (<[leaf_key e := e]> (leaf_map es)).
  assert (leaf_map es !! leaf_key e = None) as Hn
    by (rewrite leaf_map_assoc; apply assoc_None; intros x Hx E; apply (lex_lt_irrefl (leaf_key e)); rewrite <-E at 2; auto).
  rewrite map_filter_insert. cbn [fst]. case_decide.
  - rewrite <-IH by done. reflexivity.
  - rewrite delete_id, IH by done. reflexivity.
Qed.

Lemma leaf_map_between es start end_ : keys_sorted leaf_key es →
  leaf_map (filter (λ l, in_start start (leaf_key l) && in_end end_ (leaf_key l)) es) = between start end_ (leaf_map es).
Proof. apply (leaf_map_filter (λ k, in_start start k && in_end end_ k)). Qed.

Lemma tx_range_law n s h m start end_ :
  tx_holds s h m → tx_iterable s h m → (size m < n)%nat → (∀ k, start ≠ Excluded k) →
  ∃ ds, bucket_range fuel n h start end_ s = Ok ds ∧ lists_pairs (between start end_ m) (omap kv_of_data ds).
Proof.
  intros (b & _ & _ & _ & Hb & Hd & _) (b' & ht & es & ps & Hb' & Hw & Hf & Hfull & <- & Hlen) Hn Hstart.
  rewrite Hb in Hb'. injection Hb' as <-. pose proof (wf_sorted _ _ _ _ Hw) as Hs. rewrite (size_leaf_map es Hs) in Hn, Hlen.
  unfold bucket_range, bucket_cursor. rewrite (live_bucket_ok s h b) by done. cbn [mbind res_bind]. unfold bucket_at. rewrite Hb.
  cbn [unwrap mbind res_bind]. eexists. split.
  - by apply (range_drained b ht es ps).
  - rewrite <-leaf_map_between by done. apply lists_pairs_leaves. by apply keys_sorted_filter.
Qed.

Lemma tx_keyed_law s h m k l : tx_holds s h m → m !! k = Some l → leaf_key l = k.
Proof. intros (b & ht & es & ps & _ & _ & _ & _ & <-). rewrite leaf_map_assoc. by intros [_ ?]%assoc_Some_elem. Qed.

Lemma tx_get_law s h m k : tx_holds s h m → bucket_get fuel h k s = Ok (data_of_leaf <$> m !! k).
Proof.
  intros (b & ht & es & ps & Hb & Hd & Hw & Hf & <-). unfold bucket_get. rewrite (live_bucket_ok s h b) by done.
  cbn [mbind res_bind]. rewrite (inner_get_assoc fuel b ht es ps k Hw Hf). cbn. by rewrite leaf_map_assoc.
Qed.

Lemma tx_get_kv_law s h m k : tx_holds s h m → bucket_get_kv fuel h k s = Ok (m !! k ≫= kv_of_leaf).
Proof.
  intros (b & ht & es & ps & Hb & Hd & Hw & Hf & <-). unfold bucket_get_kv. rewrite (live_bucket_ok s h b) by done.
  cbn [mbind res_bind]. rewrite (inner_get_assoc fuel b ht es ps k Hw Hf). cbn. rewrite leaf_map_assoc. by destruct (assoc leaf_key es k).
Qed.

#[local] Instance tx_laws : BucketLaws TxState Bucket := {|
  holds := tx_holds; writable := bk_writable; iterable := tx_iterable; apart := tx_apart;
  keyed_law := tx_keyed_law; get_law := tx_get_law; get_kv_law := tx_get_kv_law; put_law := tx_put_law; delete_law := tx_delete_law; pairs_law := tx_pairs_law; range_law := tx_range_law
|}.

End instance.
