(* ===== verification/MapApi.v ===== *)
(** * The map-like and the atomic methods of a bucket

    [src/src/api/bucket/map.rs], over any store that keeps the promises of
    [BucketLaws], and [src/src/api/bucket/atomic.rs], which works on the bucket
    object itself. *)

From S2P Require Import Prelude Search Support Layout Meta Freelist Node Page PageNode Inner Spill Buckets Cursor Changes Handle Store.

(** ** map.rs *)

Section map_api.
Context {St H : Type} `{BucketStore St H}.

Definition contains_key (h : H) (key : bytes) (s : St) : res bool :=
  p ← s_get_kv h key s;
  Ok (match p with Some _ => true | None => false end).

Definition map_insert (h : H) (key value : bytes) (s : St) : res (option (bytes * bytes) * St) := s_put h key value s.

Definition map_remove (h : H) (key : bytes) (s : St) : res (option bytes * St) :=
  p ← s_get_kv h key s;
  match p with
  | None => Ok (None, s)
  | Some (_, previous) =>
      '(_, _, s) ← s_delete h key s;
      Ok (Some previous, s)
  end.

Definition map_len (n : nat) (h : H) (s : St) : res nat :=
  ps ← s_pairs n h s;
  Ok (length (ps : list (bytes * bytes))).

(** [for key in &keys { self.delete(key)?; }] *)
Definition delete_each (h : H) (keys : list bytes) (s : St) : res St :=
  res_fold (λ s key, '(_, _, s) ← s_delete h key s; Ok s) s keys.

Definition delete_where (P : bytes → bool) (n : nat) (h : H) (s : St) : res (nat * St) :=
  ps ← s_pairs n h s;
  let keys := filter P ((ps : list (bytes * bytes)).*1) in
  s ← delete_each h keys s;
  Ok (length keys, s).

Definition map_clear (n : nat) (h : H) (s : St) : res (nat * St) :=
  ps ← s_pairs n h s;
  let keys := (ps : list (bytes * bytes)).*1 in
  s ← delete_each h keys s;
  Ok (length keys, s).

Definition delete_range (n : nat) (h : H) (start end_ : bytes) (s : St) : res (nat * St) :=
  delete_where (λ k, negb (lex_ltb k start) && lex_ltb k end_) n h s.

Definition delete_prefix (n : nat) (h : H) (prefix : bytes) (s : St) : res (nat * St) :=
  delete_where (λ k, starts_with k prefix) n h s.

Definition multi_get (h : H) (keys : list bytes) (s : St) : res (list (option bytes)) :=
  res_map (λ key, p ← s_get_kv h key s; Ok (match p with Some (_, v) => Some v | None => None end)) keys.

Definition insert_many (h : H) (entries : list (bytes * bytes)) (s : St) : res (nat * St) :=
  res_fold (λ '(count, s) '(key, value), '(_, s) ← s_put h key value s; Ok (S count, s)) (O, s) entries.

Definition remove_many (h : H) (keys : list bytes) (s : St) : res (nat * St) :=
  res_fold (λ '(count, s) key,
    '(previous, s) ← map_remove h key s;
    Ok ((count + match previous with Some _ => 1 | None => 0 end)%nat, s)) (O, s) keys.

(** ** What they do, from the promises alone *)

Context `{!BucketLaws St H}.

(** The values among the entries whose keys satisfy [P]. *)
Definition victim (P : bytes → bool) (kl : bytes * Leaf) : Prop := leaf_is_kv kl.2 ∧ P kl.1.

#[global] Instance victim_dec P kl : Decision (victim P kl).
Proof. unfold victim. apply _. Defined.

Lemma filter_delete_cons {A} (m : gmap bytes A) (k : bytes) (keys : list bytes) :
  filter (λ kl, kl.1 ∉ keys) (delete k m) = filter (λ kl, kl.1 ∉ k :: keys) m.
Proof. apply map_eq. intros i. apply option_eq. intros x. rewrite !map_lookup_filter_Some, lookup_delete_Some. cbn. set_solver. Qed.

Lemma delete_each_ok h m s keys :
  writable h = true → holds s h m → NoDup keys → (∀ k, k ∈ keys → ∃ k' v, m !! k = Some (LKv k' v)) →
  ∃ s', delete_each h keys s = Ok s' ∧ holds s' h (filter (λ kl, kl.1 ∉ keys) m) ∧
    ∀ h' m', apart h h' → holds s h' m' → holds s' h' m'.
Proof.
  intros Hwr. revert m s. induction keys as [|k keys IH]; intros m s Hh Hnd Hk.
  - exists s. split; [done|]. split; [|done]. rewrite map_filter_id; [done|]. intros i x _. cbn. apply not_elem_of_nil.
  - apply NoDup_cons in Hnd as [Hnk Hnd]. destruct (Hk k) as (k' & v & Hm); [by left|].
    pose proof (delete_law s h m k Hh) as Hd. rewrite Hwr, Hm in Hd. destruct Hd as (s1 & Hd & Hh1 & Ho1).
    destruct (IH (delete k m) s1 Hh1 Hnd) as (s2 & Hf & Hh2 & Ho2).
    { intros k2 Hk2. rewrite lookup_delete_ne by (intros ->; done). apply Hk. by right. }
    exists s2. unfold delete_each in *. cbn [res_fold]. rewrite Hd. cbn [mbind res_bind]. split; [done|]. split; [|eauto].
    by rewrite <-filter_delete_cons.
Qed.

Lemma delete_where_ok P n h m s :
  writable h = true → holds s h m → iterable s h m → (size m < n)%nat →
  ∃ s', delete_where P n h s = Ok (size (filter (victim P) m), s') ∧ holds s' h (filter (λ kl, ¬ victim P kl) m) ∧
    ∀ h' m', apart h h' → holds s h' m' → holds s' h' m'.
Proof.
  intros Hwr Hh Hi Hn. destruct (pairs_law n s h m Hh Hi Hn) as (ps & Hp & Hs & Hin).
  set (keys := filter P (ps.*1)). assert (NoDup keys) as Hnd by (apply NoDup_filter, (keys_sorted_NoDup fst ps Hs)).
  assert (∀ k, k ∈ keys ↔ ∃ l, m !! k = Some l ∧ victim P (k, l)) as Hkeys.
  { intros k. unfold keys. rewrite list_elem_of_filter, list_elem_of_fmap. split.
    - intros (HP & [k' v] & -> & Hv). apply Hin in Hv. by exists (LKv k' v).
    - intros ([nm mt|k' v] & Hl & Hv & HP); [done|]. split; [done|]. pose proof (keyed_law s h m k _ Hh Hl) as E. cbn in E. subst k'.
      exists (k, v). split; [done|]. by apply Hin. }
  destruct (delete_each_ok h m s keys Hwr Hh Hnd) as (s' & Hd & Hh' & Ho).
  { intros k (l & Hl & Hv & _)%Hkeys. destruct l as [|k' v]; [done|]. eauto. }
  exists s'. unfold delete_where. rewrite Hp. cbn [mbind res_bind]. fold keys. rewrite Hd. cbn [mbind res_bind]. split; [|split; [|done]].
  - do 2 f_equal. rewrite <-(size_dom (D := gset bytes)), <-(size_list_to_set (C := gset bytes) keys Hnd). f_equal.
    apply set_eq. intros k. rewrite elem_of_list_to_set, Hkeys, elem_of_dom. unfold is_Some. setoid_rewrite map_lookup_filter_Some. done.
  - assert (filter (λ kl, kl.1 ∉ keys) m = filter (λ kl, ¬ victim P kl) m) as <-; [|done].
    apply map_filter_strong_ext. intros k l. cbn. rewrite Hkeys. naive_solver.
Qed.

(** Bulk deletion.  Over any store that keeps the promises of a bucket,
    [clear], [delete_range] and [delete_prefix] remove exactly the values whose
    keys they are asked for, whatever their number, keep every other entry and
    every nested bucket, leave other buckets alone, and report the number of
    removed values. *)
Theorem bulk_delete_exact (n : nat) (h : H) (m : gmap bytes Leaf) (s : St) (start end_ prefix : bytes) :
  writable h = true → holds s h m → iterable s h m → (size m < n)%nat →
  let deletes (op : res (nat * St)) (P : bytes → bool) := ∃ s',
    op = Ok (size (filter (victim P) m), s') ∧ holds s' h (filter (λ kl, ¬ victim P kl) m) ∧
    ∀ h' m', apart h h' → holds s h' m' → holds s' h' m' in
  deletes (map_clear n h s) (λ _, true) ∧
  deletes (delete_range n h start end_ s) (λ k, negb (lex_ltb k start) && lex_ltb k end_) ∧
  deletes (delete_prefix n h prefix s) (λ k, starts_with k prefix).
Proof.
  intros Hwr Hh Hi Hn. cbv zeta. split_and!; try by apply delete_where_ok.
  destruct (delete_where_ok (λ _, true) n h m s Hwr Hh Hi Hn) as (s' & Hd & Hr). exists s'. split; [|done].
  rewrite <-Hd. unfold map_clear, delete_where. destruct (s_pairs n h s) as [ps| |]; [|done..]. cbn [mbind res_bind].
  assert (filter (λ _ : bytes, true) (ps.*1) = ps.*1) as ->; [|done]. induction (ps.*1) as [|k l IH]; [done|]. by rewrite filter_cons_True, IH.
Qed.

(** Lookups of several keys. *)
Lemma multi_get_ok h m s keys :
  holds s h m → multi_get h keys s = Ok ((λ k, match m !! k with Some (LKv _ v) => Some v | _ => None end) <$> keys).
Proof.
  intros Hh. unfold multi_get. induction keys as [|k keys IH]; [done|]. cbn [res_map]. rewrite (get_kv_law s h m k Hh).
  cbn [mbind res_bind] in *. rewrite IH. cbn. by destruct (m !! k) as [[|]|].
Qed.

End map_api.

(** ** atomic.rs *)

Record AtomicResult := mkAtomic { applied : bool; observed : option bytes; at_current : option bytes }.

Section atomic.
Context (fuel : nat).
Implicit Types (h : Bucket) (s : TxState).

Definition ensure_atomic_write (h : Bucket) (s : TxState) : res unit :=
  _ ← fail_if (negb (bk_writable h)) ReadOnlyTx;
  _ ← live_bucket s h "Cannot mutate data in a deleted bucket.";
  Ok ().

(** The value at the key; a nested bucket is an error. *)
Definition observe (b : InnerBucket) (key : bytes) : res (option bytes) :=
  l ← inner_get fuel b key;
  match l with
  | Some (LBucket _ _) => Err IncompatibleValue
  | Some (LKv _ current) => Ok (Some current)
  | None => Ok None
  end.

Definition put_if_absent (h : Bucket) (key value : bytes) (s : TxState) : res (AtomicResult * TxState) :=
  _ ← ensure_atomic_write h s;
  b ← bucket_at (ts_buckets s) (bk_inner h);
  o ← observe b key;
  match o with
  | Some current => Ok (mkAtomic false (Some current) (Some current), s)
  | None =>
      '(_, b) ← inner_put fuel b key value;
      Ok (mkAtomic true None (Some value), record_change (set_bucket s (bk_inner h) b) (bk_path h) key OpPut)
  end.

Definition compare_exchange (h : Bucket) (key : bytes) (expected : option bytes) (value : bytes) (s : TxState)
    : res (AtomicResult * TxState) :=
  _ ← ensure_atomic_write h s;
  b ← bucket_at (ts_buckets s) (bk_inner h);
  o ← observe b key;
  if negb (bool_decide (o = expected)) then Ok (mkAtomic false o o, s)
  else
    '(_, b) ← inner_put fuel b key value;
    Ok (mkAtomic true o (Some value), record_change (set_bucket s (bk_inner h) b) (bk_path h) key OpPut).

Definition delete_if_value (h : Bucket) (key expected : bytes) (s : TxState) : res (AtomicResult * TxState) :=
  _ ← ensure_atomic_write h s;
  b ← bucket_at (ts_buckets s) (bk_inner h);
  o ← observe b key;
  if negb (bool_decide (o = Some expected)) then Ok (mkAtomic false o o, s)
  else
    '(_, _, b) ← inner_delete fuel b key;
    Ok (mkAtomic true o None, record_change (set_bucket s (bk_inner h) b) (bk_path h) key OpDelete).

(** The value of a key in a map of entries. *)
Definition value_at (m : gmap bytes Leaf) (k : bytes) : option bytes :=
  match m !! k with Some (LKv _ v) => Some v | _ => None end.

Definition is_bucket_at (m : gmap bytes Leaf) (k : bytes) : bool :=
  match m !! k with Some (LBucket _ _) => true | _ => false end.

Lemma observe_ok s h m b k :
  tx_holds fuel s h m → ts_buckets s !! bk_inner h = Some b →
  observe b k = if is_bucket_at m k then Err IncompatibleValue else Ok (value_at m k).
Proof.
  intros (b' & ht & es & ps & Hb & Hd & Hw & Hf & <-) Hb'. rewrite Hb in Hb'. injection Hb' as ->. unfold observe, is_bucket_at, value_at.
  rewrite (inner_get_assoc fuel b ht es ps k Hw Hf). cbn [mbind res_bind]. rewrite leaf_map_assoc. by destruct (assoc leaf_key es k) as [[|]|].
Qed.

(** [bucket_put] and [bucket_delete] past their guards. *)
Lemma bucket_put_inner s h b k v :
  bk_writable h = true → ts_buckets s !! bk_inner h = Some b → ib_deleted b = false →
  bucket_put fuel h k v s = ('(previous, b) ← inner_put fuel b k v; Ok (previous, record_change (set_bucket s (bk_inner h) b) (bk_path h) k OpPut)).
Proof. intros Hw Hb Hd. unfold bucket_put. rewrite Hw. cbn [negb fail_if mbind res_bind]. by rewrite (live_bucket_ok s h b). Qed.

Lemma bucket_delete_inner s h b k :
  bk_writable h = true → ts_buckets s !! bk_inner h = Some b → ib_deleted b = false →
  bucket_delete fuel h k s = ('(k', v, b) ← inner_delete fuel b k; Ok (k', v, record_change (set_bucket s (bk_inner h) b) (bk_path h) k OpDelete)).
Proof. intros Hw Hb Hd. unfold bucket_delete. rewrite Hw. cbn [negb fail_if mbind res_bind]. by rewrite (live_bucket_ok s h b). Qed.

Lemma guard_ok s h m : tx_holds fuel s h m → bk_writable h = true →
  ∃ b, ts_buckets s !! bk_inner h = Some b ∧ ib_deleted b = false ∧ ensure_atomic_write h s = Ok ().
Proof.
  intros (b & ht & es & ps & Hb & Hd & _) Hw. exists b. split_and!; try done. unfold ensure_atomic_write. rewrite Hw.
  cbn [negb fail_if mbind res_bind]. by rewrite (live_bucket_ok s h b).
Qed.

Lemma inner_put_ok s h m b k v :
  tx_holds fuel s h m → bk_writable h = true → ts_buckets s !! bk_inner h = Some b → is_bucket_at m k = false →
  ∃ prev b', inner_put fuel b k v = Ok (prev, b') ∧
    tx_holds fuel (record_change (set_bucket s (bk_inner h) b') (bk_path h) k OpPut) h (<[k := LKv k v]> m).
Proof.
  intros Hh Hw Hb Hk. destruct (guard_ok s h m Hh Hw) as (b0 & Hb0 & Hd & _). rewrite Hb in Hb0. injection Hb0 as <-.
  pose proof (tx_put_law fuel s h m k v Hh) as Hp. rewrite Hw, (bucket_put_inner s h b) in Hp by done. unfold is_bucket_at in Hk.
  destruct (inner_put fuel b k v) as [[prev b']| |] eqn:E; cbn [mbind res_bind] in Hp; destruct (m !! k) as [[|]|]; try done;
    destruct Hp as (s' & Hs & Hh' & _); try done; injection Hs as _ <-; eauto.
Qed.

Lemma inner_delete_value s h m b k v :
  tx_holds fuel s h m → bk_writable h = true → ts_buckets s !! bk_inner h = Some b → value_at m k = Some v →
  ∃ k' v' b', inner_delete fuel b k = Ok (k', v', b') ∧
    tx_holds fuel (record_change (set_bucket s (bk_inner h) b') (bk_path h) k OpDelete) h (delete k m).
Proof.
  intros Hh Hw Hb Hk. destruct (guard_ok s h m Hh Hw) as (b0 & Hb0 & Hd & _). rewrite Hb in Hb0. injection Hb0 as <-.
  pose proof (tx_delete_law fuel s h m k Hh) as Hp. rewrite Hw, (bucket_delete_inner s h b) in Hp by done. unfold value_at in Hk.
  destruct (inner_delete fuel b k) as [[[k' v'] b']| |] eqn:E; cbn [mbind res_bind] in Hp; destruct (m !! k) as [[|]|]; try done;
    destruct Hp as (s' & Hs & Hh' & _); try done; injection Hs as _ _ <-; eauto.
Qed.

(** C30: The atomic methods decide and act on the same value.  On a live handle of a
    writable transaction, [put_if_absent], [compare_exchange] and
    [delete_if_value] fail with [IncompatibleValue] on a nested bucket and
    otherwise report the value the key had and the value it has afterwards: they
    write or delete exactly when the condition on the observed value holds, and
    leave the entries unchanged when it does not; read-only handles are refused. *)
Theorem atomic_methods_exact (h : Bucket) (m : gmap bytes Leaf) (k v e : bytes) (expected : option bytes) (s : TxState) :
  tx_holds fuel s h m →
  let old := value_at m k in
  let outcome (op : res (AtomicResult * TxState)) (cond : bool) (new : option bytes) (m' : gmap bytes Leaf) :=
    if bk_writable h then
      if is_bucket_at m k then op = Err IncompatibleValue
      else if cond then ∃ s', op = Ok (mkAtomic true old new, s') ∧ tx_holds fuel s' h m'
      else op = Ok (mkAtomic false old old, s)
    else op = Err ReadOnlyTx in
  outcome (put_if_absent h k v s) (bool_decide (old = None)) (Some v) (<[k := LKv k v]> m) ∧
  outcome (compare_exchange h k expected v s) (bool_decide (old = expected)) (Some v) (<[k := LKv k v]> m) ∧
  outcome (delete_if_value h k e s) (bool_decide (old = Some e)) None (delete k m).
Proof.
  intros Hh. cbv zeta. unfold put_if_absent, compare_exchange, delete_if_value.
  destruct (bk_writable h) eqn:Hw; [|by unfold ensure_atomic_write; rewrite Hw].
  destruct (guard_ok s h m Hh Hw) as (b & Hb & Hd & ->). cbn [mbind res_bind]. unfold bucket_at. rewrite Hb. cbn [unwrap mbind res_bind].
  rewrite (observe_ok s h m b k Hh Hb). destruct (is_bucket_at m k) eqn:Hk; cbn [mbind res_bind]; [done|].
  destruct (inner_put_ok s h m b k v Hh Hw Hb Hk) as (prev & b1 & Hput & Hh1). split_and!.
  - destruct (value_at m k) as [x|] eqn:Hv; [done|]. rewrite bool_decide_eq_true_2, Hput by done. cbn [mbind res_bind]. eauto.
  - destruct (bool_decide (value_at m k = expected)); cbn [negb]; [|done]. rewrite Hput. cbn [mbind res_bind]. eauto.
  - destruct (bool_decide (value_at m k = Some e)) eqn:E; cbn [negb]; [|done]. apply bool_decide_eq_true in E.
    destruct (inner_delete_value s h m b k e Hh Hw Hb E) as (k' & v' & b' & -> & Hh'). cbn [mbind res_bind]. eauto.
Qed.

End atomic.

(** [first], [last] and [is_empty]: loops over a cursor that stop at a value. *)
Definition bucket_first (fuel n : nat) (h : Bucket) (s : TxState) : res (option (bytes * bytes)) :=
  c ← bucket_cursor h s;
  b ← bucket_at (ts_buckets s) (bk_inner h);
  '(p, _) ← kv_next (advance fuel b) n c;
  Ok p.

Definition bucket_last (fuel n : nat) (h : Bucket) (s : TxState) : res (option (bytes * bytes)) :=
  _ ← bucket_cursor h s;
  b ← bucket_at (ts_buckets s) (bk_inner h);
  c ← seek_last fuel b;
  '(p, _) ← kv_next (previous fuel b) n c;
  Ok p.

Definition bucket_is_empty (fuel n : nat) (h : Bucket) (s : TxState) : res bool :=
  p ← bucket_first fuel n h s;
  Ok (match p with Some _ => false | None => true end).

(** ** A transaction on the two-level tree *)

Module Demo.

Definition state : TxState := mkTxState {[0 := demo_bucket]} (tx_freelist_new (demo_meta 5) freelist_new) (tracker_new true).
Definition handle : Bucket := mkBucket 0 true [[Byte.x72]].
Definition entries : gmap bytes Leaf := leaf_map (demo_leaves ++ demo_right).

Lemma state_holds : tx_holds 9 state handle entries.
Proof.
  exists demo_bucket, 1%nat, (demo_leaves ++ demo_right), [2; 3; 4].
  split; [reflexivity|]. split; [reflexivity|]. split; [exact demo_bucket_wf|]. split; [lia|reflexivity].
Qed.

Lemma state_iterable : tx_iterable 9 state handle entries.
Proof.
  exists demo_bucket, 1%nat, (demo_leaves ++ demo_right), [2; 3; 4].
  split; [reflexivity|]. split; [exact demo_bucket_wf|]. split; [lia|]. split; [left; exact demo_bucket_full|].
  split; [reflexivity|]. apply Z.leb_le. vm_compute. reflexivity.
Qed.

End Demo.

Lemma bulk_delete_exact_witness :
  ∃ s', map_clear (H0 := tx_store 9) 9 Demo.handle Demo.state = Ok (size (filter (victim (λ _, true)) Demo.entries), s') ∧
    tx_holds 9 s' Demo.handle (filter (λ kl, ¬ victim (λ _, true) kl) Demo.entries).
Proof.
  destruct (bulk_delete_exact (H0 := tx_store 9) (BucketLaws0 := tx_laws 9) 9 Demo.handle Demo.entries Demo.state [] [] []
    eq_refl Demo.state_holds Demo.state_iterable ltac:(vm_compute; lia)) as [(s' & H1 & H2 & _) _].
  exists s'. exact (conj H1 H2).
Defined.

Lemma atomic_methods_exact_witness :
  ∃ s', compare_exchange 9 Demo.handle [Byte.x6d] (Some [Byte.x07]) [Byte.x08] Demo.state =
          Ok (mkAtomic true (Some [Byte.x07]) (Some [Byte.x08]), s') ∧
        tx_holds 9 s' Demo.handle (<[[Byte.x6d] := LKv [Byte.x6d] [Byte.x08]]> Demo.entries).
Proof.
  exact (proj1 (proj2 (atomic_methods_exact 9 Demo.handle Demo.entries [Byte.x6d] [Byte.x08] [] (Some [Byte.x07]) Demo.state Demo.state_holds))).
Defined.
