(* ===== verification/Check.v ===== *)
(** * The integrity check: [TxInner::check] of [src/src/api/tx.rs]

    Every page from 2 to the end of the file must be used exactly once: as part of
    a block reachable from the root bucket or the freelist page, or as an entry of
    the freelist.  The set of unused pages is a finite set; the order in which the
    message lists what is left over is not modelled. *)

From S2P Require Import Prelude Search Support Layout Meta Freelist Node Page PageNode Inner Spill Buckets.

Section check.
Context `{D : Digest} (data : bytes) (pagesize_ : Z) (m : Meta).

(** Remove pages from the unused ones; the message names the first that is missing. *)
Fixpoint take_pages (unused : gset PageID) (ids : list PageID) (why : PageID → string) : res (gset PageID) :=
  match ids with
  | [] => Ok unused
  | id :: ids =>
      _ ← fail_if (negb (bool_decide (id ∈ unused))) (InvalidDB (why id));
      take_pages (unused ∖ {[id]}) ids why
  end.

(** [if let Some(last) = last && last >= key] over the keys of a page. *)
Fixpoint keys_ascend (last : option bytes) (keys : list bytes) (e : Error) : res unit :=
  match keys with
  | [] => Ok ()
  | key :: keys =>
      _ ← fail_if (match last with Some l => negb (lex_ltb l key) | None => false end) e;
      keys_ascend (Some key) keys e
  end.

(** The leaf elements in turn: node type, nested bucket, order. *)
Fixpoint check_leaves (page_id : PageID) (index : nat) (last : option bytes) (els : list LeafElement) : res (list PageID) :=
  match els with
  | [] => Ok []
  | e :: els =>
      roots ← (if le_node_type e =? TYPE_BUCKET then Ok [root_page (bucket_meta_of_bytes (leaf_element_value data e))]
               else if le_node_type e =? TYPE_DATA then Ok []
               else Err (InvalidDB ("Page " +:+ dec page_id +:+ " index " +:+ dec (Z.of_nat index) +:+
                           " has an invalid leaf node type " +:+ dec (le_node_type e))));
      let key := leaf_element_key data e in
      _ ← fail_if (match last with Some l => negb (lex_ltb l key) | None => false end)
            (InvalidDB ("Leaf page " +:+ dec page_id +:+ " contains unsorted elements"));
      rest ← check_leaves page_id (S index) (Some key) els;
      Ok (roots ++ rest)
  end.

(** The elements of a page: the pages it leads to, and for the freelist page the
    pages it lists. *)
Definition check_page (page_id : PageID) (p : nat) : res (list PageID * list PageID) :=
  let t := page_type_at data p in
  if t =? TYPE_BRANCH then
    els ← branch_elements data p;
    _ ← keys_ascend None (branch_element_key data <$> (els : list BranchElement))
          (InvalidDB ("Branch page " +:+ dec page_id +:+ " contains unsorted elements"));
    Ok (be_page <$> (els : list BranchElement), [])
  else if t =? TYPE_LEAF then
    els ← leaf_elements data p;
    roots ← check_leaves page_id 0 None els;
    Ok (roots, [])
  else if t =? TYPE_FREELIST then
    _ ← fail_if (negb (page_id =? freelist_page m)) (InvalidDB ("Found Invalid Freelist Page " +:+ dec page_id));
    entries ← retired_pages data p;
    _ ← (match list_find (λ e, tx_id m < retired_tx_id e) (entries : list RetiredPage) with
         | Some (_, e) => Err (InvalidDB ("Page " +:+ dec (Freelist.page_id e) +:+ " has future retirement transaction " +:+ dec (retired_tx_id e)))
         | None => Ok ()
         end);
    Ok ([], Freelist.page_id <$> (entries : list RetiredPage))
  else Err (InvalidDB ("Invalid page type " +:+ dec t +:+ " for page " +:+ dec page_id)).

(** The loop over the stack, whose top is the head of the list. *)
Fixpoint check_loop (fuel : nat) (unused : gset PageID) (stack : list PageID) : res (gset PageID) :=
  match fuel with
  | O => Panic NOFUEL
  | S fuel =>
      match stack with
      | [] => Ok unused
      | page_id :: stack =>
          unused ← take_pages unused [page_id] (λ id, "Page " +:+ dec id +:+ " missing from unused_pages");
          p ← validate_block data page_id pagesize_;
          unused ← take_pages unused (seqZ (page_id + 1) (page_overflow_at data p))
                     (λ id, "Overflow Page " +:+ dec id +:+ " from missing from unused_pages");
          '(pointers, listed) ← check_page page_id p;
          unused ← take_pages unused listed (λ id, "Page " +:+ dec id +:+ " from freelist missing from unused_pages");
          check_loop fuel unused (rev pointers ++ stack)
      end
  end.

Definition check (fuel : nat) : res unit :=
  unused ← check_loop fuel (list_to_set (seqZ 2 (num_pages m - 2))) [freelist_page m; root_page (root m)];
  fail_if (negb (bool_decide (unused = ∅))) (InvalidDB "Unreachable pages").

(** ** What the check decides *)

(** The pages on disk reachable from a list of pages form a forest, every page of
    it validates and is in order; [used] are its pages and those the freelist page
    lists. *)
Inductive sound_forest : list PageID → list PageID → Prop :=
  | sound_nil : sound_forest [] []
  | sound_cons id ids p pointers listed below beside :
      validate_block data id pagesize_ = Ok p → check_page id p = Ok (pointers, listed) →
      sound_forest pointers below → sound_forest ids beside →
      sound_forest (id :: ids) ((id :: seqZ (id + 1) (page_overflow_at data p) ++ listed) ++ below ++ beside).

Lemma take_pages_spec unused ids why unused' :
  take_pages unused ids why = Ok unused' ↔
  NoDup ids ∧ (∀ x, x ∈ ids → x ∈ unused) ∧ unused' = unused ∖ list_to_set ids.
Proof.
  revert unused. induction ids as [|id ids IH]; intros unused; cbn [take_pages].
  - split.
    + intros [= <-]. split; [constructor|]. split; [set_solver|]. set_solver.
    + intros (_ & _ & ->). f_equal. set_solver.
  - destruct (bool_decide (id ∈ unused)) eqn:E; cbn [negb fail_if mbind res_bind].
    + apply bool_decide_eq_true in E. rewrite IH, NoDup_cons. split.
      * intros (Hnd & Hin & ->). split_and!; [set_solver|done|set_solver|set_solver].
      * intros ((Hn & Hnd) & Hin & ->). split_and!; [done|set_solver|set_solver].
    + apply bool_decide_eq_false in E. split; [done|]. intros (_ & Hin & _). exfalso. apply E, Hin. by left.
Qed.

Lemma take_pages_app unused ids1 ids2 why1 why2 u1 u2 :
  take_pages unused ids1 why1 = Ok u1 → take_pages u1 ids2 why2 = Ok u2 → take_pages unused (ids1 ++ ids2) why1 = Ok u2.
Proof.
  rewrite !take_pages_spec. intros (Hn1 & Hi1 & ->) (Hn2 & Hi2 & ->). rewrite NoDup_app. split_and!; try done; set_solver.
Qed.

Lemma take_pages_perm unused ids ids' why u : ids ≡ₚ ids' → take_pages unused ids why = Ok u → take_pages unused ids' why = Ok u.
Proof.
  intros Hp. rewrite !take_pages_spec. intros (Hn & Hi & ->). split_and!; [by rewrite <-Hp|intros x; rewrite <-Hp; auto|].
  apply set_eq. intros x. rewrite !elem_of_difference, !elem_of_list_to_set. by rewrite Hp.
Qed.

Lemma sound_forest_app ids1 ids2 u1 u2 : sound_forest ids1 u1 → sound_forest ids2 u2 → sound_forest (ids1 ++ ids2) (u1 ++ u2).
Proof.
  intros H1 H2. induction H1 as [|id ids p ptrs listed below beside Hp Hc Hb _ _ IH]; [done|].
  change ((id :: ids) ++ ids2) with (id :: (ids ++ ids2)).
  rewrite <-(app_assoc (id :: _)), <-(app_assoc below). by eapply sound_cons.
Qed.

Lemma sound_forest_split ids1 ids2 u :
  sound_forest (ids1 ++ ids2) u → ∃ u1 u2, u = u1 ++ u2 ∧ sound_forest ids1 u1 ∧ sound_forest ids2 u2.
Proof.
  revert u. induction ids1 as [|id ids1 IH]; intros u Hf; [exists [], u; split_and!; [done|constructor|done]|].
  cbn [app] in Hf. inversion Hf as [|? ? p ptrs listed below beside Hp Hc Hb Hs]; subst.
  destruct (IH _ Hs) as (u1 & u2 & -> & Hf1 & Hf2).
  exists ((id :: seqZ (id + 1) (page_overflow_at data p) ++ listed) ++ below ++ u1), u2.
  split; [by rewrite <-(app_assoc (id :: _)), <-(app_assoc below)|]. split; [by eapply sound_cons|done].
Qed.

Lemma sound_forest_perm ids ids' u : ids ≡ₚ ids' → sound_forest ids u → ∃ u', sound_forest ids' u' ∧ u ≡ₚ u'.
Proof.
  intros Hp. revert u. induction Hp as [|x l l' _ IH|x y l|l1 l2 l3 _ IH1 _ IH2]; intros u Hf.
  - by exists u.
  - inversion Hf as [|? ? p ptrs listed below beside Hn Hc Hb Hs]; subst. destruct (IH _ Hs) as (u' & Hf' & Hperm).
    eexists. split; [exact (sound_cons _ _ _ _ _ _ _ Hn Hc Hb Hf')|]. by rewrite Hperm.
  - inversion Hf as [|? ? p ptrs listed below beside Hn Hc Hb Hs]; subst.
    inversion Hs as [|? ? p' ptrs' listed' below' beside' Hn' Hc' Hb' Hs']; subst.
    eexists. split; [exact (sound_cons _ _ _ _ _ _ _ Hn' Hc' Hb' (sound_cons _ _ _ _ _ _ _ Hn Hc Hb Hs'))|]. solve_Permutation.
  - destruct (IH1 _ Hf) as (u' & Hf' & E1). destruct (IH2 _ Hf') as (u'' & Hf'' & E2). exists u''. by rewrite E1, E2.
Qed.

Let why0 (id : PageID) : string := "".

Lemma take_pages_why unused ids why u : take_pages unused ids why = Ok u ↔ take_pages unused ids why0 = Ok u.
Proof. by rewrite !take_pages_spec. Qed.

Lemma take_pages_split unused ids1 ids2 why u :
  take_pages unused (ids1 ++ ids2) why = Ok u → ∃ u1, take_pages unused ids1 why = Ok u1 ∧ take_pages u1 ids2 why = Ok u.
Proof.
  setoid_rewrite take_pages_spec. intros (Hnd & Hin & ->). apply NoDup_app in Hnd as (H1 & Hd & H2).
  eexists. split; [split_and!; [done|set_solver|done]|]. split_and!; [done|set_solver|set_solver].
Qed.

Lemma check_loop_sound fuel unused stack u :
  check_loop fuel unused stack = Ok u → ∃ used, sound_forest stack used ∧ take_pages unused used why0 = Ok u.
Proof.
  revert unused stack. induction fuel as [|fuel IH]; intros unused stack Hc; [done|]. cbn [check_loop] in Hc.
  destruct stack as [|id stack]; [injection Hc as <-; exists []; by split; [constructor|]|].
  destruct (take_pages unused [id] _) as [u1| |] eqn:E1 in Hc; [|done..]. cbn [mbind res_bind] in Hc.
  destruct (validate_block data id pagesize_) as [p| |] eqn:Ep; [|done..]. cbn [mbind res_bind] in Hc.
  destruct (take_pages u1 _ _) as [u2| |] eqn:E2 in Hc; [|done..]. cbn [mbind res_bind] in Hc.
  destruct (check_page id p) as [[ptrs listed]| |] eqn:Ec; [|done..]. cbn [mbind res_bind] in Hc.
  destruct (take_pages u2 _ _) as [u3| |] eqn:E3 in Hc; [|done..]. cbn [mbind res_bind] in Hc.
  destruct (IH _ _ Hc) as (used & Hf & Ht). destruct (sound_forest_split _ _ _ Hf) as (below & beside & -> & Hb & Hs).
  destruct (sound_forest_perm (rev ptrs) ptrs below) as (below' & Hb' & Eb); [symmetry; apply Permutation_rev|done|].
  exists ((id :: seqZ (id + 1) (page_overflow_at data p) ++ listed) ++ below' ++ beside). split; [by eapply sound_cons|].
  apply (take_pages_perm _ (([id] ++ seqZ (id + 1) (page_overflow_at data p) ++ listed) ++ below ++ beside)); [by rewrite Eb|].
  apply take_pages_why in E1, E2, E3. eapply take_pages_app; [|exact Ht]. eapply take_pages_app; [exact E1|]. by eapply take_pages_app.
Qed.

Lemma check_loop_complete fuel unused stack used u :
  sound_forest stack used → take_pages unused used why0 = Ok u → (length used < fuel)%nat → check_loop fuel unused stack = Ok u.
Proof.
  revert unused stack used. induction fuel as [|fuel IH]; intros unused stack used Hf Ht Hl; [lia|]. cbn [check_loop].
  inversion Hf as [|id ids p ptrs listed below beside Hp Hc Hb Hs]; subst; [exact Ht|].
  destruct (sound_forest_perm ptrs (rev ptrs) below) as (below' & Hb' & Eb); [apply Permutation_rev|done|].
  destruct (take_pages_split _ _ _ _ _ Ht) as (u3 & Hhere & Hrest).
  change (id :: seqZ (id + 1) (page_overflow_at data p) ++ listed) with ([id] ++ seqZ (id + 1) (page_overflow_at data p) ++ listed) in Hhere.
  destruct (take_pages_split _ _ _ _ _ Hhere) as (u1 & H1 & H23). destruct (take_pages_split _ _ _ _ _ H23) as (u2 & H2 & H3).
  rewrite (proj2 (take_pages_why _ _ _ _) H1). cbn [mbind res_bind]. rewrite Hp. cbn [mbind res_bind].
  rewrite (proj2 (take_pages_why _ _ _ _) H2). cbn [mbind res_bind]. rewrite Hc. cbn [mbind res_bind].
  rewrite (proj2 (take_pages_why _ _ _ _) H3). cbn [mbind res_bind].
  apply (IH _ _ (below' ++ beside)); [by apply sound_forest_app| |].
  - eapply take_pages_perm; [|exact Hrest]. by rewrite Eb.
  - apply Permutation_length in Eb. cbn in Hl. rewrite !length_app in Hl. rewrite length_app. lia.
Qed.


End check.
