(* ===== verification/Typed.v ===== *)
(** * Typed buckets: [TypedBucket] of [src/src/typed/mod.rs]

    A typed view of a raw bucket: keys and values go through the codecs of
    [Codecs], the bytes through the operations of [Store].  The operations that
    write give the state back beside the result, since a value that was there
    before and does not decode is reported after the write was done. *)

From S2P Require Import Prelude Search Support Layout Meta Freelist Node Page PageNode Inner Spill Buckets Cursor Changes Codecs Handle Store MapApi.

Section typed.
Context {St H K V : Type} `{BucketStore St H} {KC : KeyCodec K} {VC : ValueCodec V}.

(** [.map(|pair| self.codec.decode_value(pair.value())).transpose()] *)
Definition decode_previous (previous : option (bytes * bytes)) : cres (option V) :=
  match previous with
  | Some (_, value) => v ← decode_value value; COk (Some v)
  | None => COk None
  end.

Definition typed_get (h : H) (key : K) (s : St) : cres (option V) :=
  key ← encode_key key;
  previous ← from_storage (s_get_kv h key s);
  decode_previous previous.

Definition typed_put (h : H) (key : K) (value : V) (s : St) : cres (option V) * St :=
  match (key ← encode_key key; value ← encode_value value; from_storage (s_put h key value s)) with
  | COk (previous, s') => (decode_previous previous, s')
  | CErr e => (CErr e, s)
  | CPanic w => (CPanic w, s)
  end.

Definition typed_delete (h : H) (key : K) (s : St) : cres V * St :=
  match (key ← encode_key key; from_storage (s_delete h key s)) with
  | COk (_, previous, s') => (decode_value previous, s')
  | CErr e => (CErr e, s)
  | CPanic w => (CPanic w, s)
  end.

(** The closure of the iterators, and [collect] into a [Result]. *)
Fixpoint decode_pairs (ps : list (bytes * bytes)) : cres (list (K * V)) :=
  match ps with
  | [] => COk []
  | (k, v) :: ps =>
      key ← decode_key k;
      value ← decode_value v;
      rest ← decode_pairs ps;
      COk ((key, value) :: rest)
  end.

Definition typed_entries (n : nat) (h : H) (s : St) : cres (list (K * V)) :=
  ps ← from_storage (s_pairs n h s);
  decode_pairs ps.

Definition typed_range_inclusive (n : nat) (h : H) (start end_ : K) (s : St) : cres (list (K * V)) :=
  if negb ORDER_PRESERVING then CErr OrderingRequired
  else
    start ← encode_key start;
    end_ ← encode_key end_;
    ds ← from_storage (s_range n h (Included start) (Included end_) s);
    decode_pairs (omap kv_of_data ds).

(** ** The typed map a bucket stands for *)

(** Every pair of the bucket was written through the codecs. *)
Definition all_typed (m : gmap bytes Leaf) : Prop :=
  ∀ k v, m !! k = Some (LKv k v) → ∃ key value, decode_key k = COk key ∧ decode_value v = COk value.

Definition view (m : gmap bytes Leaf) (key : K) : option V :=
  match encode_key key with
  | COk k => match m !! k with
      | Some (LKv _ v) => match decode_value v with COk value => Some value | _ => None end
      | _ => None
      end
  | _ => None
  end.

(** The key names a nested bucket. *)
Definition names_bucket (m : gmap bytes Leaf) (key : K) : bool :=
  match encode_key key with
  | COk k => match m !! k with Some (LBucket _ _) => true | _ => false end
  | _ => false
  end.

Context `{!BucketLaws St H} {validK : K → Prop} {cmp : K → K → comparison} {validV : V → Prop}.
Context `{!LawfulKey KC validK cmp} `{!LawfulValue VC validV}.

(** [m'] is [m] with the value at [key] replaced. *)
Definition view_updated (m m' : gmap bytes Leaf) (key : K) (o : option V) : Prop :=
  all_typed m' ∧ view m' key = o ∧ ∀ key', validK key' → key' ≠ key → view m' key' = view m key'.

Lemma encode_inj key key' k : validK key → validK key' → encode_key key = COk k → encode_key key' = COk k → key = key'.
Proof.
  intros Hv Hv' He He'. destruct (key_roundtrip key Hv) as (b & E & D). destruct (key_roundtrip key' Hv') as (b' & E' & D'). congruence.
Qed.

Lemma view_insert m key value k v :
  all_typed m → validK key → validV value → encode_key key = COk k → encode_value value = COk v →
  view_updated m (<[k := LKv k v]> m) key (Some value).
Proof.
  intros Ht Hk Hv Ek Ev. destruct (key_roundtrip key Hk) as (k2 & Ek2 & Dk). rewrite Ek in Ek2. injection Ek2 as <-.
  destruct (value_roundtrip value Hv) as (v2 & Ev2 & Dv). rewrite Ev in Ev2. injection Ev2 as <-. split_and!.
  - intros k' v' [[<- E]|[_ E]]%lookup_insert_Some; [simplify_eq|]; eauto.
  - unfold view. by rewrite Ek, lookup_insert_eq, Dv.
  - intros key' Hk' Hne. unfold view. destruct (key_roundtrip key' Hk') as (k' & Ek' & _). rewrite Ek'.
    rewrite lookup_insert_ne; [done|]. intros <-. by apply Hne, (encode_inj _ _ k).
Qed.

Lemma view_delete m key k :
  all_typed m → validK key → encode_key key = COk k → view_updated m (delete k m) key None.
Proof.
  intros Ht Hk Ek. split_and!.
  - intros k' v' [_ E]%lookup_delete_Some. eauto.
  - unfold view. by rewrite Ek, lookup_delete_eq.
  - intros key' Hk' Hne. unfold view. destruct (key_roundtrip key' Hk') as (k' & Ek' & _). rewrite Ek'.
    rewrite lookup_delete_ne; [done|]. intros <-. by apply Hne, (encode_inj _ _ k).
Qed.

Lemma decode_previous_view m key k :
  all_typed m → (∀ l, m !! k = Some l → leaf_key l = k) → encode_key key = COk k → decode_previous (m !! k ≫= kv_of_leaf) = COk (view m key).
Proof.
  intros Ht Hk E. unfold view. rewrite E. destruct (m !! k) as [[nm mt|k' v]|] eqn:El; [done| |done].
  cbn. specialize (Hk _ eq_refl). cbn in Hk. subst k'. destruct (Ht k v El) as (? & x & _ & ->). done.
Qed.

(** A typed bucket is a map of typed keys to typed values.  Over any store that
    keeps the laws, with lawful codecs and a bucket whose pairs are all typed: [get]
    reads the typed map; [put] gives back the value that was there and updates the
    map at that key only; [delete] gives back the value and removes it, or reports
    that there is none, or that the key names a bucket.  A bucket stays typed, and a
    handle of a read-only transaction writes nothing. *)
Theorem typed_bucket_refines_map (s : St) (h : H) (m : gmap bytes Leaf) (key : K) :
  holds s h m → all_typed m → validK key →
  typed_get h key s = COk (view m key) ∧
  (∀ value, validV value →
    if negb (writable h) then typed_put h key value s = (CErr (Storage ReadOnlyTx), s)
    else if names_bucket m key then typed_put h key value s = (CErr (Storage IncompatibleValue), s)
    else ∃ s' m', typed_put h key value s = (COk (view m key), s') ∧ holds s' h m' ∧ view_updated m m' key (Some value)) ∧
  if negb (writable h) then typed_delete h key s = (CErr (Storage ReadOnlyTx), s)
  else match view m key with
  | Some value => ∃ s' m', typed_delete h key s = (COk value, s') ∧ holds s' h m' ∧ view_updated m m' key None
  | None => typed_delete h key s = (CErr (Storage (if names_bucket m key then IncompatibleValue else KeyValueMissing)), s)
  end.
Proof.
  intros Hh Ht Hk. destruct (key_roundtrip key Hk) as (k & Ek & _).
  pose proof (λ l, keyed_law s h m k l Hh) as Hkey. pose proof (decode_previous_view m key k Ht Hkey Ek) as Hprev. split_and!.
  - unfold typed_get. rewrite Ek. cbn [mbind cres_bind]. by rewrite (get_kv_law s h m k Hh).
  - intros value Hv. destruct (value_roundtrip value Hv) as (v & Ev & _). unfold typed_put, names_bucket. rewrite Ek, Ev.
    cbn [mbind cres_bind]. pose proof (put_law s h m k v Hh) as Hp. destruct (writable h); cbn [negb]; [|by rewrite Hp].
    destruct (m !! k) as [[nm mt|k' v']|] eqn:El; [by rewrite Hp| |]; destruct Hp as (s' & -> & Hh' & _);
      exists s', (<[k := LKv k v]> m); (split_and!; [|done|by apply view_insert]); cbn [from_storage]; by rewrite Hprev.
  - unfold typed_delete, names_bucket, view in *. rewrite Ek in *. cbn [mbind cres_bind]. pose proof (delete_law s h m k Hh) as Hp.
    destruct (writable h); cbn [negb]; [|by rewrite Hp]. destruct (m !! k) as [[nm mt|k' v']|] eqn:El; [by rewrite Hp| |by rewrite Hp].
    specialize (Hkey _ eq_refl). cbn in Hkey. subst k'. destruct (Ht k v' El) as (? & x & _ & Dv). rewrite Dv.
    destruct Hp as (s' & -> & Hh' & _). exists s', (delete k m). split_and!; [by cbn; rewrite Dv|done|by apply view_delete].
Qed.

(** ** Iteration *)

Lemma decode_pairs_typed m ps :
  all_typed m → lists_pairs m ps →
  ∃ l, decode_pairs ps = COk l ∧ Forall2 (λ p q, decode_key p.1 = COk q.1 ∧ decode_value p.2 = COk q.2) ps l.
Proof.
  intros Ht [_ Hin]. assert (∀ k v, (k, v) ∈ ps → m !! k = Some (LKv k v)) as Hps by (intros; by apply Hin). clear Hin.
  induction ps as [|[k v] ps IH]; [by exists []|]. destruct (Ht k v) as (key & value & Dk & Dv); [apply Hps; left|].
  destruct IH as (l & El & Hl); [intros; apply Hps; by right|]. exists ((key, value) :: l). cbn [decode_pairs]. rewrite Dk. cbn [mbind cres_bind].
  rewrite Dv. cbn [mbind cres_bind]. rewrite El. by repeat constructor.
Qed.

Lemma view_Some m key value :
  (∀ k l, m !! k = Some l → leaf_key l = k) →
  view m key = Some value ↔ ∃ k v, encode_key key = COk k ∧ decode_value v = COk value ∧ m !! k = Some (LKv k v).
Proof.
  intros Hkey. unfold view. split.
  - destruct (encode_key key) as [k| |]; [|done..]. destruct (m !! k) as [[nm mt|k' v]|] eqn:El; [done| |done].
    destruct (decode_value v) as [x| |] eqn:Dv; [|done..]. intros [= ->]. pose proof (Hkey _ _ El) as E. cbn in E. subst k'. eauto.
  - by intros (k & v & -> & Dv & ->); rewrite Dv.
Qed.

(** The typed entries of the map, in the order of the keys. *)
Definition lists_view (m : gmap bytes Leaf) (l : list (K * V)) : Prop :=
  StronglySorted (λ p q, cmp p.1 q.1 = Lt) l ∧ ∀ key value, (key, value) ∈ l ↔ validK key ∧ view m key = Some value.

Lemma decode_pairs_view m ps :
  ORDER_PRESERVING = true → all_typed m → (∀ k l, m !! k = Some l → leaf_key l = k) → lists_pairs m ps →
  ∃ l, decode_pairs ps = COk l ∧ lists_view m l.
Proof.
  intros Ho Ht Hkey Hl. destruct (decode_pairs_typed m ps Ht Hl) as (l & El & H2). exists l. split; [done|]. destruct Hl as [Hs Hin]. split.
  - clear El Hin. induction H2 as [|[k v] [key value] ps l [Dk Dv] H2 IH]; [constructor|]. cbn in Dk, Dv. apply keys_sorted_cons in Hs as [Hlt Hs].
    constructor; [by apply IH|]. apply Forall_forall. intros [key' value'] (i & Hi)%list_elem_of_lookup.
    destruct (Forall2_lookup_r _ _ _ _ _ H2 Hi) as ([k' v'] & Hi' & Dk' & _). cbn in *.
    apply key_canonical in Dk as [Hk Ek]. apply key_canonical in Dk' as [Hk' Ek']. rewrite <-(key_order key key' k k') by done.
    apply (Hlt (k', v')). by eapply list_elem_of_lookup_2.
  - intros key value. rewrite view_Some by done. split.
    + intros (i & Hi)%list_elem_of_lookup. destruct (Forall2_lookup_r _ _ _ _ _ H2 Hi) as ([k v] & Hi' & Dk & Dv). cbn in *.
      apply key_canonical in Dk as [Hk Ek]. split; [done|]. exists k, v. split_and!; try done. apply Hin. by eapply list_elem_of_lookup_2.
    + intros (Hk & k & v & Ek & Dv & (i & Hi)%Hin%list_elem_of_lookup).
      destruct (Forall2_lookup_l _ _ _ _ _ H2 Hi) as ([key' value'] & Hi' & Dk' & Dv'). cbn in *.
      destruct (key_roundtrip key Hk) as (k2 & Ek2 & Dk2). assert (k2 = k) as -> by congruence. assert (key' = key) as -> by congruence. assert (value' = value) as -> by congruence. by eapply list_elem_of_lookup_2.
Qed.

Lemma between_view m lo hi klo khi key value :
  ORDER_PRESERVING = true → (∀ k l, m !! k = Some l → leaf_key l = k) → validK lo → validK hi → validK key →
  encode_key lo = COk klo → encode_key hi = COk khi →
  view (between (Included klo) (Included khi) m) key = Some value ↔ view m key = Some value ∧ cmp key lo ≠ Lt ∧ cmp hi key ≠ Lt.
Proof.
  intros Ho Hkey Hlo Hhi Hk Elo Ehi. unfold between. rewrite !view_Some; [|done|by intros k l [? _]%map_lookup_filter_Some; eauto].
  setoid_rewrite map_lookup_filter_Some. cbn [fst in_start in_end]. destruct (key_roundtrip key Hk) as (k & Ek & _).
  assert (lex_cmp k klo = cmp key lo) as <- by by apply key_order. assert (lex_cmp khi k = cmp hi key) as <- by by apply key_order.
  unfold lex_ltb. split.
  - intros (k' & v & E' & Dv & Em & Hb). rewrite Ek in E'. injection E' as <-. split; [by exists k, v|].
    by destruct (lex_cmp k klo), (lex_cmp khi k).
  - intros [(k' & v & E' & Dv & Em) [H1 H2]]. rewrite Ek in E'. injection E' as <-. exists k, v.
    split_and!; try done; by destruct (lex_cmp k klo), (lex_cmp khi k).
Qed.

(** Typed iteration is exact and ordered.  With an order-preserving codec, on a
    bucket that can be iterated, [entries] gives every typed entry once, in the
    order of the keys, and [range_inclusive] those whose key is between the bounds;
    nested buckets among the keys are passed over. *)
Theorem typed_iteration_exact (n : nat) (s : St) (h : H) (m : gmap bytes Leaf) (lo hi : K) :
  ORDER_PRESERVING = true → holds s h m → iterable s h m → (size m < n)%nat → all_typed m → validK lo → validK hi →
  (∃ l, typed_entries n h s = COk l ∧ lists_view m l) ∧
  ∃ l, typed_range_inclusive n h lo hi s = COk l ∧ StronglySorted (λ p q, cmp p.1 q.1 = Lt) l ∧
    ∀ key value, (key, value) ∈ l ↔ validK key ∧ view m key = Some value ∧ cmp key lo ≠ Lt ∧ cmp hi key ≠ Lt.
Proof.
  intros Ho Hh Hi Hn Ht Hlo Hhi. pose proof (λ k l, keyed_law s h m k l Hh) as Hkey. split.
  - destruct (pairs_law n s h m Hh Hi Hn) as (ps & Eps & Hps). unfold typed_entries. rewrite Eps. cbn [from_storage mbind cres_bind].
    by apply decode_pairs_view.
  - destruct (key_roundtrip lo Hlo) as (klo & Elo & _), (key_roundtrip hi Hhi) as (khi & Ehi & _). unfold typed_range_inclusive.
    rewrite Ho, Elo, Ehi. cbn [negb mbind cres_bind]. destruct (range_law n s h m (Included klo) (Included khi) Hh Hi Hn) as (ds & -> & Hds); [done|].
    cbn [from_storage mbind cres_bind]. destruct (decode_pairs_view (between (Included klo) (Included khi) m) (omap kv_of_data ds)) as (l & -> & Hs & Hin).
    + done.
    + intros k v [? _]%map_lookup_filter_Some. eauto.
    + intros k l [? _]%map_lookup_filter_Some. eauto.
    + done.
    + exists l. split_and!; [done|done|]. intros key value. rewrite Hin. split; intros [Hk Hb]; (split; [done|]); by apply (between_view m lo hi klo khi).
Qed.

End typed.

(** ** Witnesses: the bucket of [Demo] with keys and values of plain bytes *)

Lemma bytes_all_typed m : all_typed (KC := BytesCodec) (VC := BytesValueCodec) m.
Proof. intros k v _. by exists k, v. Qed.

Lemma typed_bucket_refines_map_witness :
  typed_get (KC := BytesCodec) (VC := BytesValueCodec) (H0 := tx_store 9) Demo.handle [Byte.x6d] Demo.state = COk (Some [Byte.x07]) ∧
  (∃ s' m', typed_put (KC := BytesCodec) (VC := BytesValueCodec) (H0 := tx_store 9) Demo.handle [Byte.x6d] [Byte.x08] Demo.state =
      (COk (Some [Byte.x07]), s') ∧ tx_holds 9 s' Demo.handle m' ∧
      view (KC := BytesCodec) (VC := BytesValueCodec) m' [Byte.x6d] = Some [Byte.x08]) ∧
  ∃ s', typed_delete (KC := BytesCodec) (VC := BytesValueCodec) (H0 := tx_store 9) Demo.handle [Byte.x6d] Demo.state = (COk [Byte.x07], s').
Proof.
  destruct (typed_bucket_refines_map (KC := BytesCodec) (VC := BytesValueCodec) (H0 := tx_store 9) (BucketLaws0 := tx_laws 9)
    Demo.state Demo.handle Demo.entries [Byte.x6d] Demo.state_holds (bytes_all_typed _) I) as (Hg & Hp & Hd).
  split; [exact Hg|]. split.
  - destruct (Hp [Byte.x08] I) as (s' & m' & E & Hh & _ & Hv & _). exists s', m'. exact (conj E (conj Hh Hv)).
  - destruct Hd as (s' & m' & E & _). exists s'. exact E.
Defined.

Lemma typed_iteration_exact_witness :
  ∃ l, typed_range_inclusive (KC := BytesCodec) (VC := BytesValueCodec) (H0 := tx_store 9) 9 Demo.handle [Byte.x62] [Byte.x6d] Demo.state = COk l ∧
    ([Byte.x6d], [Byte.x07]) ∈ l.
Proof.
  destruct (typed_iteration_exact (KC := BytesCodec) (VC := BytesValueCodec) (H0 := tx_store 9) (BucketLaws0 := tx_laws 9)
    9 Demo.state Demo.handle Demo.entries [Byte.x62] [Byte.x6d] eq_refl Demo.state_holds Demo.state_iterable ltac:(vm_compute; lia)
    (bytes_all_typed _) I I) as [_ (l & E & _ & Hin)].
  exists l. split; [exact E|]. apply Hin. split; [exact I|]. split; [vm_compute; reflexivity|]. split; intros C; vm_compute in C; discriminate C.
Defined.
