(* ===== verification/Nested.v ===== *)
(** * What a bucket promises about the buckets in it

    The code above the buckets (expiry, collections) keeps data of its own in
    buckets nested in the user's bucket.  [NestedStore] names the operations it
    uses, [NestedLaws] what it relies on: a handle owns a map of entries and, by
    name, the maps of some of its nested buckets; opening gives a handle of the
    nested bucket, and a change to one of them leaves the others alone.  The
    handles of [Handle] are an instance. *)

From S2P Require Import Prelude Search Support Layout Meta Freelist Node Page PageNode Inner Spill Buckets Cursor Changes Handle Store.

Class NestedStore (St H : Type) := {
  s_writable : H → bool;
  s_get_bucket : H → bytes → St → res (H * St);
  s_create_bucket : H → bytes → St → res (H * St);
  s_get_or_create_bucket : H → bytes → St → res (H * St);
  s_expire : H → bytes → St → res St
}.

Class NestedView (St H : Type) := {
  owns : St → H → gmap bytes Leaf → gmap bytes (gmap bytes Leaf) → Prop;
  opens : St → H → bytes → H → Prop;
  child_full : St → H → bytes → gmap bytes Leaf → Prop
}.

(** Open buckets stay open, and the buckets other than [but] stay as full as they were. *)
Definition keeps `{NestedView St H} (but : option bytes) (h : H) (s s' : St) : Prop :=
  (∀ n c, opens s h n c → opens s' h n c) ∧ ∀ n mc, but ≠ Some n → child_full s h n mc → child_full s' h n mc.

Lemma keeps_trans `{NestedView St H} but (h : H) (s1 s2 s3 : St) : keeps but h s1 s2 → keeps but h s2 s3 → keeps but h s1 s3.
Proof. intros [A1 A2] [B1 B2]. split; intros; eauto. Qed.

Class NestedLaws (St H : Type) `{BucketLaws St H} `{NestedStore St H} `{NestedView St H} := {
  writable_law h : s_writable h = writable h;
  owns_holds s h m cs : owns s h m cs → holds s h m;
  owns_bucket s h m cs n mc : owns s h m cs → cs !! n = Some mc → ∃ meta, m !! n = Some (LBucket n meta);
  owns_fewer s h m cs cs' : owns s h m cs → cs' ⊆ cs → owns s h m cs';
  opens_holds s h m cs n c mc : owns s h m cs → opens s h n c → cs !! n = Some mc → holds s c mc ∧ writable c = writable h;
  opens_full s h m cs n c mc : owns s h m cs → opens s h n c → child_full s h n mc → iterable s c mc;
  get_bucket_law s h m cs n : owns s h m cs →
    match m !! n with
    | None => s_get_bucket h n s = Err BucketMissing
    | Some (LKv _ _) => s_get_bucket h n s = Err IncompatibleValue
    | Some (LBucket _ _) => is_Some (cs !! n) →
        ∃ c s', s_get_bucket h n s = Ok (c, s') ∧ owns s' h m cs ∧ opens s' h n c ∧ keeps None h s s'
    end;
  create_bucket_law s h m cs n : owns s h m cs → writable h = true → m !! n = None →
    ∃ c s', s_create_bucket h n s = Ok (c, s') ∧ owns s' h (<[n := LBucket n bucket_meta_default]> m) (<[n := ∅]> cs) ∧
      opens s' h n c ∧ child_full s' h n ∅ ∧ keeps None h s s';
  get_or_create_law s h m cs n : owns s h m cs → writable h = true →
    match m !! n with
    | None => ∃ c s', s_get_or_create_bucket h n s = Ok (c, s') ∧
        owns s' h (<[n := LBucket n bucket_meta_default]> m) (<[n := ∅]> cs) ∧ opens s' h n c ∧ keeps None h s s'
    | Some (LKv _ _) => s_get_or_create_bucket h n s = Err IncompatibleValue
    | Some (LBucket _ _) => is_Some (cs !! n) →
        ∃ c s', s_get_or_create_bucket h n s = Ok (c, s') ∧ owns s' h m cs ∧ opens s' h n c ∧ keeps None h s s'
    end;
  put_own s h m cs k v o s' : owns s h m cs → s_put h k v s = Ok (o, s') →
    owns s' h (<[k := LKv k v]> m) cs ∧ keeps None h s s';
  delete_own s h m cs k o s' : owns s h m cs → s_delete h k s = Ok (o, s') → owns s' h (delete k m) cs ∧ keeps None h s s';
  expire_own s h m cs k : owns s h m cs →
    match m !! k with
    | Some (LBucket _ _) => s_expire h k s = Err IncompatibleValue
    | _ => ∃ s', s_expire h k s = Ok s' ∧ owns s' h (delete k m) cs ∧ keeps None h s s'
    end;
  put_child s h m cs n c mc k v o s' : owns s h m cs → opens s h n c → cs !! n = Some mc → s_put c k v s = Ok (o, s') →
    owns s' h m (<[n := <[k := LKv k v]> mc]> cs) ∧ keeps (Some n) h s s' ∧
    (child_full s h n mc → Z.of_nat (S (size mc)) <= u64_max → child_full s' h n (<[k := LKv k v]> mc));
  delete_child s h m cs n c mc k o s' : owns s h m cs → opens s h n c → cs !! n = Some mc → s_delete c k s = Ok (o, s') →
    owns s' h m (<[n := delete k mc]> cs) ∧ keeps (Some n) h s s'
}.

(** ** Consequences *)

Section laws.
Context `{NestedLaws St H}.
Implicit Types (s : St) (h c : H).

Lemma keeps_opens but h s s' n c : keeps but h s s' → opens s h n c → opens s' h n c.
Proof. intros [Hk _]. apply Hk. Qed.

Lemma keeps_full but h s s' n mc : keeps but h s s' → but ≠ Some n → child_full s h n mc → child_full s' h n mc.
Proof. intros [_ Hk]. apply Hk. Qed.

Lemma open_ok s h m cs n mc : owns s h m cs → cs !! n = Some mc →
  ∃ c s', s_get_bucket h n s = Ok (c, s') ∧ owns s' h m cs ∧ opens s' h n c ∧ keeps None h s s'.
Proof.
  intros Ho Hn. destruct (owns_bucket s h m cs n mc Ho Hn) as [meta Hm]. pose proof (get_bucket_law s h m cs n Ho) as Hg.
  rewrite Hm in Hg. apply Hg. by rewrite Hn.
Qed.

Lemma open_missing s h m cs n : owns s h m cs → m !! n = None → s_get_bucket h n s = Err BucketMissing.
Proof. intros Ho Hm. pose proof (get_bucket_law s h m cs n Ho) as Hg. by rewrite Hm in Hg. Qed.

(** The bucket is there, or its name is free. *)
Definition available (m : gmap bytes Leaf) (cs : gmap bytes (gmap bytes Leaf)) (n : bytes) : Prop :=
  is_Some (cs !! n) ∨ cs !! n = None ∧ m !! n = None.

Lemma get_or_create_ok s h m cs n : owns s h m cs → writable h = true → available m cs n →
  ∃ c s' m', s_get_or_create_bucket h n s = Ok (c, s') ∧ owns s' h m' (<[n := default ∅ (cs !! n)]> cs) ∧ opens s' h n c ∧ keeps None h s s' ∧
    (∃ meta, m' !! n = Some (LBucket n meta)) ∧ ∀ k, k ≠ n → m' !! k = m !! k.
Proof.
  intros Ho Hw Hav. pose proof (get_or_create_law s h m cs n Ho Hw) as Hg. destruct Hav as [[mc Hn]|[Hn Hm]].
  - destruct (owns_bucket s h m cs n mc Ho Hn) as [meta Hm]. rewrite Hm in Hg. destruct Hg as (c & s' & E & A1 & A2 & A3); [by rewrite Hn|].
    exists c, s', m. rewrite Hn. cbn. rewrite insert_id by done. split_and!; eauto.
  - rewrite Hm in Hg. destruct Hg as (c & s' & E & A1 & A2 & A3). exists c, s', (<[n := LBucket n bucket_meta_default]> m). rewrite Hn.
    split_and!; try done; [exists bucket_meta_default; apply lookup_insert_eq|]. intros k Hk. by apply lookup_insert_ne.
Qed.

Section child.
Context (s : St) (h : H) (m : gmap bytes Leaf) (cs : gmap bytes (gmap bytes Leaf)) (n : bytes) (c : H) (mc : gmap bytes Leaf).
Hypothesis (Ho : owns s h m cs) (Hop : opens s h n c) (Hn : cs !! n = Some mc).

Lemma child_get k : s_get_kv c k s = Ok (mc !! k ≫= kv_of_leaf).
Proof. apply get_kv_law, (opens_holds s h m cs n c mc); done. Qed.

Lemma child_put_ok k v : writable h = true → (∀ nm mt, mc !! k ≠ Some (LBucket nm mt)) →
  ∃ o s', s_put c k v s = Ok (o, s') ∧ owns s' h m (<[n := <[k := LKv k v]> mc]> cs) ∧ keeps (Some n) h s s' ∧
    (child_full s h n mc → Z.of_nat (S (size mc)) <= u64_max → child_full s' h n (<[k := LKv k v]> mc)).
Proof.
  intros Hw Hk. destruct (opens_holds s h m cs n c mc Ho Hop Hn) as [Hh Hwc]. pose proof (put_law s c mc k v Hh) as Hp. rewrite Hwc, Hw in Hp.
  assert (∃ o s', s_put c k v s = Ok (o, s')) as (o & s' & E).
  { destruct (mc !! k) as [[nm mt|]|]; [by destruct (Hk nm mt)|..]; destruct Hp as (s' & ? & _); eauto. }
  exists o, s'. split; [done|]. by eapply put_child.
Qed.

Lemma child_delete_ok k : writable h = true →
  match mc !! k with
  | Some (LKv k' v) => ∃ s', s_delete c k s = Ok (k', v, s') ∧ owns s' h m (<[n := delete k mc]> cs) ∧ keeps (Some n) h s s'
  | Some (LBucket _ _) => s_delete c k s = Err IncompatibleValue
  | None => s_delete c k s = Err KeyValueMissing
  end.
Proof.
  intros Hw. destruct (opens_holds s h m cs n c mc Ho Hop Hn) as [Hh Hwc]. pose proof (delete_law s c mc k Hh) as Hp. rewrite Hwc, Hw in Hp.
  destruct (mc !! k) as [[nm mt|k' v]|]; [done| |done]. destruct Hp as (s' & E & _). exists s'. split; [done|]. by eapply delete_child.
Qed.

End child.

End laws.

(** ** The handles of a transaction *)

Section instance.
Context (fuel : nat).

(** Removing an expired value: the bucket's half of the loop of [purge_expired]. *)
Definition expire_value (h : Bucket) (key : bytes) (s : TxState) : res TxState :=
  b ← bucket_at (ts_buckets s) (bk_inner h);
  l ← inner_get fuel b key;
  match l with
  | Some (LKv _ _) =>
      '(_, _, b) ← inner_delete fuel b key;
      Ok (record_change (set_bucket s (bk_inner h) b) (bk_path h) key OpExpire)
  | Some (LBucket _ _) => Err IncompatibleValue
  | None => Ok s
  end.

#[local] Instance tx_nested : NestedStore TxState Bucket := {|
  s_writable := bk_writable;
  s_get_bucket := bucket_get_bucket fuel;
  s_create_bucket := bucket_create_bucket fuel;
  s_get_or_create_bucket := bucket_get_or_create_bucket fuel;
  s_expire := expire_value
|}.

(** The object of a nested bucket: the open one, or the one opening would make. *)
Definition child_of (s : TxState) (h : Bucket) (n : bytes) : option InnerBucket :=
  b ← ts_buckets s !! bk_inner h;
  match ib_buckets b !! n with
  | Some c => ts_buckets s !! c
  | None => match inner_get fuel b n with
      | Ok (Some (LBucket _ meta)) => Some (from_meta meta (ib_pages b))
      | _ => None
      end
  end.

(** Open buckets are objects of their own. *)
Record children_ok (st : Buckets) (r : BucketRef) (b : InnerBucket) (m : gmap bytes Leaf) : Prop := {
  ch_refs : refs_ok st;
  ch_open : ∀ n c, ib_buckets b !! n = Some c → c ≠ r ∧ is_Some (st !! c) ∧ ∃ meta, m !! n = Some (LBucket n meta);
  ch_inj : ∀ n n' c, ib_buckets b !! n = Some c → ib_buckets b !! n' = Some c → n = n'
}.

Definition tx_child (s : TxState) (h : Bucket) (n : bytes) (mc : gmap bytes Leaf) : Prop :=
  ∃ cb ht es ps, child_of s h n = Some cb ∧ ib_deleted cb = false ∧ bucket_wf cb ht es ps ∧ (ht < fuel)%nat ∧ leaf_map es = mc.

Definition tx_child_full (s : TxState) (h : Bucket) (n : bytes) (mc : gmap bytes Leaf) : Prop :=
  ∃ cb ht es ps, child_of s h n = Some cb ∧ bucket_wf cb ht es ps ∧ (ht < fuel)%nat ∧
    (leaves_full cb ps ∨ ht = O) ∧ leaf_map es = mc ∧ Z.of_nat (size mc) <= u64_max.

Definition tx_owns (s : TxState) (h : Bucket) (m : gmap bytes Leaf) (cs : gmap bytes (gmap bytes Leaf)) : Prop :=
  ∃ b ht es ps, ts_buckets s !! bk_inner h = Some b ∧ ib_deleted b = false ∧ bucket_wf b ht es ps ∧ (ht < fuel)%nat ∧ leaf_map es = m ∧
    children_ok (ts_buckets s) (bk_inner h) b m ∧
    ∀ n mc, cs !! n = Some mc → (∃ meta, m !! n = Some (LBucket n meta)) ∧ tx_child s h n mc.

Definition tx_opens (s : TxState) (h : Bucket) (n : bytes) (c : Bucket) : Prop :=
  bk_writable c = bk_writable h ∧ ∃ b, ts_buckets s !! bk_inner h = Some b ∧ ib_buckets b !! n = Some (bk_inner c).

#[local] Instance tx_view : NestedView TxState Bucket := {| owns := tx_owns; opens := tx_opens; child_full := tx_child_full |}.

(** Which nested buckets there are, and their objects, decide the rest. *)
Lemma tx_child_same s s' h n mc : child_of s' h n = child_of s h n → tx_child s h n mc → tx_child s' h n mc.
Proof. intros E (cb & ht & es & ps & Hc & Hr). exists cb, ht, es, ps. by rewrite E. Qed.

Lemma tx_child_full_same s s' h n mc : child_of s' h n = child_of s h n → tx_child_full s h n mc → tx_child_full s' h n mc.
Proof. intros E (cb & ht & es & ps & Hc & Hr). exists cb, ht, es, ps. by rewrite E. Qed.

Lemma child_of_lookup s h b ht es ps n :
  ts_buckets s !! bk_inner h = Some b → bucket_wf b ht es ps → (ht < fuel)%nat →
  child_of s h n = match ib_buckets b !! n with
    | Some c => ts_buckets s !! c
    | None => match leaf_map es !! n with Some (LBucket _ meta) => Some (from_meta meta (ib_pages b)) | _ => None end
    end.
Proof.
  intros Hb Hw Hf. unfold child_of. rewrite Hb. cbn. destruct (ib_buckets b !! n); [done|].
  rewrite (inner_get_assoc fuel b ht es ps n Hw Hf), leaf_map_assoc. by destruct (assoc leaf_key es n) as [[|]|].
Qed.

(** Only bucket entries matter to the nested buckets. *)
Definition same_buckets (m m' : gmap bytes Leaf) : Prop :=
  ∀ n, m' !! n = m !! n ∨ ((m' !! n) ≫= (λ l, if leaf_is_kv l then None else Some l)) = None ∧ ((m !! n) ≫= (λ l, if leaf_is_kv l then None else Some l)) = None.

(** A change to the bucket itself. *)
Lemma owns_self s h b ht es ps cs b' ht' es' ps' path key op :
  ts_buckets s !! bk_inner h = Some b → bucket_wf b ht es ps → (ht < fuel)%nat → children_ok (ts_buckets s) (bk_inner h) b (leaf_map es) →
  (∀ n mc, cs !! n = Some mc → (∃ meta, leaf_map es !! n = Some (LBucket n meta)) ∧ tx_child s h n mc) →
  ib_deleted b' = false → ib_buckets b' = ib_buckets b → ib_pages b' = ib_pages b → bucket_wf b' ht' es' ps' → (ht' < fuel)%nat →
  same_buckets (leaf_map es) (leaf_map es') →
  let s' := record_change (set_bucket s (bk_inner h) b') path key op in
  tx_owns s' h (leaf_map es') cs ∧ keeps None h s s'.
Proof.
  intros Hb Hw Hf [Href Hopen Hinj] Hcs Hd' Ebk Epg Hw' Hf' Hsame s'.
  assert (ts_buckets s' !! bk_inner h = Some b') as Hb' by apply lookup_insert_eq.
  assert (∀ n meta, leaf_map es !! n = Some (LBucket n meta) → leaf_map es' !! n = Some (LBucket n meta)) as Hlb
    by (intros n meta E; destruct (Hsame n) as [->|[_ C]]; [done|by rewrite E in C]).
  assert (∀ n, child_of s' h n = child_of s h n) as Hch.
  { intros n. rewrite (child_of_lookup s' h b' ht' es' ps' n Hb' Hw' Hf'), (child_of_lookup s h b ht es ps n Hb Hw Hf), Ebk, Epg.
    destruct (ib_buckets b !! n) as [c|] eqn:Ec.
    - destruct (Hopen n c Ec) as (Hne & _). by apply lookup_insert_ne.
    - destruct (Hsame n) as [->|[C1 C2]]; [done|]. by destruct (leaf_map es' !! n) as [[|]|], (leaf_map es !! n) as [[|]|]. }
  split; [|split].
  - exists b', ht', es', ps'. split_and!; try done.
    + split; [apply refs_ok_update; [done|by rewrite Hb]|intros n c; rewrite Ebk|rewrite Ebk; apply Hinj]. intros Hc. destruct (Hopen n c Hc) as (? & ? & meta & ?).
      split_and!; [done|cbn; by rewrite lookup_insert_ne|eauto].
    + intros n mc Hn. destruct (Hcs n mc Hn) as [[meta Hm] Hc]. split; [eauto|]. by apply (tx_child_same s).
  - intros n c (Hwr & b0 & Hb0 & Hn). rewrite Hb in Hb0. injection Hb0 as <-. split; [done|]. exists b'. by rewrite Ebk.
  - intros n mc _. by apply tx_child_full_same.
Qed.

(** A change to an open nested bucket. *)
Lemma owns_child s h m cs n c mc cb' ht' es' ps' path key op :
  tx_owns s h m cs → tx_opens s h n c → cs !! n = Some mc →
  ib_deleted cb' = false → bucket_wf cb' ht' es' ps' → (ht' < fuel)%nat →
  let s' := record_change (set_bucket s (bk_inner c) cb') path key op in
  tx_owns s' h m (<[n := leaf_map es']> cs) ∧ keeps (Some n) h s s'.
Proof.
  intros (b & ht & es & ps & Hb & Hd & Hw & Hf & <- & [Href Hopen Hinj] & Hcs) (Hwr & b0 & Hb0 & Hn) Hmc Hd' Hw' Hf' s'.
  rewrite Hb in Hb0. injection Hb0 as <-. destruct (Hopen n _ Hn) as (Hne & Hsc & meta & Hmeta).
  assert (ts_buckets s' !! bk_inner h = Some b) as Hb' by (cbn; by rewrite lookup_insert_ne).
  assert (∀ n', n' ≠ n → child_of s' h n' = child_of s h n') as Hch.
  { intros n' Hnn. rewrite (child_of_lookup s' h b ht es ps n' Hb' Hw Hf), (child_of_lookup s h b ht es ps n' Hb Hw Hf).
    destruct (ib_buckets b !! n') as [c'|] eqn:Ec; [|done]. apply lookup_insert_ne. intros E. rewrite <-E in Ec. by apply Hnn, (Hinj _ _ _ Ec Hn). }
  split; [|split].
  - exists b, ht, es, ps. split_and!; try done.
    + split; [by apply refs_ok_update| |done]. intros n' c' Hc. destruct (Hopen n' c' Hc) as (? & Hs' & ?). split_and!; [done| |done].
      cbn. rewrite lookup_insert. by case_decide.
    + intros n' mc'. rewrite lookup_insert. case_decide as E.
      * intros [= <-]. subst n'. split; [eauto|]. exists cb', ht', es', ps'. split_and!; try done.
        rewrite (child_of_lookup s' h b ht es ps n Hb' Hw Hf), Hn. apply lookup_insert_eq.
      * intros Hc. destruct (Hcs n' mc' Hc) as [? ?]. split; [done|]. apply (tx_child_same s); [|done]. apply Hch. congruence.
  - intros n' c' (Hwr' & b0 & Hb0 & Hn'). rewrite Hb in Hb0. injection Hb0 as <-. split; [done|]. by exists b.
  - intros n' mc' Hbut. apply tx_child_full_same, Hch. congruence.
Qed.

(** A nested bucket is opened or created. *)
Lemma owns_opened (s : TxState) (h : Bucket) (cs cs' : gmap bytes (gmap bytes Leaf)) b ht es ps n c st' b' child ht' es' ps' chg :
  ts_buckets s !! bk_inner h = Some b → ib_deleted b = false → bucket_wf b ht es ps → (ht < fuel)%nat →
  children_ok (ts_buckets s) (bk_inner h) b (leaf_map es) →
  (∀ n mc, cs !! n = Some mc → (∃ meta, leaf_map es !! n = Some (LBucket n meta)) ∧ tx_child s h n mc) →
  ib_buckets b !! n = None → registered (ts_buckets s) st' (bk_inner h) c n b b' child →
  bucket_wf b' ht' es' ps' → (ht' < fuel)%nat → (∃ meta, leaf_map es' !! n = Some (LBucket n meta)) →
  (∀ n', n' ≠ n → leaf_map es' !! n' = leaf_map es !! n') →
  let s' := mkTxState st' (ts_freelist s) chg in
  (∀ n' mc, cs' !! n' = Some mc → n' ≠ n ∧ cs !! n' = Some mc ∨ n' = n ∧ (child_of s' h n = Some child → tx_child s' h n mc)) →
  (∀ mc, tx_child_full s h n mc → child_of s' h n = Some child → tx_child_full s' h n mc) →
  tx_owns s' h (leaf_map es') cs' ∧ tx_opens s' h n (child_handle h c n) ∧ keeps None h s s' ∧ child_of s' h n = Some child.
Proof.
  intros Hb Hd Hw Hf [Href Hopen Hinj] Hcs Hnone [R1 R2 R3 R4 R5 R5d R6 R7] Hw' Hf' [meta Hmeta] Hsame s' Hcs' Hfull.
  assert (c ≠ bk_inner h) as Hne by (intros ->; by rewrite Hb in R1).
  assert (child_of s' h n = Some child) as Hn by (rewrite (child_of_lookup s' h b' ht' es' ps' n R3 Hw' Hf'), R4, lookup_insert_eq; done).
  assert (∀ n', n' ≠ n → child_of s' h n' = child_of s h n') as Hch.
  { intros n' Hnn. rewrite (child_of_lookup s' h b' ht' es' ps' n' R3 Hw' Hf'), (child_of_lookup s h b ht es ps n' Hb Hw Hf), R4, R5, Hsame by done.
    rewrite lookup_insert_ne by done. destruct (ib_buckets b !! n') as [c'|] eqn:Ec; [|done]. destruct (Hopen n' c' Ec) as (? & [? Hs'] & _).
    apply R6; [done|]. intros ->. congruence. }
  split_and!; [|split|split|done].
  - exists b', ht', es', ps'. split_and!; try done; [by rewrite R5d| |].
    + split; [done| |].
      * intros n' c'. rewrite R4, lookup_insert. case_decide as E.
        -- intros [= <-]. subst n'. split_and!; [done|cbn; by rewrite R2|eauto].
        -- intros Hc. destruct (Hopen n' c' Hc) as (? & [x Hs'] & meta' & ?). split_and!; [done| |exists meta'; by rewrite Hsame].
           cbn. rewrite R6; [by rewrite Hs'|done|intros ->; congruence].
      * intros n1 n2 c'. rewrite R4, !lookup_insert. repeat case_decide; subst; try done; try congruence; [..|apply Hinj].
        -- intros [= <-] Hc. destruct (Hopen _ _ Hc) as (_ & [x ?] & _). congruence.
        -- intros Hc [= <-]. destruct (Hopen _ _ Hc) as (_ & [x ?] & _). congruence.
    + intros n' mc [[Hnn Hc]|[-> Hc]]%Hcs'; [|split; [eauto|by apply Hc]]. destruct (Hcs n' mc Hc) as [[meta' ?] ?].
      split; [exists meta'; by rewrite Hsame|]. apply (tx_child_same s); [by apply Hch|done].
  - done.
  - exists b'. split; [done|]. by rewrite R4, lookup_insert_eq.
  - intros n' c' (Hwr & b0 & Hb0 & Hn'). rewrite Hb in Hb0. injection Hb0 as <-. split; [done|]. exists b'. split; [done|].
    rewrite R4, lookup_insert_ne; [done|]. intros ->. congruence.
  - intros n' mc _ Hc. destruct (decide (n' = n)) as [->|Hnn]; [by apply Hfull|]. apply (tx_child_full_same s); [by apply Hch|done].
Qed.

Lemma keeps_refl but h s : keeps (H0 := tx_view) but h s s.
Proof. by split. Qed.

(** [get_bucket] on a bucket entry. *)
Lemma tx_open s h m cs n nm meta :
  tx_owns s h m cs → m !! n = Some (LBucket nm meta) → is_Some (cs !! n) →
  ∃ c st', get_bucket fuel (ts_buckets s) (bk_inner h) n = Ok (c, st') ∧
    tx_owns (set_buckets s st') h m cs ∧ tx_opens (set_buckets s st') h n (child_handle h c n) ∧ keeps None h s (set_buckets s st').
Proof.
  intros (b & ht & es & ps & Hb & Hd & Hw & Hf & <- & Hch & Hcs) Hm [mc Hn].
  pose proof (bucket_getter_ok fuel (ts_buckets s) (bk_inner h) n false false b ht es ps Hb (ch_refs _ _ _ _ Hch) Hw Hf) as Hg.
  cbv zeta in Hg. unfold get_bucket. rewrite Hm in Hg. destruct (ib_buckets b !! n) as [c|] eqn:Ec.
  - rewrite Hg. exists c, (ts_buckets s). split; [done|]. assert (set_buckets s (ts_buckets s) = s) as -> by (by destruct s).
    split_and!; [|split; [done|by exists b]|apply keeps_refl]. by exists b, ht, es, ps.
  - destruct Hg as (c & st' & b' & E & Hreg & Hw' & _). exists c, st'. split; [done|].
    assert (child_of s h n = Some (from_meta meta (ib_pages b))) as Hc by (by rewrite (child_of_lookup s h b ht es ps n Hb Hw Hf), Ec, Hm).
    destruct (Hcs n mc Hn) as [Hent Htc].
    destruct (owns_opened s h cs cs b ht es ps n c st' b' _ ht es ps (ts_changes s) Hb Hd Hw Hf Hch Hcs Ec Hreg Hw' Hf) as (H1 & H2 & H3 & _); [done|done| |by intros; apply (tx_child_full_same s); [congruence|]|done].
    intros n' mc' Hn'. destruct (decide (n' = n)) as [->|]; [right|by left]. split; [done|]. intros Hc'. rewrite Hn in Hn'. injection Hn' as <-.
    apply (tx_child_same s); [congruence|done].
Qed.

Lemma tx_get_bucket_law s h m cs n :
  tx_owns s h m cs →
  match m !! n with
  | None => bucket_get_bucket fuel h n s = Err BucketMissing
  | Some (LKv _ _) => bucket_get_bucket fuel h n s = Err IncompatibleValue
  | Some (LBucket _ _) => is_Some (cs !! n) →
      ∃ c s', bucket_get_bucket fuel h n s = Ok (c, s') ∧ tx_owns s' h m cs ∧ tx_opens s' h n c ∧ keeps None h s s'
  end.
Proof.
  intros Ho. unfold bucket_get_bucket. pose proof Ho as (b & ht & es & ps & Hb & Hd & Hw & Hf & <- & Hch & Hcs).
  rewrite (live_bucket_ok s h b) by done. cbn [mbind res_bind].
  pose proof (bucket_getter_ok fuel (ts_buckets s) (bk_inner h) n false false b ht es ps Hb (ch_refs _ _ _ _ Hch) Hw Hf) as Hg. cbv zeta in Hg.
  destruct (leaf_map es !! n) as [[nm meta|k v]|] eqn:Em.
  - intros Hn. destruct (tx_open s h _ cs n nm meta Ho Em Hn) as (c & st' & -> & H1 & H2 & H3). cbn [mbind res_bind]. eauto 10.
  - destruct (ib_buckets b !! n) as [c|] eqn:Ec; [destruct (ch_open _ _ _ _ Hch n c Ec) as (_ & _ & ? & ?); congruence|].
    unfold get_bucket. by rewrite Hg.
  - destruct (ib_buckets b !! n) as [c|] eqn:Ec; [destruct (ch_open _ _ _ _ Hch n c Ec) as (_ & _ & ? & ?); congruence|].
    unfold get_bucket. by rewrite Hg.
Qed.

(** [bucket_getter] on a missing entry, when it may create. *)
Lemma tx_create s h m cs n must chg :
  tx_owns s h m cs → m !! n = None →
  ∃ c st', bucket_getter fuel (ts_buckets s) (bk_inner h) n true must = Ok (c, st') ∧
    let s' := mkTxState st' (ts_freelist s) chg in
    tx_owns s' h (<[n := LBucket n bucket_meta_default]> m) (<[n := ∅]> cs) ∧ tx_opens s' h n (child_handle h c n) ∧
    tx_child_full s' h n ∅ ∧ keeps None h s s'.
Proof.
  intros (b & ht & es & ps & Hb & Hd & Hw & Hf & <- & Hch & Hcs) Hm.
  pose proof (bucket_getter_ok fuel (ts_buckets s) (bk_inner h) n true must b ht es ps Hb (ch_refs _ _ _ _ Hch) Hw Hf) as Hg.
  cbv zeta in Hg. rewrite Hm in Hg. destruct (ib_buckets b !! n) as [c|] eqn:Ec; [destruct (ch_open _ _ _ _ Hch n c Ec) as (_ & _ & ? & ?); congruence|].
  destruct Hg as (c & st' & b' & child & es' & E & Hreg & Hw' & Em' & _ & Hcw & Hcd & _). exists c, st'. split; [done|]. cbv zeta. rewrite <-Em'.
  destruct (owns_opened s h cs (<[n := ∅]> cs) b ht es ps n c st' b' child ht es' ps chg Hb Hd Hw Hf Hch Hcs Ec Hreg Hw' Hf) as (H1 & H2 & H3 & H4).
  - exists bucket_meta_default. by rewrite Em', lookup_insert_eq.
  - intros n' Hnn. by rewrite Em', lookup_insert_ne.
  - intros n' mc. rewrite lookup_insert. case_decide; [|left; split; [congruence|done]]. intros [= <-]. right. split; [done|]. intros Hc.
    exists child, 0%nat, [], [0]. split_and!; try done. lia.
  - intros mc (cb & ? & ? & ? & Hc & _). rewrite (child_of_lookup s h b ht es ps n Hb Hw Hf), Ec, Hm in Hc. done.
  - split_and!; try done. exists child, 0%nat, [], [0]. split_and!; try done; [lia|by right].
Qed.

(** What a successful put or delete leaves of the bucket. *)
Lemma tx_put_shape s h k v o s' b ht es ps :
  bucket_put fuel h k v s = Ok (o, s') → ts_buckets s !! bk_inner h = Some b → ib_deleted b = false → bucket_wf b ht es ps → (ht < fuel)%nat →
  ∃ b' es', s' = record_change (set_bucket s (bk_inner h) b') (bk_path h) k OpPut ∧ bucket_wf b' ht es' ps ∧
    leaf_map es' = <[k := LKv k v]> (leaf_map es) ∧ ib_buckets b' = ib_buckets b ∧ ib_pages b' = ib_pages b ∧ ib_deleted b' = false ∧
    (∀ nm meta, leaf_map es !! k ≠ Some (LBucket nm meta)) ∧ no_new_empty b b'.
Proof.
  intros Hp Hb Hd Hw Hf. unfold bucket_put in Hp. destruct (bk_writable h); [|done]. cbn [negb fail_if mbind res_bind] in Hp.
  rewrite (live_bucket_ok s h b) in Hp by done. cbn [mbind res_bind] in Hp. unfold inner_put in Hp.
  pose proof (put_leaf_ok fuel b ht es ps (LKv k v) Hw Hf) as Hl. cbn [leaf_key leaf_is_kv] in Hl.
  pose proof (leaf_map_put es (LKv k v) (wf_sorted _ _ _ _ Hw)) as Em. cbn [leaf_key] in Em. setoid_rewrite leaf_map_assoc.
  destruct (assoc leaf_key es k) as [[nm mt|k' v']|]; cbn [leaf_is_kv eqb] in Hl; [by rewrite Hl in Hp|..];
    destruct Hl as (b' & E & Hw' & _ & Hbk & Hpg & Hd' & _); rewrite E in Hp; cbn [mbind res_bind] in Hp; injection Hp as _ <-; eexists b', _;
    split_and!; try exact Em; try done; first [by rewrite Hd'|by eapply put_leaf_full].
Qed.

Lemma tx_delete_shape s h k o s' b ht es ps :
  bucket_delete fuel h k s = Ok (o, s') → ts_buckets s !! bk_inner h = Some b → ib_deleted b = false → bucket_wf b ht es ps → (ht < fuel)%nat →
  ∃ b' es', s' = record_change (set_bucket s (bk_inner h) b') (bk_path h) k OpDelete ∧ bucket_wf b' ht es' ps ∧
    leaf_map es' = delete k (leaf_map es) ∧ ib_buckets b' = ib_buckets b ∧ ib_pages b' = ib_pages b ∧ ib_deleted b' = false ∧
    ∀ nm meta, leaf_map es !! k ≠ Some (LBucket nm meta).
Proof.
  intros Hp Hb Hd Hw Hf. unfold bucket_delete in Hp. destruct (bk_writable h); [|done]. cbn [negb fail_if mbind res_bind] in Hp.
  rewrite (live_bucket_ok s h b) in Hp by done. cbn [mbind res_bind] in Hp.
  pose proof (inner_delete_ok fuel b ht es ps k Hw Hf) as Hl. setoid_rewrite leaf_map_assoc.
  destruct (assoc leaf_key es k) as [[nm mt|k' v']|]; [by rewrite Hl in Hp| |by rewrite Hl in Hp].
  destruct Hl as (b' & es' & E & Hw' & Em & _ & Hbk & Hpg & Hd' & _). rewrite E in Hp. cbn [mbind res_bind] in Hp. injection Hp as _ <-. exists b', es'. split_and!; try done. by rewrite Hd'.
Qed.

Lemma same_buckets_insert m k v : (∀ nm meta, m !! k ≠ Some (LBucket nm meta)) → same_buckets m (<[k := LKv k v]> m).
Proof.
  intros Hk n. rewrite lookup_insert. case_decide; [subst; right|by left]. split; [done|]. destruct (m !! n) as [[nm mt|]|] eqn:E; [|done..].
  by destruct (Hk nm mt).
Qed.

Lemma same_buckets_delete m k : (∀ nm meta, m !! k ≠ Some (LBucket nm meta)) → same_buckets m (delete k m).
Proof.
  intros Hk n. rewrite lookup_delete. case_decide; [subst; right|by left]. split; [done|]. destruct (m !! n) as [[nm mt|]|] eqn:E; [|done..].
  by destruct (Hk nm mt).
Qed.

Lemma tx_put_own s h m cs k v o s' :
  tx_owns s h m cs → bucket_put fuel h k v s = Ok (o, s') → tx_owns s' h (<[k := LKv k v]> m) cs ∧ keeps None h s s'.
Proof.
  intros (b & ht & es & ps & Hb & Hd & Hw & Hf & <- & Hch & Hcs) Hp.
  destruct (tx_put_shape s h k v o s' b ht es ps Hp Hb Hd Hw Hf) as (b' & es' & -> & Hw' & Em & Hbk & Hpg & Hd' & Hnb & _). rewrite <-Em.
  eapply owns_self; try done. rewrite Em. by apply same_buckets_insert.
Qed.

Lemma tx_delete_own s h m cs k o s' :
  tx_owns s h m cs → bucket_delete fuel h k s = Ok (o, s') → tx_owns s' h (delete k m) cs ∧ keeps None h s s'.
Proof.
  intros (b & ht & es & ps & Hb & Hd & Hw & Hf & <- & Hch & Hcs) Hp.
  destruct (tx_delete_shape s h k o s' b ht es ps Hp Hb Hd Hw Hf) as (b' & es' & -> & Hw' & Em & Hbk & Hpg & Hd' & Hnb). rewrite <-Em.
  eapply owns_self; try done. rewrite Em. by apply same_buckets_delete.
Qed.

Lemma tx_expire_own s h m cs k :
  tx_owns s h m cs →
  match m !! k with
  | Some (LBucket _ _) => expire_value h k s = Err IncompatibleValue
  | _ => ∃ s', expire_value h k s = Ok s' ∧ tx_owns s' h (delete k m) cs ∧ keeps None h s s'
  end.
Proof.
  intros Ho. pose proof Ho as (b & ht & es & ps & Hb & Hd & Hw & Hf & <- & Hch & Hcs). unfold expire_value, bucket_at. rewrite Hb. cbn [unwrap mbind res_bind].
  rewrite (inner_get_assoc fuel b ht es ps k Hw Hf). cbn [mbind res_bind]. pose proof (inner_delete_ok fuel b ht es ps k Hw Hf) as Hl.
  rewrite leaf_map_assoc. pose proof (leaf_map_assoc es k) as Ek. destruct (assoc leaf_key es k) as [[nm mt|k' v']|]; [done| |].
  - destruct Hl as (b' & es' & -> & Hw' & Em & _ & Hbk & Hpg & Hd' & _). cbn [mbind res_bind]. eexists. split; [done|]. rewrite <-Em.
    eapply owns_self; try done; [by rewrite Hd'|]. rewrite Em. apply same_buckets_delete. intros ??. by rewrite Ek.
  - exists s. rewrite delete_id by done. by split_and!; [..|apply keeps_refl].
Qed.

(** The open bucket behind a handle. *)
Lemma tx_opened s h m cs n c mc :
  tx_owns s h m cs → tx_opens s h n c → cs !! n = Some mc →
  ∃ cb ht es ps, ts_buckets s !! bk_inner c = Some cb ∧ ib_deleted cb = false ∧ bucket_wf cb ht es ps ∧ (ht < fuel)%nat ∧ leaf_map es = mc.
Proof.
  intros (b & ht & es & ps & Hb & Hd & Hw & Hf & <- & Hch & Hcs) (_ & b0 & Hb0 & Hn) Hmc. rewrite Hb in Hb0. injection Hb0 as <-.
  destruct (Hcs n mc Hmc) as [_ (cb & hc & ec & pc & Hc & Hr)]. rewrite (child_of_lookup s h b ht es ps n Hb Hw Hf), Hn in Hc. eauto 10.
Qed.

Lemma child_of_opened s h m cs n c cb : tx_owns s h m cs → tx_opens s h n c → child_of s h n = Some cb → ts_buckets s !! bk_inner c = Some cb.
Proof.
  intros (b & ht & es & ps & Hb & Hd & Hw & Hf & <- & Hch & Hcs) (_ & b0 & Hb0 & Hn). rewrite Hb in Hb0. injection Hb0 as <-.
  by rewrite (child_of_lookup s h b ht es ps n Hb Hw Hf), Hn.
Qed.

Lemma tx_put_child s h m cs n c mc k v o s' :
  tx_owns s h m cs → tx_opens s h n c → cs !! n = Some mc → bucket_put fuel c k v s = Ok (o, s') →
  tx_owns s' h m (<[n := <[k := LKv k v]> mc]> cs) ∧ keeps (Some n) h s s' ∧
  (tx_child_full s h n mc → Z.of_nat (S (size mc)) <= u64_max → tx_child_full s' h n (<[k := LKv k v]> mc)).
Proof.
  intros Ho Hop Hmc Hp. destruct (tx_opened s h m cs n c mc Ho Hop Hmc) as (b & ht & es & ps & Hb & Hd & Hw & Hf & <-).
  destruct (tx_put_shape s c k v o s' b ht es ps Hp Hb Hd Hw Hf) as (b' & es' & Es & Hw' & Em & _ & _ & Hd' & _). rewrite <-Em.
  assert (tx_owns s' h m (<[n := leaf_map es']> cs) ∧ keeps (Some n) h s s') as [Ho' Hk'] by (rewrite Es; by eapply owns_child).
  split_and!; [done|done|]. intros (cb & ht2 & es2 & ps2 & Hc & Hw2 & Hf2 & Hfull & Em2 & Hsz) Hmax.
  pose proof (child_of_opened s h m cs n c cb Ho Hop Hc) as Hcb. rewrite Hb in Hcb. injection Hcb as <-.
  destruct (tx_put_shape s c k v o s' b ht2 es2 ps2 Hp Hb Hd Hw2 Hf2) as (b2 & es2' & Es2 & Hw2' & Em2' & _ & _ & _ & _ & Hne).
  exists b2, ht2, es2', ps2. split_and!; try done.
  - assert (tx_opens s' h n c) as Hop' by (by apply (proj1 Hk')). destruct Ho' as (bh & hh & eh & ph & Hbh & _ & Hwh & Hfh & _).
    destruct Hop' as (_ & b0 & Hb0 & Hn0). rewrite Hbh in Hb0. injection Hb0 as <-.
    rewrite (child_of_lookup s' h bh hh eh ph n Hbh Hwh Hfh), Hn0, Es2. apply lookup_insert_eq.
  - destruct Hfull as [Hfull|]; [left|by right]. intros q Hq E. by apply (Hfull q Hq), Hne.
  - by rewrite Em2', Em, Em2.
  - rewrite Em, map_size_insert. by destruct (leaf_map es !! k).
Qed.

Lemma tx_delete_child s h m cs n c mc k o s' :
  tx_owns s h m cs → tx_opens s h n c → cs !! n = Some mc → bucket_delete fuel c k s = Ok (o, s') →
  tx_owns s' h m (<[n := delete k mc]> cs) ∧ keeps (Some n) h s s'.
Proof.
  intros Ho Hop Hmc Hp. destruct (tx_opened s h m cs n c mc Ho Hop Hmc) as (b & ht & es & ps & Hb & Hd & Hw & Hf & <-).
  destruct (tx_delete_shape s c k o s' b ht es ps Hp Hb Hd Hw Hf) as (b' & es' & -> & Hw' & <- & _ & _ & Hd' & _). by eapply owns_child.
Qed.

Lemma tx_create_bucket_law s h m cs n :
  tx_owns s h m cs → bk_writable h = true → m !! n = None →
  ∃ c s', bucket_create_bucket fuel h n s = Ok (c, s') ∧ tx_owns s' h (<[n := LBucket n bucket_meta_default]> m) (<[n := ∅]> cs) ∧
    tx_opens s' h n c ∧ tx_child_full s' h n ∅ ∧ keeps None h s s'.
Proof.
  intros Ho Hwr Hm. pose proof Ho as (b & ht & es & ps & Hb & Hd & _). unfold bucket_create_bucket. rewrite Hwr. cbn [negb fail_if mbind res_bind].
  rewrite (live_bucket_ok s h b) by done. cbn [mbind res_bind].
  destruct (tx_create s h m cs n true (record (ts_changes s) (bk_path h) (path_leaf (path_child (bk_path h) n)) OpBucketCreate) Ho Hm) as (c & st' & E & Hr).
  unfold create_bucket. rewrite E. cbn [mbind res_bind]. eexists _, _. split; [done|exact Hr].
Qed.

(** An open bucket is found again. *)
Lemma getter_open s h n c should :
  tx_opens s h n c → bucket_getter fuel (ts_buckets s) (bk_inner h) n should false = Ok (bk_inner c, ts_buckets s).
Proof.
  intros (_ & b & Hb & Hn). unfold bucket_getter, child_ref, bucket_at. rewrite Hb. cbn [unwrap mbind res_bind]. rewrite Hn.
  cbn [fail_if mbind res_bind]. rewrite Hb. cbn [unwrap mbind res_bind]. by rewrite Hn.
Qed.

Lemma tx_get_or_create_law s h m cs n :
  tx_owns s h m cs → bk_writable h = true →
  match m !! n with
  | None => ∃ c s', bucket_get_or_create_bucket fuel h n s = Ok (c, s') ∧
      tx_owns s' h (<[n := LBucket n bucket_meta_default]> m) (<[n := ∅]> cs) ∧ tx_opens s' h n c ∧ keeps None h s s'
  | Some (LKv _ _) => bucket_get_or_create_bucket fuel h n s = Err IncompatibleValue
  | Some (LBucket _ _) => is_Some (cs !! n) →
      ∃ c s', bucket_get_or_create_bucket fuel h n s = Ok (c, s') ∧ tx_owns s' h m cs ∧ tx_opens s' h n c ∧ keeps None h s s'
  end.
Proof.
  intros Ho Hwr. pose proof Ho as (b & ht & es & ps & Hb & Hd & Hw & Hf & Em & Hch & _).
  unfold bucket_get_or_create_bucket, bucket_existed, get_or_create_bucket. rewrite Hwr. cbn [negb fail_if mbind res_bind].
  rewrite (live_bucket_ok s h b) by done. cbn [mbind res_bind].
  pose proof (λ should, bucket_getter_ok fuel (ts_buckets s) (bk_inner h) n should false b ht es ps Hb (ch_refs _ _ _ _ Hch) Hw Hf) as Hg.
  cbv zeta in Hg. rewrite Em in Hg. destruct (m !! n) as [[nm meta|k v]|] eqn:En.
  - intros Hn. destruct (tx_open s h m cs n nm meta Ho En Hn) as (c & st' & -> & H1 & H2 & H3). cbn [mbind res_bind].
    pose proof (getter_open _ _ _ _ true H2) as Hagain. cbn [set_buckets ts_buckets child_handle bk_inner] in Hagain. rewrite Hagain. cbn [mbind res_bind]. eauto 10.
  - destruct (ib_buckets b !! n) as [c|] eqn:Ec; [destruct (ch_open _ _ _ _ Hch n c Ec) as (_ & _ & ? & ?); congruence|].
    unfold get_bucket. rewrite (Hg false). cbn [mbind res_bind]. by rewrite (Hg true).
  - destruct (ib_buckets b !! n) as [c|] eqn:Ec; [destruct (ch_open _ _ _ _ Hch n c Ec) as (_ & _ & ? & ?); congruence|].
    unfold get_bucket. rewrite (Hg false). cbn [mbind res_bind].
    destruct (tx_create s h m cs n false (record (ts_changes s) (bk_path h) (path_leaf (path_child (bk_path h) n)) OpBucketCreate) Ho En) as (c & st' & E & H1 & H2 & _ & H3).
    rewrite E. cbn [mbind res_bind]. eexists _, _. split; [done|]. split_and!; assumption.
Qed.

Lemma tx_owns_holds s h m cs : tx_owns s h m cs → tx_holds fuel s h m.
Proof. intros (b & ht & es & ps & Hb & Hd & Hw & Hf & Em & _). by exists b, ht, es, ps. Qed.

Lemma tx_owns_bucket s h m cs n mc : tx_owns s h m cs → cs !! n = Some mc → ∃ meta, m !! n = Some (LBucket n meta).
Proof. intros (b & ht & es & ps & _ & _ & _ & _ & _ & _ & Hcs) Hn. apply (Hcs n mc Hn). Qed.

Lemma tx_owns_fewer s h m cs cs' : tx_owns s h m cs → cs' ⊆ cs → tx_owns s h m cs'.
Proof.
  intros (b & ht & es & ps & Hb & Hd & Hw & Hf & Em & Hch & Hcs) Hsub. exists b, ht, es, ps. split_and!; try done. intros n mc Hn.
  apply Hcs. by eapply lookup_weaken.
Qed.

Lemma tx_opens_holds s h m cs n c mc :
  tx_owns s h m cs → tx_opens s h n c → cs !! n = Some mc → tx_holds fuel s c mc ∧ bk_writable c = bk_writable h.
Proof.
  intros Ho Hop Hn. destruct (tx_opened s h m cs n c mc Ho Hop Hn) as (cb & ht & es & ps & Hc). split; [by exists cb, ht, es, ps|apply Hop].
Qed.

Lemma tx_opens_full s h m cs n c mc :
  tx_owns s h m cs → tx_opens s h n c → tx_child_full s h n mc → tx_iterable fuel s c mc.
Proof.
  intros (b & ht & es & ps & Hb & Hd & Hw & Hf & _) (_ & b0 & Hb0 & Hn) (cb & hc & ec & pc & Hc & Hr). rewrite Hb in Hb0. injection Hb0 as <-.
  rewrite (child_of_lookup s h b ht es ps n Hb Hw Hf), Hn in Hc. by exists cb, hc, ec, pc.
Qed.

#[local] Instance tx_nested_laws : NestedLaws TxState Bucket (H0 := tx_store fuel) (H1 := tx_laws fuel).
Proof.
  split; [done|exact tx_owns_holds|exact tx_owns_bucket|exact tx_owns_fewer|exact tx_opens_holds|exact tx_opens_full|exact tx_get_bucket_law|
    exact tx_create_bucket_law|exact tx_get_or_create_law|exact tx_put_own|exact tx_delete_own|exact tx_expire_own|exact tx_put_child|exact tx_delete_child].
Qed.

End instance.
