(* ===== verification/Ttl.v ===== *)
(** * Expiry: [src/src/api/ttl.rs] and [update_value] of [bucket/map.rs]

    A bucket keeps the deadlines of its keys in two buckets nested in it: one from
    the key to its deadline, one ordered by deadline.  The operations are written
    over the interfaces [BucketStore] and [NestedStore]; a [SystemTime] is a number
    of nanoseconds since the Unix epoch.  The loops over the pairs of a nested
    bucket read the pairs first: nothing in them changes the bucket they read. *)

From S2P Require Import Prelude Search Support Layout Meta Freelist Node Page PageNode Inner Spill Buckets Cursor Changes Handle Store Nested MapApi.

(** ** Encodings *)

Definition SystemTime : Type := Z.

Definition invalid_time (message : string) : Error := Io (mkIoError InvalidInput message).

Definition epoch_millis (time : SystemTime) : res Z :=
  _ ← fail_if (time <? 0) (invalid_time "second time provided was later than self");
  let millis := time / 1000000 in
  _ ← fail_if (u64_max <? millis) (invalid_time "out of range integral type conversion attempted");
  Ok millis.

Definition decode_expiration (bytes_ : bytes) : res Z :=
  _ ← fail_if (negb (length bytes_ =? 8)%nat) (InvalidDB "TTL expiration must contain eight bytes");
  Ok (of_be bytes_).

Definition deadline_key (deadline : Z) (key : bytes) : bytes := be_bytes 8 deadline ++ key.

Definition decode_deadline_key (encoded : bytes) : res (Z * bytes) :=
  _ ← fail_if (length encoded <? 8)%nat (InvalidDB "TTL deadline key is shorter than eight bytes");
  deadline ← decode_expiration (take 8 encoded);
  Ok (deadline, drop 8 encoded).

Definition is_ttl_bucket (name : bytes) : bool := bool_decide (name = TTL_BUCKET) || bool_decide (name = TTL_DEADLINES_BUCKET).

(** [Vec::<(Vec<u8>, Vec<u8>)>::with_capacity]: an element has 48 bytes. *)
Definition with_capacity (limit : Z) : res unit := assert_that (48 * limit <=? isize_max) "capacity overflow".

(** ** Operations *)

Section ttl.
Context {St H : Type} `{BucketStore St H} `{NestedStore St H}.

Definition expiration_bucket (h : H) (s : St) : res (option H * St) :=
  match s_get_bucket h TTL_BUCKET s with
  | Ok (bucket, s) => Ok (Some bucket, s)
  | Err BucketMissing => Ok (None, s)
  | Err error => Err error
  | Panic w => Panic w
  end.

(** On the bucket of expirations; [now] is the clock when it is called. *)
Definition key_is_live (expirations : H) (key : bytes) (now : SystemTime) (s : St) : res bool :=
  e ← s_get_kv expirations key s;
  match e with
  | Some (_, value) =>
      deadline ← decode_expiration value;
      now ← epoch_millis now;
      Ok (now <? deadline)
  | None => Ok true
  end.

Definition expiration (h : H) (key : bytes) (s : St) : res (option Z * St) :=
  '(expirations, s) ← expiration_bucket h s;
  match expirations with
  | Some expirations =>
      e ← s_get_kv expirations key s;
      match e with
      | Some (_, value) => deadline ← decode_expiration value; Ok (Some deadline, s)
      | None => Ok (None, s)
      end
  | None => Ok (None, s)
  end.

Definition remove_deadline (h : H) (deadline : Z) (key : bytes) (s : St) : res St :=
  match s_get_bucket h TTL_DEADLINES_BUCKET s with
  | Ok (deadlines, s) =>
      match s_delete deadlines (deadline_key deadline key) s with
      | Ok (_, _, s) => Ok s
      | Err KeyValueMissing => Ok s
      | Err error => Err error
      | Panic w => Panic w
      end
  | Err BucketMissing => Ok s
  | Err error => Err error
  | Panic w => Panic w
  end.

(** [if let Some(previous_deadline) = expirations.get_kv(key)? { ... }] *)
Definition drop_previous (h : H) (key : bytes) (previous : option (bytes * bytes)) (s : St) : res St :=
  match previous with
  | Some (_, previous_deadline) =>
      previous_deadline ← decode_expiration previous_deadline;
      remove_deadline h previous_deadline key s
  | None => Ok s
  end.

Definition set_expiration_millis (h : H) (key : bytes) (expires_at_millis : Z) (s : St) : res St :=
  '(expirations, s) ← s_get_or_create_bucket h TTL_BUCKET s;
  previous ← s_get_kv expirations key s;
  s ← drop_previous h key previous s;
  '(_, s) ← s_put expirations key (be_bytes 8 expires_at_millis) s;
  '(deadlines, s) ← s_get_or_create_bucket h TTL_DEADLINES_BUCKET s;
  '(_, s) ← s_put deadlines (deadline_key expires_at_millis key) [] s;
  Ok s.

(** The fields of [TtlWriteResult], and the state. *)
Definition put_with_ttl (h : H) (key value : bytes) (expires_at : SystemTime) (s : St) : res (option bytes * Z * St) :=
  expires_at_millis ← epoch_millis expires_at;
  '(previous, s) ← s_put h key value s;
  s ← set_expiration_millis h key expires_at_millis s;
  Ok (snd <$> (previous : option (bytes * bytes)), expires_at_millis, s).

Definition get_live_at (h : H) (key : bytes) (now : SystemTime) (s : St) : res (option (bytes * bytes) * St) :=
  '(e, s) ← expiration h key s;
  match e with
  | None => p ← s_get_kv h key s; Ok (p, s)
  | Some deadline =>
      now ← epoch_millis now;
      if deadline <=? now then Ok (None, s)
      else p ← s_get_kv h key s; Ok (p, s)
  end.

Definition clear_ttl (h : H) (key : bytes) (s : St) : res (bool * St) :=
  match s_get_bucket h TTL_BUCKET s with
  | Ok (expirations, s) =>
      match s_delete expirations key s with
      | Ok (_, previous, s) =>
          deadline ← decode_expiration previous;
          s ← remove_deadline h deadline key s;
          Ok (true, s)
      | Err KeyValueMissing => Ok (false, s)
      | Err error => Err error
      | Panic w => Panic w
      end
  | Err BucketMissing => Ok (false, s)
  | Err error => Err error
  | Panic w => Panic w
  end.

(** Writing the index of a bucket that has none. *)
Definition index_pair (deadlines : H) (s : St) (pair_ : bytes * bytes) : res St :=
  deadline ← decode_expiration (snd pair_);
  '(_, s) ← s_put deadlines (deadline_key deadline (fst pair_)) [] s;
  Ok s.

Definition deadline_index (n : nat) (h expirations : H) (s : St) : res (H * St) :=
  match s_get_bucket h TTL_DEADLINES_BUCKET s with
  | Ok (deadlines, s) => Ok (deadlines, s)
  | Err BucketMissing =>
      '(deadlines, s) ← s_create_bucket h TTL_DEADLINES_BUCKET s;
      ps ← s_pairs n expirations s;
      s ← res_fold (index_pair deadlines) s ps;
      Ok (deadlines, s)
  | Err error => Err error
  | Panic w => Panic w
  end.

(** The deadline keys and keys to remove; [room] is the limit less the pairs found. *)
Fixpoint collect_expired (ps : list (bytes * bytes)) (now room : Z) : res (list (bytes * bytes)) :=
  match ps with
  | [] => Ok []
  | (encoded, _) :: ps =>
      '(deadline, key) ← decode_deadline_key encoded;
      if now <? deadline then Ok []
      else if room =? 1 then Ok [(encoded, key)]
      else rest ← collect_expired ps now (room - 1); Ok ((encoded, key) :: rest)
  end.

Definition purge_one (h expirations deadlines : H) (s : St) (e : bytes * bytes) : res St :=
  s ← s_expire h (snd e) s;
  '(_, _, s) ← s_delete expirations (snd e) s;
  '(_, _, s) ← s_delete deadlines (fst e) s;
  Ok s.

Definition purge_expired (n : nat) (h : H) (now : SystemTime) (limit : Z) (s : St) : res (Z * St) :=
  _ ← fail_if (negb (s_writable h)) ReadOnlyTx;
  if limit =? 0 then Ok (0, s)
  else
    now ← epoch_millis now;
    match s_get_bucket h TTL_BUCKET s with
    | Ok (expirations, s) =>
        '(deadlines, s) ← deadline_index n h expirations s;
        _ ← with_capacity limit;
        ps ← s_pairs n deadlines s;
        expired ← collect_expired ps now limit;
        s ← res_fold (purge_one h expirations deadlines) s expired;
        Ok (Z.of_nat (length expired), s)
    | Err BucketMissing => Ok (0, s)
    | Err error => Err error
    | Panic w => Panic w
    end.

(** [Bucket::update_value]: [update] is the caller's function. *)
Definition update_value (h : H) (key : bytes) (update : option bytes → option bytes) (s : St) : res (option bytes * St) :=
  p ← s_get_kv h key s;
  let previous := snd <$> (p : option (bytes * bytes)) in
  match update previous, previous with
  | Some value, _ =>
      '(_, s) ← s_put h key value s;
      '(_, s) ← clear_ttl h key s;
      Ok (previous, s)
  | None, Some _ =>
      '(_, _, s) ← s_delete h key s;
      '(_, s) ← clear_ttl h key s;
      Ok (previous, s)
  | None, None => Ok (previous, s)
  end.

End ttl.

(** ** The buckets of a database *)

Section trees.
Context (fuel n : nat).
#[local] Existing Instance tx_store.
#[local] Existing Instance tx_nested.

(** The loop over the names; [purge] is the call on a child, and [open_] how it is
    opened. *)
Fixpoint purge_children (open_ : bytes → TxState → res (Bucket * TxState)) (purge : Bucket → Z → TxState → res (Z * TxState))
    (limit : Z) (names : list bytes) (removed : Z) (s : TxState) : res (Z * TxState) :=
  match names with
  | [] => Ok (removed, s)
  | name :: names =>
      '(child, s) ← open_ name s;
      '(r, s) ← purge child (limit - removed) s;
      if removed + r =? limit then Ok (removed + r, s)
      else purge_children open_ purge limit names (removed + r) s
  end.

(** [depth] bounds the nesting of the buckets. *)
Fixpoint purge_bucket_tree (depth : nat) (now : SystemTime) (h : Bucket) (limit : Z) (s : TxState) : res (Z * TxState) :=
  match depth with
  | O => Panic NOFUEL
  | S depth =>
      if limit =? 0 then Ok (0, s)
      else
        '(removed, s) ← purge_expired (H0 := tx_store fuel) (H1 := tx_nested fuel) n h now limit s;
        if removed =? limit then Ok (removed, s)
        else
          '(names, s) ← bucket_names fuel n h s;
          purge_children (bucket_get_bucket fuel h) (purge_bucket_tree depth now) limit
            (filter (λ name, is_ttl_bucket name = false) (names : list bytes)) removed s
  end.

(** [DB::purge_expired] inside its transaction. *)
Definition tx_purge_expired (depth : nat) (now : SystemTime) (limit : Z) (s : TxState) : res (Z * TxState) :=
  if limit =? 0 then Ok (0, s)
  else
    '(names, s) ← bucket_names fuel n (root_handle true) s;
    purge_children (tx_get_bucket fuel true) (purge_bucket_tree depth now) limit
      (filter (λ name, is_ttl_bucket name = false) (names : list bytes)) 0 s.

(** ** The limit of a cleanup *)

Lemma collect_expired_length ps now room l : 0 < room → collect_expired ps now room = Ok l → Z.of_nat (length l) <= room.
Proof.
  revert room l. induction ps as [|[x v] ps IH]; intros room l Hr; cbn [collect_expired]; [intros [= <-]; cbn; lia|].
  intros H. res_inv. destruct a as [d k]. destruct (now <? d); [res_inv; cbn; lia|].
  destruct (Z.eqb_spec room 1); [res_inv; cbn; lia|]. res_inv. specialize (IH (room - 1) _ ltac:(lia) E0). cbn. lia.
Qed.

Lemma purge_expired_bound h now limit s r s' :
  0 <= limit → purge_expired (H0 := tx_store fuel) (H1 := tx_nested fuel) n h now limit s = Ok (r, s') → 0 <= r <= limit.
Proof.
  intros Hl H. unfold purge_expired in H. res_inv. destruct (Z.eqb_spec limit 0); [res_inv; lia|]. res_inv.
  destruct (s_get_bucket h TTL_BUCKET s) as [[c s1]|[]|]; try done; [|res_inv; lia].
  apply res_bind_Ok in H as ([d s2] & _ & H). apply res_bind_Ok in H as (u & _ & H). apply res_bind_Ok in H as (ps & _ & H).
  apply res_bind_Ok in H as (l & El & H). apply res_bind_Ok in H as (s3 & _ & H). injection H as <- _.
  pose proof (collect_expired_length _ _ limit _ ltac:(lia) El). lia.
Qed.

Lemma purge_children_bound open_ purge limit names removed s r s' :
  (∀ h l s r s', 0 <= l → purge h l s = Ok (r, s') → 0 <= r <= l) →
  0 <= removed <= limit → purge_children open_ purge limit names removed s = Ok (r, s') → removed <= r <= limit.
Proof.
  intros Hp. revert removed s. induction names as [|name names IH]; intros removed s Hr H; cbn [purge_children] in H; [res_inv; lia|].
  res_inv. destruct a as [c s1]. res_inv. destruct a as [r1 s2]. pose proof (Hp _ (limit - removed) _ _ _ ltac:(lia) E0).
  destruct (removed + r1 =? limit); [res_inv; lia|]. specialize (IH (removed + r1) s2 ltac:(lia) H). lia.
Qed.

Lemma purge_bucket_tree_bound depth now h limit s r s' :
  0 <= limit → purge_bucket_tree depth now h limit s = Ok (r, s') → 0 <= r <= limit.
Proof.
  revert h limit s r s'. induction depth as [|depth IH]; intros h limit s r s' Hl H; cbn [purge_bucket_tree] in H; [done|].
  destruct (limit =? 0); [res_inv; lia|]. res_inv. destruct a as [r1 s1]. pose proof (purge_expired_bound _ _ _ _ _ _ Hl E).
  destruct (r1 =? limit); [res_inv; lia|]. res_inv. destruct a as [names s2].
  pose proof (purge_children_bound _ _ limit _ r1 _ _ _ (λ h l s r s', IH h l s r s') ltac:(lia) H). lia.
Qed.

End trees.

(** ** The deadlines a bucket keeps *)

(** [ex] gives the deadline of a key, if it has one. *)
Definition expirations_of (ex : gmap bytes Z) (mt : gmap bytes Leaf) : Prop :=
  ∀ k, mt !! k = (λ d, LKv k (be_bytes 8 d)) <$> ex !! k.

Definition deadlines_of (ex : gmap bytes Z) (md : gmap bytes Leaf) : Prop :=
  ∀ x l, md !! x = Some l ↔ ∃ k d, ex !! k = Some d ∧ x = deadline_key d k ∧ l = LKv x [].

(** Both nested buckets agree with [ex], or are missing when it is empty. *)
Record ttl_ok (m : gmap bytes Leaf) (cs : gmap bytes (gmap bytes Leaf)) (ex : gmap bytes Z) : Prop := {
  ttl_u64 : ∀ k d, ex !! k = Some d → in_u64 d;
  ttl_expirations : expirations_of ex (default ∅ (cs !! TTL_BUCKET));
  ttl_deadlines : deadlines_of ex (default ∅ (cs !! TTL_DEADLINES_BUCKET));
  ttl_lookup : available m cs TTL_BUCKET;
  ttl_index : available m cs TTL_DEADLINES_BUCKET
}.

(** A file from before the index was kept: expirations, and no index. *)
Record ttl_legacy (m : gmap bytes Leaf) (cs : gmap bytes (gmap bytes Leaf)) (ex : gmap bytes Z) : Prop := {
  leg_u64 : ∀ k d, ex !! k = Some d → in_u64 d;
  leg_expirations : ∃ mt, cs !! TTL_BUCKET = Some mt ∧ expirations_of ex mt;
  leg_index : cs !! TTL_DEADLINES_BUCKET = None ∧ m !! TTL_DEADLINES_BUCKET = None
}.

(** The entries the user made are the same. *)
Definition same_user (m m' : gmap bytes Leaf) : Prop := ∀ k, is_ttl_bucket k = false → m' !! k = m !! k.

Lemma same_user_trans m1 m2 m3 : same_user m1 m2 → same_user m2 m3 → same_user m1 m3.
Proof. intros H1 H2 k Hk. by rewrite H2, H1. Qed.

Lemma ttl_buckets_apart : TTL_BUCKET ≠ TTL_DEADLINES_BUCKET.
Proof. by intros E%(f_equal length). Qed.

Lemma same_user_but m m' n : is_ttl_bucket n = true → (∀ k, k ≠ n → m' !! k = m !! k) → same_user m m'.
Proof. intros Hn Hm k Hk. apply Hm. intros ->. congruence. Qed.

Lemma decode_expiration_ok d : in_u64 d → decode_expiration (be_bytes 8 d) = Ok d.
Proof. intros Hd. unfold decode_expiration. rewrite length_be_bytes. cbn [Nat.eqb negb fail_if mbind res_bind]. by rewrite of_be_bytes8. Qed.

Lemma decode_deadline_key_ok d k : in_u64 d → decode_deadline_key (deadline_key d k) = Ok (d, k).
Proof.
  intros Hd. unfold decode_deadline_key, deadline_key. rewrite length_app, length_be_bytes.
  rewrite take_app_length', drop_app_length' by (by rewrite length_be_bytes). cbn [Nat.add Nat.ltb Nat.leb fail_if mbind res_bind].
  rewrite decode_expiration_ok by done. done.
Qed.

Lemma deadline_key_inj d d' k k' : in_u64 d → in_u64 d' → deadline_key d k = deadline_key d' k' → d = d' ∧ k = k'.
Proof. intros Hd Hd' E%(f_equal decode_deadline_key). rewrite !decode_deadline_key_ok in E by done. by injection E as -> ->. Qed.

Lemma expirations_insert ex mt k d : expirations_of ex mt → expirations_of (<[k := d]> ex) (<[k := LKv k (be_bytes 8 d)]> mt).
Proof. intros He k'. rewrite !lookup_insert. case_decide; [by subst|apply He]. Qed.

Lemma expirations_delete ex mt k : expirations_of ex mt → expirations_of (delete k ex) (delete k mt).
Proof. intros He k'. rewrite !lookup_delete. case_decide; [done|apply He]. Qed.

Lemma expirations_values ex mt k nm meta : expirations_of ex mt → mt !! k ≠ Some (LBucket nm meta).
Proof. intros He. rewrite He. by destruct (ex !! k). Qed.

Lemma deadlines_values ex md k nm meta : deadlines_of ex md → md !! k ≠ Some (LBucket nm meta).
Proof. intros Hd Hl. apply Hd in Hl as (? & ? & _ & _ & ?). done. Qed.

Lemma deadlines_insert ex md k d :
  (∀ k d, ex !! k = Some d → in_u64 d) → in_u64 d → ex !! k = None → deadlines_of ex md →
  deadlines_of (<[k := d]> ex) (<[deadline_key d k := LKv (deadline_key d k) []]> md).
Proof.
  intros Hu Hd Hk Hdl x l. rewrite lookup_insert. case_decide as E.
  - subst x. split; [intros [= <-]; exists k, d; by rewrite lookup_insert_eq|]. by intros (k' & d' & _ & _ & ->).
  - rewrite (Hdl x l). split; intros (k' & d' & Hk' & -> & ->); exists k', d'.
    + rewrite lookup_insert_ne by congruence. done.
    + rewrite lookup_insert in Hk'. case_decide; [congruence|]. done.
Qed.

Lemma deadlines_delete ex md k d :
  (∀ k d, ex !! k = Some d → in_u64 d) → ex !! k = Some d → deadlines_of ex md → deadlines_of (delete k ex) (delete (deadline_key d k) md).
Proof.
  intros Hu Hk Hdl x l. rewrite lookup_delete. case_decide as E.
  - subst x. split; [done|]. intros (k' & d' & [Hne Hk']%lookup_delete_Some & E & _). apply deadline_key_inj in E as [-> ->]; eauto. done.
  - rewrite (Hdl x l). split; intros (k' & d' & Hk' & -> & ->); exists k', d'; [|by apply lookup_delete_Some in Hk' as [_ Hk']].
    rewrite lookup_delete_ne; [done|]. intros <-. congruence.
Qed.

Section laws.
Context `{NestedLaws St H}.
Implicit Types (s : St) (h : H) (m : gmap bytes Leaf) (cs : gmap bytes (gmap bytes Leaf)) (ex : gmap bytes Z).

Lemma expiration_ok s h m cs ex k :
  owns s h m cs → expirations_of ex (default ∅ (cs !! TTL_BUCKET)) → available m cs TTL_BUCKET → (∀ k d, ex !! k = Some d → in_u64 d) →
  ∃ s', expiration h k s = Ok (ex !! k, s') ∧ owns s' h m cs ∧ keeps None h s s'.
Proof.
  intros Ho He Hav Hu. unfold expiration, expiration_bucket. destruct Hav as [[mt Hn]|[Hn Hm]]; rewrite Hn in He; cbn in He.
  - destruct (open_ok s h m cs _ mt Ho Hn) as (c & s' & -> & Ho' & Hop & Hk). cbn [mbind res_bind].
    rewrite (child_get s' h m cs _ c mt Ho' Hop Hn), He. cbn [mbind res_bind]. destruct (ex !! k) as [d|] eqn:Ek; cbn [fmap option_fmap option_map mbind option_bind kv_of_leaf].
    + rewrite decode_expiration_ok by eauto. cbn [mbind res_bind]. eauto.
    + eauto.
  - rewrite (open_missing s h m cs _ Ho Hm). cbn. specialize (He k). rewrite lookup_empty in He. destruct (ex !! k); [done|]. exists s. by split_and!.
Qed.

Lemma remove_deadline_ok s h m cs ex d k :
  owns s h m cs → writable h = true → available m cs TTL_DEADLINES_BUCKET → deadlines_of ex (default ∅ (cs !! TTL_DEADLINES_BUCKET)) →
  ∃ s' cs', remove_deadline h d k s = Ok s' ∧ owns s' h m cs' ∧ available m cs' TTL_DEADLINES_BUCKET ∧ (∀ n c, opens s h n c → opens s' h n c) ∧
    default ∅ (cs' !! TTL_DEADLINES_BUCKET) = delete (deadline_key d k) (default ∅ (cs !! TTL_DEADLINES_BUCKET)) ∧
    ∀ n, n ≠ TTL_DEADLINES_BUCKET → cs' !! n = cs !! n.
Proof.
  intros Ho Hw Hav Hd. unfold remove_deadline. destruct Hav as [[md Hn]|[Hn Hm]]; rewrite Hn in *; cbn [default from_option id] in *.
  - destruct (open_ok s h m cs _ md Ho Hn) as (c & s' & -> & Ho' & Hop & Hk).
    pose proof (child_delete_ok s' h m cs _ c md Ho' Hop Hn (deadline_key d k) Hw) as Hdel.
    destruct (md !! deadline_key d k) as [[nm mt|k' v]|] eqn:E; [by destruct (deadlines_values _ _ _ nm mt Hd E)| |].
    + destruct Hdel as (s2 & -> & Ho2 & Hk2). exists s2, (<[TTL_DEADLINES_BUCKET := delete (deadline_key d k) md]> cs). split_and!; try done.
      * left. by rewrite lookup_insert_eq.
      * intros. eapply keeps_opens, keeps_opens; eauto.
      * by rewrite lookup_insert_eq.
      * intros n Hne. by rewrite lookup_insert_ne.
    + rewrite Hdel. exists s', cs. split_and!; try done; [left; by rewrite Hn|intros; by eapply keeps_opens|]. rewrite Hn. cbn. by rewrite delete_id.
  - rewrite (open_missing s h m cs _ Ho Hm). exists s, cs. split_and!; try done; [by right|]. rewrite Hn. cbn. by rewrite delete_empty.
Qed.

Lemma lookup_child cs n x : default ∅ (<[n := x]> cs !! n) = x.
Proof. by rewrite lookup_insert_eq. Qed.

Lemma drop_previous_ok s h m cs ex k :
  owns s h m cs → writable h = true → available m cs TTL_DEADLINES_BUCKET → (∀ k d, ex !! k = Some d → in_u64 d) →
  deadlines_of ex (default ∅ (cs !! TTL_DEADLINES_BUCKET)) →
  ∃ s' cs', drop_previous h k (((λ d, LKv k (be_bytes 8 d)) <$> ex !! k) ≫= kv_of_leaf) s = Ok s' ∧ owns s' h m cs' ∧
    (∀ n c, opens s h n c → opens s' h n c) ∧ available m cs' TTL_DEADLINES_BUCKET ∧ (∀ n, n ≠ TTL_DEADLINES_BUCKET → cs' !! n = cs !! n) ∧
    deadlines_of (delete k ex) (default ∅ (cs' !! TTL_DEADLINES_BUCKET)).
Proof.
  intros Ho Hw Hi Hu Hd. destruct (ex !! k) as [d|] eqn:Ek; cbn [fmap option_fmap option_map mbind option_bind kv_of_leaf drop_previous].
  - rewrite decode_expiration_ok by eauto. cbn [mbind res_bind].
    destruct (remove_deadline_ok s h m cs ex d k Ho Hw Hi Hd) as (s2 & cs2 & -> & Ho2 & Hi2 & Hops & Emd & Hoth). exists s2, cs2.
    split_and!; try done. rewrite Emd. by apply deadlines_delete.
  - exists s, cs. split_and!; try done. rewrite delete_id by done. done.
Qed.

Lemma set_expiration_ok s h m cs ex k t :
  owns s h m cs → ttl_ok m cs ex → writable h = true → in_u64 t →
  ∃ s' m' cs', set_expiration_millis h k t s = Ok s' ∧ owns s' h m' cs' ∧ ttl_ok m' cs' (<[k := t]> ex) ∧ same_user m m'.
Proof.
  intros Ho [Hu He Hd Hl Hi] Hw Ht. pose proof ttl_buckets_apart as Hne. unfold set_expiration_millis.
  destruct (get_or_create_ok s h m cs TTL_BUCKET Ho Hw Hl) as (c & s1 & m1 & -> & Ho1 & Hop1 & _ & [meta Hm1] & Hsame1). cbn [mbind res_bind].
  set (mt := default ∅ (cs !! TTL_BUCKET)) in *. set (cs1 := <[TTL_BUCKET := mt]> cs) in *.
  assert (cs1 !! TTL_BUCKET = Some mt) as Hmt by apply lookup_insert_eq.
  assert (cs1 !! TTL_DEADLINES_BUCKET = cs !! TTL_DEADLINES_BUCKET) as Hmd by (by apply lookup_insert_ne).
  rewrite (child_get s1 h m1 cs1 _ c mt Ho1 Hop1 Hmt), He. cbn [mbind res_bind].
  assert (available m1 cs1 TTL_DEADLINES_BUCKET) as Hi1 by (unfold available; rewrite Hmd, Hsame1 by done; done).
  destruct (drop_previous_ok s1 h m1 cs1 ex k Ho1 Hw Hi1) as (s2 & cs2 & -> & Ho2 & Hops & Hi2 & Hoth & Hd2); [done|by rewrite Hmd|].
  pose proof (Hops _ _ Hop1) as Hop2. assert (cs2 !! TTL_BUCKET = Some mt) as Hmt2 by (by rewrite Hoth).
  cbn [mbind res_bind].
  destruct (child_put_ok s2 h m1 cs2 _ c mt Ho2 Hop2 Hmt2 k (be_bytes 8 t) Hw) as (o & s3 & -> & Ho3 & Hk3 & _); [by intros; eapply expirations_values|].
  cbn [mbind res_bind]. set (mt' := <[k := LKv k (be_bytes 8 t)]> mt) in *. set (cs3 := <[TTL_BUCKET := mt']> cs2) in *.
  assert (cs3 !! TTL_DEADLINES_BUCKET = cs2 !! TTL_DEADLINES_BUCKET) as Hmd3 by (by apply lookup_insert_ne).
  destruct (get_or_create_ok s3 h m1 cs3 TTL_DEADLINES_BUCKET Ho3 Hw) as (c4 & s4 & m4 & -> & Ho4 & Hop4 & _ & [meta4 Hm4] & Hsame4).
  { unfold available. by rewrite Hmd3. }
  cbn [mbind res_bind]. rewrite Hmd3 in Ho4. set (md := default ∅ (cs2 !! TTL_DEADLINES_BUCKET)) in *.
  destruct (child_put_ok s4 h m4 _ _ c4 md Ho4 Hop4 ltac:(apply lookup_insert_eq) (deadline_key t k) [] Hw) as (o5 & s5 & -> & Ho5 & _);
    [by intros; eapply deadlines_values|].
  cbn [mbind res_bind]. eexists s5, m4, _. split; [done|]. split; [exact Ho5|].
  split.
  - split.
    + intros k' d'. rewrite lookup_insert. case_decide; [congruence|eauto].
    + rewrite !(lookup_insert_ne _ TTL_DEADLINES_BUCKET) by done. unfold cs3. rewrite lookup_child. by apply expirations_insert.
    + rewrite lookup_child, <-(insert_delete_eq ex). apply deadlines_insert; [|done|apply lookup_delete_eq|done].
      intros k' d' [_ ?]%lookup_delete_Some. eauto.
    + left. rewrite !(lookup_insert_ne _ TTL_DEADLINES_BUCKET) by done. unfold cs3. by rewrite lookup_insert_eq.
    + left. by rewrite lookup_insert_eq.
  - eapply same_user_trans; [by eapply (same_user_but _ _ TTL_BUCKET)|by eapply (same_user_but _ _ TTL_DEADLINES_BUCKET)].
Qed.

Lemma clear_ttl_ok s h m cs ex k :
  owns s h m cs → ttl_ok m cs ex → writable h = true →
  ∃ s' cs', clear_ttl h k s = Ok (bool_decide (is_Some (ex !! k)), s') ∧ owns s' h m cs' ∧ ttl_ok m cs' (delete k ex).
Proof.
  intros Ho [Hu He Hd Hl Hi] Hw. pose proof ttl_buckets_apart as Hne. unfold clear_ttl. destruct (id Hl) as [[mt Hmt]|[Hmt Hm]].
  - rewrite Hmt in He. cbn [default from_option id] in He. destruct (open_ok s h m cs _ mt Ho Hmt) as (c & s1 & -> & Ho1 & Hop1 & _).
    pose proof (child_delete_ok s1 h m cs _ c mt Ho1 Hop1 Hmt k Hw) as Hdel. rewrite He in Hdel. destruct (ex !! k) as [d|] eqn:Ek; cbn [fmap option_fmap option_map] in Hdel.
    + destruct Hdel as (s2 & -> & Ho2 & _). rewrite decode_expiration_ok by eauto. cbn [mbind res_bind].
      set (cs2 := <[TTL_BUCKET := delete k mt]> cs) in *. assert (cs2 !! TTL_DEADLINES_BUCKET = cs !! TTL_DEADLINES_BUCKET) as Hmd by (by apply lookup_insert_ne).
      assert (available m cs2 TTL_DEADLINES_BUCKET) as Hi2 by (unfold available; by rewrite Hmd).
      rewrite <-Hmd in Hd. destruct (remove_deadline_ok s2 h m cs2 ex d k Ho2 Hw Hi2 Hd) as (s3 & cs3 & -> & Ho3 & Hi3 & _ & Emd & Hoth). cbn [mbind res_bind].
      exists s3, cs3. rewrite bool_decide_eq_true_2 by done. split_and!; try done. assert (cs3 !! TTL_BUCKET = Some (delete k mt)) as Hmt3
        by (rewrite Hoth by done; apply lookup_insert_eq). split; try done.
      * intros k' d' [_ ?]%lookup_delete_Some. eauto.
      * rewrite Hmt3. by apply expirations_delete.
      * rewrite Emd. by apply deadlines_delete.
      * left. by rewrite Hmt3.
    + rewrite Hdel. exists s1, cs. rewrite bool_decide_eq_false_2 by (by intros [? ?]). rewrite delete_id by done. split_and!; try done.
      split; try done. by rewrite Hmt.
  - rewrite (open_missing s h m cs _ Ho Hm). rewrite Hmt in He. cbn in He. specialize (He k) as Hek. rewrite lookup_empty in Hek.
    destruct (ex !! k) eqn:Ek; [done|]. exists s, cs. rewrite bool_decide_eq_false_2 by (by intros [? ?]). rewrite delete_id by done.
    split_and!; try done. split; try done. by rewrite Hmt.
Qed.

Lemma ttl_ok_user m m' cs ex :
  ttl_ok m cs ex → m' !! TTL_BUCKET = m !! TTL_BUCKET → m' !! TTL_DEADLINES_BUCKET = m !! TTL_DEADLINES_BUCKET → ttl_ok m' cs ex.
Proof. intros [Hu He Hd Hl Hi] E1 E2. split; try done; unfold available in *; by rewrite ?E1, ?E2. Qed.

Lemma ttl_ok_insert m cs ex k l : ttl_ok m cs ex → is_ttl_bucket k = false → ttl_ok (<[k := l]> m) cs ex.
Proof.
  intros Ht [H5 H6]%orb_false_iff. apply bool_decide_eq_false in H5, H6. by apply (ttl_ok_user m); [|apply lookup_insert_ne..].
Qed.

Lemma ttl_ok_delete m cs ex k : ttl_ok m cs ex → is_ttl_bucket k = false → ttl_ok (delete k m) cs ex.
Proof.
  intros Ht [H5 H6]%orb_false_iff. apply bool_decide_eq_false in H5, H6. by apply (ttl_ok_user m); [|apply lookup_delete_ne..].
Qed.

(** What a reader at the time [now] (in milliseconds) sees at a key. *)
Definition visible (m : gmap bytes Leaf) (ex : gmap bytes Z) (now : Z) (k : bytes) : option (bytes * bytes) :=
  match ex !! k with
  | Some deadline => if deadline <=? now then None else m !! k ≫= kv_of_leaf
  | None => m !! k ≫= kv_of_leaf
  end.

Lemma get_live_ok s h m cs ex k time now :
  owns s h m cs → ttl_ok m cs ex → epoch_millis time = Ok now → ∃ s', get_live_at h k time s = Ok (visible m ex now k, s') ∧ owns s' h m cs.
Proof.
  intros Ho [Hu He Hd Hl Hi] Hnow. unfold get_live_at. destruct (expiration_ok s h m cs ex k Ho He Hl Hu) as (s' & -> & Ho' & _). cbn [mbind res_bind]. unfold visible.
  pose proof (get_kv_law s' h m k (owns_holds _ _ _ _ Ho')) as Hg. exists s'.
  destruct (ex !! k) as [d|]; [rewrite Hnow; cbn [mbind res_bind]; destruct (d <=? now)|]; rewrite ?Hg; cbn [mbind res_bind]; split; done.
Qed.

Lemma own_put_ok s h m cs k v :
  owns s h m cs → writable h = true → is_bucket_at m k = false →
  ∃ s', s_put h k v s = Ok (m !! k ≫= kv_of_leaf, s') ∧ owns s' h (<[k := LKv k v]> m) cs.
Proof.
  intros Ho Hw Hk. pose proof (put_law s h m k v (owns_holds _ _ _ _ Ho)) as Hp. rewrite Hw in Hp. unfold is_bucket_at in Hk.
  destruct (m !! k) as [[nm mt|k' v']|]; [done|..]; destruct Hp as (s' & E & _); exists s'; (split; [done|]); by destruct (put_own s h m cs k v _ s' Ho E).
Qed.

Lemma value_at_kv m k : snd <$> (m !! k ≫= kv_of_leaf) = value_at m k.
Proof. unfold value_at. by destruct (m !! k) as [[|]|]. Qed.

(** C28: Expiry does what it says.  On a bucket whose two hidden buckets agree on the
    deadlines [ex], at a key that is not one of their names: [get_live_at] reads the
    value exactly when its deadline has not passed; [put_with_ttl] writes the value,
    sets its deadline and returns the value that was there, or fails on a nested
    bucket and for a time that cannot be stored; [clear_ttl] forgets the deadline
    and tells whether there was one; [update_value] applies the caller's function to
    the stored value and makes the result permanent.  The hidden buckets agree
    again after each of them, and no other entry or deadline changes. *)
Theorem ttl_methods_exact (s : St) (h : H) (m : gmap bytes Leaf) (cs : gmap bytes (gmap bytes Leaf)) (ex : gmap bytes Z)
    (k v : bytes) (time : SystemTime) (update : option bytes → option bytes) :
  owns s h m cs → ttl_ok m cs ex → is_ttl_bucket k = false → is_bucket_at m k = false → writable h = true →
  let becomes (s' : St) m' ex' := ∃ m2 cs2, owns s' h m2 cs2 ∧ ttl_ok m2 cs2 ex' ∧ same_user m' m2 in
  (∀ now, epoch_millis time = Ok now → ∃ s', get_live_at h k time s = Ok (visible m ex now k, s') ∧ becomes s' m ex) ∧
  match epoch_millis time with
  | Ok deadline => ∃ s', put_with_ttl h k v time s = Ok (value_at m k, deadline, s') ∧ becomes s' (<[k := LKv k v]> m) (<[k := deadline]> ex)
  | Err e => put_with_ttl h k v time s = Err e
  | Panic _ => False
  end ∧
  (∃ s', clear_ttl h k s = Ok (bool_decide (is_Some (ex !! k)), s') ∧ becomes s' m (delete k ex)) ∧
  ∃ s', update_value h k update s = Ok (value_at m k, s') ∧
    match update (value_at m k) with
    | Some x => becomes s' (<[k := LKv k x]> m) (delete k ex)
    | None => becomes s' (delete k m) (match value_at m k with Some _ => delete k ex | None => ex end)
    end.
Proof.
  intros Ho Ht Hr Hk Hw. cbv zeta. pose proof Ht as [Hu He Hd Hl Hi]. split_and!.
  - intros now Hnow. destruct (get_live_ok s h m cs ex k time now Ho Ht Hnow) as (s' & -> & Ho'). exists s'. split; [done|]. by exists m, cs.
  - assert (∀ d, epoch_millis time = Ok d → in_u64 d) as Hms.
    { intros d. unfold epoch_millis. destruct (Z.ltb_spec time 0); [done|]. cbn [fail_if mbind res_bind]. destruct (Z.ltb_spec u64_max (time / 1000000)); [done|].
      intros [= <-]. pose proof (Z.div_pos time 1000000). unfold in_u64, u64_mod, u64_max in *. lia. }
    unfold put_with_ttl. destruct (epoch_millis time) as [d| |] eqn:Em; cbn [mbind res_bind]; [|done|].
    + destruct (own_put_ok s h m cs k v Ho Hw Hk) as (s1 & -> & Ho1). cbn [mbind res_bind].
      destruct (set_expiration_ok s1 h _ cs ex k d Ho1) as (s2 & m2 & cs2 & -> & Ho2 & Ht2 & Hsu); [by apply ttl_ok_insert|done|by apply Hms|].
      cbn [mbind res_bind]. rewrite value_at_kv. exists s2. split; [done|]. by exists m2, cs2.
    + unfold epoch_millis in Em. by destruct (time <? 0), (u64_max <? time / 1000000).
  - destruct (clear_ttl_ok s h m cs ex k Ho Ht Hw) as (s' & cs' & -> & Ho' & Ht'). exists s'. split; [done|]. by exists m, cs'.
  - unfold update_value. rewrite (get_kv_law s h m k (owns_holds _ _ _ _ Ho)). cbn [mbind res_bind]. rewrite value_at_kv.
    destruct (update (value_at m k)) as [x|].
    + destruct (own_put_ok s h m cs k x Ho Hw Hk) as (s1 & -> & Ho1). cbn [mbind res_bind].
      destruct (clear_ttl_ok s1 h _ cs ex k Ho1) as (s2 & cs2 & -> & Ho2 & Ht2); [by apply ttl_ok_insert|done|]. cbn [mbind res_bind].
      exists s2. split; [done|]. by exists (<[k := LKv k x]> m), cs2.
    + destruct (value_at m k) as [x|] eqn:Ev; [|exists s; split; [done|]; exists m, cs; split_and!; try done].
      2: { intros k' _. unfold value_at, is_bucket_at in *. rewrite lookup_delete. case_decide; [subst|done]. by destruct (m !! k') as [[|]|]. }
      pose proof (delete_law s h m k (owns_holds _ _ _ _ Ho)) as Hp. rewrite Hw in Hp. unfold value_at in Ev.
      destruct (m !! k) as [[|k' v']|]; [done| |done]. destruct Hp as (s1 & E & _). rewrite E. cbn [mbind res_bind].
      destruct (delete_own s h m cs k _ s1 Ho E) as [Ho1 _].
      destruct (clear_ttl_ok s1 h _ cs ex k Ho1) as (s2 & cs2 & -> & Ho2 & Ht2); [by apply ttl_ok_delete|done|]. cbn [mbind res_bind].
      exists s2. split; [congruence|]. by exists (delete k m), cs2.
Qed.

(** ** Cleaning up *)

(** The pairs of the index, from the deadlines and keys they stand for. *)
Definition index_entry (e : Z * bytes) : bytes * bytes := (deadline_key e.1 e.2, []).
Definition due_entry (e : Z * bytes) : bytes * bytes := (deadline_key e.1 e.2, e.2).

Lemma collect_expired_ok es now room :
  StronglySorted (λ e e', e.1 <= e'.1) es → Forall (λ e, in_u64 e.1) es → 0 < room →
  collect_expired (index_entry <$> es) now room = Ok (due_entry <$> take (Z.to_nat room) (filter (λ e, e.1 <= now) es)).
Proof.
  intros Hs Hu. revert room. induction Hs as [|[d k] es Hs IH Hall]; intros room Hr; [by destruct (Z.to_nat room)|].
  apply Forall_cons in Hu as [Hd Hu]. cbn [fmap list_fmap index_entry fst snd collect_expired]. rewrite decode_deadline_key_ok by done.
  cbn [mbind res_bind]. rewrite filter_cons. cbn [fst]. destruct (Z.ltb_spec now d).
  - rewrite decide_False by lia. assert (filter (λ e : Z * bytes, e.1 <= now) es = []) as ->; [|by destruct (Z.to_nat room)].
    destruct (filter (λ e : Z * bytes, e.1 <= now) es) as [|e l] eqn:E; [done|]. assert (e ∈ filter (λ e : Z * bytes, e.1 <= now) es) as [Hle Hin]%list_elem_of_filter
      by (rewrite E; left). rewrite Forall_forall in Hall. specialize (Hall e Hin). cbn in Hall. lia.
  - rewrite decide_True by lia. destruct (Z.eqb_spec room 1) as [->|]; [done|]. rewrite IH by (done || lia). cbn [mbind res_bind].
    replace (Z.to_nat room) with (S (Z.to_nat (room - 1))) by lia. done.
Qed.

(** Earlier deadlines first, then the order of the keys. *)
Definition sooner (e e' : Z * bytes) : Prop := e.1 < e'.1 ∨ e.1 = e'.1 ∧ lex_lt e.2 e'.2.

Lemma deadline_key_order d d' k k' : in_u64 d → in_u64 d' →
  lex_lt (deadline_key d k) (deadline_key d' k') → sooner (d, k) (d', k').
Proof.
  intros Hd Hd' Hlt. unfold lex_lt, deadline_key in *. rewrite lex_cmp_app in Hlt by (by rewrite !length_be_bytes).
  rewrite lex_cmp_be_bytes8 in Hlt by done. destruct (Z.compare_spec d d'); [right|left|]; done.
Qed.

Lemma index_entries ex md ps :
  (∀ k d, ex !! k = Some d → in_u64 d) → deadlines_of ex md → lists_pairs md ps →
  ∃ es, ps = index_entry <$> es ∧ StronglySorted sooner es ∧ ∀ d k, (d, k) ∈ es ↔ ex !! k = Some d.
Proof.
  intros Hu Hd [Hs Hin]. assert (∀ p, p ∈ ps → ∃ d k, p = index_entry (d, k) ∧ ex !! k = Some d) as Hps.
  { intros [x v] (k & d & Hk & -> & [= ->])%Hin%Hd. by exists d, k. }
  assert (∃ es, ps = index_entry <$> es ∧ ∀ e, e ∈ es → ex !! e.2 = Some e.1) as (es & -> & Hes).
  { clear Hs Hin. induction ps as [|p ps IH]; [by exists []; split; [|intros ? ?%elem_of_nil]|]. destruct (Hps p) as (d & k & -> & Hk); [left|].
    destruct IH as (es & -> & Hes); [intros; apply Hps; by right|]. exists ((d, k) :: es). split; [done|]. intros e [->|?]%elem_of_cons; eauto. }
  exists es. split_and!; [done| |].
  - clear Hin Hps. induction es as [|[d k] es IH]; [constructor|]. cbn [fmap list_fmap] in Hs. apply keys_sorted_cons in Hs as [Hlt Hs].
    constructor; [apply IH; [done|]; intros; apply Hes; by right|]. apply Forall_forall. intros [d' k'] Hin'.
    pose proof (Hes (d, k) ltac:(left)) as Hk. pose proof (Hes (d', k') ltac:(by right)) as Hk'. cbn in Hk, Hk'.
    apply deadline_key_order; [by eapply Hu..|]. apply (Hlt (index_entry (d', k'))). by apply list_elem_of_fmap_2.
  - intros d k. split; [apply Hes|]. intros Hk.
    assert (index_entry (d, k) ∈ index_entry <$> es) as ([d' k'] & E%(f_equal fst) & He)%list_elem_of_fmap.
    { apply Hin, Hd. by exists k, d. }
    pose proof (Hes _ He) as Hk'. cbn [fst snd] in Hk'. unfold index_entry in E. cbn [fst snd] in E.
    destruct (deadline_key_inj d d' k k') as [<- <-]; eauto.
Qed.

(** The state of the loop: both hidden buckets open. *)
Record purging (s : St) (h expirations deadlines : H) (m : gmap bytes Leaf) (cs : gmap bytes (gmap bytes Leaf)) (ex : gmap bytes Z) : Prop := {
  pu_owns : owns s h m cs;
  pu_lookup : opens s h TTL_BUCKET expirations;
  pu_index : opens s h TTL_DEADLINES_BUCKET deadlines;
  pu_u64 : ∀ k d, ex !! k = Some d → in_u64 d;
  pu_expirations : ∃ mt, cs !! TTL_BUCKET = Some mt ∧ expirations_of ex mt;
  pu_deadlines : ∃ md, cs !! TTL_DEADLINES_BUCKET = Some md ∧ deadlines_of ex md
}.

Lemma purge_one_ok s h expirations deadlines m cs ex d k :
  purging s h expirations deadlines m cs ex → writable h = true → ex !! k = Some d → is_bucket_at m k = false →
  ∃ s' cs', purge_one h expirations deadlines s (due_entry (d, k)) = Ok s' ∧ purging s' h expirations deadlines (delete k m) cs' (delete k ex).
Proof.
  intros [Ho Hl Hi Hu (mt & Hmt & He) (md & Hmd & Hd)] Hw Hk Hb. pose proof ttl_buckets_apart as Hne. unfold purge_one, due_entry. cbn [fst snd].
  assert (∃ s1, s_expire h k s = Ok s1 ∧ owns s1 h (delete k m) cs ∧ keeps None h s s1) as (s1 & -> & Ho1 & Hk1).
  { pose proof (expire_own s h m cs k Ho) as Hx. unfold is_bucket_at in Hb. by destruct (m !! k) as [[|]|]. }
  cbn [mbind res_bind]. pose proof (child_delete_ok s1 h _ cs _ _ mt Ho1 (keeps_opens _ _ _ _ _ _ Hk1 Hl) Hmt k Hw) as Hdel.
  rewrite He, Hk in Hdel. destruct Hdel as (s2 & -> & Ho2 & Hk2). cbn [mbind res_bind].
  set (cs2 := <[TTL_BUCKET := delete k mt]> cs) in *. assert (cs2 !! TTL_DEADLINES_BUCKET = Some md) as Hmd2 by (unfold cs2; by rewrite lookup_insert_ne).
  pose proof (keeps_opens _ _ _ _ _ _ Hk2 (keeps_opens _ _ _ _ _ _ Hk1 Hi)) as Hi2.
  pose proof (child_delete_ok s2 h _ cs2 _ _ md Ho2 Hi2 Hmd2 (deadline_key d k) Hw) as Hdel.
  assert (md !! deadline_key d k = Some (LKv (deadline_key d k) [])) as E by (apply Hd; by exists k, d). rewrite E in Hdel.
  destruct Hdel as (s3 & -> & Ho3 & Hk3). cbn [mbind res_bind]. eexists s3, _. split; [done|]. split; [exact Ho3|..].
  - eapply keeps_opens; [exact Hk3|]. eapply keeps_opens; [exact Hk2|]. by eapply keeps_opens.
  - by eapply keeps_opens.
  - intros k' d' [_ ?]%lookup_delete_Some. eauto.
  - exists (delete k mt). rewrite lookup_insert_ne by done. split; [apply lookup_insert_eq|by apply expirations_delete].
  - eexists. split; [apply lookup_insert_eq|]. by apply deadlines_delete.
Qed.

Lemma purge_all_ok gone s h expirations deadlines m cs ex :
  purging s h expirations deadlines m cs ex → writable h = true → NoDup (gone.*2) →
  (∀ d k, (d, k) ∈ gone → ex !! k = Some d ∧ is_bucket_at m k = false) →
  ∃ s' cs', res_fold (purge_one h expirations deadlines) s (due_entry <$> gone) = Ok s' ∧
    purging s' h expirations deadlines (filter (λ kl, kl.1 ∉ gone.*2) m) cs' (filter (λ kl, kl.1 ∉ gone.*2) ex).
Proof.
  revert s m cs ex. induction gone as [|[d k] gone IH]; intros s m cs ex Hp Hw Hnd Hg.
  - exists s, cs. split; [done|]. by rewrite !map_filter_id by (intros; cbn; apply not_elem_of_nil).
  - cbn [fmap list_fmap] in Hnd. apply NoDup_cons in Hnd as [Hnk Hnd]. destruct (Hg d k) as [Hk Hb]; [left|].
    destruct (purge_one_ok s h _ _ m cs ex d k Hp Hw Hk Hb) as (s1 & cs1 & E1 & Hp1).
    destruct (IH s1 (delete k m) cs1 (delete k ex) Hp1 Hw Hnd) as (s2 & cs2 & E2 & Hp2).
    { intros d' k' Hin. destruct (Hg d' k') as [Hk' Hb']; [by right|].
      assert (k' ≠ k) as Hne by (intros ->; apply Hnk; by apply (list_elem_of_fmap_2 snd gone (d', k))).
      unfold is_bucket_at. by rewrite !lookup_delete_ne. }
    exists s2, cs2. cbn [fmap list_fmap res_fold snd]. rewrite E1. cbn [mbind res_bind]. split; [done|]. by rewrite <-!filter_delete_cons.
Qed.

(** The entries of the map, whatever their order. *)
Lemma entries_count ex (es : list (Z * bytes)) now :
  NoDup (es.*2) → (∀ d k, (d, k) ∈ es ↔ ex !! k = Some d) →
  length (filter (λ e, e.1 <= now) es) = size (filter (λ kd : bytes * Z, kd.2 <= now) ex).
Proof.
  intros Hnd Hin. assert (NoDup es) as Hes by (by eapply NoDup_fmap_1). rewrite <-length_map_to_list, <-(length_fmap (λ e : Z * bytes, (e.2, e.1))).
  apply Permutation_length, NoDup_Permutation.
  - apply NoDup_fmap_2; [intros [] []; cbn; congruence|by apply NoDup_filter].
  - apply NoDup_map_to_list.
  - intros [k d]. rewrite list_elem_of_fmap, elem_of_map_to_list, map_lookup_filter_Some, <-Hin. cbn. split.
    + intros ([d' k'] & [= -> ->] & [? ?]%list_elem_of_filter). done.
    + intros [? ?]. exists (d, k). split; [done|]. by apply list_elem_of_filter.
Qed.

Lemma sooner_keys (es : list (Z * bytes)) ex : StronglySorted sooner es → (∀ d k, (d, k) ∈ es ↔ ex !! k = Some d) → NoDup (es.*2).
Proof.
  intros Hs Hin. assert (∀ d k, (d, k) ∈ es → ex !! k = Some d) as Hin' by (intros; by apply Hin). clear Hin. induction Hs as [|[d k] es Hs IH Hall]; [constructor|].
  cbn [fmap list_fmap snd]. constructor; [|apply IH; intros; apply Hin'; by right]. intros ([d' k'] & -> & Hin)%list_elem_of_fmap. cbn in *.
  assert (d' = d) as -> by (pose proof (Hin' d k' ltac:(left)); pose proof (Hin' d' k' ltac:(by right)); congruence).
  rewrite Forall_forall in Hall. destruct (Hall _ Hin) as [?|[_ Hlt]]; cbn in *; [lia|]. by apply (lex_lt_irrefl k').
Qed.

(** The choice of the loop: the first entries that are due. *)
Lemma due_first ex (es : list (Z * bytes)) now limit :
  StronglySorted sooner es → (∀ d k, (d, k) ∈ es ↔ ex !! k = Some d) → 0 < limit →
  let gone := take (Z.to_nat limit) (filter (λ e, e.1 <= now) es) in
  NoDup (gone.*2) ∧ (∀ d k, (d, k) ∈ gone → ex !! k = Some d ∧ d <= now) ∧
  Z.of_nat (length gone) = Z.min limit (Z.of_nat (size (filter (λ kd : bytes * Z, kd.2 <= now) ex))) ∧
  ∀ d k k' d', (d, k) ∈ gone → ex !! k' = Some d' → k' ∉ gone.*2 → sooner (d, k) (d', k').
Proof.
  intros Hsort Hes Hlim gone. pose proof (sooner_keys es ex Hsort Hes) as Hnd. unfold gone. set (due := filter (λ e : Z * bytes, e.1 <= now) es).
  assert (∀ d k, (d, k) ∈ take (Z.to_nat limit) due → ex !! k = Some d ∧ d <= now) as Hgone.
  { intros d k (j & Hj & _)%elem_of_take. apply list_elem_of_lookup_2, list_elem_of_filter in Hj as [Hle Hin]. split; [by apply Hes|done]. }
  split_and!; [|done| |].
  - eapply sublist_NoDup; [exact Hnd|]. apply fmap_sublist. etrans; [apply sublist_take|apply sublist_filter].
  - rewrite length_take, <-(entries_count ex es now Hnd Hes). fold due. lia.
  - intros d k k' d' Hin Hk' Hnin. destruct (Hgone d k Hin) as [_ Hle]. destruct (decide (d' <= now)) as [Hle'|]; [|left; cbn; lia].
    apply (StronglySorted_split sooner due (Z.to_nat limit)); [|exact Hin|].
    { eapply StronglySorted_sublist; [apply sublist_filter|exact Hsort]. }
    assert ((d', k') ∈ due) as Hdue by (apply list_elem_of_filter; split; [done|by apply Hes]).
    rewrite <-(take_drop (Z.to_nat limit) due), elem_of_app in Hdue. destruct Hdue as [Hdue|Hdue]; [|done].
    destruct Hnin. by apply (list_elem_of_fmap_2 snd _ (d', k')).
Qed.

Lemma lookup_without {A} (x : gmap bytes A) (gone : list bytes) k :
  filter (λ kl, kl.1 ∉ gone) x !! k = if decide (k ∈ gone) then None else x !! k.
Proof. apply option_eq. intros a. rewrite map_lookup_filter_Some. cbn. case_decide; naive_solver. Qed.

(** Removing expired keys is not visible. *)
Lemma visible_without m ex now (gone : list bytes) k :
  (∀ k, k ∈ gone → ∃ d, ex !! k = Some d ∧ d <= now) →
  visible (filter (λ kl, kl.1 ∉ gone) m) (filter (λ kl, kl.1 ∉ gone) ex) now k = visible m ex now k.
Proof.
  intros Hgone. unfold visible. rewrite !lookup_without. case_decide as Hk; [|done]. destruct (Hgone k Hk) as (d & -> & Hle).
  by rewrite (proj2 (Z.leb_le d now)).
Qed.


(** A large limit panics.  [purge_expired] reserves memory for [limit] entries
    before it looks for the first, so a limit whose entries could not be addressed
    (above 192153584101141162, [usize::MAX] say, for "all of them") is a panic and
    not a cleanup, whatever has expired. *)
Theorem purge_limit_overflow (n : nat) (s : St) (h : H) (m : gmap bytes Leaf) (cs : gmap bytes (gmap bytes Leaf))
    (time : SystemTime) (now limit : Z) :
  owns s h m cs → is_Some (cs !! TTL_BUCKET) → is_Some (cs !! TTL_DEADLINES_BUCKET) → writable h = true →
  epoch_millis time = Ok now → 192153584101141162 < limit →
  purge_expired n h time limit s = Panic "capacity overflow".
Proof.
  intros Ho [mt Hmt] [md Hmd] Hw Htime Hlim. unfold purge_expired. rewrite writable_law, Hw. cbn [negb fail_if mbind res_bind].
  rewrite (proj2 (Z.eqb_neq limit 0)) by lia. rewrite Htime. cbn [mbind res_bind].
  destruct (open_ok s h m cs _ mt Ho Hmt) as (c & s1 & -> & Ho1 & _). unfold deadline_index.
  destruct (open_ok s1 h m cs _ md Ho1 Hmd) as (c2 & s2 & -> & _). cbn [mbind res_bind].
  unfold with_capacity. by rewrite (proj2 (Z.leb_gt _ _)) by (unfold isize_max; lia).
Qed.

End laws.

(** ** A bucket in memory *)

Module Fresh.

Definition state : TxState :=
  mkTxState {[0 := new_child_bucket (mkPages [] 1024)]} (tx_freelist_new (demo_meta 5) freelist_new) (tracker_new true).
Definition handle : Bucket := mkBucket 0 true [[Byte.x72]].
Definition key : bytes := [Byte.x6b].

Lemma state_owns : tx_owns 9 state handle ∅ ∅.
Proof.
  exists (new_child_bucket (mkPages [] 1024)), O, [], [0]. split_and!; try done; [apply new_child_wf|lia|]. split.
  - intros r [b Hb]. cbn [state ts_buckets] in Hb. apply lookup_singleton_Some in Hb as [<- _]. split; [lia|reflexivity].
  - done.
  - done.
Qed.

Lemma state_ttl : ttl_ok ∅ ∅ ∅.
Proof.
  split; [done|done| |by right..]. intros x l. split; [done|]. by intros (k & d & ? & _).
Qed.

(** After the deadline 5 was set for the key. *)
Lemma primed : ∃ s m cs md,
  tx_owns 9 s handle m cs ∧ ttl_ok m cs {[key := 5]} ∧ is_Some (cs !! TTL_BUCKET) ∧ cs !! TTL_DEADLINES_BUCKET = Some md ∧
  tx_child_full 9 s handle TTL_DEADLINES_BUCKET md ∧ (size md < 9)%nat ∧ m !! key = None.
Proof.
  pose proof ttl_buckets_apart as Hne.
  destruct (tx_create_bucket_law 9 state handle ∅ ∅ TTL_BUCKET state_owns eq_refl) as (c1 & s1 & _ & Ho1 & Hop1 & _); [done|].
  destruct (tx_create_bucket_law 9 s1 handle _ _ TTL_DEADLINES_BUCKET Ho1 eq_refl) as (c2 & s2 & _ & Ho2 & Hop2 & Hf2 & Hk2); [by rewrite lookup_insert_ne|].
  destruct (child_put_ok (H0 := tx_store 9) (H1 := tx_laws 9) (H2 := tx_nested 9) (H3 := tx_view 9) (H4 := tx_nested_laws 9)
    s2 handle _ _ TTL_BUCKET c1 ∅ Ho2 (proj1 Hk2 _ _ Hop1)) with (k := key) (v := be_bytes 8 5) as (o3 & s3 & _ & Ho3 & Hk3 & _);
    [by rewrite lookup_insert_ne by done; apply lookup_insert_eq|done|done|].
  destruct (child_put_ok (H0 := tx_store 9) (H1 := tx_laws 9) (H2 := tx_nested 9) (H3 := tx_view 9) (H4 := tx_nested_laws 9)
    s3 handle _ _ TTL_DEADLINES_BUCKET c2 ∅ Ho3 (proj1 Hk3 _ _ Hop2)) with (k := deadline_key 5 key) (v := @nil Byte.byte) as (o4 & s4 & _ & Ho4 & Hk4 & Hf4);
    [by rewrite lookup_insert_ne by done; apply lookup_insert_eq|done|done|].
  eexists s4, _, _, _. split; [exact Ho4|]. split_and!.
  - split.
    + intros k d [<- <-]%lookup_singleton_Some. apply (bool_decide_unpack _). vm_compute. exact I.
    + rewrite (lookup_insert_ne _ TTL_DEADLINES_BUCKET), lookup_child by done. apply (expirations_insert ∅). done.
    + rewrite lookup_child. apply (deadlines_insert ∅); [done|apply (bool_decide_unpack _); vm_compute; exact I|done|]. apply (ttl_deadlines _ _ _ state_ttl).
    + left. by rewrite lookup_insert_ne, lookup_insert_eq by done.
    + left. by rewrite lookup_insert_eq.
  - by rewrite lookup_insert_ne, lookup_insert_eq by done.
  - apply lookup_insert_eq.
  - apply Hf4; [|unfold u64_max; rewrite map_size_empty; lia]. apply (proj2 Hk3); [congruence|exact Hf2].
  - rewrite map_size_insert, lookup_empty, map_size_empty. lia.
  - rewrite !lookup_insert_ne by done. done.
Qed.

End Fresh.

Lemma ttl_methods_exact_witness :
  ∃ s', put_with_ttl (H0 := tx_store 9) (H1 := tx_nested 9) Fresh.handle Fresh.key [Byte.x01] 7000000 Fresh.state = Ok (None, 7, s').
Proof.
  destruct (ttl_methods_exact (H0 := tx_store 9) (H1 := tx_laws 9) (H2 := tx_nested 9) (H3 := tx_view 9) (H4 := tx_nested_laws 9)
    Fresh.state Fresh.handle ∅ ∅ ∅ Fresh.key [Byte.x01] 7000000 (λ _, None) Fresh.state_owns Fresh.state_ttl eq_refl eq_refl eq_refl) as (_ & (s' & E & _) & _).
  exists s'. exact E.
Defined.


Lemma purge_limit_overflow_witness :
  ∃ s, purge_expired (H0 := tx_store 9) (H1 := tx_nested 9) 9 Fresh.handle 6000000 u64_max s = Panic "capacity overflow".
Proof.
  destruct Fresh.primed as (s & m & cs & md & Ho & Ht & Hl & Hmd & _). exists s.
  apply (purge_limit_overflow (H0 := tx_store 9) (H1 := tx_laws 9) (H2 := tx_nested 9) (H3 := tx_view 9) (H4 := tx_nested_laws 9)
    9 s Fresh.handle m cs 6000000 6 u64_max Ho Hl).
  - rewrite Hmd. exists md. reflexivity.
  - reflexivity.
  - reflexivity.
  - apply Z.ltb_lt. vm_compute. reflexivity.
Defined.

(** ** A file from before the index *)

Module Legacy.

#[local] Existing Instance tx_store.

Definition old_key : bytes := [Byte.x61].
Definition new_key : bytes := [Byte.x62].

(** A value and its expiration at the time 5, and no index. *)
Definition state : res TxState :=
  '(_, s) ← bucket_put 9 Fresh.handle old_key [Byte.x01] Fresh.state;
  '(ttl, s) ← bucket_create_bucket 9 Fresh.handle TTL_BUCKET s;
  '(_, s) ← bucket_put 9 ttl old_key (be_bytes 8 5) s;
  Ok s.

Definition purge (s : TxState) : res (Z * TxState) :=
  purge_expired (H0 := tx_store 9) (H1 := tx_nested 9) 9 Fresh.handle 100000000 50 s.

End Legacy.

(** A write with an expiry hides the expiries of an older file.  When the deadline
    index is missing, [purge_expired] builds it from the expirations and removes what
    expired.  [put_with_ttl] creates the index with its own key only: from then on
    the older expirations are never cleaned up, here the value at [old_key], which
    expired long before the cleanup and is still stored after it. *)
Theorem legacy_deadlines_lost :
  (s ← Legacy.state; '(r, s) ← Legacy.purge s; v ← bucket_get_kv 9 Fresh.handle Legacy.old_key s; Ok (r, v)) = Ok (1, None) ∧
  (s ← Legacy.state;
   '(_, _, s) ← put_with_ttl (H0 := tx_store 9) (H1 := tx_nested 9) Fresh.handle Legacy.new_key [Byte.x02] 7000000 s;
   '(r, s) ← Legacy.purge s;
   '(r2, s) ← Legacy.purge s;
   v ← bucket_get_kv 9 Fresh.handle Legacy.old_key s;
   Ok (r, r2, v)) = Ok (1, 0, Some (Legacy.old_key, [Byte.x01])).
Proof. split; vm_compute; reflexivity. Qed.
