(* ===== verification/Schema.v ===== *)
(** * Collections and their schemas: [src/src/application/definition.rs], [mod.rs]

    A collection is a bucket with a typed content; the bucket [SCHEMA_BUCKET] of the
    root records, for the path of every collection, the identity and version of its
    schema.  A definition's name, parents and identity are Rust strings; the codec is
    not part of what is stored. *)

From S2P Require Import Prelude Search Support Layout Meta Freelist Node Page PageNode Inner Spill Buckets Cursor Changes Codecs Handle Store Nested Ttl.

(** ** Definitions *)

Inductive OpenPolicy := Existing | Create | CreateOrOpen.

Record CollectionDef := mkDef {
  def_name : string;
  def_parents : list string;
  def_schema_id : string;
  def_schema_version : Z;
  def_policy : OpenPolicy
}.

Definition def_new (name : string) : CollectionDef := mkDef name [] name 1 CreateOrOpen.
Definition def_nested (parents : list string) (name : string) : CollectionDef := mkDef name parents name 1 CreateOrOpen.
Definition def_schema (d : CollectionDef) (id : string) (version : Z) : CollectionDef :=
  mkDef (def_name d) (def_parents d) id version (def_policy d).
Definition def_open_policy (d : CollectionDef) (policy : OpenPolicy) : CollectionDef :=
  mkDef (def_name d) (def_parents d) (def_schema_id d) (def_schema_version d) policy.

(** The bucket's name is a zero byte and this text. *)
Definition SCHEMA_BUCKET : string := String Ascii.zero "tagdata.schema".

Definition validate_definition (d : CollectionDef) : cres unit :=
  if bool_decide (def_name d = EmptyString) || bool_decide (def_name d = SCHEMA_BUCKET)
     || existsb (λ part, bool_decide (part = EmptyString)) (def_parents d)
     || bool_decide (def_schema_id d = EmptyString) || (def_schema_version d =? 0)
  then CErr InvalidDefinition else COk ().

Definition schema_bytes (d : CollectionDef) : bytes := be_bytes 4 (def_schema_version d) ++ bytes_of_string (def_schema_id d).

(** [part.len() as u32], then the part. *)
Definition schema_part (part : string) : bytes :=
  let b := bytes_of_string part in be_bytes 4 (len_u64 b mod 2 ^ 32) ++ b.

Definition schema_key (d : CollectionDef) : bytes := concat (schema_part <$> (def_parents d ++ [def_name d])).

(** ** Opening *)

Section open.
Context (fuel : nat) (writable : bool).

Definition check_schema (schemas : Bucket) (d : CollectionDef) (s : TxState) : cres unit :=
  actual ← from_storage (bucket_get_kv fuel schemas (schema_key d) s);
  match actual with
  | None => CErr (SchemaMissing (def_name d))
  | Some (_, value) =>
      if bool_decide (value = schema_bytes d) then COk ()
      else CErr (SchemaMismatch (def_name d) (def_schema_id d) (def_schema_version d))
  end.

Definition descend (open_ : Bucket → bytes → TxState → res (Bucket * TxState)) (bucket : Bucket) (rest : list string) (s : TxState) : res (Bucket * TxState) :=
  res_fold (λ '(bucket, s) part, open_ bucket (bytes_of_string part) s) (bucket, s) rest.

Definition open_read (parents : list string) (name : string) (s : TxState) : res (Bucket * TxState) :=
  match parents with
  | [] => tx_get_bucket fuel writable (bytes_of_string name) s
  | first :: rest =>
      '(bucket, s) ← tx_get_bucket fuel writable (bytes_of_string first) s;
      '(bucket, s) ← descend (bucket_get_bucket fuel) bucket rest s;
      bucket_get_bucket fuel bucket (bytes_of_string name) s
  end.

Definition open_write (parents : list string) (name : string) (create_only : bool) (s : TxState) : res (Bucket * TxState) :=
  match parents with
  | [] =>
      if create_only then tx_create_bucket fuel writable (bytes_of_string name) s
      else tx_get_or_create_bucket fuel writable (bytes_of_string name) s
  | first :: rest =>
      '(bucket, s) ← tx_get_or_create_bucket fuel writable (bytes_of_string first) s;
      '(bucket, s) ← descend (bucket_get_or_create_bucket fuel) bucket rest s;
      if create_only then bucket_create_bucket fuel bucket (bytes_of_string name) s
      else bucket_get_or_create_bucket fuel bucket (bytes_of_string name) s
  end.

(** [Tx::collection]: the bucket of the collection. *)
Definition collection (d : CollectionDef) (s : TxState) : cres (Bucket * TxState) :=
  _ ← validate_definition d;
  '(raw, s) ← from_storage (open_read (def_parents d) (def_name d) s);
  '(schemas, s) ← from_storage (tx_get_bucket fuel writable (bytes_of_string SCHEMA_BUCKET) s);
  _ ← check_schema schemas d s;
  COk (raw, s).

(** [Tx::collection_mut].  A failed [open_read] leaves what it had opened open; the
    model goes on from the state before it. *)
Definition collection_mut (d : CollectionDef) (s : TxState) : cres (Bucket * TxState) :=
  _ ← validate_definition d;
  let existing := open_read (def_parents d) (def_name d) s in
  match existing with
  | Panic w => CPanic w
  | _ =>
      let existed := match existing with Ok _ => true | _ => false end in
      let s := match existing with Ok (_, s) => s | _ => s end in
      '(raw, s) ← from_storage (match def_policy d with
        | Existing => existing
        | Create => open_write (def_parents d) (def_name d) true s
        | CreateOrOpen => open_write (def_parents d) (def_name d) false s
        end);
      '(schemas, s) ← from_storage (tx_get_or_create_bucket fuel writable (bytes_of_string SCHEMA_BUCKET) s);
      if existed : bool then
        _ ← check_schema schemas d s;
        COk (raw, s)
      else
        '(_, s) ← from_storage (bucket_put fuel schemas (schema_key d) (schema_bytes d) s);
        COk (raw, s)
  end.

End open.

(** ** What the stored record identifies *)

#[global] Instance bytes_of_string_inj : Inj (=) (=) bytes_of_string.
Proof.
  intros a b E. rewrite <-(String.string_of_list_ascii_of_string a), <-(String.string_of_list_ascii_of_string b). f_equal.
  unfold bytes_of_string in E. apply (list_fmap_eq_inj (byte_of_Z ∘ Z.of_N ∘ Ascii.N_of_ascii)); [|exact E]. intros x y Hxy. cbn in Hxy.
  apply (f_equal Z_of_byte) in Hxy. pose proof (Ascii.N_ascii_bounded x). pose proof (Ascii.N_ascii_bounded y).
  rewrite !Z_of_byte_of_Z, !Z.mod_small in Hxy by lia. apply N2Z.inj in Hxy.
  by rewrite <-(Ascii.ascii_N_embedding x), <-(Ascii.ascii_N_embedding y), Hxy.
Qed.

(** Strings shorter than four gigabytes, as a slice of a 64-bit machine can exceed. *)
Definition short (part : string) : Prop := len_u64 (bytes_of_string part) < 2 ^ 32.

Lemma schema_part_inj a b x y : short a → short b → schema_part a ++ x = schema_part b ++ y → a = b ∧ x = y.
Proof.
  unfold short, schema_part. intros Ha Hb E. rewrite <-!app_assoc in E. unfold len_u64 in *. rewrite !Z.mod_small in E by lia.
  apply app_inj_1 in E as [E1 E2]; [|by rewrite !length_be_bytes]. apply (f_equal of_be) in E1. rewrite !of_be_bytes4 in E1 by lia.
  apply app_inj_1 in E2 as [E2 E3]; [|lia]. split; [by apply (inj bytes_of_string)|done].
Qed.

Lemma schema_parts_inj l l' : Forall short l → Forall short l' → concat (schema_part <$> l) = concat (schema_part <$> l') → l = l'.
Proof.
  intros Hl. revert l'. induction Hl as [|a l Ha Hl IH]; intros [|b l'] Hl' E; [done|..].
  - cbn [fmap list_fmap concat] in E. apply (f_equal length) in E. unfold schema_part in E. rewrite !length_app, length_be_bytes in E. cbn [length] in E. lia.
  - cbn [fmap list_fmap concat] in E. apply (f_equal length) in E. unfold schema_part in E. rewrite !length_app, length_be_bytes in E. cbn [length] in E. lia.
  - apply Forall_cons in Hl' as [Hb Hl']. cbn [fmap list_fmap concat] in E. apply schema_part_inj in E as [-> E]; [|done..]. f_equal. by apply IH.
Qed.

Definition same_path (d d' : CollectionDef) : Prop := def_parents d = def_parents d' ∧ def_name d = def_name d'.
Definition same_schema (d d' : CollectionDef) : Prop := def_schema_id d = def_schema_id d' ∧ def_schema_version d = def_schema_version d'.
Definition def_ok (d : CollectionDef) : Prop := Forall short (def_parents d ++ [def_name d]) ∧ 0 <= def_schema_version d < 2 ^ 32.

Lemma schema_key_inj d d' : def_ok d → def_ok d' → schema_key d = schema_key d' → same_path d d'.
Proof. intros [Hd _] [Hd' _] E%schema_parts_inj; [|done..]. by apply app_inj_tail in E. Qed.

Lemma schema_bytes_inj d d' : def_ok d → def_ok d' → schema_bytes d = schema_bytes d' → same_schema d d'.
Proof.
  intros [_ Hd] [_ Hd'] E. unfold schema_bytes in E. apply app_inj_1 in E as [E1 E2]; [|by rewrite !length_be_bytes].
  apply (f_equal of_be) in E1. rewrite !of_be_bytes4 in E1 by lia. split; [by apply (inj bytes_of_string)|done].
Qed.

(** ** Opening a collection of the root *)

Section root.
Context (fuel : nat).
#[local] Instance the_laws : NestedLaws TxState Bucket (H0 := tx_store fuel) (H1 := tx_laws fuel) (H2 := tx_nested fuel) (H3 := tx_view fuel) := tx_nested_laws fuel.

(** The methods of [Tx] are those of a handle of the root bucket. *)
Lemma tx_get_bucket_root s m cs n : tx_owns fuel s (root_handle true) m cs → tx_get_bucket fuel true n s = bucket_get_bucket fuel (root_handle true) n s.
Proof.
  intros (b & ht & es & ps & Hb & Hd & _). unfold bucket_get_bucket. rewrite (live_bucket_ok s (root_handle true) b) by done. reflexivity.
Qed.

Lemma tx_create_bucket_root s m cs n : tx_owns fuel s (root_handle true) m cs → tx_create_bucket fuel true n s = bucket_create_bucket fuel (root_handle true) n s.
Proof.
  intros (b & ht & es & ps & Hb & Hd & _). unfold bucket_create_bucket, tx_create_bucket. cbn [negb fail_if mbind res_bind bk_writable root_handle].
  rewrite (live_bucket_ok s (root_handle true) b) by done. reflexivity.
Qed.

Lemma tx_get_or_create_root s m cs n : tx_owns fuel s (root_handle true) m cs → tx_get_or_create_bucket fuel true n s = bucket_get_or_create_bucket fuel (root_handle true) n s.
Proof.
  intros (b & ht & es & ps & Hb & Hd & _). unfold bucket_get_or_create_bucket, tx_get_or_create_bucket. cbn [negb fail_if mbind res_bind bk_writable root_handle].
  rewrite (live_bucket_ok s (root_handle true) b) by done. reflexivity.
Qed.

(** The bucket of a new collection is created, whether it must be new or not. *)
Lemma open_write_missing s m cs name create_only :
  tx_owns fuel s (root_handle true) m cs → m !! bytes_of_string name = None →
  ∃ raw s', open_write fuel true [] name create_only s = Ok (raw, s') ∧
    let n := bytes_of_string name in
    tx_owns fuel s' (root_handle true) (<[n := LBucket n bucket_meta_default]> m) (<[n := ∅]> cs) ∧ tx_opens s' (root_handle true) n raw.
Proof.
  intros Ho Hm. unfold open_write. destruct create_only.
  - rewrite (tx_create_bucket_root s m cs _ Ho). destruct (tx_create_bucket_law fuel s _ m cs _ Ho eq_refl Hm) as (c & s' & -> & Ho' & Hop & _). eauto.
  - rewrite (tx_get_or_create_root s m cs _ Ho). pose proof (tx_get_or_create_law fuel s _ m cs (bytes_of_string name) Ho eq_refl) as Hg.
    rewrite Hm in Hg. destruct Hg as (c & s' & -> & Ho' & Hop & _). eauto.
Qed.

Lemma validate_name d : validate_definition d = COk () → bytes_of_string (def_name d) ≠ bytes_of_string SCHEMA_BUCKET.
Proof.
  unfold validate_definition. intros H E%(inj bytes_of_string). rewrite E in H. rewrite (bool_decide_eq_true_2 (SCHEMA_BUCKET = SCHEMA_BUCKET)) in H by done.
  by rewrite orb_true_r in H.
Qed.

Lemma check_schema_ok s m cs c ms d :
  tx_owns fuel s (root_handle true) m cs → tx_opens s (root_handle true) (bytes_of_string SCHEMA_BUCKET) c → cs !! bytes_of_string SCHEMA_BUCKET = Some ms →
  check_schema fuel c d s = match ms !! schema_key d with
    | Some (LKv _ value) => if bool_decide (value = schema_bytes d) then COk ()
        else CErr (SchemaMismatch (def_name d) (def_schema_id d) (def_schema_version d))
    | _ => CErr (SchemaMissing (def_name d))
    end.
Proof.
  intros Ho Hop Hms. unfold check_schema. pose proof (child_get (H4 := the_laws) s (root_handle true) m cs _ c ms Ho Hop Hms (schema_key d)) as E.
  cbn [s_get_kv tx_store] in E. rewrite E. cbn [from_storage mbind cres_bind]. by destruct (ms !! schema_key d) as [[|]|].
Qed.

(** Opening what is there. *)
Lemma collection_existing s m cs d mc ms :
  tx_owns fuel s (root_handle true) m cs → validate_definition d = COk () → def_parents d = [] →
  cs !! bytes_of_string (def_name d) = Some mc → cs !! bytes_of_string SCHEMA_BUCKET = Some ms →
  ∃ raw s', tx_owns fuel s' (root_handle true) m cs ∧ tx_opens s' (root_handle true) (bytes_of_string (def_name d)) raw ∧ keeps (H0 := tx_view fuel) None (root_handle true) s s' ∧
    collection fuel true d s = match ms !! schema_key d with
      | Some (LKv _ value) => if bool_decide (value = schema_bytes d) then COk (raw, s')
          else CErr (SchemaMismatch (def_name d) (def_schema_id d) (def_schema_version d))
      | _ => CErr (SchemaMissing (def_name d))
      end.
Proof.
  intros Ho Hv Hp Hn Hms. unfold collection. rewrite Hv, Hp. cbn [mbind cres_bind open_read]. rewrite (tx_get_bucket_root s m cs _ Ho).
  destruct (open_ok (H4 := the_laws) s (root_handle true) m cs _ mc Ho Hn) as (raw & s1 & E1 & Ho1 & Hop1 & Hk1). cbn [s_get_bucket tx_nested] in E1. rewrite E1.
  cbn [from_storage mbind cres_bind]. rewrite (tx_get_bucket_root s1 m cs _ Ho1).
  destruct (open_ok (H4 := the_laws) s1 (root_handle true) m cs _ ms Ho1 Hms) as (c & s2 & E2 & Ho2 & Hop2 & Hk2). cbn [s_get_bucket tx_nested] in E2. rewrite E2.
  cbn [from_storage mbind cres_bind]. rewrite (check_schema_ok s2 m cs c ms d Ho2 Hop2 Hms). exists raw, s2. split_and!; [exact Ho2|exact (proj1 Hk2 _ _ Hop1)|exact (keeps_trans _ _ _ _ _ Hk1 Hk2)|].
  destruct (ms !! schema_key d) as [[|k v]|]; [done| |done]. by case_bool_decide.
Qed.

(** [collection_mut] of a collection that is not there. *)
Lemma collection_mut_new s m cs d :
  tx_owns fuel s (root_handle true) m cs → validate_definition d = COk () → def_parents d = [] → def_policy d ≠ Existing →
  m !! bytes_of_string (def_name d) = None →
  ∃ raw s', tx_owns fuel s' (root_handle true) (<[bytes_of_string (def_name d) := LBucket (bytes_of_string (def_name d)) bucket_meta_default]> m)
      (<[bytes_of_string (def_name d) := ∅]> cs) ∧ tx_opens s' (root_handle true) (bytes_of_string (def_name d)) raw ∧
    collection_mut fuel true d s =
      '(schemas, s) ← from_storage (tx_get_or_create_bucket fuel true (bytes_of_string SCHEMA_BUCKET) s');
      '(_, s) ← from_storage (bucket_put fuel schemas (schema_key d) (schema_bytes d) s);
      COk (raw, s).
Proof.
  intros Ho Hv Hp Hpol Hm. unfold collection_mut. rewrite Hv, Hp. cbn [mbind cres_bind open_read]. rewrite (tx_get_bucket_root s m cs _ Ho).
  pose proof (tx_get_bucket_law fuel s (root_handle true) m cs (bytes_of_string (def_name d)) Ho) as Hg. rewrite Hm in Hg. rewrite Hg.
  destruct (def_policy d); [done|..];
    [destruct (open_write_missing s m cs (def_name d) true Ho Hm) as (raw & s1 & -> & Ho1 & Hop1)|
     destruct (open_write_missing s m cs (def_name d) false Ho Hm) as (raw & s1 & -> & Ho1 & Hop1)]; exists raw, s1; by split_and!.
Qed.


End root.

