(* ===== verification/Collection.v ===== *)
(** * Typed collections: [src/src/application/collection.rs], [iter.rs],
    [entry.rs] and [batch.rs]

    A collection is a bucket with a codec for its keys and one for its values; a
    value may have a deadline, and reading passes over the values whose deadline has
    come.  The operations are computations of a state and error monad: what a failed
    operation wrote before it failed stays written.  The system clock is an
    argument, which gives the time at which the record of a key is checked. *)

From S2P Require Import Prelude Search Support Layout Meta Freelist Node Page PageNode Inner Spill Buckets Cursor Changes Codecs Handle Store MapApi Typed Nested Ttl Schema.

(** ** The monad *)

Definition cst (A : Type) : Type := TxState → cres A * TxState.

#[global] Instance cst_ret : MRet cst := λ A a s, (COk a, s).
#[global] Instance cst_bind : MBind cst := λ A B f m s,
  match m s with
  | (COk a, s) => f a s
  | (CErr e, s) => (CErr e, s)
  | (CPanic w, s) => (CPanic w, s)
  end.

(** A computation that does not touch the state, one that reads it, and one that
    changes it when it succeeds. *)
Definition pure {A} (r : cres A) : cst A := λ s, (r, s).
Definition reads {A} (f : TxState → res A) : cst A := λ s, (from_storage (f s), s).
Definition decodes {A} (f : TxState → cres A) : cst A := λ s, (f s, s).
Definition runs {A} (f : TxState → res (A * TxState)) : cst A := λ s,
  match f s with
  | Ok (a, s) => (COk a, s)
  | Err e => (CErr (Storage e), s)
  | Panic w => (CPanic w, s)
  end.

Definition runs_typed {A} (f : TxState → cres (A * TxState)) : cst A := λ s,
  match f s with
  | COk (a, s) => (COk a, s)
  | CErr e => (CErr e, s)
  | CPanic w => (CPanic w, s)
  end.

Fixpoint cst_map {A B} (f : A → cst B) (l : list A) : cst (list B) :=
  match l with
  | [] => mret []
  | a :: l => b ← f a; bs ← cst_map f l; mret (b :: bs)
  end.

(** ** iter.rs *)

Record ScanPage (K V : Type) := mkPage { items : list (K * V); next_token : option bytes }.
Arguments mkPage {K V} _ _.
Arguments items {K V} _.
Arguments next_token {K V} _.

Record CollectionIter := mkIter {
  it_cursor : Cursor;
  it_expirations : Error + option Bucket;
  it_remaining : option Z;
  it_prefix : option bytes;
  it_lower : option (bytes * bool);
  it_upper : option (bytes * bool);
  it_reverse : bool
}.

Definition with_cursor (it : CollectionIter) (c : Cursor) : CollectionIter :=
  mkIter c (it_expirations it) (it_remaining it) (it_prefix it) (it_lower it) (it_upper it) (it_reverse it).
Definition with_remaining (it : CollectionIter) (r : option Z) : CollectionIter :=
  mkIter (it_cursor it) (it_expirations it) r (it_prefix it) (it_lower it) (it_upper it) (it_reverse it).
Definition without_error (it : CollectionIter) : CollectionIter :=
  mkIter (it_cursor it) (inr None) (it_remaining it) (it_prefix it) (it_lower it) (it_upper it) (it_reverse it).
Definition with_upper (it : CollectionIter) (u : option (bytes * bool)) : CollectionIter :=
  mkIter (it_cursor it) (it_expirations it) (it_remaining it) (it_prefix it) (it_lower it) u (it_reverse it).

(** The tests that end the scan at a key. *)
Definition outside_prefix (prefix : option bytes) (key : bytes) : bool :=
  match prefix with Some prefix => negb (starts_with key prefix) | None => false end.
Definition below_lower (lower : option (bytes * bool)) (key : bytes) : bool :=
  match lower with
  | Some (start, inclusive) => lex_ltb key start || negb inclusive && bool_decide (key = start)
  | None => false
  end.
Definition above_upper (upper : option (bytes * bool)) (key : bytes) : bool :=
  match upper with
  | Some (end_, inclusive) => lex_ltb end_ key || negb inclusive && bool_decide (key = end_)
  | None => false
  end.
Definition out_of_bounds (it : CollectionIter) (key : bytes) : bool :=
  outside_prefix (it_prefix it) key ||
  (if it_reverse it then below_lower (it_lower it) key else above_upper (it_upper it) key).

Definition take_records (it : CollectionIter) (limit : Z) : CollectionIter := with_remaining it (Some limit).

Section collection.
Context (fuel n : nat) {K V : Type} {KC : KeyCodec K} {VC : ValueCodec V} (raw : Bucket) (clock : bytes → SystemTime) (item_size : Z).
#[local] Existing Instance tx_store.
#[local] Existing Instance tx_nested.

Definition decode_pair (key value : bytes) : cres (K * V) :=
  key ← decode_key key;
  value ← decode_value value;
  COk (key, value).

Definition record_is_live (expirations : option Bucket) (key : bytes) (s : TxState) : res bool :=
  match expirations with
  | Some expirations => key_is_live (H0 := tx_store fuel) expirations key (clock key) s
  | None => Ok true
  end.

(** The loop of [next]: the item, and the iterator after the call. *)
Fixpoint iter_loop (n : nat) (it : CollectionIter) (s : TxState) : option (cres (K * V)) * CollectionIter :=
  match n with
  | O => (Some (CPanic NOFUEL), it)
  | S n =>
      match (b ← bucket_at (ts_buckets s) (bk_inner raw);
             if it_reverse it then previous fuel b (it_cursor it) else advance fuel b (it_cursor it)) with
      | Err error => (Some (CErr (Storage error)), with_remaining it (Some 0))
      | Panic w => (Some (CPanic w), it)
      | Ok (None, c) => (None, with_cursor it c)
      | Ok (Some (DBucket _), c) => iter_loop n (with_cursor it c) s
      | Ok (Some (DKeyValue key value), c) =>
          let it := with_cursor it c in
          if out_of_bounds it key then (None, it)
          else match it_expirations it with
          | inl error => (Some (CErr (Storage error)), with_remaining (without_error it) (Some 0))
          | inr expirations =>
              match record_is_live expirations key s with
              | Err error => (Some (CErr (Storage error)), it)
              | Panic w => (Some (CPanic w), it)
              | Ok false => iter_loop n it s
              | Ok true => (Some (decode_pair key value), with_remaining it (Z.pred <$> it_remaining it))
              end
          end
      end
  end.

Definition iter_next (it : CollectionIter) (s : TxState) : option (cres (K * V)) * CollectionIter :=
  if decide (it_remaining it = Some 0) then (None, it) else iter_loop n it s.

(** [collect::<Result<Vec<_>, _>>()] *)
Fixpoint iter_collect (n : nat) (it : CollectionIter) (s : TxState) : cres (list (K * V)) :=
  match n with
  | O => CPanic NOFUEL
  | S n =>
      match iter_next it s with
      | (None, _) => COk []
      | (Some item, it) => item ← item; rest ← iter_collect n it s; COk (item :: rest)
      end
  end.

(** [iter.next().transpose()?] *)
Definition transpose_next (it : CollectionIter) (s : TxState) : cres (option (K * V) * CollectionIter) :=
  match iter_next it s with
  | (None, it) => COk (None, it)
  | (Some item, it) => item ← item; COk (Some item, it)
  end.

(** ** [ReadCollection] *)

Definition coll_get (key : K) : cst (option V) :=
  key ← pure (encode_key key);
  pair_ ← runs (get_live_at (H0 := tx_store fuel) (H1 := tx_nested fuel) raw key (clock key));
  pure (decode_previous pair_).

Definition coll_contains_key (key : K) : cst bool :=
  v ← coll_get key;
  mret (match v with Some _ => true | None => false end).

Definition coll_multi_get (keys : list K) : cst (list (option V)) := cst_map coll_get keys.

(** [expirations: self.raw.expiration_bucket()] keeps the error. *)
Definition open_expirations : cst (Error + option Bucket) := λ s,
  match expiration_bucket (H1 := tx_nested fuel) raw s with
  | Ok (o, s) => (COk (inr o), s)
  | Err e => (COk (inl e), s)
  | Panic w => (CPanic w, s)
  end.

Definition new_iter (c : Cursor) (prefix : option bytes) (lower upper : option (bytes * bool)) (reverse : bool) : cst CollectionIter :=
  expirations ← open_expirations;
  mret (mkIter c expirations None prefix lower upper reverse).

Definition coll_iter : cst CollectionIter :=
  c ← reads (bucket_cursor raw);
  new_iter c None None None false.

(** [seek_last] when its result is ignored: the frames pushed before an error stay. *)
Fixpoint push_last (fuel : nat) (b : InnerBucket) (id : PageNodeID) (stack : list SearchPath) : res (list SearchPath) :=
  match fuel with
  | O => Panic NOFUEL
  | S fuel =>
      let file := pg_data (ib_pages b) in
      match page_node b id with
      | Err _ => Ok stack
      | Panic w => Panic w
      | Ok pn =>
          if pn_len file pn =? 0 then Ok stack
          else
            let index := Z.to_nat (pn_len file pn - 1) in
            let stack := mkPath index id :: stack in
            if pn_leaf file pn then Ok stack
            else
              page_id ← pn_index_page file pn index;
              push_last fuel b (PPage page_id) stack
      end
  end.

Definition seek_last_anyway (s : TxState) : res Cursor :=
  b ← bucket_at (ts_buckets s) (bk_inner raw);
  stack ← push_last fuel b (PPage (root_of b)) [];
  Ok (mkCursor stack false false).

Definition coll_iter_rev : cst CollectionIter :=
  _ ← reads (bucket_cursor raw);
  c ← reads seek_last_anyway;
  new_iter c None None None true.

Definition raw_seek (key : bytes) (s : TxState) : res (bool * Cursor * TxState) :=
  b ← bucket_at (ts_buckets s) (bk_inner raw);
  '(exists_, c, b) ← seek fuel b key;
  Ok (exists_, c, set_bucket s (bk_inner raw) b).

(** [let _ = cursor.seek(prefix)]: an error leaves the cursor new. *)
Definition seek_anyway (key : bytes) (c : Cursor) : cst Cursor := λ s,
  match raw_seek key s with
  | Ok (_, c, s) => (COk c, s)
  | Err _ => (COk c, s)
  | Panic w => (CPanic w, s)
  end.

Definition coll_prefix (prefix : bytes) : cst CollectionIter :=
  c ← reads (bucket_cursor raw);
  c ← seek_anyway prefix c;
  new_iter c (Some prefix) None None false.

(** [cursor.next();] right after a seek: the item and an error are dropped. *)
Definition skip (c : Cursor) (s : TxState) : res Cursor :=
  b ← bucket_at (ts_buckets s) (bk_inner raw);
  match advance fuel b c with
  | Ok (_, c) => Ok c
  | Err _ => Ok (mkCursor (c_stack c) true false)
  | Panic w => Panic w
  end.

Definition skip_current (exclusive exists_ : bool) (key : bytes) (c : Cursor) (s : TxState) : res bool :=
  if exclusive && exists_ then Ok true
  else if exists_ then Ok false
  else
    b ← bucket_at (ts_buckets s) (bk_inner raw);
    d ← current b c;
    Ok (match d with Some current => lex_ltb (data_key current) key | None => false end).

Definition iter_from_encoded (key : bytes) (exclusive : bool) : cst CollectionIter :=
  _ ← reads (bucket_cursor raw);
  '(exists_, c) ← runs (λ s, '(exists_, c, s) ← raw_seek key s; Ok (exists_, c, s));
  skipped ← reads (skip_current exclusive exists_ key c);
  c ← (if skipped : bool then reads (skip c) else mret c);
  new_iter c None None None false.

Definition order_required : cres unit := if negb ORDER_PRESERVING then CErr OrderingRequired else COk ().

Definition coll_seek (key : K) : cst CollectionIter :=
  _ ← pure order_required;
  key ← pure (encode_key key);
  iter_from_encoded key false.

(** A typed bound. *)
Inductive KBound := KIncluded (k : K) | KExcluded (k : K) | KUnbounded.

Definition encode_start (start : KBound) : cres (option bytes * bool) :=
  match start with
  | KIncluded key => k ← encode_key key; COk (Some k, false)
  | KExcluded key => k ← encode_key key; COk (Some k, true)
  | KUnbounded => COk (None, false)
  end.

Definition encode_end (end_ : KBound) : cres (option (bytes * bool)) :=
  match end_ with
  | KIncluded key => k ← encode_key key; COk (Some (k, true))
  | KExcluded key => k ← encode_key key; COk (Some (k, false))
  | KUnbounded => COk None
  end.

Definition range_bounds (start end_ : KBound) : cst CollectionIter :=
  _ ← pure order_required;
  '(start, exclusive) ← pure (encode_start start);
  upper_bound ← pure (encode_end end_);
  it ← (match start with
        | Some start => iter_from_encoded start exclusive
        | None => coll_iter
        end);
  mret (with_upper it upper_bound).

Definition coll_range (start end_exclusive : K) : cst CollectionIter :=
  _ ← pure order_required;
  range_bounds (KIncluded start) (KExcluded end_exclusive).

(** [if cursor.seek(&end)? { cursor.previous()?; }] *)
Definition seek_end (end_ : bytes) (s : TxState) : res (Cursor * TxState) :=
  '(exists_, c, s) ← raw_seek end_ s;
  if exists_ : bool then
    b ← bucket_at (ts_buckets s) (bk_inner raw);
    '(_, c) ← previous fuel b c;
    Ok (c, s)
  else Ok (c, s).

Definition coll_range_rev (start end_exclusive : K) : cst CollectionIter :=
  _ ← pure order_required;
  start ← pure (encode_key start);
  end_ ← pure (encode_key end_exclusive);
  _ ← reads (bucket_cursor raw);
  c ← runs (seek_end end_);
  new_iter c None (Some (start, true)) None true.

(** [for _ in 0..limit], up to the end of the scan. *)
Fixpoint page_items (n : nat) (limit : Z) (it : CollectionIter) (s : TxState) : cres (list (K * V) * CollectionIter) :=
  match n with
  | O => CPanic NOFUEL
  | S n =>
      if limit =? 0 then COk ([], it)
      else match iter_next it s with
      | (None, it) => COk ([], it)
      | (Some item, it) =>
          item ← item;
          '(rest, it) ← page_items n (limit - 1) it s;
          COk (item :: rest, it)
      end
  end.

Definition page_token (has_more : bool) (items : list (K * V)) : cres (option bytes) :=
  match has_more, last items with
  | true, Some (key, _) => token ← encode_key key; COk (Some token)
  | _, _ => COk None
  end.

Definition page_after (after : option bytes) (limit : Z) : cst (ScanPage K V) :=
  _ ← pure order_required;
  if limit =? 0 then mret (mkPage [] None)
  else
    it ← (match after with
          | Some token => iter_from_encoded token true
          | None => coll_iter
          end);
    _ ← pure (if item_size * limit <=? isize_max then COk () else CPanic "capacity overflow");
    '(items, it) ← decodes (page_items n limit it);
    '(more, _) ← decodes (transpose_next it);
    next ← pure (page_token (match more with Some _ => true | None => false end) items);
    mret (mkPage items next).

Definition coll_first : cst (option (K * V)) :=
  it ← coll_iter;
  '(item, _) ← decodes (transpose_next it);
  mret item.

Definition coll_last : cst (option (K * V)) :=
  it ← coll_iter_rev;
  '(item, _) ← decodes (transpose_next it);
  mret item.

(** [len] and [is_empty] look at every stored pair. *)
Definition coll_len : cst Z :=
  ps ← reads (bucket_kv_pairs fuel n raw);
  mret (Z.of_nat (length (ps : list (bytes * bytes)))).

Definition coll_is_empty : cst bool := reads (bucket_is_empty fuel n raw).

(** A loop over an iterator that collects its keys. *)
Definition collect_keys (it : CollectionIter) : cst (list K) :=
  items ← decodes (iter_collect n it);
  mret ((items : list (K * V)).*1).

(** ** [WriteCollection] *)

(** [expires_at] is the field of [WriteOptions]. *)
Definition write_record (key value : bytes) (expires_at : option SystemTime) : cst (option bytes) :=
  match expires_at with
  | Some expires_at =>
      '(previous, _) ← runs (put_with_ttl (H0 := tx_store fuel) (H1 := tx_nested fuel) raw key value expires_at);
      mret previous
  | None =>
      previous ← runs (bucket_put fuel raw key value);
      _ ← runs (clear_ttl (H0 := tx_store fuel) (H1 := tx_nested fuel) raw key);
      mret (snd <$> (previous : option (bytes * bytes)))
  end.

Definition decode_option (v : option bytes) : cres (option V) :=
  match v with
  | Some value => v ← decode_value value; COk (Some v)
  | None => COk None
  end.

Definition insert_with_options (key : K) (value : V) (expires_at : option SystemTime) : cst (option V) :=
  key ← pure (encode_key key);
  value ← pure (encode_value value);
  previous ← write_record key value expires_at;
  pure (decode_option previous).

Definition coll_insert (key : K) (value : V) : cst (option V) := insert_with_options key value None.

Definition coll_remove (key : K) : cst (option V) :=
  key ← pure (encode_key key);
  previous ← reads (bucket_get_kv fuel raw key);
  match previous with
  | None => mret None
  | Some (_, previous) =>
      value ← pure (decode_value previous);
      _ ← runs (bucket_delete fuel raw key);
      _ ← runs (clear_ttl (H0 := tx_store fuel) (H1 := tx_nested fuel) raw key);
      mret (Some value)
  end.

Definition coll_insert_many (entries : list (K * V)) : cst unit :=
  _ ← cst_map (λ '(key, value), coll_insert key value) entries;
  mret ().

Definition coll_remove_many (keys : list K) : cst (list (option V)) := cst_map coll_remove keys.

Definition encode_entry (entry : K * V) : cres (bytes * bytes) :=
  key ← encode_key (fst entry);
  value ← encode_value (snd entry);
  COk (key, value).

(** [encoded.windows(2).all(|pair| pair[0].0 < pair[1].0)] *)
Fixpoint windows_ordered (encoded : list (bytes * bytes)) : bool :=
  match encoded with
  | (k, _) :: ((k', _) :: _) as rest => lex_ltb k k' && windows_ordered rest
  | _ => true
  end.

(** The fields of [BulkLoadResult]. *)
Definition insert_ordered (entries : list (K * V)) : cst (Z * bool) :=
  _ ← pure order_required;
  encoded ← cst_map (λ entry, pure (encode_entry entry)) entries;
  let ordered := windows_ordered encoded in
  _ ← cst_map (λ '(key, value), write_record key value None) encoded;
  mret (Z.of_nat (length encoded), ordered).

Definition coll_clear : cst Z :=
  ps ← reads (bucket_kv_pairs fuel n raw);
  let keys := (ps : list (bytes * bytes)).*1 in
  _ ← cst_map (λ key, runs (bucket_delete fuel raw key)) keys;
  mret (Z.of_nat (length keys)).

Record CompareOutcome := mkOutcome { co_applied : bool; co_observed : option V; co_current : option V }.

Definition encode_expected (expected : option V) : cres (option bytes) :=
  match expected with
  | Some value => v ← encode_value value; COk (Some v)
  | None => COk None
  end.

Definition coll_compare_exchange (key : K) (expected : option V) (value : V) : cst CompareOutcome :=
  key ← pure (encode_key key);
  expected ← pure (encode_expected expected);
  value ← pure (encode_value value);
  result ← runs (compare_exchange fuel raw key expected value);
  observed ← pure (decode_option (observed result));
  current ← pure (decode_option (at_current result));
  mret (mkOutcome (applied result) observed current).

(** [pop_first] and [pop_last] after the look at the end. *)
Definition pop_entry (item : option (K * V)) : cst (option (K * V)) :=
  match item with
  | None => mret None
  | Some (key, value) =>
      _ ← coll_remove key;
      mret (Some (key, value))
  end.

Definition pop_first : cst (option (K * V)) := item ← coll_first; pop_entry item.
Definition pop_last : cst (option (K * V)) := item ← coll_last; pop_entry item.

Definition remove_keys (keys : list K) : cst Z :=
  _ ← cst_map coll_remove keys;
  mret (Z.of_nat (length keys)).

Definition coll_delete_range (start end_exclusive : K) : cst Z :=
  it ← coll_range start end_exclusive;
  keys ← collect_keys it;
  remove_keys keys.

Definition coll_delete_prefix (prefix : bytes) : cst Z :=
  it ← coll_prefix prefix;
  keys ← collect_keys it;
  remove_keys keys.

(** [default_] and [add] are those of the value's type. *)
Definition fetch_add (default_ : V) (add : V → V → V) (key : K) (amount : V) : cst V :=
  previous ← coll_get key;
  let previous := default default_ previous in
  _ ← coll_insert key (add previous amount);
  mret previous.

(** ** entry.rs *)

Record Entry := mkEntry { en_key : K; en_current : option V }.

Definition coll_entry (key : K) : cst Entry :=
  current ← coll_get key;
  mret (mkEntry key current).

Definition is_occupied (e : Entry) : bool := match en_current e with Some _ => true | None => false end.
Definition is_vacant (e : Entry) : bool := negb (is_occupied e).

(** [update] stands for what the caller's function does to the value. *)
Definition and_modify (e : Entry) (update : V → V) : cst Entry :=
  match en_current e with
  | Some value =>
      let value := update value in
      _ ← coll_insert (en_key e) value;
      mret (mkEntry (en_key e) (Some value))
  | None => mret e
  end.

Definition or_insert_with (e : Entry) (default_ : unit → V) : cst V :=
  match en_current e with
  | Some value => mret value
  | None =>
      let value := default_ () in
      _ ← coll_insert (en_key e) value;
      mret value
  end.

Definition or_insert (e : Entry) (default_ : V) : cst V := or_insert_with e (λ _, default_).

Definition entry_replace (e : Entry) (value : V) : cst (option V) := coll_insert (en_key e) value.

Definition entry_remove (e : Entry) : cst (option V) := coll_remove (en_key e).

End collection.

(** ** batch.rs *)

Inductive BatchOperation :=
  | BInsert (bucket : Bucket) (key value : bytes) (expires_at : option SystemTime)
  | BRemove (bucket : Bucket) (key : bytes).

Definition Batch : Type := list BatchOperation.
Definition batch_new : Batch := [].
Definition batch_len (operations : Batch) : Z := Z.of_nat (length operations).
Definition batch_is_empty (operations : Batch) : bool := match operations with [] => true | _ => false end.

Section batch.
Context (fuel : nat) (writable : bool).

Definition batch_insert_with_options {K V} {KC : KeyCodec K} {VC : ValueCodec V} (operations : Batch) (d : CollectionDef)
    (key : K) (value : V) (expires_at : option SystemTime) : cst Batch :=
  key ← pure (encode_key key);
  value ← pure (encode_value value);
  bucket ← runs_typed (collection_mut fuel writable d);
  mret (operations ++ [BInsert bucket key value expires_at]).

Definition batch_insert {K V} {KC : KeyCodec K} {VC : ValueCodec V} (operations : Batch) (d : CollectionDef) (key : K) (value : V) : cst Batch :=
  batch_insert_with_options operations d key value None.

Definition batch_remove {K} {KC : KeyCodec K} (operations : Batch) (d : CollectionDef) (key : K) : cst Batch :=
  key ← pure (encode_key key);
  bucket ← runs_typed (collection_mut fuel writable d);
  mret (operations ++ [BRemove bucket key]).

Definition apply_operation (operation : BatchOperation) : cst unit :=
  match operation with
  | BInsert bucket key value expires_at =>
      _ ← write_record fuel bucket key value expires_at;
      mret ()
  | BRemove bucket key =>
      p ← reads (bucket_get_kv fuel bucket key);
      _ ← (match p with
           | Some _ => _ ← runs (bucket_delete fuel bucket key); mret ()
           | None => mret ()
           end);
      _ ← runs (clear_ttl (H0 := tx_store fuel) (H1 := tx_nested fuel) bucket key);
      mret ()
  end.

Definition batch_apply (operations : Batch) : cst Z :=
  _ ← cst_map apply_operation operations;
  mret (batch_len operations).

End batch.

(** ** The typed map a collection stands for *)

(** A record counts while its deadline is ahead; [now] gives the time, in
    milliseconds, at which the record of a key is checked. *)
Definition alive (ex : gmap bytes Z) (now : bytes → Z) (k : bytes) : bool :=
  match ex !! k with Some deadline => now k <? deadline | None => true end.

Definition living (m : gmap bytes Leaf) (ex : gmap bytes Z) (now : bytes → Z) : gmap bytes Leaf :=
  filter (λ kl, alive ex now kl.1) m.

Section points.
Context (fuel n : nat) {K V : Type} {KC : KeyCodec K} {VC : ValueCodec V} (raw : Bucket) (clock : bytes → SystemTime).
Context {validK : K → Prop} {cmp : K → K → comparison} {validV : V → Prop}.
Context `{!LawfulKey KC validK cmp} `{!LawfulValue VC validV}.

Definition live_view (m : gmap bytes Leaf) (ex : gmap bytes Z) (now : bytes → Z) (key : K) : option V := view (living m ex now) key.

(** The bucket holds typed records [m] with the deadlines [ex]. *)
Definition coll_state (s : TxState) (m : gmap bytes Leaf) (ex : gmap bytes Z) : Prop :=
  all_typed m ∧ ∃ cs, tx_owns fuel s raw m cs ∧ ttl_ok m cs ex.

Lemma living_lookup m ex now k : living m ex now !! k = if alive ex now k then m !! k else None.
Proof. unfold living. rewrite map_lookup_filter. destruct (m !! k), (alive ex now k) eqn:E; cbn; try done; by rewrite ?E. Qed.

(** No value is stored under the names of the hidden buckets. *)
Definition hidden (m : gmap bytes Leaf) : Prop := ∀ k k' v, is_ttl_bucket k = true → m !! k ≠ Some (LKv k' v).

Lemma ttl_hidden s m cs ex : tx_owns fuel s raw m cs → ttl_ok m cs ex → hidden m.
Proof.
  intros Ho Ht k k' v Hk E. assert (available m cs k) as Hav.
  { apply orb_true_iff in Hk as [->%bool_decide_eq_true| ->%bool_decide_eq_true]; apply Ht. }
  destruct Hav as [[mc Hn]|[_ Hn]]; [|congruence]. destruct (tx_owns_bucket fuel s raw m cs k mc Ho Hn) as [meta Hm]. congruence.
Qed.

Lemma typed_user m m' : hidden m' → same_user m m' → all_typed m → all_typed m'.
Proof.
  intros Hh Hs Hm k v E. destruct (is_ttl_bucket k) eqn:Hk; [by destruct (Hh k k v Hk)|]. apply Hm. by rewrite <-(Hs k Hk).
Qed.

(** The typed map changed at [key] only, to [f] of the time. *)
Definition live_updated (m : gmap bytes Leaf) (ex : gmap bytes Z) (m' : gmap bytes Leaf) (ex' : gmap bytes Z) (key : K) (f : (bytes → Z) → option V) : Prop :=
  ∀ now, live_view m' ex' now key = f now ∧
    ∀ key', validK key' → key' ≠ key → live_view m' ex' now key' = live_view m ex now key'.

Lemma live_updated_ok m ex m' ex' key k f :
  hidden m → hidden m' → validK key → encode_key key = COk k →
  (∀ k', k' ≠ k → ex' !! k' = ex !! k') → (∀ k', k' ≠ k → is_ttl_bucket k' = false → m' !! k' = m !! k') →
  (∀ now, live_view m' ex' now key = f now) → live_updated m ex m' ex' key f.
Proof.
  intros Hh Hh' Hk Ek Hex Hm Hf now. split; [done|]. intros key' Hk' Hne. destruct (key_roundtrip key' Hk') as (k' & Ek' & _).
  assert (k' ≠ k) as Hkk by (intros ->; by apply Hne, (encode_inj _ _ k)). unfold live_view, view. rewrite Ek', !living_lookup. unfold alive.
  rewrite (Hex k' Hkk). destruct (is_ttl_bucket k') eqn:Hr; [|by rewrite (Hm k' Hkk Hr)].
  pose proof (Hh k') as H1. pose proof (Hh' k') as H2.
  destruct (match ex !! k' with Some d => now k' <? d | None => true end); [|done].
  destruct (m' !! k') as [[|a b]|], (m !! k') as [[|c d]|]; try done;
    exfalso; solve [by eapply H1|by eapply H2].
Qed.

Lemma live_view_lookup m ex now key k : encode_key key = COk k → live_view m ex now key = if alive ex now k then view m key else None.
Proof. intros Ek. unfold live_view, view. rewrite Ek, living_lookup. by destruct (alive ex now k). Qed.

Lemma visible_living m ex now k : visible m ex (now k) k = living m ex now !! k ≫= kv_of_leaf.
Proof.
  rewrite living_lookup. unfold visible, alive. destruct (ex !! k) as [d|]; [|done].
  destruct (Z.leb_spec d (now k)), (Z.ltb_spec (now k) d); try done; lia.
Qed.

Lemma all_typed_living m ex now : all_typed m → all_typed (living m ex now).
Proof. intros Ht k v [E _]%map_lookup_filter_Some. eauto. Qed.

Lemma cst_bind_ok {A B} (m : cst A) (f : A → cst B) s a s' : m s = (COk a, s') → (m ≫= f) s = f a s'.
Proof. unfold mbind, cst_bind. by intros ->. Qed.

Lemma runs_ok {A} (f : TxState → res (A * TxState)) s a s' : f s = Ok (a, s') → runs f s = (COk a, s').
Proof. unfold runs. by intros ->. Qed.

Lemma cst_pure {A B} (r : cres A) (f : A → cst B) s a : r = COk a → (pure r ≫= f) s = f a s.
Proof. intros ->. done. Qed.

Lemma write_record_ok s m cs ex k v expires_at :
  tx_owns fuel s raw m cs → ttl_ok m cs ex → bk_writable raw = true → is_ttl_bucket k = false → is_bucket_at m k = false →
  match expires_at ≫= (λ t, Some (epoch_millis t)) with
  | Some (Ok d) => ∃ s' m' cs', write_record fuel raw k v expires_at s = (COk (value_at m k), s') ∧ tx_owns fuel s' raw m' cs' ∧
      ttl_ok m' cs' (<[k := d]> ex) ∧ same_user (<[k := LKv k v]> m) m'
  | Some (Err e) => write_record fuel raw k v expires_at s = (CErr (Storage e), s)
  | Some (Panic _) => False
  | None => ∃ s' cs', write_record fuel raw k v expires_at s = (COk (value_at m k), s') ∧ tx_owns fuel s' raw (<[k := LKv k v]> m) cs' ∧
      ttl_ok (<[k := LKv k v]> m) cs' (delete k ex)
  end.
Proof.
  intros Ho Ht Hw Hr Hb.
  destruct (own_put_ok (H0 := tx_store fuel) (H1 := tx_laws fuel) (H2 := tx_nested fuel) (H3 := tx_view fuel) (H4 := tx_nested_laws fuel) s raw m cs k v Ho Hw Hb) as (s1 & E1 & Ho1).
  pose proof (ttl_ok_insert m cs ex k (LKv k v) Ht Hr) as Ht1.
  destruct expires_at as [t|]; cbn [mbind option_bind]; unfold write_record.
  - destruct (epoch_millis t) as [d|e|w] eqn:Em.
    + assert (in_u64 d) as Hd.
      { unfold epoch_millis in Em. destruct (Z.ltb_spec t 0); [done|]. cbn [fail_if mbind res_bind] in Em. destruct (Z.ltb_spec u64_max (t / 1000000)); [done|].
        injection Em as <-. pose proof (Z.div_pos t 1000000). unfold in_u64, u64_mod, u64_max in *. lia. }
      destruct (set_expiration_ok (H0 := tx_store fuel) (H1 := tx_laws fuel) (H2 := tx_nested fuel) (H3 := tx_view fuel) (H4 := tx_nested_laws fuel) s1 raw _ cs ex k d Ho1 Ht1 Hw Hd) as (s2 & m2 & cs2 & E2 & Ho2 & Ht2 & Hs2).
      exists s2, m2, cs2. split_and!; try done. rewrite (cst_bind_ok _ _ s (value_at m k, d) s2); [done|]. apply runs_ok. unfold put_with_ttl.
      rewrite Em. cbn [mbind res_bind]. rewrite E1. cbn [mbind res_bind]. rewrite E2. cbn [mbind res_bind]. by rewrite value_at_kv.
    + unfold mbind, cst_bind, runs, put_with_ttl. by rewrite Em.
    + unfold epoch_millis in Em. by destruct (t <? 0), (u64_max <? t / 1000000).
  - destruct (clear_ttl_ok (H0 := tx_store fuel) (H1 := tx_laws fuel) (H2 := tx_nested fuel) (H3 := tx_view fuel) (H4 := tx_nested_laws fuel) s1 raw _ cs ex k Ho1 Ht1 Hw) as (s2 & cs2 & E2 & Ho2 & Ht2).
    exists s2, cs2. split_and!; try done. erewrite cst_bind_ok by (apply runs_ok; exact E1). erewrite cst_bind_ok by (apply runs_ok; exact E2).
    unfold mret, cst_ret. by rewrite value_at_kv.
Qed.

Lemma coll_get_ok s m ex now key k :
  coll_state s m ex → encode_key key = COk k → epoch_millis (clock k) = Ok (now k) →
  ∃ s', coll_get fuel raw clock key s = (COk (live_view m ex now key), s') ∧ coll_state s' m ex.
Proof.
  intros [Ht (cs & Ho & Hok)] Ek Hnow.
  destruct (get_live_ok (H0 := tx_store fuel) (H1 := tx_laws fuel) (H2 := tx_nested fuel) (H3 := tx_view fuel) (H4 := tx_nested_laws fuel)
    s raw m cs ex k (clock k) (now k) Ho Hok Hnow) as (s' & E & Ho').
  exists s'. split; [|split; [done|by exists cs]]. unfold coll_get. rewrite (cst_pure _ _ s k Ek).
  rewrite (cst_bind_ok _ _ s _ s' (runs_ok _ _ _ _ E)). rewrite visible_living. unfold pure, live_view.
  rewrite (decode_previous_view (living m ex now) key k); [done|by apply all_typed_living| |done].
  intros l. rewrite living_lookup. destruct (alive ex now k); [|done]. apply (tx_keyed_law fuel s raw m). by eapply tx_owns_holds.
Qed.

Lemma decode_option_view m key k :
  all_typed m → (∀ l, m !! k = Some l → leaf_key l = k) → encode_key key = COk k → decode_option (value_at m k) = COk (view m key).
Proof.
  intros Ht Hk Ek. rewrite <-(decode_previous_view m key k Ht Hk Ek). unfold value_at. by destruct (m !! k) as [[|]|].
Qed.

Lemma names_bucket_at m key k : encode_key key = COk k → names_bucket m key = is_bucket_at m k.
Proof. intros Ek. unfold names_bucket, is_bucket_at. by rewrite Ek. Qed.

Lemma owns_keyed s m cs k l : tx_owns fuel s raw m cs → m !! k = Some l → leaf_key l = k.
Proof. intros Ho. apply (tx_keyed_law fuel s raw m). by eapply tx_owns_holds. Qed.

Lemma coll_insert_ok s m ex key k value expires_at :
  coll_state s m ex → validK key → encode_key key = COk k → is_ttl_bucket k = false → names_bucket m key = false →
  bk_writable raw = true → validV value →
  match expires_at ≫= (λ t, Some (epoch_millis t)) with
  | Some (Ok d) => ∃ s' m', insert_with_options fuel raw key value expires_at s = (COk (view m key), s') ∧ coll_state s' m' (<[k := d]> ex) ∧
      live_updated m ex m' (<[k := d]> ex) key (λ now, if now k <? d then Some value else None)
  | Some (Err e) => insert_with_options fuel raw key value expires_at s = (CErr (Storage e), s)
  | Some (Panic _) => False
  | None => ∃ s' m', insert_with_options fuel raw key value expires_at s = (COk (view m key), s') ∧ coll_state s' m' (delete k ex) ∧
      live_updated m ex m' (delete k ex) key (λ _, Some value)
  end.
Proof.
  intros [Ht (cs & Ho & Hok)] Hk Ek Hr Hnb Hw Hv. destruct (value_roundtrip value Hv) as (v & Ev & _).
  pose proof (view_insert m key value k v Ht Hk Hv Ek Ev) as (Ht1 & Hview & Hoth). rewrite (names_bucket_at m key k Ek) in Hnb.
  pose proof (write_record_ok s m cs ex k v expires_at Ho Hok Hw Hr Hnb) as Hrec.
  pose proof (decode_option_view m key k Ht (λ l, owns_keyed s m cs k l Ho) Ek) as Hdec.
  assert (∀ o s', write_record fuel raw k v expires_at s = (o, s') → insert_with_options fuel raw key value expires_at s =
    (o ← o; decode_option o, s')) as Hrun.
  { intros o s' E. unfold insert_with_options. rewrite (cst_pure _ _ s k Ek), (cst_pure _ _ s v Ev). unfold mbind, cst_bind. rewrite E. by destruct o. }
  destruct (expires_at ≫= _) as [[d|e|w]|]; [..|].
  - destruct Hrec as (s' & m' & cs' & E & Ho' & Hok' & Hs). exists s', m'. rewrite (Hrun _ _ E). cbn [mbind cres_bind]. rewrite Hdec.
    pose proof (ttl_hidden _ _ _ _ Ho' Hok') as Hh. split; [done|]. split; [split; [by eapply typed_user|by exists cs']|].
    apply (live_updated_ok _ _ _ _ key k); [by eapply ttl_hidden|done|done|done|by intros; apply lookup_insert_ne| |].
    + intros k' Hne Hr'. rewrite (Hs k' Hr'). by apply lookup_insert_ne.
    + intros now. rewrite (live_view_lookup _ _ _ key k Ek). unfold alive. rewrite lookup_insert_eq. destruct (now k <? d); [|done].
      rewrite <-Hview. unfold view. by rewrite Ek, (Hs k Hr).
  - rewrite (Hrun _ _ Hrec). done.
  - done.
  - destruct Hrec as (s' & cs' & E & Ho' & Hok'). exists s', (<[k := LKv k v]> m). rewrite (Hrun _ _ E). cbn [mbind cres_bind]. rewrite Hdec.
    split; [done|]. split; [split; [done|by exists cs']|].
    apply (live_updated_ok _ _ _ _ key k); [by eapply ttl_hidden|by eapply ttl_hidden|done|done|by intros; apply lookup_delete_ne|by intros; apply lookup_insert_ne|].
    intros now. rewrite (live_view_lookup _ _ _ key k Ek). unfold alive. by rewrite lookup_delete_eq.
Qed.

Lemma coll_remove_ok s m ex key k :
  coll_state s m ex → validK key → encode_key key = COk k → is_ttl_bucket k = false → bk_writable raw = true →
  match view m key with
  | Some value => ∃ s' m', coll_remove fuel raw key s = (COk (Some value), s') ∧ coll_state s' m' (delete k ex) ∧
      live_updated m ex m' (delete k ex) key (λ _, None)
  | None => coll_remove fuel raw key s = (COk None, s)
  end.
Proof.
  intros [Ht (cs & Ho & Hok)] Hk Ek Hr Hw. pose proof (tx_owns_holds fuel s raw m cs Ho) as Hh. pose proof (tx_get_kv_law fuel s raw m k Hh) as Hg.
  unfold coll_remove. rewrite (cst_pure _ _ s k Ek).
  rewrite (cst_bind_ok _ _ s (m !! k ≫= kv_of_leaf) s) by (unfold reads; by rewrite Hg).
  unfold view. rewrite Ek. destruct (m !! k) as [[nm mt|k' v]|] eqn:El; [done| |done]. cbn [mbind option_bind kv_of_leaf].
  pose proof (owns_keyed s m cs k _ Ho El) as E. cbn in E. subst k'. destruct (Ht k v El) as (? & value & _ & Dv).
  rewrite (cst_pure _ _ s value Dv), Dv. pose proof (tx_delete_law fuel s raw m k Hh) as Hd. rewrite Hw, El in Hd. destruct Hd as (s1 & E1 & _).
  destruct (tx_delete_own fuel s raw m cs k _ s1 Ho E1) as [Ho1 _]. pose proof (ttl_ok_delete m cs ex k Hok Hr) as Hok1.
  destruct (clear_ttl_ok (H0 := tx_store fuel) (H1 := tx_laws fuel) (H2 := tx_nested fuel) (H3 := tx_view fuel) (H4 := tx_nested_laws fuel)
    s1 raw _ cs ex k Ho1 Hok1 Hw) as (s2 & cs2 & E2 & Ho2 & Hok2).
  rewrite (cst_bind_ok _ _ s _ s1 (runs_ok _ _ _ _ E1)), (cst_bind_ok _ _ s1 _ s2 (runs_ok _ _ _ _ E2)).
  pose proof (view_delete m key k Ht Hk Ek) as (Ht1 & Hview & _). exists s2, (delete k m). split; [done|]. split; [split; [done|by exists cs2]|].
  apply (live_updated_ok _ _ _ _ key k); [by eapply ttl_hidden|by eapply ttl_hidden|done|done|by intros; apply lookup_delete_ne|by intros; apply lookup_delete_ne|].
  intros now. rewrite (live_view_lookup _ _ _ key k Ek), Hview. by destruct (alive _ now k).
Qed.

Lemma coll_insert_bucket s m ex key k value expires_at :
  coll_state s m ex → encode_key key = COk k → names_bucket m key = true → bk_writable raw = true → validV value →
  insert_with_options fuel raw key value expires_at s =
    (CErr (Storage (match expires_at ≫= (λ t, Some (epoch_millis t)) with Some (Err e) => e | _ => IncompatibleValue end)), s).
Proof.
  intros [Ht (cs & Ho & Hok)] Ek Hnb Hw Hv. destruct (value_roundtrip value Hv) as (v & Ev & _).
  pose proof (tx_put_law fuel s raw m k v (tx_owns_holds fuel s raw m cs Ho)) as Hp. rewrite Hw in Hp.
  rewrite (names_bucket_at m key k Ek) in Hnb. unfold is_bucket_at in Hnb. destruct (m !! k) as [[nm mt|]|]; [|done..].
  unfold insert_with_options. rewrite (cst_pure _ _ s k Ek), (cst_pure _ _ s v Ev). unfold mbind at 1, cst_bind at 1, write_record.
  destruct expires_at as [t|]; cbn [mbind option_bind].
  - unfold mbind, cst_bind, runs, put_with_ttl. destruct (epoch_millis t) as [d|e|w] eqn:Em; [|done|].
    + cbn [mbind res_bind s_put tx_store]. by rewrite Hp.
    + unfold epoch_millis in Em. by destruct (t <? 0), (u64_max <? t / 1000000).
  - unfold mbind, cst_bind, runs. by rewrite Hp.
Qed.

(** C23: A collection is a map of typed keys to typed values that expire.  For lawful
    codecs and a key that is not a name the library keeps for itself: [get] reads
    the value unless its deadline has come; an insertion replaces the value, makes
    it permanent or gives it the new deadline, and hands back the stored one, or
    reports a nested bucket or a time that cannot be stored and changes nothing;
    [remove] takes the value away with its deadline; [fetch_add] hands back the live
    value or the default and stores the sum without a deadline.  Every other key
    reads as before, at any time, and the deadlines stay consistent. *)
Theorem collection_refines_map (s : TxState) (m : gmap bytes Leaf) (ex : gmap bytes Z) (now : bytes → Z) (key : K) (k : bytes) (value : V)
    (expires_at : option SystemTime) (default_ amount : V) (add : V → V → V) :
  coll_state s m ex → validK key → encode_key key = COk k → is_ttl_bucket k = false → bk_writable raw = true → validV value →
  (∀ k, epoch_millis (clock k) = Ok (now k)) →
  (∃ s', coll_get fuel raw clock key s = (COk (live_view m ex now key), s') ∧ coll_state s' m ex) ∧
  (let deadline := expires_at ≫= (λ t, Some (epoch_millis t)) in
   let insert := insert_with_options fuel raw key value expires_at s in
   match names_bucket m key, deadline with
   | _, Some (Err e) => insert = (CErr (Storage e), s)
   | true, _ => insert = (CErr (Storage IncompatibleValue), s)
   | false, Some (Ok d) => ∃ s' m', insert = (COk (view m key), s') ∧ coll_state s' m' (<[k := d]> ex) ∧
       live_updated m ex m' (<[k := d]> ex) key (λ now, if now k <? d then Some value else None)
   | false, _ => ∃ s' m', insert = (COk (view m key), s') ∧ coll_state s' m' (delete k ex) ∧
       live_updated m ex m' (delete k ex) key (λ _, Some value)
   end) ∧
  match view m key with
  | Some old => ∃ s' m', coll_remove fuel raw key s = (COk (Some old), s') ∧ coll_state s' m' (delete k ex) ∧
      live_updated m ex m' (delete k ex) key (λ _, None)
  | None => coll_remove fuel raw key s = (COk None, s)
  end ∧
  let old := default default_ (live_view m ex now key) in
  validV (add old amount) → names_bucket m key = false →
  ∃ s' m', fetch_add fuel raw clock default_ add key amount s = (COk old, s') ∧ coll_state s' m' (delete k ex) ∧
    live_updated m ex m' (delete k ex) key (λ _, Some (add old amount)).
Proof.
  intros Hs Hk Ek Hr Hw Hv Hnow. split_and!.
  - by eapply coll_get_ok.
  - pose proof (coll_insert_bucket s m ex key k value expires_at Hs Ek) as Hb.
    pose proof (coll_insert_ok s m ex key k value expires_at Hs Hk Ek Hr) as Hi. cbv zeta.
    destruct (names_bucket m key); [rewrite Hb by done|specialize (Hi eq_refl Hw Hv)]; by destruct (expires_at ≫= _) as [[| |]|].
  - by apply coll_remove_ok.
  - intros old Hva Hnb. destruct (coll_get_ok s m ex now key k Hs Ek (Hnow k)) as (s1 & E1 & Hs1). unfold fetch_add.
    rewrite (cst_bind_ok _ _ s _ s1 E1). destruct (coll_insert_ok s1 m ex key k (add old amount) None Hs1 Hk Ek Hr Hnb Hw Hva) as (s2 & m2 & E2 & Hs2 & Hu).
    exists s2, m2. split; [|done]. by rewrite (cst_bind_ok _ _ s1 _ s2 E2).
Qed.

End points.

(** ** Collections of plain bytes *)

Lemma fresh_coll_state : coll_state (KC := BytesCodec) (VC := BytesValueCodec) 9 Fresh.handle Fresh.state ∅ ∅.
Proof. split; [apply bytes_all_typed|]. exists ∅. split; [exact Fresh.state_owns|exact Fresh.state_ttl]. Qed.

Lemma collection_refines_map_witness :
  ∃ s' m', insert_with_options (KC := BytesCodec) (VC := BytesValueCodec) 9 Fresh.handle Fresh.key [Byte.x01] (Some 7000000) Fresh.state = (COk None, s') ∧
    live_view (KC := BytesCodec) (VC := BytesValueCodec) m' {[Fresh.key := 7]} (λ _, 6) Fresh.key = Some [Byte.x01] ∧
    live_view (KC := BytesCodec) (VC := BytesValueCodec) m' {[Fresh.key := 7]} (λ _, 7) Fresh.key = None.
Proof.
  destruct (collection_refines_map (KC := BytesCodec) (VC := BytesValueCodec) 9 Fresh.handle (λ _, 5000000) Fresh.state ∅ ∅ (λ _, 5) Fresh.key Fresh.key
    [Byte.x01] (Some 7000000) [] [] (λ a _, a) fresh_coll_state I eq_refl eq_refl eq_refl I (λ _, eq_refl)) as (_ & (s' & m' & E & _ & Hu) & _).
  exists s', m'. split; [exact E|]. split; [exact (proj1 (Hu (λ _, 6)))|exact (proj1 (Hu (λ _, 7)))].
Defined.
