(* ===== verification/Scan.v ===== *)
(** * Scans and pages of a collection

    What the iterators of [Collection] give: a forward scan gives the live records
    between its bounds in key order, and the pages of [page_after] put together are
    the whole collection. *)

From S2P Require Import Prelude Search Support Layout Meta Freelist Node Page PageNode Inner Spill Buckets Cursor Changes Codecs Handle Store MapApi Typed Nested Ttl Schema Collection.

(** The end bound of an iterator. *)
Definition end_of (upper : option (bytes * bool)) : Bound :=
  match upper with
  | Some (e, true) => Included e
  | Some (e, false) => Excluded e
  | None => Unbounded
  end.

Lemma above_upper_end upper k : above_upper upper k = negb (in_end (end_of upper) k).
Proof.
  destruct upper as [[e []]|]; cbn [above_upper end_of in_end negb andb]; [by rewrite orb_false_r, negb_involutive| |done].
  destruct (lex_ltb k e) eqn:E; cbn [negb].
  - apply lex_ltb_lt in E. apply orb_false_iff. split; [apply lex_ltb_le; rewrite lex_le_alt; by left|].
    apply bool_decide_eq_false. intros ->. by apply (lex_lt_irrefl e).
  - apply lex_ltb_le in E. rewrite lex_le_alt in E. destruct E as [E| ->]; apply orb_true_iff; [left; by apply lex_ltb_lt|right; by apply bool_decide_eq_true].
Qed.

(** The records a scan over the entries [es] gives. *)
Definition scan (ex : gmap bytes Z) (now : bytes → Z) (end_ : Bound) (es : list Leaf) : list (bytes * bytes) :=
  omap (λ l, match l with
             | LKv k v => if alive ex now k && in_end end_ k then Some (k, v) else None
             | LBucket _ _ => None
             end) es.

(** Beyond the end there are none. *)
Lemma scan_beyond ex now end_ k v es :
  in_end end_ k = false → keys_sorted leaf_key (LKv k v :: es) → scan ex now end_ (LKv k v :: es) = [].
Proof.
  intros He [Hlt _]%keys_sorted_cons. assert (∀ l, l ∈ LKv k v :: es → in_end end_ (leaf_key l) = false) as Hall.
  { intros l [->|Hl]%elem_of_cons; [done|]. eapply in_end_mono; [exact He|]. by apply Hlt. }
  clear Hlt He. unfold scan. induction (LKv k v :: es) as [|l ls IH]; [done|]. cbn [omap list_omap]. pose proof (Hall l ltac:(left)) as Hl.
  rewrite IH by (intros; apply Hall; by right). destruct l as [|k' v']; [done|]. cbn [leaf_key] in Hl. by rewrite Hl, andb_false_r.
Qed.

Section scan.
Context (fuel n : nat) {K V : Type} {KC : KeyCodec K} {VC : ValueCodec V} (raw : Bucket) (clock : bytes → SystemTime) (item_size : Z).
Context (ex : gmap bytes Z) (now : bytes → Z).

(** A cursor over the bucket of the collection with the entries [rest] ahead; on
    one with nothing ahead the next two calls find nothing. *)
Definition ended (b : InnerBucket) (c : Cursor) : Prop :=
  ∃ c', advance fuel b c = Ok (None, c') ∧ ∃ c'', advance fuel b c' = Ok (None, c'').

Definition cursor_at (s : TxState) (c : Cursor) (rest : list Leaf) : Prop :=
  ∃ b b0, ts_buckets s !! bk_inner raw = Some b ∧ (∀ c, advance fuel b c = advance fuel b0 c) ∧
    (rest = [] ∧ ended b0 c ∨ ∃ ht all ps, ib_deleted b0 = false ∧ tree b0 ht (root_of b0) all ps ∧
      (leaves_full b0 ps ∨ all = [] ∧ ht = O) ∧ (ht < fuel)%nat ∧ Z.of_nat (length all) <= u64_max ∧ ready b0 ht all c rest).

Lemma cursor_at_advance s c rest : cursor_at s c rest →
  ∃ b, bucket_at (ts_buckets s) (bk_inner raw) = Ok b ∧
    match rest with
    | [] => ended b c
    | y :: rest => ∃ c', advance fuel b c = Ok (Some (data_of_leaf y), c') ∧ cursor_at s c' rest
    end.
Proof.
  intros (b & b0 & Hb & Hadv & Hcase). exists b. split; [unfold bucket_at; by rewrite Hb|].
  destruct Hcase as [[-> (c' & E & c'' & E')]|(ht & all & ps & Hd & Ht & Hfull & Hf & Hlen & Hr)].
  { exists c'. rewrite !Hadv. eauto. }
  destruct rest as [|y rest].
  - destruct (advance_ends b0 ht all Hlen Hd ps fuel Ht Hfull Hf c Hr) as (c' & E & c'' & E'). exists c'. rewrite !Hadv. eauto.
  - destruct (advance_ready b0 ht all Hlen Hd ps fuel Ht Hfull Hf c _ Hr) as (c' & E & Hr' & _). exists c'. rewrite Hadv. split; [done|].
    exists b, b0. split_and!; try done. right. by exists ht, all, ps.
Qed.

(** A forward iterator without a record limit or a prefix. *)
Record iter_at (s : TxState) (it : CollectionIter) (rest : list Leaf) : Prop := {
  ia_cursor : cursor_at s (it_cursor it) rest;
  ia_sorted : keys_sorted leaf_key rest;
  ia_forward : it_reverse it = false;
  ia_prefix : it_prefix it = None;
  ia_remaining : it_remaining it = None;
  ia_live : ∃ e, it_expirations it = inr e ∧ ∀ k, record_is_live fuel clock e k s = Ok (alive ex now k)
}.

Lemma iter_loop_at N it s rest :
  iter_at s it rest → (length rest < N)%nat →
  match scan ex now (end_of (it_upper it)) rest with
  | [] => ∃ it', iter_loop fuel raw clock N it s = (None (A := cres (K * V)), it') ∧
      (it_upper it = None → ∀ M, ∃ it'', iter_next fuel (S M) raw clock it' s = (None (A := cres (K * V)), it''))
  | (k, v) :: ps => ∃ it' rest', iter_loop fuel raw clock N it s = (Some (decode_pair (K := K) (V := V) k v), it') ∧ iter_at s it' rest' ∧
      it_upper it' = it_upper it ∧ scan ex now (end_of (it_upper it)) rest' = ps ∧ (length rest' < length rest)%nat
  end.
Proof.
  revert it rest. induction N as [|N IH]; intros it rest [Hc Hso Hrev Hpre Hrem (e & He & Hlive)] Hn; [lia|]. cbn [iter_loop].
  destruct (cursor_at_advance s (it_cursor it) rest Hc) as (b & Hb & Ha). rewrite Hb. cbn [mbind res_bind]. rewrite Hrev.
  destruct rest as [|y rest].
  - destruct Ha as (c' & -> & c'' & E'). cbn [scan omap list_omap]. eexists. split; [done|]. intros _ M. unfold iter_next.
    change (it_remaining (with_cursor it c')) with (it_remaining it). rewrite Hrem, decide_False by done. cbn [iter_loop]. rewrite Hb. cbn [mbind res_bind].
    change (it_reverse (with_cursor it c')) with (it_reverse it). change (it_cursor (with_cursor it c')) with c'. rewrite Hrev, E'. eauto.
  - destruct Ha as (c' & -> & Hc'). apply keys_sorted_cons in Hso as Hso'. destruct Hso' as [Hlt Hso'].
    assert (iter_at s (with_cursor it c') rest) as Hia by (split; try done; by exists e). cbn in Hn.
    pose proof (IH (with_cursor it c') rest Hia ltac:(lia)) as Hrec. change (it_upper (with_cursor it c')) with (it_upper it) in Hrec.
    destruct y as [nm mt|k v]; cbn [data_of_leaf].
    + cbn [scan omap list_omap]. fold (scan ex now (end_of (it_upper it)) rest). destruct (scan ex now _ rest) as [|[k v] ps]; [done|].
      destruct Hrec as (it' & rest' & E & Hi & Hu & Hs & Hl). exists it', rest'. split_and!; try done. cbn. lia.
    + assert (out_of_bounds (with_cursor it c') k = negb (in_end (end_of (it_upper it)) k)) as ->.
      { unfold out_of_bounds. cbn [with_cursor it_prefix it_reverse it_upper]. rewrite Hpre, Hrev. cbn [outside_prefix orb]. apply above_upper_end. }
      destruct (in_end (end_of (it_upper it)) k) eqn:Ein; cbn [negb].
      * cbn [with_cursor it_expirations]. rewrite He, Hlive. cbn [scan omap list_omap]. rewrite Ein, andb_true_r.
        fold (scan ex now (end_of (it_upper it)) rest). destruct (alive ex now k).
        -- exists (with_cursor it c'), rest. cbn [with_cursor it_remaining]. split_and!; try done; [|cbn; lia].
           rewrite Hrem. cbn. destruct it. cbn in Hrem |- *. by subst.
        -- destruct (scan ex now _ rest) as [|[k' v'] ps]; [done|]. destruct Hrec as (it' & rest' & E & Hi & Hu & Hs & Hl).
           exists it', rest'. split_and!; try done. cbn. lia.
      * rewrite (scan_beyond _ _ _ k v rest Ein Hso). eexists. split; [done|]. intros Hup. by rewrite Hup in Ein.
Qed.

Lemma iter_next_at it s rest : iter_at s it rest → iter_next (K := K) (V := V) fuel n raw clock it s = iter_loop fuel raw clock n it s.
Proof. intros Hi. unfold iter_next. rewrite (ia_remaining _ _ _ Hi). by rewrite decide_False. Qed.

Lemma decode_pairs_cons k v ps : decode_pairs (K := K) (V := V) ((k, v) :: ps) = item ← decode_pair k v; rest ← decode_pairs ps; COk (item :: rest).
Proof. unfold decode_pair. cbn [decode_pairs mbind cres_bind]. destruct (decode_key k); [|done..]. cbn. by destruct (decode_value v). Qed.

(** [collect] over the iterator. *)
Lemma iter_collect_at N it s rest :
  iter_at s it rest → (length rest < n)%nat → (length rest < N)%nat →
  iter_collect fuel n raw clock N it s = decode_pairs (K := K) (V := V) (scan ex now (end_of (it_upper it)) rest).
Proof.
  revert it rest. induction N as [|N IH]; intros it rest Hi Hn HN; [lia|]. cbn [iter_collect]. rewrite (iter_next_at it s rest Hi).
  pose proof (iter_loop_at n it s rest Hi Hn) as Hl. destruct (scan ex now _ rest) as [|[k v] ps].
  - destruct Hl as (it' & -> & _). done.
  - destruct Hl as (it' & rest' & -> & Hi' & Hu & <- & Hlen). rewrite decode_pairs_cons, <-Hu. destruct (decode_pair k v); [|done..].
    cbn [mbind cres_bind]. rewrite (IH it' rest' Hi') by lia. done.
Qed.

(** The loop and the last look of [page_after]. *)
Lemma page_items_at N limit it s rest l :
  iter_at s it rest → it_upper it = None → (length rest < n)%nat → (length rest < N)%nat → 0 <= limit →
  decode_pairs (K := K) (V := V) (scan ex now Unbounded rest) = COk l →
  ∃ it' o it'', page_items fuel n raw clock N limit it s = COk (take (Z.to_nat limit) l, it') ∧
    transpose_next fuel n raw clock it' s = COk (o, it'') ∧ (if o is Some _ then limit < Z.of_nat (length l) else Z.of_nat (length l) <= limit).
Proof.
  revert limit it rest l. induction N as [|N IH]; intros limit it rest l Hi Hup Hn HN Hlim Hdec; [lia|]. cbn [page_items].
  pose proof (iter_next_at it s rest Hi) as Hnext. pose proof (iter_loop_at n it s rest Hi Hn) as Hl. rewrite Hup in Hl. cbn [end_of] in Hl.
  destruct (scan ex now Unbounded rest) as [|[k v] ps].
  - injection Hdec as <-. destruct Hl as (it' & El & Hagain). destruct n as [|n']; [lia|]. destruct (Hagain eq_refl n') as [it'' E''].
    destruct (Z.eqb_spec limit 0) as [->|].
    + exists it, None, it'. split; [done|]. unfold transpose_next. rewrite Hnext, El. split; [done|cbn; lia].
    + rewrite Hnext, El. exists it', None, it''. rewrite take_nil. split; [done|]. unfold transpose_next. rewrite E''. split; [done|cbn; lia].
  - destruct Hl as (it' & rest' & El & Hi' & Hu & Hs & Hlen). rewrite decode_pairs_cons in Hdec.
    destruct (decode_pair k v) as [item| |]; [|done..]. cbn [mbind cres_bind] in Hdec. destruct (decode_pairs ps) as [l'| |] eqn:El'; [|done..].
    cbn in Hdec. injection Hdec as <-. destruct (Z.eqb_spec limit 0) as [->|].
    + exists it, (Some item), it'. split; [done|]. unfold transpose_next. rewrite Hnext, El. split; [done|cbn; lia].
    + rewrite Hnext, El. cbn [mbind cres_bind]. destruct (IH (limit - 1) it' rest' l' Hi') as (it1 & o & it2 & -> & E2 & Ho); try lia; [congruence|by rewrite Hs|].
      cbn [mbind cres_bind]. exists it1, o, it2. split; [|split; [done|]].
      * replace (Z.to_nat limit) with (S (Z.to_nat (limit - 1))) by lia. done.
      * cbn [length]. destruct o; lia.
Qed.

(** ** Making iterators *)

(** The bucket after a search or after one of its buckets was opened. *)
Definition reshaped (b b' : InnerBucket) : Prop := ∃ pp bk, b' = with_buckets (with_page_parents b pp) bk.

Lemma reshaped_wf b b' ht es ps : reshaped b b' → bucket_wf b ht es ps → bucket_wf b' ht es ps.
Proof. intros (pp & bk & ->) Hw. apply (same_tree_wf (with_page_parents b pp)); [by split|by apply parents_wf]. Qed.

Lemma reshaped_iterable s s' b b' m :
  ts_buckets s !! bk_inner raw = Some b → ts_buckets s' !! bk_inner raw = Some b' → reshaped b b' → tx_iterable fuel s raw m → tx_iterable fuel s' raw m.
Proof.
  intros Hb Hb' Hre (b0 & ht & es & ps & Hb0 & Hw & Hf & Hfull & Em & Hlen). rewrite Hb in Hb0. injection Hb0 as <-.
  exists b', ht, es, ps. split_and!; try done; [by eapply reshaped_wf|]. destruct Hre as (pp & bk & ->). exact Hfull.
Qed.

Lemma reshaped_cursor s s' b b' c rest :
  ts_buckets s !! bk_inner raw = Some b → ts_buckets s' !! bk_inner raw = Some b' → reshaped b b' → cursor_at s c rest → cursor_at s' c rest.
Proof.
  intros Hb Hb' (pp & bk & ->) (b1 & b0 & Hb1 & Hadv & Hcase). rewrite Hb in Hb1. injection Hb1 as <-.
  exists (with_buckets (with_page_parents b pp) bk), b0. split; [done|]. split; [exact Hadv|exact Hcase].
Qed.

(** The expirations an iterator keeps. *)
Lemma open_expirations_at s m cs :
  tx_owns fuel s raw m cs → ttl_ok m cs ex → (∀ k, epoch_millis (clock k) = Ok (now k)) →
  ∃ e s', open_expirations fuel raw s = (COk (inr e), s') ∧ tx_owns fuel s' raw m cs ∧
    (∀ k, record_is_live fuel clock e k s' = Ok (alive ex now k)) ∧
    ∃ b b', ts_buckets s !! bk_inner raw = Some b ∧ ts_buckets s' !! bk_inner raw = Some b' ∧ reshaped b b'.
Proof.
  intros Ho [Hu He Hd Hl Hi] Hnow. pose proof Ho as (b & ht & es & ps & Hb & _ & _ & _ & _ & Hch & _).
  unfold open_expirations, expiration_bucket. destruct Hl as [[mt Hn]|[Hn Hm]]; rewrite Hn in He; cbn [default from_option id] in He.
  - destruct (open_ok (H0 := tx_store fuel) (H1 := tx_laws fuel) (H2 := tx_nested fuel) (H3 := tx_view fuel) (H4 := tx_nested_laws fuel)
      s raw m cs _ mt Ho Hn) as (c & s' & E & Ho' & Hop & _). exists (Some c), s'. rewrite E. split_and!; try done.
    + intros k. unfold record_is_live, key_is_live.
      rewrite (child_get (H0 := tx_store fuel) (H1 := tx_laws fuel) (H2 := tx_nested fuel) (H3 := tx_view fuel) (H4 := tx_nested_laws fuel)
        s' raw m cs _ c mt Ho' Hop Hn), He. unfold alive. cbn [mbind res_bind]. destruct (ex !! k) as [d|] eqn:Ek; [|done].
      cbn [fmap option_fmap option_map mbind option_bind kv_of_leaf]. rewrite decode_expiration_ok by eauto. cbn [mbind res_bind]. by rewrite Hnow.
    + cbn [s_get_bucket tx_nested] in E. unfold bucket_get_bucket in E. apply res_bind_Ok in E as (b1 & _ & E).
      apply res_bind_Ok in E as ([r st] & E1 & E). injection E as _ <-. destruct (get_bucket_shape _ _ _ _ b _ _ E1 Hb (ch_refs _ _ _ _ Hch)) as (pp & bk & Hb').
      exists b, (with_buckets (with_page_parents b pp) bk). split_and!; [done|exact Hb'|by exists pp, bk].
  - rewrite (open_missing (H0 := tx_store fuel) (H1 := tx_laws fuel) (H2 := tx_nested fuel) (H3 := tx_view fuel) (H4 := tx_nested_laws fuel) s raw m cs _ Ho Hm).
    exists None, s. split_and!; try done.
    + intros k. unfold alive. specialize (He k). rewrite lookup_empty in He. by destruct (ex !! k).
    + exists b, b. split_and!; try done. exists (ib_page_parents b), (ib_buckets b). by destruct b.
Qed.

(** A bucket of typed records that can be scanned. *)
Definition scannable (s : TxState) (m : gmap bytes Leaf) : Prop := coll_state (KC := KC) (VC := VC) fuel raw s m ex ∧ tx_iterable fuel s raw m.

Lemma new_iter_at s m c rest :
  scannable s m → (∀ k, epoch_millis (clock k) = Ok (now k)) → cursor_at s c rest → keys_sorted leaf_key rest →
  ∃ it s', new_iter fuel raw c None None None false s = (COk it, s') ∧ iter_at s' it rest ∧ it_upper it = None ∧ scannable s' m.
Proof.
  intros [[Ht (cs & Ho & Hok)] Hit] Hnow Hc Hso.
  destruct (open_expirations_at s m cs Ho Hok Hnow) as (e & s' & E & Ho' & Hlive & b & b' & Hb & Hb' & Hre).
  eexists _, s'. unfold new_iter. rewrite (cst_bind_ok _ _ s _ s' E). split; [done|]. split_and!; [|done|].
  - split; [by apply (reshaped_cursor s s' b b')|done..|by exists e].
  - split; [split; [done|by exists cs]|by apply (reshaped_iterable s s' b b')].
Qed.

(** The object behind the collection. *)
Lemma scannable_inv s m : scannable s m →
  ∃ b ht es ps cs, ts_buckets s !! bk_inner raw = Some b ∧ ib_deleted b = false ∧ bucket_wf b ht es ps ∧ (ht < fuel)%nat ∧
    (leaves_full b ps ∨ es = [] ∧ ht = O) ∧ leaf_map es = m ∧ keys_sorted leaf_key es ∧ length es = size m ∧ Z.of_nat (length es) <= u64_max ∧
    all_typed m ∧ tx_owns fuel s raw m cs ∧ ttl_ok m cs ex.
Proof.
  intros [[Ht (cs & Ho & Hok)] (b & ht & es & ps & Hb & Hw & Hf & Hfull & <- & Hlen)]. pose proof (wf_sorted _ _ _ _ Hw) as Hso.
  pose proof (size_leaf_map es Hso) as Hsz. rewrite Hsz in Hlen. exists b, ht, es, ps, cs. split_and!; try done; [|by apply empty_leaves_root].
  destruct Ho as (b1 & ? & ? & ? & Hb1 & Hd & _). congruence.
Qed.

Lemma coll_iter_at s m :
  scannable s m → (∀ k, epoch_millis (clock k) = Ok (now k)) →
  ∃ es it s', leaf_map es = m ∧ keys_sorted leaf_key es ∧ length es = size m ∧
    coll_iter fuel raw s = (COk it, s') ∧ iter_at s' it es ∧ it_upper it = None ∧ scannable s' m.
Proof.
  intros Hs Hnow. destruct (scannable_inv s m Hs) as (b & ht & es & ps & cs & Hb & Hd & Hw & Hf & Hfull & Em & Hso & Hsz & Hlen & _).
  destruct (new_iter_at s m cursor_new es Hs Hnow) as (it & s' & E & Hi & Hu & Hs'); [|done|].
  - exists b, b. split_and!; try done. right. exists ht, es, ps. split_and!; try done; [apply Hw|by constructor].
  - exists es, it, s'. split_and!; try done. unfold coll_iter. rewrite (cst_bind_ok _ _ s cursor_new s); [done|].
    unfold reads, bucket_cursor. by rewrite (live_bucket_ok s raw b).
Qed.

(** Recording page parents changes nothing else. *)
Lemma parents_scannable s m b pp :
  scannable s m → ts_buckets s !! bk_inner raw = Some b → scannable (set_bucket s (bk_inner raw) (with_page_parents b pp)) m.
Proof.
  intros [[Ht (cs & Ho & Hok)] Hit] Hb. pose proof Ho as (b1 & ht & es & ps & Hb1 & Hd & Hw & Hf & Em & Hch & Hcs). rewrite Hb in Hb1. injection Hb1 as <-.
  split; [split; [done|]|].
  - exists cs. split; [|done]. subst m.
    refine (proj1 (owns_self fuel s raw b ht es ps cs (with_page_parents b pp) ht es ps [] [] OpPut Hb Hw Hf Hch Hcs Hd eq_refl eq_refl _ Hf _)).
    + by apply parents_wf.
    + intros k. by left.
  - apply (reshaped_iterable s _ b (with_page_parents b pp)); [done|apply lookup_insert_eq| |done]. exists pp, (ib_buckets b). by destruct b.
Qed.

(** [iter_from_encoded] after the seek. *)
Lemma skip_at s c y rest key exclusive b pp ht all ps before :
  ts_buckets s !! bk_inner raw = Some (with_page_parents b pp) → ib_deleted b = false → tree b ht (root_of b) all ps → leaves_full b ps → (ht < fuel)%nat →
  Z.of_nat (length all) <= u64_max → c_next_called c = false → c_stack c ≠ [] → position b ht all (c_stack c) before (y :: rest) →
  ∃ skipped c', skip_current raw exclusive (bool_decide (leaf_key y = key)) key c s = Ok skipped ∧
    (if skipped then skip fuel raw c s = Ok c' else c' = c) ∧
    cursor_at s c' (if in_start (if exclusive then Excluded key else Included key) (leaf_key y) then y :: rest else rest).
Proof.
  intros Hb Hd Ht Hf Hfu Hlen Hnc Hst Hpos. assert (ready b ht all c (y :: rest)) as Hr by (by eapply ready_here).
  assert (∀ c rest, ready b ht all c rest → cursor_at s c rest) as Hat.
  { intros c1 rest1 Hr1. exists (with_page_parents b pp), b. split_and!; try done. right. exists ht, all, ps. split_and!; try done. by left. }
  destruct (advance_ready b ht all Hlen Hd ps fuel Ht (or_introl Hf) Hfu c _ Hr) as (c1 & Ea & Hr1 & _).
  assert (skip fuel raw c s = Ok c1) as Hskip by (unfold skip, bucket_at; rewrite Hb; cbn [unwrap mbind res_bind];
    change (advance fuel (with_page_parents b pp)) with (advance fuel b); by rewrite Ea).
  assert (current (with_page_parents b pp) c = Ok (Some (data_of_leaf y))) as Hcur.
  { change (current (with_page_parents b pp)) with (current b). destruct c as [st nc pc]. by rewrite (current_at b ht all Hd st before (y :: rest) nc pc Hpos). }
  unfold skip_current, bucket_at. rewrite Hb. cbn [unwrap mbind res_bind]. rewrite Hcur. cbn [mbind res_bind]. rewrite data_of_leaf_key.
  case_bool_decide as Ek; [subst key|].
  - destruct exclusive; cbn [andb in_start].
    + exists true, c1. rewrite lex_ltb_irrefl. split_and!; [done|done|by apply Hat].
    + exists false, c. rewrite lex_ltb_irrefl. split_and!; [done|done|by apply Hat].
  - rewrite andb_false_r. destruct (lex_ltb (leaf_key y) key) eqn:El.
    + exists true, c1. split_and!; [done|done|]. apply lex_ltb_lt in El as Hlt.
      assert (lex_ltb key (leaf_key y) = false) as Hge by (apply lex_ltb_le; rewrite lex_le_alt; by left).
      destruct exclusive; cbn [in_start]; rewrite ?El, ?Hge; by apply Hat.
    + exists false, c. split_and!; [done|done|]. assert (lex_ltb key (leaf_key y) = true) as Hgt.
      { apply lex_ltb_le in El. rewrite lex_le_alt in El. apply lex_ltb_lt. destruct El; [done|congruence]. }
      destruct exclusive; cbn [in_start]; rewrite ?El, ?Hgt; by apply Hat.
Qed.

Lemma filter_start exclusive key before y rest :
  (∀ e, e ∈ before → lex_lt (leaf_key e) key) → (∀ e, e ∈ rest → lex_lt key (leaf_key e)) →
  let start := if exclusive : bool then Excluded key else Included key in
  filter (λ l, in_start start (leaf_key l)) (before ++ y :: rest) = if in_start start (leaf_key y) then y :: rest else rest.
Proof.
  intros Hlo Hhi start. assert (∀ k, lex_lt k key → in_start start k = false) as Hno.
  { intros k Hk. unfold start. destruct exclusive; cbn [in_start]; [apply lex_ltb_le; rewrite lex_le_alt; by left|].
    apply negb_false_iff. by apply lex_ltb_lt. }
  assert (∀ k, lex_lt key k → in_start start k = true) as Hyes.
  { intros k Hk. unfold start. destruct exclusive; cbn [in_start]; [by apply lex_ltb_lt|].
    apply negb_true_iff, lex_ltb_le. rewrite lex_le_alt. by left. }
  rewrite filter_app, (filter_none _ before), filter_cons, (filter_keeps _ rest).
  - cbn [app]. by destruct (in_start start (leaf_key y)).
  - apply Forall_forall. intros e He. by rewrite (Hyes _ (Hhi e He)).
  - apply Forall_forall. intros e He. rewrite (Hno _ (Hlo e He)). by intros [].
Qed.

Lemma iter_from_at s m key exclusive :
  scannable s m → (∀ k, epoch_millis (clock k) = Ok (now k)) →
  ∃ es it s', leaf_map es = m ∧ keys_sorted leaf_key es ∧ length es = size m ∧ iter_from_encoded fuel raw key exclusive s = (COk it, s') ∧
    iter_at s' it (filter (λ l, in_start (if exclusive then Excluded key else Included key) (leaf_key l)) es) ∧ it_upper it = None ∧ scannable s' m.
Proof.
  intros Hs Hnow. destruct (scannable_inv s m Hs) as (b & ht & es & ps & cs & Hb & Hd & Hw & Hf & Hfull & Em & Hso & Hsz & Hlen & _).
  assert (reads (bucket_cursor raw) s = (COk cursor_new, s)) as Hcur by (unfold reads, bucket_cursor; by rewrite (live_bucket_ok s raw b)).
  assert (∃ ex_ c pp skipped c', seek fuel b key = Ok (ex_, c, with_page_parents b pp) ∧
    let s1 := set_bucket s (bk_inner raw) (with_page_parents b pp) in
    skip_current raw exclusive ex_ key c s1 = Ok skipped ∧ (if skipped : bool then skip fuel raw c s1 = Ok c' else c' = c) ∧
    cursor_at s1 c' (filter (λ l, in_start (if exclusive then Excluded key else Included key) (leaf_key l)) es))
    as (ex_ & c & pp & skipped & c' & Hseek & Hsc & Hsk & Hat).
  { destruct Hfull as [Hfull|[-> ->]].
    - destruct (seek_ready b ht es Hd ps fuel (wf_tree _ _ _ _ Hw) (or_introl Hfull) Hf key Hfull (wf_store _ _ _ _ Hw) Hso)
        as (stack & pp & before & y & rest & Hseek & Hpos & Hlo & Hhi).
      set (s1 := set_bucket s (bk_inner raw) (with_page_parents b pp)).
      destruct (position_stack b ht es stack before (y :: rest) Hpos) as [Hne _].
      destruct (skip_at s1 (mkCursor stack false false) y rest key exclusive b pp ht es ps before) as (skipped & c' & Hsc & Hsk & Hat); try done;
        [apply lookup_insert_eq|apply Hw|].
      exists (bool_decide (leaf_key y = key)), (mkCursor stack false false), pp, skipped, c'. split; [done|]. cbv zeta. split_and!; try done.
      rewrite (position_all b ht es _ _ _ Hpos), (filter_start exclusive key before y rest Hlo Hhi). exact Hat.
    - destruct (empty_seek b ps fuel key Hw Hd Hf) as (id & Hseek & Hempty). exists false, (mkCursor [mkPath 0 id] false false), (ib_page_parents b), false, (mkCursor [mkPath 0 id] false false).
      assert (with_page_parents b (ib_page_parents b) = b) as -> by (by destruct b). split; [done|]. cbv zeta. split; [|split; [done|]].
      + unfold skip_current, bucket_at. rewrite andb_false_r. cbn [set_bucket ts_buckets]. rewrite lookup_insert_eq. cbn [unwrap mbind res_bind].
        by rewrite (proj1 (Hempty 0%nat false false)).
      + exists b, b. split; [apply lookup_insert_eq|]. split; [done|]. left. split; [done|]. destruct (Hempty 0%nat false false) as [_ [j Hj]].
        destruct (Hempty j true false) as [_ [j' Hj']]. eexists. split; [exact Hj|]. eexists. exact Hj'. }
  set (s1 := set_bucket s (bk_inner raw) (with_page_parents b pp)) in *. pose proof (parents_scannable s m b pp Hs Hb) as Hs1. fold s1 in Hs1.
  destruct (new_iter_at s1 m c' _ Hs1 Hnow Hat) as (it & s' & E & Hi & Hu & Hs').
  { by apply (keys_sorted_filter leaf_key). }
  exists es, it, s'. split_and!; try done. unfold iter_from_encoded. rewrite (cst_bind_ok _ _ s _ s Hcur).
  rewrite (cst_bind_ok _ _ s (ex_, c) s1) by (unfold runs, raw_seek, bucket_at; rewrite Hb; cbn [unwrap mbind res_bind]; by rewrite Hseek).
  rewrite (cst_bind_ok _ _ s1 skipped s1) by (unfold reads; by rewrite Hsc).
  rewrite (cst_bind_ok _ _ s1 c' s1); [done|]. destruct skipped; [unfold reads; by rewrite Hsk|by subst c'].
Qed.

(** ** What a scan lists *)

Lemma scan_filter end_ start es :
  scan ex now end_ (filter (λ l, in_start start (leaf_key l)) es) =
  omap kv_of_data (data_of_leaf <$> filter (λ l, (in_start start (leaf_key l) && in_end end_ (leaf_key l)) && alive ex now (leaf_key l)) es).
Proof.
  induction es as [|e es IH]; [done|]. rewrite !filter_cons. destruct (in_start start (leaf_key e)); cbn [andb]; [|by rewrite !decide_False by (by intros [])].
  rewrite decide_True by done. unfold scan in IH |- *. cbn [omap list_omap]. rewrite IH.
  destruct e as [nm mt|k v]; cbn [leaf_key]; destruct (in_end end_ _), (alive ex now _); cbn [andb]; by rewrite ?decide_True, ?decide_False by (done || by intros []).
Qed.

Lemma scan_lists es start end_ :
  keys_sorted leaf_key es →
  lists_pairs (between start end_ (living (leaf_map es) ex now)) (scan ex now end_ (filter (λ l, in_start start (leaf_key l)) es)).
Proof.
  intros Hso. rewrite scan_filter.
  replace (between start end_ (living (leaf_map es) ex now))
    with (leaf_map (filter (λ l, (in_start start (leaf_key l) && in_end end_ (leaf_key l)) && alive ex now (leaf_key l)) es)).
  - apply lists_pairs_leaves. by apply (keys_sorted_filter leaf_key).
  - rewrite (leaf_map_filter (λ k, (in_start start k && in_end end_ k) && alive ex now k)) by done. unfold between, living.
    rewrite map_filter_filter. apply map_filter_ext. intros k l _. cbn [fst]. by rewrite andb_True.
Qed.

Lemma view_filter (P : bytes → bool) (m : gmap bytes Leaf) key k :
  encode_key key = COk k → view (V := V) (filter (λ kl, P kl.1) m) key = if P k then view m key else None.
Proof.
  intros Ek. unfold view. rewrite Ek. destruct (P k) eqn:E.
  - destruct (m !! k) as [l|] eqn:El; [|by rewrite map_lookup_filter, El]. rewrite (proj2 (map_lookup_filter_Some _ m k l)); [done|]. cbn. by rewrite E.
  - rewrite (proj2 (map_lookup_filter_None _ m k)); [done|]. right. cbn. intros l _. rewrite E. by intros [].
Qed.

Context {validK : K → Prop} {cmp : K → K → comparison} {validV : V → Prop}.
Context `{!LawfulKey KC validK cmp} `{!LawfulValue VC validV}.

(** Typed bounds. *)
Definition above_start (start : KBound) (key : K) : Prop :=
  match start with
  | KIncluded lo => cmp key lo ≠ Lt
  | KExcluded lo => cmp lo key = Lt
  | KUnbounded => True
  end.
Definition below_end (end_ : KBound) (key : K) : Prop :=
  match end_ with
  | KIncluded hi => cmp hi key ≠ Lt
  | KExcluded hi => cmp key hi = Lt
  | KUnbounded => True
  end.
Definition bound_valid (bd : KBound) : Prop := match bd with KIncluded k | KExcluded k => validK k | KUnbounded => True end.

(** The stored bound of a typed one. *)
Definition bound_of (bd : KBound) (r : Bound) : Prop :=
  match bd with
  | KIncluded key => ∃ k, encode_key key = COk k ∧ r = Included k
  | KExcluded key => ∃ k, encode_key key = COk k ∧ r = Excluded k
  | KUnbounded => r = Unbounded
  end.

Lemma bound_of_ok bd : bound_valid bd → ∃ r, bound_of bd r.
Proof. destruct bd as [k|k|]; cbn; [intros Hk; destruct (key_roundtrip k Hk) as (b & E & _); eauto..|eauto]. Qed.

Lemma start_order bd r key k :
  ORDER_PRESERVING = true → bound_valid bd → bound_of bd r → validK key → encode_key key = COk k → in_start r k = true ↔ above_start bd key.
Proof.
  intros Ho Hb Hr Hk Ek. destruct bd as [lo|lo|]; cbn in *; [destruct Hr as (klo & El & ->)..|by subst r]; cbn [in_start].
  - rewrite negb_true_iff. unfold lex_ltb. rewrite (key_order key lo k klo) by done. by destruct (cmp key lo).
  - unfold lex_ltb. rewrite (key_order lo key klo k) by done. by destruct (cmp lo key).
Qed.

Lemma end_order bd r key k :
  ORDER_PRESERVING = true → bound_valid bd → bound_of bd r → validK key → encode_key key = COk k → in_end r k = true ↔ below_end bd key.
Proof.
  intros Ho Hb Hr Hk Ek. destruct bd as [hi|hi|]; cbn in *; [destruct Hr as (khi & El & ->)..|by subst r]; cbn [in_end].
  - rewrite negb_true_iff. unfold lex_ltb. rewrite (key_order hi key khi k) by done. by destruct (cmp hi key).
  - unfold lex_ltb. rewrite (key_order key hi k khi) by done. by destruct (cmp key hi).
Qed.

(** The live records between the bounds, in order. *)
Definition lists_live (m : gmap bytes Leaf) (start end_ : KBound) (l : list (K * V)) : Prop :=
  StronglySorted (λ p q, cmp p.1 q.1 = Lt) l ∧
  ∀ key value, (key, value) ∈ l ↔ validK key ∧ live_view m ex now key = Some value ∧ above_start start key ∧ below_end end_ key.

Lemma scan_typed es start end_ rs re :
  ORDER_PRESERVING = true → all_typed (leaf_map es) → keys_sorted leaf_key es → bound_valid start → bound_valid end_ →
  bound_of start rs → bound_of end_ re →
  ∃ l, decode_pairs (scan ex now re (filter (λ l, in_start rs (leaf_key l)) es)) = COk l ∧ lists_live (leaf_map es) start end_ l.
Proof.
  intros Ho Ht Hso Hvs Hve Hrs Hre.
  destruct (decode_pairs_view (between rs re (living (leaf_map es) ex now)) (scan ex now re (filter (λ l, in_start rs (leaf_key l)) es))) as (l & El & Hs & Hin).
  - done.
  - intros k v [[E _]%map_lookup_filter_Some _]%map_lookup_filter_Some. eauto.
  - intros k l [[E _]%map_lookup_filter_Some _]%map_lookup_filter_Some. rewrite leaf_map_assoc in E. by apply assoc_Some_elem in E as [_ ?].
  - by apply scan_lists.
  - exists l. split; [done|]. split; [done|]. intros key value. rewrite Hin. split; intros [Hk Hb]; (split; [done|]);
      destruct (key_roundtrip key Hk) as (k & Ek & _); pose proof (view_filter (λ k, in_start rs k && in_end re k) (living (leaf_map es) ex now) key k Ek) as Hv;
      unfold between in *; cbn [fst] in *; rewrite <-(start_order start rs key k), <-(end_order end_ re key k) in * by done.
    + rewrite Hv in Hb. unfold live_view. destruct (in_start rs k), (in_end re k); [|done..]. split_and!; done.
    + destruct Hb as (Hl & E1 & E2). rewrite Hv, E1, E2. exact Hl.
Qed.

(** C24: A scan of a collection is exact.  On a collection whose records are all typed
    and whose bucket can be iterated, with an order-preserving codec,
    [range_bounds] gives an iterator over exactly the records that are live when
    they are checked and whose keys are between the bounds, each once, in the order
    of the keys, whichever kinds the bounds are; an unbounded range is the whole
    collection.  Nested buckets and expired records are passed over.  The loop ends,
    and making the iterator changes nothing the collection holds. *)
Theorem collection_scan_exact (s : TxState) (m : gmap bytes Leaf) (start end_ : KBound) :
  ORDER_PRESERVING = true → scannable s m → (∀ k, epoch_millis (clock k) = Ok (now k)) → bound_valid start → bound_valid end_ → (size m < n)%nat →
  ∃ it s' l, range_bounds fuel raw start end_ s = (COk it, s') ∧ scannable s' m ∧
    iter_collect fuel n raw clock n it s' = COk l ∧ lists_live m start end_ l.
Proof.
  intros Ho Hs Hnow Hvs Hve Hn. destruct (bound_of_ok start Hvs) as [rs Hrs], (bound_of_ok end_ Hve) as [re Hre].
  assert (∃ u, encode_end end_ = COk u ∧ end_of u = re) as (u & Eu & Eend).
  { destruct end_ as [k|k|]; cbn in Hre; [destruct Hre as (b & Eb & ->)..|subst re]; cbn [encode_end]; rewrite ?Eb; eexists; split; done. }
  assert (∃ es it s', leaf_map es = m ∧ keys_sorted leaf_key es ∧ length es = size m ∧ scannable s' m ∧
    iter_at s' it (filter (λ l, in_start rs (leaf_key l)) es) ∧ range_bounds fuel raw start end_ s = (COk (with_upper it u), s'))
    as (es & it & s' & Em & Hso & Hlen & Hs' & Hi & E).
  { unfold range_bounds. rewrite (cst_pure _ _ s ()) by (unfold order_required; by rewrite Ho).
    destruct start as [k|k|]; cbn in Hrs; [destruct Hrs as (b & Eb & ->)..|subst rs]; cbn [encode_start]; rewrite ?Eb; cbn [mbind cres_bind].
    - rewrite (cst_pure _ _ s (Some b, false)), (cst_pure _ _ s u Eu) by done. destruct (iter_from_at s m b false Hs Hnow) as (es & it & s' & ? & ? & ? & E & ? & ? & ?).
      exists es, it, s'. split_and!; try done. by rewrite (cst_bind_ok _ _ s it s' E).
    - rewrite (cst_pure _ _ s (Some b, true)), (cst_pure _ _ s u Eu) by done. destruct (iter_from_at s m b true Hs Hnow) as (es & it & s' & ? & ? & ? & E & ? & ? & ?).
      exists es, it, s'. split_and!; try done. by rewrite (cst_bind_ok _ _ s it s' E).
    - rewrite (cst_pure _ _ s (None, false)), (cst_pure _ _ s u Eu) by done. destruct (coll_iter_at s m Hs Hnow) as (es & it & s' & ? & ? & ? & E & Hi & ? & ?).
      exists es, it, s'. split_and!; try done; [|by rewrite (cst_bind_ok _ _ s it s' E)].
      rewrite filter_keeps; [done|]. by apply Forall_forall. }
  subst m. destruct (scan_typed es start end_ rs re Ho (proj1 (proj1 Hs)) Hso Hvs Hve Hrs Hre) as (l & El & Hl).
  exists (with_upper it u), s', l. split_and!; try done.
  assert (iter_at s' (with_upper it u) (filter (λ l, in_start rs (leaf_key l)) es)) as Hiu by (destruct Hi; by split).
  pose proof (length_filter (λ l, in_start rs (leaf_key l)) es). rewrite (iter_collect_at n _ s' _ Hiu) by lia.
  change (it_upper (with_upper it u)) with u. by rewrite Eend.
Qed.

(** ** Pages *)

Lemma cmp_lex key key' : ORDER_PRESERVING = true → validK key → validK key' →
  ∃ k k', encode_key key = COk k ∧ encode_key key' = COk k' ∧ (cmp key key' = Lt ↔ lex_lt k k').
Proof.
  intros Ho Hk Hk'. destruct (key_roundtrip key Hk) as (k & Ek & _), (key_roundtrip key' Hk') as (k' & Ek' & _). exists k, k'. split_and!; try done.
  unfold lex_lt. by rewrite (key_order key key' k k').
Qed.

Lemma cmp_asym key key' : ORDER_PRESERVING = true → validK key → validK key' → cmp key key' = Lt → cmp key' key = Lt → False.
Proof.
  intros Ho Hk Hk' H1 H2. destruct (cmp_lex key key' Ho Hk Hk') as (k & k' & Ek & Ek' & Hi). destruct (cmp_lex key' key Ho Hk' Hk) as (b & b' & Eb & Eb' & Hj).
  assert (b = k' ∧ b' = k) as [-> ->] by (split; congruence). apply Hi in H1. apply Hj in H2. by apply (lex_lt_asym k k').
Qed.

Lemma lists_live_unique m start end_ l l' : ORDER_PRESERVING = true → lists_live m start end_ l → lists_live m start end_ l' → l = l'.
Proof.
  intros Ho [Hs Hin] [Hs' Hin']. assert (∀ q : list (K * V), StronglySorted (λ p q, cmp p.1 q.1 = Lt) q → (∀ x, x ∈ q → validK x.1) → NoDup q) as Hnd.
  { intros q. induction 1 as [|x q Hq IH Hx]; intros Hv; [constructor|]. constructor; [|apply IH; intros; apply Hv; by right]. intros Hxq.
    rewrite Forall_forall in Hx. pose proof (Hx x Hxq). assert (validK x.1) by (apply Hv; left). by apply (cmp_asym x.1 x.1). }
  apply (StronglySorted_unique_strong (λ p q, cmp p.1 q.1 = Lt)); try done.
  - intros [k v] [k' v'] H1%Hin H2%Hin' C1 C2. exfalso. apply (cmp_asym k k' Ho); [apply H1|apply H2|done|done].
  - apply NoDup_Permutation; [apply Hnd; [done|]; intros [] ?%Hin; naive_solver|apply Hnd; [done|]; intros [] ?%Hin'; naive_solver|].
    intros [key value]. by rewrite Hin, Hin'.
Qed.

Lemma above_start_mono start key key' :
  ORDER_PRESERVING = true → bound_valid start → validK key → validK key' → above_start start key → cmp key key' = Lt → above_start start key'.
Proof.
  intros Ho Hb Hk Hk' Ha Hlt. destruct (bound_of_ok start Hb) as [rs Hrs]. destruct (cmp_lex key key' Ho Hk Hk') as (k & k' & Ek & Ek' & Hlex).
  apply Hlex in Hlt. apply (start_order start rs key k Ho Hb Hrs Hk Ek) in Ha. apply (start_order start rs key' k' Ho Hb Hrs Hk' Ek').
  destruct rs as [lo|lo|]; cbn [in_start] in *; [| |done].
  - rewrite negb_true_iff, lex_ltb_le in Ha |- *. rewrite lex_le_alt. left. by eapply lex_le_lt_trans.
  - rewrite lex_ltb_lt in Ha |- *. by eapply lex_lt_trans.
Qed.

Lemma sorted_split {A} (R : A → A → Prop) pre x post :
  StronglySorted R (pre ++ x :: post) → StronglySorted R post ∧ (∀ y, y ∈ pre → R y x) ∧ ∀ y, y ∈ post → R x y.
Proof.
  induction pre as [|z pre IH]; cbn [app]; intros Hs; inversion Hs as [|? ? Hs2 Hz]; subst; rewrite Forall_forall in Hz.
  - split_and!; [done|by intros y ?%elem_of_nil|done].
  - destruct (IH Hs2) as (H1 & H2 & H3). split_and!; [done| |done]. intros y [->|Hy]%elem_of_cons; [|auto].
    apply Hz, elem_of_app. right. left.
Qed.

(** What is left after a page. *)
Lemma lists_live_drop m start l i key value :
  ORDER_PRESERVING = true → bound_valid start → lists_live m start KUnbounded l → l !! i = Some (key, value) →
  validK key ∧ lists_live m (KExcluded key) KUnbounded (drop (S i) l).
Proof.
  intros Ho Hb [Hs Hin] Hi. destruct (proj1 (Hin key value) (list_elem_of_lookup_2 _ _ _ Hi)) as (Hvk & _ & Hst & _). split; [done|].
  rewrite <-(take_drop_middle l i (key, value) Hi) in Hs, Hin. destruct (sorted_split _ _ _ _ Hs) as (Hd & Hpre & Hpost). split; [done|].
  intros key' value'. cbn [above_start below_end]. specialize (Hin key' value'). rewrite elem_of_app, elem_of_cons in Hin. split.
  - intros Hd'. destruct (proj1 Hin) as (Hk' & Hl & _); [auto|]. specialize (Hpost _ Hd'). done.
  - intros (Hk' & Hl & Hlt & _). destruct (proj2 Hin) as [Hx|[[= -> ->]|Hx]]; [|exfalso..|done].
    + split_and!; try done. by apply (above_start_mono start key).
    + specialize (Hpre _ Hx). by apply (cmp_asym key key').
    + by apply (cmp_asym key key).
Qed.

(** One page: the token stands for the bound after it. *)
Definition token_of (after : option bytes) (start : KBound) : Prop :=
  match after with
  | None => start = KUnbounded
  | Some token => ∃ key, validK key ∧ encode_key key = COk token ∧ start = KExcluded key
  end.

Lemma page_after_ok s m after start limit l :
  ORDER_PRESERVING = true → scannable s m → (∀ k, epoch_millis (clock k) = Ok (now k)) → (size m < n)%nat → 0 < limit → item_size * limit <= isize_max →
  token_of after start → lists_live m start KUnbounded l →
  ∃ s' next, page_after fuel n raw clock item_size after limit s = (COk (mkPage (take (Z.to_nat limit) l) next), s') ∧ scannable s' m ∧
    if limit <? Z.of_nat (length l)
    then ∃ key value token, l !! (Z.to_nat limit - 1)%nat = Some (key, value) ∧ encode_key key = COk token ∧ next = Some token
    else next = None.
Proof.
  intros Ho Hs Hnow Hn Hlim Hcap Htok Hl.
  assert (∃ rs, bound_valid start ∧ bound_of start rs ∧ ∃ es it s', leaf_map es = m ∧ keys_sorted leaf_key es ∧ length es = size m ∧
    (match after with Some token => iter_from_encoded fuel raw token true | None => coll_iter fuel raw end) s = (COk it, s') ∧
    iter_at s' it (filter (λ l, in_start rs (leaf_key l)) es) ∧ it_upper it = None ∧ scannable s' m)
    as (rs & Hbv & Hrs & es & it & s' & Em & Hso & Hlen & E & Hi & Hu & Hs').
  { destruct after as [token|]; cbn in Htok.
    - destruct Htok as (key & Hk & Ek & ->). destruct (iter_from_at s m token true Hs Hnow) as (es & it & s' & Hr). exists (Excluded token).
      split; [done|]. split; [by exists token|]. by exists es, it, s'.
    - subst start. destruct (coll_iter_at s m Hs Hnow) as (es & it & s' & ? & ? & ? & ? & Hi & ?). exists Unbounded. split; [done|]. split; [done|]. exists es, it, s'.
      split_and!; try done; [|naive_solver..]. rewrite filter_keeps; [done|]. by apply Forall_forall. }
  subst m. destruct (scan_typed es start KUnbounded rs Unbounded Ho (proj1 (proj1 Hs)) Hso Hbv I Hrs eq_refl) as (l' & El & Hl').
  rewrite (lists_live_unique _ _ _ l l' Ho Hl Hl') in *. pose proof (length_filter (λ l, in_start rs (leaf_key l)) es).
  destruct (page_items_at n limit it s' _ l' Hi Hu) as (it1 & o & it2 & E1 & E2 & Ho2); [lia..|done|].
  unfold page_after. rewrite (cst_pure _ _ s ()) by (unfold order_required; by rewrite Ho). rewrite (proj2 (Z.eqb_neq limit 0)) by lia.
  rewrite (cst_bind_ok _ _ s it s' E). rewrite (cst_pure _ _ s' ()) by (by rewrite (proj2 (Z.leb_le _ _) Hcap)).
  rewrite (cst_bind_ok _ _ s' (take (Z.to_nat limit) l', it1) s') by (unfold decodes; by rewrite E1).
  rewrite (cst_bind_ok _ _ s' (o, it2) s') by (unfold decodes; by rewrite E2).
  assert ((match o with Some _ => true | None => false end) = (limit <? Z.of_nat (length l'))) as -> by (destruct o, (Z.ltb_spec limit (Z.of_nat (length l'))); (done || lia)).
  destruct (Z.ltb_spec limit (Z.of_nat (length l'))).
  - destruct (lookup_lt_is_Some_2 l' (Z.to_nat limit - 1)) as [[key value] Hx]; [lia|].
    destruct (proj1 (proj2 Hl' key value) (list_elem_of_lookup_2 _ _ _ Hx)) as (Hk & _). destruct (key_roundtrip key Hk) as (token & Ek & _).
    assert (last (take (Z.to_nat limit) l') = Some (key, value)) as Hlast.
    { rewrite last_lookup, length_take, lookup_take_lt by lia. rewrite Nat.min_l by lia. by rewrite <-Hx, Nat.sub_1_r. }
    exists s', (Some token). split_and!; [|done|by exists key, value, token]. unfold page_token. rewrite Hlast, Ek. done.
  - exists s', None. done.
Qed.

(** A client that follows the tokens; [p] bounds the pages. *)
Fixpoint all_pages (p : nat) (after : option bytes) (limit : Z) : cst (list (list (K * V))) :=
  match p with
  | O => pure (CPanic NOFUEL)
  | S p =>
      page ← page_after fuel n raw clock item_size after limit;
      match next_token page with
      | None => mret [items page]
      | Some token => rest ← all_pages p (Some token) limit; mret (items page :: rest)
      end
  end.

Lemma all_pages_ok p s m after start limit l :
  ORDER_PRESERVING = true → scannable s m → (∀ k, epoch_millis (clock k) = Ok (now k)) → (size m < n)%nat → 0 < limit → item_size * limit <= isize_max →
  token_of after start → lists_live m start KUnbounded l → (length l < p)%nat →
  ∃ s' pages, all_pages p after limit s = (COk pages, s') ∧ scannable s' m ∧ concat pages = l ∧ Forall (λ page, Z.of_nat (length page) <= limit) pages.
Proof.
  intros Ho Hs Hnow Hn Hlim Hcap. revert s after start l Hs. induction p as [|p IH]; intros s after start l Hs Htok Hl Hp; [lia|]. cbn [all_pages].
  destruct (page_after_ok s m after start limit l Ho Hs Hnow Hn Hlim Hcap Htok Hl) as (s1 & next & E & Hs1 & Hnext).
  rewrite (cst_bind_ok _ _ s _ s1 E). cbn [next_token items]. pose proof (length_take l (Z.to_nat limit)) as Htk.
  destruct (Z.ltb_spec limit (Z.of_nat (length l))).
  - destruct Hnext as (key & value & token & Hx & Ek & ->).
    assert (bound_valid start) as Hbv by (destruct after; cbn in Htok; [destruct Htok as (? & ? & _ & ->)|subst start]; done).
    destruct (lists_live_drop m start l _ key value Ho Hbv Hl Hx) as [Hk Hl2]. replace (S (Z.to_nat limit - 1)) with (Z.to_nat limit) in Hl2 by lia.
    destruct (IH s1 (Some token) (KExcluded key) (drop (Z.to_nat limit) l) Hs1) as (s2 & pages & E2 & Hs2 & Hc & Hall); [by exists key|done|rewrite length_drop; lia|].
    exists s2, (take (Z.to_nat limit) l :: pages). rewrite (cst_bind_ok _ _ s1 _ s2 E2). split_and!; [done|done| |constructor; [lia|done]].
    cbn [concat]. by rewrite Hc, take_drop.
  - subst next. exists s1, [take (Z.to_nat limit) l]. split_and!; [done|done| |repeat constructor; lia]. cbn [concat]. rewrite app_nil_r. apply take_ge. lia.
Qed.

(** C25: Pagination covers the collection.  Following the tokens of [page_after] from the
    first page ends, every page has at most [limit] records, and the pages put
    together are exactly the live records of the collection in key order: no record
    is lost or repeated at a page boundary. *)
Theorem pages_cover (s : TxState) (m : gmap bytes Leaf) (limit : Z) :
  ORDER_PRESERVING = true → scannable s m → (∀ k, epoch_millis (clock k) = Ok (now k)) → (size m < n)%nat →
  0 < limit → item_size * limit <= isize_max →
  ∃ s' pages p, all_pages p None limit s = (COk pages, s') ∧ scannable s' m ∧
    lists_live m KUnbounded KUnbounded (concat pages) ∧ Forall (λ page, Z.of_nat (length page) <= limit) pages.
Proof.
  intros Ho Hs Hnow Hn Hlim Hcap. destruct (scannable_inv s m Hs) as (b & ht & es & ps & cs & Hb & Hd & Hw & Hf & Hfull & <- & Hso & Hsz & Hlen & Ht & _).
  destruct (scan_typed es KUnbounded KUnbounded Unbounded Unbounded Ho Ht Hso I I eq_refl eq_refl) as (l & _ & Hl).
  destruct (all_pages_ok (S (length l)) s (leaf_map es) None KUnbounded limit l Ho Hs Hnow Hn Hlim Hcap eq_refl Hl) as (s' & pages & E & Hs' & <- & Hall); [lia|].
  eauto 10.
Qed.

End scan.

(** ** Witnesses: the tree of [Demo] as a collection of plain bytes *)

Lemma demo_owns : tx_owns 9 Demo.state Demo.handle Demo.entries ∅.
Proof.
  destruct Demo.state_holds as (b & ht & es & ps & Hb & Hd & Hw & Hf & Em). exists b, ht, es, ps. split_and!; try done.
  assert (b = demo_bucket) as -> by (vm_compute in Hb; by injection Hb as <-). split.
  - intros r [x Hx]. cbn [Demo.state ts_buckets] in Hx. apply lookup_singleton_Some in Hx as [<- _]. split; [lia|reflexivity].
  - done.
  - done.
Qed.

Lemma demo_ttl : ttl_ok Demo.entries ∅ ∅.
Proof.
  split; [done|done| |right; split; [done|by vm_compute]..]. intros x l. split; [done|]. by intros (k & d & ? & _).
Qed.

Lemma demo_scannable : scannable (KC := BytesCodec) (VC := BytesValueCodec) 9 Demo.handle ∅ Demo.state Demo.entries.
Proof.
  split; [split; [apply bytes_all_typed|]|exact Demo.state_iterable]. exists ∅. split; [exact demo_owns|exact demo_ttl].
Qed.

Lemma collection_scan_exact_witness :
  ∃ it s' l, range_bounds (KC := BytesCodec) 9 Demo.handle (KExcluded [Byte.x61]) (KIncluded [Byte.x6d]) Demo.state = (COk it, s') ∧
    iter_collect (KC := BytesCodec) (VC := BytesValueCodec) 9 9 Demo.handle (λ _, 5000000) 9 it s' = COk l ∧ ([Byte.x6d], [Byte.x07]) ∈ l.
Proof.
  destruct (collection_scan_exact (KC := BytesCodec) (VC := BytesValueCodec) 9 9 Demo.handle (λ _, 5000000) ∅ (λ _, 5)
    Demo.state Demo.entries (KExcluded [Byte.x61]) (KIncluded [Byte.x6d]) eq_refl demo_scannable (λ _, eq_refl) I I ltac:(vm_compute; lia)) as (it & s' & l & E & _ & El & _ & Hin).
  exists it, s', l. split; [exact E|]. split; [exact El|]. apply Hin. split; [exact I|]. split; [vm_compute; reflexivity|].
  split; [vm_compute; reflexivity|]. intros C. vm_compute in C. discriminate C.
Defined.

Lemma pages_cover_witness :
  ∃ s' pages p, all_pages (KC := BytesCodec) (VC := BytesValueCodec) 9 9 Demo.handle (λ _, 5000000) 48 p None 2 Demo.state = (COk pages, s') ∧
    ([Byte.x6d], [Byte.x07]) ∈ concat pages ∧ Forall (λ page, Z.of_nat (length page) <= 2) pages.
Proof.
  destruct (pages_cover (KC := BytesCodec) (VC := BytesValueCodec) 9 9 Demo.handle (λ _, 5000000) 48 ∅ (λ _, 5)
    Demo.state Demo.entries 2 eq_refl demo_scannable (λ _, eq_refl) ltac:(vm_compute; lia) eq_refl ltac:(apply Z.leb_le; vm_compute; reflexivity)) as (s' & pages & p & E & _ & [_ Hin] & Hall).
  exists s', pages, p. split; [exact E|]. split; [|exact Hall]. apply Hin. split; [exact I|]. split; [vm_compute; reflexivity|]. split; exact I.
Defined.

(** ** Scans that are not exact *)

Module Astray.

#[local] Existing Instance BytesCodec.
#[local] Existing Instance BytesValueCodec.

Definition clock (_ : bytes) : SystemTime := 10000000.
Definition a : bytes := [Byte.x61].
Definition mm : bytes := [Byte.x6d; Byte.x6d].

(** The records [a] and [mm]. *)
Definition two_records : cst unit := coll_insert_many 9 Fresh.handle [(a, [Byte.x01]); (mm, [Byte.x02])].

Definition collected (it : CollectionIter) : cst (list (bytes * bytes)) := decodes (iter_collect 9 9 Fresh.handle clock 9 it).

Definition prefix_m : cst (list (bytes * bytes) * list (bytes * bytes) * Z) :=
  _ ← two_records;
  it ← coll_iter 9 Fresh.handle;
  whole ← collected it;
  it ← coll_prefix 9 Fresh.handle [Byte.x6d];
  found ← collected it;
  deleted ← coll_delete_prefix (K := bytes) (V := bytes) 9 9 Fresh.handle clock [Byte.x6d];
  mret (whole, found, deleted).

Definition reverse_below_a : cst (list (bytes * bytes)) :=
  _ ← two_records;
  it ← coll_range_rev (K := bytes) 9 Fresh.handle [] [Byte.x60];
  collected it.

(** A record that expired at 5, at the time 10. *)
Definition exchange_expired : cst (option bytes * CompareOutcome * CompareOutcome * option bytes) :=
  _ ← insert_with_options 9 Fresh.handle a [Byte.x01] (Some 5000000);
  seen ← coll_get 9 Fresh.handle clock a;
  absent ← coll_compare_exchange 9 Fresh.handle a None [Byte.x02];
  swapped ← coll_compare_exchange 9 Fresh.handle a (Some [Byte.x01]) [Byte.x02];
  after ← coll_get 9 Fresh.handle clock a;
  mret (seen, absent, swapped, after).

End Astray.

(** Prefix scans and reverse ranges of a collection go astray.  In a collection with
    the records [a] and [mm], which a full scan gives, a scan of the prefix [m] gives
    nothing and [delete_prefix] deletes nothing: the seek stops at the record before
    the prefix, which does not start with it, and the scan ends there.  A reverse
    range whose records would all be below 0x60 gives the record [a], which is above
    its end: the seek stops at the first record, and only the lower bound is
    tested. *)
Theorem prefix_and_reverse_astray :
  (Astray.prefix_m Fresh.state).1 = COk ([(Astray.a, [Byte.x01]); (Astray.mm, [Byte.x02])], [], 0) ∧
  (Astray.reverse_below_a Fresh.state).1 = COk [(Astray.a, [Byte.x01])].
Proof. split; vm_compute; reflexivity. Qed.

(** [compare_exchange] does not look at deadlines: on a record that [get] does not see
    any more, the expectation that there is none fails, the expectation of the
    expired value succeeds, and the value written is not seen either, since it
    keeps the old deadline. *)
Theorem exchange_ignores_expiry :
  (Astray.exchange_expired Fresh.state).1 =
    COk (None, mkOutcome false (Some [Byte.x01]) (Some [Byte.x01]), mkOutcome true (Some [Byte.x01]) (Some [Byte.x02]), None).
Proof. vm_compute. reflexivity. Qed.

(** ** A damaged leaf *)

Module Damaged.

(** [Demo]'s tree whose last leaf is a page of zeros. *)
Definition bucket : InnerBucket := from_meta (mkBucketMeta 2 0) (mkPages (take 4096 demo_tree_file ++ replicate 1024 Byte.x00) 1024).
Definition state : TxState := mkTxState {[0 := bucket]} (ts_freelist Demo.state) (ts_changes Demo.state).

Definition first_of (make : cst CollectionIter) : cst (option (cres (bytes * bytes))) :=
  it ← make;
  decodes (λ s, COk (iter_next (KC := BytesCodec) (VC := BytesValueCodec) 9 9 Demo.handle Astray.clock it s).1).

(** Whether the first item of the reverse scan is an error or a panic. *)
Definition reverse_first : option (cres (bytes * bytes)) :=
  match (first_of (coll_iter_rev 9 Demo.handle) state).1 with COk item => item | _ => None end.

End Damaged.

(** A reverse scan of a bucket whose last leaf cannot be read: [seek_last] fails after it
    has pushed the frame of the root, [iter_rev] drops the error, and the first call
    of [previous] does not report it again but reads a value from the branch at the
    root, which panics.  [seek_last] by itself reports the error. *)
Theorem reverse_scan_panics :
  (∃ w, Damaged.reverse_first = Some (CPanic w)) ∧ ∃ e, seek_last 9 Damaged.bucket = Err e.
Proof. split; eexists; vm_compute; reflexivity. Qed.
