(* ===== verification/Merge.v ===== *)
(** * Merging databases and buckets: [src/src/api/merge.rs]

    A merge reads one bucket and writes another, of the same transaction or of two.
    The world of a merge is the state of the destination's transaction and, when it
    is another one, that of the source's.  The counters of the report are numbers
    without a width: they count loop iterations. *)

From S2P Require Import Prelude Search Support Layout Meta Freelist Node Page PageNode Inner Spill Buckets Cursor Changes Codecs Handle Store MapApi Typed Nested Ttl Schema Collection Scan.

Inductive MergeConflictPolicy := Overwrite | KeepExisting | PolicyError.

#[global] Instance policy_eq_dec : EqDecision MergeConflictPolicy.
Proof. solve_decision. Defined.

Record MergeOptions := mkOptions { conflict_policy_ : MergeConflictPolicy }.
Definition options_new : MergeOptions := mkOptions Overwrite.
Definition conflict_policy (o : MergeOptions) (policy : MergeConflictPolicy) : MergeOptions := mkOptions policy.
Definition policy (o : MergeOptions) : MergeConflictPolicy := conflict_policy_ o.

Record MergeReport := mkReport {
  keys_inserted : Z;
  keys_updated : Z;
  keys_unchanged : Z;
  entries_skipped : Z;
  buckets_created : Z;
  buckets_merged : Z;
  type_conflicts_resolved : Z
}.
Definition report_default : MergeReport := mkReport 0 0 0 0 0 0 0.

(** [a] more of each counter. *)
Definition report_add (r a : MergeReport) : MergeReport :=
  mkReport (keys_inserted r + keys_inserted a) (keys_updated r + keys_updated a) (keys_unchanged r + keys_unchanged a)
    (entries_skipped r + entries_skipped a) (buckets_created r + buckets_created a) (buckets_merged r + buckets_merged a)
    (type_conflicts_resolved r + type_conflicts_resolved a).
Definition inserted : MergeReport := mkReport 1 0 0 0 0 0 0.
Definition updated : MergeReport := mkReport 0 1 0 0 0 0 0.
Definition unchanged : MergeReport := mkReport 0 0 1 0 0 0 0.
Definition skipped : MergeReport := mkReport 0 0 0 1 0 0 0.
Definition created : MergeReport := mkReport 0 0 0 0 1 0 0.
Definition merged : MergeReport := mkReport 0 0 0 0 0 1 0.
Definition retyped : MergeReport := mkReport 0 0 0 0 0 0 1.

Definition merge_conflict (path : list bytes) (key : bytes) : Error := MergeConflict (path ++ [key]).

(** ** The two transactions *)

Record World := mkWorld { w_dst : TxState; w_src : option TxState }.

Definition on_dst {A} (f : TxState → res (A * TxState)) (w : World) : res (A * World) :=
  '(a, s) ← f (w_dst w);
  Ok (a, mkWorld s (w_src w)).

Definition on_src {A} (f : TxState → res (A * TxState)) (w : World) : res (A * World) :=
  match w_src w with
  | Some s => '(a, s) ← f s; Ok (a, mkWorld (w_dst w) (Some s))
  | None => on_dst f w
  end.

Definition src (w : World) : TxState := default (w_dst w) (w_src w).

Definition set_dst (w : World) (s : TxState) : World := mkWorld s (w_src w).

Section merge.
Context (fuel n : nat) (options : MergeOptions).

(** The deadline of a key in the source. *)
Definition source_expiration (expirations : option Bucket) (key : bytes) (s : TxState) : res (option Z) :=
  match expirations with
  | Some expirations =>
      e ← bucket_get_kv fuel expirations key s;
      match e with
      | Some (_, value) => deadline ← decode_expiration value; Ok (Some deadline)
      | None => Ok None
      end
  | None => Ok None
  end.

(** By the policy: the entry is taken over by [apply], kept, or refused. *)
Definition resolve (path : list bytes) (key : bytes) (report : MergeReport) (s : TxState)
    (apply : res (MergeReport * TxState)) : res (bool * MergeReport * TxState) :=
  match policy options with
  | Overwrite => '(a, s) ← apply; Ok (true, report_add report a, s)
  | KeepExisting => Ok (false, report_add report skipped, s)
  | PolicyError => Err (merge_conflict path key)
  end.

(** The value part of [merge_key_value]: whether the deadline follows. *)
Definition merge_value (destination : Bucket) (deadline : option Z) (key value : bytes) (path : list bytes) (report : MergeReport) (s : TxState)
    : res (bool * MergeReport * TxState) :=
  existing ← bucket_get fuel destination key s;
  match existing with
  | None =>
      '(_, s) ← bucket_put fuel destination key value s;
      Ok (true, report_add report inserted, s)
  | Some (DKeyValue _ existing) =>
      if bool_decide (existing = value) then
        '(e, s) ← expiration (H0 := tx_store fuel) (H1 := tx_nested fuel) destination key s;
        if bool_decide (e = deadline) then Ok (false, report_add report unchanged, s)
        else resolve path key report s (Ok (updated, s))
      else
        resolve path key report s ('(_, s) ← bucket_put fuel destination key value s; Ok (updated, s))
  | Some (DBucket _) =>
      resolve path key report s
        (s ← bucket_delete_bucket fuel destination key s;
         '(_, s) ← bucket_put fuel destination key value s;
         Ok (report_add inserted retyped, s))
  end.

Definition apply_ttl (destination : Bucket) (deadline : option Z) (manage_missing_ttl : bool) (key : bytes) (s : TxState) : res TxState :=
  match deadline with
  | Some expires_at_millis => set_expiration_millis (H0 := tx_store fuel) (H1 := tx_nested fuel) destination key expires_at_millis s
  | None =>
      if manage_missing_ttl then
        '(_, s) ← clear_ttl (H0 := tx_store fuel) (H1 := tx_nested fuel) destination key s;
        Ok s
      else Ok s
  end.

Definition merge_key_value (destination : Bucket) (source_expirations : option Bucket) (manage_missing_ttl : bool) (key value : bytes)
    (path : list bytes) (report : MergeReport) (w : World) : res (MergeReport * World) :=
  deadline ← source_expiration source_expirations key (src w);
  '(follows, report, s) ← merge_value destination deadline key value path report (w_dst w);
  s ← (if follows : bool then apply_ttl destination deadline manage_missing_ttl key s else Ok s);
  Ok (report, set_dst w s).

(** The bucket a nested bucket of the source is merged into, if it is. *)
Definition nested_destination (destination : Bucket) (name : bytes) (path : list bytes) (report : MergeReport) (s : TxState)
    : res (option Bucket * MergeReport * TxState) :=
  existing ← bucket_get fuel destination name s;
  match existing with
  | None =>
      '(b, s) ← bucket_create_bucket fuel destination name s;
      Ok (Some b, report_add report created, s)
  | Some (DBucket _) =>
      '(b, s) ← bucket_get_bucket fuel destination name s;
      Ok (Some b, report_add report merged, s)
  | Some (DKeyValue _ _) =>
      match policy options with
      | Overwrite =>
          '(_, _, s) ← bucket_delete fuel destination name s;
          '(b, s) ← bucket_create_bucket fuel destination name s;
          Ok (Some b, report_add (report_add report created) retyped, s)
      | KeepExisting => Ok (None, report_add report skipped, s)
      | PolicyError => Err (merge_conflict path name)
      end
  end.

(** The loop over the cursor of the source; [nested] merges one nested bucket. *)
Fixpoint merge_entries (nested : Bucket → Bucket → list bytes → MergeReport → World → res (MergeReport * World)) (n : nat)
    (destination source : Bucket) (source_expirations : option Bucket) (manage_missing_ttl : bool) (c : Cursor) (path : list bytes)
    (report : MergeReport) (w : World) : res (MergeReport * World) :=
  match n with
  | O => Panic NOFUEL
  | S n =>
      b ← bucket_at (ts_buckets (src w)) (bk_inner source);
      '(data, c) ← advance fuel b c;
      match data with
      | None => Ok (report, w)
      | Some (DKeyValue key value) =>
          '(report, w) ← merge_key_value destination source_expirations manage_missing_ttl key value path report w;
          merge_entries nested n destination source source_expirations manage_missing_ttl c path report w
      | Some (DBucket name) =>
          if is_ttl_bucket name then merge_entries nested n destination source source_expirations manage_missing_ttl c path report w
          else
            '(source_bucket, w) ← on_src (bucket_get_bucket fuel source name) w;
            '(into, report, s) ← nested_destination destination name path report (w_dst w);
            let w := set_dst w s in
            '(report, w) ← (match into with
              | Some into => nested into source_bucket (path ++ [name]) report w
              | None => Ok (report, w)
              end);
            merge_entries nested n destination source source_expirations manage_missing_ttl c path report w
      end
  end.

(** [depth] bounds the nesting of the buckets. *)
Fixpoint merge_bucket (depth : nat) (destination source : Bucket) (path : list bytes) (report : MergeReport) (w : World) : res (MergeReport * World) :=
  match depth with
  | O => Panic NOFUEL
  | S depth =>
      '(source_expirations, w) ← on_src (expiration_bucket (H1 := tx_nested fuel) source) w;
      '(manage_missing_ttl, w) ← (match source_expirations with
        | Some _ => Ok (true, w)
        | None =>
            '(e, w) ← on_dst (expiration_bucket (H1 := tx_nested fuel) destination) w;
            Ok (match e with Some _ => true | None => false end, w)
        end);
      c ← bucket_cursor source (src w);
      '(report, w) ← merge_entries (merge_bucket depth) n destination source source_expirations manage_missing_ttl c path report w;
      next ← bucket_next_int source (src w);
      s ← bucket_merge_next_int destination next (w_dst w);
      Ok (report, set_dst w s)
  end.

(** [Bucket::merge_from]; two handles are the same bucket when they share an object of
    one transaction. *)
Definition bucket_merge_from (depth : nat) (self source : Bucket) (w : World) : res (MergeReport * World) :=
  _ ← fail_if (negb (bk_writable self)) ReadOnlyTx;
  match w_src w with
  | None =>
      if bk_inner self =? bk_inner source then Ok (report_default, w)
      else merge_bucket depth self source [] report_default w
  | Some _ => merge_bucket depth self source [] report_default w
  end.

(** The root bucket a bucket of the source is merged into. *)
Definition root_destination (name : bytes) (report : MergeReport) (s : TxState) : res (Bucket * MergeReport * TxState) :=
  match tx_get_bucket fuel true name s with
  | Ok (bucket, s) => Ok (bucket, report_add report merged, s)
  | Err BucketMissing =>
      '(bucket, s) ← tx_create_bucket fuel true name s;
      Ok (bucket, report_add report created, s)
  | Err error => Err error
  | Panic w => Panic w
  end.

(** The loop over the root buckets of the source, which is another transaction. *)
Fixpoint merge_roots (depth m : nat) (c : Cursor) (report : MergeReport) (dst src_ : TxState) : res (MergeReport * TxState) :=
  match m with
  | O => Panic NOFUEL
  | S m =>
      '(entry, (c, st)) ← buckets_next fuel ROOT n (c, ts_buckets src_);
      let src_ := set_buckets src_ st in
      match entry with
      | None => Ok (report, dst)
      | Some (name, r) =>
          if bool_decide (name = JOURNAL_BUCKET) then merge_roots depth m c report dst src_
          else
            '(bucket, report, dst) ← root_destination name report dst;
            '(report, w) ← merge_bucket depth bucket (mkBucket r false (path_root name)) [name] report (mkWorld dst (Some src_));
            merge_roots depth m c report (w_dst w) (src w)
      end
  end.

Definition merge_transactions (depth : nat) (destination source : TxState) : res (MergeReport * TxState) :=
  merge_roots depth n cursor_new report_default destination source.

End merge.

(** ** What a merge of values does *)

Section flat.
Context (fuel n : nat) (options : MergeOptions) (destination source : Bucket) (exs : gmap bytes Z).

(** The verdict on one pair of the source: taken over or left, and how it is counted;
    [None] is a conflict. *)
Definition by_policy (r : MergeReport) : option (bool * MergeReport) :=
  match policy options with
  | Overwrite => Some (true, r)
  | KeepExisting => Some (false, skipped)
  | PolicyError => None
  end.

Definition verdict (m : gmap bytes Leaf) (ex : gmap bytes Z) (k v : bytes) : option (bool * MergeReport) :=
  match m !! k with
  | None => Some (true, inserted)
  | Some (LKv _ v') =>
      if bool_decide (v' = v) && bool_decide (ex !! k = exs !! k) then Some (false, unchanged) else by_policy updated
  | Some (LBucket _ _) => by_policy (report_add inserted retyped)
  end.

(** The deadline that follows a value. *)
Definition with_deadline (ex : gmap bytes Z) (k : bytes) : gmap bytes Z :=
  match exs !! k with Some d => <[k := d]> ex | None => delete k ex end.

(** The destination has the user's entries [m] with the deadlines [ex]. *)
Definition dst_holds (s : TxState) (m : gmap bytes Leaf) (ex : gmap bytes Z) : Prop :=
  ∃ m' cs, tx_owns fuel s destination m' cs ∧ ttl_ok m' cs ex ∧ same_user m m'.

Hypothesis Hw : bk_writable destination = true.
Hypothesis Hexs : ∀ k d, exs !! k = Some d → in_u64 d.

Lemma apply_ttl_ok s m ex manage k :
  dst_holds s m ex → (manage = false → ex !! k = None) →
  ∃ s', apply_ttl fuel destination (exs !! k) manage k s = Ok s' ∧ dst_holds s' m (with_deadline ex k).
Proof.
  intros (m' & cs & Ho & Hok & Hs) Hman. unfold apply_ttl, with_deadline. destruct (exs !! k) as [d|] eqn:Ed.
  - destruct (set_expiration_ok (H0 := tx_store fuel) (H1 := tx_laws fuel) (H2 := tx_nested fuel) (H3 := tx_view fuel) (H4 := tx_nested_laws fuel)
      s destination m' cs ex k d Ho Hok Hw (Hexs k d Ed)) as (s2 & m2 & cs2 & E & Ho2 & Hok2 & Hs2).
    exists s2. split; [done|]. exists m2, cs2. split_and!; try done. by eapply same_user_trans.
  - destruct manage.
    + destruct (clear_ttl_ok (H0 := tx_store fuel) (H1 := tx_laws fuel) (H2 := tx_nested fuel) (H3 := tx_view fuel) (H4 := tx_nested_laws fuel)
        s destination m' cs ex k Ho Hok Hw) as (s2 & cs2 & E & Ho2 & Hok2). rewrite E. cbn [mbind res_bind]. exists s2. split; [done|]. by exists m', cs2.
    + exists s. split; [done|]. rewrite delete_id by auto. by exists m', cs.
Qed.

(** The value part, when no bucket has to make way. *)
Lemma merge_value_ok s m ex k v path report :
  dst_holds s m ex → is_ttl_bucket k = false → (policy options = Overwrite → is_bucket_at m k = false) →
  match verdict m ex k v with
  | Some (true, r) => ∃ s', merge_value fuel options destination (exs !! k) k v path report s = Ok (true, report_add report r, s') ∧
      dst_holds s' (<[k := LKv k v]> m) ex
  | Some (false, r) => ∃ s', merge_value fuel options destination (exs !! k) k v path report s = Ok (false, report_add report r, s') ∧ dst_holds s' m ex
  | None => merge_value fuel options destination (exs !! k) k v path report s = Err (merge_conflict path k)
  end.
Proof.
  intros (m' & cs & Ho & Hok & Hs) Hr Hb. pose proof (tx_owns_holds fuel s destination m' cs Ho) as Hh.
  assert (is_bucket_at m' k = false → ∃ o s', bucket_put fuel destination k v s = Ok (o, s') ∧ dst_holds s' (<[k := LKv k v]> m) ex) as Hput.
  { intros Hnb. destruct (own_put_ok (H0 := tx_store fuel) (H1 := tx_laws fuel) (H2 := tx_nested fuel) (H3 := tx_view fuel) (H4 := tx_nested_laws fuel)
      s destination m' cs k v Ho Hw Hnb) as (s' & E & Ho'). eexists _, s'. split; [exact E|]. exists (<[k := LKv k v]> m'), cs. split_and!; [done|by apply ttl_ok_insert|].
    intros k' Hk'. rewrite !lookup_insert. case_decide; [done|by apply Hs]. }
  unfold verdict, merge_value. rewrite (tx_get_law fuel s destination m' k Hh). cbn [mbind res_bind]. rewrite <-(Hs k Hr).
  destruct (m' !! k) as [[nm mt|k' v']|] eqn:El; cbn [fmap option_fmap option_map data_of_leaf].
  - unfold by_policy, resolve. destruct (policy options) eqn:Ep; [|by exists s; split; [done|exists m', cs]|done].
    unfold is_bucket_at in Hb. rewrite <-(Hs k Hr), El in Hb. by specialize (Hb eq_refl).
  - pose proof (tx_keyed_law fuel s destination m' k _ Hh El) as E. cbn in E. subst k'.
    assert (is_bucket_at m' k = false) as Hnb by (unfold is_bucket_at; by rewrite El).
    case_bool_decide as Ev; cbn [andb]; [subst v'|].
    + destruct (expiration_ok (H0 := tx_store fuel) (H1 := tx_laws fuel) (H2 := tx_nested fuel) (H3 := tx_view fuel) (H4 := tx_nested_laws fuel)
        s destination m' cs ex k Ho (ttl_expirations _ _ _ Hok) (ttl_lookup _ _ _ Hok) (ttl_u64 _ _ _ Hok)) as (s1 & -> & Ho1 & _). cbn [mbind res_bind].
      assert (dst_holds s1 m ex) as Hd1 by (by exists m', cs). case_bool_decide; [by exists s1|].
      unfold by_policy, resolve. destruct (policy options); [|by exists s1|done]. cbn [mbind res_bind]. exists s1. split; [done|].
      rewrite insert_id by (rewrite <-(Hs k Hr); done). done.
    + unfold by_policy, resolve. destruct (policy options); [|by exists s; split; [done|exists m', cs]|done].
      destruct (Hput Hnb) as (o & s' & -> & Hd). cbn [mbind res_bind]. by exists s'.
  - destruct Hput as (o & s' & -> & Hd); [unfold is_bucket_at; by rewrite El|]. cbn [mbind res_bind]. by exists s'.
Qed.

Lemma merge_key_value_ok d sx se m ex manage k v path report :
  dst_holds d m ex → is_ttl_bucket k = false → (policy options = Overwrite → is_bucket_at m k = false) →
  (manage = false → ex = ∅) → source_expiration fuel se k sx = Ok (exs !! k) →
  match verdict m ex k v with
  | Some (taken, r) => ∃ d', merge_key_value fuel options destination se manage k v path report (mkWorld d (Some sx)) = Ok (report_add report r, mkWorld d' (Some sx)) ∧
      if taken : bool then dst_holds d' (<[k := LKv k v]> m) (with_deadline ex k) else dst_holds d' m ex
  | None => merge_key_value fuel options destination se manage k v path report (mkWorld d (Some sx)) = Err (merge_conflict path k)
  end.
Proof.
  intros Hd Hr Hb Hman Hse. unfold merge_key_value. cbn [src w_src w_dst default from_option id]. rewrite Hse. cbn [mbind res_bind].
  pose proof (merge_value_ok d m ex k v path report Hd Hr Hb) as Hv. destruct (verdict m ex k v) as [[[] r]|].
  - destruct Hv as (s1 & -> & Hd1). cbn [mbind res_bind].
    destruct (apply_ttl_ok s1 _ ex manage k Hd1) as (s2 & -> & Hd2); [intros Hm; by rewrite (Hman Hm)|]. cbn [mbind res_bind]. eauto.
  - destruct Hv as (s1 & -> & Hd1). cbn [mbind res_bind]. eauto.
  - by rewrite Hv.
Qed.

(** Over all the entries of the source. *)
Fixpoint first_conflict (m : gmap bytes Leaf) (ex : gmap bytes Z) (rest : list Leaf) : option bytes :=
  match rest with
  | [] => None
  | LKv k v :: rest => match verdict m ex k v with None => Some k | Some _ => first_conflict m ex rest end
  | LBucket _ _ :: rest => first_conflict m ex rest
  end.

Fixpoint tally (m : gmap bytes Leaf) (ex : gmap bytes Z) (rest : list Leaf) : MergeReport :=
  match rest with
  | [] => report_default
  | LKv k v :: rest => report_add (match verdict m ex k v with Some (_, r) => r | None => report_default end) (tally m ex rest)
  | LBucket _ _ :: rest => tally m ex rest
  end.

Definition merged_at (m : gmap bytes Leaf) (ex : gmap bytes Z) (o : option Leaf) (k : bytes) : option Leaf * option Z :=
  match o with
  | Some (LKv _ v) => match verdict m ex k v with
      | Some (true, _) => (Some (LKv k v), exs !! k)
      | _ => (m !! k, ex !! k)
      end
  | _ => (m !! k, ex !! k)
  end.

(** Everything depends on the entry at the key only. *)
Lemma verdict_ext m ex m1 ex1 k v : m1 !! k = m !! k → ex1 !! k = ex !! k → verdict m1 ex1 k v = verdict m ex k v.
Proof. intros E1 E2. unfold verdict. by rewrite E1, E2. Qed.

Lemma rest_ext m ex m1 ex1 rest :
  (∀ k v, LKv k v ∈ rest → m1 !! k = m !! k ∧ ex1 !! k = ex !! k) → first_conflict m1 ex1 rest = first_conflict m ex rest ∧ tally m1 ex1 rest = tally m ex rest.
Proof.
  induction rest as [|[nm mt|k v] rest IH]; intros Hk; [done|..]; cbn [first_conflict tally].
  - apply IH. intros. eapply Hk. by right.
  - destruct (Hk k v ltac:(left)) as [E1 E2]. rewrite (verdict_ext m ex m1 ex1 k v E1 E2).
    destruct IH as [-> ->]; [intros; eapply Hk; by right|]. done.
Qed.

Lemma merged_ext m ex m1 ex1 o k : m1 !! k = m !! k → ex1 !! k = ex !! k → merged_at m1 ex1 o k = merged_at m ex o k.
Proof. intros E1 E2. unfold merged_at. destruct o as [[|]|]; rewrite ?(verdict_ext m ex m1 ex1 k) by done; by rewrite E1, E2. Qed.

Lemma report_add_assoc r a b : report_add (report_add r a) b = report_add r (report_add a b).
Proof. destruct r, a, b. unfold report_add. cbn. f_equal; lia. Qed.

Lemma with_deadline_other ex k k' : k' ≠ k → with_deadline ex k !! k' = ex !! k'.
Proof. intros. unfold with_deadline. destruct (exs !! k); [by apply lookup_insert_ne|by apply lookup_delete_ne]. Qed.

Lemma with_deadline_here ex k : with_deadline ex k !! k = exs !! k.
Proof. unfold with_deadline. destruct (exs !! k); [by apply lookup_insert_eq|by apply lookup_delete_eq]. Qed.

(** A source without nested buckets, and no bucket of the destination to overwrite. *)
Definition mergeable (m : gmap bytes Leaf) (rest : list Leaf) : Prop :=
  ∀ l, l ∈ rest → match l with
    | LBucket name _ => is_ttl_bucket name = true
    | LKv k _ => is_ttl_bucket k = false ∧ (policy options = Overwrite → is_bucket_at m k = false)
    end.

Lemma merge_entries_ok nested N d sx se m ex manage c path report rest :
  cursor_at fuel source sx c rest → keys_sorted leaf_key rest → (length rest < N)%nat → dst_holds d m ex → mergeable m rest →
  (manage = false → ex = ∅ ∧ exs = ∅) → (∀ k, source_expiration fuel se k sx = Ok (exs !! k)) →
  let result := merge_entries fuel options nested N destination source se manage c path report (mkWorld d (Some sx)) in
  match first_conflict m ex rest with
  | Some k => result = Err (merge_conflict path k)
  | None => ∃ d' m' ex', result = Ok (report_add report (tally m ex rest), mkWorld d' (Some sx)) ∧ dst_holds d' m' ex' ∧
      ∀ k, (m' !! k, ex' !! k) = merged_at m ex (assoc leaf_key rest k) k
  end.
Proof.
  cbv zeta. revert d m ex c report rest. induction N as [|N IH]; intros d m ex c report rest Hc Hso HN Hd Hmg Hman Hse; [lia|]. cbn [merge_entries].
  destruct (cursor_at_advance fuel source sx c rest Hc) as (b & Hb & Ha). cbn [src w_src default from_option id]. rewrite Hb. cbn [mbind res_bind].
  destruct rest as [|y rest].
  { destruct Ha as (c' & -> & _). cbn [first_conflict tally mbind res_bind]. exists d, m, ex. split_and!; [|done|done]. f_equal. f_equal.
    destruct report. unfold report_add. cbn. f_equal; lia. }
  destruct Ha as (c' & -> & Hc'). cbn [mbind res_bind]. apply keys_sorted_cons in Hso as [Hlt Hso]. cbn in HN.
  assert (assoc leaf_key rest (leaf_key y) = None) as Hnone.
  { apply assoc_None. intros e He E. apply (lex_lt_irrefl (leaf_key y)). rewrite <-E at 2. auto. }
  pose proof (Hmg y ltac:(left)) as Hy. destruct y as [name meta|k v]; cbn [data_of_leaf leaf_key first_conflict tally] in *.
  - rewrite Hy. assert (mergeable m rest) as Hmg' by (intros l Hl; apply Hmg; by right).
    pose proof (IH d m ex c' report rest Hc' Hso ltac:(lia) Hd Hmg' Hman Hse) as Hrec. destruct (first_conflict m ex rest); [done|].
    destruct Hrec as (d' & m' & ex' & E & Hd' & Hall). exists d', m', ex'. split_and!; [done|done|]. intros k. rewrite Hall. cbn [assoc leaf_key].
    case_decide as Ek; [|done]. subst k. by rewrite Hnone.
  - destruct Hy as [Hr Hnb]. pose proof (merge_key_value_ok d sx se m ex manage k v path report Hd Hr Hnb (λ H, proj1 (Hman H)) (Hse k)) as Hk.
    destruct (verdict m ex k v) as [[taken r]|] eqn:Ev; [|by rewrite Hk].
    destruct Hk as (d1 & -> & Hd1). cbn [mbind res_bind].
    set (m1 := if taken then <[k := LKv k v]> m else m). set (ex1 := if taken then with_deadline ex k else ex).
    assert (dst_holds d1 m1 ex1) as Hd1' by (unfold m1, ex1; by destruct taken). clear Hd1.
    assert (∀ k', k' ≠ k → m1 !! k' = m !! k' ∧ ex1 !! k' = ex !! k') as Hother.
    { intros k' Hne. unfold m1, ex1. destruct taken; [|done]. by rewrite lookup_insert_ne, with_deadline_other. }
    assert (∀ l, l ∈ rest → leaf_key l ≠ k) as Hne by (intros l Hl E; apply (lex_lt_irrefl k); rewrite <-E at 2; auto).
    destruct (rest_ext m ex m1 ex1 rest) as [Efc Et]; [intros k' v' Hin; apply Hother; by apply (Hne (LKv k' v'))|].
    assert (mergeable m1 rest) as Hmg'.
    { intros l Hl. specialize (Hmg l ltac:(by right)). destruct l as [|k' v']; [done|]. destruct Hmg as [? Hmg]. split; [done|]. intros Hp. specialize (Hmg Hp).
      unfold is_bucket_at in *. by rewrite (proj1 (Hother k' (Hne (LKv k' v') Hl))). }
    assert (manage = false → ex1 = ∅ ∧ exs = ∅) as Hman'.
    { intros Hm. destruct (Hman Hm) as [-> Hx]. split; [|done]. unfold ex1, with_deadline. rewrite Hx, lookup_empty. destruct taken; [by rewrite delete_empty|done]. }
    pose proof (IH d1 m1 ex1 c' (report_add report r) rest Hc' Hso ltac:(lia) Hd1' Hmg' Hman' Hse) as Hrec. rewrite Efc, Et in Hrec.
    destruct (first_conflict m ex rest); [done|]. destruct Hrec as (d' & m' & ex' & E & Hd' & Hall). exists d', m', ex'. split_and!; [|done|].
    + rewrite E. by rewrite report_add_assoc.
    + intros k'. rewrite Hall. cbn [assoc leaf_key]. case_decide as Ek.
      * subst k'. rewrite Hnone. cbn [merged_at]. rewrite Ev. unfold m1, ex1. destruct taken; [|done]. by rewrite lookup_insert_eq, with_deadline_here.
      * by apply merged_ext; apply Hother.
Qed.

(** ** Around the loop *)

(** What [merge_key_value] reads of the source's deadlines. *)
Lemma source_expirations_ok sx ms css :
  tx_owns fuel sx source ms css → ttl_ok ms css exs →
  ∃ se sx', expiration_bucket (H1 := tx_nested fuel) source sx = Ok (se, sx') ∧ tx_owns fuel sx' source ms css ∧ (se = None → exs = ∅) ∧
    (∀ k, source_expiration fuel se k sx' = Ok (exs !! k)) ∧
    ∃ b b', ts_buckets sx !! bk_inner source = Some b ∧ ts_buckets sx' !! bk_inner source = Some b' ∧ reshaped b b'.
Proof.
  intros Ho Hok. pose proof Hok as [Hu He Hd Hl Hi]. pose proof Ho as (b & ht & es & ps & Hb & _ & _ & _ & _ & Hch & _). unfold expiration_bucket.
  destruct Hl as [[mt Hn]|[Hn Hm]]; rewrite Hn in He; cbn [default from_option id] in He.
  - destruct (open_ok (H0 := tx_store fuel) (H1 := tx_laws fuel) (H2 := tx_nested fuel) (H3 := tx_view fuel) (H4 := tx_nested_laws fuel)
      sx source ms css _ mt Ho Hn) as (c & s' & E & Ho' & Hop & _). exists (Some c), s'. rewrite E. split_and!; try done.
    + intros k. unfold source_expiration.
      pose proof (child_get (H0 := tx_store fuel) (H1 := tx_laws fuel) (H2 := tx_nested fuel) (H3 := tx_view fuel) (H4 := tx_nested_laws fuel)
        s' source ms css _ c mt Ho' Hop Hn k) as Hg. cbn [s_get_kv tx_store] in Hg. rewrite Hg, He. cbn [mbind res_bind]. destruct (exs !! k) as [d|] eqn:Ek; [|done].
      cbn [fmap option_fmap option_map mbind option_bind kv_of_leaf]. by rewrite decode_expiration_ok by eauto.
    + cbn [s_get_bucket tx_nested] in E. unfold bucket_get_bucket in E. apply res_bind_Ok in E as (b1 & _ & E).
      apply res_bind_Ok in E as ([r st] & E1 & E). injection E as _ <-. destruct (get_bucket_shape _ _ _ _ b _ _ E1 Hb (ch_refs _ _ _ _ Hch)) as (pp & bk & Hb').
      exists b, (with_buckets (with_page_parents b pp) bk). split_and!; [done|exact Hb'|by exists pp, bk].
  - rewrite (open_missing (H0 := tx_store fuel) (H1 := tx_laws fuel) (H2 := tx_nested fuel) (H3 := tx_view fuel) (H4 := tx_nested_laws fuel) sx source ms css _ Ho Hm).
    assert (exs = ∅) as Hempty by (apply map_empty; intros k; specialize (He k); rewrite lookup_empty in He; by destruct (exs !! k)).
    exists None, sx. split_and!; try done; [by intros k; rewrite Hempty|].
    exists b, b. split_and!; try done. exists (ib_page_parents b), (ib_buckets b). by destruct b.
Qed.

Lemma dst_expirations_ok d m ex :
  dst_holds d m ex → ∃ e d', expiration_bucket (H1 := tx_nested fuel) destination d = Ok (e, d') ∧ dst_holds d' m ex ∧ (e = None → ex = ∅).
Proof.
  intros (m' & cs & Ho & [Hu He Hd Hl Hi] & Hs). unfold expiration_bucket. destruct (id Hl) as [[mt Hn]|[Hn Hm]].
  - destruct (open_ok (H0 := tx_store fuel) (H1 := tx_laws fuel) (H2 := tx_nested fuel) (H3 := tx_view fuel) (H4 := tx_nested_laws fuel)
      d destination m' cs _ mt Ho Hn) as (c & s' & -> & Ho' & _). exists (Some c), s'. split_and!; [done|by exists m', cs|done].
  - rewrite (open_missing (H0 := tx_store fuel) (H1 := tx_laws fuel) (H2 := tx_nested fuel) (H3 := tx_view fuel) (H4 := tx_nested_laws fuel) d destination m' cs _ Ho Hm).
    exists None, d. split_and!; [done|by exists m', cs|]. intros _. apply map_empty. intros k. specialize (He k). rewrite Hn in He. cbn in He. rewrite lookup_empty in He.
    by destruct (ex !! k).
Qed.

Lemma merge_next_int_ok d m ex next :
  dst_holds d m ex → ∃ d', bucket_merge_next_int destination next d = Ok d' ∧ dst_holds d' m ex ∧
    ∃ b', ts_buckets d' !! bk_inner destination = Some b' ∧ next <= next_int (ib_meta b').
Proof.
  intros (m' & cs & Ho & Hok & Hs). pose proof Ho as (b & ht & es & ps & Hb & Hd & Hw' & Hf & <- & Hch & Hcs). unfold bucket_merge_next_int, bucket_at. rewrite Hb.
  cbn [unwrap mbind res_bind]. eexists. split; [done|]. split.
  - exists (leaf_map es), cs. split_and!; [|done|done].
    refine (proj1 (owns_self fuel d destination b ht es ps cs (merge_next_int b next) ht es ps [] [] OpPut Hb Hw' Hf Hch Hcs _ _ _ _ Hf _)).
    + unfold merge_next_int. by destruct (_ <? _).
    + unfold merge_next_int. by destruct (_ <? _).
    + unfold merge_next_int. by destruct (_ <? _).
    + apply (same_tree_wf b); [|done]. unfold merge_next_int. by destruct (_ <? _).
    + intros k. by left.
  - exists (merge_next_int b next). split; [apply lookup_insert_eq|]. unfold merge_next_int. destruct (Z.ltb_spec (next_int (ib_meta b)) next); cbn; lia.
Qed.

(** The first pair of the source, in key order, that the policy refuses. *)
Lemma first_conflict_spec m ex es : keys_sorted leaf_key es →
  match first_conflict m ex es with
  | Some k => ∃ v, LKv k v ∈ es ∧ verdict m ex k v = None ∧ ∀ k' v', LKv k' v' ∈ es → verdict m ex k' v' = None → lex_le k k'
  | None => ∀ k v, LKv k v ∈ es → verdict m ex k v ≠ None
  end.
Proof.
  induction es as [|y es IH]; [by intros _ k v ?%elem_of_nil|]. intros [Hlt Hso]%keys_sorted_cons. specialize (IH Hso).
  destruct y as [nm mt|k v]; cbn [first_conflict leaf_key] in *.
  - destruct (first_conflict m ex es) as [k|].
    + destruct IH as (v & Hin & Hv & Hmin). exists v. split_and!; [by right|done|]. intros k' v' [?|?]%elem_of_cons; [done|eauto].
    + intros k v [?|?]%elem_of_cons; [done|eauto].
  - destruct (verdict m ex k v) eqn:Ev.
    + destruct (first_conflict m ex es) as [k0|].
      * destruct IH as (v0 & Hin & Hv & Hmin). exists v0. split_and!; [by right|done|]. intros k' v' [[= -> ->]|?]%elem_of_cons; [congruence|eauto].
      * intros k' v' [[= -> ->]|?]%elem_of_cons; [congruence|eauto].
    + exists v. split_and!; [left|done|]. intros k' v' [[= -> ->]|Hin]%elem_of_cons _; rewrite lex_le_alt; [by right|left]. by apply (Hlt (LKv k' v')).
Qed.

(** How many source pairs a report accounts for. *)
Definition accounted (r : MergeReport) : Z := keys_inserted r + keys_updated r + keys_unchanged r + entries_skipped r.

Lemma tally_accounted m ex es :
  first_conflict m ex es = None → accounted (tally m ex es) = Z.of_nat (length (filter (λ l, leaf_is_kv l) es)).
Proof.
  induction es as [|[nm mt|k v] es IH]; intros Hf; [done|..]; cbn [first_conflict tally] in *; rewrite filter_cons.
  - by rewrite decide_False by (by intros []); apply IH.
  - rewrite decide_True by done. destruct (verdict m ex k v) as [[tk r]|] eqn:Ev; [|done]. specialize (IH Hf).
    assert (accounted r = 1) as Hr.
    { unfold verdict, by_policy in Ev. destruct (m !! k) as [[|k' v']|]; [| |by injection Ev as _ <-];
        [|destruct (bool_decide _ && bool_decide _); [by injection Ev as _ <-|]]; destruct (policy options); by simplify_eq. }
    unfold accounted in *. destruct r, (tally m ex es). cbn in *. lia.
Qed.

(** The source's entry prevails where the destination has none or may be overwritten. *)
Definition prevails (m : gmap bytes Leaf) (k : bytes) : bool :=
  match m !! k with None => true | Some _ => bool_decide (policy options = Overwrite) end.

(** A pair that is there already with another value, type or deadline, under the
    policy that refuses conflicts. *)
Definition conflict (m : gmap bytes Leaf) (ex : gmap bytes Z) (k v : bytes) : Prop :=
  policy options = PolicyError ∧ is_Some (m !! k) ∧ (m !! k ≫= kv_of_leaf, ex !! k) ≠ (Some (k, v), exs !! k).

Lemma verdict_conflict m ex k v : (∀ l, m !! k = Some l → leaf_key l = k) → verdict m ex k v = None ↔ conflict m ex k v.
Proof.
  intros Hkey. unfold verdict, conflict, by_policy. destruct (m !! k) as [[nm mt|k' v']|] eqn:El; cbn [mbind option_bind kv_of_leaf].
  - destruct (policy options); (split; [|intros (? & ? & ?)]); done.
  - specialize (Hkey _ eq_refl). cbn in Hkey. subst k'. case_bool_decide as E1; [case_bool_decide as E2|]; cbn [andb].
    + split; [done|]. intros (_ & _ & Hne). destruct Hne. congruence.
    + destruct (policy options); (split; [|intros (? & ? & ?)]); try done. intros _. split_and!; [done|by eexists|congruence].
    + destruct (policy options); (split; [|intros (? & ? & ?)]); try done. intros _. split_and!; [done|by eexists|congruence].
  - split; [done|]. by intros (_ & [? ?] & _).
Qed.

Lemma merged_at_prevails m ex o k :
  (∀ l, m !! k = Some l → leaf_key l = k) → (∀ v, o = Some (LKv k v) → ¬ conflict m ex k v) → (∀ k' v, o = Some (LKv k' v) → k' = k) →
  merged_at m ex o k = match o with
    | Some (LKv _ v) => if prevails m k then (Some (LKv k v), exs !! k) else (m !! k, ex !! k)
    | _ => (m !! k, ex !! k)
    end.
Proof.
  intros Hkey Hnc Ho. destruct o as [[nm mt|k' v]|]; [done| |done]. rewrite (Ho k' v eq_refl) in *. specialize (Hnc v eq_refl). cbn [merged_at].
  rewrite <-(verdict_conflict m ex k v Hkey) in Hnc. unfold verdict, by_policy, prevails in *. destruct (m !! k) as [[nm mt|k2 v2]|] eqn:El; [| |done].
  - by destruct (policy options).
  - specialize (Hkey _ eq_refl). cbn in Hkey. subst k2. case_bool_decide as E1; [case_bool_decide as E2|]; cbn [andb] in *.
    + subst v2. rewrite E2. by case_bool_decide.
    + by destruct (policy options).
    + by destruct (policy options).
Qed.

(** What comes before the loop. *)
Lemma merge_start_ok depth d sx m ms ex css path report :
  dst_holds d m ex → tx_owns fuel sx source ms css → ttl_ok ms css exs → tx_iterable fuel sx source ms → (size ms < n)%nat →
  ∃ se sx1 manage d1 b1 bx es,
    merge_bucket fuel n options (S depth) destination source path report (mkWorld d (Some sx)) =
      ('(report, w) ← merge_entries fuel options (merge_bucket fuel n options depth) n destination source se manage cursor_new path report (mkWorld d1 (Some sx1));
       next ← bucket_next_int source (src w);
       s ← bucket_merge_next_int destination next (w_dst w);
       Ok (report, set_dst w s)) ∧
    ts_buckets sx !! bk_inner source = Some bx ∧ (∀ why, live_bucket sx1 source why = Ok b1) ∧ next_int (ib_meta b1) = next_int (ib_meta bx) ∧
    dst_holds d1 m ex ∧ (manage = false → ex = ∅ ∧ exs = ∅) ∧ (∀ k, source_expiration fuel se k sx1 = Ok (exs !! k)) ∧
    cursor_at fuel source sx1 cursor_new es ∧ leaf_map es = ms ∧ keys_sorted leaf_key es ∧ (length es < n)%nat.
Proof.
  intros Hd Ho Hok Hit Hn. cbn [merge_bucket].
  destruct (source_expirations_ok sx ms css Ho Hok) as (se & sx1 & E1 & Ho1 & Hse0 & Hse & bx & bx1 & Hbx & Hbx1 & Hre).
  unfold on_src at 1. cbn [w_src w_dst]. rewrite E1. cbn [mbind res_bind].
  pose proof (reshaped_iterable fuel source sx sx1 bx bx1 ms Hbx Hbx1 Hre Hit) as (b1 & ht & es & ps & Hb1 & Hwf & Hf & Hfull & Em & Hlen).
  rewrite Hbx1 in Hb1. injection Hb1 as <-. pose proof (wf_sorted _ _ _ _ Hwf) as Hso. rewrite <-Em in Hn, Hlen. rewrite (size_leaf_map es Hso) in Hn, Hlen.
  assert (ib_deleted bx1 = false) as Hdel by (destruct Ho1 as (b1 & ? & ? & ? & Hb1 & Hdel & _); congruence).
  assert (∃ manage d1, (match se with
      | Some _ => Ok (true, mkWorld d (Some sx1))
      | None => '(e, w) ← on_dst (expiration_bucket (H1 := tx_nested fuel) destination) (mkWorld d (Some sx1)); Ok (match e with Some _ => true | None => false end, w)
      end) = Ok (manage, mkWorld d1 (Some sx1)) ∧ dst_holds d1 m ex ∧ (manage = false → ex = ∅ ∧ exs = ∅)) as (manage & d1 & -> & Hd1 & Hman).
  { destruct se as [c|]; [by exists true, d|]. destruct (dst_expirations_ok d m ex Hd) as (e & d1 & E & Hd1 & He). unfold on_dst. cbn [w_dst w_src]. rewrite E. cbn [mbind res_bind].
    eexists _, d1. split; [done|]. split; [done|]. destruct e; [done|]. intros _. split; [by apply He|by apply Hse0]. }
  cbn [mbind res_bind src w_src default from_option id]. unfold bucket_cursor. rewrite (live_bucket_ok sx1 source bx1) by done. cbn [mbind res_bind].
  exists se, sx1, manage, d1, bx1, bx, es. split; [done|]. split_and!; try done.
  - intros why. by apply live_bucket_ok.
  - by destruct Hre as (pp & bk & ->).
  - exists bx1, bx1. split_and!; try done. right. exists ht, es, ps. split_and!; try done; [apply Hwf|by apply empty_leaves_root|by constructor].
Qed.

Lemma size_pairs es : keys_sorted leaf_key es → size (filter (λ kl, leaf_is_kv kl.2) (leaf_map es)) = length (filter (λ l, leaf_is_kv l) es).
Proof.
  induction es as [|e es IH]; [done|]. intros [Hlt Hso]%keys_sorted_cons. change (leaf_map (e :: es)) with (<[leaf_key e := e]> (leaf_map es)).
  assert (leaf_map es !! leaf_key e = None) as Hn
    by (rewrite leaf_map_assoc; apply assoc_None; intros x Hx E; apply (lex_lt_irrefl (leaf_key e)); rewrite <-E at 2; auto).
  rewrite map_filter_insert, filter_cons. cbn [snd]. case_decide.
  - rewrite map_size_insert_None, IH by (done || by apply map_lookup_filter_None; left). done.
  - by rewrite delete_id, IH by done.
Qed.


End flat.

(** ** Witnesses *)

Module OneRecord.

Definition key : bytes := [Byte.x6d].
Definition value : bytes := [Byte.x01].
Definition entries : gmap bytes Leaf := {[key := LKv key value]}.

Lemma only k l : entries !! k = Some l → k = key ∧ l = LKv key value.
Proof. unfold entries. by intros [<- <-]%lookup_singleton_Some. Qed.

(** A bucket in memory with one value. *)
Lemma ready : ∃ s, tx_owns 9 s Fresh.handle entries ∅ ∧ ttl_ok entries ∅ ∅ ∧ tx_iterable 9 s Fresh.handle entries.
Proof.
  pose proof (tx_put_law 9 Fresh.state Fresh.handle ∅ key value (tx_owns_holds 9 _ _ _ _ Fresh.state_owns)) as (s & E & _). exists s.
  destruct (tx_put_own 9 Fresh.state Fresh.handle ∅ ∅ key value _ s Fresh.state_owns E) as [Ho _]. split_and!; [done| |].
  - by apply (ttl_ok_insert ∅ ∅ ∅ key (LKv key value) Fresh.state_ttl).
  - destruct (tx_put_shape 9 Fresh.state Fresh.handle key value _ s (new_child_bucket (mkPages [] 1024)) 0 [] [0] E) as (b' & es' & Es & Hw & Em & _);
      [done|done|apply new_child_wf|lia|].
    exists b', O, es', [0]. split_and!; [rewrite Es; apply lookup_insert_eq|done|lia|by right|by rewrite Em|].
    unfold entries. rewrite map_size_singleton. unfold u64_max. lia.
Qed.

Lemma no_deadlines k d : (∅ : gmap bytes Z) !! k = Some d → in_u64 d.
Proof. by rewrite lookup_empty. Qed.

End OneRecord.

Lemma demo_dst : dst_holds 9 Demo.handle Demo.state Demo.entries ∅.
Proof. exists Demo.entries, ∅. split_and!; [exact demo_owns|exact demo_ttl|done]. Qed.


(** ** A bucket merged into a bucket nested in it *)

(** [c] is nested in the bucket of [Fresh]; the whole is merged into [c]. *)
Definition merge_into_child (depth : nat) : res (MergeReport * World) :=
  '(c, s) ← bucket_create_bucket 9 Fresh.handle [Byte.x63] Fresh.state;
  '(_, s) ← bucket_put 9 c [Byte.x61] [Byte.x01] s;
  bucket_merge_from 9 9 options_new depth c Fresh.handle (mkWorld s None).

(** The merge makes a bucket [c] in [c], finds it when it merges [c], makes one in
    that, and so on: no depth of the recursion up to 24 is enough for two entries. *)
Theorem merge_into_child_runs_on : ∀ depth, (depth <= 24)%nat → merge_into_child depth = Panic NOFUEL.
Proof.
  assert (forallb (λ depth, match merge_into_child depth with Panic w => bool_decide (w = NOFUEL) | _ => false end) (seq 0 25) = true) as H by (vm_compute; reflexivity).
  intros depth Hd. rewrite forallb_forall in H. specialize (H depth ltac:(apply in_seq; lia)). destruct (merge_into_child depth) as [| |w]; [done..|].
  apply bool_decide_eq_true in H. by rewrite H.
Qed.
