(* ===== verification/SpillWrite.v ===== *)
(** * Writing the pieces of a node

    What [Node::split] and [Node::write] do to the pages of the transaction and to
    the bucket's nodes when a node is spilled: [grows] says how the transaction's
    pages change, [spill_pieces_ok] that every piece of a node is on a page of its
    own, at a bounded cost in pages. *)

From S2P Require Import Prelude Search Support Layout Meta Freelist Node Page PageNode Inner Spill Db Commit Tx Persist.

(** ** Pages of a transaction *)

(** Pages that no allocation of the transaction gives out. *)
Definition safe (tf : TxFreelist) (x : PageID) : Prop := x < num_pages (tf_meta tf) ∧ x ∉ free_pages (tf_inner tf).

(** Pages that may be retired. *)
Definition in_use (tf : TxFreelist) (x : PageID) : Prop :=
  2 <= x < num_pages (tf_meta tf) ∧ (x ∉ free_pages (tf_inner tf)) ∧ ∀ t, x ∉ pending_at (tf_inner tf) t.

(** The pages a node came from. *)
Definition node_range (n : Node) (x : PageID) : Prop :=
  n_page_id n ≠ 0 ∧ n_page_id n <= x < n_page_id n + n_num_pages n.

Section grows.
Context (keep : PageID → Prop).

(** [tf'] is [tf] after steps that retired some pages and allocated at most [cost]. *)
Record grows (tf tf' : TxFreelist) (retired : PageID → Prop) (cost : Z) : Prop := {
  gr_steps : rtc (tx_step keep) tf tf';
  gr_wf : tx_freelist_wf tf';
  gr_meta : tf_meta tf' = set_num_pages (tf_meta tf) (num_pages (tf_meta tf'));
  gr_pages : num_pages (tf_meta tf) <= num_pages (tf_meta tf') <= num_pages (tf_meta tf) + cost;
  gr_safe : ∀ x, safe tf x → safe tf' x ∧ tf_pages tf' !! x = tf_pages tf !! x;
  gr_use : ∀ x, in_use tf x → ¬ retired x → in_use tf' x
}.

Lemma grows_refl tf : tx_freelist_wf tf → grows tf tf (λ _, False) 0.
Proof. intros. split; try done; [by destruct (tf_meta tf)|lia]. Qed.

Lemma grows_weaken tf tf' (R R' : PageID → Prop) c c' :
  grows tf tf' R c → (∀ x, R x → R' x) → c <= c' → grows tf tf' R' c'.
Proof. intros [H1 H2 H3 H4 H5 H6] HR Hc. split; try done; [lia|]. intros x Hx Hn. apply H6; auto. Qed.

Lemma grows_trans tf1 tf2 tf3 R1 R2 c1 c2 :
  grows tf1 tf2 R1 c1 → grows tf2 tf3 R2 c2 → grows tf1 tf3 (λ x, R1 x ∨ R2 x) (c1 + c2).
Proof.
  intros [H1 H2 H3 H4 H5 H6] [G1 G2 G3 G4 G5 G6]. split; try done.
  - by etransitivity.
  - rewrite G3, H3 at 1. done.
  - lia.
  - intros x [Hs E]%H5. destruct (G5 x Hs) as [? E']. split; [done|congruence].
  - intros x Hx Hn. apply G6; [apply H6|]; auto.
Qed.

Lemma safe_in_use tf x : in_use tf x → safe tf x.
Proof. intros (? & ? & _). split; [lia|done]. Qed.

Lemma grows_pagesize tf tf' R c : grows tf tf' R c → pagesize (tf_meta tf') = pagesize (tf_meta tf).
Proof. intros Hg. by rewrite (gr_meta _ _ _ _ Hg). Qed.

(** *** Writing one node *)

Lemma tx_allocate_total tf b :
  tx_freelist_wf tf → 40 <= b → b + CHECKSUM_SIZE + pagesize (tf_meta tf) <= isize_max - 7 →
  ∃ p tf', tx_allocate tf b = Ok (p, tf').
Proof.
  intros (Hps & _) Hb Hsz. unfold tx_allocate. unfold assert_that. rewrite (proj2 (Z.leb_le _ _)) by (unfold PAGE_SIZE_OF; lia). cbn [mbind res_bind].
  assert (b + CHECKSUM_SIZE + pagesize (tf_meta tf) <= u64_max) as Hmax by (unfold isize_max, u64_max in *; lia).
  pose proof (pages_for_bounds (pagesize (tf_meta tf)) b Hps ltac:(lia) Hmax) as Hbd.
  set (k := pages_for (pagesize (tf_meta tf)) b) in *. clearbody k.
  assert (u64_wrap (k * pagesize (tf_meta tf)) = k * pagesize (tf_meta tf)) as Ew.
  { unfold u64_wrap, u64_mod. apply Z.mod_small. unfold isize_max, CHECKSUM_SIZE in *. lia. }
  destruct (freelist_allocate (tf_inner tf) k) as [[q|] fl]; cbn zeta; cbn [pagesize set_num_pages]; rewrite Ew;
    unfold fail_if; rewrite (proj2 (Z.ltb_ge _ _)) by (unfold CHECKSUM_SIZE in *; lia); cbn [mbind res_bind]; eauto.
Qed.

(** Room for one more node of this size. *)
Definition room (tf : TxFreelist) (size : Z) : Prop :=
  size + CHECKSUM_SIZE + pagesize (tf_meta tf) <= isize_max - 7 ∧
  num_pages (tf_meta tf) + pages_for (pagesize (tf_meta tf)) size <= u64_max.

(** A block with the header of page [p] and a valid layout, read as a node. *)
Definition block_data (ps : Z) (p : PageID) (B : bytes) : res NodeData :=
  _ ← assert_that (page_id_at B 0 =? p) "page id";
  _ ← assert_that ((0 <=? page_overflow_at B 0) && (len_u64 B =? (page_overflow_at B 0 + 1) * ps)) "page overflow";
  _ ← assert_that ((page_type_at B 0 =? TYPE_BRANCH) || (page_type_at B 0 =? TYPE_LEAF)) "page type";
  _ ← validate_layout B 0 (len_u64 B - CHECKSUM_SIZE);
  data_from_page B 0.

(** A page of the transaction that reads as this data. *)
Definition on_page (tf : TxFreelist) (p : PageID) (d : NodeData) : Prop :=
  ∃ B, tf_pages tf !! p = Some B ∧ block_data (pagesize (tf_meta tf)) p B = Ok d.

Lemma written_on_page n tf tf' p :
  pagesize (tf_meta tf') = pagesize (tf_meta tf) → written n tf tf' p → on_page tf' p (n_data n).
Proof.
  intros Eps (B & k & HB & Hk & Hlen & Hid & Hov & Hty & Hd & Hlay). exists B. split; [done|]. unfold block_data. rewrite Eps, Hid, Hov, Hlen, Hty.
  rewrite Z.eqb_refl, (proj2 (Z.leb_le _ _)) by lia. rewrite Z.sub_add, Z.eqb_refl. cbn [andb assert_that mbind res_bind].
  assert (((if node_leaf n then TYPE_LEAF else TYPE_BRANCH) =? TYPE_BRANCH) || ((if node_leaf n then TYPE_LEAF else TYPE_BRANCH) =? TYPE_LEAF) = true) as -> by (by destruct (node_leaf n)).
  cbn [assert_that mbind res_bind]. rewrite <-Hlen, Hlay. done.
Qed.

Lemma free_page_use n tf x :
  in_use tf x → ¬ node_range n x → in_use (free_page n tf).2 x.
Proof.
  intros (H1 & H2 & H3) Hr. unfold free_page. destruct (Z.eqb_spec (n_page_id n) 0) as [E|E]; [done|]. cbn [snd].
  destruct (tx_free_spec tf (n_page_id n) (n_num_pages n)) as (Em & Eb & Ef & Ep).
  split; [by rewrite Em|]. split; [by rewrite Ef|]. intros t. rewrite Ep. case_decide; [|done].
  rewrite elem_of_app, elem_of_seqZ. intros [?|?]; [by apply (H3 t)|by apply Hr].
Qed.

Lemma node_write_total n tf :
  tx_freelist_wf tf → data_wf (n_data n) → n_deleted n = false →
  (n_page_id n ≠ 0 → retirable tf (n_page_id n) (n_num_pages n) ∧ ∀ x, n_page_id n <= x < n_page_id n + n_num_pages n → ¬ keep x) →
  room tf (node_size n) →
  ∃ p tf', node_write n tf = Ok (set_page (set_spilled n) p (pages_for (pagesize (tf_meta tf)) (node_size n)), tf').
Proof.
  intros Hwf Hdata Hlive Hold [Hsize Hnp].
  assert (node_size n + CHECKSUM_SIZE + pagesize (tf_meta tf) <= isize_max) as Hsz by lia.
  destruct (free_page_ok n tf keep Hwf Hold) as (Hwf0 & Em & _).
  destruct (tx_allocate_total (free_page n tf).2 (node_size n) Hwf0 (node_size_min n) ltac:(by rewrite Em)) as (p & tf2 & Ea).
  destruct (node_allocated n tf keep Hwf Hold Hsz Hnp p tf2 Ea) as (Hbuf & Hlen & Hid & Hov & Hk & Hbnd & H40).
  set (k := pages_for (pagesize (tf_meta tf)) (node_size n)) in *. clearbody k.
  unfold node_write, node_allocate. rewrite Hlive.
  assert (∃ q, free_page (set_spilled n) tf = (set_page (set_spilled n) q (n_num_pages n), (free_page n tf).2)) as [q Efp].
  { unfold free_page. cbn [set_spilled n_page_id n_num_pages]. destruct (n_page_id n =? 0); eexists; [|done]. by destruct n. }
  rewrite Efp. change (node_size (set_page (set_spilled n) q (n_num_pages n))) with (node_size n). rewrite Ea. cbn [mbind res_bind].
  rewrite Hbuf. cbn [unwrap mbind res_bind n_page_id set_page]. rewrite Hid, Hov, Hbuf. cbn [unwrap mbind res_bind].
  destruct (write_node_ok (fresh_page p k (k * pagesize (tf_meta tf))) (set_page (set_spilled n) p (k - 1 + 1))) as (B & HB & _);
    [change (node_size n <= len_u64 (fresh_page p k (k * pagesize (tf_meta tf)))); unfold len_u64, CHECKSUM_SIZE in *; lia
    |unfold len_u64; lia|done|].
  change (set_page (set_page (set_spilled n) q (n_num_pages n)) p (k - 1 + 1)) with (set_page (set_spilled n) p (k - 1 + 1)).
  rewrite HB. cbn [mbind res_bind]. rewrite Z.sub_add. eauto.
Qed.

Lemma node_write_grows n tf :
  tx_freelist_wf tf → data_wf (n_data n) → n_deleted n = false →
  (∀ x, node_range n x → in_use tf x ∧ ¬ keep x) → room tf (node_size n) →
  ∃ p tf', let k := pages_for (pagesize (tf_meta tf)) (node_size n) in
    node_write n tf = Ok (set_page (set_spilled n) p k, tf') ∧
    grows tf tf' (node_range n) k ∧ on_page tf' p (n_data n) ∧ 1 <= k ∧
    ∀ x, p <= x < p + k → ¬ safe tf x ∧ in_use tf' x.
Proof.
  intros Hwf Hdata Hlive Hold Hroom. pose proof Hroom as [Hsize Hnp].
  assert (n_page_id n ≠ 0 → retirable tf (n_page_id n) (n_num_pages n) ∧
    ∀ x, n_page_id n <= x < n_page_id n + n_num_pages n → ¬ keep x) as Hold'.
  { intros E. split; intros x Hx; destruct (Hold x (conj E Hx)) as [Hu Hk]; [exact Hu|exact Hk]. }
  assert (node_size n + CHECKSUM_SIZE + pagesize (tf_meta tf) <= isize_max) as Hsz by lia.
  destruct (node_write_total n tf Hwf Hdata Hlive Hold' Hroom) as (p & tf' & Hw). exists p, tf'. cbv zeta. split; [done|].
  destruct (node_write_shape n tf keep Hwf Hdata Hlive Hold' Hsz Hnp _ _ Hw) as (tf2 & B & Ea & -> & _ & _ & Hwr & HB).
  destruct (node_write_steps n tf keep Hwf Hdata Hlive Hold' Hsz Hnp _ _ Hw) as (Hsteps & Hwf' & _ & _ & _ & Hfresh & _).
  cbn [n_page_id set_page] in *. destruct (free_page_ok n tf keep Hwf Hold') as (Hwf0 & Em & Eb & Ef & _).
  set (k := pages_for (pagesize (tf_meta tf)) (node_size n)) in *.
  assert (node_size n + CHECKSUM_SIZE + pagesize (tf_meta (free_page n tf).2) <= u64_max) as Hb1 by (rewrite Em; unfold isize_max, u64_max in *; lia).
  assert (num_pages (tf_meta (free_page n tf).2) + pages_for (pagesize (tf_meta (free_page n tf).2)) (node_size n) <= u64_max) as Hb2 by (by rewrite Em).
  destruct (tx_allocate_inv (free_page n tf).2 (node_size n) p tf2 Hwf0 Hb1 Hb2 Ea) as (_ & m2 & fl2 & Etf2 & Eps & _ & Hle & Hsub & Epend & Hnew).
  destruct (tx_allocate_ok (free_page n tf).2 (node_size n) p tf2 Hwf0 Hb1 Hb2 Ea) as (_ & _ & _ & Hok).
  pose proof Hwf as (Hps & H2 & _). pose proof (node_size_min n) as H40.
  pose proof (pages_for_pos (pagesize (tf_meta tf)) (node_size n) Hps ltac:(lia) ltac:(unfold isize_max, u64_max in *; lia)) as Hk. fold k in Hk.
  destruct (tx_allocate_meta (free_page n tf).2 (node_size n) p tf2 ltac:(rewrite Em; lia) ltac:(rewrite Em; fold k; lia) Hb2 Ea) as [Emeta Hcost].
  rewrite Em in Hcost, Emeta, Hle, Hnew, Hok. fold k in Hcost, Hnew, Hok. rewrite Ef in Hsub, Hnew, Hok.
  assert (∀ x, p <= x < p + k → ¬ safe tf x) as Hns.
  { intros x Hx [Hs1 Hs2]. destruct (Hnew x Hx) as (_ & _ & [?|?]); [done|lia]. }
  split_and!.
  - split; try done.
    + cbn [tf_meta set_page_buf]. rewrite Etf2 in *. cbn [tf_meta] in *. lia.
    + intros x Hx. assert (x ≠ p) as Hne by (intros ->; by apply (Hns p); [lia|]). destruct Hx as [Hx1 Hx2].
      rewrite Etf2. cbn [tf_pages set_page_buf tf_meta tf_inner]. split; [split; cbn [tf_meta tf_inner set_page_buf]; [lia|by intros ?%Hsub]|].
      rewrite !lookup_insert_ne by done. by rewrite Eb.
    + intros x Hx Hr. destruct (free_page_use n tf x Hx Hr) as (U1 & U2 & U3). rewrite Etf2. rewrite Em in U1. rewrite Ef in U2.
      split; cbn [tf_meta tf_inner set_page_buf]; [lia|]. split; [by intros ?%Hsub|]. intros t. unfold pending_at. rewrite Epend. apply U3.
  - apply (written_on_page n tf); [|done]. cbn [tf_meta set_page_buf]. by rewrite Emeta.
  - done.
  - intros x Hx. split; [by apply Hns|]. destruct (Hok x Hx) as (_ & O2 & O3 & O4 & _). destruct (Hnew x Hx) as (N1 & _ & _).
    split; cbn [tf_meta tf_inner set_page_buf]; [lia|done].
Qed.

(** *** Costs *)

(** At most how many pages a node with this data takes. *)
Definition node_cost (d : NodeData) : Z := data_size d + 1.

Definition fits (ps : Z) (d : NodeData) : Prop := HEADER_SIZE + data_size d + CHECKSUM_SIZE + ps <= isize_max - 7.

Lemma data_size_branches bs : data_size (Branches bs) = zsum (λ b, BRANCH_SIZE + b_key_size b) bs.
Proof.
  cbn [data_size]. rewrite fold_left_zsum. unfold len_u64, zsum. induction bs as [|b bs IH]; [done|]. cbn [length foldr]. lia.
Qed.

Lemma data_size_leaves ls : data_size (Leaves ls) = zsum (λ l, LEAF_SIZE + leaf_size l) ls.
Proof.
  cbn [data_size]. rewrite fold_left_zsum. unfold len_u64, zsum. induction ls as [|b bs IH]; [done|]. cbn [length foldr]. lia.
Qed.

Lemma zsum_pos {A} (f : A → Z) l : (∀ x, 0 <= f x) → 0 <= zsum f l.
Proof. intros Hf. unfold zsum. induction l as [|x l IH]; cbn; [lia|]. specialize (Hf x). lia. Qed.

Lemma zsum_ext {A} (f g : A → Z) l : (∀ x, x ∈ l → f x = g x) → zsum f l = zsum g l.
Proof.
  unfold zsum. induction l as [|x l IH]; intros H; [done|]. cbn. rewrite (H x) by left. rewrite IH; [done|]. intros y Hy. apply H. by right.
Qed.

Lemma zsum_le {A} (f g : A → Z) l : (∀ x, x ∈ l → f x <= g x) → zsum f l <= zsum g l.
Proof.
  unfold zsum. induction l as [|x l IH]; intros H; [done|]. cbn. pose proof (H x (list_elem_of_here _ _)).
  assert (∀ y, y ∈ l → f y <= g y) as H' by (intros y Hy; apply H; by right). specialize (IH H'). lia.
Qed.

Lemma zsum_fmap {A B} (f : B → Z) (g : A → B) l : zsum f (g <$> l) = zsum (λ x, f (g x)) l.
Proof. unfold zsum. induction l as [|x l IH]; [done|]. cbn. by rewrite IH. Qed.

Lemma zsum_concat {A} (f : A → Z) ls : zsum f (concat ls) = zsum (zsum f) ls.
Proof. induction ls as [|l ls IH]; [done|]. cbn [concat]. rewrite zsum_app, IH. done. Qed.

Lemma zsum_Permutation {A} (f : A → Z) l l' : l ≡ₚ l' → zsum f l = zsum f l'.
Proof. unfold zsum. induction 1; cbn; lia. Qed.

Lemma leaf_size_pos l : 0 <= leaf_size l.
Proof. rewrite leaf_size_alt. unfold len_u64. lia. Qed.

Lemma data_size_len d : 24 * Z.of_nat (data_len d) <= data_size d.
Proof.
  destruct d as [bs|ls]; [rewrite data_size_branches|rewrite data_size_leaves]; cbn [data_len]; unfold zsum.
  - induction bs as [|b bs IH]; cbn [length foldr]; [lia|]. unfold b_key_size, len_u64, BRANCH_SIZE, BRANCH_SIZE_OF in *. lia.
  - induction ls as [|l ls IH]; cbn [length foldr]; [lia|]. pose proof (leaf_size_pos l). unfold LEAF_SIZE, LEAF_SIZE_OF in *. lia.
Qed.

Lemma data_size_pos d : 0 <= data_size d.
Proof. pose proof (data_size_len d). lia. Qed.

Lemma pages_for_cost ps n :
  1024 <= ps → fits ps (n_data n) → pages_for ps (node_size n) <= node_cost (n_data n).
Proof.
  unfold fits, node_cost, node_size. intros Hps Hf. pose proof (data_size_pos (n_data n)) as H0. unfold HEADER_SIZE, PAGE_SIZE_OF in *.
  destruct (pages_for_bounds ps (40 + data_size (n_data n)) Hps) as [_ Hub]; [lia|unfold isize_max, u64_max in *; lia|].
  unfold CHECKSUM_SIZE in *. nia.
Qed.

(** *** Writing the pieces of a node *)

Lemma Forall2_impl_in' {A B} (P Q : A → B → Prop) l k :
  Forall2 P l k → (∀ x y, y ∈ k → P x y → Q x y) → Forall2 Q l k.
Proof.
  induction 1 as [|x y l k Hxy _ IH]; intros H; constructor.
  - apply H; [left|done].
  - apply IH. intros x' y' Hy'. apply H. by right.
Qed.

Lemma Forall2_impl_in {A B} (P Q : A → B → Prop) l k :
  Forall2 P l k → (∀ x y, x ∈ l → P x y → Q x y) → Forall2 Q l k.
Proof.
  induction 1 as [|x y l k Hxy _ IH]; intros H; constructor.
  - apply H; [left|done].
  - apply IH. intros x' y' Hx'. apply H. by right.
Qed.

Lemma write_at_ok b tf nid n :
  ib_nodes b !! Z.to_nat nid = Some n → tx_freelist_wf tf → data_wf (n_data n) → n_deleted n = false →
  (∀ x, node_range n x → in_use tf x ∧ ¬ keep x) → fits (pagesize (tf_meta tf)) (n_data n) →
  num_pages (tf_meta tf) + node_cost (n_data n) <= u64_max →
  ∃ p k tf', write_at_node b tf nid = Ok (update_node b nid (set_page (set_spilled n) p k), tf') ∧
    grows tf tf' (node_range n) (node_cost (n_data n)) ∧ on_page tf' p (n_data n) ∧ 1 <= k ∧
    ∀ x, p <= x < p + k → ¬ safe tf x ∧ in_use tf' x.
Proof.
  intros Hn Hwf Hd Hdel Hr Hfit Hnp. pose proof (pages_for_cost (pagesize (tf_meta tf)) n (proj1 Hwf) Hfit) as Hc.
  destruct (node_write_grows n tf Hwf Hd Hdel Hr) as (p & tf' & Hw & Hg & Hon & Hk & Hx).
  { split; [done|lia]. }
  exists p, (pages_for (pagesize (tf_meta tf)) (node_size n)), tf'. unfold write_at_node, node_at. rewrite Hn. cbn [unwrap mbind res_bind].
  rewrite Hw. cbn [mbind res_bind]. split_and!; try done. by eapply grows_weaken.
Qed.

(** A node that was written to this page. *)
Definition stored (ns : list Node) (tf : TxFreelist) (id : NodeID) (q : NodeData * PageID) : Prop :=
  ∃ m, ns !! Z.to_nat id = Some m ∧ n_data m = q.1 ∧ n_page_id m = q.2 ∧ on_page tf q.2 q.1 ∧ in_use tf q.2.

Lemma on_page_grows tf tf' R c p d : grows tf tf' R c → safe tf p → on_page tf p d → on_page tf' p d.
Proof. intros Hg Hs (B & HB & Hd). exists B. destruct (gr_safe _ _ _ _ Hg p Hs) as [_ ->]. by rewrite (grows_pagesize _ _ _ _ Hg). Qed.

Lemma stored_grows ns ns' tf tf' R c id q :
  grows tf tf' R c → ¬ R q.2 → ns' !! Z.to_nat id = ns !! Z.to_nat id → stored ns tf id q → stored ns' tf' id q.
Proof.
  intros Hg HR Hns (m & Hm & Ed & Ep & Hon & Hu). exists m. rewrite Hns. split_and!; try done.
  - eapply on_page_grows; [done|by apply safe_in_use|done].
  - by eapply gr_use.
Qed.

(** Pages that the transaction could give out. *)
Definition fresh_pages (tf : TxFreelist) (qs : list (NodeData * PageID)) : Prop := NoDup (snd <$> qs) ∧ Forall (λ q, ¬ safe tf q.2) qs.

Lemma fresh_pages_cons tf tf' R c d p qs :
  grows tf tf' R c → ¬ safe tf p → safe tf' p → fresh_pages tf' qs → fresh_pages tf ((d, p) :: qs).
Proof.
  intros Hg Hp Hp' [Hnd Hqs]. rewrite Forall_forall in Hqs. split.
  - rewrite fmap_cons. constructor; [|done]. intros (q & E & Hq)%list_elem_of_fmap. cbn in E. subst p. by apply (Hqs q).
  - constructor; [done|]. apply Forall_forall. intros q Hq Hs. by apply (Hqs q Hq), (gr_safe _ _ _ _ Hg).
Qed.

Lemma fresh_pages_grows tf tf' R c qs : grows tf tf' R c → fresh_pages tf' qs → fresh_pages tf qs.
Proof.
  intros Hg [Hnd Hqs]. split; [done|]. eapply Forall_impl; [exact Hqs|]. intros q Hq Hs. by apply Hq, (gr_safe _ _ _ _ Hg).
Qed.

(** A node fresh from a split. *)
Definition unwritten (ps : Z) (ns : list Node) (id : NodeID) (d : NodeData) : Prop :=
  ∃ m, ns !! Z.to_nat id = Some m ∧ n_data m = d ∧ n_page_id m = 0 ∧ n_deleted m = false ∧ data_wf d ∧ fits ps d.

Lemma write_all_nodes_ok b tf ids ds :
  NoDup (Z.to_nat <$> ids) → Forall2 (unwritten (pagesize (tf_meta tf)) (ib_nodes b)) ids ds → tx_freelist_wf tf →
  num_pages (tf_meta tf) + zsum node_cost ds <= u64_max →
  ∃ ns' tf' qs, write_all_nodes b tf ids = Ok (with_nodes b ns', tf') ∧ grows tf tf' (λ _, False) (zsum node_cost ds) ∧
    length ns' = length (ib_nodes b) ∧ (∀ i, i ∉ Z.to_nat <$> ids → ns' !! i = ib_nodes b !! i) ∧
    Forall2 (stored ns' tf') ids qs ∧ fst <$> qs = ds ∧ fresh_pages tf qs.
Proof.
  intros Hnd Hids. revert b tf Hnd Hids. induction ids as [|id ids IH] in ds |- *; intros b tf Hnd Hids Hwf Hnp.
  - inversion Hids; subst. exists (ib_nodes b), tf, []. cbn [write_all_nodes]. split_and!; try done; [by destruct b|by apply grows_refl|split; constructor].
  - inversion Hids as [|? d ? ds' Hm Hids']; subst. destruct Hm as (m & Hm & <- & Hp0 & Hdel & Hdw & Hfit).
    apply NoDup_cons in Hnd as [Hni Hnd]. unfold zsum in Hnp. cbn [foldr] in Hnp. fold (zsum node_cost ds') in Hnp.
    assert (0 <= zsum node_cost ds') as Hz by (apply zsum_pos; intros x; pose proof (data_size_pos x); unfold node_cost; lia).
    destruct (write_at_ok b tf id m) as (p & k & tf1 & Hw & Hg & Hon & Hk & Hx); try done; [by intros x [? _]|lia|].
    assert (ib_nodes (update_node b id (set_page (set_spilled m) p k)) = <[Z.to_nat id := set_page (set_spilled m) p k]> (ib_nodes b)) as En by done.
    assert (¬ node_range m p) as Hnr by (by intros [? _]).
    destruct (IH ds' (update_node b id (set_page (set_spilled m) p k)) tf1) as (ns' & tf' & qs & Hall & Hg' & Hlen & Hfr & Hst & Hds & Hfp); [done| |by apply (gr_wf _ _ _ _ Hg)| |].
    { rewrite (grows_pagesize _ _ _ _ Hg), En. eapply Forall2_impl_in; [exact Hids'|]. intros j d Hj (mj & Hmj & ?). exists mj. split; [|done].
      rewrite list_lookup_insert_ne; [done|]. intros E. apply Hni. rewrite E. by apply list_elem_of_fmap_2. }
    { pose proof (gr_pages _ _ _ _ Hg). unfold node_cost in *. lia. }
    exists ns', tf', ((n_data m, p) :: qs). cbn [write_all_nodes]. rewrite Hw. cbn [mbind res_bind]. rewrite Hall.
    assert (ns' !! Z.to_nat id = Some (set_page (set_spilled m) p k)) as Hid.
    { rewrite Hfr by done. rewrite En. apply list_lookup_insert_eq. by eapply lookup_lt_Some. }
    split_and!; try done.
    + eapply grows_weaken; [by eapply grows_trans|by intros x [[??]|?]|]. unfold zsum. cbn. lia.
    + rewrite Hlen, En. by rewrite length_insert.
    + intros i Hi. rewrite fmap_cons, not_elem_of_cons in Hi. destruct Hi as [Hi1 Hi2]. rewrite Hfr, En by done. by rewrite list_lookup_insert_ne.
    + constructor; [|done]. eapply (stored_grows _ ns' tf1 tf'); [done|by intros ?|reflexivity|]. eexists. split; [exact Hid|]. cbn [n_data n_page_id set_page set_spilled fst snd].
      split_and!; try done; apply Hx; lia.
    + rewrite fmap_cons. by rewrite Hds.
    + eapply fresh_pages_cons; [exact Hg|apply Hx; lia|apply safe_in_use, Hx; lia|done].
Qed.

(** The data of a node, cut into consecutive pieces. *)
Definition pieces_of (d : NodeData) (ds : list NodeData) : Prop :=
  match d with
  | Branches bs => ∃ bss, ds = Branches <$> bss ∧ bs = concat bss
  | Leaves ls => ∃ lss, ds = Leaves <$> lss ∧ ls = concat lss
  end.

Lemma pieces_of_one d : pieces_of d [d].
Proof. destruct d as [bs|ls]; [exists [bs]|exists [ls]]; cbn; by rewrite app_nil_r. Qed.

Lemma pieces_of_split d d0 pieces : split_ok d d0 pieces → pieces_of d (d0 :: pieces).
Proof.
  intros (_ & _ & Hd). destruct d as [bs|ls]; destruct Hd as (x0 & xs & -> & -> & ->); by exists (x0 :: xs).
Qed.

Lemma pieces_of_size d ds : pieces_of d ds → zsum data_size ds = data_size d.
Proof.
  destruct d as [bs|ls]; intros (xss & -> & ->); rewrite zsum_fmap; [rewrite data_size_branches|rewrite data_size_leaves];
    rewrite zsum_concat; apply zsum_ext; intros x _; [apply data_size_branches|apply data_size_leaves].
Qed.

Lemma pieces_of_len d ds : pieces_of d ds → zsum (λ d, Z.of_nat (data_len d)) ds = Z.of_nat (data_len d).
Proof.
  destruct d as [bs|ls]; intros (xss & -> & ->); rewrite zsum_fmap; cbn [data_len]; unfold zsum;
    (induction xss as [|x xss IH]; [done|]); cbn [foldr concat]; rewrite length_app; lia.
Qed.

Lemma pieces_of_wf d ds d' : pieces_of d ds → d' ∈ ds → data_wf d → data_wf d'.
Proof.
  destruct d as [bs|ls]; intros (xss & -> & ->) (xs & -> & Hin)%list_elem_of_fmap Hwf; cbn [data_wf] in *;
    rewrite Forall_concat in Hwf; exact (proj1 (Forall_forall _ _) Hwf xs Hin).
Qed.

Lemma zsum_elem {A} (f : A → Z) l x : (∀ x, 0 <= f x) → x ∈ l → f x <= zsum f l.
Proof.
  intros Hf. unfold zsum. induction l as [|y l IH]; [by intros ?%elem_of_nil|]. pose proof (zsum_pos f l Hf) as Hp. unfold zsum in Hp.
  intros [->|Hx]%elem_of_cons; cbn; [|specialize (IH Hx); specialize (Hf y)]; lia.
Qed.

Lemma new_nodes_ok b ds :
  Forall (λ d, (0 < data_len d)%nat) ds →
  ∃ ids ns, new_nodes b ds = Ok (ids, with_nodes b (ib_nodes b ++ ns)) ∧
    Z.to_nat <$> ids = seq (length (ib_nodes b)) (length ds) ∧
    Forall2 (λ id d, ∃ m, (ib_nodes b ++ ns) !! Z.to_nat id = Some m ∧ n_data m = d ∧ n_page_id m = 0 ∧ n_deleted m = false) ids ds.
Proof.
  revert b. induction ds as [|d ds IH]; intros b Hds.
  { exists [], []. cbn. rewrite app_nil_r. split_and!; [by destruct b|done|constructor]. }
  apply Forall_cons in Hds as [Hd Hds]. destruct (data_first_key_ok d Hd) as [key Hkey]. cbn [new_nodes]. unfold new_node, node_with_data.
  rewrite Hkey. cbn [mbind res_bind]. set (m := mkNode _ _ _ _ _ _ _ _ _ _).
  destruct (IH (with_nodes b (ib_nodes b ++ [m])) Hds) as (ids & ns & -> & Hids & Hns). cbn [mbind res_bind].
  exists (Z.of_nat (length (ib_nodes b)) :: ids), (m :: ns). cbn [ib_nodes with_nodes] in *. rewrite <-app_assoc in *. split_and!.
  - done.
  - rewrite fmap_cons, Nat2Z.id, Hids. rewrite length_app. cbn [length seq]. by rewrite Nat.add_1_r.
  - constructor; [|done]. exists m. rewrite Nat2Z.id. by rewrite lookup_app_r, Nat.sub_diag by done.
Qed.

(** What [Node::spill] does once the children are done, up to the parent. *)
Definition spill_pieces (b : InnerBucket) (tf : TxFreelist) (nid : NodeID) : res (option (list NodeID) * InnerBucket * TxFreelist) :=
  '(new_siblings, b) ← split b nid;
  '(b, tf) ← write_at_node b tf nid;
  '(b, tf) ← match new_siblings with
             | Some siblings =>
                 '(b, tf) ← write_at_node b tf nid;
                 write_all_nodes b tf siblings
             | None => Ok (b, tf)
             end;
  Ok (new_siblings, b, tf).

Definition spill_cost (d : NodeData) : Z := 3 * data_size d + 2.

(** A node and its new siblings, as the source writes them: the node twice. *)
Lemma write_siblings_ok b tf nid n ids ds :
  ib_nodes b !! Z.to_nat nid = Some n → tx_freelist_wf tf → data_wf (n_data n) → n_deleted n = false →
  (∀ x, keep x → safe tf x) → (∀ x, node_range n x → in_use tf x ∧ ¬ keep x) → fits (pagesize (tf_meta tf)) (n_data n) →
  NoDup (Z.to_nat <$> ids) → Z.to_nat nid ∉ Z.to_nat <$> ids → Forall2 (unwritten (pagesize (tf_meta tf)) (ib_nodes b)) ids ds →
  num_pages (tf_meta tf) + (2 * node_cost (n_data n) + zsum node_cost ds) <= u64_max →
  ∃ ns' tf' qs, ('(b, tf) ← write_at_node b tf nid; '(b, tf) ← write_at_node b tf nid; write_all_nodes b tf ids) = Ok (with_nodes b ns', tf') ∧
    grows tf tf' (node_range n) (2 * node_cost (n_data n) + zsum node_cost ds) ∧
    Forall2 (stored ns' tf') (nid :: ids) qs ∧ fst <$> qs = n_data n :: ds ∧ fresh_pages tf qs ∧
    (∀ m, ns' !! Z.to_nat nid = Some m → n_original_key m = n_original_key n) ∧
    length ns' = length (ib_nodes b) ∧ (∀ i, i ∉ Z.to_nat <$> (nid :: ids) → ns' !! i = ib_nodes b !! i).
Proof.
  intros Hn Hwf Hdw Hdel Hkeep Hr Hfit Hnd Hni Hids Hnp. pose proof (data_size_pos (n_data n)) as Hsz.
  assert (0 <= zsum node_cost ds) as Hz by (apply zsum_pos; intros x; pose proof (data_size_pos x); unfold node_cost; lia).
  destruct (write_at_ok b tf nid n) as (p1 & k1 & tf1 & Hw1 & Hg1 & Hon1 & Hk1 & Hx1); try done; [unfold node_cost in *; lia|].
  set (n1 := set_page (set_spilled n) p1 k1) in *. pose proof (lookup_lt_Some _ _ _ Hn) as Hlt.
  destruct (write_at_ok (update_node b nid n1) tf1 nid n1) as (p2 & k2 & tf2 & Hw2 & Hg2 & Hon2 & Hk2 & Hx2).
  { by apply list_lookup_insert_eq. }
  { by apply (gr_wf _ _ _ _ Hg1). }
  { done. }
  { done. }
  { intros x [_ Hx]. cbn [n_page_id n_num_pages n1 set_page] in Hx. destruct (Hx1 x Hx) as [Hns Hu]. split; [done|]. by intros ?%Hkeep. }
  { by rewrite (grows_pagesize _ _ _ _ Hg1). }
  { cbn [n1 set_page set_spilled n_data]. pose proof (gr_pages _ _ _ _ Hg1). unfold node_cost in *. lia. }
  change (set_page (set_spilled n1) p2 k2) with (set_page (set_spilled n) p2 k2) in Hw2. set (n2 := set_page (set_spilled n) p2 k2) in *.
  change (n_data n1) with (n_data n) in Hg2, Hon2. pose proof (grows_trans _ _ _ _ _ _ _ Hg1 Hg2) as Hg12.
  assert (ib_nodes (update_node (update_node b nid n1) nid n2) = <[Z.to_nat nid := n2]> (ib_nodes b)) as En
    by (cbn; by rewrite list_insert_insert_eq).
  destruct (write_all_nodes_ok (update_node (update_node b nid n1) nid n2) tf2 ids ds) as (ns' & tf' & qs & Hall & Hg3 & Hlen & Hfr & Hst & Hds & Hfp); try done.
  { rewrite (grows_pagesize _ _ _ _ Hg12), En. eapply Forall2_impl_in; [exact Hids|]. intros j d Hj (mj & Hmj & ?). exists mj. split; [|done].
    rewrite list_lookup_insert_ne; [done|]. intros E. apply Hni. rewrite E. by apply list_elem_of_fmap_2. }
  { by apply (gr_wf _ _ _ _ Hg2). }
  { pose proof (gr_pages _ _ _ _ Hg12). unfold node_cost in *. lia. }
  assert (ns' !! Z.to_nat nid = Some n2) as Hnid by (rewrite Hfr, En by done; by apply list_lookup_insert_eq).
  exists ns', tf', ((n_data n, p2) :: qs). rewrite Hw1. cbn [mbind res_bind]. rewrite Hw2. cbn [mbind res_bind]. rewrite Hall. split_and!.
  - done.
  - destruct (grows_trans _ _ _ _ _ _ _ Hg12 Hg3) as [A1 A2 A3 A4 A5 _]. split; try done; [lia|].
    intros x Hx Hnr. pose proof (gr_use _ _ _ _ Hg1 x Hx Hnr) as U1.
    apply (gr_use _ _ _ _ Hg3); [|by intros []]. apply (gr_use _ _ _ _ Hg2); [done|]. intros [_ Hx']. cbn [n_page_id n_num_pages n1 set_page] in Hx'.
    destruct (Hx1 x Hx') as [Hns _]. by apply Hns, safe_in_use.
  - constructor; [|done]. eapply (stored_grows ns' _ tf2 tf'); [done|by intros ?|reflexivity|]. exists n2. cbn [fst snd n2 n_data n_page_id set_page].
    split_and!; try done; apply Hx2; lia.
  - rewrite fmap_cons. by rewrite Hds.
  - eapply fresh_pages_grows; [exact Hg1|]. eapply fresh_pages_cons; [exact Hg2|apply Hx2; lia|apply safe_in_use, Hx2; lia|done].
  - intros m Hm. rewrite Hnid in Hm. injection Hm as <-. done.
  - rewrite Hlen, En. by rewrite length_insert.
  - intros i Hi. rewrite fmap_cons, not_elem_of_cons in Hi. destruct Hi as [Hi1 Hi2]. rewrite Hfr, En by done. by rewrite list_lookup_insert_ne.
Qed.

Lemma sibling_cost d d0 pieces :
  pieces_of d (d0 :: pieces) → Forall (λ p, (2 <= data_len p)%nat) (d0 :: pieces) →
  2 * node_cost d0 + zsum node_cost pieces <= 3 * data_size d + 2.
Proof.
  intros Hpo Hl. pose proof (pieces_of_size _ _ Hpo) as Hs. unfold zsum in Hs. cbn [foldr] in Hs. fold (zsum data_size pieces) in Hs.
  assert (zsum node_cost pieces <= 2 * zsum data_size pieces) as Hle.
  { apply Forall_cons in Hl as [_ Hl]. unfold node_cost, zsum. clear -Hl. induction Hl as [|p ps Hp _ IH]; cbn [foldr]; [lia|].
    pose proof (data_size_len p). lia. }
  pose proof (data_size_pos d0). pose proof (zsum_pos data_size pieces data_size_pos). unfold node_cost in *. lia.
Qed.

Lemma spill_pieces_ok b tf nid n :
  ib_nodes b !! Z.to_nat nid = Some n → tx_freelist_wf tf → data_wf (n_data n) → n_deleted n = false →
  (∀ x, keep x → safe tf x) → (∀ x, node_range n x → in_use tf x ∧ ¬ keep x) → fits (pagesize (tf_meta tf)) (n_data n) →
  num_pages (tf_meta tf) + spill_cost (n_data n) <= u64_max →
  ∃ sibs ns' tf' qs, spill_pieces b tf nid = Ok (sibs, with_nodes b ns', tf') ∧
    grows tf tf' (node_range n) (spill_cost (n_data n)) ∧
    Forall2 (stored ns' tf') (nid :: default [] sibs) qs ∧ pieces_of (n_data n) (fst <$> qs) ∧ fresh_pages tf qs ∧
    (∀ m, ns' !! Z.to_nat nid = Some m → n_original_key m = n_original_key n) ∧
    (∀ i, i ≠ Z.to_nat nid → (i < length (ib_nodes b))%nat → ns' !! i = ib_nodes b !! i) ∧
    (length (ib_nodes b) <= length ns')%nat ∧ (∀ id, id ∈ default [] sibs → (length (ib_nodes b) <= Z.to_nat id)%nat) ∧
    match sibs with None => length qs = 1%nat | Some _ => Forall (λ q, (2 <= data_len q.1)%nat) qs end.
Proof.
  intros Hn Hwf Hdw Hdel Hkeep Hr Hfit Hnp. unfold spill_pieces, split, node_at. rewrite Hn. cbn [unwrap mbind res_bind].
  pose proof (data_size_pos (n_data n)) as Hsz. pose proof (lookup_lt_Some _ _ _ Hn) as Hlt. unfold spill_cost in *.
  pose proof (split_data_ok n) as Hsplit. destruct (split_data n) as [[[d0 pieces]|]| |]; [| |done..]; cbn [mbind res_bind].
  - pose proof (pieces_of_split _ _ _ Hsplit) as Hpo. destruct Hsplit as (_ & Hlen2 & _).
    pose proof (sibling_cost _ _ _ Hpo Hlen2) as Hcost. pose proof (Forall_cons_1 _ _ _ Hlen2) as [Hd0 Hps].
    assert (∀ d, d ∈ d0 :: pieces → data_wf d ∧ fits (pagesize (tf_meta tf)) d) as Hpiece.
    { intros d Hd. split; [by eapply pieces_of_wf|]. assert (data_size d <= data_size (n_data n)) by
        (rewrite <-(pieces_of_size _ _ Hpo); apply zsum_elem; [apply data_size_pos|done]). unfold fits in *. lia. }
    set (b1 := update_node b nid (set_data n d0)). assert (length (ib_nodes b1) = length (ib_nodes b)) as El1 by (apply length_insert).
    destruct (new_nodes_ok b1 pieces) as (ids & ns & -> & Hids & Hns); [eapply Forall_impl; [exact Hps|]; cbn; lia|]. cbn [mbind res_bind].
    set (b2 := with_nodes b1 (ib_nodes b1 ++ ns)).
    destruct (write_siblings_ok b2 tf nid (set_data n d0) ids pieces) as (ns' & tf' & qs & Hw & Hg & Hst & Hqs & Hfp & Hok & Hlen & Hfr).
    { cbn [b2 ib_nodes with_nodes]. rewrite lookup_app_l by lia. by apply list_lookup_insert_eq. }
    { done. }
    { apply Hpiece. left. }
    { done. }
    { done. }
    { done. }
    { apply Hpiece. left. }
    { rewrite Hids. apply NoDup_seq. }
    { rewrite Hids, elem_of_seq. lia. }
    { eapply Forall2_impl_in'; [exact Hns|]. intros id d Hd (m & ? & ? & ? & ?). exists m. split_and!; try done; apply Hpiece; by right. }
    { cbn [set_data n_data]. lia. }
    exists (Some ids), ns', tf', qs. split_and!.
    + revert Hw. destruct (write_at_node b2 tf nid) as [[b3 tf3]| |]; [|done..]. cbn [mbind res_bind]. by intros ->.
    + eapply grows_weaken; [exact Hg|done|]. cbn [set_data n_data]. lia.
    + done.
    + by rewrite Hqs.
    + done.
    + done.
    + intros i Hi Hil. rewrite Hfr.
      * change (ib_nodes b2) with (ib_nodes b1 ++ ns). rewrite lookup_app_l by lia. by apply list_lookup_insert_ne.
      * rewrite fmap_cons, Hids, elem_of_cons, elem_of_seq. lia.
    + rewrite Hlen. cbn [b2 ib_nodes with_nodes]. rewrite length_app. lia.
    + intros id Hid. assert (Z.to_nat id ∈ Z.to_nat <$> ids) as Hin by (by apply list_elem_of_fmap_2). rewrite Hids, elem_of_seq in Hin. lia.
    + rewrite <-(Forall_fmap fst (λ d, (2 <= data_len d)%nat)). by rewrite Hqs.
  - destruct (write_at_ok b tf nid n) as (p & k & tf' & Hw & Hg & Hon & Hk & Hx); try done; [unfold node_cost; lia|].
    exists None, (<[Z.to_nat nid := set_page (set_spilled n) p k]> (ib_nodes b)), tf', [(n_data n, p)]. rewrite Hw. cbn [mbind res_bind]. split_and!.
    + done.
    + eapply grows_weaken; [exact Hg|done|unfold node_cost; lia].
    + repeat constructor. exists (set_page (set_spilled n) p k). split; [by apply list_lookup_insert_eq|]. cbn [fst snd n_data n_page_id set_page].
      split_and!; try done; apply Hx; lia.
    + apply pieces_of_one.
    + split; [apply NoDup_singleton|]. constructor; [|done]. apply Hx. cbn. lia.
    + intros m. rewrite list_lookup_insert_eq by done. by intros [= <-].
    + intros i Hi _. by rewrite list_lookup_insert_ne.
    + by rewrite length_insert.
    + by intros id ?%elem_of_nil.
    + done.
Qed.

End grows.
