(* ===== verification/SpillTree.v ===== *)
(** * The tree a spill writes

    [Spill] models how a bucket's changed nodes are written at commit; here is what
    it writes.  The disk is read through [disk_view]: the dirty pages of the
    transaction over the pages of the file.  [disk_tree] is a B+ tree of such
    pages, [node_tree] the tree of nodes, some of whose branches still lead to
    pages.  [node_spill] of the root of a [node_tree] gives the root page of a
    [disk_tree] with the same entries. *)

From S2P Require Import Prelude Search Support Layout Meta Freelist Node Page PageNode Inner Spill Db Commit Tx Persist SpillWrite.

(** ** Trees on disk *)

(** The pages of the transaction over those of the file. *)
Definition disk_view (base : PageID → res NodeData) (tf : TxFreelist) (p : PageID) : res NodeData :=
  match tf_pages tf !! p with
  | Some B => block_data (pagesize (tf_meta tf)) p B
  | None => base p
  end.

Definition kid_key (k : Kid) : bytes := b_key (k_branch k).

(** No entry of the child is below its branch key. *)
Definition low (k : Kid) : Prop := ∀ e, e ∈ k_entries k → lex_le (kid_key k) (leaf_key e).

(** The first child comes before the second, entries included. *)
Definition before (k1 k2 : Kid) : Prop :=
  lex_lt (kid_key k1) (kid_key k2) ∧ ∀ e, e ∈ k_entries k1 → lex_lt (leaf_key e) (kid_key k2).

(** Children in order; the entries of the first may be below its key. *)
Definition kids_ordered (kids : list Kid) : Prop := StronglySorted before kids ∧ Forall low (tail kids).

Definition entries (kids : list Kid) : list Leaf := concat (k_entries <$> kids).
Definition pages (kids : list Kid) : list PageID := concat (k_pages <$> kids).

Fixpoint disk_tree (D : PageID → res NodeData) (h : nat) (p : PageID) (es : list Leaf) (ps : list PageID) : Prop :=
  match h with
  | O => D p = Ok (Leaves es) ∧ Forall leaf_wf es ∧ keys_sorted leaf_key es ∧ ps = [p]
  | S h => ∃ kids,
      D p = Ok (Branches (k_branch <$> kids)) ∧ kids ≠ [] ∧ StronglySorted before kids ∧
      Forall (λ k, in_u64 (b_page (k_branch k)) ∧ b_page (k_branch k) ≠ 0 ∧ low k ∧ k_entries k ≠ [] ∧
        disk_tree D h (b_page (k_branch k)) (k_entries k) (k_pages k)) kids ∧
      es = entries kids ∧ ps = p :: pages kids
  end.

(** A child that is on disk. *)
Definition disk_kid (D : PageID → res NodeData) (h : nat) (k : Kid) : Prop :=
  in_u64 (b_page (k_branch k)) ∧ b_page (k_branch k) ≠ 0 ∧ low k ∧ k_entries k ≠ [] ∧
  disk_tree D h (b_page (k_branch k)) (k_entries k) (k_pages k).

Lemma Forall_impl_in {A} (P Q : A → Prop) l : Forall P l → (∀ x, x ∈ l → P x → Q x) → Forall Q l.
Proof. rewrite !Forall_forall. naive_solver. Qed.

Lemma elem_of_entries e kids : e ∈ entries kids ↔ ∃ k, k ∈ kids ∧ e ∈ k_entries k.
Proof. unfold entries. rewrite elem_of_concat_fmap. setoid_rewrite list_elem_of_lookup. naive_solver. Qed.

Lemma elem_of_pages p kids : p ∈ pages kids ↔ ∃ k, k ∈ kids ∧ p ∈ k_pages k.
Proof. unfold pages. rewrite elem_of_concat_fmap. setoid_rewrite list_elem_of_lookup. naive_solver. Qed.

Lemma entries_app K1 K2 : entries (K1 ++ K2) = entries K1 ++ entries K2.
Proof. unfold entries. by rewrite fmap_app, concat_app. Qed.

Lemma pages_app K1 K2 : pages (K1 ++ K2) = pages K1 ++ pages K2.
Proof. unfold pages. by rewrite fmap_app, concat_app. Qed.

Lemma disk_tree_ext_ok D D' h p es ps :
  (∀ q d, q ∈ ps → D q = Ok d → D' q = Ok d) → disk_tree D h p es ps → disk_tree D' h p es ps.
Proof.
  revert p es ps. induction h as [|h IH]; intros p es ps Hext.
  - intros (Hd & Hl & Hs & ->). apply Hext in Hd; [done|left].
  - intros (kids & Hd & Hne & Ho & Hk & -> & ->). exists kids. apply Hext in Hd; [|left]. split_and!; try done.
    eapply Forall_impl_in; [exact Hk|]. intros k Hin (H1 & H2 & H3 & H4 & H5). split_and!; try done. eapply IH; [|done].
    intros q d Hq. apply Hext. right. apply elem_of_pages. eauto.
Qed.

Lemma disk_tree_ext D D' h p es ps :
  (∀ q, q ∈ ps → D' q = D q) → disk_tree D h p es ps → disk_tree D' h p es ps.
Proof. intros Hext. apply disk_tree_ext_ok. intros q d Hq. by rewrite Hext. Qed.

Lemma disk_kid_ext D D' h k : (∀ q, q ∈ k_pages k → D' q = D q) → disk_kid D h k → disk_kid D' h k.
Proof. intros Hext (H1 & H2 & H3 & H4 & H5). split_and!; try done. by eapply disk_tree_ext. Qed.

(** ** Order of children *)

Lemma head_le kids j0 j :
  StronglySorted before kids → head kids = Some j0 → j ∈ kids → lex_le (kid_key j0) (kid_key j).
Proof.
  destruct kids as [|x kids]; [done|]. intros [Hall _]%StronglySorted_cons [= ->] [->|Hj]%elem_of_cons; apply lex_le_alt; [by right|left].
  rewrite Forall_forall in Hall. by apply Hall.
Qed.

(** Replacing a child by children with its entries. *)
Lemma kids_replace K1 k K2 new :
  kids_ordered (K1 ++ k :: K2) → new ≠ [] → StronglySorted before new → Forall (λ j, low j ∧ k_entries j ≠ []) new →
  entries new = k_entries k →
  (∀ j, head new = Some j → kid_key j = kid_key k ∨ ∃ e, e ∈ k_entries k ∧ kid_key j = leaf_key e) →
  kids_ordered (K1 ++ new ++ K2).
Proof.
  intros [Hs Hlow] Hne Hn Hl Hes Hhead. apply StronglySorted_app in Hs as (H12 & H1 & H2).
  apply StronglySorted_cons in H2 as [Hk2 H2]. rewrite Forall_forall in Hk2, Hl.
  assert (∀ j e, j ∈ new → e ∈ k_entries j → e ∈ k_entries k) as Hsub by (intros; rewrite <-Hes; apply elem_of_entries; eauto).
  assert (∀ j, K1 ≠ [] → j ∈ new → lex_le (kid_key k) (kid_key j)) as Hge.
  { intros j HK Hj. destruct new as [|j0 new]; [done|]. pose proof (head_le _ j0 j Hn eq_refl Hj) as Hle.
    assert (low k) as Hlk. { destruct K1 as [|x K1]; [done|]. cbn in Hlow. apply Forall_app in Hlow as [_ Hlow]. by apply Forall_cons in Hlow as [? _]. }
    destruct (Hhead j0 eq_refl) as [E|(e & He & E)]; [by rewrite <-E|].
    apply lex_le_alt in Hle as [Hlt|<-]; [|rewrite E; by apply Hlk]. apply lex_le_alt. left. eapply lex_le_lt_trans; [|exact Hlt]. rewrite E. by apply Hlk. }
  split.
  - apply StronglySorted_app. split_and!; [|done|apply StronglySorted_app; split_and!; [|done|done]].
    + intros x y Hx [Hy|Hy]%elem_of_app; [|by apply H12; [|right]]. destruct (H12 x k Hx) as [G1 G2]; [left|].
      assert (K1 ≠ []) as HK by (by intros ->; apply elem_of_nil in Hx). specialize (Hge y HK Hy).
      split; [by eapply lex_lt_le_trans|]. intros e He. eapply lex_lt_le_trans; [by apply G2|done].
    + intros j y Hj Hy. destruct (Hk2 y Hy) as [G1 G2]. destruct (Hl j Hj) as [Hlj Hej]. split; [|eauto].
      destruct (k_entries j) as [|e es] eqn:E; [done|]. eapply lex_le_lt_trans; [apply (Hlj e); rewrite E; left|]. apply G2, (Hsub j); [done|rewrite E; left].
  - destruct K1 as [|x K1]; cbn in Hlow |- *.
    + destruct new as [|j0 new]; [done|]. cbn. apply Forall_app. split; [|done]. apply Forall_forall. intros j Hj. apply Hl. by right.
    + apply Forall_app in Hlow as [L1 L2]. apply Forall_cons in L2 as [_ L2]. rewrite !Forall_app. split_and!; try done.
      apply Forall_forall. intros j Hj. by apply Hl.
Qed.

Lemma ordered_keys kids : StronglySorted before kids → keys_sorted b_key (k_branch <$> kids).
Proof.
  induction kids as [|k kids IH]; [constructor|]. intros [Hall Hs]%StronglySorted_cons. rewrite fmap_cons. apply keys_sorted_cons. split; [|auto].
  intros b (j & -> & Hj)%list_elem_of_fmap. rewrite Forall_forall in Hall. by apply Hall.
Qed.

(** ** Inserting branches *)

Lemma search_found bs1 br bs2 :
  keys_sorted b_key (bs1 ++ br :: bs2) → binary_search_by_key b_key (bs1 ++ br :: bs2) (b_key br) = SFound (length bs1).
Proof.
  intros Hs. eapply search_ok_unique; [done|by apply binary_search_ok|]. exists br. split; [|done].
  rewrite lookup_app_r, Nat.sub_diag by done. done.
Qed.

Lemma search_missing bs1 bs2 key :
  keys_sorted b_key (bs1 ++ bs2) → (∀ b, b ∈ bs1 → lex_lt (b_key b) key) → (∀ b, b ∈ bs2 → lex_lt key (b_key b)) →
  binary_search_by_key b_key (bs1 ++ bs2) key = SMissing (length bs1).
Proof.
  intros Hs H1 H2. eapply search_ok_unique; [done|by apply binary_search_ok|]. split_and!.
  - rewrite length_app. lia.
  - intros j e Hj Hlt. rewrite lookup_app_l in Hj by done. apply H1. by eapply list_elem_of_lookup_2.
  - intros j e Hj Hle. rewrite lookup_app_r in Hj by done. apply H2. by eapply list_elem_of_lookup_2.
Qed.

Lemma update_same b nid n : ib_nodes b !! Z.to_nat nid = Some n → update_node b nid n = b.
Proof. intros Hn. unfold update_node. rewrite list_insert_id by done. by destruct b. Qed.

Lemma update_update b nid n n' : update_node (update_node b nid n) nid n' = update_node b nid n'.
Proof. unfold update_node, with_nodes. cbn [ib_nodes]. by rewrite list_insert_insert_eq. Qed.

(** The node [id] gives this child's branch. *)
Definition branch_of (ns : list Node) (id : NodeID) (k : Kid) : Prop :=
  ∃ m, ns !! Z.to_nat id = Some m ∧ branch_from_node m = Ok (k_branch k).

Lemma branch_of_update b pid n ids kids :
  Z.to_nat pid ∉ Z.to_nat <$> ids → Forall2 (branch_of (ib_nodes b)) ids kids → Forall2 (branch_of (ib_nodes (update_node b pid n))) ids kids.
Proof.
  intros Hni H. eapply Forall2_impl_in; [exact H|]. intros id k Hid (m & Hm & Hb). exists m. split; [|done].
  cbn [ib_nodes update_node with_nodes]. rewrite list_lookup_insert_ne; [done|]. intros E. apply Hni. rewrite E. by apply list_elem_of_fmap_2.
Qed.

Lemma insert_branches_ok b pid pn K1 new K2 ids :
  ib_nodes b !! Z.to_nat pid = Some pn → n_data pn = Branches (k_branch <$> K1 ++ K2) → Z.to_nat pid ∉ Z.to_nat <$> ids →
  Forall2 (branch_of (ib_nodes b)) ids new → StronglySorted before (K1 ++ new ++ K2) →
  insert_branches_at b pid ids = Ok (update_node b pid (set_data pn (Branches (k_branch <$> K1 ++ new ++ K2)))).
Proof.
  intros Hp Hd Hni Hids. revert b pn K1 Hp Hd Hids. induction ids as [|id ids IH] in new, Hni |- *; intros b pn K1 Hp Hd Hids Hs.
  - inversion Hids; subst. cbn [insert_branches_at app]. rewrite <-Hd. rewrite (update_same b pid); [done|]. rewrite Hp. by destruct pn.
  - inversion Hids as [|? k ? new' Hk Hids']; subst. rewrite fmap_cons, not_elem_of_cons in Hni. destruct Hni as [Hne Hni].
    cbn [insert_branches_at]. unfold insert_branch_at, node_at. destruct Hk as (m & -> & Hm). cbn [unwrap mbind res_bind]. rewrite Hm, Hp.
    cbn [unwrap mbind res_bind]. unfold insert_branch. rewrite Hd, fmap_app.
    pose proof Hs as (Hb1 & Hs1 & (Hb2 & Hs2 & Hs3)%StronglySorted_app)%StronglySorted_app.
    rewrite search_missing.
    + rewrite bool_decide_true by done. cbn [assert_that mbind res_bind]. unfold vec_insert. rewrite take_app_length, drop_app_length.
      rewrite (IH new' Hni _ (set_data pn (Branches ((k_branch <$> K1) ++ k_branch k :: (k_branch <$> K2)))) (K1 ++ [k])).
      * rewrite update_update, <-app_assoc. done.
      * apply list_lookup_insert_eq. by eapply lookup_lt_Some.
      * rewrite <-app_assoc, fmap_app. done.
      * by apply branch_of_update.
      * by rewrite <-app_assoc.
    + rewrite <-fmap_app. apply ordered_keys. apply StronglySorted_app. split_and!; try done. intros x y Hx Hy. apply Hb1; [done|]. apply elem_of_app. by right.
    + intros br (x & -> & Hx)%list_elem_of_fmap. apply (Hb1 x k Hx). left.
    + intros br (x & -> & Hx)%list_elem_of_fmap. apply (Hb2 k x); [left|done].
Qed.

(** A spilled child: its branch is replaced, those of its siblings are added. *)
Lemma insert_pieces_ok b pid pn K1 k K2 nid m ids new :
  ib_nodes b !! Z.to_nat pid = Some pn → n_data pn = Branches (k_branch <$> K1 ++ k :: K2) → Z.to_nat pid ∉ Z.to_nat <$> (nid :: ids) →
  ib_nodes b !! Z.to_nat nid = Some m → Forall2 (branch_of (ib_nodes b)) (nid :: ids) new →
  StronglySorted before (K1 ++ k :: K2) → StronglySorted before (K1 ++ new ++ K2) →
  (b ← insert_branch_at b pid (Some (kid_key k)) nid; insert_branches_at b pid ids) =
    Ok (update_node b pid (set_data pn (Branches (k_branch <$> K1 ++ new ++ K2)))).
Proof.
  intros Hp Hd Hni Hm Hids Hso Hs. inversion Hids as [|? j ? new' Hj Hids']; subst. rewrite fmap_cons, not_elem_of_cons in Hni. destruct Hni as [Hne Hni].
  unfold insert_branch_at, node_at. destruct Hj as (m' & -> & Hbr). cbn [unwrap mbind res_bind]. rewrite Hbr, Hp. cbn [unwrap mbind res_bind].
  unfold insert_branch. rewrite Hd, fmap_app, fmap_cons. change (kid_key k) with (b_key (k_branch k)). rewrite search_found.
  - rewrite bool_decide_true by eauto. cbn [assert_that mbind res_bind]. rewrite insert_app_r_alt, Nat.sub_diag by done. cbn [insert list_insert].
    rewrite (insert_branches_ok _ pid (set_data pn (Branches ((k_branch <$> K1) ++ k_branch j :: (k_branch <$> K2)))) (K1 ++ [j]) new' K2).
    + rewrite update_update, <-app_assoc. done.
    + apply list_lookup_insert_eq. by eapply lookup_lt_Some.
    + rewrite <-app_assoc, fmap_app. done.
    + done.
    + by apply branch_of_update.
    + by rewrite <-app_assoc.
  - rewrite <-(fmap_cons k_branch), <-fmap_app. by apply ordered_keys.
Qed.

(** ** From pieces to children *)

(** Data all of whose children are on disk. *)
Definition ready (D : PageID → res NodeData) (h : nat) (d : NodeData) (es : list Leaf) (pgs : list PageID) : Prop :=
  match h with
  | O => d = Leaves es ∧ Forall leaf_wf es ∧ keys_sorted leaf_key es ∧ pgs = []
  | S h => ∃ kids, d = Branches (k_branch <$> kids) ∧ kids ≠ [] ∧ StronglySorted before kids ∧ Forall (disk_kid D h) kids ∧
      es = entries kids ∧ pgs = pages kids
  end.

Lemma ready_tree D h p d es pgs : ready D h d es pgs → D p = Ok d → disk_tree D h p es (p :: pgs).
Proof.
  destruct h as [|h]; [intros (-> & ? & ? & ->); done|]. intros (kids & -> & Hne & Hs & Hk & -> & ->) Hd. exists kids. by split_and!.
Qed.

Lemma ready_wf D h d es pgs : ready D h d es pgs → data_wf d.
Proof.
  destruct h as [|h]; [by intros (-> & ? & _)|]. intros (kids & -> & _ & _ & Hk & _). cbn. apply Forall_fmap. eapply Forall_impl; [exact Hk|].
  intros k (? & _). done.
Qed.

Lemma ready_ext D D' h d es pgs : (∀ q, q ∈ pgs → D' q = D q) → ready D h d es pgs → ready D' h d es pgs.
Proof.
  destruct h as [|h]; [done|]. intros Hext (kids & -> & ? & ? & Hk & -> & ->). exists kids. split_and!; try done.
  eapply Forall_impl_in; [exact Hk|]. intros k Hin. apply disk_kid_ext. intros q Hq. apply Hext, elem_of_pages. eauto.
Qed.

(** A piece on its page. *)
Definition piece_ok (D : PageID → res NodeData) (q : NodeData * PageID) : Prop :=
  (0 < data_len q.1)%nat ∧ D q.2 = Ok q.1 ∧ in_u64 q.2 ∧ q.2 ≠ 0.

(** The children that pieces become. *)
Record packed (D : PageID → res NodeData) (h : nat) (qs : list (NodeData * PageID)) (new : list Kid) (es : list Leaf) (pgs : list PageID) : Prop := {
  pk_branch : Forall2 (λ q k, data_first_key q.1 = Ok (kid_key k) ∧ b_page (k_branch k) = q.2) qs new;
  pk_disk : Forall (disk_kid D h) new;
  pk_sorted : StronglySorted before new;
  pk_entries : entries new = es;
  pk_pages : pages new ≡ₚ pgs ++ (snd <$> qs)
}.

Lemma packed_nil D h : packed D h [] [] [] [].
Proof. split; [constructor..|done|done]. Qed.

Lemma packed_cons D h q qs k new es es' pgs pgs' :
  packed D h qs new es' pgs' → data_first_key q.1 = Ok (kid_key k) → b_page (k_branch k) = q.2 → disk_kid D h k →
  k_entries k = es → k_pages k = q.2 :: pgs → (∀ j, j ∈ new → before k j) → packed D h (q :: qs) (k :: new) (es ++ es') (pgs ++ pgs').
Proof.
  intros [H1 H2 H3 H4 H5] Hk Hb Hd <- Ep Hbef. split.
  - by constructor.
  - by constructor.
  - apply StronglySorted_cons. split; [|done]. by apply Forall_forall.
  - unfold entries in *. cbn. by rewrite H4.
  - change (pages (k :: new)) with (k_pages k ++ pages new). rewrite Ep, H5, fmap_cons. solve_Permutation.
Qed.

Lemma pack_leaves D lss qs :
  fst <$> qs = Leaves <$> lss → Forall (piece_ok D) qs → keys_sorted leaf_key (concat lss) → Forall leaf_wf (concat lss) →
  ∃ new, packed D 0 qs new (concat lss) [] ∧ ∀ k, k ∈ new → ∃ e, e ∈ concat lss ∧ kid_key k = leaf_key e.
Proof.
  revert qs. induction lss as [|ls lss IH]; intros [|[d p] qs]; [by exists []; split; [apply packed_nil|intros k ?%elem_of_nil]|done|done|].
  rewrite !fmap_cons. cbn [fst concat]. intros [= -> Eq] [(Hl & Hd & Hu & Hp) Hqs]%Forall_cons (Hb & Hs1 & Hs2)%keys_sorted_app [Hw1 Hw2]%Forall_app.
  cbn [fst snd data_len] in *. destruct (IH qs Eq Hqs Hs2 Hw2) as (new & Hnew & Hfirst). destruct ls as [|e ls]; [cbn in Hl; lia|].
  exists (mkKid (mkBranch (leaf_key e) p) (e :: ls) [p] :: new). split.
  - apply (packed_cons D 0 (Leaves (e :: ls), p) qs _ new (e :: ls) (concat lss) [] []); try done.
    + split_and!; try done. intros x [->|Hx]%elem_of_cons; apply lex_le_alt; [by right|left]. apply keys_sorted_cons in Hs1 as [Hlt _]. by apply Hlt.
    + intros j Hj. destruct (Hfirst j Hj) as (x & Hx & E). split; cbn [kid_key k_branch b_key k_entries].
      * rewrite E. apply Hb; [left|done].
      * intros y Hy. rewrite E. by apply Hb.
  - intros k [->|Hk]%elem_of_cons; [exists e; split; [left|done]|]. destruct (Hfirst k Hk) as (x & Hx & E). exists x. split; [|done]. apply elem_of_app. by right.
Qed.

Lemma concat_fmap_inv {A B} (f : A → B) (l : list A) (bss : list (list B)) :
  f <$> l = concat bss → ∃ kss : list (list A), l = concat kss ∧ bss = (λ ks : list A, f <$> ks) <$> kss.
Proof.
  revert l. induction bss as [|bs bss IH]; intros l; cbn; [intros ->%fmap_nil_inv; by exists []|].
  intros (l1 & l2 & -> & E & ->)%fmap_app_inv. destruct (IH l2 (eq_sym E)) as (kss & -> & ->). by exists (l1 :: kss).
Qed.

Lemma pack_branches D h kss qs :
  fst <$> qs = (λ ks, Branches (k_branch <$> ks)) <$> kss → Forall (piece_ok D) qs → StronglySorted before (concat kss) → Forall (disk_kid D h) (concat kss) →
  ∃ new, packed D (S h) qs new (entries (concat kss)) (pages (concat kss)) ∧ ∀ k, k ∈ new → ∃ j, j ∈ concat kss ∧ kid_key k = kid_key j.
Proof.
  revert qs. induction kss as [|ks kss IH]; intros [|[d p] qs]; [by exists []; split; [apply packed_nil|intros k ?%elem_of_nil]|done|done|].
  rewrite !fmap_cons. cbn [fst concat]. intros [= -> Eq] [(Hl & Hd & Hu & Hp) Hqs]%Forall_cons (Hb & Hs1 & Hs2)%StronglySorted_app [Hw1 Hw2]%Forall_app.
  cbn [fst snd data_len] in *. destruct (IH qs Eq Hqs Hs2 Hw2) as (new & Hnew & Hfirst). destruct ks as [|k0 ks]; [cbn in Hl; lia|].
  assert (∀ k, k ∈ k0 :: ks → low k ∧ k_entries k ≠ []) as Hlow by (intros k Hk; rewrite Forall_forall in Hw1; by destruct (Hw1 k Hk) as (_ & _ & ? & ? & _)).
  exists (mkKid (mkBranch (kid_key k0) p) (entries (k0 :: ks)) (p :: pages (k0 :: ks)) :: new). split.
  - rewrite entries_app, pages_app.
    apply (packed_cons D (S h) (Branches (k_branch <$> k0 :: ks), p) qs); try done.
    + split_and!; try done; cbn [k_branch k_entries k_pages b_page].
      * intros e (k & Hk & He)%elem_of_entries. pose proof (head_le _ k0 k Hs1 eq_refl Hk) as Hle.
        destruct (Hlow k Hk) as [Hlk _]. apply lex_le_alt in Hle as [Hlt|E]; [apply lex_le_alt; left; eapply lex_lt_le_trans; [exact Hlt|by apply Hlk]|].
        cbn [kid_key k_branch b_key]. change (lex_le (kid_key k0) (leaf_key e)). rewrite E. by apply Hlk.
      * destruct (Hlow k0) as [_ Hne0]; [left|]. unfold entries. cbn. by destruct (k_entries k0).
      * exists (k0 :: ks). by split_and!.
    + intros j Hj. destruct (Hfirst j Hj) as (x & Hx & E). split; cbn [kid_key k_branch b_key k_entries].
      * change (lex_lt (kid_key k0) (kid_key j)). rewrite E. apply Hb; [left|done].
      * intros e (k & Hk & He)%elem_of_entries. change (lex_lt (leaf_key e) (kid_key j)). rewrite E. by apply (Hb k x).
  - intros k [->|Hk]%elem_of_cons; [exists k0; split; [left|done]|]. destruct (Hfirst k Hk) as (x & Hx & E). exists x. split; [|done]. apply elem_of_app. by right.
Qed.

Lemma pack_pieces D h d es pgs qs :
  ready D h d es pgs → pieces_of d (fst <$> qs) → Forall (piece_ok D) qs → ∃ new, packed D h qs new es pgs.
Proof.
  destruct h as [|h].
  - intros (-> & Hw & Hs & ->) (lss & E & ->) Hqs. destruct (pack_leaves D lss qs E Hqs Hs Hw) as (new & ? & _). eauto.
  - intros (kids & -> & Hne & Hs & Hk & -> & ->) (bss & E & (kss & -> & ->)%concat_fmap_inv) Hqs.
    destruct (pack_branches D h kss qs) as (new & ? & _); try done; [|eauto]. rewrite E. by rewrite <-list_fmap_compose.
Qed.

(** The branches of the children are no larger than the data they point to. *)
Definition branch_sizes (kids : list Kid) : Z := data_size (Branches (k_branch <$> kids)).

Lemma first_key_size d key : data_first_key d = Ok key → BRANCH_SIZE + len_u64 key <= data_size d.
Proof.
  destruct d as [[|b bs]|[|l ls]]; cbn; try done; intros [= <-].
  - change (BRANCH_SIZE + b_key_size b <= data_size (Branches (b :: bs))). rewrite data_size_branches. unfold zsum. cbn [foldr].
    pose proof (zsum_pos (λ b, BRANCH_SIZE + b_key_size b) bs) as Hp. unfold zsum in Hp. unfold b_key_size, len_u64, BRANCH_SIZE, BRANCH_SIZE_OF in *.
    assert (∀ x : Branch, 0 <= 24 + Z.of_nat (length (b_key x))) as H0 by lia. specialize (Hp H0). lia.
  - change (BRANCH_SIZE + len_u64 (leaf_key l) <= data_size (Leaves (l :: ls))). rewrite data_size_leaves. unfold zsum. cbn [foldr].
    pose proof (zsum_pos (λ l, LEAF_SIZE + leaf_size l) ls) as Hp. unfold zsum in Hp.
    assert (∀ x, 0 <= LEAF_SIZE + leaf_size x) as H0 by (intros x; pose proof (leaf_size_pos x); unfold LEAF_SIZE, LEAF_SIZE_OF; lia). specialize (Hp H0).
    rewrite leaf_size_alt. unfold BRANCH_SIZE, BRANCH_SIZE_OF, LEAF_SIZE, LEAF_SIZE_OF, len_u64 in *. lia.
Qed.

Lemma packed_size D h d qs new es pgs : packed D h qs new es pgs → pieces_of d (fst <$> qs) → branch_sizes new <= data_size d.
Proof.
  intros [Hb _ _ _ _] Hp. rewrite <-(pieces_of_size _ _ Hp). unfold branch_sizes. rewrite data_size_branches, !zsum_fmap. clear Hp.
  unfold zsum. induction Hb as [|q k qs new [Hk _] _ IH]; cbn [foldr]; [lia|]. apply first_key_size in Hk. unfold b_key_size, kid_key in *. lia.
Qed.

Lemma pieces_of_single d d' : pieces_of d [d'] → d = d'.
Proof. destruct d; intros ([|x [|]] & E & ->); try done; injection E as ->; cbn; by rewrite app_nil_r. Qed.

Lemma piece_len d ds d' : pieces_of d ds → d' ∈ ds → (data_len d' <= data_len d)%nat.
Proof.
  intros Hp Hd. apply pieces_of_len in Hp. pose proof (zsum_elem (λ d, Z.of_nat (data_len d)) ds d' (λ _, Nat2Z.is_nonneg _) Hd). cbv beta in *. lia.
Qed.

Lemma packed_head D h d qs new es pgs j :
  packed D h qs new es pgs → pieces_of d (fst <$> qs) → head new = Some j → data_first_key d = Ok (kid_key j).
Proof.
  intros [Hb _ _ _ _] Hp Hj. destruct Hb as [|[d0 p] k qs new [Hk _] _]; [done|]. injection Hj as ->. cbn [fst] in Hk.
  destruct d as [bs|ls]; destruct Hp as ([|x xss] & E & ->); try done; injection E as -> _; destruct x; try done.
Qed.

Section spill.
Context (keep old : PageID → Prop) (base : PageID → res NodeData).

Lemma disk_view_grows tf tf' R c p : grows keep tf tf' R c → safe tf p → disk_view base tf' p = disk_view base tf p.
Proof. intros Hg Hs. unfold disk_view. destruct (gr_safe _ _ _ _ _ Hg p Hs) as [_ ->]. by rewrite (grows_pagesize _ _ _ _ _ Hg). Qed.

(** A page of a tree: one of the old ones, or written by the transaction. *)
Definition good (tf : TxFreelist) (p : PageID) : Prop := safe tf p ∧ (old p ∨ is_Some (tf_pages tf !! p)).

Lemma good_grows tf tf' R c p : grows keep tf tf' R c → good tf p → good tf' p.
Proof. intros Hg [Hs Ho]. destruct (gr_safe _ _ _ _ _ Hg p Hs) as [Hs' E]. split; [done|]. by rewrite E. Qed.

(** The end of a node's spill: its pieces are on disk. *)
Lemma spill_finish b tf nid n h es pgs :
  ib_nodes b !! Z.to_nat nid = Some n → n_deleted n = false → ready (disk_view base tf) h (n_data n) es pgs → (∀ p, p ∈ pgs → good tf p) → NoDup pgs →
  tx_freelist_wf tf → (∀ x, keep x → safe tf x) → (∀ x, node_range n x → in_use tf x ∧ ¬ keep x) → fits (pagesize (tf_meta tf)) (n_data n) →
  num_pages (tf_meta tf) + spill_cost (n_data n) <= u64_max →
  ∃ sibs ns' tf' qs, spill_pieces b tf nid = Ok (sibs, with_nodes b ns', tf') ∧
    grows keep tf tf' (node_range n) (spill_cost (n_data n)) ∧
    Forall2 (stored ns' tf') (nid :: default [] sibs) qs ∧ pieces_of (n_data n) (fst <$> qs) ∧ fresh_pages tf qs ∧
    (∀ m, ns' !! Z.to_nat nid = Some m → n_original_key m = n_original_key n) ∧
    (∀ i, i ≠ Z.to_nat nid → (i < length (ib_nodes b))%nat → ns' !! i = ib_nodes b !! i) ∧
    (length (ib_nodes b) <= length ns')%nat ∧ (∀ id, id ∈ default [] sibs → (length (ib_nodes b) <= Z.to_nat id)%nat) ∧
    match sibs with None => length qs = 1%nat | Some _ => Forall (λ q, (2 <= data_len q.1)%nat) qs end ∧
    ready (disk_view base tf') h (n_data n) es pgs ∧
    (es ≠ [] → ∃ new, packed (disk_view base tf') h qs new es pgs ∧ Forall2 (branch_of ns') (nid :: default [] sibs) new ∧
       (∀ p, p ∈ pages new → good tf' p) ∧ NoDup (pages new)).
Proof.
  intros Hn Hdel Hr Hsafe Hpnd Hwf Hkeep Hrange Hfit Hnp.
  destruct (spill_pieces_ok keep b tf nid n Hn Hwf (ready_wf _ _ _ _ _ Hr) Hdel Hkeep Hrange Hfit Hnp)
    as (sibs & ns' & tf' & qs & Hsp & Hg & Hst & Hpo & Hfp & Hok & Hfr & Hlen & Hids & Hsib).
  assert (ready (disk_view base tf') h (n_data n) es pgs) as Hr'.
  { eapply ready_ext; [|exact Hr]. intros q Hq. eapply disk_view_grows; [done|by apply Hsafe]. }
  exists sibs, ns', tf', qs. do 11 (split; [done|]). intros Hes.
  assert (num_pages (tf_meta tf') <= u64_max) as Hmax by (pose proof (gr_pages _ _ _ _ _ Hg); lia).
  assert (Forall (λ q : NodeData * PageID, (0 < data_len q.1)%nat) qs) as Hpos.
  { destruct sibs; [eapply Forall_impl; [exact Hsib|]; cbn; lia|]. destruct qs as [|q [|]]; try done. constructor; [|done].
    cbn in Hpo. assert (n_data n = q.1) as <-.
    { destruct (n_data n); destruct Hpo as ([|x [|]] & E & ->); try done; injection E as ->; cbn; by rewrite app_nil_r. }
    destruct h; cbn in Hr; [destruct Hr as (-> & _); cbn; destruct es; [done|cbn; lia]|]. destruct Hr as (kids & -> & Hne & _).
    cbn. rewrite length_fmap. destruct kids; [done|cbn; lia]. }
  assert (Forall (λ q : NodeData * PageID, on_page tf' q.2 q.1 ∧ in_use tf' q.2) qs) as Hpg.
  { clear -Hst. induction Hst as [|id q ids qs (m & _ & _ & _ & ? & ?) _ IH]; by constructor. }
  destruct (pack_pieces (disk_view base tf') h (n_data n) es pgs qs Hr' Hpo) as (new & Hnew).
  { apply Forall_forall. intros q Hq. rewrite Forall_forall in Hpos, Hpg. destruct (Hpg q Hq) as [(B & HB & Hd) (Hu1 & _)].
    split_and!; [by apply Hpos|unfold disk_view; by rewrite HB|unfold in_u64, u64_mod, u64_max in *; lia|lia]. }
  exists new. split_and!; [done| | |].
  - pose proof (pk_branch _ _ _ _ _ _ Hnew) as Hb. clear -Hst Hb. revert new Hb. induction Hst as [|id q ids qs (m & Hm & Ed & Ep & _) _ IH]; intros new Hb.
    { inversion Hb. constructor. }
    inversion Hb as [|? k ? new' [Hk Hp] Hb']; subst. constructor; [|by apply IH]. exists m. split; [done|]. unfold branch_from_node. rewrite Ed, Hk.
    cbn [mbind res_bind]. rewrite Ep, <-Hp. unfold kid_key. by destruct (k_branch k).
  - intros p. rewrite (pk_pages _ _ _ _ _ _ Hnew). intros [Hin|(q & -> & Hq)%list_elem_of_fmap]%elem_of_app.
    + by eapply good_grows, Hsafe.
    + rewrite Forall_forall in Hpg. destruct (Hpg q Hq) as [(B & HB & _) Hu]. split; [by apply safe_in_use|right; by rewrite HB].
  - rewrite (pk_pages _ _ _ _ _ _ Hnew). destruct Hfp as [Hnd Hns]. apply NoDup_app. split_and!; [done| |done].
    intros p Hp (q & -> & Hq)%list_elem_of_fmap. rewrite Forall_forall in Hns. by apply (Hns q Hq), Hsafe.
Qed.

(** ** Trees of nodes *)

(** A child of a node: with a node of its own, or still on disk.  [sk_ids] are the
    indexes of the nodes below it. *)
Record SKid := mkSKid { sk_kid : Kid; sk_node : option NodeID; sk_ids : list nat }.

Definition disk_skid (k : Kid) : SKid := mkSKid k None [].
Definition all_ids (kids : list SKid) : list nat := concat (sk_ids <$> kids).

(** [T] is the tree of the child's node. *)
Definition pending (T : NodeID → list Leaf → list nat → list PageID → Prop) (ns : list Node) (k : Kid) (c : NodeID) (ids : list nat) : Prop :=
  k_entries k ≠ [] ∧ (∃ m, ns !! Z.to_nat c = Some m ∧ n_original_key m = Some (kid_key k)) ∧ T c (k_entries k) ids (k_pages k).

Definition kid_ok (T : NodeID → list Leaf → list nat → list PageID → Prop) (ns : list Node) (D : PageID → res NodeData) (h : nat) (k : SKid) : Prop :=
  match sk_node k with
  | None => disk_kid D h (sk_kid k) ∧ sk_ids k = []
  | Some c => pending T ns (sk_kid k) c (sk_ids k)
  end.

(** A tree of height [h] whose root is the node [nid]: its entries, the indexes of
    its nodes, and the pages below it.  A node that was loaded from a branch page
    still has that page's first key as its first key. *)
Fixpoint node_tree (ns : list Node) (D : PageID → res NodeData) (h : nat) (nid : NodeID) (es : list Leaf) (ids : list nat) (dp : list PageID) : Prop :=
  ∃ n, ns !! Z.to_nat nid = Some n ∧ n_deleted n = false ∧ n_spilled n = false ∧
  match h with
  | O => n_data n = Leaves es ∧ Forall leaf_wf es ∧ keys_sorted leaf_key es ∧ n_children n = [] ∧ ids = [Z.to_nat nid] ∧ dp = []
  | S h => ∃ kids,
      n_data n = Branches (k_branch <$> (sk_kid <$> kids)) ∧ kids ≠ [] ∧ kids_ordered (sk_kid <$> kids) ∧
      omap sk_node kids ≡ₚ n_children n ∧ Forall (kid_ok (node_tree ns D h) ns D h) kids ∧
      (∀ key, n_original_key n = Some key → kid_key <$> head (sk_kid <$> kids) = Some key) ∧
      es = entries (sk_kid <$> kids) ∧ ids = Z.to_nat nid :: all_ids kids ∧ dp = pages (sk_kid <$> kids)
  end.

Lemma node_tree_id ns D h nid es ids dp : node_tree ns D h nid es ids dp → Z.to_nat nid ∈ ids.
Proof. destruct h; intros (n & _ & _ & _ & H); [destruct H as (_ & _ & _ & _ & -> & _)|destruct H as (kids & _ & _ & _ & _ & _ & _ & _ & -> & _)]; left. Qed.

Lemma elem_of_all_ids i kids : i ∈ all_ids kids ↔ ∃ k, k ∈ kids ∧ i ∈ sk_ids k.
Proof. unfold all_ids. rewrite elem_of_concat_fmap. setoid_rewrite list_elem_of_lookup. naive_solver. Qed.

Lemma all_ids_app K1 K2 : all_ids (K1 ++ K2) = all_ids K1 ++ all_ids K2.
Proof. unfold all_ids. by rewrite fmap_app, concat_app. Qed.

Lemma kid_ok_frame (T T' : NodeID → list Leaf → list nat → list PageID → Prop) ns ns' D D' h k :
  (∀ c es ids dp, (∀ i, i ∈ ids → ns' !! i = ns !! i) → (∀ p, p ∈ dp → D' p = D p) → T c es ids dp → T' c es ids dp) →
  (∀ c es ids dp, T c es ids dp → Z.to_nat c ∈ ids) →
  (∀ i, i ∈ sk_ids k → ns' !! i = ns !! i) → (∀ p, p ∈ k_pages (sk_kid k) → D' p = D p) → kid_ok T ns D h k → kid_ok T' ns' D' h k.
Proof.
  intros HT Hid Hns HD. unfold kid_ok. destruct (sk_node k) as [c|].
  - intros (Hne & (m & Hm & Ho) & Ht). split_and!; [done| |by apply HT]. exists m. rewrite Hns; [done|]. by eapply Hid.
  - intros [Hk ->]. split; [|done]. by eapply disk_kid_ext.
Qed.

Lemma node_tree_frame ns ns' D D' h nid es ids dp :
  (∀ i, i ∈ ids → ns' !! i = ns !! i) → (∀ p, p ∈ dp → D' p = D p) → node_tree ns D h nid es ids dp → node_tree ns' D' h nid es ids dp.
Proof.
  revert nid es ids dp. induction h as [|h IH]; intros nid es ids dp Hns HD Ht; pose proof (node_tree_id _ _ _ _ _ _ _ Ht) as Hin.
  - destruct Ht as (n & Hn & Hr). exists n. by rewrite Hns.
  - destruct Ht as (n & Hn & Hdel & Hsp & kids & Hd & Hne & Ho & Hch & Hk & Hkey & -> & -> & ->). exists n. rewrite Hns by done.
    do 3 (split; [done|]). exists kids. split_and!; try done. eapply Forall_impl_in; [exact Hk|]. intros k Hkin. apply kid_ok_frame.
    + intros c es ids dp Hns' HD'. by apply IH.
    + intros c es ids dp. by apply node_tree_id.
    + intros i Hi. apply Hns. right. apply elem_of_all_ids. eauto.
    + intros p Hp. apply HD, elem_of_pages. exists (sk_kid k). split; [by apply list_elem_of_fmap_2|done].
Qed.

(** ** Unfolding a spill *)

(** What [Node::spill] does with the parent. *)
Definition spill_tail (fuel : nat) (sibs : option (list NodeID)) (b : InnerBucket) (tf : TxFreelist) (nid : NodeID) (parent : option NodeID)
    : res (option PageID * InnerBucket * TxFreelist) :=
  self ← node_at b nid;
  match parent with
  | Some parent =>
      b ← insert_branch_at b parent (n_original_key self) nid;
      b ← insert_branches_at b parent (default [] sibs);
      Ok (None, b, tf)
  | None =>
      match sibs with
      | Some siblings =>
          branches ← res_map (λ id, n ← node_at b id; branch_from_node n) (nid :: siblings);
          '(new_parent, b) ← new_node b (Branches branches);
          '(page_id, b, tf) ← node_spill fuel b tf new_parent None;
          page_id ← unwrap page_id "New parent did not return a new root_page_id";
          Ok (Some page_id, b, tf)
      | None => Ok (Some (n_page_id self), b, tf)
      end
  end.

Definition spill_children (fuel : nat) (nid : NodeID) (b : InnerBucket) (tf : TxFreelist) (cs : list NodeID) : res (InnerBucket * TxFreelist) :=
  res_fold (λ '(b, tf) child, '(_, b, tf) ← node_spill fuel b tf child (Some nid); Ok (b, tf)) (b, tf) cs.

Lemma node_spill_unfold fuel b tf nid parent n :
  ib_nodes b !! Z.to_nat nid = Some n → n_spilled n = false →
  node_spill (S fuel) b tf nid parent =
    (children ← sort_children b (n_children n);
     '(b, tf) ← spill_children fuel nid (update_node b nid (set_children n children)) tf children;
     '(sibs, b, tf) ← spill_pieces b tf nid;
     spill_tail fuel sibs b tf nid parent).
Proof.
  intros Hn Hs. cbn [node_spill]. assert (node_at b nid = Ok n) as -> by (unfold node_at; by rewrite Hn). cbn [mbind res_bind]. rewrite Hs.
  destruct (sort_children b (n_children n)) as [cs| |]; [|done..]. cbn [mbind res_bind].
  change (res_fold _ (update_node b nid (set_children n cs), tf) cs) with (spill_children fuel nid (update_node b nid (set_children n cs)) tf cs).
  destruct (spill_children _ _ _ _ _) as [[b1 tf1]| |]; [|done..]. cbn [mbind res_bind]. unfold spill_pieces.
  destruct (split b1 nid) as [[sibs b2]| |]; [|done..]. cbn [mbind res_bind].
  destruct (write_at_node b2 tf1 nid) as [[b3 tf3]| |]; [|done..]. cbn [mbind res_bind].
  destruct sibs as [sibs|]; [|done].
  destruct (write_at_node b3 tf3 nid) as [[b4 tf4]| |]; [|done..]. cbn [mbind res_bind].
  by destruct (write_all_nodes b4 tf4 sibs) as [[b5 tf5]| |].
Qed.

Lemma sort_children_ok b cs :
  (∀ c, c ∈ cs → ∃ m, ib_nodes b !! Z.to_nat c = Some m ∧ (0 < data_len (n_data m))%nat) → ∃ cs', sort_children b cs = Ok cs' ∧ cs' ≡ₚ cs.
Proof.
  intros Hcs. unfold sort_children.
  assert (∃ keyed, res_map (λ id, n ← node_at b id; k ← data_first_key (n_data n); Ok (k, id)) cs = Ok keyed ∧ snd <$> keyed = cs) as (keyed & Ek & Es).
  { induction cs as [|c cs IH]; [by exists []|]. destruct (Hcs c) as (m & Hm & Hl); [left|]. destruct (data_first_key_ok _ Hl) as [key Hkey].
    destruct IH as (keyed & Ek & Es); [intros c' Hc'; apply Hcs; by right|]. exists ((key, c) :: keyed). cbn [res_map].
    assert (node_at b c = Ok m) as -> by (unfold node_at; by rewrite Hm). cbn [mbind res_bind]. rewrite Hkey. cbn [mbind res_bind]. rewrite Ek. cbn. by rewrite Es. }
  destruct cs as [|c1 [|c2 cs]]; [by exists []|by exists [c1]|]. rewrite Ek. cbn [mbind res_bind]. eexists. split; [done|].
  rewrite <-Es. by rewrite sort_by_key_Permutation.
Qed.

(** ** Spilling a child *)

Definition head_key (k : Kid) (key : bytes) : Prop := key = kid_key k ∨ ∃ e, e ∈ k_entries k ∧ key = leaf_key e.

(** What became of the child [k] of [pid]; [others] are the nodes below it. *)
Record child_done (h : nat) (b : InnerBucket) (pid : NodeID) (pn : Node) (K1 : list Kid) (k : Kid) (K2 : list Kid) (others : list nat)
    (new : list Kid) (ns' : list Node) (tf tf' : TxFreelist) : Prop := {
  cd_parent : ns' !! Z.to_nat pid = Some (set_data pn (Branches (k_branch <$> K1 ++ new ++ K2)));
  cd_order : kids_ordered (K1 ++ new ++ K2);
  cd_disk : Forall (disk_kid (disk_view base tf') h) new;
  cd_entries : entries new = k_entries k;
  cd_head : ∀ j, head new = Some j → head_key k (kid_key j);
  cd_good : ∀ p, p ∈ pages new → good tf' p;
  cd_nodup : NoDup (pages new);
  cd_fresh : ∀ p, p ∈ pages new → p ∈ k_pages k ∨ ¬ safe tf p;
  cd_frame : ∀ i, (i < length (ib_nodes b))%nat → i ≠ Z.to_nat pid → i ∉ others → ns' !! i = ib_nodes b !! i;
  cd_length : (length (ib_nodes b) <= length ns')%nat
}.

Lemma child_end fuel b tf0 tf pid pn K1 k K2 c n h pgs :
  ib_nodes b !! Z.to_nat pid = Some pn → n_data pn = Branches (k_branch <$> K1 ++ k :: K2) → kids_ordered (K1 ++ k :: K2) →
  Z.to_nat pid ≠ Z.to_nat c → ib_nodes b !! Z.to_nat c = Some n → n_deleted n = false → n_original_key n = Some (kid_key k) → k_entries k ≠ [] →
  ready (disk_view base tf) h (n_data n) (k_entries k) pgs → (∀ p, p ∈ pgs → p ∈ k_pages k ∨ ¬ safe tf0 p) → (∀ p, safe tf0 p → safe tf p) →
  (∀ key, data_first_key (n_data n) = Ok key → head_key k key) →
  (∀ p, p ∈ pgs → good tf p) → NoDup pgs → tx_freelist_wf tf → (∀ x, keep x → safe tf x) → (∀ x, node_range n x → in_use tf x ∧ ¬ keep x) →
  fits (pagesize (tf_meta tf)) (n_data n) → num_pages (tf_meta tf) + spill_cost (n_data n) <= u64_max →
  ∃ ns' tf' new, ('(sibs, b, tf) ← spill_pieces b tf c; spill_tail fuel sibs b tf c (Some pid)) = Ok (None, with_nodes b ns', tf') ∧
    child_done h b pid pn K1 k K2 [Z.to_nat c] new ns' tf0 tf' ∧ branch_sizes new <= data_size (n_data n) ∧
    grows keep tf tf' (node_range n) (spill_cost (n_data n)).
Proof.
  intros Hp Hpd Ho Hne Hn Hdel Hkey Hes Hr Hpgs Hmono Hhead Hsafe Hpnd Hwf Hkeep Hrange Hfit Hnp.
  destruct (spill_finish b tf c n h (k_entries k) pgs Hn Hdel Hr Hsafe Hpnd Hwf Hkeep Hrange Hfit Hnp)
    as (sibs & ns1 & tf' & qs & Hsp & Hg & Hst & Hpo & Hfp & Hok & Hfr & Hlen & Hids & Hsib & _ & Hnew).
  destruct (Hnew Hes) as (new & Hpk & Hbr & Hps & Hnnd). rewrite Hsp. cbn [mbind res_bind].
  assert (∀ j, head new = Some j → head_key k (kid_key j)) as Hhk by (intros j Hj; eapply Hhead, packed_head; done).
  assert (kids_ordered (K1 ++ new ++ K2)) as Ho'.
  { apply (kids_replace _ k); [done| |apply Hpk| |apply Hpk|done].
    - intros ->. by rewrite <-(pk_entries _ _ _ _ _ _ Hpk) in Hes.
    - eapply Forall_impl; [apply Hpk|]. by intros j (_ & _ & ? & ? & _). }
  pose proof (lookup_lt_Some _ _ _ Hp) as Hplt. pose proof (lookup_lt_Some _ _ _ Hn) as Hclt.
  assert (ns1 !! Z.to_nat pid = Some pn) as Hp1 by (by rewrite Hfr).
  inversion Hst as [|? q0 ? qs0 (m & Hm & Hmd & _) Hst']; subst.
  assert (Z.to_nat pid ∉ Z.to_nat <$> (c :: default [] sibs)) as Hni.
  { rewrite fmap_cons, not_elem_of_cons. split; [done|]. intros (id & E & Hid)%list_elem_of_fmap. apply Hids in Hid. lia. }
  exists (<[Z.to_nat pid := set_data pn (Branches (k_branch <$> K1 ++ new ++ K2))]> ns1), tf', new.
  split; [|split; [|split]].
  - unfold spill_tail, node_at. cbn [ib_nodes with_nodes]. rewrite Hm. cbn [unwrap mbind res_bind]. rewrite (Hok m Hm), Hkey.
    pose proof (insert_pieces_ok (with_nodes b ns1) pid pn K1 k K2 c m (default [] sibs) new Hp1 Hpd Hni Hm Hbr (proj1 Ho) (proj1 Ho')) as Hins.
    destruct (insert_branch_at (with_nodes b ns1) pid (Some (kid_key k)) c) as [b2| |]; [|done..]. cbn [mbind res_bind] in Hins |- *.
    by rewrite Hins.
  - split; try done.
    + apply list_lookup_insert_eq. lia.
    + apply Hpk.
    + apply Hpk.
    + intros p. rewrite (pk_pages _ _ _ _ _ _ Hpk). intros [?|(q & -> & Hq)%list_elem_of_fmap]%elem_of_app; [auto|right].
      destruct Hfp as [_ Hns]. rewrite Forall_forall in Hns. intros ?%Hmono. by apply (Hns q Hq).
    + intros i Hi Hip Hic. rewrite list_lookup_insert_ne by done. apply Hfr; [|done]. intros ->. apply Hic. left.
    + by rewrite length_insert.
  - by eapply packed_size.
  - done.
Qed.

(** ** The nodes of a tree *)

Definition node_weight (ns : list Node) (i : nat) : Z := match ns !! i with Some n => data_size (n_data n) | None => 0 end.

(** The size of the data of these nodes. *)
Definition weight (ns : list Node) (ids : list nat) : Z := zsum (node_weight ns) ids.

(** The pages these nodes came from. *)
Definition retired (ns : list Node) (ids : list nat) (x : PageID) : Prop := ∃ i n, i ∈ ids ∧ ns !! i = Some n ∧ node_range n x.

(** At most how many pages the spill of a tree allocates. *)
Definition tree_cost (h : nat) (ns : list Node) (ids : list nat) : Z := 3 * Z.of_nat (S h) * weight ns ids + 2 * Z.of_nat (length ids).

Context (ps wmax : Z) (Hfits : HEADER_SIZE + wmax + CHECKSUM_SIZE + ps <= isize_max - 7).

(** The nodes [ids] own their pages, and the pages [dp] stay. *)
Record env (ns : list Node) (tf : TxFreelist) (ids : list nat) (dp : list PageID) : Prop := {
  env_wf : tx_freelist_wf tf;
  env_ps : pagesize (tf_meta tf) = ps;
  env_keep : ∀ x, keep x → safe tf x;
  env_use : ∀ x, retired ns ids x → in_use tf x ∧ ¬ keep x;
  env_disj : ∀ i j n m x, i ∈ ids → j ∈ ids → i ≠ j → ns !! i = Some n → ns !! j = Some m → node_range n x → node_range m x → False;
  env_dp : ∀ p, p ∈ dp → good tf p;
  env_dp_nodup : NoDup dp;
  env_nodup : NoDup ids;
  env_weight : weight ns ids <= wmax
}.

Lemma node_weight_pos ns i : 0 <= node_weight ns i.
Proof. unfold node_weight. destruct (ns !! i); [apply data_size_pos|lia]. Qed.

Lemma weight_pos ns ids : 0 <= weight ns ids.
Proof. apply zsum_pos. intros i. apply node_weight_pos. Qed.

Lemma weight_app ns ids ids' : weight ns (ids ++ ids') = weight ns ids + weight ns ids'.
Proof. apply zsum_app. Qed.

Lemma weight_frame ns ns' ids : (∀ i, i ∈ ids → ns' !! i = ns !! i) → weight ns' ids = weight ns ids.
Proof. intros H. apply zsum_ext. intros i Hi. unfold node_weight. by rewrite H. Qed.

Lemma env_part ns tf ids ids' other dp dp' :
  env ns tf ids dp → ids ≡ₚ ids' ++ other → (∀ p, p ∈ dp' → p ∈ dp) → NoDup dp' → env ns tf ids' dp'.
Proof.
  intros [H1 H2 H3 H4 H5 H6 H6' H7 H8] HP Hdp Hdpn. assert (∀ i, i ∈ ids' → i ∈ ids) as Hsub by (intros i Hi; rewrite HP; apply elem_of_app; by left).
  split; auto.
  - intros x (i & n & Hi & Hn). apply H4. exists i, n. auto.
  - intros i j n m x Hi Hj. apply H5; auto.
  - rewrite HP in H7. by apply NoDup_app in H7 as (? & _).
  - unfold weight in *. rewrite (zsum_Permutation _ _ _ HP), zsum_app in H8. pose proof (weight_pos ns other). unfold weight in *. lia.
Qed.

Lemma env_grow ns ns' tf tf' ids dp dp' R c :
  env ns tf ids dp → grows keep tf tf' R c → (∀ i, i ∈ ids → ns' !! i = ns !! i) → (∀ x, retired ns ids x → ¬ R x) →
  (∀ p, p ∈ dp' → good tf' p) → NoDup dp' → env ns' tf' ids dp'.
Proof.
  intros [H1 H2 H3 H4 H5 H6 H6' H7 H8] Hg Hns HR Hdp Hdpn. split; auto.
  - apply Hg.
  - by rewrite (grows_pagesize _ _ _ _ _ Hg).
  - intros x Hx. by apply (gr_safe _ _ _ _ _ Hg), H3.
  - intros x (i & n & Hi & Hn & Hr). rewrite Hns in Hn by done. assert (retired ns ids x) as Hx by (by exists i, n).
    destruct (H4 x Hx) as [Hu Hk]. split; [|done]. by apply (gr_use _ _ _ _ _ Hg), HR.
  - intros i j n m x Hi Hj Hne. rewrite !Hns by done. by apply H5.
  - by rewrite (weight_frame ns).
Qed.

Lemma node_tree_ids ns D h nid es ids dp i : node_tree ns D h nid es ids dp → i ∈ ids → (i < length ns)%nat.
Proof.
  revert nid es ids dp. induction h as [|h IH]; intros nid es ids dp (n & Hn & _ & _ & H).
  - destruct H as (_ & _ & _ & _ & -> & _). intros [->|?%elem_of_nil]%elem_of_cons; [|done]. by eapply lookup_lt_Some.
  - destruct H as (kids & _ & _ & _ & _ & Hk & _ & _ & -> & _). intros [->|(k & Hin & Hi)%elem_of_all_ids]%elem_of_cons; [by eapply lookup_lt_Some|].
    rewrite Forall_forall in Hk. specialize (Hk k Hin). unfold kid_ok in Hk. destruct (sk_node k) as [c|].
    + destruct Hk as (_ & _ & Ht). by eapply IH.
    + destruct Hk as [_ E]. rewrite E in Hi. by apply elem_of_nil in Hi.
Qed.

Lemma kid_ids ns D h k i : kid_ok (node_tree ns D h) ns D h k → i ∈ sk_ids k → (i < length ns)%nat.
Proof.
  unfold kid_ok. destruct (sk_node k) as [c|]; [|intros [_ ->] ?%elem_of_nil; done]. intros (_ & _ & Ht). by eapply node_tree_ids.
Qed.

Definition child_spec (h : nat) : Prop := ∀ fuel b tf pid pn K1 k c ids K2,
  (h < fuel)%nat → ib_nodes b !! Z.to_nat pid = Some pn → n_data pn = Branches (k_branch <$> K1 ++ k :: K2) → kids_ordered (K1 ++ k :: K2) →
  pending (node_tree (ib_nodes b) (disk_view base tf) h) (ib_nodes b) k c ids → Z.to_nat pid ∉ ids → env (ib_nodes b) tf ids (k_pages k) →
  num_pages (tf_meta tf) + tree_cost h (ib_nodes b) ids <= u64_max →
  ∃ ns' tf' new, node_spill fuel b tf c (Some pid) = Ok (None, with_nodes b ns', tf') ∧
    child_done h b pid pn K1 k K2 ids new ns' tf tf' ∧ branch_sizes new <= weight (ib_nodes b) ids ∧
    grows keep tf tf' (retired (ib_nodes b) ids) (tree_cost h (ib_nodes b) ids).

(** What became of the children of [nid]. *)
Record kids_done (h : nat) (b : InnerBucket) (tf : TxFreelist) (nid : NodeID) (n : Node) (kids : list SKid)
    (new : list Kid) (ns' : list Node) (tf' : TxFreelist) : Prop := {
  kd_node : ns' !! Z.to_nat nid = Some (set_data n (Branches (k_branch <$> new)));
  kd_order : kids_ordered new;
  kd_disk : Forall (disk_kid (disk_view base tf') h) new;
  kd_entries : entries new = entries (sk_kid <$> kids);
  kd_head : ∀ j, head new = Some j → ∃ k0, head kids = Some k0 ∧
    (kid_key j = kid_key (sk_kid k0) ∨ ∃ e, e ∈ entries (sk_kid <$> kids) ∧ kid_key j = leaf_key e);
  kd_good : ∀ p, p ∈ pages new → good tf' p;
  kd_nodup : NoDup (pages new);
  kd_fresh : ∀ p, p ∈ pages new → p ∈ pages (sk_kid <$> kids) ∨ ¬ safe tf p;
  kd_frame : ∀ i, (i < length (ib_nodes b))%nat → i ≠ Z.to_nat nid → i ∉ all_ids kids → ns' !! i = ib_nodes b !! i;
  kd_length : (length (ib_nodes b) <= length ns')%nat;
  kd_size : branch_sizes new <= branch_sizes (sk_kid <$> kids) + weight (ib_nodes b) (all_ids kids);
  kd_grows : grows keep tf tf' (retired (ib_nodes b) (all_ids kids)) (tree_cost h (ib_nodes b) (all_ids kids))
}.

Lemma branch_sizes_app K1 K2 : branch_sizes (K1 ++ K2) = branch_sizes K1 + branch_sizes K2.
Proof. unfold branch_sizes. rewrite !data_size_branches, fmap_app. apply zsum_app. Qed.

Lemma no_pending T ns D h kids :
  Forall (kid_ok T ns D h) kids → omap sk_node kids = [] → all_ids kids = [] ∧ Forall (disk_kid D h) (sk_kid <$> kids).
Proof.
  induction 1 as [|k kids Hk _ IH]; [done|]. unfold kid_ok in Hk. cbn [omap list_omap]. destruct (sk_node k) as [c|]; [done|]. intros E.
  destruct (IH E) as [E' Hd]. destruct Hk as [Hk Hi]. split; [unfold all_ids in *; cbn; by rewrite Hi|]. rewrite fmap_cons. by constructor.
Qed.

Lemma disk_skids new : sk_kid <$> (disk_skid <$> new) = new ∧ all_ids (disk_skid <$> new) = [] ∧ omap sk_node (disk_skid <$> new) = [].
Proof. induction new as [|k new (E1 & E2 & E3)]; [done|]. unfold all_ids in *. cbn. by rewrite E1, E2, E3. Qed.

Lemma branch_sizes_pos kids : 0 <= branch_sizes kids.
Proof. apply data_size_pos. Qed.

(** One child done, then the others. *)
Lemma kids_done_step h b tf nid n K1 k K2 newk ns1 tf1 new ns' tf' :
  k_entries (sk_kid k) ≠ [] → (∀ i, i ∈ all_ids K1 ++ all_ids K2 → ns1 !! i = ib_nodes b !! i) →
  child_done h b nid n (sk_kid <$> K1) (sk_kid k) (sk_kid <$> K2) (sk_ids k) newk ns1 tf tf1 →
  branch_sizes newk <= weight (ib_nodes b) (sk_ids k) → grows keep tf tf1 (retired (ib_nodes b) (sk_ids k)) (tree_cost h (ib_nodes b) (sk_ids k)) →
  kids_done h (with_nodes b ns1) tf1 nid (set_data n (Branches (k_branch <$> (sk_kid <$> K1) ++ newk ++ (sk_kid <$> K2))))
    (K1 ++ (disk_skid <$> newk) ++ K2) new ns' tf' →
  kids_done h b tf nid n (K1 ++ k :: K2) new ns' tf'.
Proof.
  intros Hne Hns [C1 C2 C3 C4 C5 C6 C6n C6f C7 C8] Hsz Hg [D1 D2 D3 D4 D5 D6 D6n D6f D7 D8 D9 D10]. destruct (disk_skids newk) as (E1 & E2 & E3).
  assert (sk_kid <$> K1 ++ (disk_skid <$> newk) ++ K2 = (sk_kid <$> K1) ++ newk ++ (sk_kid <$> K2)) as Ek by (by rewrite !fmap_app, E1).
  assert (all_ids (K1 ++ (disk_skid <$> newk) ++ K2) = all_ids K1 ++ all_ids K2) as Ei by (by rewrite !all_ids_app, E2).
  assert (all_ids (K1 ++ k :: K2) = all_ids K1 ++ sk_ids k ++ all_ids K2) as Eall by (by rewrite all_ids_app).
  assert (entries (sk_kid <$> K1 ++ k :: K2) = entries (sk_kid <$> K1) ++ k_entries (sk_kid k) ++ entries (sk_kid <$> K2)) as Ee
    by (by rewrite fmap_app, entries_app).
  cbn [ib_nodes with_nodes] in *. rewrite Ek, Ei in *. rewrite !entries_app, C4 in D4, D5. split.
  - done.
  - done.
  - done.
  - by rewrite Ee.
  - intros j Hj. destruct (D5 j Hj) as (k0 & Hk0 & Hor). rewrite Ee. destruct K1 as [|x K1]; [|exists x; injection Hk0 as <-; done].
    cbn [app] in *. exists k. split; [done|]. destruct newk as [|j' newk]; [by rewrite <-C4 in Hne|]. injection Hk0 as <-. cbn [disk_skid sk_kid] in Hor.
    destruct Hor as [E|?]; [|by right]. destruct (C5 j' eq_refl) as [E'|(e & He & E')]; [left; congruence|right]. exists e. split; [|congruence].
    rewrite !elem_of_app. auto.
  - done.
  - done.
  - intros p Hp. rewrite fmap_app, fmap_cons, pages_app. change (pages (sk_kid k :: (sk_kid <$> K2))) with (k_pages (sk_kid k) ++ pages (sk_kid <$> K2)).
    destruct (D6f p Hp) as [Hin|Hns']; [|right; intros Hs; by apply Hns', (gr_safe _ _ _ _ _ Hg)].
    rewrite !pages_app, !elem_of_app in Hin. rewrite !elem_of_app. destruct Hin as [?|[[?|?]%C6f|?]]; auto.
  - intros i Hi Hin Hia. rewrite Eall, !not_elem_of_app in Hia. destruct Hia as (? & ? & ?). rewrite D7; [by apply C7|lia|done|]. rewrite not_elem_of_app. done.
  - lia.
  - rewrite (weight_frame (ib_nodes b) ns1 _ Hns) in D9. rewrite !branch_sizes_app in D9. rewrite Eall, fmap_app, fmap_cons, branch_sizes_app, !weight_app in *.
    change (sk_kid k :: (sk_kid <$> K2)) with ([sk_kid k] ++ (sk_kid <$> K2)). rewrite branch_sizes_app. pose proof (branch_sizes_pos [sk_kid k]). lia.
  - eapply grows_weaken; [by eapply grows_trans| |].
    + intros x [(i & m & Hi & Hm)|(i & m & Hi & Hm & Hr)]; exists i, m; rewrite Eall, !elem_of_app; [tauto|].
      rewrite Hns in Hm by done. rewrite elem_of_app in Hi. tauto.
    + unfold tree_cost. rewrite (weight_frame (ib_nodes b) ns1 _ Hns), Eall, !weight_app, !length_app.
      pose proof (weight_pos (ib_nodes b) (all_ids K1)). pose proof (weight_pos (ib_nodes b) (all_ids K2)). lia.
Qed.

(** A stretch of a list without duplicates replaced by parts of it and new elements. *)
Lemma nodup_replaced {A} (P : A → Prop) (l1 mid l2 new : list A) :
  NoDup (l1 ++ mid ++ l2) → (∀ x, x ∈ l1 ++ mid ++ l2 → P x) → NoDup new → (∀ x, x ∈ new → x ∈ mid ∨ ¬ P x) → NoDup (l1 ++ new ++ l2).
Proof.
  intros (H1 & H12 & (H2 & H23 & H3)%NoDup_app)%NoDup_app HP Hn Hin. setoid_rewrite elem_of_app in HP. setoid_rewrite elem_of_app in HP.
  setoid_rewrite elem_of_app in H12. apply NoDup_app. split_and!; [done| |apply NoDup_app; split_and!; [done| |done]].
  - intros x Hx [[?|?]%Hin|?]%elem_of_app; [by eapply H12; eauto|naive_solver|by eapply H12; eauto].
  - intros x [?|?]%Hin Hx; [by eapply H23|naive_solver].
Qed.

Lemma omap_split_elem kids c : c ∈ omap sk_node kids → ∃ K1 k K2, kids = K1 ++ k :: K2 ∧ sk_node k = Some c.
Proof. intros (k & Hk & Hc)%list_elem_of_omap. apply list_elem_of_split in Hk as (K1 & K2 & ->). eauto. Qed.

Lemma env_disjoint ns tf ids dp ids1 ids2 :
  env ns tf ids dp → ids ≡ₚ ids1 ++ ids2 → ∀ x, retired ns ids2 x → ¬ retired ns ids1 x.
Proof.
  intros He HP x (i & n & Hi & Hn & Hr) (j & m & Hj & Hm & Hr'). pose proof (env_nodup _ _ _ _ He) as Hnd. rewrite HP in Hnd.
  apply NoDup_app in Hnd as (_ & Hd & _). eapply (env_disj _ _ _ _ He i j n m x); try done.
  - rewrite HP. apply elem_of_app. by right.
  - rewrite HP. apply elem_of_app. by left.
  - intros ->. by eapply Hd.
Qed.

Lemma spill_kids_ok h cs kids fuel b tf nid n :
  child_spec h → (h < fuel)%nat → ib_nodes b !! Z.to_nat nid = Some n → n_data n = Branches (k_branch <$> (sk_kid <$> kids)) →
  kids_ordered (sk_kid <$> kids) → omap sk_node kids ≡ₚ cs → Forall (kid_ok (node_tree (ib_nodes b) (disk_view base tf) h) (ib_nodes b) (disk_view base tf) h) kids →
  Z.to_nat nid ∉ all_ids kids → env (ib_nodes b) tf (all_ids kids) (pages (sk_kid <$> kids)) →
  num_pages (tf_meta tf) + tree_cost h (ib_nodes b) (all_ids kids) <= u64_max →
  ∃ ns' tf' new, spill_children fuel nid b tf cs = Ok (with_nodes b ns', tf') ∧ kids_done h b tf nid n kids new ns' tf'.
Proof.
  intros Hchild Hfuel. revert kids b tf n. induction cs as [|c cs IH]; intros kids b tf n Hn Hd Ho Hcs Hk Hni He Hnp.
  - apply Permutation_nil_r in Hcs. destruct (no_pending _ _ _ _ _ Hk Hcs) as [Ei Hdisk].
    exists (ib_nodes b), tf, (sk_kid <$> kids). split; [cbn; by destruct b|]. split; try done.
    + rewrite Hn, <-Hd. by destruct n.
    + intros j Hj. destruct kids as [|k0 kids]; [done|]. exists k0. injection Hj as <-. auto.
    + apply (env_dp _ _ _ _ He).
    + apply (env_dp_nodup _ _ _ _ He).
    + auto.
    + pose proof (weight_pos (ib_nodes b) (all_ids kids)). lia.
    + eapply grows_weaken; [apply grows_refl, (env_wf _ _ _ _ He)|done|]. unfold tree_cost. pose proof (weight_pos (ib_nodes b) (all_ids kids)). lia.
  - destruct (omap_split_elem kids c) as (K1 & k & K2 & -> & Hkc); [rewrite Hcs; left|].
    pose proof Hk as (Hk1 & [Hkk Hk2]%Forall_cons)%Forall_app. unfold kid_ok in Hkk. rewrite Hkc in Hkk.
    assert (all_ids (K1 ++ k :: K2) = all_ids K1 ++ sk_ids k ++ all_ids K2) as Eall by (by rewrite all_ids_app).
    assert (pages (sk_kid <$> K1 ++ k :: K2) = pages (sk_kid <$> K1) ++ k_pages (sk_kid k) ++ pages (sk_kid <$> K2)) as Epg by (by rewrite fmap_app, pages_app).
    assert (all_ids (K1 ++ k :: K2) ≡ₚ sk_ids k ++ all_ids K1 ++ all_ids K2) as HP by (rewrite Eall; solve_Permutation).
    pose proof (weight_pos (ib_nodes b) (all_ids K1)) as W1. pose proof (weight_pos (ib_nodes b) (all_ids K2)) as W2. pose proof (weight_pos (ib_nodes b) (sk_ids k)) as Wk.
    unfold tree_cost in Hnp. rewrite Eall, !weight_app, !length_app in Hnp. rewrite fmap_app, fmap_cons in Hd, Ho.
    destruct (Hchild fuel b tf nid n (sk_kid <$> K1) (sk_kid k) c (sk_ids k) (sk_kid <$> K2)) as (ns1 & tf1 & newk & Hsp & Hdone & Hsz & Hg); try done.
    { rewrite Eall, !not_elem_of_app in Hni. tauto. }
    { eapply env_part; [exact He|exact HP| |].
      - intros p Hp. rewrite Epg, !elem_of_app. tauto.
      - pose proof (env_dp_nodup _ _ _ _ He) as Hnd. rewrite Epg in Hnd. by apply NoDup_app in Hnd as (_ & _ & (? & _)%NoDup_app). }
    { unfold tree_cost. lia. }
    assert (∀ i, i ∈ all_ids K1 ++ all_ids K2 → ns1 !! i = ib_nodes b !! i) as Hns1.
    { intros i Hi. apply (cd_frame _ _ _ _ _ _ _ _ _ _ _ _ Hdone).
      - rewrite elem_of_app, !elem_of_all_ids in Hi. destruct Hi as [(k' & Hk' & Hi)|(k' & Hk' & Hi)].
        + rewrite Forall_forall in Hk1. by eapply kid_ids, Hi; apply Hk1.
        + rewrite Forall_forall in Hk2. by eapply kid_ids, Hi; apply Hk2.
      - intros ->. apply Hni. rewrite HP, elem_of_app. by right.
      - pose proof (env_nodup _ _ _ _ He) as Hnd. rewrite HP in Hnd. apply NoDup_app in Hnd as (_ & Hx & _). intros Hi'. by eapply Hx. }
    assert (∀ k', k' ∈ K1 ++ K2 → kid_ok (node_tree (ib_nodes b) (disk_view base tf) h) (ib_nodes b) (disk_view base tf) h k' →
      kid_ok (node_tree ns1 (disk_view base tf1) h) ns1 (disk_view base tf1) h k') as Hkf.
    { intros k' Hk' Hok. eapply kid_ok_frame; [| | | |exact Hok].
      - intros c' es ids dp. apply node_tree_frame.
      - intros c' es ids dp. apply node_tree_id.
      - intros i Hi. apply Hns1. rewrite <-all_ids_app. apply elem_of_all_ids. eauto.
      - intros p Hp. eapply disk_view_grows; [exact Hg|]. apply (env_dp _ _ _ _ He). rewrite Epg, !elem_of_app, !elem_of_pages.
        apply elem_of_app in Hk' as [Hk'|Hk']; [left|right; right]; exists (sk_kid k'); (split; [by apply list_elem_of_fmap_2|done]). }
    destruct (disk_skids newk) as (E1 & E2 & E3).
    destruct (IH (K1 ++ (disk_skid <$> newk) ++ K2) (with_nodes b ns1) tf1
      (set_data n (Branches (k_branch <$> (sk_kid <$> K1) ++ newk ++ (sk_kid <$> K2))))) as (ns' & tf' & new & Hall & Hkd).
    + apply (cd_parent _ _ _ _ _ _ _ _ _ _ _ _ Hdone).
    + cbn [n_data set_data]. by rewrite !fmap_app, E1.
    + rewrite !fmap_app, E1. apply (cd_order _ _ _ _ _ _ _ _ _ _ _ _ Hdone).
    + rewrite omap_app in Hcs. cbn [omap list_omap] in Hcs. rewrite Hkc in Hcs. rewrite !omap_app, E3. cbn [app].
      apply (Permutation_cons_inv (a := c)). rewrite <-Hcs. apply Permutation_middle.
    + rewrite !Forall_app. cbn [ib_nodes with_nodes]. split_and!.
      * eapply Forall_impl_in; [exact Hk1|]. intros k' Hk'. apply Hkf. apply elem_of_app. by left.
      * apply Forall_fmap. eapply Forall_impl; [apply (cd_disk _ _ _ _ _ _ _ _ _ _ _ _ Hdone)|]. intros j Hj. by split.
      * eapply Forall_impl_in; [exact Hk2|]. intros k' Hk'. apply Hkf. apply elem_of_app. by right.
    + rewrite !all_ids_app, E2. intros Hin. apply Hni. rewrite HP, elem_of_app. right. exact Hin.
    + rewrite !all_ids_app, E2. cbn [app ib_nodes with_nodes]. eapply (env_grow (ib_nodes b)); [eapply env_part; [exact He| |by intros p Hp; exact Hp|apply (env_dp_nodup _ _ _ _ He)]|exact Hg|exact Hns1| | |].
      * rewrite HP. apply Permutation_app_comm.
      * eapply env_disjoint; [exact He|exact HP].
      * intros p. rewrite !fmap_app, E1, !pages_app, !elem_of_app. intros [Hp|[Hp|Hp]].
        -- eapply good_grows, (env_dp _ _ _ _ He); [exact Hg|]. rewrite Epg, !elem_of_app. auto.
        -- by apply (cd_good _ _ _ _ _ _ _ _ _ _ _ _ Hdone).
        -- eapply good_grows, (env_dp _ _ _ _ He); [exact Hg|]. rewrite Epg, !elem_of_app. auto.
      * rewrite !fmap_app, E1, !pages_app. apply nodup_replaced with (P := safe tf) (mid := k_pages (sk_kid k)).
        -- rewrite <-Epg. apply (env_dp_nodup _ _ _ _ He).
        -- intros p Hp. rewrite <-Epg in Hp. by apply (env_dp _ _ _ _ He).
        -- apply (cd_nodup _ _ _ _ _ _ _ _ _ _ _ _ Hdone).
        -- apply (cd_fresh _ _ _ _ _ _ _ _ _ _ _ _ Hdone).
    + cbn [ib_nodes with_nodes]. rewrite !all_ids_app, E2. cbn [app]. unfold tree_cost. rewrite (weight_frame (ib_nodes b) ns1 _ Hns1), weight_app, length_app.
      pose proof (gr_pages _ _ _ _ _ Hg) as Hgp. unfold tree_cost in Hgp. lia.
    + exists ns', tf', new. split.
      * unfold spill_children in *. cbn [res_fold]. rewrite Hsp. cbn [mbind res_bind]. exact Hall.
      * eapply kids_done_step; try done. apply Hkk.
Qed.

Lemma node_tree_data ns D h nid es ids dp :
  node_tree ns D h nid es ids dp → es ≠ [] → ∃ n, ns !! Z.to_nat nid = Some n ∧ (0 < data_len (n_data n))%nat.
Proof.
  destruct h; intros (n & Hn & _ & _ & H) Hes; exists n; (split; [done|]).
  - destruct H as (-> & _). cbn. destruct es; [done|cbn; lia].
  - destruct H as (kids & -> & Hne & _). cbn. rewrite !length_fmap. destruct kids; [done|cbn; lia].
Qed.

(** The children of a node, done. *)
Lemma spill_inner h fuel b tf nid n kids :
  child_spec h → (h < fuel)%nat → ib_nodes b !! Z.to_nat nid = Some n → n_data n = Branches (k_branch <$> (sk_kid <$> kids)) →
  kids_ordered (sk_kid <$> kids) → omap sk_node kids ≡ₚ n_children n →
  Forall (kid_ok (node_tree (ib_nodes b) (disk_view base tf) h) (ib_nodes b) (disk_view base tf) h) kids →
  env (ib_nodes b) tf (Z.to_nat nid :: all_ids kids) (pages (sk_kid <$> kids)) →
  num_pages (tf_meta tf) + tree_cost h (ib_nodes b) (all_ids kids) <= u64_max →
  ∃ cs ns' tf' new, sort_children b (n_children n) = Ok cs ∧
    spill_children fuel nid (update_node b nid (set_children n cs)) tf cs = Ok (with_nodes b ns', tf') ∧
    kids_done h b tf nid (set_children n cs) kids new ns' tf' ∧ ∀ x, node_range n x → in_use tf' x ∧ ¬ keep x.
Proof.
  intros Hchild Hfuel Hn Hd Ho Hcs Hk He Hnp. pose proof (env_nodup _ _ _ _ He) as [Hni _]%NoDup_cons.
  destruct (sort_children_ok b (n_children n)) as (cs & Hsort & HPcs).
  { intros c. rewrite <-Hcs. intros (k & Hkin & Hkc)%list_elem_of_omap. rewrite Forall_forall in Hk. specialize (Hk k Hkin). unfold kid_ok in Hk. rewrite Hkc in Hk.
    destruct Hk as (Hne & _ & Ht). by eapply node_tree_data. }
  set (b1 := update_node b nid (set_children n cs)). pose proof (lookup_lt_Some _ _ _ Hn) as Hlt.
  assert (∀ i, i ≠ Z.to_nat nid → ib_nodes b1 !! i = ib_nodes b !! i) as Hb1 by (intros i Hi; by apply list_lookup_insert_ne).
  assert (∀ i, i ∈ all_ids kids → ib_nodes b1 !! i = ib_nodes b !! i) as Hb1' by (intros i Hi; apply Hb1; by intros ->).
  assert (length (ib_nodes b1) = length (ib_nodes b)) as Hlen by (apply length_insert).
  assert (env (ib_nodes b) tf (all_ids kids) (pages (sk_kid <$> kids))) as Hek.
  { eapply (env_part _ _ _ _ [Z.to_nat nid]); [exact He|apply Permutation_cons_append|done|apply (env_dp_nodup _ _ _ _ He)]. }
  destruct (spill_kids_ok h cs kids fuel b1 tf nid (set_children n cs)) as (ns' & tf' & new & Hall & Hdone); try done.
  { by apply list_lookup_insert_eq. }
  { by rewrite Hcs. }
  { eapply Forall_impl_in; [exact Hk|]. intros k Hkin. apply kid_ok_frame; [|by intros ????; apply node_tree_id| |done].
    - intros c es ids dp. apply node_tree_frame.
    - intros i Hi. apply Hb1', elem_of_all_ids. eauto. }
  { eapply (env_grow (ib_nodes b)); [exact Hek|apply grows_refl, (env_wf _ _ _ _ He)|done|by intros x ? ?|apply (env_dp _ _ _ _ He)|apply (env_dp_nodup _ _ _ _ He)]. }
  { unfold tree_cost in *. by rewrite (weight_frame (ib_nodes b)). }
  exists cs, ns', tf', new. split; [done|]. split; [exact Hall|]. destruct Hdone as [D1 D2 D3 D4 D5 D6 D6n D6f D7 D8 D9 D10].
  assert (grows keep tf tf' (retired (ib_nodes b) (all_ids kids)) (tree_cost h (ib_nodes b) (all_ids kids))) as Hg.
  { unfold tree_cost in *. rewrite (weight_frame (ib_nodes b)) in D10 by done. eapply grows_weaken; [exact D10| |done].
    intros x (i & m & Hi & Hm & Hr). exists i, m. by rewrite Hb1' in Hm. }
  split.
  - split; try done.
    + intros i Hi Hin Hia. rewrite D7; [by apply Hb1|by rewrite Hlen|done|done].
    + by rewrite <-Hlen.
    + by rewrite (weight_frame (ib_nodes b)) in D9.
  - intros x Hx. destruct (env_use _ _ _ _ He x) as [Hu Hkp]; [exists (Z.to_nat nid), n; split; [left|done]|]. split; [|done].
    apply (gr_use _ _ _ _ _ Hg); [done|]. eapply (env_disjoint _ _ _ _ _ [Z.to_nat nid]); [exact He|apply Permutation_cons_append|].
    exists (Z.to_nat nid), n. split; [left|done].
Qed.

Lemma spill_child_ok h : child_spec h.
Proof.
  induction h as [|h IH]; intros [|fuel] b tf pid pn K1 k c ids K2 Hfuel Hp Hpd Ho (Hes & (n & Hn & Hkey) & Ht) Hpid He Hnp; try lia.
  all: destruct Ht as (n' & Hn' & Hdel & Hsp & Ht); rewrite Hn in Hn'; injection Hn' as <-.
  all: rewrite (node_spill_unfold fuel b tf c (Some pid) n Hn Hsp).
  - destruct Ht as (Hd & Hlw & Hls & Hch & -> & Hdp). rewrite Hch. cbn [sort_children mbind res_bind spill_children res_fold].
    rewrite (update_same b c) by (rewrite Hn; f_equal; rewrite <-Hch; by destruct n).
    assert (weight (ib_nodes b) [Z.to_nat c] = data_size (n_data n)) as Ew by (unfold weight, zsum, node_weight; cbn; rewrite Hn; lia).
    pose proof (env_weight _ _ _ _ He) as Hw. rewrite Ew in Hw.
    assert (tree_cost 0 (ib_nodes b) [Z.to_nat c] = spill_cost (n_data n)) as Ec by (unfold tree_cost, spill_cost; rewrite Ew; cbn [length]; lia).
    assert (∀ x, node_range n x → retired (ib_nodes b) [Z.to_nat c] x) as Hret by (intros x Hx; exists (Z.to_nat c), n; split; [left|done]).
    destruct (child_end fuel b tf tf pid pn K1 k K2 c n 0 []) as (ns' & tf' & new & Hsp' & Hdone & Hsz & Hg); try done.
    + intros E. apply Hpid. rewrite E. left.
    + by intros p ?%elem_of_nil.
    + intros key. rewrite Hd. cbn. destruct (k_entries k) as [|e es] eqn:Ek; [done|]. intros [= <-]. right. exists e. rewrite Ek. split; [left|done].
    + by intros p ?%elem_of_nil.
    + constructor.
    + apply (env_wf _ _ _ _ He).
    + apply (env_keep _ _ _ _ He).
    + intros x Hx. apply (env_use _ _ _ _ He). auto.
    + unfold fits. rewrite (env_ps _ _ _ _ He). lia.
    + lia.
    + exists ns', tf', new. split_and!; [done|done|by rewrite Ew|]. rewrite Ec. eapply grows_weaken; [exact Hg|exact Hret|done].
  - destruct Ht as (kids & Hd & Hne & Hko & Hch & Hk & Hok & Ees & -> & Edp). rewrite Edp in He.
    pose proof (weight_pos (ib_nodes b) (all_ids kids)) as Wk. pose proof (data_size_pos (n_data n)) as W0.
    assert (weight (ib_nodes b) (Z.to_nat c :: all_ids kids) = data_size (n_data n) + weight (ib_nodes b) (all_ids kids)) as Ew
      by (unfold weight, zsum, node_weight; cbn [foldr]; by rewrite Hn).
    pose proof (env_weight _ _ _ _ He) as Hw. rewrite Ew in Hw. unfold tree_cost in Hnp. rewrite Ew in Hnp. cbn [length] in Hnp.
    destruct (spill_inner h fuel b tf c n kids IH) as (cs & ns2 & tf2 & new2 & Hsort & Hall & Hkd & Hr2); try done; [lia|unfold tree_cost; nia|].
    rewrite Hsort. cbn [mbind res_bind]. rewrite Hall. cbn [mbind res_bind]. destruct Hkd as [D1 D2 D3 D4 D5 D6 D6n D6f D7 D8 D9 D10].
    rewrite not_elem_of_cons in Hpid. destruct Hpid as [Hpc Hpid]. pose proof (lookup_lt_Some _ _ _ Hp) as Hplt.
    set (n2 := set_data (set_children n cs) (Branches (k_branch <$> new2))) in *.
    assert (data_size (n_data n2) <= data_size (n_data n) + weight (ib_nodes b) (all_ids kids)) as Hsz2 by (rewrite Hd; exact D9).
    destruct (child_end fuel (with_nodes b ns2) tf tf2 pid pn K1 k K2 c n2 (S h) (pages new2)) as (ns' & tf' & new & Hsp' & Hdone & Hsz & Hg); try done.
    + cbn [ib_nodes with_nodes]. by rewrite D7.
    + exists new2. split_and!; try done; [|apply D2|by rewrite Ees, D4].
      intros ->. rewrite Ees, <-D4 in Hes. by apply Hes.
    + by rewrite Edp.
    + intros p Hs. by apply (gr_safe _ _ _ _ _ D10).
    + intros key. cbn [n_data n2 set_data data_first_key]. destruct new2 as [|j new2]; [done|]. intros [= <-].
      destruct (D5 j eq_refl) as (k0 & Hk0 & Hor). specialize (Hok _ Hkey). destruct kids as [|k0' kids]; [done|]. injection Hk0 as ->.
      injection Hok as Hok. unfold head_key. rewrite <-Hok, Ees. exact Hor.
    + apply D10.
    + intros x Hx. by apply (gr_safe _ _ _ _ _ D10), (env_keep _ _ _ _ He).
    + unfold fits. rewrite (grows_pagesize _ _ _ _ _ D10), (env_ps _ _ _ _ He). lia.
    + pose proof (gr_pages _ _ _ _ _ D10) as Hgp. unfold tree_cost, spill_cost in *. nia.
    + exists ns', tf', new. destruct Hdone as [C1 C2 C3 C4 C5 C6 C6n C6f C7 C8]. cbn [ib_nodes with_nodes] in *. split_and!.
      * exact Hsp'.
      * split; try done; [|lia]. intros i Hi Hip Hia. rewrite not_elem_of_cons in Hia. destruct Hia as [Hic Hia].
        rewrite C7; [by apply D7|lia|done|]. by intros [?|?%elem_of_nil]%elem_of_cons.
      * rewrite Ew. lia.
      * eapply grows_weaken; [by eapply grows_trans| |].
        -- intros x [(i & m & Hi & Hm)|Hx]; [exists i, m; split; [by right|done]|]. exists (Z.to_nat c), n. split; [left|done].
        -- unfold tree_cost, spill_cost in *. rewrite Ew. cbn [length]. nia.
Qed.

(** ** Spilling the root *)

Lemma ready_nonempty D h d es pgs : ready D h d es pgs → (0 < data_len d)%nat → es ≠ [].
Proof.
  destruct h; [intros (-> & _); cbn; destruct es; cbn; [lia|done]|]. intros (kids & -> & Hne & _ & Hk & -> & _) _. destruct kids as [|k kids]; [done|].
  apply Forall_cons in Hk as [(_ & _ & _ & Hke & _) _]. unfold entries. cbn. by destruct (k_entries k).
Qed.

Lemma branches_collected b ids new :
  Forall2 (branch_of (ib_nodes b)) ids new → res_map (λ id, n ← node_at b id; branch_from_node n) ids = Ok (k_branch <$> new).
Proof.
  induction 1 as [|id k ids new (m & Hm & Hb) _ IH]; [done|]. cbn [res_map]. assert (node_at b id = Ok m) as -> by (unfold node_at; by rewrite Hm).
  cbn [mbind res_bind]. rewrite Hb. cbn [mbind res_bind]. by rewrite IH.
Qed.

Lemma halved D h qs new es pgs d :
  packed D h qs new es pgs → pieces_of d (fst <$> qs) → Forall (λ q, (2 <= data_len q.1)%nat) qs → (2 * length new <= data_len d)%nat.
Proof.
  intros [Hb _ _ _ _] Hp H2. apply Forall2_length in Hb. rewrite <-Hb. apply pieces_of_len in Hp. rewrite zsum_fmap in Hp.
  assert (2 * Z.of_nat (length qs) <= zsum (λ q : NodeData * PageID, Z.of_nat (data_len q.1)) qs); [|lia].
  clear -H2. unfold zsum. induction H2 as [|q qs Hq _ IH]; cbn [foldr length]; lia.
Qed.

Definition root_cost (m : nat) : Z := Z.of_nat (S m) * (3 * wmax + 2).

(** New roots until one piece holds all branches: each has at most half as many. *)
Lemma root_end m fuel b tf nid n h es pgs :
  (data_len (n_data n) <= m)%nat → (m <= fuel)%nat →
  ib_nodes b !! Z.to_nat nid = Some n → n_deleted n = false → ready (disk_view base tf) h (n_data n) es pgs → (∀ p, p ∈ pgs → good tf p) → NoDup pgs →
  tx_freelist_wf tf → pagesize (tf_meta tf) = ps → (∀ x, keep x → safe tf x) → (∀ x, node_range n x → in_use tf x ∧ ¬ keep x) →
  data_size (n_data n) <= wmax → num_pages (tf_meta tf) + root_cost m <= u64_max →
  ∃ pid ns' tf' h' ps', ('(sibs, b, tf) ← spill_pieces b tf nid; spill_tail fuel sibs b tf nid None) = Ok (Some pid, with_nodes b ns', tf') ∧
    disk_tree (disk_view base tf') h' pid es ps' ∧ (∀ p, p ∈ ps' → good tf' p) ∧ NoDup ps' ∧ grows keep tf tf' (node_range n) (root_cost m).
Proof.
  revert fuel b tf nid n h es pgs. induction m as [|m IH]; intros fuel b tf nid n h es pgs Hm Hfuel Hn Hdel Hr Hsafe Hpnd Hwf Hps Hkeep Hrange Hsz Hnp.
  all: pose proof (data_size_pos (n_data n)) as W0; unfold root_cost in Hnp.
  all: assert (spill_cost (n_data n) <= 3 * wmax + 2) as Hc by (unfold spill_cost; lia).
  all: destruct (spill_finish b tf nid n h es pgs Hn Hdel Hr Hsafe Hpnd Hwf Hkeep Hrange ltac:(unfold fits; rewrite Hps; lia) ltac:(nia))
    as (sibs & ns1 & tf1 & qs & Hsp & Hg & Hst & Hpo & Hfp & Hok & Hfr & Hlen & Hids & Hsib & Hr' & Hnew).
  all: rewrite Hsp; cbn [mbind res_bind]; inversion Hst as [|? q0 ? qs0 Hst0 Hst']; subst; destruct Hst0 as (m0 & Hm0 & Hmd & Hmp & Hon & Hu).
  all: unfold spill_tail at 1; assert (node_at (with_nodes b ns1) nid = Ok m0) as -> by (unfold node_at; cbn; by rewrite Hm0); cbn [mbind res_bind].
  all: destruct sibs as [sibs|].
  2, 4: destruct qs0 as [|]; [|done]; exists (n_page_id m0), ns1, tf1, h, (q0.2 :: pgs); rewrite Hmp; split_and!; [done| | | |eapply grows_weaken; [exact Hg|done|unfold root_cost; nia]];
    [apply (ready_tree _ _ _ (n_data n)); [done|]; destruct Hon as (B & HB & Hd); unfold disk_view; rewrite HB, Hd; f_equal; symmetry; by apply pieces_of_single
    |intros p [->|Hp]%elem_of_cons; [destruct Hon as (B & HB & _); split; [by apply safe_in_use|right; by rewrite HB]|by eapply good_grows, Hsafe]
    |destruct Hfp as [_ [Hns _]%Forall_cons]; constructor; [by intros [? _]%Hsafe|done]].
  - pose proof (piece_len _ _ _ Hpo (list_elem_of_here _ _)). apply Forall_cons in Hsib as [H2 _]. lia.
  - assert (es ≠ []) as Hes.
    { eapply ready_nonempty; [exact Hr|]. pose proof (piece_len _ _ _ Hpo (list_elem_of_here _ _)). apply Forall_cons in Hsib as [H2 _]. lia. }
    destruct (Hnew Hes) as (new & Hpk & Hbr & Hpgs & Hnnd). pose proof (halved _ _ _ _ _ _ _ Hpk Hpo Hsib) as Hhalf.
    change (nid :: default [] (Some sibs)) with (nid :: sibs) in Hbr. rewrite (branches_collected (with_nodes b ns1) _ _ Hbr). cbn [mbind res_bind].
    assert (new ≠ []) as Hne by (intros ->; by rewrite <-(pk_entries _ _ _ _ _ _ Hpk) in Hes).
    unfold new_node, node_with_data. destruct (data_first_key_ok (Branches (k_branch <$> new))) as [key Hkey]; [cbn; rewrite length_fmap; destruct new; [done|cbn; lia]|].
    rewrite Hkey. cbn [mbind res_bind ib_nodes with_nodes]. set (np := mkNode _ _ _ _ _ _ _ _ _ _). set (b2 := with_nodes (with_nodes b ns1) (ns1 ++ [np])).
    assert (ib_nodes b2 !! Z.to_nat (Z.of_nat (length ns1)) = Some np) as Hnp2 by (rewrite Nat2Z.id; cbn; by rewrite lookup_app_r, Nat.sub_diag by done).
    destruct fuel as [|fuel]; [lia|]. rewrite (node_spill_unfold fuel b2 tf1 _ None np Hnp2 eq_refl). cbn [n_children np sort_children mbind res_bind spill_children res_fold].
    change (update_node b2 (Z.of_nat (length ns1)) (set_children np [])) with (update_node b2 (Z.of_nat (length ns1)) np). rewrite (update_same b2 _ np Hnp2).
    destruct (IH fuel b2 tf1 (Z.of_nat (length ns1)) np (S h) es (pages new)) as (pid & ns' & tf' & h' & ps' & Hsp2 & Htree & Hps2 & Hnd2 & Hg2); try done.
    + cbn. rewrite length_fmap. lia.
    + lia.
    + exists new. split_and!; try done; [apply Hpk|apply Hpk|symmetry; apply Hpk].
    + apply Hg.
    + apply (grows_pagesize _ _ _ _ _ Hg).
    + intros x Hx. by apply (gr_safe _ _ _ _ _ Hg), Hkeep.
    + by intros x [? _].
    + pose proof (packed_size _ _ _ _ _ _ _ Hpk Hpo) as Hs. unfold branch_sizes in Hs. cbn [n_data np]. lia.
    + pose proof (gr_pages _ _ _ _ _ Hg). unfold root_cost. nia.
    + rewrite Hsp2. cbn [mbind res_bind unwrap]. exists pid, ns', tf', h', ps'. split_and!; try done.
      eapply grows_weaken; [by eapply grows_trans|intros x [?|[? _]]; done|]. unfold root_cost. nia.
Qed.

(** Levels a root can grow by. *)
Definition max_branches : nat := Z.to_nat (wmax / 24).

Lemma data_len_max d : data_size d <= wmax → (data_len d <= max_branches)%nat.
Proof.
  intros Hs. pose proof (data_size_len d). unfold max_branches. apply Nat2Z.inj_le. rewrite Z2Nat.id by (apply Z.div_pos; lia).
  apply Z.div_le_lower_bound; lia.
Qed.

Lemma node_spill_tree fuel b tf h nid es ids dp :
  node_tree (ib_nodes b) (disk_view base tf) h nid es ids dp → env (ib_nodes b) tf ids dp → (h < fuel)%nat → (max_branches <= fuel)%nat →
  num_pages (tf_meta tf) + tree_cost h (ib_nodes b) ids + root_cost max_branches <= u64_max →
  ∃ pid ns' tf' h' ps', node_spill (S fuel) b tf nid None = Ok (Some pid, with_nodes b ns', tf') ∧
    disk_tree (disk_view base tf') h' pid es ps' ∧ (∀ p, p ∈ ps' → good tf' p) ∧ NoDup ps' ∧
    grows keep tf tf' (retired (ib_nodes b) ids) (tree_cost h (ib_nodes b) ids + root_cost max_branches).
Proof.
  intros Ht He Hfuel Hmax Hnp. pose proof (weight_pos (ib_nodes b) ids) as Wpos. pose proof (env_weight _ _ _ _ He) as Hw.
  assert (0 <= root_cost max_branches) as Hrc by (unfold root_cost; nia).
  destruct h as [|h]; destruct Ht as (n & Hn & Hdel & Hsp & Ht); rewrite (node_spill_unfold fuel b tf nid None n Hn Hsp).
  - destruct Ht as (Hd & Hlw & Hls & Hch & -> & ->). rewrite Hch. cbn [sort_children mbind res_bind spill_children res_fold].
    rewrite (update_same b nid) by (rewrite Hn; f_equal; rewrite <-Hch; by destruct n).
    assert (weight (ib_nodes b) [Z.to_nat nid] = data_size (n_data n)) as Ew by (unfold weight, zsum, node_weight; cbn; rewrite Hn; lia). rewrite Ew in Hw.
    assert (0 <= tree_cost 0 (ib_nodes b) [Z.to_nat nid]) as Htc by (unfold tree_cost; lia).
    destruct (root_end max_branches fuel b tf nid n 0 es []) as (pid & ns' & tf' & h' & ps' & Hsp' & Htree & Hgood & Hnd & Hg); try done.
    + by apply data_len_max.
    + by intros p ?%elem_of_nil.
    + constructor.
    + apply (env_wf _ _ _ _ He).
    + apply (env_ps _ _ _ _ He).
    + apply (env_keep _ _ _ _ He).
    + intros x Hx. apply (env_use _ _ _ _ He). exists (Z.to_nat nid), n. split; [left|done].
    + lia.
    + exists pid, ns', tf', h', ps'. split_and!; try done. eapply grows_weaken; [exact Hg| |lia]. intros x Hx. exists (Z.to_nat nid), n. split; [left|done].
  - destruct Ht as (kids & Hd & Hne & Hko & Hch & Hk & Hok & -> & -> & ->).
    pose proof (weight_pos (ib_nodes b) (all_ids kids)) as Wk. pose proof (data_size_pos (n_data n)) as W0.
    assert (weight (ib_nodes b) (Z.to_nat nid :: all_ids kids) = data_size (n_data n) + weight (ib_nodes b) (all_ids kids)) as Ew
      by (unfold weight, zsum, node_weight; cbn [foldr]; by rewrite Hn).
    rewrite Ew in Hw. unfold tree_cost in Hnp. rewrite Ew in Hnp. cbn [length] in Hnp.
    destruct (spill_inner h fuel b tf nid n kids (spill_child_ok h)) as (cs & ns2 & tf2 & new2 & Hsort & Hall & Hkd & Hr2); try done; [lia|unfold tree_cost; nia|].
    rewrite Hsort. cbn [mbind res_bind]. rewrite Hall. cbn [mbind res_bind]. destruct Hkd as [D1 D2 D3 D4 D5 D6 D6n D6f D7 D8 D9 D10].
    set (n2 := set_data (set_children n cs) (Branches (k_branch <$> new2))) in *.
    assert (data_size (n_data n2) <= data_size (n_data n) + weight (ib_nodes b) (all_ids kids)) as Hsz2 by (rewrite Hd; exact D9).
    destruct (root_end max_branches fuel (with_nodes b ns2) tf2 nid n2 (S h) (entries (sk_kid <$> kids)) (pages new2))
      as (pid & ns' & tf' & h' & ps' & Hsp' & Htree & Hgood & Hnd & Hg); try done.
    + apply data_len_max. lia.
    + exists new2. split_and!; try done; [|apply D2]. intros ->.
      assert (∃ k, k ∈ sk_kid <$> kids ∧ k_entries k ≠ []) as (k & Hkin & Hke).
      { destruct kids as [|k kids]; [done|]. exists (sk_kid k). split; [left|]. apply Forall_cons in Hk as [Hk _]. unfold kid_ok in Hk.
        destruct (sk_node k); [by destruct Hk|]. by destruct Hk as [(_ & _ & _ & ? & _) _]. }
      destruct (k_entries k) as [|e es] eqn:Eke; [done|]. assert (e ∈ entries (sk_kid <$> kids)) as He' by (apply elem_of_entries; exists k; rewrite Eke; split; [done|left]).
      rewrite <-D4 in He'. by apply elem_of_nil in He'.
    + apply D10.
    + by rewrite (grows_pagesize _ _ _ _ _ D10), (env_ps _ _ _ _ He).
    + intros x Hx. by apply (gr_safe _ _ _ _ _ D10), (env_keep _ _ _ _ He).
    + lia.
    + pose proof (gr_pages _ _ _ _ _ D10) as Hgp. unfold tree_cost in *. nia.
    + exists pid, ns', tf', h', ps'. split_and!; try done. eapply grows_weaken; [by eapply grows_trans| |].
      * intros x [(i & m & Hi & Hm)|Hx]; [exists i, m; split; [by right|done]|]. exists (Z.to_nat nid), n. split; [left|done].
      * unfold tree_cost in *. rewrite Ew. cbn [length]. nia.
Qed.

End spill.

(** A bucket without open sub-buckets is spilled by spilling its root node. *)
Lemma spill_root fuel st tf r b nid pid b' tf' :
  st !! r = Some b → ib_dirty b = true → ib_buckets b = ∅ → ib_page_node_ids b !! root_of b = Some nid →
  node_spill (S fuel) b tf nid None = Ok (Some pid, b', tf') →
  ∃ st', spill (S fuel) st tf r = Ok (mkBucketMeta pid (next_int (ib_meta b')), st', tf').
Proof.
  intros Hb Hdirty Hsub Hroot Hsp.
  cbn [spill is_dirty]. unfold bucket_at. rewrite Hb. cbn [unwrap mbind res_bind]. rewrite Hdirty. cbn [mbind res_bind]. rewrite Hb. cbn [unwrap mbind res_bind negb].
  assert (sub_buckets b = []) as -> by (unfold sub_buckets; by rewrite Hsub, map_to_list_empty). cbn [res_fold mbind res_bind].
  rewrite Hb. cbn [unwrap mbind res_bind res_fold]. rewrite Hroot. cbn [unwrap mbind res_bind]. rewrite Hsp. cbn [mbind res_bind unwrap].
  eexists. done.
Qed.


(** ** A new bucket with six long values *)

Module Filled.

Definition value : bytes := replicate 300 Byte.x2a.
Definition keys : list bytes := (λ k, [k]) <$> [Byte.x61; Byte.x62; Byte.x63; Byte.x64; Byte.x65; Byte.x66].

(** The bucket after the puts. *)
Definition bucket : InnerBucket :=
  match res_fold (λ b k, '(_, b) ← inner_put 2 b k value; Ok b) (new_child_bucket (mkPages Demo.disk 1024)) keys with
  | Ok b => b
  | _ => new_child_bucket (mkPages Demo.disk 1024)
  end.
Definition leaves : list Leaf := (λ k, LKv k value) <$> keys.

Lemma bucket_nodes : ib_nodes bucket = [mkNode 0 0 0 [] (Leaves leaves) false None None 1024 false].
Proof. vm_compute. reflexivity. Qed.

Lemma bucket_tree D : node_tree (ib_nodes bucket) D 0 0 leaves [O] [].
Proof.
  rewrite bucket_nodes. eexists. do 3 (split; [reflexivity|]). split; [reflexivity|]. split; [repeat constructor|].
  split; [apply (bool_decide_unpack _); vm_compute; exact I|]. done.
Qed.

Lemma bucket_env_any keep old tf :
  tx_freelist_wf tf → pagesize (tf_meta tf) = 1024 → (∀ x, keep x → safe tf x) → env keep old 1024 2000 (ib_nodes bucket) tf [O] [].
Proof.
  intros Hwf Hps Hkeep. rewrite bucket_nodes. split; [done|done|done|..].
  - intros x (i & n & ->%list_elem_of_singleton & [= <-] & [Hne _]). by destruct Hne.
  - by intros i j n m x ->%list_elem_of_singleton ->%list_elem_of_singleton.
  - by intros p ?%elem_of_nil.
  - constructor.
  - apply NoDup_singleton.
  - apply Z.leb_le. vm_compute. reflexivity.
Qed.

Lemma writer_ready : tx_freelist_wf (w_freelist Demo.writer) ∧ pagesize (tf_meta (w_freelist Demo.writer)) = 1024.
Proof.
  destruct (@begin_write_ok toy_digest Demo.disk 1024 _ _ None Demo.disk_ok) as (w & Hb & _ & _ & _ & Hok).
  assert (w = Demo.writer) as -> by (unfold Demo.writer; rewrite Hb; reflexivity).
  split; [exact (tx_wf _ _ _ _ Hok)|]. vm_compute. reflexivity.
Qed.

Lemma writer_keeps x :
  freelist_page (w_meta Demo.writer) <= x < freelist_page (w_meta Demo.writer) + w_num_freelist_pages Demo.writer → safe (w_freelist Demo.writer) x.
Proof.
  destruct (@begin_write_ok toy_digest Demo.disk 1024 _ _ None Demo.disk_ok) as (w & Hb & _ & _ & _ & Hok).
  assert (w = Demo.writer) as -> by (unfold Demo.writer; rewrite Hb; reflexivity).
  intros Hx. destruct (tx_keep _ _ _ _ Hok x Hx) as (H1 & H2 & _). split; [exact (proj2 H1)|exact H2].
Qed.

Lemma bucket_env old : env (λ _, False) old 1024 2000 (ib_nodes bucket) (w_freelist Demo.writer) [O] [].
Proof. apply bucket_env_any; [apply writer_ready..|intros x []]. Qed.

End Filled.

