(* ===== verification/Reopen.v ===== *)
(** * The tree after the commit

    A tree of pages that the transaction sees through its dirty pages
    ([SpillTree.disk_view]) is, once the transaction is committed, a well-formed
    bucket of the file: the dirty blocks are sealed and in place, and no block of
    the commit touches the pages of the tree that were kept. *)

From S2P Require Import Prelude Search Support Layout Meta Freelist Node Page PageNode Inner Spill Db Commit Tx Persist SpillWrite SpillTree.

(** ** Trees on disk as buckets *)

(** A page of a file, read as a node. *)
Definition file_view (f : bytes) (ps : Z) (p : PageID) : res NodeData := q ← node_page f p ps; data_from_page f q.

Lemma ordered_separated kids : StronglySorted before kids → Forall low kids → separated kids.
Proof.
  intros Hs Hl i k e Hi He. rewrite Forall_forall in Hl. split.
  - intros _. apply Hl; [by eapply list_elem_of_lookup_2|done].
  - intros k' Hi'. rewrite <-(take_drop i kids) in Hs. rewrite (drop_S kids k i Hi) in Hs.
    apply StronglySorted_app in Hs as (_ & _ & [Hall _]%StronglySorted_cons). rewrite Forall_forall in Hall. apply (Hall k'); [|done].
    apply (list_elem_of_lookup_2 _ 0). rewrite lookup_drop. by rewrite Nat.add_0_r.
Qed.

Lemma entries_sorted kids :
  StronglySorted before kids → Forall low kids → Forall (λ k, keys_sorted leaf_key (k_entries k)) kids → keys_sorted leaf_key (entries kids).
Proof.
  induction kids as [|k kids IH]; [intros; constructor|]. intros [Hall Hs]%StronglySorted_cons [_ Hl]%Forall_cons [Hk Hks]%Forall_cons.
  change (entries (k :: kids)) with (k_entries k ++ entries kids). apply keys_sorted_app. split_and!; [|done|by apply IH].
  intros a c Ha (j & Hj & Hc)%elem_of_entries. rewrite Forall_forall in Hall, Hl. eapply lex_lt_le_trans; [by apply (Hall j Hj)|by apply Hl].
Qed.

Lemma disk_tree_sorted D h p es ps : disk_tree D h p es ps → keys_sorted leaf_key es.
Proof.
  revert p es ps. induction h as [|h IH]; intros p es ps; [by intros (_ & _ & ? & _)|]. intros (kids & _ & _ & Hs & Hk & -> & _).
  apply entries_sorted; [done|eapply Forall_impl; [exact Hk|]; by intros k (_ & _ & ? & _)|].
  eapply Forall_impl; [exact Hk|]. intros k (_ & _ & _ & _ & Ht). by eapply IH.
Qed.

Lemma disk_tree_tree b D h p es ps : (∀ q, q ∈ ps → page_data b q = D q) → disk_tree D h p es ps → tree b h p es ps.
Proof.
  revert p es ps. induction h as [|h IH]; intros p es ps Hd.
  - intros (HD & _ & _ & ->). split; [|done]. rewrite Hd by left. done.
  - intros (kids & HD & Hne & Hs & Hk & -> & ->). exists kids. rewrite Hd by left. split_and!; try done.
    + by apply ordered_keys.
    + apply ordered_separated; [done|]. eapply Forall_impl; [exact Hk|]. by intros k (_ & _ & ? & _).
    + eapply Forall_impl_in; [exact Hk|]. intros k Hin (_ & Hp & _ & _ & Ht). split; [done|]. apply IH; [|done].
      intros q Hq. apply Hd. right. apply elem_of_pages. eauto.
Qed.

Lemma disk_tree_root D h p es ps : disk_tree D h p es ps → p ∈ ps.
Proof. destruct h; [intros (_ & _ & _ & ->); left|intros (kids & _ & _ & _ & _ & _ & ->); left]. Qed.

Lemma disk_tree_nonempty D h p es ps q : disk_tree D h p es ps → q ∈ ps → D q = Ok (Leaves []) → q = p ∧ es = [].
Proof.
  revert p es ps. induction h as [|h IH]; intros p es ps.
  - intros (HD & _ & _ & ->) [->|?%elem_of_nil]%elem_of_cons E; [|done]. rewrite HD in E. by injection E as ->.
  - intros (kids & HD & _ & _ & Hk & -> & ->) [->|(k & Hin & Hq)%elem_of_pages]%elem_of_cons E; [by rewrite HD in E|].
    rewrite Forall_forall in Hk. destruct (Hk k Hin) as (_ & _ & _ & Hne & Ht). by destruct (IH _ _ _ Ht Hq E).
Qed.

(** A bucket of a file, as its next user opens it. *)
Definition reopened (f : bytes) (ps : Z) (m : BucketMeta) : InnerBucket := from_meta m (mkPages f ps).

Lemma disk_tree_bucket f ps m h es pgs :
  disk_tree (file_view f ps) h (root_page m) es pgs → NoDup pgs → bucket_wf (reopened f ps m) h es pgs.
Proof.
  intros Ht Hnd. assert (∀ q, page_data (reopened f ps m) q = file_view f ps q) as Hd.
  { intros q. rewrite page_data_unfold. cbn [reopened from_meta ib_page_node_ids]. by rewrite lookup_empty. }
  split.
  - eapply disk_tree_tree; [|exact Ht]. done.
  - done.
  - by eapply disk_tree_sorted.
  - split; by intros ???.
  - intros q Hq Hne _ E. rewrite Hd in E. by destruct (disk_tree_nonempty _ _ _ _ _ _ Ht Hq E).
Qed.

(** ** Pages of the committed file *)

Lemma file_view_same f f' ps p q :
  1024 <= ps → 0 <= p → len_u64 f <= isize_max → len_u64 f' <= isize_max → len_u64 f <= len_u64 f' → node_page f p ps = Ok q →
  (∀ x i, p <= x <= p + page_overflow_at f q → x * ps <= Z.of_nat i < x * ps + ps → f' !! i = f !! i) →
  file_view f' ps p = file_view f ps p.
Proof.
  intros Hps Hp Hl Hl' Hle Hn Hsame. unfold file_view. rewrite Hn. cbn [mbind res_bind].
  apply node_page_spec in Hn as [(L & (Eq & Hal & Eid & Ht & -> & Hmin & Hend) & Hlay)%validate_structure_spec Hty]; [|done|done|lia].
  set (L := (page_overflow_at f q + 1) * ps) in *. unfold len_u64 in *.
  assert (take (Z.to_nat L) (drop q f') = take (Z.to_nat L) (drop q f)) as E.
  { apply block_ext. intros i Hi. apply (Hsame (Z.of_nat i / ps)).
    - pose proof (Z.div_mod (Z.of_nat i) ps ltac:(lia)). pose proof (Z.mod_pos_bound (Z.of_nat i) ps ltac:(lia)). unfold L in *. nia.
    - pose proof (Z.div_mod (Z.of_nat i) ps ltac:(lia)). pose proof (Z.mod_pos_bound (Z.of_nat i) ps ltac:(lia)). nia. }
  set (B := take (Z.to_nat L) (drop q f)) in *.
  assert (length B = Z.to_nat L) as HB by (unfold B; rewrite length_take, length_drop; lia).
  destruct (page_prefix f q B (Z.to_nat L)) as (Bid & Bty & _ & Bov & Blay & Bd); [unfold B; by rewrite take_take, Nat.min_id|lia..|].
  destruct (page_prefix f' q B (Z.to_nat L)) as (Fid & Fty & _ & Fov & Flay & Fd); [rewrite E; unfold B; by rewrite take_take, Nat.min_id|lia..|].
  assert (layout_ok B 0 (L - CHECKSUM_SIZE)) as HlB by (apply Blay; [unfold CHECKSUM_SIZE; lia|done]).
  assert (node_page f' p ps = Ok q) as ->.
  { apply node_page_spec. split; [|by rewrite Fty, <-Bty]. apply validate_structure_spec; [done|done|lia|]. exists L. split; [|apply Flay; [unfold CHECKSUM_SIZE; lia|done]].
    unfold span_ok, len_u64. rewrite Fid, Fty, Fov, <-Bid, <-Bty, <-Bov. unfold L in *. split_and!; try done; lia. }
  cbn [mbind res_bind]. rewrite (Fd (L - CHECKSUM_SIZE)), (Bd (L - CHECKSUM_SIZE)) by (done || (unfold CHECKSUM_SIZE; lia)). done.
Qed.

Section commit.
Context `{D : Digest} (cfg : DbConfig) (file : bytes) (m0 m : Meta) (nfp : Z) (tf : TxFreelist) (pl : Plan).
Hypothesis Hco : commit_of cfg file m0 m nfp tf pl.
Let ps := db_pagesize cfg.
Let C := committed file pl.

Lemma committed_length : len_u64 file <= len_u64 C ∧ len_u64 C <= isize_max.
Proof.
  destruct (commit_freelist _ _ _ _ _ _ _ Hco) as (fp & tf1 & _ & _ & _ & _ & _ & _ & _ & _ & _ & _ & Hlen).
  destruct (data_written_current _ _ _ _ _ _ _ Hco) as [_ El]. destruct (committed_torn _ _ _ _ _ _ _ Hco) as [El2 _].
  pose proof (co_len _ _ _ _ _ _ _ Hco) as Hmax. unfold C, len_u64 in *. lia.
Qed.

(** Writing the freelist adds its page and keeps the other dirty pages. *)
Lemma write_freelist_kept fp tf1 p B :
  write_freelist tf (freelist_page m) nfp = Ok (fp, tf1) → tf_pages tf !! p = Some B → tf_pages tf1 !! p = Some B.
Proof.
  intros Ef HB. pose proof Hco as [_ [Ep _] _ Hwf Hret Hu Hsz Hnp _ _ _ _ _ _]. rewrite <-Ep in Hsz, Hnp.
  destruct (write_freelist_steps tf _ nfp Hwf Hret Hu Hsz Hnp fp tf1 Ef) as (tf2 & B' & Ea & -> & _).
  pose proof (tx_free_wf tf (freelist_page m) nfp Hwf Hret) as Hwf0. destruct (tx_free_spec tf (freelist_page m) nfp) as (Em & Eb & Efr & _).
  set (size := freelist_size (tf_inner (tx_free tf (freelist_page m) nfp))) in *. pose proof Hwf as (Hps & _ & _ & Hblk & Hin & _).
  destruct (tx_allocate_inv (tx_free tf (freelist_page m) nfp) size fp tf2) as (H0 & m' & fl' & -> & _ & _ & _ & _ & _ & Hnew);
    [done|rewrite Em; unfold u64_max, isize_max in *; lia|by rewrite Em|done|]. rewrite Em, Efr in Hnew.
  destruct (Hblk p) as [k Hdb]; [by rewrite HB|]. destruct (Hin p k p Hdb) as [Hp Hpf]; [destruct Hdb; lia|].
  assert (p ≠ fp) as Hne.
  { intros ->. pose proof (pages_for_pos (pagesize (tf_meta tf)) size Hps H0 ltac:(unfold u64_max, isize_max in *; lia)).
    destruct (Hnew fp) as (_ & _ & [?|?]); [lia|done|lia]. }
  cbn [tf_pages set_page_buf]. rewrite !lookup_insert_ne by done. by rewrite Eb.
Qed.

(** A dirty page is in place, sealed. *)
Lemma committed_dirty p B d :
  tf_pages tf !! p = Some B → block_data ps p B = Ok d → file_view C ps p = Ok d.
Proof.
  intros HB Hd. pose proof (co_current _ _ _ _ _ _ _ Hco) as (Hps & Hal & _). fold ps in Hps, Hal.
  destruct (commit_freelist _ _ _ _ _ _ _ Hco) as (fp & tf1 & Ef & Hwf1 & Ep1 & Hmax & _ & _ & _ & _ & Es & Hnl & _). fold ps in Ep1, Hnl.
  pose proof (write_freelist_kept fp tf1 p B Ef HB) as HB1. unfold block_data in Hd. res_inv. bool_to_prop. destruct a2.
  pose proof Hwf1 as (_ & _ & _ & Hblk & Hin & _). destruct (Hblk p) as [k Hdb]; [by rewrite HB1|].
  destruct (Hin p k p Hdb) as [Hp _]; [destruct Hdb; lia|].
  assert (page_type_at B 0 = TYPE_BRANCH ∨ page_type_at B 0 = TYPE_LEAF) as Hty by (apply orb_prop in E3 as [?|?]; bool_to_prop; auto).
  assert (known_page_type (page_type_at B 0) = true) as Hkn by (by destruct Hty as [->| ->]).
  assert (72 <= len_u64 B) as H72 by nia. destruct (seal_block_ok B) as (S & HS & _); [unfold len_u64 in *; lia|].
  destruct (write_data_inv _ _ _ _ _ _ (co_plan _ _ _ _ _ _ _ Hco)) as (fp' & tf1' & _ & Ef' & _ & Hmx & _).
  rewrite Ef in Ef'. injection Ef' as <- <-. fold ps in Hmx.
  destruct (commit_block_stored _ _ _ _ _ _ _ Hco (ps * p) S) as (Hst & H1 & Hend & Hl).
  { apply (seal_blocks_elem _ _ _ _ _ Es). exists p, B. split_and!; try done. fold ps. nia. }
  fold C in Hst, Hend, Hl. rewrite (Z.mul_comm ps) in Hst, Hend.
  assert (len_u64 S = len_u64 B) as ES by (unfold len_u64; by rewrite (length_seal B S HS)).
  assert (layout_ok B 0 (len_u64 B - CHECKSUM_SIZE)) as Hlay.
  { apply validate_layout_spec; [unfold isize_max, u64_max, CHECKSUM_SIZE in *; nia|done|done]. }
  destruct (stored_page_valid C B S p ps (page_overflow_at B 0 + 1)) as [_ Hv]; try done; try lia.
  destruct (stored_page_data C B S p ps (page_overflow_at B 0 + 1)) as [Hdat Ht]; try done; try lia.
  unfold Page.stored in Hv, Hdat, Ht. rewrite Hst in Hv, Hdat, Ht. unfold file_view.
  assert (node_page C p ps = Ok (Z.to_nat (p * ps))) as -> by (apply node_page_spec; split; [done|by rewrite Ht]).
  cbn [mbind res_bind]. by rewrite Hdat.
Qed.

(** A kept page reads as before. *)
Lemma committed_kept p q :
  0 <= p → num_pages m0 * ps <= len_u64 file → node_page file p ps = Ok q →
  (∀ x, p <= x <= p + page_overflow_at file q → 2 <= x < num_pages (tf_meta tf) ∧ x < num_pages m0 ∧ (x ∉ free_pages (tf_inner tf)) ∧
     ∀ q k, dirty_block tf q k → ¬ (q <= x < q + k)) →
  file_view C ps p = file_view file ps p.
Proof.
  intros Hp Hlen Hq Hx. pose proof (co_current _ _ _ _ _ _ _ Hco) as (Hps & _). fold ps in Hps. destruct committed_length as [H1 H2].
  eapply file_view_same; try done; [lia|]. intros x i Hr Hi. destruct (Hx x Hr) as (X1 & X2 & X3 & X4).
  apply (block_lookup file C (Z.to_nat (x * ps)) (Z.to_nat ps)); [|nia].
  apply (commit_page_kept cfg file m0 m nfp tf pl x C Hco); try done; [right; by eapply committed_torn|nia].
Qed.

End commit.

(** The block of a page, all of it in use. *)
Definition live_block (file : bytes) (ps : Z) (live : PageID → Prop) (p : PageID) : Prop :=
  0 <= p ∧ ∃ q, node_page file p ps = Ok q ∧ ∀ x, p <= x <= p + page_overflow_at file q → live x.

(** Pages of the file that the transaction may not give out again. *)
Definition in_file (m0 : Meta) (fl : Freelist) (oldest : option Z) (x : PageID) : Prop :=
  2 <= x < num_pages m0 ∧ x ∉ free_pages (release fl (default (tx_id m0 + 1) oldest)).

(** A tree of pages the transaction wrote, and pages of the file whose blocks were
    in use when it began, is after the commit a bucket of the file. *)
Lemma committed_tree `{D : Digest} (cfg : DbConfig) (file : bytes) (m0 : Meta) (fl : Freelist) (oldest : option Z) (w : WriteTx)
    (tf : TxFreelist) (r : BucketMeta) (pl : Plan) (h : nat) (meta : BucketMeta) (es : list Leaf) (pgs : list PageID) :
  db_ok file (db_pagesize cfg) m0 fl → tx_run cfg file oldest w tf r pl →
  disk_tree (disk_view (file_view file (db_pagesize cfg)) tf) h (root_page meta) es pgs → NoDup pgs →
  (∀ p, p ∈ pgs → good (live_block file (db_pagesize cfg) (in_file m0 fl oldest)) tf p) →
  bucket_wf (reopened (committed file pl) (db_pagesize cfg) meta) h es pgs.
Proof.
  intros Hok Hrun Ht Hnd Hgood. destruct (tx_run_commit _ _ _ _ _ _ _ _ _ Hok Hrun) as (Htx & Enp0 & _ & Hco).
  apply disk_tree_bucket; [|done]. eapply disk_tree_ext_ok; [|exact Ht]. intros p d Hp Hd.
  destruct (Hgood p Hp) as [Hsafe Hor]. unfold disk_view in Hd. destruct (tf_pages tf !! p) as [B|] eqn:EB.
  - rewrite (proj1 (co_pagesize _ _ _ _ _ _ _ Hco)) in Hd. by eapply committed_dirty.
  - destruct Hor as [(H0 & q & Hq & Hlive)|[? ?]]; [|done]. rewrite <-Hd. eapply committed_kept; try done; [apply Hok|].
    intros x Hx. destruct (Hlive x Hx) as [X1 X2]. destruct Htx as [_ _ Hgr _ _ Hsub Hdirty]. rewrite Enp0 in Hgr, Hdirty. split_and!; try lia.
    + set_solver.
    + intros y k Hdb Hy. destruct (Hdirty y k x Hdb Hy); [done|lia].
Qed.


(** ** The bucket of [Filled], committed to a new file *)

Module FilledCommit.

Definition spilled := spill 90 {[0 := Filled.bucket]} (w_freelist Demo.writer) 0.

(** The commit can be written, and its sizes fit. *)
Definition plan_fits : bool :=
  match spilled with
  | Ok (meta, _, tf) =>
      let m := set_root (w_meta Demo.writer) meta in
      let nfp := w_num_freelist_pages Demo.writer in
      let size := freelist_size (tf_inner (tx_free tf (freelist_page m) nfp)) in
      match @write_data toy_digest Demo.cfg (len_u64 Demo.disk) m nfp tf with
      | Ok pl => (size + CHECKSUM_SIZE + 1024 <=? isize_max) && (num_pages (tf_meta tf) + pages_for 1024 size <=? u64_max) &&
                 (len_u64 (extend_to Demo.disk (pl_size pl)) <=? isize_max) &&
                 ((0 <=? root_page meta) && (root_page meta <? u64_mod)) && ((0 <=? next_int meta) && (next_int meta <? u64_mod))
      | _ => false
      end
  | _ => false
  end.

Lemma plan_ok meta st tf :
  spilled = Ok (meta, st, tf) →
  ∃ pl, @write_data toy_digest Demo.cfg (len_u64 Demo.disk) (set_root (w_meta Demo.writer) meta) (w_num_freelist_pages Demo.writer) tf = Ok pl ∧
    commit_fits Demo.cfg Demo.disk (set_root (w_meta Demo.writer) meta) (w_num_freelist_pages Demo.writer) tf pl.
Proof.
  intros E. assert (plan_fits = true) as H by (vm_compute; reflexivity). unfold plan_fits in H. rewrite E in H.
  destruct (write_data _ _ _ _ _) as [pl| |]; [|discriminate H..]. exists pl. split; [reflexivity|].
  apply andb_prop in H as [[[[H1%Z.leb_le H2%Z.leb_le]%andb_prop H3%Z.leb_le]%andb_prop H4]%andb_prop H5].
  apply andb_prop in H4 as [H4%Z.leb_le H4'%Z.ltb_lt], H5 as [H5%Z.leb_le H5'%Z.ltb_lt].
  split; [reflexivity|exact H1|exact H2|exact H3|exact (conj (conj H4 H4') (conj H5 H5'))].
Qed.

End FilledCommit.

