(* ===== verification/Isolation.v ===== *)
(** * Readers and writers together

    The protocol of [Tx::new], [Tx::commit] and the end of transactions
    ([src/src/api/tx.rs]) over one file as a state machine.  A reader holds the
    shared gate while it reads the metadata and registers its snapshot; a writer
    holds the exclusive gate from its start to its end, so no reader starts in
    between, but the registered ones go on reading.  A writer may roll back, fail
    or die at any point: while it works, while it writes data, while it publishes.
    Every open snapshot keeps its pages, and the file stays a consistent database. *)

From S2P Require Import Prelude Search Support Layout Meta Freelist Node Page PageNode Inner Spill Db Commit Tx Coordination Persist SpillWrite SpillTree Reopen.

(** ** The state *)

(** A registered reader: the metadata it reads, and the file and the freelist at
    its start. *)
Record Reader := mkReader { rd_meta : Meta; rd_freelist : Freelist; rd_file : bytes }.

(** The writer, if there is one. *)
Inductive Phase :=
  | Idle
  | Working (w : WriteTx) (tf : TxFreelist)
  | Writing (base : bytes) (pl : Plan)
  | Publishing (base : bytes) (pl : Plan).

Record System := mkSystem { sy_file : bytes; sy_readers : gmap Z Reader; sy_phase : Phase }.

(** What the slots announce. *)
Definition announced (readers_ : gmap Z Reader) : gmap Z (option Z) := (λ r, Some (tx_id (rd_meta r))) <$> readers_.

(** A write that was cut short leaves of each byte the old or the new value. *)
Definition partly_written (f : bytes) (blocks : list (Z * bytes)) (f' : bytes) : Prop :=
  torn f blocks f' ∧ ∀ i, f' !! i = f !! i ∨ f' !! i = write_blocks f blocks !! i.

Section system.
Context `{D : Digest} (cfg : DbConfig).
Let ps := db_pagesize cfg.

(** Pages of a transaction's own freelist, which the commit retires. *)
Definition own_freelist (w : WriteTx) (x : PageID) : Prop :=
  freelist_page (w_meta w) <= x < freelist_page (w_meta w) + w_num_freelist_pages w.

Inductive step : System → System → Prop :=
  | read_begin f rs m fl try_token counter slot lock :
      db_meta f ps = Ok m → load_freelist f ps m = Ok fl →
      (∀ slot, 0 <= slot < MAX_READER_SLOTS → try_token slot = Ok (bool_decide (rs !! slot = None))) →
      register try_token counter (tx_id m) = Ok (slot, lock) →
      step (mkSystem f rs Idle) (mkSystem f (<[slot := mkReader m fl f]> rs) Idle)
  | read_end f rs ph slot : step (mkSystem f rs ph) (mkSystem f (delete slot rs) ph)
  | write_begin f rs (L : LockTable) n oldest w :
      registered (announced rs) → readers = Ok (n, oldest) → begin_write f ps oldest = Ok w →
      step (mkSystem f rs Idle) (mkSystem f rs (Working w (w_freelist w)))
  | write_work f rs w tf tf' :
      tx_step (own_freelist w) tf tf' → step (mkSystem f rs (Working w tf)) (mkSystem f rs (Working w tf'))
  | write_rollback f rs w tf : step (mkSystem f rs (Working w tf)) (mkSystem f rs Idle)
  | write_plan f rs w tf root_ pl :
      write_data cfg (len_u64 f) (set_root (w_meta w) root_) (w_num_freelist_pages w) tf = Ok pl →
      commit_fits cfg f (set_root (w_meta w) root_) (w_num_freelist_pages w) tf pl → tx_id (w_meta w) < u64_max →
      step (mkSystem f rs (Working w tf)) (mkSystem (extend_to f (pl_size pl)) rs (Writing f pl))
  | write_part f rs base pl f' :
      torn (extend_to base (pl_size pl)) (pl_blocks pl) f' → step (mkSystem f rs (Writing base pl)) (mkSystem f' rs (Writing base pl))
  | write_fail f rs base pl : step (mkSystem f rs (Writing base pl)) (mkSystem f rs Idle)
  | write_sync f rs base pl : step (mkSystem f rs (Writing base pl)) (mkSystem (data_written base pl) rs (Publishing base pl))
  | publish_part f rs base pl f' :
      partly_written (data_written base pl) [pl_meta_block pl] f' → step (mkSystem f rs (Publishing base pl)) (mkSystem f' rs (Publishing base pl))
  | publish_fail f rs base pl :
      slot_meta f ps (pl_slot pl) = Ok None ∨ slot_meta f ps (pl_slot pl) = slot_meta base ps (pl_slot pl) ∨
        slot_meta f ps (pl_slot pl) = Ok (Some (published (pl_slot pl) (pl_meta pl))) →
      step (mkSystem f rs (Publishing base pl)) (mkSystem f rs Idle)
  | publish_sync f rs base pl : step (mkSystem f rs (Publishing base pl)) (mkSystem (committed base pl) rs Idle).

(** ** The invariant *)

(** A page that the snapshot may reach: neither reusable nor retired when it began. *)
Definition in_snapshot (r : Reader) (x : PageID) : Prop :=
  2 <= x < num_pages (rd_meta r) ∧ (x ∉ free_pages (rd_freelist r)) ∧ ∀ t, x ∉ pending_at (rd_freelist r) t.

Definition page_of (f : bytes) (x : PageID) : bytes := take (Z.to_nat ps) (drop (Z.to_nat (x * ps)) f).

(** A snapshot against the current database: its pages have their bytes, are not
    reusable, and are retired only by later transactions. *)
Record reader_ok (f : bytes) (m0 : Meta) (fl : Freelist) (r : Reader) : Prop := {
  ro_start : db_ok (rd_file r) ps (rd_meta r) (rd_freelist r);
  ro_order : tx_id (rd_meta r) <= tx_id m0 ∧ num_pages (rd_meta r) <= num_pages m0 ∧ (length (rd_file r) <= length f)%nat;
  ro_pages : ∀ x, in_snapshot r x → page_of f x = page_of (rd_file r) x ∧ (x ∉ free_pages fl) ∧
    ∀ t, x ∈ pending_at fl t → tx_id (rd_meta r) < t
}.

Definition readers_ok (f : bytes) (m0 : Meta) (fl : Freelist) (rs : gmap Z Reader) : Prop := map_Forall (λ _, reader_ok f m0 fl) rs.

(** The oldest snapshot the writer knows. *)
Definition covers_readers (oldest : option Z) (rs : gmap Z Reader) : Prop :=
  map_Forall (λ _ r, ∃ t, oldest = Some t ∧ t <= tx_id (rd_meta r)) rs.

(** A commit under way on [base]. *)
Definition committing (base : bytes) (pl : Plan) (rs : gmap Z Reader) : Prop :=
  ∃ m0 fl oldest w tf root_, db_ok base ps m0 fl ∧ tx_run cfg base oldest w tf root_ pl ∧ tx_id m0 + 1 < u64_max ∧
    readers_ok base m0 fl rs ∧ covers_readers oldest rs.

Definition system_ok (s : System) : Prop :=
  let rs := sy_readers s in
  match sy_phase s with
  | Idle => ∃ m0 fl, db_ok (sy_file s) ps m0 fl ∧ readers_ok (sy_file s) m0 fl rs
  | Working w tf => ∃ m0 fl oldest, db_ok (sy_file s) ps m0 fl ∧ readers_ok (sy_file s) m0 fl rs ∧ covers_readers oldest rs ∧
      begin_write (sy_file s) ps oldest = Ok w ∧ rtc (tx_step (own_freelist w)) (w_freelist w) tf
  | Writing base pl => committing base pl rs ∧ torn (extend_to base (pl_size pl)) (pl_blocks pl) (sy_file s)
  | Publishing base pl => committing base pl rs ∧ partly_written (data_written base pl) [pl_meta_block pl] (sy_file s)
  end.

End system.

(** ** The freelist page of a file that keeps its block *)

Lemma freelist_block_same (f f' : bytes) (ps id : Z) (p : nat) :
  1024 <= ps → 0 <= id → Z.of_nat p = id * ps → len_u64 f <= len_u64 f' →
  Z.of_nat p + (page_overflow_at f p + 1) * ps <= len_u64 f →
  (∀ x i, id <= x <= id + page_overflow_at f p → x * ps <= Z.of_nat i < x * ps + ps → f' !! i = f !! i) →
  let L := Z.to_nat ((page_overflow_at f p + 1) * ps) in take L (drop p f') = take L (drop p f).
Proof.
  intros Hps Hid Ep Hle Hend Hsame. cbv zeta. apply block_ext. intros i Hi.
  pose proof (rd64_u64 f (p + page_off_overflow)) as [Ho _]. fold (page_overflow_at f p) in Ho.
  pose proof (Z.div_mod (Z.of_nat i) ps ltac:(lia)). pose proof (Z.mod_pos_bound (Z.of_nat i) ps ltac:(lia)).
  apply (Hsame (Z.of_nat i / ps)); nia.
Qed.

Section transfer.
Context `{D : Digest}.

Lemma freelist_same f f' ps m p :
  1024 <= ps → len_u64 f <= len_u64 f' <= isize_max → 0 <= freelist_page m → validate_block f (freelist_page m) ps = Ok p →
  (∀ x i, freelist_page m <= x <= freelist_page m + page_overflow_at f p → x * ps <= Z.of_nat i < x * ps + ps → f' !! i = f !! i) →
  validate_block f' (freelist_page m) ps = Ok p ∧ page_overflow_at f' p = page_overflow_at f p ∧ load_freelist f' ps m = load_freelist f ps m.
Proof.
  intros Hps Hl Hid Hv Hsame. pose proof Hv as (L & (Ep & Hal & Eid & Ht & -> & Hmin & Hend) & Hck & Hlay)%validate_block_spec; [|lia..].
  pose proof (freelist_block_same f f' ps _ p Hps Hid Ep (proj1 Hl) Hend Hsame) as E. cbv zeta in E.
  set (L := (page_overflow_at f p + 1) * ps) in *. unfold len_u64 in *. set (B := take (Z.to_nat L) (drop p f)) in *.
  assert (length B = Z.to_nat L) as HB by (unfold B; rewrite length_take, length_drop; lia).
  destruct (page_prefix f p B (Z.to_nat L)) as (Bid & Bty & Bc & Bov & Blay & _); [unfold B; by rewrite take_take, Nat.min_id|lia..|].
  destruct (page_prefix f' p B (Z.to_nat L)) as (Fid & Fty & Fc & Fov & Flay & _); [rewrite E; unfold B; by rewrite take_take, Nat.min_id|lia..|].
  assert (page_overflow_at f' p = page_overflow_at f p) as Eov by congruence.
  assert (validate_block f' (freelist_page m) ps = Ok p) as Hv'.
  { apply validate_block_spec; [unfold len_u64; lia..|]. exists L. split_and!.
    - unfold span_ok, len_u64. rewrite Fid, Fty, Eov, <-Bid, <-Bty. split_and!; (done || lia).
    - by rewrite E.
    - apply Flay; [unfold CHECKSUM_SIZE; lia|]. apply Blay; [unfold CHECKSUM_SIZE; lia|done]. }
  split_and!; [done..|]. unfold load_freelist. rewrite Hv, Hv'. cbn [mbind res_bind].
  assert (retired_pages f' p = retired_pages f p) as ->; [|done]. unfold retired_pages. rewrite Fty, <-Bty.
  destruct (Z.eqb_spec (page_type_at f p) TYPE_FREELIST) as [Et|]; [|done]. cbn [assert_that mbind res_bind]. f_equal.
  assert (32 + page_count_at f p * 16 <= L) as Hc.
  { unfold layout_ok in Hlay. rewrite Et in Hlay. destruct Hlay as [[? _]|[[_ ?]|[[? _]|[? _]]]]; try done. unfold RETIRED_SIZE_OF, CHECKSUM_SIZE in *. lia. }
  pose proof (page_count_u64 f p) as [Hc0 _]. unfold table. rewrite Fc, <-Bc. apply list_fmap_ext. intros i x [-> Hi]%lookup_seq.
  assert (∀ o, (o + 8 <= Z.to_nat L)%nat → rd64 f' (p + o) = rd64 f (p + o)) as Hrd.
  { intros o Ho. rewrite <-!(rd_block _ p (Z.to_nat L)) by lia. unfold B in E. by rewrite E. }
  unfold retired_page_at, page_off_ptr. rewrite <-!Nat.add_assoc. f_equal; apply Hrd; nia.
Qed.

(** A file with the same metadata and the same freelist page is the same database. *)
Lemma db_ok_transfer f f' ps m fl :
  db_ok f ps m fl → current f' ps m → len_u64 f <= len_u64 f' →
  (∀ x i, 2 <= x < num_pages m → (x ∉ free_pages fl) → (∀ t, x ∉ pending_at fl t) → x * ps <= Z.of_nat i < x * ps + ps → f' !! i = f !! i) →
  db_ok f' ps m fl.
Proof.
  intros [Hcur [Hn Hlen] Htx Hfl Hwf Hgen [Hval Hfp]] Hcur' Hle Hsame. pose proof Hcur' as (Hps & _ & Hl' & _).
  set (p := Z.to_nat (freelist_page m * ps)) in *.
  assert (0 <= page_overflow_at f p) as Ho by apply rd64_u64.
  destruct (Hfp (freelist_page m)) as (H2 & _); [lia|].
  destruct (freelist_same f f' ps m p) as (Hv & Eo & El); try done; [lia|lia| |].
  { intros x i Hx. destruct (Hfp x) as (X1 & X2 & X3); [lia|]. by apply Hsame. }
  split; try done; [lia|congruence|]. cbv zeta. fold p. rewrite Eo. done.
Qed.

End transfer.

(** ** A commit that is cut short *)

Lemma of_le_zero l : of_le l = 0 ↔ l = replicate (length l) Byte.x00.
Proof.
  split; [|intros ->; apply of_le_zeros]. intros E. rewrite <-(le_bytes_of_le l) at 1. rewrite E. clear E.
  induction (length l) as [|n IH]; [done|]. cbn. f_equal. exact IH.
Qed.

(** A field that is zero before and after a write is zero while it is cut short. *)
Lemma rd_mixed n (f g f' : bytes) o :
  length f' = length f → length g = length f → (∀ i, f' !! i = f !! i ∨ f' !! i = g !! i) → rd n f o = 0 → rd n g o = 0 → rd n f' o = 0.
Proof.
  intros E1 E2 Hmix. unfold rd. rewrite !of_le_zero, !length_take, !length_drop, E1, E2. intros Hf Hg. apply list_eq. intros i.
  destruct (decide (i < n)%nat) as [Hi|Hi]; [|rewrite !lookup_ge_None_2; [done|rewrite length_replicate; lia|rewrite length_take; lia]].
  rewrite lookup_take_lt, lookup_drop by done. destruct (Hmix (o + i)%nat) as [->| ->]; rewrite <-lookup_drop, <-(lookup_take_lt _ n) by done; [by rewrite Hf|by rewrite Hg].
Qed.

Section cut.
Context `{D : Digest} (cfg : DbConfig) (base : bytes) (m0 : Meta) (fl : Freelist) (oldest : option Z) (w : WriteTx) (tf : TxFreelist) (root_ : BucketMeta) (pl : Plan).
Let ps := db_pagesize cfg.
Let m1 := published (pl_slot pl) (pl_meta pl).
Hypothesis Hok : db_ok base ps m0 fl.
Hypothesis Hrun : tx_run cfg base oldest w tf root_ pl.

Lemma cut_commit : commit_of cfg base m0 (set_root (w_meta w) root_) (w_num_freelist_pages w) tf pl.
Proof. by destruct (tx_run_commit _ _ _ _ _ _ _ _ _ Hok Hrun) as (_ & _ & _ & ?). Qed.

Lemma cut_length f' :
  torn (extend_to base (pl_size pl)) (pl_blocks pl) f' ∨ torn (data_written base pl) [pl_meta_block pl] f' → len_u64 base <= len_u64 f'.
Proof.
  destruct (commit_freelist _ _ _ _ _ _ _ cut_commit) as (_ & _ & _ & _ & _ & _ & _ & _ & _ & _ & _ & _ & Hle).
  destruct (data_written_current _ _ _ _ _ _ _ cut_commit) as [_ El]. unfold len_u64 in *. intros [[E _]|[E _]]; lia.
Qed.

(** The old database is still there. *)
Lemma cut_old f' :
  torn (extend_to base (pl_size pl)) (pl_blocks pl) f' ∨ torn (data_written base pl) [pl_meta_block pl] f' → current f' ps m0 → db_ok f' ps m0 fl.
Proof.
  intros Ht Hc. apply (db_ok_transfer base); [done|done|by apply cut_length|]. intros x i Hx Hf Hp Hi. pose proof Hc as (Hps & _).
  apply (block_lookup base f' (Z.to_nat (x * ps)) (Z.to_nat ps)); [|nia]. eapply (tx_run_page_kept cfg); try done.
  intros [?|(k & _ & Hin)]%release_spec; [done|by apply (Hp k)].
Qed.

Lemma cut_data f' : torn (extend_to base (pl_size pl)) (pl_blocks pl) f' → db_ok f' ps m0 fl.
Proof. intros Ht. apply cut_old; [by left|]. by eapply torn_data_current; [apply cut_commit|]. Qed.

(** No metadata slot continues into the next page. *)
Lemma cut_overflow f' slot :
  partly_written (data_written base pl) [pl_meta_block pl] f' → 0 <= slot <= 1 → page_overflow_at f' (Z.to_nat (slot * ps)) = 0.
Proof.
  intros [[El _] Hmix] Hs. destruct (data_written_current _ _ _ _ _ _ _ cut_commit) as [(_ & _ & _ & _ & Ho & _) _].
  pose proof (commit_current _ _ _ _ _ _ _ cut_commit) as (_ & _ & _ & _ & Ho1 & _). destruct (committed_torn _ _ _ _ _ _ _ cut_commit) as [El1 _].
  eapply (rd_mixed 8 (data_written base pl) (committed base pl)); [done|done|exact Hmix|by apply Ho|by apply Ho1].
Qed.

(** The metadata slot reads as nothing or as before: the old database; as the new
    metadata: the new one. *)
Lemma cut_publish f' fl1 :
  partly_written (data_written base pl) [pl_meta_block pl] f' → db_ok (committed base pl) ps m1 fl1 →
  slot_meta f' ps (pl_slot pl) = Ok None ∨ slot_meta f' ps (pl_slot pl) = slot_meta base ps (pl_slot pl) ∨ slot_meta f' ps (pl_slot pl) = Ok (Some m1) →
  db_ok f' ps m0 fl ∨ (db_ok f' ps m1 fl1 ∧ ∀ x i, 2 <= x → x * ps <= Z.of_nat i < x * ps + ps → f' !! i = committed base pl !! i).
Proof.
  intros Hpw Hok1 Hslot. pose proof Hpw as [Ht _]. pose proof cut_commit as Hco.
  destruct (torn_meta_slot _ _ _ _ _ _ _ Hco f' Ht) as (E0 & Hl & _). destruct (commit_meta_block _ _ _ _ _ _ _ Hco) as (S & Eb & _ & ES & Esl & Hsl).
  pose proof (co_current _ _ _ _ _ _ _ Hco) as (Hps & Hal & _ & Hp & _ & _ & o & E2 & Ho). fold ps in Hps, Hal, E0, E2, ES.
  assert (∀ o', slot_meta f' ps (pl_slot pl) = Ok o' → older m0 o' → db_ok f' ps m0 fl) as Hold.
  { intros o' Eo Hol. apply cut_old; [by right|]. unfold current. rewrite Esl in Eo. split_and!; try done; try lia; [|by exists o'].
    intros slot Hs. by apply cut_overflow. }
  destruct Hslot as [E|[E|E]].
  - left. by apply (Hold None).
  - left. rewrite Esl in E at 2. fold ps in E2. rewrite E2 in E. by apply (Hold o).
  - right. destruct (torn_meta_new _ _ _ _ _ _ _ Hco f' Ht E) as (E1 & E3 & Hol). fold ps m1 in E1, E3, Hol.
    assert (∀ x i, 2 <= x → x * ps <= Z.of_nat i < x * ps + ps → f' !! i = committed base pl !! i) as Hsame.
    { intros x i Hx Hi. destruct (committed_torn _ _ _ _ _ _ _ Hco) as [_ Hk1]. destruct Ht as [_ Hk].
      assert (¬ covers [pl_meta_block pl] i) as Hnc.
      { intros (off & b & Hin & Hr). rewrite Eb in Hin. apply list_elem_of_singleton in Hin as [= -> ->]. fold ps in Hr. nia. }
      by rewrite Hk, Hk1. }
    split; [|done]. apply (db_ok_transfer (committed base pl)); [done| | |].
    + unfold current. destruct (published_wf _ _ _ _ _ _ _ Hco) as (_ & _ & _ & _ & _ & Eslot). fold m1 in Eslot.
      split_and!; try done; try lia; [|by exists (Some m0)]. intros slot Hs. by apply cut_overflow.
    + destruct (committed_torn _ _ _ _ _ _ _ Hco) as [El1 _]. destruct Ht as [El _]. unfold len_u64. lia.
    + intros x i Hx _ _ Hi. apply (Hsame x); [lia|done].
Qed.

End cut.

(** ** Every step keeps the invariant *)

Section invariant.
Context `{D : Digest} (cfg : DbConfig).
Let ps := db_pagesize cfg.

(** The pages of a covered snapshot are out of the writer's reach. *)
Lemma snapshot_protected f m0 fl oldest rs slot r x :
  readers_ok cfg f m0 fl rs → covers_readers oldest rs → rs !! slot = Some r → in_snapshot r x →
  2 <= x < num_pages m0 ∧ x ∉ free_pages (release fl (default (tx_id m0 + 1) oldest)).
Proof.
  intros Hrs Hcov Hr Hx. destruct (Hrs slot r Hr) as [_ (_ & Hn & _) Hp]. destruct (Hcov slot r Hr) as (t & -> & Ht). destruct (Hp x Hx) as (_ & Hf & Hg).
  destruct Hx as (Hx & _). split; [lia|]. intros [?|(k & Hk & Hin)]%release_spec; [done|]. cbn in Hk. specialize (Hg k Hin). lia.
Qed.

Lemma page_of_same f f' x : 0 <= x * ps → (∀ i, x * ps <= Z.of_nat i < x * ps + ps → f' !! i = f !! i) → page_of cfg f' x = page_of cfg f x.
Proof. intros H0 H. unfold page_of. apply block_ext. fold ps. intros i Hi. apply H. lia. Qed.

(** Readers go on while the old database stays current. *)
Lemma readers_kept f f' m0 fl rs :
  readers_ok cfg f m0 fl rs → len_u64 f <= len_u64 f' →
  (∀ slot r x, rs !! slot = Some r → in_snapshot r x → page_of cfg f' x = page_of cfg f x) → readers_ok cfg f' m0 fl rs.
Proof.
  intros Hrs Hle Hsame slot r Hr. destruct (Hrs slot r Hr) as [H1 H2 H3]. unfold len_u64 in Hle. split; [done|lia|]. intros x Hx. destruct (H3 x Hx) as (E & Hf & Hp).
  split_and!; [|done..]. by rewrite (Hsame slot r x Hr Hx).
Qed.

Section commit.
Context (base : bytes) (pl : Plan) (rs : gmap Z Reader) (m0 : Meta) (fl : Freelist) (oldest : option Z) (w : WriteTx) (tf : TxFreelist) (root_ : BucketMeta).
Hypothesis Hok : db_ok base ps m0 fl.
Hypothesis Hrun : tx_run cfg base oldest w tf root_ pl.
Hypothesis Hmax : tx_id m0 + 1 < u64_max.
Hypothesis Hrs : readers_ok cfg base m0 fl rs.
Hypothesis Hcov : covers_readers oldest rs.

Lemma commit_readers_kept f' :
  torn (extend_to base (pl_size pl)) (pl_blocks pl) f' ∨ torn (data_written base pl) [pl_meta_block pl] f' → readers_ok cfg f' m0 fl rs.
Proof.
  intros Ht. apply (readers_kept base); [done|by eapply cut_length|]. intros slot r x Hr Hx. destruct (snapshot_protected _ _ _ _ _ _ _ _ Hrs Hcov Hr Hx) as [H1 H2].
  by eapply (tx_run_page_kept cfg).
Qed.

(** After the commit the snapshots are older, and the pages retired since are
    retired by a later transaction. *)
Lemma commit_readers_older f' fl1 :
  let m1 := published (pl_slot pl) (pl_meta pl) in
  torn (data_written base pl) [pl_meta_block pl] f' → tx_id m1 = tx_id m0 + 1 → num_pages m0 <= num_pages m1 →
  (∀ x, x < num_pages m0 → x ∉ free_pages (release fl (default (tx_id m0 + 1) oldest)) →
      (x ∉ free_pages fl1) ∧ ∀ t, x ∈ pending_at fl1 t → t = tx_id m1 ∨ x ∈ pending_at fl t) →
  readers_ok cfg f' m1 fl1 rs.
Proof.
  intros m1 Ht Etx Hn Hl slot r Hr. destruct (commit_readers_kept f' (or_intror Ht) slot r Hr) as [H1 (H2 & H3 & H5) H4].
  split; [done|lia|]. intros x Hx. destruct (snapshot_protected _ _ _ _ _ _ _ _ Hrs Hcov Hr Hx) as [Hb Hnf].
  destruct (H4 x Hx) as (E & Hf & Hp). destruct (Hl x) as [Hf1 Hp1]; [lia|done|]. split_and!; [done..|].
  intros t [->|Hin]%Hp1; [lia|by apply Hp].
Qed.

Lemma commit_published f' :
  partly_written (data_written base pl) [pl_meta_block pl] f' →
  slot_meta f' ps (pl_slot pl) = Ok None ∨ slot_meta f' ps (pl_slot pl) = slot_meta base ps (pl_slot pl) ∨
    slot_meta f' ps (pl_slot pl) = Ok (Some (published (pl_slot pl) (pl_meta pl))) →
  ∃ m fl', db_ok f' ps m fl' ∧ readers_ok cfg f' m fl' rs.
Proof.
  intros Hpw Hslot. destruct (tx_run_db_ok _ _ _ _ _ _ _ _ _ Hok Hmax Hrun) as (fl1 & Hok1 & _ & Etx & Hn & Hl).
  destruct (cut_publish cfg base m0 fl oldest w tf root_ pl Hok Hrun f' fl1 Hpw Hok1 Hslot) as [H|[H _]].
  - exists m0, fl. split; [done|]. apply commit_readers_kept. right. apply Hpw.
  - eexists _, fl1. split; [exact H|]. apply commit_readers_older; try done. apply Hpw.
Qed.

Lemma commit_done : ∃ m fl', db_ok (committed base pl) ps m fl' ∧ readers_ok cfg (committed base pl) m fl' rs.
Proof.
  destruct (tx_run_db_ok _ _ _ _ _ _ _ _ _ Hok Hmax Hrun) as (fl1 & Hok1 & _ & Etx & Hn & Hl). eexists _, fl1. split; [exact Hok1|].
  apply commit_readers_older; try done. eapply committed_torn, cut_commit; done.
Qed.

End commit.

Lemma readers_ok_delete f m0 fl rs slot : readers_ok cfg f m0 fl rs → readers_ok cfg f m0 fl (delete slot rs).
Proof. apply map_Forall_delete. Qed.

Lemma covers_delete oldest rs slot : covers_readers oldest rs → covers_readers oldest (delete slot rs).
Proof. apply map_Forall_delete. Qed.

Lemma partly_written_start f blocks : partly_written f blocks f.
Proof. split; [by split|]. by left. Qed.

Lemma step_ok s s' : system_ok cfg s → step cfg s s' → system_ok cfg s'.
Proof.
  intros Hs Hst.
  destruct Hst as [f rs m fl try_token counter slot lock Em Efl _ _|f rs ph slot|f rs L n oldest w Hreg Hrd Hb|f rs w tf tf' Hw|f rs w tf
    |f rs w tf root_ pl Hpl Hfits Htx|f rs base pl f' Ht|f rs base pl|f rs base pl|f rs base pl f' Ht|f rs base pl Hslot|f rs base pl]; cbn in Hs |- *.
  - destruct Hs as (m0 & fl0 & Hok & Hrs). pose proof Hok as [Hcur _ _ Hfl0 _ _ _]. fold ps in Em, Efl, Hcur, Hfl0. rewrite (current_meta _ _ _ Hcur) in Em. injection Em as <-.
    rewrite Hfl0 in Efl. injection Efl as <-. exists m0, fl0. split; [done|]. apply map_Forall_insert_2; [|done].
    split; cbn [rd_meta rd_freelist rd_file]; [done|lia|]. intros x (_ & Hf & Hp). split_and!; [done..|]. intros t Hin. by apply Hp in Hin.
  - destruct ph as [|w tf|base pl|base pl].
    + destruct Hs as (m0 & fl & Hok & Hrs). exists m0, fl. eauto using readers_ok_delete.
    + destruct Hs as (m0 & fl & oldest & Hok & Hrs & Hcov & Hb & Hst). exists m0, fl, oldest. eauto 10 using readers_ok_delete, covers_delete.
    + destruct Hs as [(m0 & fl & oldest & w & tf & root_ & Hok & Hrun & Hm & Hrs & Hcov) Ht]. split; [|done].
      exists m0, fl, oldest, w, tf, root_. eauto 10 using readers_ok_delete, covers_delete.
    + destruct Hs as [(m0 & fl & oldest & w & tf & root_ & Hok & Hrun & Hm & Hrs & Hcov) Ht]. split; [|done].
      exists m0, fl, oldest, w, tf, root_. eauto 10 using readers_ok_delete, covers_delete.
  - destruct Hs as (m0 & fl & Hok & Hrs). exists m0, fl, oldest. split_and!; try done.
    destruct (readers_found _ Hreg) as (n' & oldest' & E & _ & Ho). rewrite Hrd in E. injection E as <- <-.
    intros slot r Hr. assert (announced rs !! slot = Some (Some (tx_id (rd_meta r)))) as Ha by (unfold announced; by rewrite lookup_fmap, Hr).
    destruct oldest as [t|]; [exists t; split; [done|]; by eapply Ho|by apply Ho in Ha].
  - destruct Hs as (m0 & fl & oldest & Hok & Hrs & Hcov & Hb & Hst). exists m0, fl, oldest. split_and!; try done. by eapply rtc_r.
  - destruct Hs as (m0 & fl & oldest & Hok & Hrs & _). by exists m0, fl.
  - destruct Hs as (m0 & fl & oldest & Hok & Hrs & Hcov & Hb & Hst). destruct (begin_write_ok _ _ _ _ oldest Hok) as (w' & Hb' & _ & Et & _).
    fold ps in Hb, Hb'. rewrite Hb in Hb'. injection Hb' as <-. split; [|by split].
    exists m0, fl, oldest, w, tf, root_. split_and!; try done. lia.
  - destruct Hs as [Hc _]. done.
  - destruct Hs as [(m0 & fl & oldest & w & tf & root_ & Hok & Hrun & Hm & Hrs & Hcov) Ht]. exists m0, fl. split; [by eapply cut_data|].
    eapply (commit_readers_kept base pl rs m0 fl oldest w tf root_); try done. by left.
  - destruct Hs as [Hc _]. split; [done|apply partly_written_start].
  - destruct Hs as [Hc _]. done.
  - destruct Hs as [(m0 & fl & oldest & w & tf & root_ & Hok & Hrun & Hm & Hrs & Hcov) Ht]. by eapply commit_published.
  - destruct Hs as [(m0 & fl & oldest & w & tf & root_ & Hok & Hrun & Hm & Hrs & Hcov) Ht]. by eapply commit_done.
Qed.

Lemma steps_ok s s' : rtc (step cfg) s s' → system_ok cfg s → system_ok cfg s'.
Proof. induction 1; eauto using step_ok. Qed.

End invariant.

(** ** What readers and writers can rely on *)

(** The mapping a reader made when it started: it shows the file as it is now, up
    to the length the file had. *)
Definition reader_view (s : System) (r : Reader) : bytes := take (length (rd_file r)) (sy_file s).

(** A file at rest, with nobody at it. *)
Definition quiet (f : bytes) : System := mkSystem f ∅ Idle.

Section theorems.
Context `{D : Digest} (cfg : DbConfig).
Let ps := db_pagesize cfg.

Lemma quiet_ok f m fl : db_ok f ps m fl → system_ok cfg (quiet f).
Proof. intros Hok. exists m, fl. split; [done|]. apply map_Forall_empty. Qed.

Lemma readers_now s : system_ok cfg s → ∃ m fl, readers_ok cfg (sy_file s) m fl (sy_readers s).
Proof.
  destruct s as [f rs [|w tf|base pl|base pl]]; cbn.
  - intros (m & fl & _ & H). eauto.
  - intros (m & fl & oldest & _ & H & _). eauto.
  - intros [(m0 & fl & oldest & w & tf & root_ & Hok & Hrun & Hm & Hrs & Hcov) Ht]. exists m0, fl. eapply commit_readers_kept; eauto.
  - intros [(m0 & fl & oldest & w & tf & root_ & Hok & Hrun & Hm & Hrs & Hcov) [Ht _]]. exists m0, fl. eapply commit_readers_kept; eauto.
Qed.

(** The bytes of a page of the snapshot in the reader's mapping. *)
Lemma reader_page s r m fl x i :
  reader_ok cfg (sy_file s) m fl r → in_snapshot r x → x * ps <= Z.of_nat i < x * ps + ps → reader_view s r !! i = rd_file r !! i.
Proof.
  intros [[(Hps & _) [_ Hlen] _ _ _ _ _] (_ & _ & Hle) Hp] Hx Hi. fold ps in Hps, Hlen. destruct (Hp x Hx) as (E & _). destruct Hx as (Hx & _). unfold len_u64 in Hlen.
  unfold reader_view. rewrite lookup_take_lt by nia. by apply (block_lookup (rd_file r) (sy_file s) (Z.to_nat (x * ps)) (Z.to_nat ps)); [|nia].
Qed.

(** C4: Snapshots are isolated, however readers and writers interleave.  Start with
    a consistent file that nobody uses and let readers begin and end, and writers
    begin, work, roll back, commit, fail or die at any point, in any order the gate
    allows.  Every page an open snapshot can reach still has, in the mapping of its
    reader, the bytes it had when the reader began, also while a commit is being
    written; so every bucket the reader opens on such pages is well-formed and holds
    exactly the entries it held then. *)
Theorem snapshots_isolated (f : bytes) (m : Meta) (fl : Freelist) (s : System) (slot : Z) (r : Reader) :
  db_ok f ps m fl → rtc (step cfg) (quiet f) s → sy_readers s !! slot = Some r →
  (∀ x, in_snapshot r x → page_of cfg (reader_view s r) x = page_of cfg (rd_file r) x) ∧
  ∀ h es pgs b, disk_tree (file_view (rd_file r) ps) h (root_page b) es pgs → NoDup pgs →
    (∀ p, p ∈ pgs → live_block (rd_file r) ps (in_snapshot r) p) → bucket_wf (reopened (reader_view s r) ps b) h es pgs.
Proof.
  intros Hok Hst Hr. destruct (readers_now s) as (m' & fl' & Hrs); [by eapply steps_ok; [|eapply quiet_ok]|].
  pose proof (Hrs slot r Hr) as Hro. pose proof Hro as [[(Hps & _ & Hl & _) _ _ _ _ _ _] (_ & _ & Hle) _]. fold ps in Hps. split.
  - intros x Hx. apply page_of_same; [fold ps; destruct Hx; nia|]. intros i Hi. eapply reader_page; [exact Hro|exact Hx|exact Hi].
  - intros h es pgs b Ht Hnd Hlive. apply disk_tree_bucket; [|done]. eapply disk_tree_ext_ok; [|exact Ht]. intros p d Hp Hd. rewrite <-Hd.
    destruct (Hlive p Hp) as (H0 & q & Hq & Hx). unfold reader_view.
    assert (length (take (length (rd_file r)) (sy_file s)) = length (rd_file r)) as El by (rewrite length_take; lia).
    eapply file_view_same; [done|done|unfold len_u64 in *; lia..|exact Hq|]. intros x i Hxr Hi. eapply reader_page; [exact Hro|by apply Hx|done].
Qed.


(** C6: Retired pages come back.  Whenever no writer is active, a writer that reads
    the announced snapshots can begin, and it may reuse exactly the reusable pages
    and those retired before the oldest open snapshot; when no snapshot is open,
    that is every page ever retired, and nothing stays pending. *)
Theorem retired_pages_return (L : LockTable) (f : bytes) (m : Meta) (fl : Freelist) (s : System) :
  db_ok f ps m fl → rtc (step cfg) (quiet f) s → sy_phase s = Idle → registered (announced (sy_readers s)) →
  ∃ n oldest w m' fl', readers = Ok (n, oldest) ∧ begin_write (sy_file s) ps oldest = Ok w ∧
    step cfg s (mkSystem (sy_file s) (sy_readers s) (Working w (w_freelist w))) ∧ db_ok (sy_file s) ps m' fl' ∧
    (∀ x, x ∈ free_pages (tf_inner (w_freelist w)) ↔
       x ∈ free_pages fl' ∨ ∃ t, x ∈ pending_at fl' t ∧ map_Forall (λ _ r, t < tx_id (rd_meta r)) (sy_readers s)) ∧
    (sy_readers s = ∅ → ∀ t, pending_at (tf_inner (w_freelist w)) t = []).
Proof.
  intros Hok Hst Hid Hreg. pose proof (steps_ok cfg _ _ Hst (quiet_ok _ _ _ Hok)) as Hs. destruct s as [f' rs ph]. cbn in *. subst ph.
  destruct Hs as (m' & fl' & Hok' & Hrs). destruct (readers_found _ Hreg) as (n & oldest & Er & _ & Ho).
  destruct (begin_write_ok f' ps m' fl' oldest Hok') as (w & Hb & _ & _ & Efl & _). exists n, oldest, w, m', fl'.
  pose proof (ok_generations _ _ _ _ Hok') as Hgen. destruct (release_spec fl' (default (tx_id m' + 1) oldest)) as [Hf Hp].
  assert (∀ slot r, rs !! slot = Some r → announced rs !! slot = Some (Some (tx_id (rd_meta r)))) as Ha.
  { intros slot r Hr. unfold announced. by rewrite lookup_fmap, Hr. }
  assert (∀ t, pending_at fl' t ≠ [] → t < default (tx_id m' + 1) oldest ↔ map_Forall (λ _ r, t < tx_id (rd_meta r)) rs) as Hlim.
  { intros t Hne. specialize (Hgen t Hne). destruct oldest as [t0|]; cbn.
    - destruct Ho as [(slot & Hs) Hmin]. split; [intros ? k r Hk%Ha; specialize (Hmin _ _ Hk); lia|].
      unfold announced in Hs. rewrite lookup_fmap in Hs. destruct (rs !! slot) as [r|] eqn:Er0; [|done]. cbn in Hs. injection Hs as <-. intros H. by apply (H slot).
    - split; [|lia]. intros _ k r Hk%Ha. by apply Ho in Hk. }
  split_and!; [done|done|by eapply write_begin|done| |].
  - intros x. rewrite Efl, Hf. split; (intros [?|(t & H1 & H2)]; [by left|right; exists t]); rewrite ?Hlim in *; try done.
    all: intros E; rewrite E in *; set_solver.
  - intros -> t. rewrite Efl. unfold pending_at. rewrite Hp. fold (pending_at fl' t). case_decide as Hlt; [done|].
    destruct (decide (pending_at fl' t = [])) as [|Hne]; [done|]. destruct Hlt. apply Hlim; [done|]. apply map_Forall_empty.
Qed.

End theorems.

(** ** A reader that stays open while a writer commits *)

Module Overlap.

#[local] Existing Instance toy_digest.

Definition reader : Reader := mkReader (init_meta 1024 1) freelist_new Demo.disk.
Definition locks : LockTable := list_locks [mkLockRange (token_offset 0) 1; encode_tx_id 0 0].

Lemma locks_announce : @registered locks (announced {[0 := reader]}).
Proof.
  assert (announced {[0 := reader]} = {[0 := Some 0]}) as -> by (unfold announced; by rewrite map_fmap_singleton).
  split.
  - intros slot o [<- <-]%lookup_singleton_Some. unfold MAX_READER_SLOTS. lia.
  - intros slot tx [<- [= <-]]%lookup_singleton_Some. unfold in_u64, u64_mod. lia.
  - intros r Hr. right. exists 0, (Some 0). split; [reflexivity|]. cbn in Hr. rewrite !elem_of_cons in Hr. destruct Hr as [->|[->|Hr]]; [by left|right; by exists 0|set_solver].
  - intros slot o [<- <-]%lookup_singleton_Some. cbn [held locks list_locks]. split; [set_solver|]. intros tx [= <-]. set_solver.
  - intros start len _. by eexists.
Qed.

Lemma overlap_run : ∃ pl, rtc (step Demo.cfg) (quiet Demo.disk) (mkSystem (committed Demo.disk pl) {[0 := reader]} Idle).
Proof.
  destruct Demo.run as (pl & Hb & Hst & Hpl & Hfit). exists pl.
  eapply rtc_l; [apply (read_begin Demo.cfg Demo.disk ∅ (init_meta 1024 1) freelist_new (λ _, Ok true) 0 0 (encode_tx_id 0 0)); [vm_compute; reflexivity..| |vm_compute; reflexivity]|].
  { intros slot _. by rewrite bool_decide_eq_true_2 by apply lookup_empty. }
  eapply rtc_l; [apply (write_begin Demo.cfg Demo.disk {[0 := reader]} locks 1 (Some 0) Demo.writer locks_announce); vm_compute; reflexivity|].
  transitivity (mkSystem Demo.disk {[0 := reader]} (Working Demo.writer Demo.edited)).
  { clear Hpl Hfit. induction Hst as [|tf tf1 tf2 Hs _ IH]; [constructor|]. eapply rtc_l; [by apply write_work|exact IH]. }
  eapply rtc_l; [eapply write_plan; [exact Hpl|exact Hfit|vm_compute; reflexivity]|].
  eapply rtc_l; [apply write_sync|]. apply rtc_once, publish_sync.
Qed.

(** The root page. *)
Lemma root_in_snapshot : in_snapshot reader 3.
Proof.
  split; [split; [lia|vm_compute; reflexivity]|]. split; [vm_compute; congruence|]. intros t. unfold pending_at. cbn. set_solver.
Qed.

End Overlap.

Lemma snapshots_isolated_witness :
  ∃ pl, page_of Demo.cfg (take (length Demo.disk) (committed Demo.disk pl)) 3 = page_of Demo.cfg Demo.disk 3.
Proof.
  destruct Overlap.overlap_run as [pl Hrun]. exists pl.
  exact (proj1 (@snapshots_isolated toy_digest Demo.cfg Demo.disk _ _ _ 0 Overlap.reader Demo.disk_ok Hrun (lookup_singleton_eq _ _)) 3 Overlap.root_in_snapshot).
Defined.


Lemma retired_pages_return_witness :
  ∃ pl n w, @readers Overlap.locks = Ok (n, Some 0) ∧ @begin_write toy_digest (committed Demo.disk pl) 1024 (Some 0) = Ok w.
Proof.
  destruct Overlap.overlap_run as [pl Hrun]. exists pl.
  destruct (@retired_pages_return toy_digest Demo.cfg Overlap.locks Demo.disk _ _ _ Demo.disk_ok Hrun eq_refl Overlap.locks_announce)
    as (n & oldest & w & m & fl & Er & Hb & _). exists n, w.
  assert (oldest = Some 0) as ->; [|exact (conj Er Hb)].
  assert (@readers Overlap.locks = Ok (1, Some 0)) as E by (vm_compute; reflexivity). rewrite Er in E. by injection E.
Defined.
