(* ===== verification/Run.v ===== *)
(** * Whole transactions

    [Tx::new] and [Tx::commit] of [src/src/api/tx.rs] around the operations of the
    handles: a transaction starts from the mapped file, works on bucket objects,
    and its commit merges, spills and writes them.  The journal, which [commit]
    writes first when it is enabled, is in [Journal]. *)

From S2P Require Import Prelude Search Support Layout Meta Freelist Node Page PageNode Inner Spill Buckets Cursor Changes Handle Db Commit Tx Check.

Section run.
Context `{D : Digest} (fuel : nat) (cfg : DbConfig).

(** A write transaction with the objects its handles share. *)
Definition tx_begin (file : bytes) (oldest_reader : option Z) : res (WriteTx * TxState) :=
  w ← begin_write file (db_pagesize cfg) oldest_reader;
  let root_ := from_meta (root (w_meta w)) (mkPages file (db_pagesize cfg)) in
  Ok (w, mkTxState {[ROOT := root_]} (w_freelist w) (tracker_new true)).

(** [rebalance], [spill] and [write_data]. *)
Definition tx_commit (file : bytes) (w : WriteTx) (s : TxState) : res (bytes * Plan) :=
  '(st, tf) ← rebalance fuel (ts_buckets s) (ts_freelist s) ROOT;
  '(root_, st, tf) ← spill fuel st tf ROOT;
  commit_tx cfg file (mkWriteTx (w_meta w) tf (w_num_freelist_pages w)) root_.

(** With [WriteVerification::Full] the written data is checked before the metadata. *)
Definition tx_commit_full (file : bytes) (w : WriteTx) (s : TxState) : res (bytes * Plan) :=
  '(file', pl) ← tx_commit file w s;
  _ ← check (data_written file pl) (db_pagesize cfg) (pl_meta pl) fuel;
  Ok (file', pl).

(** [DB::update]: run the operation in a write transaction and commit it. *)
Definition update (file : bytes) (operation : TxState → res TxState) : res (bytes * Plan) :=
  '(w, s) ← tx_begin file None;
  s ← operation s;
  tx_commit file w s.

(** [DB::check] on a file. *)
Definition db_check (file : bytes) : res unit :=
  m ← db_meta file (db_pagesize cfg);
  check file (db_pagesize cfg) m fuel.

End run.

(** ** Two transactions on a new file *)

Module Demo2.

#[local] Existing Instance toy_digest.

Definition cfg : DbConfig := mkDbConfig 1024 None 1024.
Definition disk : bytes := match init_file 1024 4 with Ok f => f | _ => [] end.

Definition b_name : bytes := [Byte.x62].
Definition c_name : bytes := [Byte.x63].

(** Create the bucket [b], in it [c], in it one value. *)
Definition create (s : TxState) : res TxState :=
  '(b, s) ← tx_create_bucket 20 true b_name s;
  '(c, s) ← bucket_create_bucket 20 b c_name s;
  '(_, s) ← bucket_put 20 c [Byte.x6b] [Byte.x76] s;
  Ok s.

(** Delete [c], then [b]. *)
Definition remove (s : TxState) : res TxState :=
  '(b, s) ← tx_get_bucket 20 true b_name s;
  s ← bucket_delete_bucket 20 b c_name s;
  tx_delete_bucket 20 true b_name s.

Definition disk1 : bytes := match update 20 cfg disk create with Ok (f, _) => f | _ => [] end.
Definition disk2 : bytes := match update 20 cfg disk1 remove with Ok (f, _) => f | _ => [] end.

End Demo2.

(** The database after the first transaction opens, passes the check and holds the
    value. *)
Example created_readable :
  db_check (D := toy_digest) 20 Demo2.cfg Demo2.disk1 = Ok () ∧
  ('(w, s) ← tx_begin (D := toy_digest) Demo2.cfg Demo2.disk1 None;
   '(b, s) ← tx_get_bucket 20 true Demo2.b_name s;
   '(c, s) ← bucket_get_bucket 20 b Demo2.c_name s;
   bucket_get_kv 20 c [Byte.x6b] s) = Ok (Some ([Byte.x6b], [Byte.x76])).
Proof. split; vm_compute; reflexivity. Qed.

