(* ===== verification/Session.v ===== *)
(** * The database handle

    [Tx::new_impl], the end of transactions, the read-back of written blocks
    ([src/src/api/tx.rs]), the scoped transactions ([src/src/api/scoped.rs] and
    [DB::view], [DB::update]), statistics ([DB::stats]), verification
    ([src/src/storage/verification.rs]), [DB::merge_from] ([src/src/api/merge.rs])
    and [OpenOptions::open].  The state is the handle ([DBInner]) and the contents
    of the file; an operation that fails returns the state it leaves.  The table of
    reader locks is the class [LockTable], taking a reader slot and the writer's
    locks are arguments.  A write transaction that is dropped has written nothing. *)

From S2P Require Import Prelude Search Support Layout Meta Freelist Node Page PageNode Inner Spill Buckets Cursor Changes Handle Db Commit Tx Coordination Open Check Merge Run.

(** ** Taking the writer's locks *)

(** One attempt to take the gate, the mutex of the file and the lock on the file,
    and the time after it. *)
Inductive TryMutex := Locked | WouldBlockMutex | Poisoned.
Record Attempt := mkAttempt { at_gate : bool; at_mutex : TryMutex; at_lock : bool; at_now : Z }.

(** [WriteGuard::try_new] *)
Definition try_guard (a : Attempt) : res bool :=
  if negb (at_gate a) then Ok false
  else match at_mutex a with
  | Locked => Ok (at_lock a)
  | WouldBlockMutex => Ok false
  | Poisoned => Err (Sync "lock poisoned")
  end.

Inductive WriteMode := Blocking | Try | Deadline (deadline : Z).

(** The loop of [WriteGuard::new]: it waits for the gate and the mutex, then tries
    the lock on the file. *)
Fixpoint guard_loop (fuel : nat) (attempts : nat → Attempt) (i : nat) : res bool :=
  match fuel with
  | O => Panic NOFUEL
  | S fuel =>
      match at_mutex (attempts i) with
      | Poisoned => Err (Sync "lock poisoned")
      | _ => if at_lock (attempts i) then Ok true else guard_loop fuel attempts (S i)
      end
  end.

Fixpoint deadline_loop (fuel : nat) (attempts : nat → Attempt) (deadline : Z) (i : nat) : res bool :=
  match fuel with
  | O => Panic NOFUEL
  | S fuel =>
      got ← try_guard (attempts i);
      if (got : bool) then Ok true
      else if deadline <=? at_now (attempts i) then Err WriterTimeout
      else deadline_loop fuel attempts deadline (S i)
  end.

(** Whether the writer holds its locks. *)
Definition acquire (fuel : nat) (attempts : nat → Attempt) (mode : WriteMode) : res bool :=
  match mode with
  | Blocking => guard_loop fuel attempts 0
  | Try => try_guard (attempts O)
  | Deadline deadline => deadline_loop fuel attempts deadline 0
  end.

(** ** Transactions of a handle *)

(** The handle's transaction, with the objects its buckets share. *)
Record Tx := mkTx { x_writable : bool; x_registration : option (Z * LockRange); x_meta : Meta; x_state : TxState; x_num_freelist_pages : Z }.

Definition with_state (tx : Tx) (s : TxState) : Tx := mkTx (x_writable tx) (x_registration tx) (x_meta tx) s (x_num_freelist_pages tx).

Section handle.
Context `{D : Digest} `{L : LockTable} (fuel : nat) (try_token : Z → res bool) (counter : Z).

Definition db_config (db : DBInner) : DbConfig := mkDbConfig (in_pagesize db) (in_max_file_bytes db) (in_growth_increment db).

(** The end of [new_impl]. *)
Definition tx_from (db : DBInner) (file : bytes) (writable : bool) (registration : option (Z * LockRange)) (m : Meta) (fl : Freelist) : res Tx :=
  let data := mapped db file in
  p ← validate_block data (freelist_page m) (in_pagesize db);
  let root_ := from_meta (root m) (mkPages data (in_pagesize db)) in
  Ok (mkTx writable registration m (mkTxState {[ROOT := root_]} (mkTxFreelist m fl ∅) (tracker_new writable)) (page_overflow_at data p + 1)).

(** [open_ro_txs.push(..); open_ro_txs.sort_unstable()] *)
Definition note_reader (db : DBInner) (tx : Z) : DBInner := with_open_ro_txs db (merge_sort Z.le (in_open_ro_txs db ++ [tx])).

(** [new_impl] for a reader. *)
Definition begin_reader (db : DBInner) (file : bytes) : res Tx * DBInner :=
  let db := if in_coordination db then refresh db file else db in
  match (m ← db_meta (mapped db file) (in_pagesize db);
         if in_coordination db then r ← register try_token counter (tx_id m); Ok (m, Some r) else Ok (m, None)) with
  | Ok (m, registration) =>
      let db := note_reader db (tx_id m) in
      (tx_from db file false registration m (in_freelist db), db)
  | Err e => (Err e, db)
  | Panic w => (Panic w, db)
  end.

(** [new_impl] for a writer; [None] when the locks are taken. *)
Definition begin_writer (attempts : nat → Attempt) (mode : WriteMode) (db : DBInner) (file : bytes) : res (option Tx) * DBInner :=
  if read_only (in_flags db) then (Err ReadOnlyDB, db)
  else match (_ ← assert_that (in_coordination db) "called `Option::unwrap()` on a `None` value"; acquire fuel attempts mode) with
  | Ok false => (Ok None, db)
  | Err e => (Err e, db)
  | Panic w => (Panic w, db)
  | Ok true =>
      let db := refresh db file in
      match reload_freelist db file with
      | Ok db =>
          ('(_, oldest_reader) ← readers;
           m ← db_meta (mapped db file) (in_pagesize db);
           let m := next_tx m in
           let freelist := release (in_freelist db) (default (tx_id m) oldest_reader) in
           tx ← tx_from db file true None m freelist;
           Ok (Some tx), db)
      | Err e => (Err e, db)
      | Panic w => (Panic w, db)
      end
  end.

(** Remove one occurrence; in a sorted list it does not matter which one the binary
    search finds. *)
Fixpoint remove_one (tx : Z) (l : list Z) : list Z :=
  match l with
  | [] => []
  | x :: l => if x =? tx then l else x :: remove_one tx l
  end.

(** [Drop for TxInner] *)
Definition drop_tx (db : DBInner) (tx : Tx) : DBInner :=
  if x_writable tx then db else with_open_ro_txs db (remove_one (tx_id (x_meta tx)) (in_open_ro_txs db)).

(** ** Commit *)

(** [verify_dirty_readback]: compare the blocks with what the file has. *)
Fixpoint verify_dirty_readback (db : DBInner) (file : bytes) (blocks : list (Z * bytes)) : res unit :=
  match blocks with
  | [] => Ok ()
  | (offset, expected) :: blocks =>
      let actual := take (length expected) (drop (Z.to_nat offset) file) in
      _ ← fail_if (Nat.ltb (length actual) (length expected)) (Io (mkIoError UnexpectedEof "failed to fill whole buffer"));
      _ ← fail_if (negb (bool_decide (actual = expected)))
            (InvalidDB ("page " +:+ dec (offset / in_pagesize db) +:+ " failed write readback verification"));
      verify_dirty_readback db file blocks
  end.

(** [verify_readback] *)
Definition verify_readback (file : bytes) (offset : Z) (label : string) (expected : bytes) : res unit :=
  let actual := take (length expected) (drop (Z.to_nat offset) file) in
  _ ← fail_if (Nat.ltb (length actual) (length expected)) (Io (mkIoError UnexpectedEof "failed to fill whole buffer"));
  fail_if (negb (bool_decide (actual = expected))) (InvalidDB (label +:+ " failed write readback verification")).

Definition reads_back (db : DBInner) : bool := match write_verification (in_flags db) with Standard => false | _ => true end.

Definition readback_file (db : DBInner) : res unit :=
  fail_if (negb (in_readback_file db)) (InvalidDB "write readback file is unavailable").

(** After the data is written, and after the metadata is. *)
Definition verify_data (db : DBInner) (file : bytes) (pl : Plan) : res unit :=
  _ ← (if reads_back db then _ ← readback_file db; verify_dirty_readback db file (pl_blocks pl) else Ok ());
  match write_verification (in_flags db) with
  | Full => check (mapped db file) (in_pagesize db) (pl_meta pl) fuel
  | _ => Ok ()
  end.

Definition verify_meta (db : DBInner) (file : bytes) (pl : Plan) : res unit :=
  if reads_back db then _ ← readback_file db; verify_readback file (fst (pl_meta_block pl)) "metadata" (snd (pl_meta_block pl)) else Ok ().

Definition block_bytes (pl : Plan) : Z := foldr Z.add 0 (len_u64 ∘ snd <$> pl_blocks pl).

(** What a successful commit leaves in the handle. *)
Definition note_commit (db : DBInner) (pl : Plan) : DBInner :=
  mkDBInner (in_len db) (pl_freelist pl) (in_open_ro_txs db) (in_coordination db) (in_readback_file db) (in_flags db) (in_pagesize db)
    (in_max_file_bytes db) (in_growth_increment db) (u64_wrap (in_committed_transactions db + 1))
    (u64_wrap (in_bytes_written db + (block_bytes pl + in_pagesize db))).

(** [Tx::commit] *)
Definition commit (db : DBInner) (file : bytes) (tx : Tx) : res unit * DBInner * bytes :=
  if negb (x_writable tx) then (Err ReadOnlyTx, db, file)
  else match tx_commit fuel (db_config db) file (mkWriteTx (x_meta tx) (ts_freelist (x_state tx)) (x_num_freelist_pages tx)) (x_state tx) with
  | Err e => (Err e, db, file)
  | Panic w => (Panic w, db, file)
  | Ok (_, pl) =>
      let db := match pl_size pl with Some n => with_len db n | None => db end in
      match verify_data db (data_written file pl) pl with
      | Err e => (Err e, db, data_written file pl)
      | Panic w => (Panic w, db, data_written file pl)
      | Ok _ =>
          match verify_meta db (committed file pl) pl with
          | Err e => (Err e, db, committed file pl)
          | Panic w => (Panic w, db, committed file pl)
          | Ok _ => (Ok (), note_commit db pl, committed file pl)
          end
      end
  end.

(** ** Scoped transactions *)

(** [DB::view] *)
Definition db_view {A} (operation : TxState → res A) (db : DBInner) (file : bytes) : res A * DBInner :=
  match begin_reader db file with
  | (Ok tx, db) => (operation (x_state tx), drop_tx db tx)
  | (Err e, db) => (Err e, db)
  | (Panic w, db) => (Panic w, db)
  end.

(** [Tx::new] for a writer: [None] cannot come of waiting. *)
Definition write_tx (attempts : nat → Attempt) (mode : WriteMode) (db : DBInner) (file : bytes) : res Tx * DBInner :=
  match begin_writer attempts mode db file with
  | (Ok (Some tx), db) => (Ok tx, db)
  | (Ok None, db) =>
      (match mode with Deadline _ => Err WriterTimeout | _ => Panic "called `Option::unwrap()` on a `None` value" end, db)
  | (Err e, db) => (Err e, db)
  | (Panic w, db) => (Panic w, db)
  end.

(** [DB::update]: a panic of the operation is resumed after the transaction is
    dropped. *)
Definition db_update {A} (attempts : nat → Attempt) (operation : TxState → res (A * TxState)) (db : DBInner) (file : bytes) : res A * DBInner * bytes :=
  match write_tx attempts Blocking db file with
  | (Ok tx, db) =>
      match operation (x_state tx) with
      | Ok (result, s) =>
          match commit db file (with_state tx s) with
          | (Ok _, db, file) => (Ok result, db, file)
          | (Err e, db, file) => (Err e, db, file)
          | (Panic w, db, file) => (Panic w, db, file)
          end
      | Err error => (Err error, db, file)
      | Panic w => (Panic w, db, file)
      end
  | (Err e, db) => (Err e, db, file)
  | (Panic w, db) => (Panic w, db, file)
  end.

(** [DB::try_write_tx] *)
Definition try_write_tx (attempts : nat → Attempt) (db : DBInner) (file : bytes) : res (option Tx) * DBInner :=
  if read_only (in_flags db) then (Err ReadOnlyDB, db) else begin_writer attempts Try db file.

(** ** Verification *)

(** A character of [A-Za-z0-9]. *)
Definition is_alphanumeric (c : Ascii.ascii) : bool :=
  let n := Ascii.nat_of_ascii c in
  (Nat.leb 48 n && Nat.leb n 57) || (Nat.leb 65 n && Nat.leb n 90) || (Nat.leb 97 n && Nat.leb n 122).

(** [message.split(|c| !c.is_ascii_alphanumeric())]: the first part and the others. *)
Fixpoint split_words (s : string) : string * list string :=
  match s with
  | EmptyString => (EmptyString, [])
  | String c s =>
      let '(word, words) := split_words s in
      if is_alphanumeric c then (String c word, words) else (EmptyString, word :: words)
  end.

Definition to_lower (c : Ascii.ascii) : Ascii.ascii :=
  let n := Ascii.nat_of_ascii c in if Nat.leb 65 n && Nat.leb n 90 then Ascii.ascii_of_nat (n + 32) else c.
Fixpoint to_ascii_lowercase (s : string) : string :=
  match s with EmptyString => EmptyString | String c s => String (to_lower c) (to_ascii_lowercase s) end.

(** [str::parse::<u64>] of a word without signs. *)
Fixpoint parse_digits (acc : Z) (s : string) : option Z :=
  match s with
  | EmptyString => Some acc
  | String c s =>
      let n := Ascii.nat_of_ascii c in
      if Nat.leb 48 n && Nat.leb n 57 then
        let acc := acc * 10 + (Z.of_nat n - 48) in
        if acc <=? u64_max then parse_digits acc s else None
      else None
  end.
Definition parse_u64 (s : string) : option Z := match s with EmptyString => None | _ => parse_digits 0 s end.

(** The number after the word page; [found] is whether that word was the last one
    that is not empty. *)
Fixpoint find_page_id (found : bool) (words : list string) : option Z :=
  match words with
  | [] => None
  | word :: words =>
      if found then
        match word with
        | EmptyString => find_page_id true words
        | _ => match parse_u64 word with Some page => Some page | None => find_page_id false words end
        end
      else find_page_id (bool_decide (to_ascii_lowercase word = "page")) words
  end.
Definition extract_page_id (message : string) : option Z :=
  let '(word, words) := split_words message in find_page_id false (word :: words).

Definition contains (s part : string) : bool := match String.index 0 part s with Some _ => true | None => false end.
Definition infer_page_kind (message : string) : option string :=
  List.find (contains (to_ascii_lowercase message)) ["metadata"; "freelist"; "branch"; "leaf"; "overflow"].

Definition page_kind (db : DBInner) (file : bytes) (page_id : Z) : option string :=
  offset ← checked_mul page_id (in_pagesize db);
  offset ← checked_add offset 8;
  b ← mapped db file !! Z.to_nat offset;
  match Z_of_byte b with
  | 1 => Some "branch"
  | 2 => Some "leaf"
  | 3 => Some "metadata"
  | 4 => Some "freelist"
  | _ => None
  end.

Record VerifyIssue := mkIssue {
  is_page_id : option Z; is_offset : option Z; is_page_kind : option string; is_invariant : string; is_bucket_path : list bytes
}.
Record VerifyReport := mkVerifyReport { vr_valid : bool; vr_issues : list VerifyIssue }.

Definition into_result (r : VerifyReport) : res unit :=
  if vr_valid r then Ok ()
  else Err (InvalidDB (match vr_issues r with issue :: _ => is_invariant issue | [] => "verification failed" end)).

Definition report_issue (db : DBInner) (file : bytes) (invariant : string) : VerifyReport :=
  let page_id := extract_page_id invariant in
  let kind := match infer_page_kind invariant with Some kind => Some kind | None => page_id ≫= page_kind db file end in
  mkVerifyReport false [mkIssue page_id (page_id ≫= (λ id, checked_mul id (in_pagesize db))) kind invariant []].

(** [DB::verify_report] *)
Definition verify_report (db : DBInner) (file : bytes) : res VerifyReport * DBInner :=
  match begin_reader db file with
  | (Ok tx, db) =>
      (match check (mapped db file) (in_pagesize db) (x_meta tx) fuel with
       | Ok _ => Ok (mkVerifyReport true [])
       | Err (InvalidDB invariant) => Ok (report_issue db file invariant)
       | Err e => Err e
       | Panic w => Panic w
       end, drop_tx db tx)
  | (Err (InvalidDB invariant), db) => (Ok (report_issue db file invariant), db)
  | (Err e, db) => (Err e, db)
  | (Panic w, db) => (Panic w, db)
  end.

(** [DB::verify] *)
Definition verify (db : DBInner) (file : bytes) : res unit * DBInner :=
  let '(report, db) := verify_report db file in (r ← report; into_result r, db).

(** ** Statistics *)

Record Stats := mkStats {
  st_file_bytes : Z; st_page_size : Z; st_allocated_pages : Z; st_free_pages : Z; st_pending_pages : Z; st_reader_pinned_pages : Z;
  st_current_tx_id : Z; st_active_readers : Z; st_oldest_reader_tx_id : option Z; st_committed_transactions : Z; st_bytes_written : Z
}.

Definition stats (db : DBInner) (file : bytes) : res Stats * DBInner :=
  let db := refresh db file in
  (m ← db_meta (mapped db file) (in_pagesize db);
   let free := free_count (in_freelist db) in
   let pending := pending_count (in_freelist db) in
   '(active, oldest) ← (if in_coordination db then readers else Ok (len_u64 (in_open_ro_txs db), head (in_open_ro_txs db)));
   Ok (mkStats (len_u64 file) (in_pagesize db) (num_pages m) free pending (if active =? 0 then 0 else pending)
         (tx_id m) active oldest (in_committed_transactions db) (in_bytes_written db)), db).

(** ** Merging databases: [DB::merge_from] *)

(** [same] is whether the two handles are clones of one; the source is another file. *)
Definition db_merge_from (n depth : nat) (options : MergeOptions) (attempts : nat → Attempt) (same : bool) (source : DBInner) (source_file : bytes)
    (db : DBInner) (file : bytes) : res MergeReport * DBInner * DBInner * bytes :=
  if same then (Ok report_default, source, db, file)
  else match begin_reader source source_file with
  | (Ok source_tx, source) =>
      match write_tx attempts Blocking db file with
      | (Ok destination_tx, db) =>
          match merge_transactions fuel n options depth (x_state destination_tx) (x_state source_tx) with
          | Ok (report, s) =>
              let '(r, db, file) := commit db file (with_state destination_tx s) in
              (_ ← r; Ok report, drop_tx source source_tx, db, file)
          | Err e => (Err e, drop_tx source source_tx, db, file)
          | Panic w => (Panic w, drop_tx source source_tx, db, file)
          end
      | (Err e, db) => (Err e, drop_tx source source_tx, db, file)
      | (Panic w, db) => (Panic w, drop_tx source source_tx, db, file)
      end
  | (Err e, source) => (Err e, source, db, file)
  | (Panic w, source) => (Panic w, source, db, file)
  end.

(** ** Opening: [OpenOptions::open] *)

(** The database, and what is at the path afterwards. *)
Definition open (os_page_size : Z) (o : OpenOptions) (disk : option bytes) : res DBInner * option bytes :=
  let prepared :=
    pagesize_ ← choose_page_size os_page_size o disk;
    _ ← fail_if ((pagesize_ <? 1024) || negb (pagesize_ mod PAGE_ALIGN_OF =? 0)) (InvalidDB ("invalid page size " +:+ dec pagesize_));
    let max_file_bytes := Z.min (default MAX_DATA_FILE_BYTES (oo_max_file_bytes o)) MAX_DATA_FILE_BYTES in
    let initial_bytes := saturating_mul pagesize_ (oo_num_pages o) in
    _ ← fail_if (match disk with None => max_file_bytes <? initial_bytes | Some _ => false end) (CapacityExceeded initial_bytes max_file_bytes);
    file ← open_or_create o pagesize_ disk;
    Ok (pagesize_, max_file_bytes, file) in
  match prepared with
  | Ok (pagesize_, max_file_bytes, file) =>
      (_ ← fail_if (max_file_bytes <? len_u64 file) (CapacityExceeded (len_u64 file) max_file_bytes);
       db ← inner_open file pagesize_ (oo_flags o) (Some max_file_bytes) (oo_growth_increment o);
       if verify_on_open (oo_flags o) then let '(verified, db) := verify db file in _ ← verified; Ok db else Ok db, Some file)
  | Err e => (Err e, disk)
  | Panic w => (Panic w, disk)
  end.


End handle.

(** ** Application errors: scoped.rs *)

Inductive TransactionError (E : Type) := TxStorage (e : Error) | TxApplication (e : E).
Arguments TxStorage {E} _.
Arguments TxApplication {E} _.

Definition error_storage {E} (e : TransactionError E) : option Error := match e with TxStorage e => Some e | TxApplication _ => None end.
Definition application_ref {E} (e : TransactionError E) : option E := match e with TxStorage _ => None | TxApplication e => Some e end.

(** [Result<A, TransactionError<E>>], or a panic. *)
Inductive tres (E A : Type) := TOk (a : A) | TErr (e : TransactionError E) | TPanic (why : string).
Arguments TOk {E A} _.
Arguments TErr {E A} _.
Arguments TPanic {E A} _.

(** [map_err(TransactionError::Storage)] *)
Definition map_storage {E A} (r : res A) : tres E A :=
  match r with Ok a => TOk a | Err e => TErr (TxStorage e) | Panic w => TPanic w end.

Section scoped.
Context `{D : Digest} `{L : LockTable} (fuel : nat) (try_token : Z → res bool) (counter : Z) {E : Type}.

(** [DB::read] *)
Definition db_read {A} (operation : TxState → tres E A) (db : DBInner) (file : bytes) : tres E A * DBInner :=
  match begin_reader try_token counter db file with
  | (Ok tx, db) => (operation (x_state tx), drop_tx db tx)
  | (Err e, db) => (TErr (TxStorage e), db)
  | (Panic w, db) => (TPanic w, db)
  end.

(** [DB::write] and [DB::write_timeout]. *)
Definition db_write_mode {A} (attempts : nat → Attempt) (mode : WriteMode) (operation : TxState → tres E (A * TxState)) (db : DBInner) (file : bytes)
    : tres E A * DBInner * bytes :=
  match write_tx fuel attempts mode db file with
  | (Ok tx, db) =>
      match operation (x_state tx) with
      | TOk (result, s) =>
          let '(r, db, file) := commit fuel db file (with_state tx s) in
          (match r with Ok _ => TOk result | Err e => TErr (TxStorage e) | Panic w => TPanic w end, db, file)
      | TErr error => (TErr error, db, file)
      | TPanic w => (TPanic w, db, file)
      end
  | (Err e, db) => (TErr (TxStorage e), db, file)
  | (Panic w, db) => (TPanic w, db, file)
  end.

Definition db_write {A} (attempts : nat → Attempt) (operation : TxState → tres E (A * TxState)) (db : DBInner) (file : bytes) : tres E A * DBInner * bytes :=
  db_write_mode attempts Blocking operation db file.

(** [write_tx_timeout] tests for a read-only database first. *)
Definition db_write_timeout {A} (attempts : nat → Attempt) (deadline : Z) (operation : TxState → tres E (A * TxState)) (db : DBInner) (file : bytes)
    : tres E A * DBInner * bytes :=
  if read_only (in_flags db) then (TErr (TxStorage ReadOnlyDB), db, file) else db_write_mode attempts (Deadline deadline) operation db file.

End scoped.

(** ** Opening what is there *)

Lemma mapped_all db file : in_len db = len_u64 file → mapped db file = file.
Proof. intros E. unfold mapped. rewrite E. unfold len_u64. rewrite Nat2Z.id. apply take_ge. lia. Qed.

Section opening.
Context `{D : Digest} `{L : LockTable} (fuel : nat) (try_token : Z → res bool) (counter : Z).

(** The largest file the options allow. *)
Definition size_limit (o : OpenOptions) : Z := Z.min (default MAX_DATA_FILE_BYTES (oo_max_file_bytes o)) MAX_DATA_FILE_BYTES.

(** A handle that was just opened. *)
Definition opened (o : OpenOptions) (f : bytes) (ps : Z) (fl : Freelist) : DBInner :=
  let flags := oo_flags o in
  mkDBInner (len_u64 f) fl [] (negb (read_only flags)) (match write_verification flags with Standard => false | _ => negb (read_only flags) end)
    flags ps (Some (size_limit o)) (oo_growth_increment o) 0 0.

(** The page size of a file can be told: both metadata slots are valid, or no other
    page size authenticates. *)
Definition page_size_plain (f : bytes) (ps : Z) (m : Meta) : Prop :=
  ps + 112 < MAX_BOOTSTRAP_SCAN ∧
  ((∃ m', slot_meta f ps (1 - meta_page m) = Ok (Some m')) ∨ ∀ ps', ps' ≠ ps → ∃ e, inspect_candidate f ps' = Err e).

Lemma inner_open_ok f ps m fl o :
  db_ok f ps m fl → inner_open f ps (oo_flags o) (Some (size_limit o)) (oo_growth_increment o) = Ok (opened o f ps fl).
Proof.
  intros [Hcur _ _ Hfl _ _ _]. unfold inner_open. rewrite mapped_all by done. rewrite (current_meta _ _ _ Hcur). cbn [mbind res_bind]. by rewrite Hfl.
Qed.

Lemma inspect_plain f ps m fl : db_ok f ps m fl → page_size_plain f ps m → inspect f = Ok (format_of f ps m).
Proof. intros Hok [Hmax Hor]. apply inspect_current; [apply Hok|done..]. Qed.

Lemma open_existing f ps m fl os o :
  db_ok f ps m fl → page_size_plain f ps m → verify_on_open (oo_flags o) = false →
  open fuel try_token counter os o (Some f) =
    (if bool_decide (default ps (oo_pagesize o) = ps) then
       if size_limit o <? len_u64 f then Err (CapacityExceeded (len_u64 f) (size_limit o)) else Ok (opened o f ps fl)
     else Err (InvalidDB ("explicit page size " +:+ dec (default ps (oo_pagesize o)) +:+ " conflicts with detected page size " +:+ dec ps)), Some f).
Proof.
  intros Hok Hplain Hv. unfold open, choose_page_size. rewrite (inspect_plain f ps m fl Hok Hplain). cbn [fi_page_size format_of].
  pose proof Hok as [(Hps & Hal & _) _ _ _ _ _ _].
  assert ((match oo_pagesize o with Some explicit => if explicit =? ps then Ok explicit else
      Err (InvalidDB ("explicit page size " +:+ dec explicit +:+ " conflicts with detected page size " +:+ dec ps)) | None => Ok ps end) =
    if bool_decide (default ps (oo_pagesize o) = ps) then Ok ps else
      Err (InvalidDB ("explicit page size " +:+ dec (default ps (oo_pagesize o)) +:+ " conflicts with detected page size " +:+ dec ps))) as ->.
  { destruct (oo_pagesize o) as [e|]; cbn [default]; [|by rewrite bool_decide_eq_true_2].
    destruct (Z.eqb_spec e ps) as [->|]; [by rewrite bool_decide_eq_true_2|by rewrite bool_decide_eq_false_2]. }
  case_bool_decide; [|done]. cbn [mbind res_bind]. unfold PAGE_ALIGN_OF. rewrite Hal. unfold fail_if. btest. cbn [orb negb Z.eqb mbind res_bind open_or_create].
  fold (size_limit o). destruct (size_limit o <? len_u64 f); [done|]. cbn [mbind res_bind].
  change (Z.min (default MAX_DATA_FILE_BYTES (oo_max_file_bytes o)) MAX_DATA_FILE_BYTES) with (size_limit o). rewrite (inner_open_ok f ps m fl o Hok).
  cbn [mbind res_bind]. by rewrite Hv.
Qed.

(** C17: A database opens again wherever it goes.  Opening a path where nothing is
    creates an empty, consistent database with the page size asked for, or that of
    the system.  Any file the transactions on it leave opens on a system with any
    page size: without an explicit page size, or with the right one, the handle has
    the page size and the freelist of the file, unless the file is larger than the
    options allow; a different explicit page size is refused.  Nothing is written. *)
Theorem open_roundtrip (os : Z) (o : OpenOptions) :
  let ps := default os (oo_pagesize o) in
  1024 <= ps → ps mod 8 = 0 → 4 <= oo_num_pages o → ps * oo_num_pages o <= size_limit o →
  read_only (oo_flags o) = false → verify_on_open (oo_flags o) = false →
  (∃ f, open fuel try_token counter os o None = (Ok (opened o f ps freelist_new), Some f) ∧ len_u64 f = ps * oo_num_pages o ∧
     db_ok f ps (init_meta ps 1) freelist_new ∧ (ps + 112 < MAX_BOOTSTRAP_SCAN → page_size_plain f ps (init_meta ps 1))) ∧
  ∀ f m fl os' o', db_ok f ps m fl → page_size_plain f ps m → verify_on_open (oo_flags o') = false →
    open fuel try_token counter os' o' (Some f) =
      (if bool_decide (default ps (oo_pagesize o') = ps) then
         if size_limit o' <? len_u64 f then Err (CapacityExceeded (len_u64 f) (size_limit o')) else Ok (opened o' f ps fl)
       else Err (InvalidDB ("explicit page size " +:+ dec (default ps (oo_pagesize o')) +:+ " conflicts with detected page size " +:+ dec ps)), Some f).
Proof.
  intros ps Hps Hal Hn Hmax Hro Hv. split; [|intros f m fl os' o' Hok Hp Hv'; by apply open_existing with m].
  assert (ps * oo_num_pages o <= isize_max) as Hi by (unfold size_limit, MAX_DATA_FILE_BYTES, LOCK_BASE, isize_max in *; lia).
  destruct (init_db_ok ps (oo_num_pages o) Hps Hal Hn Hi) as (f & E & Hl & Hslot & Hok). exists f. split_and!; [|done|done|].
  - unfold open, choose_page_size. fold ps. cbn [mbind res_bind]. unfold PAGE_ALIGN_OF. rewrite Hal. unfold fail_if. btest. cbn [orb negb Z.eqb mbind res_bind].
    change (Z.min (default MAX_DATA_FILE_BYTES (oo_max_file_bytes o)) MAX_DATA_FILE_BYTES) with (size_limit o).
    assert (saturating_mul ps (oo_num_pages o) <= size_limit o) as Hs by (unfold saturating_mul; lia). btest. cbn [mbind res_bind open_or_create]. rewrite Hro, E.
    cbn [orb mbind res_bind]. rewrite Hl. btest. cbn [mbind res_bind]. rewrite (inner_open_ok f ps _ _ o Hok). cbn [mbind res_bind]. by rewrite Hv.
  - intros Hm. split; [done|]. left. by exists (init_meta ps 0).
Qed.

End opening.

(** ** The read-back *)

Section readback.
Context `{D : Digest}.

Lemma block_read (f : bytes) (off : Z) (b : bytes) :
  0 <= off → off + len_u64 b <= len_u64 f → length (take (length b) (drop (Z.to_nat off) f)) = length b.
Proof. intros H0 H. unfold len_u64 in H. rewrite length_take, length_drop. lia. Qed.

Lemma dirty_readback_iff db f blocks :
  blocks_in f blocks →
  verify_dirty_readback db f blocks = Ok () ↔ ∀ off b, (off, b) ∈ blocks → take (length b) (drop (Z.to_nat off) f) = b.
Proof.
  induction blocks as [|[o c] blocks IH]; intros Hin; [split; [intros _ off b H; by apply elem_of_nil in H|done]|].
  destruct (Hin o c) as [H0 H1]; [left|]. cbn [verify_dirty_readback]. rewrite block_read, Nat.ltb_irrefl by done. cbn [fail_if mbind res_bind].
  destruct (decide (take (length c) (drop (Z.to_nat o) f) = c)) as [E|E].
  - rewrite bool_decide_eq_true_2 by done. cbn [negb fail_if mbind res_bind].
    rewrite IH by (intros off b H; apply Hin; by right). split; [|intros H off b Hb; apply H; by right].
    intros H off b [[= -> ->]|Hb]%elem_of_cons; [done|by apply H].
  - rewrite bool_decide_eq_false_2 by done. cbn [negb fail_if mbind res_bind]. split; [done|]. intros H. destruct E. apply H. left.
Qed.


End readback.

(** ** Waiting for the writer's locks *)

(** The first attempt that ends the wait. *)
Definition decides (attempts : nat → Attempt) (deadline : Z) (k : nat) : Prop :=
  (∀ j, (j < k)%nat → try_guard (attempts j) = Ok false ∧ at_now (attempts j) < deadline) ∧
  (try_guard (attempts k) = Ok false → deadline <= at_now (attempts k)).

Lemma decides_exists attempts deadline K : deadline <= at_now (attempts K) → ∃ k, (k <= K)%nat ∧ decides attempts deadline k.
Proof.
  intros HK. assert (∀ n, (∃ k, (k < n)%nat ∧ decides attempts deadline k) ∨ ∀ j, (j < n)%nat → try_guard (attempts j) = Ok false ∧ at_now (attempts j) < deadline) as H.
  { induction n as [|n [(k & Hk & Hd)|IH]]; [right; lia|left; exists k; split; [lia|done]|].
    assert ((try_guard (attempts n) = Ok false → deadline <= at_now (attempts n)) ∨ (try_guard (attempts n) = Ok false ∧ at_now (attempts n) < deadline)) as [Hn|Hn].
    { destruct (try_guard (attempts n)) as [[]|e|w]; [by left| |by left..]. destruct (Z.le_gt_cases deadline (at_now (attempts n))); [by left|by right]. }
    - left. exists n. split; [lia|by split].
    - right. intros j Hj. destruct (decide (j = n)) as [->|]; [done|apply IH; lia]. }
  destruct (H (S K)) as [(k & Hk & Hd)|Hall]; [exists k; split; [lia|done]|]. destruct (Hall K) as [_ ?]; lia.
Qed.

Lemma deadline_loop_decides attempts deadline k fuel i :
  decides attempts deadline k → (i <= k)%nat → (k - i < fuel)%nat →
  deadline_loop fuel attempts deadline i = match try_guard (attempts k) with Ok false => Err WriterTimeout | r => r end.
Proof.
  intros [Hbefore Hk]. revert i. induction fuel as [|fuel IH]; intros i Hi Hf; [lia|]. cbn [deadline_loop]. destruct (decide (i = k)) as [->|Hne].
  - destruct (try_guard (attempts k)) as [[]|e|w]; cbn; [done| |done..]. specialize (Hk eq_refl). btest. done.
  - destruct (Hbefore i) as [-> Hlt]; [lia|]. cbn [mbind res_bind]. btest. apply IH; lia.
Qed.

(** C22: Waiting for the writer's locks ends.  If the clock ever reaches the deadline,
    then for all but finitely small fuel the wait ends at the same attempt: the first
    one that gets the locks or fails, or the first that is refused at or after the
    deadline.  It times out only in the last case, and never before the deadline. *)
Theorem deadline_wait_ends (attempts : nat → Attempt) (deadline : Z) (K : nat) :
  deadline <= at_now (attempts K) →
  ∃ k, (k <= K)%nat ∧ (∀ j, (j < k)%nat → try_guard (attempts j) = Ok false ∧ at_now (attempts j) < deadline) ∧
    (∀ fuel, (k < fuel)%nat → acquire fuel attempts (Deadline deadline) = match try_guard (attempts k) with Ok false => Err WriterTimeout | r => r end) ∧
    (try_guard (attempts k) = Ok false → deadline <= at_now (attempts k)).
Proof.
  intros HK. destruct (decides_exists attempts deadline K HK) as (k & Hk & Hd). exists k. split_and!; [done|apply Hd| |apply Hd].
  intros fuel Hf. apply deadline_loop_decides; [done|lia..].
Qed.

Lemma deadline_wait_ends_witness :
  ∃ k, ∀ fuel, (k < fuel)%nat → acquire fuel (λ i, mkAttempt false Locked true (Z.of_nat i)) (Deadline 5) = Err WriterTimeout.
Proof.
  destruct (deadline_wait_ends (λ i, mkAttempt false Locked true (Z.of_nat i)) 5 5) as (k & _ & _ & H & _); [apply Z.leb_le; reflexivity|].
  exists k. exact H.
Defined.

(** ** The list of open readers *)

Lemma remove_one_Permutation x l : x ∈ l → x :: remove_one x l ≡ₚ l.
Proof.
  induction l as [|y l IH]; [by intros ?%elem_of_nil|]. cbn. destruct (Z.eqb_spec y x) as [->|Hne]; [done|].
  intros [->|Hin]%elem_of_cons; [done|]. by rewrite Permutation_swap, (IH Hin).
Qed.

Lemma remove_one_sorted x l : StronglySorted Z.le l → StronglySorted Z.le (remove_one x l).
Proof.
  induction l as [|y l IH]; [done|]. intros [Hall Hs]%StronglySorted_cons. cbn. case_match; [done|]. apply StronglySorted_cons. split; [|by apply IH].
  rewrite Forall_forall in *. intros z Hz. apply Hall. clear -Hz. revert Hz. induction l as [|w l IH]; [done|]. cbn. case_match; set_solver.
Qed.

Lemma remove_pushed x l : StronglySorted Z.le l → remove_one x (merge_sort Z.le (l ++ [x])) = l.
Proof.
  intros Hs. apply (StronglySorted_unique Z.le); [|done|].
  { apply remove_one_sorted, (StronglySorted_merge_sort Z.le). }
  apply (Permutation_cons_inv (a := x)). rewrite remove_one_Permutation; [rewrite merge_sort_Permutation; by rewrite Permutation_app_comm|].
  rewrite merge_sort_Permutation. set_solver.
Qed.

Section bookkeeping.
Context `{D : Digest} `{L : LockTable} (try_token : Z → res bool) (counter : Z).

Lemma begin_reader_inv db file tx db' :
  begin_reader try_token counter db file = (Ok tx, db') →
  x_writable tx = false ∧ in_open_ro_txs db' = merge_sort Z.le (in_open_ro_txs db ++ [tx_id (x_meta tx)]).
Proof.
  unfold begin_reader. set (db0 := if in_coordination db then refresh db file else db).
  assert (in_open_ro_txs db0 = in_open_ro_txs db) as E0 by (unfold db0, refresh; by destruct (in_coordination db), (in_len db =? len_u64 file)).
  destruct (db_meta (mapped db0 file) (in_pagesize db0) ≫= _) as [[m reg]|e|w]; [|done..]. unfold tx_from. intros E.
  pose proof (f_equal fst E) as Ht. pose proof (f_equal snd E) as Hd. cbn [fst snd] in Ht, Hd. clear E. rewrite <-Hd. clear Hd. res_inv.
  cbn [x_writable x_meta]. split; [done|]. unfold note_reader, with_open_ro_txs. cbn [in_open_ro_txs]. by rewrite E0.
Qed.

(** A reader that ends is forgotten, whatever its operation did. *)
Lemma db_view_forgets {A} (operation : TxState → res A) db file :
  StronglySorted Z.le (in_open_ro_txs db) →
  match begin_reader try_token counter db file with
  | (Ok _, _) => in_open_ro_txs (snd (db_view try_token counter operation db file)) = in_open_ro_txs db
  | _ => True
  end.
Proof.
  intros Hs. unfold db_view. destruct (begin_reader try_token counter db file) as [[tx|e|w] db'] eqn:E; [|done..].
  destruct (begin_reader_inv db file tx db' E) as [Hw Ht]. cbn [snd]. unfold drop_tx. rewrite Hw. cbn. rewrite Ht. by apply remove_pushed.
Qed.

Lemma begin_reader_fail db file m e :
  in_coordination db = false → db_meta (mapped db file) (in_pagesize db) = Ok m →
  validate_block (mapped db file) (freelist_page m) (in_pagesize db) = Err e →
  begin_reader try_token counter db file = (Err e, note_reader db (tx_id m)).
Proof.
  intros Hc Hm Hv. unfold begin_reader. rewrite Hc. cbv iota. rewrite Hc, Hm. cbn [mbind res_bind]. unfold tx_from.
  change (mapped (note_reader db (tx_id m)) file) with (mapped db file). change (in_pagesize (note_reader db (tx_id m))) with (in_pagesize db).
  by rewrite Hv.
Qed.

(** A reader that cannot start stays counted.  When the freelist page of the
    current metadata does not validate, a handle without coordination fails to begin
    a reader after it has noted the reader's snapshot, and nothing removes the note:
    every further attempt, and every [verify], adds another, and the statistics
    report readers that do not exist. *)
Theorem failed_reader_stays_counted (db : DBInner) (file : bytes) (m : Meta) (e : Error) :
  in_coordination db = false → db_meta (mapped db file) (in_pagesize db) = Ok m → in_open_ro_txs db = [] →
  validate_block (mapped db file) (freelist_page m) (in_pagesize db) = Err e →
  let db1 := snd (begin_reader try_token counter db file) in
  fst (begin_reader try_token counter db file) = Err e ∧ in_open_ro_txs db1 = [tx_id m] ∧
  in_open_ro_txs (snd (begin_reader try_token counter db1 file)) = [tx_id m; tx_id m].
Proof.
  intros Hc Hm Hn Hv db1. subst db1. rewrite (begin_reader_fail db file m e Hc Hm Hv). cbn [fst snd].
  rewrite (begin_reader_fail (note_reader db (tx_id m)) file m e Hc Hm Hv). cbn [snd]. unfold note_reader, with_open_ro_txs. cbn [in_open_ro_txs]. rewrite Hn.
  split; [done|]. split; [done|]. cbn. unfold merge_sort. cbn. by case_decide.
Qed.

End bookkeeping.

(** ** Messages that name a page *)

Lemma digit_char d : (d < 10)%N → Ascii.nat_of_ascii (pretty_N_char d) = (48 + N.to_nat d)%nat.
Proof. intros H. assert (d = 0 ∨ d = 1 ∨ d = 2 ∨ d = 3 ∨ d = 4 ∨ d = 5 ∨ d = 6 ∨ d = 7 ∨ d = 8 ∨ d = 9)%N as Hd by lia. by repeat destruct Hd as [->|Hd]; [..|subst]. Qed.

(** Reading the digits of a number gives it back. *)
Lemma parse_digits_go x s : Z.of_N x <= u64_max → parse_digits 0 (pretty_N_go x s) = parse_digits (Z.of_N x) s.
Proof.
  revert s. induction (N.lt_wf_0 x) as [x _ IH]; intros s Hx. destruct (decide (x = 0)%N) as [->|Hne]; [done|].
  assert (0 < x)%N as Hpos by lia. rewrite pretty_N_go_step by done. pose proof (N.div_lt x 10 Hpos eq_refl) as Hlt.
  pose proof (N.div_mod x 10 ltac:(done)) as Hdm. pose proof (N.mod_lt x 10 ltac:(done)) as Hr.
  rewrite IH by lia. revert Hdm Hr. generalize (x / 10)%N as q, (x mod 10)%N as r. intros q r Hdm Hr. cbn [parse_digits]. rewrite digit_char by done. rewrite !(proj2 (Nat.leb_le _ _)) by lia. cbn [andb].
  replace (Z.of_N q * 10 + (Z.of_nat (48 + N.to_nat r) - 48)) with (Z.of_N x) by lia. btest. done.
Qed.

Lemma digits_alphanumeric x s w ws :
  split_words s = (w, ws) → split_words (pretty_N_go x s) = (pretty_N_go x w, ws).
Proof.
  revert s w. induction (N.lt_wf_0 x) as [x _ IH]; intros s w Hs. destruct (decide (x = 0)%N) as [->|Hne]; [done|].
  rewrite (pretty_N_go_step x s), (pretty_N_go_step x w) by lia. apply IH; [by apply N.div_lt; [lia|]|]. cbn [split_words]. rewrite Hs.
  assert (is_alphanumeric (pretty_N_char (x mod 10)) = true) as ->; [|done]. unfold is_alphanumeric. pose proof (N.mod_lt x 10 ltac:(done)) as Hr. revert Hr. generalize (x mod 10)%N as r. intros r Hr.
  rewrite digit_char by done. rewrite (proj2 (Nat.leb_le 48 _)), (proj2 (Nat.leb_le _ 57)) by lia. done.
Qed.

(** Where the number of a page meets the rest of a message. *)
Lemma dec_app x s : 0 <= x → dec x +:+ s = match x with Z0 => "0" +:+ s | _ => pretty_N_go (Z.to_N x) s end.
Proof.
  assert (∀ y s t, pretty_N_go y s +:+ t = pretty_N_go y (s +:+ t)) as Happ.
  { intros y. induction (N.lt_wf_0 y) as [y _ IH]; intros s0 t. destruct (decide (y = 0)%N) as [->|Hne]; [done|].
    rewrite !(pretty_N_go_step y) by lia. rewrite IH by (by apply N.div_lt; [lia|]). done. }
  intros Hx. destruct x as [|p|p]; [done| |lia]. unfold dec, pretty, pretty_Z, pretty, pretty_positive, pretty, pretty_N. rewrite decide_False by done. apply Happ.
Qed.

Lemma append_cons c s t : String.String c s +:+ t = String.String c (s +:+ t).
Proof. reflexivity. Qed.
Lemma append_empty t : "" +:+ t = t.
Proof. reflexivity. Qed.

Lemma split_words_cons c s :
  split_words (String.String c s) =
    if is_alphanumeric c then (String.String c (fst (split_words s)), snd (split_words s)) else (EmptyString, fst (split_words s) :: snd (split_words s)).
Proof. cbn [split_words]. by destruct (split_words s). Qed.

(** An integrity report names the page.  Whatever the number of the page, the
    structured report for a message of the integrity check that starts with the
    page, for a leaf or branch page out of order, and for an overflow page, carries
    exactly that number and its offset in the file. *)
Theorem report_names_page (db : DBInner) (file : bytes) (x : Z) (what : string) (before : string) :
  0 <= x <= u64_max → before ∈ ["Page "; "Overflow Page "; "Leaf page "; "Branch page "; "Found Invalid Freelist Page "] →
  let issues := vr_issues (report_issue db file (before +:+ dec x +:+ " " +:+ what)) in
  is_page_id <$> issues = [Some x] ∧ is_offset <$> issues = [checked_mul x (in_pagesize db)].
Proof.
  intros Hx Hb. assert (extract_page_id (before +:+ dec x +:+ " " +:+ what) = Some x) as E; [|unfold report_issue; rewrite E; done].
  rewrite dec_app by lia. assert (∃ w ws, split_words (" " +:+ what) = (EmptyString, w :: ws)) as (w & ws & Ew).
  { exists (fst (split_words what)), (snd (split_words what)). by rewrite append_cons, append_empty, split_words_cons. }
  assert (∃ num, split_words (match x with Z0 => "0" +:+ " " +:+ what | _ => pretty_N_go (Z.to_N x) (" " +:+ what) end) = (num, w :: ws) ∧ parse_u64 num = Some x ∧ num ≠ EmptyString)
    as (num & En & Hp & Hne).
  { destruct x as [|p|p]; [|exists (pretty_N_go (Npos p) EmptyString)|lia].
    - exists "0". by rewrite append_cons, append_empty, split_words_cons, Ew.
    - assert (pretty_N_go (Npos p) EmptyString ≠ EmptyString) as Hnil.
      { intros E. pose proof (parse_digits_go (Npos p) EmptyString ltac:(lia)) as H. rewrite E in H. cbn in H. congruence. }
      split_and!; [by apply digits_alphanumeric| |done]. unfold parse_u64. destruct (pretty_N_go (Npos p) EmptyString) eqn:E; [done|]. rewrite <-E.
      rewrite parse_digits_go by lia. done. }
  revert En. generalize (match x with Z0 => "0" +:+ " " +:+ what | _ => pretty_N_go (Z.to_N x) (" " +:+ what) end) as tail. intros tail En.
  unfold extract_page_id. repeat (apply elem_of_cons in Hb as [->|Hb]); [..|by apply elem_of_nil in Hb].
  all: unfold String.append; cbn [split_words]; rewrite En; destruct num as [|c num]; [done|].
  all: cbv -[parse_u64]; by rewrite Hp.
Qed.

(** ** On concrete files *)

Module Opened.

#[local] Existing Instance toy_digest.

Definition flags : DBFlags := mkFlags ReadBack false false false false.

(** A new database of four pages of 1024 bytes, on a system with pages of 4096. *)
Definition small : OpenOptions := mkOpenOptions (Some 1024) 4 None MIN_ALLOC_SIZE flags.
Definition plain : OpenOptions := mkOpenOptions None 32 None MIN_ALLOC_SIZE flags.

(** A read-only handle on a file whose freelist page lost a byte. *)
Definition damaged : bytes := <[2048%nat := Byte.x07]> Demo.disk.
Definition handle : DBInner := mkDBInner 4096 freelist_new [] false false (mkFlags ReadBack false false true false) 1024 None 4096 0 0.

End Opened.

Lemma open_roundtrip_witness :
  ∃ f, @open toy_digest 9 (λ _, Ok true) 0 4096 Opened.small None = (Ok (opened Opened.small f 1024 freelist_new), Some f) ∧
    @open toy_digest 9 (λ _, Ok true) 0 65536 Opened.plain (Some f) = (Ok (opened Opened.plain f 1024 freelist_new), Some f).
Proof.
  destruct (@open_roundtrip toy_digest 9 (λ _, Ok true) 0 4096 Opened.small) as [(f & E & Hl & Hok & Hp) Hre];
    [apply Z.leb_le; reflexivity|reflexivity|apply Z.leb_le; reflexivity..|reflexivity|reflexivity|].
  exists f. split; [exact E|]. specialize (Hp ltac:(apply Z.ltb_lt; reflexivity)). rewrite (Hre f _ _ 65536 Opened.plain Hok Hp eq_refl).
  change (default (default 4096 (oo_pagesize Opened.small)) (oo_pagesize Opened.plain)) with 1024. rewrite bool_decide_eq_true_2 by reflexivity. rewrite Hl. reflexivity.
Defined.


Lemma failed_reader_stays_counted_witness :
  ∃ m, @db_meta toy_digest Opened.damaged 1024 = Ok m ∧
    in_open_ro_txs (snd (@begin_reader toy_digest (λ _, Ok true) 0 Opened.handle Opened.damaged)) = [tx_id m].
Proof.
  assert ((match @db_meta toy_digest (mapped Opened.handle Opened.damaged) 1024 with
           | Ok m => match @validate_block toy_digest (mapped Opened.handle Opened.damaged) (freelist_page m) 1024 with Err _ => true | _ => false end | _ => false end) = true)
    as H by (vm_compute; reflexivity).
  destruct (@db_meta toy_digest (mapped Opened.handle Opened.damaged) 1024) as [m| |] eqn:Em; [|discriminate H..].
  destruct (validate_block (mapped Opened.handle Opened.damaged) (freelist_page m) 1024) as [p|e|] eqn:Ev; [discriminate H| |discriminate H].
  assert (mapped Opened.handle Opened.damaged = Opened.damaged) as Ed by (apply mapped_all; vm_compute; reflexivity).
  exists m. split; [rewrite <-Ed; exact Em|].
  exact (proj1 (proj2 (@failed_reader_stays_counted toy_digest (λ _, Ok true) 0 Opened.handle Opened.damaged m e eq_refl Em eq_refl Ev))).
Defined.

Lemma report_names_page_witness :
  is_page_id <$> vr_issues (report_issue Opened.handle [] "Page 18446744073709551615 missing from unused_pages") = [Some (2 ^ 64 - 1)].
Proof.
  assert (0 <= 2 ^ 64 - 1 <= u64_max) as Hx by (split; apply Z.leb_le; reflexivity).
  assert ("Page " ∈ ["Page "; "Overflow Page "; "Leaf page "; "Branch page "; "Found Invalid Freelist Page "]) as Hb by left.
  exact (proj1 (report_names_page Opened.handle [] (2 ^ 64 - 1) "missing from unused_pages" "Page " Hx Hb)).
Defined.
