(* ===== verification/Backup.v ===== *)
(** * Copies of a database

    [src/src/storage/maintenance.rs] (the copy behind [backup_to] and [compact_to]),
    [src/src/storage/operator.rs] (salvage) and the text of errors
    ([Display] of [src/src/support/errors.rs]), which the salvage records.  A copy
    reads one transaction and writes another; their states are passed side by side.
    Paths are names in a map of files.  The recursion over nested buckets takes
    [depth], the loop over the entries of one bucket [n]. *)

From S2P Require Import Prelude Search Support Layout Meta Freelist Node Page PageNode Inner Spill Buckets Cursor Changes Handle Store Nested Codecs.
From S2P Require Import Db Commit Tx Coordination Open Check Ttl Scan Merge Run Session.

(** ** The text of an error *)

Definition REPLACEMENT : bytes := [Byte.xef; Byte.xbf; Byte.xbd].

(** [String::from_utf8_lossy]: what cannot start or continue a sequence is replaced. *)
Fixpoint from_utf8_lossy (l : bytes) : bytes :=
  match l with
  | [] => []
  | b0 :: l1 =>
      let z := Z_of_byte b0 in
      if z <? 0x80 then b0 :: from_utf8_lossy l1
      else if within 0xC2 0xDF z then
        match l1 with
        | b1 :: l2 => if is_cont b1 then b0 :: b1 :: from_utf8_lossy l2 else REPLACEMENT ++ from_utf8_lossy l1
        | [] => REPLACEMENT
        end
      else if within 0xE0 0xEF z then
        match l1 with
        | b1 :: l2 =>
            if second3 z (Z_of_byte b1) then
              match l2 with
              | b2 :: l3 => if is_cont b2 then b0 :: b1 :: b2 :: from_utf8_lossy l3 else REPLACEMENT ++ from_utf8_lossy l2
              | [] => REPLACEMENT
              end
            else REPLACEMENT ++ from_utf8_lossy l1
        | [] => REPLACEMENT
        end
      else if within 0xF0 0xF4 z then
        match l1 with
        | b1 :: l2 =>
            if second4 z (Z_of_byte b1) then
              match l2 with
              | b2 :: l3 =>
                  if is_cont b2 then
                    match l3 with
                    | b3 :: l4 => if is_cont b3 then b0 :: b1 :: b2 :: b3 :: from_utf8_lossy l4 else REPLACEMENT ++ from_utf8_lossy l3
                    | [] => REPLACEMENT
                    end
                  else REPLACEMENT ++ from_utf8_lossy l2
              | [] => REPLACEMENT
              end
            else REPLACEMENT ++ from_utf8_lossy l1
        | [] => REPLACEMENT
        end
      else REPLACEMENT ++ from_utf8_lossy l1
  end.

Definition string_of_bytes (l : bytes) : string := String.string_of_list_byte l.

(** [display_path] *)
Definition display_path (path : list bytes) : string := String.concat "/" ((λ part, string_of_bytes (from_utf8_lossy part)) <$> path).

(** [Display for Error]; the text of an allocation error is the library's. *)
Definition error_to_string (e : Error) : string :=
  match e with
  | BucketExists => "Bucket already exists"
  | BucketMissing => "Bucket does not exist"
  | KeyValueMissing => "Key / Value pair does not exist"
  | IncompatibleValue => "Value not compatible"
  | ReadOnlyTx => "Cannot write in a read-only transaction"
  | ReadOnlyDB => "Cannot write to a read-only database"
  | WriterTimeout => "Timed out waiting for the database writer"
  | CapacityExceeded required maximum =>
      "Database capacity exceeded: requires " +:+ dec required +:+ " bytes, maximum is " +:+ dec maximum +:+ " bytes"
  | MergeConflict path => "Merge conflict at " +:+ display_path path
  | Io e => "IO Error: " +:+ io_message e
  | Sync s => "Sync Error: " +:+ s
  | InvalidDB s => "Invalid DB: " +:+ s
  | Alloc => "Allocation error: invalid parameters to Layout::from_size_align"
  end.

(** ** Copying a bucket *)

(** [target.inner.borrow_mut().meta.next_int = ..] *)
Definition set_next_int (b : InnerBucket) (next : Z) : InnerBucket := with_meta b (mkBucketMeta (root_page (ib_meta b)) next).
Definition bucket_set_next_int (h : Bucket) (next : Z) (s : TxState) : res TxState :=
  b ← bucket_at (ts_buckets s) (bk_inner h);
  Ok (set_bucket s (bk_inner h) (set_next_int b next)).

Section copy.
Context (fuel n : nat).

(** The loop over the cursor of the source; [nested] copies one nested bucket. *)
Fixpoint copy_entries (nested : Bucket → Bucket → TxState → TxState → res (TxState * TxState)) (n : nat) (source target : Bucket) (c : Cursor)
    (src_ dst : TxState) : res (TxState * TxState) :=
  match n with
  | O => Panic NOFUEL
  | S n =>
      b ← bucket_at (ts_buckets src_) (bk_inner source);
      '(data, c) ← advance fuel b c;
      match data with
      | None => Ok (src_, dst)
      | Some (DKeyValue key value) =>
          '(_, dst) ← bucket_put fuel target key value dst;
          copy_entries nested n source target c src_ dst
      | Some (DBucket name) =>
          '(source_child, src_) ← bucket_get_bucket fuel source name src_;
          '(target_child, dst) ← bucket_create_bucket fuel target name dst;
          '(src_, dst) ← nested source_child target_child src_ dst;
          copy_entries nested n source target c src_ dst
      end
  end.

Fixpoint copy_bucket (depth : nat) (source target : Bucket) (src_ dst : TxState) : res (TxState * TxState) :=
  match depth with
  | O => Panic NOFUEL
  | S depth =>
      c ← bucket_cursor source src_;
      '(src_, dst) ← copy_entries (copy_bucket depth) n source target c src_ dst;
      next ← bucket_next_int source src_;
      dst ← bucket_set_next_int target next dst;
      Ok (src_, dst)
  end.

(** ** Copying a snapshot *)

Fixpoint copy_roots (depth m : nat) (c : Cursor) (src_ dst : TxState) : res (TxState * TxState) :=
  match m with
  | O => Panic NOFUEL
  | S m =>
      '(entry, (c, st)) ← buckets_next fuel ROOT n (c, ts_buckets src_);
      let src_ := set_buckets src_ st in
      match entry with
      | None => Ok (src_, dst)
      | Some (name, r) =>
          '(target_bucket, dst) ← tx_create_bucket fuel true name dst;
          '(src_, dst) ← copy_bucket depth (mkBucket r false (path_root name)) target_bucket src_ dst;
          copy_roots depth m c src_ dst
      end
  end.

(** The buckets and the counter of the root. *)
Definition copy_tx (depth : nat) (src_ dst : TxState) : res TxState :=
  '(src_, dst) ← copy_roots depth n cursor_new src_ dst;
  b ← bucket_at (ts_buckets src_) ROOT;
  bucket_set_next_int (mkBucket ROOT true []) (next_int (ib_meta b)) dst.

(** ** Salvage *)

Record SkippedRecord := mkSkipped { sr_bucket_path : list bytes; sr_key : option bytes; sr_reason : string }.
Record SalvageManifest := mkManifest {
  copied_buckets : Z; copied_records : Z; skipped_pages : list Z; skipped_records : list SkippedRecord
}.
Definition manifest_default : SalvageManifest := mkManifest 0 0 [] [].

Definition count_bucket (m : SalvageManifest) : SalvageManifest :=
  mkManifest (copied_buckets m + 1) (copied_records m) (skipped_pages m) (skipped_records m).
Definition count_record (m : SalvageManifest) : SalvageManifest :=
  mkManifest (copied_buckets m) (copied_records m + 1) (skipped_pages m) (skipped_records m).
Definition skip_record (m : SalvageManifest) (r : SkippedRecord) : SalvageManifest :=
  mkManifest (copied_buckets m) (copied_records m) (skipped_pages m) (skipped_records m ++ [r]).

(** The loop over the cursor: a panic of [cursor.next()] ends the bucket, an error
    ends the salvage. *)
Fixpoint salvage_entries (nested : Bucket → Bucket → list bytes → SalvageManifest → TxState → TxState → res (SalvageManifest * TxState * TxState))
    (n : nat) (source target : Bucket) (c : Cursor) (path : list bytes) (manifest : SalvageManifest) (src_ dst : TxState)
    : res (SalvageManifest * TxState * TxState) :=
  match n with
  | O => Panic NOFUEL
  | S n =>
      match (b ← bucket_at (ts_buckets src_) (bk_inner source); advance fuel b c) with
      | Panic w =>
          if bool_decide (w = NOFUEL) then Panic w
          else Ok (skip_record manifest (mkSkipped path None "panic while traversing damaged bucket"), src_, dst)
      | Err e => Err e
      | Ok (None, _) => Ok (manifest, src_, dst)
      | Ok (Some (DKeyValue key value), c) =>
          '(_, dst) ← bucket_put fuel target key value dst;
          salvage_entries nested n source target c path (count_record manifest) src_ dst
      | Ok (Some (DBucket key), c) =>
          match bucket_get_bucket fuel source key src_ with
          | Ok (source_child, src_) =>
              '(target_child, dst) ← bucket_create_bucket fuel target key dst;
              '(manifest, src_, dst) ← nested source_child target_child (path ++ [key]) (count_bucket manifest) src_ dst;
              salvage_entries nested n source target c path manifest src_ dst
          | Err error =>
              salvage_entries nested n source target c path (skip_record manifest (mkSkipped path (Some key) (error_to_string error))) src_ dst
          | Panic w => Panic w
          end
      end
  end.

Fixpoint salvage_bucket (depth : nat) (source target : Bucket) (path : list bytes) (manifest : SalvageManifest) (src_ dst : TxState)
    : res (SalvageManifest * TxState * TxState) :=
  match depth with
  | O => Panic NOFUEL
  | S depth =>
      c ← bucket_cursor source src_;
      '(manifest, src_, dst) ← salvage_entries (salvage_bucket depth) n source target c path manifest src_ dst;
      next ← bucket_next_int source src_;
      dst ← bucket_set_next_int target next dst;
      Ok (manifest, src_, dst)
  end.

Fixpoint salvage_roots (depth m : nat) (c : Cursor) (manifest : SalvageManifest) (src_ dst : TxState)
    : res (SalvageManifest * TxState * TxState) :=
  match m with
  | O => Panic NOFUEL
  | S m =>
      '(entry, (c, st)) ← buckets_next fuel ROOT n (c, ts_buckets src_);
      let src_ := set_buckets src_ st in
      match entry with
      | None => Ok (manifest, src_, dst)
      | Some (name, r) =>
          '(target_bucket, dst) ← tx_create_bucket fuel true name dst;
          '(manifest, src_, dst) ← salvage_bucket depth (mkBucket r false (path_root name)) target_bucket [name] (count_bucket manifest) src_ dst;
          salvage_roots depth m c manifest src_ dst
      end
  end.

End copy.

(** ** Files *)

Section files.
Context `{D : Digest} `{L : LockTable} (fuel n : nat) (try_token : Z → res bool) (counter os_page_size : Z) (attempts : nat → Attempt).

(** The options of a new target: [OpenOptions::new().pagesize(page_size)]. *)
Definition target_options (page_size : Z) : res OpenOptions := o ← options_default os_page_size; with_pagesize o page_size.

(** [copy_snapshot]: the contents of the new file. *)
Definition copy_snapshot (depth : nat) (source : DBInner) (source_file : bytes) (page_size : Z) : res bytes * DBInner :=
  match begin_reader try_token counter source source_file with
  | (Ok source_tx, source) =>
      (o ← target_options page_size;
       let '(target, disk) := open fuel try_token counter os_page_size o None in
       target ← target;
       let file := default [] disk in
       let '(target_tx, target) := write_tx fuel attempts Blocking target file in
       target_tx ← target_tx;
       s ← copy_tx fuel n depth (x_state source_tx) (x_state target_tx);
       let '(committed_, target, file) := commit fuel target file (with_state target_tx s) in
       _ ← committed_;
       _ ← fst (verify fuel try_token counter target file);
       Ok file, drop_tx source source_tx)
  | (Err e, source) => (Err e, source)
  | (Panic w, source) => (Panic w, source)
  end.

(** [DB::copy_to], behind [backup_to] and [compact_to]: the files by their paths; the
    temporary file is renamed or removed. *)
Definition copy_to (depth : nat) (source : DBInner) (path destination : string) (page_size : Z) (fs : gmap string bytes) : res unit * gmap string bytes :=
  if bool_decide (path = destination) then
    (Err (Io (mkIoError InvalidInput "source and destination database paths are the same")), fs)
  else match fs !! destination with
  | Some _ => (Err (Io (mkIoError AlreadyExists "backup destination already exists")), fs)
  | None =>
      match fst (copy_snapshot depth source (default [] (fs !! path)) page_size) with
      | Ok file => (Ok (), <[destination := file]> fs)
      | Err e => (Err e, fs)
      | Panic w => (Panic w, fs)
      end
  end.

Definition backup_to (depth : nat) (source : DBInner) (path destination : string) (fs : gmap string bytes) : res unit * gmap string bytes :=
  copy_to depth source path destination (in_pagesize source) fs.
Definition compact_to (depth : nat) (source : DBInner) (path destination : string) (fs : gmap string bytes) : res unit * gmap string bytes :=
  copy_to depth source path destination (in_pagesize source) fs.
Definition compact_to_with_page_size := copy_to.

(** [DB::backup_writer]: the bytes for the writer, through a temporary file. *)
Definition backup_writer (depth : nat) (source : DBInner) (path temporary : string) (fs : gmap string bytes) : res bytes * gmap string bytes :=
  let '(result, fs) := backup_to depth source path temporary fs in
  (_ ← result; ok_or (fs !! temporary) (Io (mkIoError NotFound "No such file or directory (os error 2)")), delete temporary fs).

(** [reject_destination] of [operator.rs] *)
Definition reject_destination (path destination : string) (fs : gmap string bytes) : res unit :=
  match fs !! destination with
  | Some _ => Err (Io (mkIoError AlreadyExists "destination already exists"))
  | None => fail_if (bool_decide (path = destination)) (Io (mkIoError InvalidInput "source and destination are the same"))
  end.

(** [DB::physical_backup_to]: a byte-for-byte copy taken while no writer is active. *)
Definition physical_backup (source : DBInner) (path destination : string) (fs : gmap string bytes) : res unit * gmap string bytes :=
  let source_file := default [] (fs !! path) in
  match (_ ← reject_destination path destination fs;
         _ ← fst (write_tx fuel attempts Blocking source source_file);
         o ← options_default os_page_size;
         fst (open fuel try_token counter os_page_size (set_verify_on_open (set_read_only o) true) (Some source_file))) with
  | Ok _ => (Ok (), <[destination := source_file]> fs)
  | Err e => (Err e, fs)
  | Panic w => (Panic w, fs)
  end.

(** The part of [salvage_to] after the target was created: the manifest and the
    contents of the target, which is written in place. *)
Definition salvage_into (depth : nat) (source : DBInner) (source_file : bytes) (source_tx : Tx) (target : DBInner) (file : bytes)
    : res SalvageManifest * bytes :=
  let '(target_tx, target) := write_tx fuel attempts Blocking target file in
  let pages := match fst (verify_report fuel try_token counter source source_file) with
    | Ok report => omap is_page_id (vr_issues report)
    | _ => []
    end in
  match (target_tx ← target_tx;
         '(manifest, _, s) ← salvage_roots fuel n depth n cursor_new (mkManifest 0 0 pages []) (x_state source_tx) (x_state target_tx);
         Ok (manifest, with_state target_tx s)) with
  | Ok (manifest, target_tx) =>
      let '(committed_, target, file) := commit fuel target file target_tx in
      (_ ← committed_; _ ← fst (verify fuel try_token counter target file); Ok manifest, file)
  | Err e => (Err e, file)
  | Panic w => (Panic w, file)
  end.

(** [DB::salvage_to] *)
Definition salvage_to (depth : nat) (source : DBInner) (path destination : string) (fs : gmap string bytes) : res SalvageManifest * gmap string bytes :=
  let source_file := default [] (fs !! path) in
  match (_ ← reject_destination path destination fs;
         let '(source_tx, source) := begin_reader try_token counter source source_file in
         source_tx ← source_tx;
         o ← target_options (in_pagesize source);
         Ok (source_tx, source, o)) with
  | Ok (source_tx, source, o) =>
      match open fuel try_token counter os_page_size o None with
      | (Ok target, disk) =>
          let '(result, file) := salvage_into depth source source_file source_tx target (default [] disk) in
          (result, <[destination := file]> fs)
      | (Err e, disk) => (Err e, match disk with Some file => <[destination := file]> fs | None => fs end)
      | (Panic w, disk) => (Panic w, match disk with Some file => <[destination := file]> fs | None => fs end)
      end
  | Err e => (Err e, fs)
  | Panic w => (Panic w, fs)
  end.

End files.
