(* ===== verification/CopyTree.v ===== *)
(** * What a copy holds

    The copy of [Backup] follows the nesting of the buckets.  A bucket as a tree of
    values and buckets ([Tree]), what a file stores ([stored]) and what the open
    buckets of a transaction show ([shown]); a copy takes the one to the other, and
    the salvage of a readable file is the same copy. *)

From S2P Require Import Prelude Search Support Layout Meta Freelist Node Page PageNode Inner Spill Buckets Cursor Changes Handle Store Nested Codecs.
From S2P Require Import Db Commit Tx Coordination Open Check Ttl Scan Merge Run Session Backup SpillTree Reopen.

(** ** Sorted lists of entries *)

Lemma leaf_map_elem es l : keys_sorted leaf_key es → l ∈ es ↔ leaf_map es !! leaf_key l = Some l.
Proof.
  intros Hs. rewrite leaf_map_assoc. split; [by apply assoc_elem|]. by intros [? _]%assoc_Some_elem.
Qed.

(** A sorted list is determined by its map. *)
Lemma leaf_map_inj es es' : keys_sorted leaf_key es → keys_sorted leaf_key es' → leaf_map es = leaf_map es' → es = es'.
Proof.
  intros Hs Hs' Em. assert (∀ l, l ∈ es ↔ l ∈ es') as Hin by (intros l; rewrite !leaf_map_elem, Em by done; done). clear Em. revert es' Hs' Hin.
  induction es as [|x es IH]; intros [|y es'] Hs' Hin.
  - done.
  - pose proof (proj2 (Hin y) ltac:(left)) as []%elem_of_nil.
  - pose proof (proj1 (Hin x) ltac:(left)) as []%elem_of_nil.
  - apply keys_sorted_cons in Hs as [Hx Hs]. apply keys_sorted_cons in Hs' as [Hy Hs'].
    assert (x = y) as ->.
    { pose proof (proj1 (Hin x) ltac:(left)) as [|Hxy]%elem_of_cons; [done|]. pose proof (proj2 (Hin y) ltac:(left)) as [|Hyx]%elem_of_cons; [done|].
      destruct (lex_lt_irrefl (leaf_key x)). eapply lex_lt_trans; eauto. }
    f_equal. apply IH; try done. intros l. split; intros Hl.
    + pose proof (proj1 (Hin l) ltac:(by right)) as [->|]%elem_of_cons; [|done]. destruct (lex_lt_irrefl (leaf_key y)); auto.
    + pose proof (proj2 (Hin l) ltac:(by right)) as [->|]%elem_of_cons; [|done]. destruct (lex_lt_irrefl (leaf_key y)); auto.
Qed.

Lemma leaf_map_above es k : (∀ l, l ∈ es → lex_lt (leaf_key l) k) → leaf_map es !! k = None.
Proof. intros Hlt. rewrite leaf_map_assoc. apply assoc_None. intros x Hx E. apply (lex_lt_irrefl k). rewrite <-E at 1. auto. Qed.

(** A new largest key goes to the end. *)
Lemma leaf_map_snoc es es' l :
  keys_sorted leaf_key es → keys_sorted leaf_key es' → (∀ x, x ∈ es → lex_lt (leaf_key x) (leaf_key l)) →
  leaf_map es' = <[leaf_key l := l]> (leaf_map es) → es' = es ++ [l].
Proof.
  intros Hs Hs' Hlt Em. apply leaf_map_inj; [done| |].
  - apply keys_sorted_app. split_and!; [|done|]; [intros a b Ha ->%list_elem_of_singleton; auto|]. apply keys_sorted_cons. split; [|constructor].
    by intros b Hb%elem_of_nil.
  - rewrite Em. apply map_eq. intros k. rewrite leaf_map_assoc, assoc_app. cbn [assoc]. rewrite lookup_insert, leaf_map_assoc.
    destruct (decide (leaf_key l = k)) as [<-|]; [|by destruct (assoc leaf_key es k)].
    by rewrite <-leaf_map_assoc, leaf_map_above.
Qed.

(** ** Trees of buckets *)

Inductive Tree := mkTree (tr_next : Z) (tr_items : list (bytes * Item))
with Item := Value (v : bytes) | Nested (t : Tree).
Definition tree_next (t : Tree) : Z := match t with mkTree next _ => next end.
Definition tree_items (t : Tree) : list (bytes * Item) := match t with mkTree _ items => items end.

(** An entry against an item; [sub] relates a nested bucket to its tree. *)
Definition item_is (sub : bytes → BucketMeta → Tree → Prop) (l : Leaf) (i : bytes * Item) : Prop :=
  match l, i with
  | LKv k v, (k', Value v') => k = k' ∧ v = v'
  | LBucket k m, (k', Nested t) => k = k' ∧ sub k m t
  | _, _ => False
  end.

Lemma item_is_mono (sub sub' : bytes → BucketMeta → Tree → Prop) l i :
  (∀ k m t, l = LBucket k m → sub k m t → sub' k m t) → item_is sub l i → item_is sub' l i.
Proof. intros H. destruct l, i as [k' [v'|t]]; cbn; naive_solver. Qed.

Section trees.
Context (fuel n : nat).

(** The bucket with the stored [meta], never opened, down to a depth. *)
Fixpoint stored (depth : nat) (pages : Pages) (meta : BucketMeta) (t : Tree) : Prop :=
  match depth with
  | O => False
  | S depth =>
      let b := from_meta meta pages in
      ∃ ht es ps, bucket_wf b ht es ps ∧ (ht < fuel)%nat ∧ (leaves_full b ps ∨ ht = O) ∧ Z.of_nat (length es) <= u64_max ∧ (length es < n)%nat ∧
        next_int meta = tree_next t ∧ Forall2 (item_is (λ _ m t, stored depth pages m t)) es (tree_items t)
  end.

(** The open bucket [r]; all its buckets are open, among the references in [within]. *)
Fixpoint shown (within : BucketRef → Prop) (depth : nat) (st : Buckets) (r : BucketRef) (t : Tree) : Prop :=
  match depth with
  | O => False
  | S depth =>
      within r ∧ ∃ b ht es ps, st !! r = Some b ∧ ib_deleted b = false ∧ bucket_wf b ht es ps ∧ (ht < fuel)%nat ∧ next_int (ib_meta b) = tree_next t ∧
        Forall2 (item_is (λ name _ t, ∃ c, ib_buckets b !! name = Some c ∧ shown within depth st c t)) es (tree_items t)
  end.

Lemma shown_same (X X' : BucketRef → Prop) depth st st' r t :
  (∀ r, X r → X' r) → (∀ r, X r → is_Some (st !! r) → st' !! r = st !! r) → shown X depth st r t → shown X' depth st' r t.
Proof.
  intros HX Hst. revert r t. induction depth as [|depth IH]; intros r t; [done|]. cbn [shown]. intros (Hr & b & ht & es & ps & Hb & Hd & Hw & Hf & Hn & Hall).
  split; [auto|]. exists b, ht, es, ps. rewrite Hst, Hb by (done || by rewrite Hb). split_and!; try done. eapply Forall2_impl; [exact Hall|].
  intros l i. apply item_is_mono. intros k m t' _ (c & Hc & Hs). eauto.
Qed.

(** ** One entry *)

(** Everything else that was there stays. *)
Definition kept (r : BucketRef) (st st' : Buckets) : Prop := ∀ r', r' ≠ r → is_Some (st !! r') → st' !! r' = st !! r'.

Lemma kept_trans r st1 st2 st3 : kept r st1 st2 → kept r st2 st3 → kept r st1 st3.
Proof. intros H1 H2 r' Hr Hs. rewrite H2; [by apply H1|done|]. by rewrite H1. Qed.

(** A bucket opened in [r] and then changed. *)
Lemma kept_child st st1 st2 r c name b b' child : Buckets.registered st st1 r c name b b' child → kept c st1 st2 → kept r st st2.
Proof.
  intros [R1 R2 R3 R4 R5 R5d R6 R7] Hk r' Hr Hs. assert (r' ≠ c) as Hc by (intros ->; rewrite R1 in Hs; by destruct Hs).
  rewrite Hk; [by apply R6|done|]. by rewrite R6.
Qed.

(** The source: the stored bucket, some of its buckets opened. *)
Definition source_at (pages : Pages) (meta : BucketMeta) (st : Buckets) (r : BucketRef) (rest : list Leaf) : Prop :=
  refs_ok st ∧ ∃ b, st !! r = Some b ∧ reshaped (from_meta meta pages) b ∧ ∀ l, l ∈ rest → ib_buckets b !! leaf_key l = None.

Lemma source_open pages meta st r l name m rest ht es ps :
  source_at pages meta st r (l :: rest) → l = LBucket name m → keys_sorted leaf_key (l :: rest) →
  bucket_wf (from_meta meta pages) ht es ps → (ht < fuel)%nat → l ∈ es →
  ∃ c st' b b', get_bucket fuel st r name = Ok (c, st') ∧ Buckets.registered st st' r c name b b' (from_meta m pages) ∧
    st !! r = Some b ∧ reshaped b b' ∧ source_at pages meta st' r rest ∧ st' !! c = Some (from_meta m pages).
Proof.
  intros (Href & b & Hb & Hre & Hnone) -> [Hlt _]%keys_sorted_cons Hw Hf Hl. pose proof (reshaped_wf _ b ht es ps Hre Hw) as Hwb.
  pose proof (bucket_getter_ok fuel st r name false false b ht es ps Hb Href Hwb Hf) as Hg. cbv zeta in Hg.
  pose proof (Hnone (LBucket name m) ltac:(left)) as Hnew. cbn [leaf_key] in Hnew. rewrite Hnew in Hg. apply (leaf_map_elem es _ (wf_sorted _ _ _ _ Hw)) in Hl. cbn [leaf_key] in Hl. rewrite Hl in Hg.
  assert (ib_pages b = pages) as Ep by (by destruct Hre as (pp & bk & ->)). rewrite Ep in Hg. destruct Hg as (c & st' & b' & E & Hreg & _ & _).
  destruct (get_bucket_shape fuel st r name b c st' E Hb Href) as (pp & bk & Hb'). rewrite (reg_parent _ _ _ _ _ _ _ _ Hreg) in Hb'. injection Hb' as ->.
  exists c, st', b, (with_buckets (with_page_parents b pp) bk). split_and!; try done; [by exists pp, bk| |by apply Hreg].
  split; [by apply Hreg|]. eexists. split; [by apply Hreg|]. split.
  - destruct Hre as (pp0 & bk0 & ->). by exists pp, bk.
  - intros l' Hl'. rewrite (reg_named _ _ _ _ _ _ _ _ Hreg), lookup_insert_ne; [by apply Hnone; right|]. intros E'. apply (lex_lt_irrefl name).
    rewrite E' at 2. by apply (Hlt l').
Qed.

Lemma source_kept pages meta st st' r c rest : source_at pages meta st r rest → refs_ok st' → kept c st st' → r ≠ c → source_at pages meta st' r rest.
Proof.
  intros (Href & b & Hb & Hr) Href' Hk Hne. split; [done|]. exists b. by rewrite Hk, Hb by (done || by rewrite Hb).
Qed.

(** The target: a bucket in memory with the copied entries. *)
Definition target_at (X : BucketRef → Prop) (depth : nat) (st : Buckets) (r : BucketRef) (es : list Leaf) (items : list (bytes * Item)) : Prop :=
  refs_ok st ∧ ∃ b ps, st !! r = Some b ∧ ib_deleted b = false ∧ bucket_wf b 0 es ps ∧ (∀ name c, ib_buckets b !! name = Some c → ∃ l, l ∈ es ∧ leaf_key l = name) ∧
    Forall2 (item_is (λ name _ t, ∃ c, ib_buckets b !! name = Some c ∧ shown X depth st c t)) es items.

Hypothesis (Hfuel : (0 < fuel)%nat).

(** The entries copied so far stay when the rest of the store only grows. *)
Lemma items_kept (X : BucketRef → Prop) depth st st' r b b' es items :
  ¬ X r → kept r st st' → (∀ name c, ib_buckets b !! name = Some c → ib_buckets b' !! name = Some c) →
  Forall2 (item_is (λ name _ t, ∃ c, ib_buckets b !! name = Some c ∧ shown X depth st c t)) es items →
  Forall2 (item_is (λ name _ t, ∃ c, ib_buckets b' !! name = Some c ∧ shown X depth st' c t)) es items.
Proof.
  intros HX Hk Hb Hall. eapply Forall2_impl; [exact Hall|]. intros l i. apply item_is_mono. intros k m t _ (c & Hc & Hs). exists c. split; [auto|].
  eapply shown_same; [done| |exact Hs]. intros r' HXr Hr'. apply Hk; [|done]. by intros ->.
Qed.

Lemma target_put X depth target k v dst es items :
  target_at X depth (ts_buckets dst) (bk_inner target) es items → bk_writable target = true → ¬ X (bk_inner target) →
  (∀ l, l ∈ es → lex_lt (leaf_key l) k) →
  ∃ o dst', bucket_put fuel target k v dst = Ok (o, dst') ∧ kept (bk_inner target) (ts_buckets dst) (ts_buckets dst') ∧
    target_at X depth (ts_buckets dst') (bk_inner target) (es ++ [LKv k v]) (items ++ [(k, Value v)]).
Proof.
  intros (Href & b & ps & Hb & Hd & Hw & Hch & Hall) Hwr HX Hlt. pose proof (leaf_map_above es k Hlt) as Hnone.
  pose proof (tx_put_law fuel dst target (leaf_map es) k v ltac:(by exists b, O, es, ps)) as Hp. rewrite Hwr, Hnone in Hp. destruct Hp as (dst' & E & _).
  destruct (tx_put_shape fuel dst target k v _ dst' b 0 es ps E Hb Hd Hw Hfuel) as (b' & es' & -> & Hw' & Em & Hbk & _ & Hd' & _).
  apply (leaf_map_snoc es es' (LKv k v)) in Em; [|by eapply wf_sorted..|done]. subst es'. eexists _, _. split; [exact E|].
  assert (kept (bk_inner target) (ts_buckets dst) (<[bk_inner target := b']> (ts_buckets dst))) as Hk by (intros r' Hr _; by apply lookup_insert_ne).
  split; [exact Hk|]. split; [apply refs_ok_update; [done|by rewrite Hb]|]. exists b', ps. split_and!; [apply lookup_insert_eq|done|done| |].
  - intros name c. rewrite Hbk. intros (l & Hl & Ek)%Hch. exists l. split; [|done]. apply elem_of_app. by left.
  - apply Forall2_app; [|by repeat constructor]. apply (items_kept X depth (ts_buckets dst) _ (bk_inner target) b); [exact HX|exact Hk|intros ? ?; by rewrite Hbk|exact Hall].
Qed.

Lemma target_create X depth r st name es items :
  target_at X depth st r es items → (∀ l, l ∈ es → lex_lt (leaf_key l) name) →
  ∃ c st1, create_bucket fuel st r name = Ok (c, st1) ∧ st !! c = None ∧ refs_ok st1 ∧ c ≠ r ∧
    target_at (λ r, st1 !! r = None) depth st1 c [] [] ∧
    ∀ st2 t, refs_ok st2 → kept c st1 st2 → shown (λ r, r = c ∨ st1 !! r = None) depth st2 c t →
      ¬ X r → (∀ r, st !! r = None → X r) →
      kept r st st2 ∧ target_at X depth st2 r (es ++ [LBucket name bucket_meta_default]) (items ++ [(name, Nested t)]).
Proof.
  intros (Href & b & ps & Hb & Hd & Hw & Hch & Hall) Hlt. pose proof (leaf_map_above es name Hlt) as Hnone.
  pose proof (bucket_getter_ok fuel st r name true true b 0 es ps Hb Href Hw Hfuel) as Hg. cbv zeta in Hg. rewrite Hnone in Hg.
  destruct (ib_buckets b !! name) as [c0|] eqn:Ec.
  { destruct (Hch name c0 Ec) as (l & Hl & Ek). destruct (lex_lt_irrefl name). rewrite <-Ek at 1. by apply Hlt. }
  destruct Hg as (c & st1 & b' & child & es' & E & Hreg & Hw' & Em & _ & Hcw & Hcd & Hcb & _). pose proof Hreg as [R1 R2 R3 R4 R5 R5d R6 R7].
  apply (leaf_map_snoc es es' (LBucket name bucket_meta_default)) in Em; [|by eapply wf_sorted..|done]. subst es'.
  assert (c ≠ r) as Hne by (intros ->; congruence). exists c, st1. split_and!; try done.
  - split; [done|]. exists child, [0]. split_and!; try done. intros nm c'. by rewrite Hcb, lookup_empty.
  - intros st2 t Href2 Hk Hs HX Hfresh. pose proof (kept_child _ _ _ _ _ _ _ _ _ Hreg Hk) as Hk'. split; [done|]. split; [done|].
    exists b', ps. split_and!; [rewrite Hk; [done..|by rewrite R3]|by rewrite R5d|done| |].
    + intros nm c'. rewrite R4, lookup_insert. case_decide as En.
      * intros _. eexists. split; [apply elem_of_app; right; by left|done].
      * intros (l & Hl & Ek)%Hch. exists l. split; [|done]. apply elem_of_app. by left.
    + apply Forall2_app.
      * apply (items_kept X depth st _ r b); [exact HX|exact Hk'| |exact Hall]. intros nm c' Hc. rewrite R4, lookup_insert_ne; [done|]. intros <-. congruence.
      * repeat constructor. exists c. rewrite R4, lookup_insert_eq. split; [done|]. eapply shown_same; [|done|exact Hs].
        intros r' [->|Hr']; apply Hfresh; [done|]. destruct (st !! r') eqn:E'; [|done]. exfalso.
        destruct (decide (r' = r)) as [->|]; [congruence|]. rewrite R6 in Hr'; [congruence|done|]. intros ->. congruence.
Qed.

(** ** The loop *)

(** A function that copies the buckets of a depth. *)
Definition copies (depth : nat) (f : Bucket → Bucket → TxState → TxState → res (TxState * TxState)) : Prop :=
  ∀ pages meta source target src_ dst t,
    refs_ok (ts_buckets src_) → ts_buckets src_ !! bk_inner source = Some (from_meta meta pages) → stored depth pages meta t →
    target_at (λ r, ts_buckets dst !! r = None) (pred depth) (ts_buckets dst) (bk_inner target) [] [] → bk_writable target = true →
    ∃ src' dst', f source target src_ dst = Ok (src', dst') ∧
      refs_ok (ts_buckets src') ∧ kept (bk_inner source) (ts_buckets src_) (ts_buckets src') ∧
      refs_ok (ts_buckets dst') ∧ kept (bk_inner target) (ts_buckets dst) (ts_buckets dst') ∧
      shown (λ r, r = bk_inner target ∨ ts_buckets dst !! r = None) depth (ts_buckets dst') (bk_inner target) t.

Lemma reshaped_refl b : reshaped b b.
Proof. exists (ib_page_parents b), (ib_buckets b). by destruct b. Qed.

Section loop.
Context (depth : nat) (nested : Bucket → Bucket → TxState → TxState → res (TxState * TxState)) (Hnested : copies depth nested).
Context (pages : Pages) (meta : BucketMeta) (ht : nat) (all : list Leaf) (ps : list PageID).
Hypothesis (Hw : bucket_wf (from_meta meta pages) ht all ps) (Hf : (ht < fuel)%nat).

Lemma target_fresh (X : BucketRef → Prop) d st st' r es items :
  target_at X d st' r es items → kept r st st' → (∀ r, st !! r = None → X r) → ∀ r, st' !! r = None → X r.
Proof.
  intros (_ & b & _ & Hb & _) Hk HX r' Hr'. destruct (decide (r' = r)) as [->|Hne]; [congruence|]. apply HX. destruct (st !! r') eqn:E; [|done].
  rewrite Hk, E in Hr'; [done|done|by rewrite E].
Qed.

(** The bucket of an entry, opened in the source, created in the target and copied. *)
Lemma copy_opened X source target src_ dst c name m t rest tes items :
  cursor_at fuel source src_ c rest → source_at pages meta (ts_buckets src_) (bk_inner source) (LBucket name m :: rest) →
  keys_sorted leaf_key (LBucket name m :: rest) → LBucket name m ∈ all → stored depth pages m t →
  target_at X depth (ts_buckets dst) target tes items → ¬ X target →
  (∀ r, ts_buckets dst !! r = None → X r) → (∀ x, x ∈ tes → lex_lt (leaf_key x) name) →
  ∃ sc st1 tc dt1, get_bucket fuel (ts_buckets src_) (bk_inner source) name = Ok (sc, st1) ∧ create_bucket fuel (ts_buckets dst) target name = Ok (tc, dt1) ∧
  ∀ hs ht src1 dst1, bk_inner hs = sc → bk_inner ht = tc → bk_writable ht = true → ts_buckets src1 = st1 → ts_buckets dst1 = dt1 →
  ∃ src2 dst2, nested hs ht src1 dst1 = Ok (src2, dst2) ∧
    cursor_at fuel source src2 c rest ∧ source_at pages meta (ts_buckets src2) (bk_inner source) rest ∧
    kept (bk_inner source) (ts_buckets src_) (ts_buckets src2) ∧ kept target (ts_buckets dst) (ts_buckets dst2) ∧
    target_at X depth (ts_buckets dst2) target (tes ++ [LBucket name bucket_meta_default]) (items ++ [(name, Nested t)]).
Proof.
  intros Hc Hsrc Hso Hin Ht Htgt HX Hfresh Hlt.
  destruct (source_open pages meta (ts_buckets src_) (bk_inner source) (LBucket name m) name m rest ht all ps Hsrc eq_refl Hso Hw Hf Hin)
    as (sc & st1 & b & b' & E1 & Hreg & Hb & Hre & Hsrc1 & Hsc).
  destruct (target_create X depth target (ts_buckets dst) name tes items Htgt Hlt) as (tc & dt1 & E2 & Hfr & Href1 & Hne & Ht1 & Hafter).
  exists sc, st1, tc, dt1. split; [done|]. split; [done|]. intros hs ht' src1 dst1 <- <- Hwr <- <-.
  assert (bk_inner source ≠ bk_inner hs) as Hns by (intros E; pose proof (reg_fresh _ _ _ _ _ _ _ _ Hreg) as C; rewrite <-E, Hb in C; done).
  destruct (Hnested pages m hs ht' src1 dst1 t) as (src2 & dst2 & E3 & Href2 & Hk2 & Hdr2 & Hdk2 & Hs2); [by apply Hreg|done|done| |done|].
  { destruct Ht1 as (? & cb & cps & ? & ? & ? & ? & ?). split; [done|]. by exists cb, cps. }
  destruct (Hafter (ts_buckets dst2) t Hdr2 Hdk2 Hs2 HX Hfresh) as [Hkept Htgt2].
  exists src2, dst2. split_and!; try done.
  - eapply (reshaped_cursor fuel source src_ src2 b b'); [done| |done|done]. rewrite Hk2; [by apply Hreg|done|]. by rewrite (reg_parent _ _ _ _ _ _ _ _ Hreg).
  - by eapply source_kept.
  - by eapply kept_child.
Qed.

Lemma source_live st r rest : source_at pages meta st r rest → ∃ b, st !! r = Some b ∧ ib_deleted b = false ∧ next_int (ib_meta b) = next_int meta.
Proof. intros (_ & b & Hb & (pp & bk & ->) & _). eauto. Qed.

Lemma copy_entries_ok N X source target src_ dst c rest ritems tes items :
  cursor_at fuel source src_ c rest → source_at pages meta (ts_buckets src_) (bk_inner source) rest → keys_sorted leaf_key rest → (length rest < N)%nat →
  (∀ l, l ∈ rest → l ∈ all) → Forall2 (item_is (λ _ m t, stored depth pages m t)) rest ritems →
  target_at X depth (ts_buckets dst) (bk_inner target) tes items → bk_writable target = true → ¬ X (bk_inner target) →
  (∀ r, ts_buckets dst !! r = None → X r) → (∀ x y, x ∈ tes → y ∈ rest → lex_lt (leaf_key x) (leaf_key y)) →
  ∃ src' dst' tes', copy_entries fuel nested N source target c src_ dst = Ok (src', dst') ∧
    source_at pages meta (ts_buckets src') (bk_inner source) [] ∧ kept (bk_inner source) (ts_buckets src_) (ts_buckets src') ∧
    target_at X depth (ts_buckets dst') (bk_inner target) tes' (items ++ ritems) ∧ kept (bk_inner target) (ts_buckets dst) (ts_buckets dst').
Proof.
  revert src_ dst c rest ritems tes items. induction N as [|N IH]; intros src_ dst c rest ritems tes items Hc Hsrc Hso HN Hin Hall Htgt Hwr HX Hfresh Hlt; [lia|].
  cbn [copy_entries]. destruct (cursor_at_advance fuel source src_ c rest Hc) as (b & Hb & Ha). rewrite Hb. cbn [mbind res_bind].
  destruct Hall as [|l [k i] rest ritems Hl Hall].
  { destruct Ha as (c' & -> & _). cbn [mbind res_bind]. exists src_, dst, tes. rewrite app_nil_r. by split_and!. }
  destruct Ha as (c' & -> & Hc'). cbn [mbind res_bind]. pose proof Hso as [Hlt1 Hso1]%keys_sorted_cons. cbn [length] in HN.
  assert (∀ l, l ∈ rest → l ∈ all) as Hin1 by (intros; apply Hin; by right).
  assert (∀ x, x ∈ tes → lex_lt (leaf_key x) (leaf_key l)) as Hbelow by (intros x Hx; apply Hlt; [done|left]).
  assert (∀ l', leaf_key l' = leaf_key l → ∀ x y, x ∈ tes ++ [l'] → y ∈ rest → lex_lt (leaf_key x) (leaf_key y)) as Hlt'.
  { intros l' El x y [Hx| ->%list_elem_of_singleton]%elem_of_app Hy; [apply Hlt; [done|by right]|rewrite El; auto]. }
  replace (items ++ (k, i) :: ritems) with ((items ++ [(k, i)]) ++ ritems) by (by rewrite <-app_assoc).
  destruct l as [name m|k' v], i as [v'|t]; cbn [item_is leaf_key data_of_leaf] in *; [done| | |done]; destruct Hl as [<- Hl].
  - destruct (copy_opened X source (bk_inner target) src_ dst c' name m t rest tes items Hc' Hsrc Hso ltac:(apply Hin; left) Hl Htgt HX Hfresh Hbelow)
      as (sc & st1 & tc & dt1 & E1 & E2 & Hgo).
    destruct (source_live _ _ _ Hsrc) as (sb & Hsb & Hsd & _). pose proof Htgt as (_ & tb & tps & Htb & Htd & _).
    unfold bucket_get_bucket, bucket_create_bucket. rewrite Hwr. cbn [negb fail_if mbind res_bind].
    rewrite (live_bucket_ok src_ source sb) by done. cbn [mbind res_bind]. rewrite E1. cbn [mbind res_bind].
    rewrite (live_bucket_ok dst target tb) by done. cbn [mbind res_bind]. rewrite E2. cbn [mbind res_bind].
    match goal with |- context [nested ?hs ?ht ?s ?d] => destruct (Hgo hs ht s d) as (src2 & dst2 & -> & Hc2 & Hsrc2 & Hk2 & Hdk2 & Htgt2); [done..|] end.
    cbn [mbind res_bind].
    destruct (IH src2 dst2 c' rest ritems _ _ Hc2 Hsrc2 Hso1 ltac:(lia) Hin1 Hall Htgt2 Hwr HX (target_fresh _ _ _ _ _ _ _ Htgt2 Hdk2 Hfresh) (Hlt' (LBucket name bucket_meta_default) eq_refl))
      as (src' & dst' & tes' & -> & ? & Hk & ? & Hdk). exists src', dst', tes'. split_and!; try done; by eapply kept_trans.
  - subst v'. destruct (target_put X depth target k' v dst tes items Htgt Hwr HX Hbelow) as (o & dst1 & -> & Hdk1 & Htgt1). cbn [mbind res_bind].
    destruct Hsrc as (Href & b0 & Hb0 & Hre & Hnone).
    destruct (IH src_ dst1 c' rest ritems _ _ Hc' ltac:(split; [done|]; exists b0; split_and!; try done; intros; apply Hnone; by right) Hso1 ltac:(lia) Hin1 Hall Htgt1 Hwr HX
      (target_fresh _ _ _ _ _ _ _ Htgt1 Hdk1 Hfresh) (Hlt' (LKv k' v) eq_refl)) as (src' & dst' & tes' & -> & ? & Hk & ? & Hdk).
    exists src', dst', tes'. split_and!; try done; by eapply kept_trans.
Qed.

End loop.

(** ** A bucket *)

Lemma target_next X depth target dst es items next :
  target_at X depth (ts_buckets dst) (bk_inner target) es items → ¬ X (bk_inner target) →
  ∃ dst', bucket_set_next_int target next dst = Ok dst' ∧ refs_ok (ts_buckets dst') ∧ kept (bk_inner target) (ts_buckets dst) (ts_buckets dst') ∧
    shown (λ r, r = bk_inner target ∨ X r) (S depth) (ts_buckets dst') (bk_inner target) (mkTree next items).
Proof.
  intros (Href & b & ps & Hb & Hd & Hw & _ & Hall) HX. unfold bucket_set_next_int, bucket_at. rewrite Hb. cbn [unwrap mbind res_bind].
  eexists. split; [done|]. cbn [set_bucket set_buckets ts_buckets].
  assert (kept (bk_inner target) (ts_buckets dst) (<[bk_inner target := set_next_int b next]> (ts_buckets dst))) as Hk by (intros r' Hr _; by apply lookup_insert_ne).
  split_and!; [apply refs_ok_update; [done|by rewrite Hb]|exact Hk|]. cbn [shown]. split; [by left|].
  exists (set_next_int b next), O, es, ps. split_and!; [apply lookup_insert_eq|done|by apply (same_tree_wf b)|lia|done|].
  eapply Forall2_impl; [exact Hall|]. intros l i. apply item_is_mono. intros k m t _ (c & Hc & Hs). exists c. split; [done|].
  eapply shown_same; [by right| |exact Hs]. intros r' HXr. apply Hk. by intros ->.
Qed.

Lemma cursor_start source src_ meta pages ht es ps b :
  ts_buckets src_ !! bk_inner source = Some b → reshaped (from_meta meta pages) b → bucket_wf (from_meta meta pages) ht es ps → (ht < fuel)%nat →
  (leaves_full (from_meta meta pages) ps ∨ ht = O) → Z.of_nat (length es) <= u64_max → cursor_at fuel source src_ cursor_new es.
Proof.
  intros Hb Hre Hw Hf Hfull Hlen. exists b, (from_meta meta pages). split_and!; [done|by destruct Hre as (pp & bk & ->)|].
  right. exists ht, es, ps. split_and!; try done; [apply Hw|by apply empty_leaves_root|by constructor].
Qed.

Lemma copy_bucket_copies depth : copies depth (copy_bucket fuel n depth).
Proof.
  induction depth as [|depth IH]; intros pages meta source target src_ dst t Href Hsb Hst Htgt Hwr; [done|].
  cbn [stored pred copy_bucket] in *. destruct Hst as (ht & es & ps & Hw & Hf & Hfull & Hlen & Hn & Hnext & Hall).
  unfold bucket_cursor. rewrite (live_bucket_ok src_ source (from_meta meta pages)) by done. cbn [mbind res_bind].
  assert (ts_buckets dst !! bk_inner target ≠ None) as HX by (destruct Htgt as (_ & tb & ? & Htb & _); by rewrite Htb).
  destruct (copy_entries_ok depth _ IH pages meta ht es ps Hw Hf n (λ r, ts_buckets dst !! r = None) source target src_ dst cursor_new es (tree_items t) [] [])
    as (src' & dst' & tes & -> & Hsrc' & Hk & Htgt' & Hdk); try done.
  { by eapply cursor_start; [|apply reshaped_refl|..]. }
  { split; [done|]. exists (from_meta meta pages). split_and!; [done|apply reshaped_refl|done]. }
  { by eapply wf_sorted. }
  { by intros x y []%elem_of_nil. }
  cbn [mbind res_bind]. destruct (source_live pages meta _ _ _ Hsrc') as (b' & Hb' & Hd' & En). unfold bucket_next_int.
  rewrite (live_bucket_ok src' source b') by done. cbn [mbind res_bind].
  destruct (target_next _ depth target dst' tes _ (next_int (ib_meta b')) Htgt' HX) as (dst2 & -> & Hr2 & Hk2 & Hs2). cbn [mbind res_bind].
  exists src', dst2. split_and!; try done; [by apply Hsrc'|by eapply kept_trans|]. rewrite En, Hnext in Hs2. by destruct t.
Qed.

(** ** The root *)

Lemma buckets_next_step r c st b d c' :
  (0 < n)%nat → bucket_at st r = Ok b → advance fuel b c = Ok (d, c') → (∀ k v, d ≠ Some (DKeyValue k v)) →
  buckets_next fuel r n (c, st) = match d with
    | Some (DBucket name) => '(child, st) ← get_bucket fuel st r name; Ok (Some (name, child), (c', st))
    | _ => Ok (None, (c', st))
    end.
Proof.
  intros Hn Hb Ha Hd. destruct n as [|n0]; [lia|]. cbn [buckets_next]. rewrite Hb. cbn [mbind res_bind]. rewrite Ha. cbn [mbind res_bind].
  destruct d as [[name|k v]|]; [done| |done]. by destruct (Hd k v).
Qed.

Lemma copy_roots_ok depth pages meta ht all ps m X src_ dst c rest ritems tes items :
  (0 < n)%nat → bucket_wf (from_meta meta pages) ht all ps → (ht < fuel)%nat →
  cursor_at fuel (root_handle false) src_ c rest → source_at pages meta (ts_buckets src_) ROOT rest → keys_sorted leaf_key rest → (length rest < m)%nat →
  (∀ l, l ∈ rest → l ∈ all) → Forall2 (item_is (λ _ m t, stored depth pages m t)) rest ritems → (∀ l, l ∈ rest → leaf_is_kv l = false) →
  target_at X depth (ts_buckets dst) ROOT tes items → ¬ X ROOT →
  (∀ r, ts_buckets dst !! r = None → X r) → (∀ x y, x ∈ tes → y ∈ rest → lex_lt (leaf_key x) (leaf_key y)) →
  ∃ src' dst' tes', copy_roots fuel n depth m c src_ dst = Ok (src', dst') ∧
    source_at pages meta (ts_buckets src') ROOT [] ∧ target_at X depth (ts_buckets dst') ROOT tes' (items ++ ritems).
Proof.
  intros Hn Hw Hf. revert src_ dst c rest ritems tes items. induction m as [|m IH]; intros src_ dst c rest ritems tes items Hc Hsrc Hso HN Hin Hall Hkv Htgt HX Hfresh Hlt; [lia|].
  cbn [copy_roots]. destruct (cursor_at_advance fuel (root_handle false) src_ c rest Hc) as (b & Hb & Ha). cbn [root_handle bk_inner] in Hb.
  destruct Hall as [|l [k i] rest ritems Hl Hall].
  { destruct Ha as (c' & Ha & _). rewrite (buckets_next_step ROOT c _ b None c' Hn Hb Ha) by done. cbn [mbind res_bind]. exists (set_buckets src_ (ts_buckets src_)), dst, tes. rewrite app_nil_r. by split_and!. }
  destruct Ha as (c' & Ha & Hc'). pose proof Hso as [Hlt1 Hso1]%keys_sorted_cons. cbn [length] in HN. pose proof (Hkv l ltac:(left)) as Hb1.
  destruct l as [name mt|]; [|done]. destruct i as [|t]; [done|]. destruct Hl as [<- Hl]. cbn [data_of_leaf leaf_key] in *.
  destruct (copy_opened depth _ (copy_bucket_copies depth) pages meta ht all ps Hw Hf X (root_handle false) ROOT src_ dst c' name mt t rest tes items Hc' Hsrc Hso
    ltac:(apply Hin; left) Hl Htgt HX Hfresh) as (sc & st1 & tc & dt1 & E1 & E2 & Hgo); [intros x Hx; apply (Hlt x (LBucket name mt)); [done|left]|].
  cbn [root_handle bk_inner] in E1. rewrite (buckets_next_step ROOT c _ b _ c' Hn Hb Ha), E1 by done. cbn [mbind res_bind]. unfold tx_create_bucket. cbn [negb fail_if mbind res_bind]. rewrite E2. cbn [mbind res_bind].
  match goal with |- context [copy_bucket fuel n depth ?hs ?ht ?s ?d] => destruct (Hgo hs ht s d) as (src2 & dst2 & -> & Hc2 & Hsrc2 & _ & Hdk2 & Htgt2); [done..|] end.
  cbn [mbind res_bind].
  destruct (IH src2 dst2 c' rest ritems _ _ Hc2 Hsrc2 Hso1 ltac:(lia) ltac:(intros; apply Hin; by right) Hall ltac:(intros; apply Hkv; by right) Htgt2 HX
    (target_fresh _ _ _ _ _ _ _ Htgt2 Hdk2 Hfresh)) as (src' & dst' & tes' & -> & H1 & H2).
  { intros x y [Hx| ->%list_elem_of_singleton]%elem_of_app Hy; [apply Hlt; [done|by right]|]. by apply Hlt1. }
  exists src', dst', tes'. rewrite <-app_assoc in H2. by split_and!.
Qed.

Lemma copy_tx_shows depth pages meta src_ dst t tb tps :
  (0 < n)%nat → refs_ok (ts_buckets src_) → ts_buckets src_ !! ROOT = Some (from_meta meta pages) → stored (S depth) pages meta t →
  (∀ k i, (k, i) ∈ tree_items t → ∃ t', i = Nested t') →
  refs_ok (ts_buckets dst) → ts_buckets dst !! ROOT = Some tb → ib_deleted tb = false → bucket_wf tb 0 [] tps → ib_buckets tb = ∅ →
  ∃ dst', copy_tx fuel n depth src_ dst = Ok dst' ∧ shown (λ r, r = ROOT ∨ ts_buckets dst !! r = None) (S depth) (ts_buckets dst') ROOT t.
Proof.
  intros Hn Href Hsb (ht & es & ps & Hw & Hf & Hfull & Hlen & Hes & Hnext & Hall) Hroot Hrd Htb Hdel Htw Hop. unfold copy_tx.
  destruct (copy_roots_ok depth pages meta ht es ps n (λ r, ts_buckets dst !! r = None) src_ dst cursor_new es (tree_items t) [] [])
    as (src' & dst' & tes & -> & Hsrc' & Htgt'); try done.
  { by eapply cursor_start; [|apply reshaped_refl|..]. }
  { split; [done|]. exists (from_meta meta pages). split_and!; [done|apply reshaped_refl|done]. }
  { by eapply wf_sorted. }
  { intros l [j Hj]%list_elem_of_lookup. destruct (Forall2_lookup_l _ _ _ _ _ Hall Hj) as ([k i] & Hi & Hli).
    destruct (Hroot k i) as [t' ->]; [by eapply list_elem_of_lookup_2|]. by destruct l. }
  { split; [done|]. exists tb, tps. split_and!; try done. intros nm c. by rewrite Hop, lookup_empty. }
  { by rewrite Htb. }
  { by intros x y []%elem_of_nil. }
  cbn [mbind res_bind]. destruct (source_live pages meta _ _ _ Hsrc') as (b' & Hb' & Hd' & En). unfold bucket_at. rewrite Hb'. cbn [unwrap mbind res_bind].
  destruct (target_next _ depth (mkBucket ROOT true []) dst' tes _ (next_int (ib_meta b')) Htgt') as (dst2 & -> & _ & _ & Hs2); [cbn; by rewrite Htb|].
  exists dst2. split; [done|]. rewrite En, Hnext in Hs2. by destruct t.
Qed.

End trees.

(** ** Salvage *)

Section salvage.
Context (fuel n : nat).

(** The salvage [g] of what the copy [f] reads; [run g] is given the manifest. *)
Record salvages (f : res (TxState * TxState)) (g : SalvageManifest → res (SalvageManifest * TxState * TxState)) : Prop := {
  sv_copied : ∀ src' dst' m, f = Ok (src', dst') → ∃ m', g m = Ok (m', src', dst') ∧ skipped_records m' = skipped_records m;
  sv_skips : ∀ m m' src' dst', g m = Ok (m', src', dst') → skipped_records m `prefix_of` skipped_records m';
  sv_all : ∀ m m' src' dst', g m = Ok (m', src', dst') → skipped_records m' = skipped_records m → f = Ok (src', dst')
}.

(** One after the other. *)
Lemma salvages_bind (f1 : res (TxState * TxState)) g1 (f2 : TxState → TxState → res (TxState * TxState)) g2 :
  salvages f1 g1 → (∀ src_ dst, salvages (f2 src_ dst) (λ m, g2 m src_ dst)) →
  salvages ('(src_, dst) ← f1; f2 src_ dst) (λ m, '(m, src_, dst) ← g1 m; g2 m src_ dst).
Proof.
  intros [A1 A2 A3] H2. split.
  - intros src' dst' m ([src1 dst1] & E1 & E2)%res_bind_Ok. destruct (A1 src1 dst1 m E1) as (m1 & -> & Em). cbn [mbind res_bind].
    destruct (sv_copied _ _ (H2 src1 dst1) src' dst' m1 E2) as (m2 & -> & Em2). exists m2. split; [done|congruence].
  - intros m m' src' dst' ([[m1 src1] dst1] & E1 & E2)%res_bind_Ok. trans (skipped_records m1); [by eapply A2|]. by eapply (sv_skips _ _ (H2 src1 dst1)).
  - intros m m' src' dst' ([[m1 src1] dst1] & E1 & E2)%res_bind_Ok Em. pose proof (A2 _ _ _ _ E1) as P1. pose proof (sv_skips _ _ (H2 src1 dst1) _ _ _ _ E2) as P2.
    rewrite Em in P2. assert (skipped_records m1 = skipped_records m) as Em1 by (by apply (anti_symm prefix)).
    rewrite (A3 _ _ _ _ E1 Em1). cbn [mbind res_bind]. eapply (sv_all _ _ (H2 src1 dst1)); [exact E2|congruence].
Qed.

Lemma salvages_same {A} (x : res A) (f : A → res (TxState * TxState)) g :
  (∀ a, salvages (f a) (λ m, g m a)) → salvages (a ← x; f a) (λ m, a ← x; g m a).
Proof. intros H. destruct x as [a|e|w]; [exact (H a)|split; intros; done..]. Qed.

Lemma salvages_count f g h : (∀ m, skipped_records (h m) = skipped_records m) → salvages f g → salvages f (λ m, g (h m)).
Proof.
  intros Hh [A1 A2 A3]. split.
  - intros src' dst' m E. destruct (A1 src' dst' (h m) E) as (m' & -> & Em). exists m'. split; [done|]. by rewrite Em, Hh.
  - intros m m' src' dst' E. rewrite <-Hh. by eapply A2.
  - intros m m' src' dst' E Em. eapply A3; [exact E|]. by rewrite Em, Hh.
Qed.

Lemma salvages_ok src_ dst : salvages (Ok (src_, dst)) (λ m, Ok (m, src_, dst)).
Proof. split; intros; simplify_eq; eauto. Qed.

(** What is skipped is not copied. *)
Lemma salvages_skip e g r : (∀ m m' src' dst', g m = Ok (m', src', dst') → skipped_records m `prefix_of` skipped_records m') →
  salvages (Err e) (λ m, g (skip_record m r)).
Proof.
  intros Hg. split; [done| |].
  - intros m m' src' dst' E%Hg. etrans; [|exact E]. by apply prefix_app_r.
  - intros m m' src' dst' [k E]%Hg Em. apply (f_equal length) in E. rewrite Em in E. cbn [skip_record skipped_records] in E. rewrite !length_app in E. cbn in E. lia.
Qed.

Lemma salvages_panic w r src_ dst : salvages (Panic w) (λ m, if bool_decide (w = NOFUEL) then Panic w else Ok (skip_record m r, src_, dst)).
Proof.
  split; [done|..]; intros m m' src' dst'; case_bool_decide; [done| |done|]; intros [= <- <- <-]; [by apply prefix_app_r|].
  intros E%(f_equal length). cbn [skip_record skipped_records] in E. rewrite length_app in E. cbn in E. lia.
Qed.

Lemma salvage_entries_same nested nested_ :
  (∀ s t path src_ dst, salvages (nested s t src_ dst) (λ m, nested_ s t path m src_ dst)) →
  ∀ N s t c path src_ dst, salvages (copy_entries fuel nested N s t c src_ dst) (λ m, salvage_entries fuel nested_ N s t c path m src_ dst).
Proof.
  intros Hn N. induction N as [|N IH]; intros s t c path src_ dst; [split; intros; done|]. cbn [copy_entries salvage_entries].
  destruct (bucket_at (ts_buckets src_) (bk_inner s)) as [b|e|w]; cbn [mbind res_bind]; [|by split|by apply salvages_panic].
  destruct (advance fuel b c) as [[[[name|k v]|] c']|e|w]; cbn [mbind res_bind]; [| |apply salvages_ok|by split|by apply salvages_panic].
  - destruct (bucket_get_bucket fuel s name src_) as [[sc src1]|e|w]; cbn [mbind res_bind]; [|apply (salvages_skip e (λ m, salvage_entries fuel nested_ N s t c' path m src_ dst)), (sv_skips _ _ (IH s t c' path src_ dst))|by split].
    apply salvages_same. intros [tc dst1]. apply (salvages_bind _ (λ m, nested_ sc tc (path ++ [name]) (count_bucket m) src1 dst1)); [|intros; apply IH].
    by apply (salvages_count _ (λ m, nested_ sc tc (path ++ [name]) m src1 dst1)).
  - apply salvages_same. intros [o dst1]. by apply (salvages_count _ (λ m, salvage_entries fuel nested_ N s t c' path m src_ dst1)).
Qed.

Lemma salvage_bucket_same depth s t path src_ dst :
  salvages (copy_bucket fuel n depth s t src_ dst) (λ m, salvage_bucket fuel n depth s t path m src_ dst).
Proof.
  revert s t path src_ dst. induction depth as [|depth IH]; intros s t path src_ dst; [by split|]. cbn [copy_bucket salvage_bucket].
  apply salvages_same. intros c. apply salvages_bind; [by apply salvage_entries_same|]. intros src1 dst1.
  apply salvages_same. intros next. apply salvages_same. intros dst2. apply salvages_ok.
Qed.

Lemma salvage_roots_same depth m c src_ dst :
  salvages (copy_roots fuel n depth m c src_ dst) (λ manifest, salvage_roots fuel n depth m c manifest src_ dst).
Proof.
  revert c src_ dst. induction m as [|m IH]; intros c src_ dst; [by split|]. cbn [copy_roots salvage_roots].
  apply salvages_same. intros [[[name r]|] [c' st]]; [|apply salvages_ok]. apply salvages_same. intros [tb dst1].
  apply (salvages_bind _ (λ mf, salvage_bucket fuel n depth (mkBucket r false (path_root name)) tb [name] (count_bucket mf) (set_buckets src_ st) dst1)); [|intros; apply IH].
  apply (salvages_count _ (λ mf, salvage_bucket fuel n depth (mkBucket r false (path_root name)) tb [name] mf (set_buckets src_ st) dst1)); [done|].
  apply salvage_bucket_same.
Qed.

End salvage.

(** ** The theorems *)

(** C9: A copy holds what the database held.  Let a transaction be open on a file whose
    buckets are readable trees of pages, nested in each other to any depth, and a
    second one on a database without buckets.  The copy behind [backup_to] and
    [compact_to] succeeds, and afterwards the buckets of the second transaction have
    exactly the same shape: the same names and nesting, the same keys and values, and
    in every bucket, the root included, the same next integer. *)
Theorem copy_exact (fuel n depth : nat) (pages : Pages) (meta : BucketMeta) (t : Tree) (src_ dst : TxState) (tb : InnerBucket) (tps : list PageID) :
  (0 < fuel)%nat → (0 < n)%nat →
  ts_buckets src_ = {[ROOT := from_meta meta pages]} → stored fuel n (S depth) pages meta t → (∀ k i, (k, i) ∈ tree_items t → ∃ t', i = Nested t') →
  ts_buckets dst = {[ROOT := tb]} → ib_deleted tb = false → bucket_wf tb 0 [] tps → ib_buckets tb = ∅ →
  ∃ dst', copy_tx fuel n depth src_ dst = Ok dst' ∧ shown fuel (λ _, True) (S depth) (ts_buckets dst') ROOT t.
Proof.
  intros Hf Hn Es Hst Hroot Ed Hdel Hw Hop.
  assert (∀ b : InnerBucket, refs_ok {[ROOT := b]}) as Hrefs.
  { intros b r [x [<- _]%lookup_singleton_Some]. unfold fresh_ref. rewrite map_size_singleton. unfold ROOT. lia. }
  destruct (copy_tx_shows fuel n Hf depth pages meta src_ dst t tb tps Hn) as (dst' & E & Hs); try done.
  { rewrite Es. apply Hrefs. } { by rewrite Es, lookup_singleton_eq. } { rewrite Ed. apply Hrefs. } { by rewrite Ed, lookup_singleton_eq. }
  exists dst'. split; [done|]. by eapply shown_same; [| |exact Hs].
Qed.

(** A salvage is a copy that goes on.  On every source, readable or not, a copy of the
    buckets succeeds exactly when the salvage succeeds and skips no record, and then
    both leave the same two transactions behind. *)
Theorem salvage_is_copy (fuel n depth m : nat) (c : Cursor) (manifest : SalvageManifest) (src_ dst src' dst' : TxState) :
  copy_roots fuel n depth m c src_ dst = Ok (src', dst') ↔
  ∃ manifest', salvage_roots fuel n depth m c manifest src_ dst = Ok (manifest', src', dst') ∧ skipped_records manifest' = skipped_records manifest.
Proof.
  pose proof (salvage_roots_same fuel n depth m c src_ dst) as [H1 H2 H3]. split; [by apply H1|]. intros (m' & E & Em). by eapply H3.
Qed.

(** ** Witnesses *)

Module Copied.

#[local] Existing Instance toy_digest.

Definition pages : Pages := mkPages Demo2.disk1 1024.
Definition meta : BucketMeta := mkBucketMeta 6 1.
Definition tree : Tree :=
  mkTree 1 [(Demo2.b_name, Nested (mkTree 1 [(Demo2.c_name, Nested (mkTree 1 [([Byte.x6b], Value [Byte.x76])]))]))].

(** A bucket in one leaf page. *)
Lemma one_leaf fuel n depth (file : bytes) m es t :
  (0 < fuel)%nat → (1 < n)%nat → (length es <= 1)%nat → file_view file 1024 (root_page m) = Ok (Leaves es) → Forall leaf_wf es → next_int m = tree_next t →
  Forall2 (item_is (λ _ m t, stored fuel n depth (mkPages file 1024) m t)) es (tree_items t) → stored fuel n (S depth) (mkPages file 1024) m t.
Proof.
  intros Hf Hn He Hv Hwf Hnext Hall. cbn [stored]. exists O, es, [root_page m]. split_and!; try done; [|by right|unfold u64_max; lia|lia].
  apply (disk_tree_bucket file 1024 m 0 es [root_page m]); [|apply NoDup_singleton]. split_and!; try done.
  destruct es as [|e [|]]; [constructor| |cbn in He; lia]. apply keys_sorted_cons. split; [by intros ? []%elem_of_nil|constructor].
Qed.

Lemma pages_read :
  file_view Demo2.disk1 1024 6 = Ok (Leaves [LBucket Demo2.b_name (mkBucketMeta 5 1)]) ∧
  file_view Demo2.disk1 1024 5 = Ok (Leaves [LBucket Demo2.c_name (mkBucketMeta 4 1)]) ∧
  file_view Demo2.disk1 1024 4 = Ok (Leaves [LKv [Byte.x6b] [Byte.x76]]) ∧ file_view Demo2.disk 1024 3 = Ok (Leaves []).
Proof. split_and!; vm_compute; reflexivity. Qed.

Lemma tree_stored : stored 20 20 3 pages meta tree.
Proof.
  destruct pages_read as (H6 & H5 & H4 & _). unfold pages.
  eapply one_leaf; [lia|lia| |exact H6|..]; [cbn; lia|by repeat constructor|done|]. repeat constructor.
  eapply one_leaf; [lia|lia| |exact H5|..]; [cbn; lia|by repeat constructor|done|]. repeat constructor.
  eapply one_leaf; [lia|lia| |exact H4|..]; [cbn; lia|by repeat constructor|done|]. by repeat constructor.
Qed.

Definition source : TxState := mkTxState {[ROOT := from_meta meta pages]} (mkTxFreelist (init_meta 1024 0) freelist_new ∅) (tracker_new false).
Definition target_root : InnerBucket := from_meta (mkBucketMeta 3 0) (mkPages Demo2.disk 1024).
Definition target : TxState := mkTxState {[ROOT := target_root]} (mkTxFreelist (init_meta 1024 0) freelist_new ∅) (tracker_new true).

Lemma target_wf : bucket_wf target_root 0 [] [3].
Proof. apply (disk_tree_bucket Demo2.disk 1024 (mkBucketMeta 3 0) 0 [] [3]); [|apply NoDup_singleton]. split_and!; [apply pages_read|constructor..|done]. Qed.

End Copied.

Lemma copy_exact_witness : ∃ dst', copy_tx 20 20 2 Copied.source Copied.target = Ok dst' ∧ shown 20 (λ _, True) 3 (ts_buckets dst') ROOT Copied.tree.
Proof.
  refine (copy_exact 20 20 2 Copied.pages Copied.meta Copied.tree Copied.source Copied.target Copied.target_root [3] _ _ eq_refl Copied.tree_stored _ eq_refl eq_refl Copied.target_wf eq_refl);
    [lia|lia|]. intros k i [[= -> ->]|[]%elem_of_nil]%elem_of_cons. by eexists.
Defined.

(** ** A damaged page *)

Module Damaged.

#[local] Existing Instance toy_digest.
Definition no_locks : LockTable := list_locks [].
#[local] Existing Instance no_locks.

(** The buckets [a] and [b] with one value each. *)
Definition create (s : TxState) : res TxState :=
  '(a, s) ← tx_create_bucket 20 true [Byte.x61] s;
  '(_, s) ← bucket_put 20 a [Byte.x6b] [Byte.x76] s;
  '(b, s) ← tx_create_bucket 20 true [Byte.x62] s;
  '(_, s) ← bucket_put 20 b [Byte.x6b] [Byte.x76] s;
  Ok s.

Definition healthy : bytes := match update 20 Demo2.cfg Demo2.disk create with Ok (f, _) => f | _ => [] end.
(** The page of [a] with another type. *)
Definition damaged : bytes := <[4104%nat := Byte.x09]> healthy.
Definition handle : DBInner := mkDBInner 8192 freelist_new [] false false Opened.flags 1024 None 4096 0 0.

Definition salvage (fs : gmap string bytes) : res SalvageManifest * gmap string bytes :=
  salvage_to 20 20 (λ _, Ok true) 0 4096 (λ _, mkAttempt true Locked true 0) 3 handle "source" "target" fs.
Definition files (source : bytes) : gmap string bytes := {["source" := source]}.

(** The value in [b]. *)
Definition read_b (file : bytes) : res (option (bytes * bytes)) :=
  '(w, s) ← tx_begin Demo2.cfg file None;
  '(b, s) ← tx_get_bucket 20 true [Byte.x62] s;
  bucket_get_kv 20 b [Byte.x6b] s.

End Damaged.

