(* ===== verification/Cli.v ===== *)
(** * The command line

    [src/src/bin/tagdata.rs]: the commands over the files of a directory, the text
    they print and, with [--json], the JSON.  [q] reads an apostrophe in a text as a
    quotation mark.  A reference parser for JSON says what the printed objects mean. *)

From Stdlib Require Import Ascii.
From S2P Require Import Prelude Search Support Layout Meta Freelist Node Page PageNode Inner Spill Buckets Cursor Changes Handle Store Nested Codecs.
From S2P Require Import Db Commit Tx Coordination Open Check Ttl Scan Merge Run Session Backup.

(** ** Texts *)

Definition QUOTE : Ascii.ascii := Ascii.ascii_of_nat 34.
Definition BACKSLASH : Ascii.ascii := Ascii.ascii_of_nat 92.
Definition NL : string := String (Ascii.ascii_of_nat 10) EmptyString.

Fixpoint q (s : string) : string :=
  match s with
  | EmptyString => EmptyString
  | String c s => String (if bool_decide (c = "'"%char) then QUOTE else c) (q s)
  end.

Definition println (line : string) : string := line +:+ NL.

(** A digit of [{:04x}]. *)
Definition hex_digit (d : nat) : Ascii.ascii := Ascii.ascii_of_nat (if Nat.ltb d 10 then 48 + d else 87 + d).
(** [\u{:04x}] of a control character below 0x100. *)
Definition unicode_escape (c : nat) : string :=
  String BACKSLASH (String "u"%char (String "0"%char (String "0"%char (String (hex_digit (c / 16)) (String (hex_digit (c mod 16)) EmptyString))))).

(** [string]: the characters of a valid UTF-8 text; the control characters above
    0x7f are the two bytes [c2 80] to [c2 9f]. *)
Fixpoint escape_chars (s : string) : string :=
  match s with
  | EmptyString => EmptyString
  | String c rest =>
      let n := Ascii.nat_of_ascii c in
      if Nat.eqb n 34 then String BACKSLASH (String QUOTE (escape_chars rest))
      else if Nat.eqb n 92 then String BACKSLASH (String BACKSLASH (escape_chars rest))
      else if Nat.eqb n 10 then String BACKSLASH (String "n"%char (escape_chars rest))
      else if Nat.eqb n 13 then String BACKSLASH (String "r"%char (escape_chars rest))
      else if Nat.eqb n 9 then String BACKSLASH (String "t"%char (escape_chars rest))
      else if Nat.ltb n 32 || Nat.eqb n 127 then unicode_escape n +:+ escape_chars rest
      else if Nat.eqb n 194 then
        match rest with
        | String c1 rest1 =>
            let n1 := Ascii.nat_of_ascii c1 in
            if Nat.leb 128 n1 && Nat.ltb n1 160 then unicode_escape n1 +:+ escape_chars rest1 else String c (escape_chars rest)
        | EmptyString => String c EmptyString
        end
      else String c (escape_chars rest)
  end.
Definition json_string (value : string) : string := String QUOTE (escape_chars value +:+ String QUOTE EmptyString).

Definition option_u64 (value : option Z) : string := match value with Some v => dec v | None => "null" end.
(** [bytes] *)
Definition json_bytes (value : bytes) : string := "[" +:+ String.concat "," ((λ b, dec (Z_of_byte b)) <$> value) +:+ "]".
Definition json_bool (b : bool) : string := if b then "true" else "false".

Definition usage : string :=
  String.concat NL ["usage: tagdata [--json] <info|stats|verify> <database>";
    "       tagdata [--json] <backup|salvage> <source> <destination>";
    "       tagdata [--json] compact <source> <destination> [page-size]"].

Definition info_json (i : FormatInfo) : string :=
  q "{'file_bytes':" +:+ dec (fi_file_bytes i) +:+ q ",'metadata_page':" +:+ dec (fi_metadata_page i) +:+ q ",'page_size':" +:+ dec (fi_page_size i) +:+
  q ",'transaction_id':" +:+ dec (fi_transaction_id i) +:+ q ",'version':" +:+ dec (fi_version i) +:+ "}".

Definition stats_json (s : Stats) : string :=
  q "{'active_readers':" +:+ dec (st_active_readers s) +:+ q ",'allocated_pages':" +:+ dec (st_allocated_pages s) +:+
  q ",'bytes_written':" +:+ dec (st_bytes_written s) +:+ q ",'committed_transactions':" +:+ dec (st_committed_transactions s) +:+
  q ",'current_tx_id':" +:+ dec (st_current_tx_id s) +:+ q ",'file_bytes':" +:+ dec (st_file_bytes s) +:+
  q ",'free_pages':" +:+ dec (st_free_pages s) +:+ q ",'oldest_reader_tx_id':" +:+ option_u64 (st_oldest_reader_tx_id s) +:+
  q ",'page_size':" +:+ dec (st_page_size s) +:+ q ",'pending_pages':" +:+ dec (st_pending_pages s) +:+
  q ",'reader_pinned_pages':" +:+ dec (st_reader_pinned_pages s) +:+ "}".

Definition issue_json (i : VerifyIssue) : string :=
  q "{'bucket_path':[],'invariant':" +:+ json_string (is_invariant i) +:+ q ",'offset':" +:+ option_u64 (is_offset i) +:+
  q ",'page_id':" +:+ option_u64 (is_page_id i) +:+ q ",'page_kind':" +:+ match is_page_kind i with Some k => json_string k | None => "null" end +:+ "}".
Definition verify_json (r : VerifyReport) : string :=
  q "{'issues':[" +:+ String.concat "," (issue_json <$> vr_issues r) +:+ q "],'valid':" +:+ json_bool (vr_valid r) +:+ "}".

Definition record_json (r : SkippedRecord) : string :=
  q "{'bucket_path':[" +:+ String.concat "," (json_bytes <$> sr_bucket_path r) +:+ q "],'key':" +:+
  match sr_key r with Some key => json_bytes key | None => "null" end +:+ q ",'reason':" +:+ json_string (sr_reason r) +:+ "}".
Definition salvage_json (m : SalvageManifest) : string :=
  q "{'copied_buckets':" +:+ dec (copied_buckets m) +:+ q ",'copied_records':" +:+ dec (copied_records m) +:+
  q ",'skipped_pages':[" +:+ String.concat "," (dec <$> skipped_pages m) +:+ q "],'skipped_records':[" +:+
  String.concat "," (record_json <$> skipped_records m) +:+ "]}".

Definition success_json (command destination : string) : string :=
  q "{'command':" +:+ json_string command +:+ q ",'destination':" +:+ json_string destination +:+ q ",'ok':true}".
Definition error_json (message : string) : string := q "{'ok':false,'error':" +:+ json_string message +:+ "}".

(** [{stats:#?}] *)
Definition debug_option (o : option Z) : string :=
  match o with Some v => String.concat NL ["Some("; "        " +:+ dec v +:+ ","; "    )"] | None => "None" end.
Definition stats_debug (s : Stats) : string :=
  let field name value := "    " +:+ name +:+ ": " +:+ value +:+ "," in
  String.concat NL ["Stats {"; field "file_bytes" (dec (st_file_bytes s)); field "page_size" (dec (st_page_size s));
    field "allocated_pages" (dec (st_allocated_pages s)); field "free_pages" (dec (st_free_pages s)); field "pending_pages" (dec (st_pending_pages s));
    field "reader_pinned_pages" (dec (st_reader_pinned_pages s)); field "current_tx_id" (dec (st_current_tx_id s));
    field "active_readers" (dec (st_active_readers s)); field "oldest_reader_tx_id" (debug_option (st_oldest_reader_tx_id s));
    field "committed_transactions" (dec (st_committed_transactions s)); field "bytes_written" (dec (st_bytes_written s)); "}"].

(** ** Numbers in arguments *)

(** [str::parse::<u64>], with the text of its errors. *)
Fixpoint parse_loop (acc : Z) (s : string) : string + Z :=
  match s with
  | EmptyString => inr acc
  | String c s =>
      let n := Ascii.nat_of_ascii c in
      if Nat.leb 48 n && Nat.leb n 57 then
        let acc := acc * 10 + (Z.of_nat n - 48) in
        if acc <=? u64_max then parse_loop acc s else inl "number too large to fit in target type"
      else inl "invalid digit found in string"
  end.
Definition parse_arg (s : string) : string + Z :=
  match s with
  | EmptyString => inl "cannot parse integer from empty string"
  | String "+"%char EmptyString => inl "invalid digit found in string"
  | String "+"%char s => parse_loop 0 s
  | s => parse_loop 0 s
  end.

(** ** Commands *)

Inductive CmdResult := Done | Failed (message : string) | Panicked (why : string).
Record Output := mkOutput { o_result : CmdResult; o_stdout : string; o_files : gmap string bytes }.

(** [map_err(|error| error.to_string())?] *)
Definition cmd_try {A} (r : res A) (fs : gmap string bytes) (next : A → Output) : Output :=
  match r with
  | Ok a => next a
  | Err e => mkOutput (Failed (error_to_string e)) "" fs
  | Panic w => mkOutput (Panicked w) "" fs
  end.
Definition with_file (fs : gmap string bytes) (path : string) (disk : option bytes) : gmap string bytes :=
  match disk with Some file => <[path := file]> fs | None => fs end.

Section commands.
Context `{D : Digest} `{L : LockTable} (fuel n depth : nat) (try_token : Z → res bool) (counter os_page_size : Z) (attempts : nat → Attempt).

Definition cmd_info (path : string) (json : bool) (fs : gmap string bytes) : Output :=
  let found := match fs !! path with
    | Some file => inspect file
    | None => Err (Io (mkIoError NotFound "No such file or directory (os error 2)"))
    end in
  cmd_try found fs (λ info,
    mkOutput Done
      (if json then println (info_json info)
       else println ("page size:      " +:+ dec (fi_page_size info)) +:+ println ("format version: " +:+ dec (fi_version info)) +:+
            println ("transaction:    " +:+ dec (fi_transaction_id info)) +:+ println ("file bytes:     " +:+ dec (fi_file_bytes info))) fs).

(** [OpenOptions::new()], read-only or not, and [open(path)]. *)
Definition open_path (ro : bool) (path : string) (fs : gmap string bytes) (next : DBInner → gmap string bytes → Output) : Output :=
  cmd_try (options_default os_page_size) fs (λ o,
    let '(db, disk) := open fuel try_token counter os_page_size (if ro then set_read_only o else o) (fs !! path) in
    let fs := with_file fs path disk in
    cmd_try db fs (λ db, next db fs)).

Definition cmd_stats (path : string) (json : bool) (fs : gmap string bytes) : Output :=
  open_path true path fs (λ db fs,
    cmd_try (fst (stats db (default [] (fs !! path)))) fs (λ st,
      mkOutput Done (println (if json then stats_json st else stats_debug st)) fs)).

Definition cmd_verify (path : string) (json : bool) (fs : gmap string bytes) : Output :=
  open_path true path fs (λ db fs,
    cmd_try (fst (verify_report fuel try_token counter db (default [] (fs !! path)))) fs (λ report,
      let out := if json then println (verify_json report)
        else if vr_valid report then println "database verified successfully"
        else String.concat "" ((λ issue, println ("verification issue: " +:+ is_invariant issue)) <$> vr_issues report) in
      mkOutput (if vr_valid report then Done else Failed "database verification failed") out fs)).

Definition success (command destination : string) (json : bool) : string :=
  println (if json then success_json command destination else command +:+ " written to " +:+ destination).

Definition cmd_backup (source destination : string) (json : bool) (fs : gmap string bytes) : Output :=
  open_path false source fs (λ db fs,
    let '(r, fs) := physical_backup fuel try_token counter os_page_size attempts db source destination fs in
    cmd_try r fs (λ _, mkOutput Done (success "backup" destination json) fs)).

Definition cmd_compact (source destination : string) (page_size : option string) (json : bool) (fs : gmap string bytes) : Output :=
  open_path true source fs (λ db fs,
    let finish '(r, fs) := cmd_try r fs (λ _, mkOutput Done (success "compact" destination json) fs) in
    match page_size with
    | Some text =>
        match parse_arg text with
        | inl error => mkOutput (Failed ("invalid page size: " +:+ error)) "" fs
        | inr size => finish (compact_to_with_page_size fuel n try_token counter os_page_size attempts depth db source destination size fs)
        end
    | None => finish (compact_to fuel n try_token counter os_page_size attempts depth db source destination fs)
    end).

Definition cmd_salvage (source destination : string) (json : bool) (fs : gmap string bytes) : Output :=
  open_path true source fs (λ db fs,
    let '(r, fs) := salvage_to fuel n try_token counter os_page_size attempts depth db source destination fs in
    cmd_try r fs (λ manifest,
      mkOutput Done
        (if json then println (salvage_json manifest)
         else println ("copied buckets: " +:+ dec (copied_buckets manifest)) +:+ println ("copied records: " +:+ dec (copied_records manifest)) +:+
              println ("skipped pages:  " +:+ dec (len_u64 (skipped_pages manifest))) +:+
              println ("skipped records:" +:+ dec (len_u64 (skipped_records manifest)))) fs)).

(** [run] and [main]: the arguments after the program's name. *)
Definition run_command (arguments : list string) (json : bool) (fs : gmap string bytes) : Output :=
  let misused := mkOutput (Failed usage) "" fs in
  match arguments with
  | [] => misused
  | command :: operands =>
      let called name := bool_decide (command = name) in
      match operands with
      | [path] =>
          if called "info" then cmd_info path json fs
          else if called "stats" then cmd_stats path json fs
          else if called "verify" then cmd_verify path json fs
          else misused
      | [source; destination] =>
          if called "backup" then cmd_backup source destination json fs
          else if called "compact" then cmd_compact source destination None json fs
          else if called "salvage" then cmd_salvage source destination json fs
          else misused
      | [source; destination; page_size] => if called "compact" then cmd_compact source destination (Some page_size) json fs else misused
      | _ => misused
      end
  end.

Record Process := mkProcess { p_success : bool; p_stdout : string; p_stderr : string; p_files : gmap string bytes }.

Definition main (args : list string) (fs : gmap string bytes) : res Process :=
  let json := match args with first :: _ => bool_decide (first = "--json") | [] => false end in
  let arguments := if json then tail args else args in
  let out := run_command arguments json fs in
  match o_result out with
  | Done => Ok (mkProcess true (o_stdout out) "" (o_files out))
  | Failed message => Ok (mkProcess false (o_stdout out) (println (if json then error_json message else "error: " +:+ message)) (o_files out))
  | Panicked w => Panic w
  end.

End commands.

(** ** JSON *)

#[warnings="-register-all"] Inductive Json := JNull | JBool (b : bool) | JNum (z : Z) | JStr (s : string) | JArr (l : list Json) | JObj (l : list (string * Json)).

Fixpoint render (j : Json) : string :=
  match j with
  | JNull => "null"
  | JBool b => json_bool b
  | JNum z => dec z
  | JStr s => json_string s
  | JArr l => "[" +:+ String.concat "," (map render l) +:+ "]"
  | JObj l => "{" +:+ String.concat "," (map (λ kv, json_string (fst kv) +:+ ":" +:+ render (snd kv)) l) +:+ "}"
  end.

(** The texts of JSON without spaces; a leading zero is accepted. *)

Definition hex_value (c : ascii) : option nat :=
  let n := Ascii.nat_of_ascii c in
  if Nat.leb 48 n && Nat.leb n 57 then Some (n - 48)%nat else if Nat.leb 97 n && Nat.leb n 102 then Some (n - 87)%nat else None.

(** The UTF-8 bytes of a code point below 0x10000. *)
Definition utf8_of (cp : nat) (rest : string) : string :=
  if Nat.ltb cp 128 then String (Ascii.ascii_of_nat cp) rest
  else if Nat.ltb cp 2048 then String (Ascii.ascii_of_nat (192 + cp / 64)) (String (Ascii.ascii_of_nat (128 + cp mod 64)) rest)
  else String (Ascii.ascii_of_nat (224 + cp / 4096)) (String (Ascii.ascii_of_nat (128 + cp / 64 mod 64)) (String (Ascii.ascii_of_nat (128 + cp mod 64)) rest)).

(** What follows the opening quotation mark. *)
Fixpoint parse_chars (s : string) : option (string * string) :=
  match s with
  | EmptyString => None
  | String c rest =>
      let n := Ascii.nat_of_ascii c in
      if Nat.eqb n 34 then Some (EmptyString, rest)
      else if Nat.eqb n 92 then
        match rest with
        | String e rest =>
            let simple r := '(s, rest) ← parse_chars rest; Some (String (Ascii.ascii_of_nat r) s, rest) in
            match e with
            | "n"%char => simple 10%nat
            | "r"%char => simple 13%nat
            | "t"%char => simple 9%nat
            | "b"%char => simple 8%nat
            | "f"%char => simple 12%nat
            | "/"%char => simple 47%nat
            | "\"%char => simple 92%nat
            | "u"%char =>
                match rest with
                | String h1 (String h2 (String h3 (String h4 rest))) =>
                    d1 ← hex_value h1; d2 ← hex_value h2; d3 ← hex_value h3; d4 ← hex_value h4;
                    '(s, rest) ← parse_chars rest;
                    Some (utf8_of (((d1 * 16 + d2) * 16 + d3) * 16 + d4) s, rest)
                | _ => None
                end
            | _ => if Nat.eqb (Ascii.nat_of_ascii e) 34 then simple 34%nat else None
            end
        | EmptyString => None
        end
      else if Nat.ltb n 32 then None
      else '(s, rest) ← parse_chars rest; Some (String c s, rest)
  end.

Definition is_digit (c : ascii) : bool := let n := Ascii.nat_of_ascii c in Nat.leb 48 n && Nat.leb n 57.
Fixpoint parse_nat (acc : Z) (s : string) : Z * string :=
  match s with
  | String c rest => if is_digit c then parse_nat (acc * 10 + (Z.of_nat (Ascii.nat_of_ascii c) - 48)) rest else (acc, s)
  | EmptyString => (acc, s)
  end.

Fixpoint strip (p s : string) : option string :=
  match p, s with
  | EmptyString, _ => Some s
  | String a p, String b s => if bool_decide (a = b) then strip p s else None
  | _, _ => None
  end.
Definition is_char (c x : ascii) : bool := bool_decide (c = x).

Section parser.
Context (value : string → option (Json * string)).

(** Values separated by commas, up to the closing bracket. *)
Fixpoint parse_values (k : nat) (s : string) : option (list Json * string) :=
  match k with
  | O => None
  | S k =>
      '(v, s) ← value s;
      match s with
      | String c s => if is_char c ","%char then '(l, s) ← parse_values k s; Some (v :: l, s) else if is_char c "]"%char then Some ([v], s) else None
      | EmptyString => None
      end
  end.

Definition parse_member (s : string) : option (string * Json * string) :=
  s ← strip (String QUOTE EmptyString) s;
  '(key, s) ← parse_chars s;
  s ← strip ":" s;
  '(v, s) ← value s;
  Some (key, v, s).

Fixpoint parse_members (k : nat) (s : string) : option (list (string * Json) * string) :=
  match k with
  | O => None
  | S k =>
      '(m, s) ← parse_member s;
      match s with
      | String c s => if is_char c ","%char then '(l, s) ← parse_members k s; Some (m :: l, s) else if is_char c "}"%char then Some ([m], s) else None
      | EmptyString => None
      end
  end.
End parser.

Fixpoint parse_value (fuel : nat) (s : string) : option (Json * string) :=
  match fuel, s with
  | S fuel, String c rest =>
      if is_char c "["%char then
        match strip "]" rest with
        | Some rest => Some (JArr [], rest)
        | None => '(l, rest) ← parse_values (parse_value fuel) fuel rest; Some (JArr l, rest)
        end
      else if is_char c "{"%char then
        match strip "}" rest with
        | Some rest => Some (JObj [], rest)
        | None => '(l, rest) ← parse_members (parse_value fuel) fuel rest; Some (JObj l, rest)
        end
      else if is_char c "n"%char then rest ← strip "ull" rest; Some (JNull, rest)
      else if is_char c "t"%char then rest ← strip "rue" rest; Some (JBool true, rest)
      else if is_char c "f"%char then rest ← strip "alse" rest; Some (JBool false, rest)
      else if bool_decide (c = QUOTE) then '(s, rest) ← parse_chars rest; Some (JStr s, rest)
      else if is_char c "-"%char then
        match rest with
        | String d _ => if is_digit d then let '(z, rest) := parse_nat 0 rest in Some (JNum (- z), rest) else None
        | EmptyString => None
        end
      else if is_digit c then let '(z, rest) := parse_nat 0 s in Some (JNum z, rest)
      else None
  | _, _ => None
  end.

Fixpoint json_size (j : Json) : nat :=
  match j with
  | JArr l => S (foldr (λ x a, S (json_size x + a)) 0%nat l)
  | JObj l => S (foldr (λ kv a, S (json_size (snd kv) + a)) 0%nat l)
  | _ => 1
  end.

(** ** Strings *)

Lemma ascii_id c n : Ascii.nat_of_ascii c = n → Ascii.ascii_of_nat n = c.
Proof. intros <-. apply Ascii.ascii_nat_embedding. Qed.

Lemma hex_value_digit d : (d < 16)%nat → hex_value (hex_digit d) = Some d.
Proof. intros H. do 16 (destruct d as [|d]; [reflexivity|]). lia. Qed.

Lemma append_assoc a b c : (a +:+ b) +:+ c = a +:+ (b +:+ c).
Proof. induction a as [|x a IH]; [done|]. by rewrite !append_cons, IH. Qed.

(** An escaped control character is read back. *)
Lemma parse_unicode n s t rest :
  (n < 256)%nat → parse_chars s = Some (t, rest) → parse_chars (unicode_escape n +:+ s) = Some (utf8_of n t, rest).
Proof.
  intros Hn E. unfold unicode_escape. rewrite !append_cons, append_empty. cbn [parse_chars]. change (Ascii.nat_of_ascii BACKSLASH) with 92%nat. cbv iota beta.
  cbn [Nat.eqb]. change (hex_value "0"%char) with (Some 0%nat).
  rewrite (hex_value_digit (n / 16)) by (apply Nat.Div0.div_lt_upper_bound; lia). rewrite (hex_value_digit (n mod 16)) by (apply Nat.mod_upper_bound; lia).
  cbn [mbind option_bind]. rewrite E. cbn [mbind option_bind]. f_equal. f_equal. f_equal. pose proof (Nat.div_mod_eq n 16). lia.
Qed.

Lemma utf8_ascii n t : (n < 128)%nat → utf8_of n t = String (Ascii.ascii_of_nat n) t.
Proof. intros H. unfold utf8_of. by rewrite (proj2 (Nat.ltb_lt n 128)). Qed.

Lemma utf8_c1 n t : (128 <= n < 160)%nat → utf8_of n t = String (Ascii.ascii_of_nat 194) (String (Ascii.ascii_of_nat n) t).
Proof.
  intros H. unfold utf8_of. rewrite (proj2 (Nat.ltb_ge n 128)), (proj2 (Nat.ltb_lt n 2048)) by lia.
  assert (n / 64 = 2)%nat as -> by (symmetry; apply (Nat.div_unique n 64 2 (n - 128)); lia).
  assert (n mod 64 = n - 128)%nat as -> by (symmetry; apply (Nat.mod_unique n 64 2 (n - 128)); lia). by replace (128 + (n - 128))%nat with n by lia.
Qed.

(** An ordinary character. *)
Lemma parse_plain c s t rest :
  let n := Ascii.nat_of_ascii c in n ≠ 34%nat → n ≠ 92%nat → (32 <= n)%nat → parse_chars s = Some (t, rest) → parse_chars (String c s) = Some (String c t, rest).
Proof.
  intros n H1 H2 H3 E. cbn [parse_chars]. fold n. rewrite (proj2 (Nat.eqb_neq n 34)), (proj2 (Nat.eqb_neq n 92)), (proj2 (Nat.ltb_ge n 32)) by lia.
  by rewrite E.
Qed.

Lemma parse_simple e r s t rest :
  (e, r) ∈ [(QUOTE, 34%nat); (BACKSLASH, 92%nat); ("n"%char, 10%nat); ("r"%char, 13%nat); ("t"%char, 9%nat)] → parse_chars s = Some (t, rest) →
  parse_chars (String BACKSLASH (String e s)) = Some (String (Ascii.ascii_of_nat r) t, rest).
Proof.
  intros He E. repeat (apply elem_of_cons in He as [[= -> ->]|He]; [cbn; by rewrite E|]). by apply elem_of_nil in He.
Qed.

Lemma parse_escaped v rest : parse_chars (escape_chars v +:+ String QUOTE rest) = Some (v, rest).
Proof.
  induction v as [v IH] using (induction_ltof1 _ String.length). unfold ltof in IH. destruct v as [|c v]; [done|].
  pose proof (IH v ltac:(cbn; lia)) as IHv. cbn [escape_chars]. set (n := Ascii.nat_of_ascii c).
  assert (n < 256)%nat as Hn by apply Ascii.nat_ascii_bounded.
  assert (∀ e r, (e, r) ∈ [(QUOTE, 34%nat); (BACKSLASH, 92%nat); ("n"%char, 10%nat); ("r"%char, 13%nat); ("t"%char, 9%nat)] → n = r →
    parse_chars (String BACKSLASH (String e (escape_chars v)) +:+ String QUOTE rest) = Some (String c v, rest)) as Hsimple.
  { intros e r He E. rewrite !append_cons, <-(ascii_id c r E). by apply parse_simple. }
  destruct (Nat.eqb_spec n 34) as [|H34]; [eapply Hsimple; [|done]; set_solver|].
  destruct (Nat.eqb_spec n 92) as [|H92]; [eapply Hsimple; [|done]; set_solver|].
  destruct (Nat.eqb_spec n 10) as [|_]; [eapply Hsimple; [|done]; set_solver|].
  destruct (Nat.eqb_spec n 13) as [|_]; [eapply Hsimple; [|done]; set_solver|].
  destruct (Nat.eqb_spec n 9) as [|_]; [eapply Hsimple; [|done]; set_solver|].
  destruct (Nat.ltb_spec n 32) as [Hlt|Hge]; cbn [orb]; [|destruct (Nat.eqb_spec n 127) as [H127|H127]].
  1,2: rewrite append_assoc, (parse_unicode n _ v rest) by done; rewrite utf8_ascii by lia; unfold n; by rewrite Ascii.ascii_nat_embedding.
  assert (parse_chars (String c (escape_chars v) +:+ String QUOTE rest) = Some (String c v, rest)) as Hplain by (rewrite append_cons; by apply parse_plain).
  destruct (Nat.eqb_spec n 194) as [H194|_]; [|exact Hplain]. destruct v as [|c1 v1]; [exact Hplain|].
  destruct (Nat.leb_spec 128 (Ascii.nat_of_ascii c1)), (Nat.ltb_spec (Ascii.nat_of_ascii c1) 160); cbn [andb]; try exact Hplain.
  rewrite append_assoc, (parse_unicode _ _ v1 rest); [|lia|apply IH; cbn; lia]. rewrite utf8_c1 by done. by rewrite Ascii.ascii_nat_embedding, (ascii_id c 194 H194).
Qed.

Lemma parse_json_string v rest : parse_chars (escape_chars v +:+ String QUOTE EmptyString +:+ rest) = Some (v, rest).
Proof. apply parse_escaped. Qed.

(** ** Numbers *)

(** The text ends or goes on with something that is not a digit. *)
Definition stops (s : string) : Prop := match s with String c _ => is_digit c = false | EmptyString => True end.

Lemma parse_nat_stops z s : stops s → parse_nat z s = (z, s).
Proof. destruct s as [|c s]; [done|]. cbn. by intros ->. Qed.

Lemma digit_is_digit d : (d < 10)%N → is_digit (pretty_N_char d) = true.
Proof. intros H. unfold is_digit. rewrite digit_char by done. by rewrite !(proj2 (Nat.leb_le _ _)) by lia. Qed.

Lemma parse_nat_go x s : parse_nat 0 (pretty_N_go x s) = parse_nat (Z.of_N x) s.
Proof.
  revert s. induction (N.lt_wf_0 x) as [x _ IH]; intros s. destruct (decide (x = 0)%N) as [->|Hne]; [done|].
  assert (0 < x)%N as Hpos by lia. rewrite pretty_N_go_step by done. rewrite IH by (by apply N.div_lt).
  pose proof (N.div_mod x 10 ltac:(done)) as Hdm. pose proof (N.mod_lt x 10 ltac:(done)) as Hr.
  revert Hdm Hr. generalize (x / 10)%N as a, (x mod 10)%N as r. intros a r Hdm Hr. cbn [parse_nat]. rewrite digit_is_digit, digit_char by done. f_equal. lia.
Qed.

(** The digits of a number that is not negative. *)
Lemma dec_head z : 0 <= z → ∃ c t, is_digit c = true ∧ ∀ s, dec z +:+ s = String c (t +:+ s).
Proof.
  intros Hz. assert (∀ x s, (0 < x)%N → ∃ c t, is_digit c = true ∧ ∀ u, pretty_N_go x (s +:+ u) = String c (t +:+ u)) as Hgo.
  { intros x. induction (N.lt_wf_0 x) as [x _ IH]; intros s Hx. setoid_rewrite (pretty_N_go_step x); [|lia..].
    destruct (decide (x / 10 = 0)%N) as [E|E].
    - rewrite E. exists (pretty_N_char (x mod 10)), s. split; [apply digit_is_digit, N.mod_lt; lia|done].
    - destruct (IH (x / 10)%N ltac:(apply N.div_lt; lia) (String (pretty_N_char (x mod 10)) s) ltac:(by apply N.neq_0_lt_0)) as (c & t & Hd & Ht). exists c, t. split; [done|].
      intros u. rewrite <-Ht. by rewrite append_cons. }
  destruct (decide (z = 0)) as [->|]; [exists "0"%char, EmptyString; by split|].
  destruct (Hgo (Z.to_N z) EmptyString ltac:(lia)) as (c & t & Hd & Ht). exists c, t. split; [done|]. intros s. rewrite dec_app by done. rewrite <-Ht, append_empty. by destruct z.
Qed.

Lemma parse_nat_dec z s : 0 <= z → stops s → parse_nat 0 (dec z +:+ s) = (z, s).
Proof.
  intros Hz Hs. rewrite dec_app by done. destruct z as [|p|p]; [|rewrite parse_nat_go, parse_nat_stops by done; f_equal; lia|lia].
  rewrite append_cons, append_empty. cbn. by apply parse_nat_stops.
Qed.

Lemma parse_num fuel z s : stops s → parse_value (S fuel) (dec z +:+ s) = Some (JNum z, s).
Proof.
  intros Hs. assert (∀ c x, is_digit c = true → is_digit x = false → is_char c x = false) as Hne.
  { intros c x Hc Hx. apply bool_decide_eq_false_2. intros ->. congruence. }
  destruct (decide (0 <= z)) as [Hz|Hz].
  - destruct (dec_head z Hz) as (c & t & Hd & Ht). pose proof (parse_nat_dec z s Hz Hs) as Hp. rewrite Ht in *. cbn [parse_value].
    rewrite !Hne by done. rewrite (bool_decide_eq_false_2 (c = QUOTE)) by (intros ->; done). by rewrite Hd, Hp.
  - assert (dec z = String "-"%char (dec (- z))) as -> by (destruct z as [|p|p]; [lia..|reflexivity]).
    destruct (dec_head (- z) ltac:(lia)) as (c & t & Hd & Ht). pose proof (parse_nat_dec (- z) s ltac:(lia) Hs) as Hp. rewrite append_cons, Ht in *. cbn [parse_value].
    change (is_char "-"%char "["%char) with false. cbn [is_char]. rewrite Hd, Hp. cbn. f_equal. f_equal. f_equal. lia.
Qed.

(** ** What is rendered is parsed *)

Definition parsed (value : string → option (Json * string)) (j : Json) : Prop := ∀ s, stops s → value (render j +:+ s) = Some (j, s).

Lemma render_head j : ∃ c t, c ≠ "]"%char ∧ ∀ s, render j +:+ s = String c (t +:+ s).
Proof.
  assert (∀ c t, c ≠ "]"%char → render j = String c t → ∃ c t, c ≠ "]"%char ∧ ∀ s, render j +:+ s = String c (t +:+ s)) as Hc.
  { intros c t Hc E. exists c, t. split; [done|]. intros s. by rewrite E. }
  destruct j as [|[]|z|v|l|l]; try (by eapply Hc; [|reflexivity]).
  destruct (decide (0 <= z)) as [Hz|Hz]; [|destruct z as [|p|p]; [lia..|]; by eapply Hc; [|reflexivity]].
  destruct (dec_head z Hz) as (c & t & Hd & Ht). exists c, t. split; [by intros ->|exact Ht].
Qed.

Lemma parse_values_ok value l k s :
  (∀ j, j ∈ l → parsed value j) → l ≠ [] → (length l <= k)%nat → parse_values value k (String.concat "," (map render l) +:+ String "]"%char s) = Some (l, s).
Proof.
  revert k. induction l as [|j l IH]; intros k Hall Hne Hk; [done|]. destruct k as [|k]; [cbn in Hk; lia|]. cbn [parse_values]. destruct l as [|j' l].
  - cbn [map String.concat]. rewrite (Hall j ltac:(left) (String "]"%char s)) by done. done.
  - change (String.concat "," (map render (j :: j' :: l))) with (render j +:+ "," +:+ String.concat "," (map render (j' :: l))).
    rewrite !append_assoc, (Hall j ltac:(left)) by done. cbn [mbind option_bind]. rewrite append_cons, append_empty. change (is_char ","%char ","%char) with true. cbv iota.
    rewrite IH; [done|intros x Hx; apply Hall; by right|done|cbn in *; lia].
Qed.

Definition member (kv : string * Json) : string := json_string (fst kv) +:+ ":" +:+ render (snd kv).

Lemma parse_member_ok value kv s : parsed value (snd kv) → stops s → parse_member value (member kv +:+ s) = Some (kv, s).
Proof.
  intros Hv Hs. destruct kv as [key v]. unfold member, parse_member, json_string. cbn [fst snd] in *. rewrite !append_cons, !append_assoc.
  cbn [strip]. rewrite bool_decide_eq_true_2 by done. cbn [mbind option_bind]. rewrite parse_json_string. cbn [mbind option_bind].
  rewrite append_cons, append_empty. cbn [strip]. rewrite bool_decide_eq_true_2 by done. cbn [mbind option_bind]. by rewrite Hv.
Qed.

Lemma parse_members_ok value l k s :
  (∀ kv, kv ∈ l → parsed value (snd kv)) → l ≠ [] → (length l <= k)%nat → parse_members value k (String.concat "," (map member l) +:+ String "}"%char s) = Some (l, s).
Proof.
  revert k. induction l as [|kv l IH]; intros k Hall Hne Hk; [done|]. destruct k as [|k]; [cbn in Hk; lia|]. cbn [parse_members]. destruct l as [|kv' l].
  - cbn [map String.concat]. rewrite parse_member_ok; [done|apply Hall; left|done].
  - change (String.concat "," (map member (kv :: kv' :: l))) with (member kv +:+ "," +:+ String.concat "," (map member (kv' :: l))).
    rewrite !append_assoc, parse_member_ok; [|apply Hall; left|done]. cbn [mbind option_bind]. rewrite append_cons, append_empty. change (is_char ","%char ","%char) with true. cbv iota.
    rewrite IH; [done|intros x Hx; apply Hall; by right|done|cbn in *; lia].
Qed.

Lemma size_le {A} (f : A → nat) l x : x ∈ l → (f x + length l <= foldr (λ x a, S (f x + a)) 0 l)%nat.
Proof.
  assert (∀ l : list A, (length l <= foldr (λ x a, S (f x + a)) 0 l)%nat) as Hlen by (induction l0; cbn; lia).
  induction l as [|y l IH]; [by intros ?%elem_of_nil|]. intros [->|Hx]%elem_of_cons; cbn; [specialize (Hlen l); lia|specialize (IH Hx); lia].
Qed.

Lemma length_le {A} (f : A → nat) (l : list A) : (length l <= foldr (λ x a, S (f x + a)) 0 l)%nat.
Proof. induction l; cbn; lia. Qed.

Lemma strip_other a c s : c ≠ a → strip (String a EmptyString) (String c s) = None.
Proof. intros H. cbn. by rewrite bool_decide_eq_false_2. Qed.

Lemma parse_render fuel j : (json_size j <= fuel)%nat → parsed (parse_value fuel) j.
Proof.
  revert j. induction fuel as [|fuel IH]; intros j Hj s Hs; [by destruct j; cbn in Hj; lia|]. destruct j as [|[]|z|v|l|l].
  - done.
  - done.
  - done.
  - by apply parse_num.
  - cbn [render]. unfold json_string. rewrite append_cons, append_assoc. cbn [parse_value].
    change (is_char QUOTE "["%char) with false. change (is_char QUOTE "{"%char) with false. change (is_char QUOTE "n"%char) with false.
    change (is_char QUOTE "t"%char) with false. change (is_char QUOTE "f"%char) with false. cbv iota. rewrite bool_decide_eq_true_2 by done.
    by rewrite parse_json_string.
  - cbn [render]. rewrite !append_cons, append_empty, !append_assoc. cbn [json_size] in Hj. destruct l as [|j l]; [done|].
    pose proof (length_le json_size (j :: l)) as Hlen. cbn [parse_value]. change (is_char "["%char "["%char) with true. cbv iota.
    destruct (render_head j) as (c & t & Hc & Ht).
    assert (∃ u, String.concat "," (map render (j :: l)) +:+ "]" +:+ s = String c u) as [u Eu].
    { destruct l as [|j' l]; [exists (t +:+ "]" +:+ s); by rewrite <-Ht|]. eexists.
      change (String.concat "," (map render (j :: j' :: l))) with (render j +:+ "," +:+ String.concat "," (map render (j' :: l))). by rewrite append_assoc, Ht. }
    rewrite Eu, strip_other by done. rewrite <-Eu. rewrite append_cons, append_empty, parse_values_ok; [done| |done|lia].
    intros x Hx. apply IH. pose proof (size_le json_size (j :: l) x Hx). cbn [length] in *. lia.
  - cbn [render]. rewrite !append_cons, append_empty, !append_assoc. cbn [json_size] in Hj. destruct l as [|kv l]; [done|].
    pose proof (length_le (λ kv : string * Json, json_size (snd kv)) (kv :: l)) as Hlen. cbn [parse_value].
    change (is_char "{"%char "["%char) with false. change (is_char "{"%char "{"%char) with true. cbv iota.
    assert (∃ u, String.concat "," (map member (kv :: l)) +:+ "}" +:+ s = String QUOTE u) as [u Eu] by (destruct l; eexists; reflexivity).
    change (λ kv0 : string * Json, json_string (fst kv0) +:+ ":" +:+ render (snd kv0)) with member.
    rewrite Eu, strip_other by done. rewrite <-Eu. rewrite append_cons, append_empty, parse_members_ok; [done| |done|lia].
    intros x Hx. apply IH. pose proof (size_le (λ kv : string * Json, json_size (snd kv)) (kv :: l) x Hx). cbn [length] in *. lia.
Qed.

(** ** The objects of the commands *)

Definition num_or_null (o : option Z) : Json := match o with Some z => JNum z | None => JNull end.
Definition bytes_value (b : bytes) : Json := JArr ((λ x, JNum (Z_of_byte x)) <$> b).

Definition info_value (i : FormatInfo) : Json :=
  JObj [("file_bytes", JNum (fi_file_bytes i)); ("metadata_page", JNum (fi_metadata_page i)); ("page_size", JNum (fi_page_size i));
        ("transaction_id", JNum (fi_transaction_id i)); ("version", JNum (fi_version i))].
Definition stats_value (s : Stats) : Json :=
  JObj [("active_readers", JNum (st_active_readers s)); ("allocated_pages", JNum (st_allocated_pages s)); ("bytes_written", JNum (st_bytes_written s));
        ("committed_transactions", JNum (st_committed_transactions s)); ("current_tx_id", JNum (st_current_tx_id s)); ("file_bytes", JNum (st_file_bytes s));
        ("free_pages", JNum (st_free_pages s)); ("oldest_reader_tx_id", num_or_null (st_oldest_reader_tx_id s)); ("page_size", JNum (st_page_size s));
        ("pending_pages", JNum (st_pending_pages s)); ("reader_pinned_pages", JNum (st_reader_pinned_pages s))].
Definition issue_value (i : VerifyIssue) : Json :=
  JObj [("bucket_path", JArr []); ("invariant", JStr (is_invariant i)); ("offset", num_or_null (is_offset i)); ("page_id", num_or_null (is_page_id i));
        ("page_kind", match is_page_kind i with Some k => JStr k | None => JNull end)].
Definition report_value (r : VerifyReport) : Json := JObj [("issues", JArr (issue_value <$> vr_issues r)); ("valid", JBool (vr_valid r))].
Definition record_value (r : SkippedRecord) : Json :=
  JObj [("bucket_path", JArr (bytes_value <$> sr_bucket_path r)); ("key", match sr_key r with Some k => bytes_value k | None => JNull end); ("reason", JStr (sr_reason r))].
Definition manifest_value (m : SalvageManifest) : Json :=
  JObj [("copied_buckets", JNum (copied_buckets m)); ("copied_records", JNum (copied_records m));
        ("skipped_pages", JArr (JNum <$> skipped_pages m)); ("skipped_records", JArr (record_value <$> skipped_records m))].
Definition success_value (command destination : string) : Json := JObj [("command", JStr command); ("destination", JStr destination); ("ok", JBool true)].
Definition error_value (message : string) : Json := JObj [("ok", JBool false); ("error", JStr message)].

Lemma render_arr {A} (f : A → Json) (g : A → string) l : (∀ x, g x = render (f x)) → render (JArr (f <$> l)) = "[" +:+ String.concat "," (g <$> l) +:+ "]".
Proof. intros H. cbn [render]. do 2 f_equal. f_equal. induction l as [|x l IH]; [done|]. cbn. by rewrite H, IH. Qed.

(** Texts with the same pieces. *)
Ltac same_text := rewrite ?append_assoc; reflexivity.

Lemma num_or_null_render o : option_u64 o = render (num_or_null o).
Proof. by destruct o. Qed.
Lemma bytes_render b : json_bytes b = render (bytes_value b).
Proof. unfold bytes_value, json_bytes. by rewrite (render_arr _ (λ x, dec (Z_of_byte x))). Qed.

Lemma info_render i : info_json i = render (info_value i).
Proof. unfold info_json. cbn [info_value render map String.concat fst snd]. same_text. Qed.
Lemma stats_render s : stats_json s = render (stats_value s).
Proof. unfold stats_json. rewrite num_or_null_render. cbn [stats_value render map String.concat fst snd]. same_text. Qed.
Lemma issue_render i : issue_json i = render (issue_value i).
Proof.
  unfold issue_json. rewrite !num_or_null_render. assert (match is_page_kind i with Some k => json_string k | None => "null" end =
    render (match is_page_kind i with Some k => JStr k | None => JNull end)) as -> by (by destruct (is_page_kind i)).
  cbn [issue_value render map String.concat fst snd]. same_text.
Qed.
Lemma report_render r : verify_json r = render (report_value r).
Proof.
  pose proof (render_arr issue_value issue_json (vr_issues r) issue_render) as E. unfold verify_json, report_value. cbn [render map String.concat fst snd] in E |- *.
  rewrite E. same_text.
Qed.
Lemma record_render r : record_json r = render (record_value r).
Proof.
  pose proof (render_arr bytes_value json_bytes (sr_bucket_path r) bytes_render) as E. unfold record_json, record_value.
  assert (match sr_key r with Some key => json_bytes key | None => "null" end = render (match sr_key r with Some k => bytes_value k | None => JNull end)) as ->
    by (destruct (sr_key r); [apply bytes_render|done]).
  cbn [render map String.concat fst snd] in E |- *. rewrite E. same_text.
Qed.
Lemma manifest_render m : salvage_json m = render (manifest_value m).
Proof.
  pose proof (render_arr record_value record_json (skipped_records m) record_render) as E1.
  pose proof (render_arr JNum dec (skipped_pages m) (λ _, eq_refl)) as E2. unfold salvage_json, manifest_value.
  cbn [render map String.concat fst snd] in E1, E2 |- *. rewrite E1, E2. same_text.
Qed.

(** What a reader of the JSON gets; a text is read with any fuel from the object's size on. *)
Definition reads_as (text : string) (j : Json) : Prop := ∀ fuel, (json_size j <= fuel)%nat → parse_value fuel text = Some (j, EmptyString).

Lemma rendered_reads text j : text = render j → reads_as text j.
Proof.
  intros -> fuel Hf. pose proof (parse_render fuel j Hf EmptyString I) as H. assert (∀ s, s +:+ EmptyString = s) as Hnil; [|by rewrite Hnil in H].
  induction s as [|c s IH]; [done|]. by rewrite append_cons, IH.
Qed.

(** C38: With [--json] every line the tool prints is JSON and says what it should.  Whatever
    stands in a message, a path, a key or a reason (quotation marks, backslashes,
    control characters of one or two bytes), a JSON parser that reads the printed
    line finds an object with exactly the fields of the report, the strings
    unescaped to the original ones and the numbers to the original numbers. *)
Theorem json_output_parses :
  (∀ i, reads_as (info_json i) (info_value i)) ∧ (∀ s, reads_as (stats_json s) (stats_value s)) ∧
  (∀ r, reads_as (verify_json r) (report_value r)) ∧ (∀ m, reads_as (salvage_json m) (manifest_value m)) ∧
  (∀ command destination, reads_as (success_json command destination) (success_value command destination)) ∧
  ∀ message, reads_as (error_json message) (error_value message).
Proof.
  split_and!; intros; apply rendered_reads; [apply info_render|apply stats_render|apply report_render|apply manifest_render|..].
  - unfold success_json. cbn [success_value render map String.concat fst snd]. same_text.
  - unfold error_json. cbn [error_value render map String.concat fst snd]. same_text.
Qed.

(** ** The files *)

Section files.
Context `{D : Digest} `{L : LockTable} (fuel n depth : nat) (try_token : Z → res bool) (counter os_page_size : Z) (attempts : nat → Attempt).

Lemma cmd_try_keeps {A} (r : res A) fs fs' next : fs ⊆ fs' → (∀ a, fs ⊆ o_files (next a)) → fs ⊆ o_files (cmd_try r fs' next).
Proof. intros Hs Hn. destruct r; [apply Hn|done..]. Qed.

(** Opening leaves the file that is there. *)
Lemma open_keeps o file db disk : open fuel try_token counter os_page_size o (Some file) = (db, disk) → disk = Some file.
Proof.
  unfold open. destruct (_ ≫= _) as [[[ps max] file']|e|w] eqn:E; intros H; pose proof (f_equal snd H) as Hd; cbn [snd] in Hd; [|by rewrite <-Hd..].
  res_inv. unfold open_or_create in *. cbn in *. res_inv. by simplify_eq.
Qed.

Lemma open_path_keeps ro path fs next :
  (∀ db fs', fs ⊆ fs' → fs ⊆ o_files (next db fs')) → fs ⊆ o_files (open_path fuel try_token counter os_page_size ro path fs next).
Proof.
  intros Hn. unfold open_path. apply cmd_try_keeps; [done|]. intros o. destruct (open fuel try_token counter os_page_size _ (fs !! path)) as [db disk] eqn:E.
  assert (fs ⊆ with_file fs path disk) as Hs.
  { unfold with_file. destruct (fs !! path) as [file|] eqn:Ef; [apply open_keeps in E as ->; by rewrite insert_id|]. destruct disk; [by apply insert_subseteq|done]. }
  apply cmd_try_keeps; [done|]. intros db'. by apply Hn.
Qed.

Lemma new_file_keeps (fs : gmap string bytes) path file : fs !! path = None → fs ⊆ <[path := file]> fs.
Proof. apply insert_subseteq. Qed.

Lemma physical_backup_keeps db source destination fs : fs ⊆ snd (physical_backup fuel try_token counter os_page_size attempts db source destination fs).
Proof.
  unfold physical_backup, reject_destination. destruct (fs !! destination) eqn:Ed; [done|].
  match goal with |- context [match ?r with Ok _ => _ | Err _ => _ | Panic _ => _ end] => destruct r end; cbn [snd]; [by apply new_file_keeps|done..].
Qed.

Lemma copy_to_keeps db source destination size fs : fs ⊆ snd (copy_to fuel n try_token counter os_page_size attempts depth db source destination size fs).
Proof.
  unfold copy_to. case_bool_decide; [done|]. destruct (fs !! destination) eqn:Ed; [done|].
  match goal with |- context [match ?r with Ok _ => _ | Err _ => _ | Panic _ => _ end] => destruct r end; cbn [snd]; [by apply new_file_keeps|done..].
Qed.

Lemma salvage_to_keeps db source destination fs : fs ⊆ snd (salvage_to fuel n try_token counter os_page_size attempts depth db source destination fs).
Proof.
  unfold salvage_to, reject_destination. destruct (fs !! destination) eqn:Ed; [done|].
  match goal with |- context [match ?r with Ok _ => _ | Err _ => _ | Panic _ => _ end] => destruct r as [[[tx src_] o]|e|w] end; [|done..].
  destruct (open fuel try_token counter os_page_size o None) as [[target|e|w] disk].
  - destruct (salvage_into _ _ _ _ _ _ _ _ _ _ _) as [r file]. by apply new_file_keeps.
  - destruct disk; [by apply new_file_keeps|done].
  - destruct disk; [by apply new_file_keeps|done].
Qed.

(** C39: No command changes a file.  Whatever the arguments, every file that exists before
    the command exists afterwards with the same contents, the inspected database and
    the source of a copy included, whether the command succeeds, fails or panics;
    files are only added. *)
Theorem commands_keep_files (args : list string) (json : bool) (fs : gmap string bytes) :
  fs ⊆ o_files (run_command fuel n depth try_token counter os_page_size attempts args json fs).
Proof.
  assert (∀ db fs' source destination size, fs ⊆ fs' → fs ⊆ o_files (
    let '(r, fs2) := copy_to fuel n try_token counter os_page_size attempts depth db source destination size fs' in
    cmd_try r fs2 (λ _, mkOutput Done (success "compact" destination json) fs2))) as Hcopy.
  { intros db fs' source destination size Hs. pose proof (copy_to_keeps db source destination size fs') as Hk. destruct (copy_to _ _ _ _ _ _ _ _ _ _ _ _) as [r fs2].
    apply cmd_try_keeps; [by etrans|]. intros. by etrans. }
  unfold run_command, cmd_info, cmd_stats, cmd_verify, cmd_backup, cmd_compact, cmd_salvage.
  destruct args as [|command [|p1 [|p2 [|p3 [|p4 operands]]]]]; [done..| | | |done]; repeat case_bool_decide; try done; try apply open_path_keeps; try intros db fs' Hs.
  - by apply cmd_try_keeps.
  - by apply cmd_try_keeps.
  - by apply cmd_try_keeps.
  - pose proof (physical_backup_keeps db p1 p2 fs') as Hk. destruct (physical_backup _ _ _ _ _ _ _ _ _) as [r fs2]. apply cmd_try_keeps; [by etrans|]. intros. by etrans.
  - by apply Hcopy.
  - pose proof (salvage_to_keeps db p1 p2 fs') as Hk. destruct (salvage_to _ _ _ _ _ _ _ _ _ _ _) as [r fs2]. apply cmd_try_keeps; [by etrans|]. intros. by etrans.
  - destruct (parse_arg p3); [done|by apply Hcopy].
Qed.

End files.

(** ** A source that is not there *)

Module NoSource.

#[local] Existing Instance toy_digest.
Definition no_locks : LockTable := list_locks [].
#[local] Existing Instance no_locks.

Definition tagdata (args : list string) (fs : gmap string bytes) : res Process :=
  main 40 40 3 (λ _, Ok true) 0 1024 (λ _, mkAttempt true Locked true 0) args fs.

(** Whether a command succeeded, and how many files there are then. *)
Definition succeeds (args : list string) : option (bool * nat) :=
  match tagdata args ∅ with Ok p => Some (p_success p, size (p_files p)) | _ => None end.

End NoSource.

(** A backup of a file that does not exist succeeds.  With an empty directory the
    command [backup missing copy] creates a new database under the name of the
    source, copies it and reports success; the two files are equal and pass the
    integrity check.  Every other command refuses a source that does not exist and
    creates nothing. *)
Theorem backup_of_nothing :
  match NoSource.tagdata ["backup"; "missing"; "copy"] ∅ with
  | Ok p => p_success p = true ∧ p_stdout p = println "backup written to copy" ∧ size (p_files p) = 2%nat ∧
      p_files p !! "copy" = p_files p !! "missing" ∧ db_check (D := toy_digest) 40 (mkDbConfig 1024 None 1024) (default [] (p_files p !! "copy")) = Ok ()
  | _ => False
  end ∧
  ∀ args, args ∈ [["info"; "missing"]; ["stats"; "missing"]; ["verify"; "missing"]; ["compact"; "missing"; "copy"]; ["salvage"; "missing"; "copy"]] →
    NoSource.succeeds args = Some (false, 0%nat).
Proof.
  split.
  - assert ((match NoSource.tagdata ["backup"; "missing"; "copy"] ∅ with
      | Ok p => p_success p && bool_decide (p_stdout p = println "backup written to copy") && Nat.eqb (size (p_files p)) 2 &&
          bool_decide (p_files p !! "copy" = p_files p !! "missing") &&
          match db_check (D := toy_digest) 40 (mkDbConfig 1024 None 1024) (default [] (p_files p !! "copy")) with Ok _ => true | _ => false end
      | _ => false
      end) = true) as H by (vm_compute; reflexivity).
    destruct (NoSource.tagdata _ _) as [p| |]; [|discriminate H..].
    apply andb_prop in H as [[[[H1 H2%bool_decide_eq_true]%andb_prop H3%Nat.eqb_eq]%andb_prop H4%bool_decide_eq_true]%andb_prop H5].
    split_and!; try done. by destruct (db_check _ _ _) as [[]| |].
  - intros args Hin. repeat (apply elem_of_cons in Hin as [->|Hin]; [vm_compute; reflexivity|]). by apply elem_of_nil in Hin.
Qed.
