(* ===== verification/Forest.v ===== *)
(** * A transaction as a tree of maps

    The handles of a write transaction against an abstract database: a map from the
    path of a bucket to its entries, each a value or a nested bucket.  [represents]
    relates the objects of a transaction to it: every open bucket is an object of its
    own, every bucket that is not open is what the file stores under it.  Any sequence
    of operations through any handles gives the results of the abstract database. *)

From S2P Require Import Prelude Search Support Layout Meta Freelist Node Page PageNode Inner Spill Buckets Cursor Changes Handle Store.
From S2P Require Import Db Commit Tx Check Run SpillTree Reopen CopyTree.

(** ** The abstract database *)

Abbreviation Path := (list bytes).
(** The entries of a bucket: a value, or [None] for a nested bucket. *)
Abbreviation Entries := (gmap bytes (option bytes)).
Abbreviation Spec := (gmap Path Entries).

Inductive Op :=
  | OGet (h : nat) (key : bytes)
  | OPut (h : nat) (key value : bytes)
  | ODelete (h : nat) (key : bytes)
  | OOpen (h : option nat) (name : bytes)
  | OCreate (h : option nat) (name : bytes)
  | OEnsure (h : option nat) (name : bytes)
  | ODrop (h : option nat) (name : bytes).

Inductive Out := OutUnit | OutPair (o : option (bytes * bytes)) | OutErr (e : Error) | OutPanic (why : string).

(** The handles opened so far are numbered; the handle of a deleted bucket is [None].
    [None] as the handle of an operation is the transaction itself. *)
Record Abs := mkAbs { a_spec : Spec; a_handles : list (option Path) }.

Definition a_path (a : Abs) (h : option nat) : option Path :=
  match h with None => Some [] | Some i => mjoin (a_handles a !! i) end.

(** Deleting the bucket at a path deletes the buckets below it. *)
Definition prune {A} (p : Path) (m : gmap Path A) : gmap Path A := filter (λ kv, ¬ p `prefix_of` kv.1) m.
Definition drop_handles (p : Path) (hs : list (option Path)) : list (option Path) :=
  (λ o, match o with Some p' => if bool_decide (p `prefix_of` p') then None else Some p' | None => None end) <$> hs.

Definition a_push (a : Abs) (s : Spec) (p : Path) : Out * Abs := (OutUnit, mkAbs s (a_handles a ++ [Some p])).

(** One operation; nothing is said about operations through the handle of a deleted bucket. *)
Definition a_step (op : Op) (a : Abs) : option (Out * Abs) :=
  let s := a_spec a in
  let fails e := Some (OutErr e, a) in
  match op with
  | OGet h key =>
      p ← a_path a (Some h); m ← s !! p;
      Some (OutPair (match m !! key with Some (Some v) => Some (key, v) | _ => None end), a)
  | OPut h key value =>
      p ← a_path a (Some h); m ← s !! p;
      match m !! key with
      | Some None => fails IncompatibleValue
      | old => Some (OutPair (match old with Some (Some v) => Some (key, v) | _ => None end), mkAbs (<[p := <[key := Some value]> m]> s) (a_handles a))
      end
  | ODelete h key =>
      p ← a_path a (Some h); m ← s !! p;
      match m !! key with
      | Some (Some v) => Some (OutPair (Some (key, v)), mkAbs (<[p := delete key m]> s) (a_handles a))
      | Some None => fails IncompatibleValue
      | None => fails KeyValueMissing
      end
  | OOpen h name =>
      p ← a_path a h; m ← s !! p;
      match m !! name with
      | Some None => Some (a_push a s (p ++ [name]))
      | Some (Some _) => fails IncompatibleValue
      | None => fails BucketMissing
      end
  | OCreate h name =>
      p ← a_path a h; m ← s !! p;
      match m !! name with
      | Some None => fails BucketExists
      | Some (Some _) => fails IncompatibleValue
      | None => Some (a_push a (<[p ++ [name] := ∅]> (<[p := <[name := None]> m]> s)) (p ++ [name]))
      end
  | OEnsure h name =>
      p ← a_path a h; m ← s !! p;
      match m !! name with
      | Some None => Some (a_push a s (p ++ [name]))
      | Some (Some _) => fails IncompatibleValue
      | None => Some (a_push a (<[p ++ [name] := ∅]> (<[p := <[name := None]> m]> s)) (p ++ [name]))
      end
  | ODrop h name =>
      p ← a_path a h; m ← s !! p;
      match m !! name with
      | Some None => Some (OutUnit, mkAbs (prune (p ++ [name]) (<[p := delete name m]> s)) (drop_handles (p ++ [name]) (a_handles a)))
      | Some (Some _) => fails IncompatibleValue
      | None => fails BucketMissing
      end
  end.

Fixpoint a_run (ops : list Op) (a : Abs) : option (list Out * Abs) :=
  match ops with
  | [] => Some ([], a)
  | op :: ops => '(o, a) ← a_step op a; '(os, a) ← a_run ops a; Some (o :: os, a)
  end.

(** ** The transaction *)

Record Conc := mkConc { c_state : TxState; c_handles : list Bucket }.

Section conc.
Context (fuel : nat).

(** An operation that fails leaves the state. *)
Definition c_out {A} (c : Conc) (r : res A) (next : A → Out * Conc) : Out * Conc :=
  match r with Ok a => next a | Err e => (OutErr e, c) | Panic w => (OutPanic w, c) end.
Definition c_push (c : Conc) (x : Bucket * TxState) : Out * Conc := (OutUnit, mkConc (snd x) (c_handles c ++ [fst x])).
Definition c_set (c : Conc) (s : TxState) : Conc := mkConc s (c_handles c).

Definition with_handle (c : Conc) (h : nat) (next : Bucket → Out * Conc) : Out * Conc :=
  match c_handles c !! h with Some b => next b | None => (OutPanic "no such handle", c) end.
(** The method of a bucket, or that of the transaction. *)
Definition with_owner (c : Conc) (h : option nat) (root : Out * Conc) (next : Bucket → Out * Conc) : Out * Conc :=
  match h with Some i => with_handle c i next | None => root end.

Definition c_step (op : Op) (c : Conc) : Out * Conc :=
  let s := c_state c in
  match op with
  | OGet h key => with_handle c h (λ b, c_out c (bucket_get_kv fuel b key s) (λ o, (OutPair o, c)))
  | OPut h key value => with_handle c h (λ b, c_out c (bucket_put fuel b key value s) (λ '(o, s), (OutPair o, c_set c s)))
  | ODelete h key => with_handle c h (λ b, c_out c (bucket_delete fuel b key s) (λ '(k, v, s), (OutPair (Some (k, v)), c_set c s)))
  | OOpen h name => with_owner c h (c_out c (tx_get_bucket fuel true name s) (c_push c)) (λ b, c_out c (bucket_get_bucket fuel b name s) (c_push c))
  | OCreate h name => with_owner c h (c_out c (tx_create_bucket fuel true name s) (c_push c)) (λ b, c_out c (bucket_create_bucket fuel b name s) (c_push c))
  | OEnsure h name =>
      with_owner c h (c_out c (tx_get_or_create_bucket fuel true name s) (c_push c)) (λ b, c_out c (bucket_get_or_create_bucket fuel b name s) (c_push c))
  | ODrop h name =>
      with_owner c h (c_out c (tx_delete_bucket fuel true name s) (λ s, (OutUnit, c_set c s)))
        (λ b, c_out c (bucket_delete_bucket fuel b name s) (λ s, (OutUnit, c_set c s)))
  end.

Fixpoint c_run (ops : list Op) (c : Conc) : list Out * Conc :=
  match ops with
  | [] => ([], c)
  | op :: ops => let '(o, c) := c_step op c in let '(os, c) := c_run ops c in (o :: os, c)
  end.

(** ** What represents the abstract database *)

Definition entry_of (l : Leaf) : option bytes := match l with LKv _ v => Some v | LBucket _ _ => None end.
Definition entries_of (m : gmap bytes Leaf) : Entries := entry_of <$> m.

(** The pages under a root can be walked, as a deletion does. *)
Definition walkable (pages : Pages) (root : PageID) : Prop :=
  root = 0 ∨ ∃ bs, disk_forest (from_meta bucket_meta_default pages) [root] bs ∧ (length bs < fuel)%nat.

(** What the file stores at a path. *)
Fixpoint stored_at (depth : nat) (pages : Pages) (meta : BucketMeta) (A : Spec) (p : Path) : Prop :=
  match depth with
  | O => False
  | S depth =>
      ∃ ht es ps, bucket_wf (from_meta meta pages) ht es ps ∧ (ht < fuel)%nat ∧ walkable pages (root_page meta) ∧
        A !! p = Some (entries_of (leaf_map es)) ∧
        ∀ name m, leaf_map es !! name = Some (LBucket name m) → stored_at depth pages m A (p ++ [name])
  end.

(** An open bucket; [R] names the open buckets by their paths. *)
Record open_at (pages : Pages) (R : gmap Path BucketRef) (A : Spec) (p : Path) (b : InnerBucket) (ht : nat) (es : list Leaf) (ps : list PageID) : Prop := {
  oa_live : ib_deleted b = false;
  oa_pages : ib_pages b = pages;
  oa_wf : bucket_wf b ht es ps;
  oa_fuel : (ht < fuel)%nat;
  oa_walk : walkable pages (root_of b);
  oa_entries : A !! p = Some (entries_of (leaf_map es));
  oa_open : ∀ name c, ib_buckets b !! name = Some c ↔ R !! (p ++ [name]) = Some c;
  oa_closed : ∀ name m, leaf_map es !! name = Some (LBucket name m) → R !! (p ++ [name]) = None → ∃ depth, stored_at depth pages m A (p ++ [name])
}.

Record represents (pages : Pages) (st : Buckets) (R : gmap Path BucketRef) (A : Spec) : Prop := {
  rp_refs : refs_ok st;
  rp_root : R !! [] = Some ROOT;
  rp_inj : ∀ p p' r, R !! p = Some r → R !! p' = Some r → p = p';
  rp_parent : ∀ p name c, R !! (p ++ [name]) = Some c → is_Some (R !! p) ∧ ∃ m, A !! p = Some m ∧ m !! name = Some None;
  rp_open : ∀ p r, R !! p = Some r → ∃ b ht es ps, st !! r = Some b ∧ open_at pages R A p b ht es ps
}.

Section frame.
Context (pages : Pages).

Lemma stored_at_same depth meta A A' p :
  (∀ p', p `prefix_of` p' → A' !! p' = A !! p') → stored_at depth pages meta A p → stored_at depth pages meta A' p.
Proof.
  revert meta p. induction depth as [|depth IH]; intros meta p HA; [done|]. cbn [stored_at]. intros (ht & es & ps & Hw & Hf & Hwalk & He & Hsub).
  exists ht, es, ps. split_and!; try done; [by rewrite HA|]. intros name m Hn. apply IH; [|by apply Hsub].
  intros p' Hp'. apply HA. etrans; [|exact Hp']. by apply prefix_app_r.
Qed.

Lemma leaf_map_name es k name m : leaf_map es !! k = Some (LBucket name m) → name = k.
Proof. rewrite leaf_map_assoc. by intros [_ <-]%assoc_Some_elem. Qed.
Lemma leaf_map_key es k k' v : leaf_map es !! k = Some (LKv k' v) → k' = k.
Proof. rewrite leaf_map_assoc. by intros [_ <-]%assoc_Some_elem. Qed.

Lemma entries_lookup m k : entries_of m !! k = entry_of <$> m !! k.
Proof. apply lookup_fmap. Qed.

(** The entry of a nested bucket. *)
Lemma entries_bucket es k : entries_of (leaf_map es) !! k = Some None ↔ ∃ m, leaf_map es !! k = Some (LBucket k m).
Proof.
  rewrite entries_lookup. destruct (leaf_map es !! k) as [[name m|k' v]|] eqn:E; cbn; [|naive_solver..].
  pose proof (leaf_map_name _ _ _ _ E) as ->. naive_solver.
Qed.

(** Paths above an open bucket are open. *)
Lemma open_prefix st R A p p' : represents pages st R A → is_Some (R !! p) → p' `prefix_of` p → is_Some (R !! p').
Proof.
  intros HR Hp [q ->]. induction q as [|x q IH] using rev_ind; [by rewrite app_nil_r in Hp|]. rewrite app_assoc in Hp. destruct Hp as [c Hc].
  apply IH. by apply (rp_parent _ _ _ _ HR _ _ _ Hc).
Qed.

(** A bucket that is not open is not above an open one. *)
Lemma closed_apart st R A p p' : represents pages st R A → is_Some (R !! p) → R !! p' = None → ¬ p' `prefix_of` p.
Proof. intros HR Hp Hn Hpre. destruct (open_prefix st R A p p' HR Hp Hpre). congruence. Qed.

(** An open bucket stays what it is when the rest changes. *)
Lemma open_at_same R R' A A' p b ht es ps :
  open_at pages R A p b ht es ps → A' !! p = A !! p → (∀ name, R' !! (p ++ [name]) = R !! (p ++ [name])) →
  (∀ name p', R !! (p ++ [name]) = None → p ++ [name] `prefix_of` p' → A' !! p' = A !! p') → open_at pages R' A' p b ht es ps.
Proof.
  intros [H1 H2 H3 H4 H5 H6 H7 H8] HA HR Hsub. split; try done.
  - by rewrite HA.
  - intros name c. by rewrite HR.
  - intros name m Hn Hc. rewrite HR in Hc. destruct (H8 name m Hn Hc) as [depth Hs]. exists depth. eapply stored_at_same; [|exact Hs]. eauto.
Qed.

(** The open buckets of a transaction are different objects. *)
Lemma open_other st R A p p' r r' : represents pages st R A → R !! p = Some r → R !! p' = Some r' → p ≠ p' → r' ≠ r.
Proof. intros HR Hp Hp' Hne ->. apply Hne. by eapply (rp_inj _ _ _ _ HR). Qed.

Lemma prefix_longer {A} (p p' : list A) x : p ++ [x] `prefix_of` p' → p' ≠ p.
Proof. intros [q ->] E. apply (f_equal length) in E. rewrite !length_app in E. cbn in E. lia. Qed.

(** A change of the values of one open bucket. *)
Lemma represents_values st R A p r b ht es ps b' es' :
  represents pages st R A → R !! p = Some r → st !! r = Some b → open_at pages R A p b ht es ps →
  ib_deleted b' = false → ib_pages b' = ib_pages b → root_of b' = root_of b → ib_buckets b' = ib_buckets b → bucket_wf b' ht es' ps →
  (∀ name m, leaf_map es' !! name = Some (LBucket name m) ↔ leaf_map es !! name = Some (LBucket name m)) →
  represents pages (<[r := b']> st) R (<[p := entries_of (leaf_map es')]> A).
Proof.
  intros HR Hp Hb [H1 H2 H3 H4 H5 H6 H7 H8] Hd' Hpg Hroot Hbk Hw' Hsame. pose proof HR as [Q1 Q2 Q3 Q4 Q5].
  assert (∀ name, entries_of (leaf_map es') !! name = Some None ↔ entries_of (leaf_map es) !! name = Some None) as Hbuckets.
  { intros name. rewrite !entries_bucket. split; intros [m Hm]; exists m; by apply Hsame. }
  split; [apply refs_ok_update; [done|by rewrite Hb]|done|done| |].
  - intros p' name c Hc. destruct (Q4 p' name c Hc) as [Ho (m & Hm & Hn)]. split; [done|]. destruct (decide (p' = p)) as [->|Hne].
    + eexists. split; [apply lookup_insert_eq|]. apply Hbuckets. congruence.
    + exists m. by rewrite lookup_insert_ne.
  - intros p' r' Hp'. destruct (decide (p' = p)) as [->|Hne].
    + rewrite Hp in Hp'. injection Hp' as <-. exists b', ht, es', ps. split; [apply lookup_insert_eq|]. split; try done.
      * congruence.
      * by rewrite Hroot.
      * apply lookup_insert_eq.
      * intros name c. by rewrite Hbk.
      * intros name m Hn Hc. apply Hsame in Hn. destruct (H8 name m Hn Hc) as [depth Hs]. exists depth. eapply stored_at_same; [|exact Hs].
        intros p' Hpre. apply lookup_insert_ne. by apply not_eq_sym, (prefix_longer p p' name).
    + destruct (Q5 p' r' Hp') as (b0 & ht0 & es0 & ps0 & Hb0 & Ho). exists b0, ht0, es0, ps0. split; [rewrite lookup_insert_ne; [done|by eapply open_other]|].
      eapply open_at_same; [exact Ho|by rewrite lookup_insert_ne|done|]. intros name q Hc Hpre. apply lookup_insert_ne. intros <-.
      by eapply (closed_apart st R A p (p' ++ [name])).
Qed.

Lemma snoc_prefix {A} (p p' : list A) x y : p ++ [x] `prefix_of` p' ++ [y] → p = p' ∧ x = y ∨ p ++ [x] `prefix_of` p'.
Proof.
  intros [q E]. induction q as [|z q _] using rev_ind.
  - rewrite app_nil_r in E. apply app_inj_tail in E as [-> ->]. by left.
  - rewrite app_assoc in E. apply app_inj_tail in E as [-> _]. right. by eexists.
Qed.

(** Nothing below a closed bucket is below another. *)
Lemma closed_disjoint st R A p name p' name' q :
  represents pages st R A → is_Some (R !! p) → is_Some (R !! p') → R !! (p ++ [name]) = None → R !! (p' ++ [name']) = None → p ≠ p' ∨ name ≠ name' →
  p' ++ [name'] `prefix_of` q → ¬ p ++ [name] `prefix_of` q.
Proof.
  intros HR Hp Hp' Hn Hn' Hne H1 H2. destruct (prefix_weak_total _ _ _ H1 H2) as [H|H]; destruct (snoc_prefix _ _ _ _ H) as [[-> ->]|H'].
  - naive_solver.
  - exact (closed_apart st R A p (p' ++ [name']) HR Hp Hn' H').
  - naive_solver.
  - exact (closed_apart st R A p' (p ++ [name]) HR Hp' Hn H').
Qed.

(** A nested bucket that is now open. *)
Lemma represents_child st st' R A A' p r c name b b' child m ht es ps es' hc ec pc :
  represents pages st R A → R !! p = Some r → open_at pages R A p b ht es ps → R !! (p ++ [name]) = None →
  Buckets.registered st st' r c name b b' child → bucket_wf b' ht es' ps → root_of b' = root_of b →
  leaf_map es' !! name = Some (LBucket name m) → (∀ n', n' ≠ name → leaf_map es' !! n' = leaf_map es !! n') →
  (∀ p', p' ≠ p → ¬ p ++ [name] `prefix_of` p' → A' !! p' = A !! p') → A' !! p = Some (entries_of (leaf_map es')) →
  ib_deleted child = false → ib_pages child = pages → ib_buckets child = ∅ → bucket_wf child hc ec pc → (hc < fuel)%nat → walkable pages (root_of child) →
  A' !! (p ++ [name]) = Some (entries_of (leaf_map ec)) →
  (∀ n' m', leaf_map ec !! n' = Some (LBucket n' m') → ∃ depth, stored_at depth pages m' A' ((p ++ [name]) ++ [n'])) →
  represents pages st' (<[p ++ [name] := c]> R) A'.
Proof.
  intros HR Hp [H1 H2 H3 H4 H5 H6 H7 H8] Hnone [R1 R2 R3 R4 R5 R5d R6 R7] Hw' Hroot Hname Hsame HA HAp C1 C2 C3 C4 C5 C6 C7 C8.
  pose proof HR as [Q1 Q2 Q3 Q4 Q5]. assert (is_Some (R !! p)) as Hop by (by rewrite Hp).
  assert (∀ p' r', R !! p' = Some r' → r' ≠ c) as Hold.
  { intros p' r' Hp' ->. destruct (Q5 p' c Hp') as (b0 & ? & ? & ? & Hb0 & _). congruence. }
  assert (∀ n', p ++ [name] ≠ (p ++ [name]) ++ [n']) as Hlong by (intros n' E; apply (f_equal length) in E; rewrite !length_app in E; cbn in E; lia).
  assert (∀ n', R !! ((p ++ [name]) ++ [n']) = None) as Hbelow.
  { intros n'. apply eq_None_not_Some. intros Hs. by destruct (closed_apart st R A _ (p ++ [name]) HR Hs Hnone); eexists. }
  assert (∀ p', is_Some (R !! p') → is_Some ((<[p ++ [name] := c]> R : gmap Path BucketRef) !! p')) as Hkeep by (intros p' Hs; rewrite lookup_insert; by case_decide).
  split; [done| | | |].
  - rewrite lookup_insert_ne; [done|]. by destruct p.
  - intros p1 p2 r0. rewrite !lookup_insert. repeat case_decide; subst; try done; intros E1 E2; simplify_eq; try (by destruct (Hold _ _ E2)); try (by destruct (Hold _ _ E1)). by eapply Q3.
  - intros p' n' c'. rewrite lookup_insert. case_decide as E.
    + apply app_inj_tail in E as [<- <-]. intros _. split; [by apply Hkeep|]. eexists. split; [exact HAp|]. apply entries_bucket. eauto.
    + intros Hc. destruct (Q4 p' n' c' Hc) as [Ho (m' & Hm' & Hn')]. split; [by apply Hkeep|]. destruct (decide (p' = p)) as [->|Hne].
      * eexists. split; [exact HAp|]. rewrite entries_lookup, Hsame by (intros ->; congruence). rewrite <-entries_lookup. congruence.
      * exists m'. split; [|done]. rewrite HA; [done|done|]. intros Hpre. by eapply (closed_apart st R A p' (p ++ [name])).
  - intros p' r' Hp'. destruct (decide (p ++ [name] = p')) as [<-|Hne].
    { rewrite lookup_insert_eq in Hp'. injection Hp' as <-. exists child, hc, ec, pc. split; [done|]. split; try done.
      - intros n' c'. rewrite C3, lookup_empty, lookup_insert_ne, Hbelow by done. done.
      - intros n' m' Hn' _. by apply C8. }
    rewrite lookup_insert_ne in Hp' by done. destruct (decide (p' = p)) as [->|Hnp].
    + rewrite Hp in Hp'. injection Hp' as <-. exists b', ht, es', ps. split; [done|]. split; try done; [by rewrite R5d|congruence|by rewrite Hroot| |].
      * intros n' c'. rewrite R4. destruct (decide (name = n')) as [<-|Hnn]; [by rewrite !lookup_insert_eq|].
        rewrite !lookup_insert_ne; [apply H7| |done]. intros E. by apply app_inj_tail in E as [_ ?].
      * intros n' m' Hn'. rewrite lookup_insert. case_decide as E; [done|]. intros Hc. assert (n' ≠ name) as Hnn by congruence. rewrite Hsame in Hn' by done.
        destruct (H8 n' m' Hn' Hc) as [depth Hs]. exists depth. eapply stored_at_same; [|exact Hs]. intros q Hq. apply HA; [by apply (prefix_longer p q n')|].
        eapply closed_disjoint; try done. by right.
    + destruct (Q5 p' r' Hp') as (b0 & ht0 & es0 & ps0 & Hb0 & Ho). exists b0, ht0, es0, ps0.
      assert (is_Some (R !! p')) as Hop' by (by rewrite Hp').
      split; [rewrite R6; [done|by eapply open_other|by eapply Hold]|]. eapply open_at_same; [exact Ho| | |].
      * apply HA; [done|]. intros Hpre. by eapply (closed_apart st R A p' (p ++ [name])).
      * intros n'. apply lookup_insert_ne. intros E. apply app_inj_tail in E as [E _]. congruence.
      * intros n' q Hc Hq. apply HA; [intros ->; by eapply (closed_apart st R A p (p' ++ [n']))|]. eapply closed_disjoint; try done. left. congruence.
Qed.

Lemma prune_below {B} (p q : Path) (m : gmap Path B) : p `prefix_of` q → prune p m !! q = None.
Proof. intros H. apply map_lookup_filter_None. right. intros x _ Hn. by apply Hn. Qed.
Lemma prune_other {B} (p q : Path) (m : gmap Path B) : ¬ p `prefix_of` q → prune p m !! q = m !! q.
Proof.
  intros H. destruct (m !! q) eqn:E; [by apply map_lookup_filter_Some|]. apply map_lookup_filter_None. by left.
Qed.
Lemma prune_Some {B} (p q : Path) (m : gmap Path B) x : prune p m !! q = Some x ↔ m !! q = Some x ∧ ¬ p `prefix_of` q.
Proof. apply map_lookup_filter_Some. Qed.

Lemma siblings {A} (p q : list A) x y : p ++ [x] `prefix_of` q → p ++ [y] `prefix_of` q → x = y.
Proof.
  intros H1 H2. destruct (prefix_weak_total _ _ _ H1 H2) as [H|H]; destruct (snoc_prefix _ _ _ _ H) as [[_ ?]|H']; try done; by apply prefix_snoc_not in H'.
Qed.

Lemma entries_delete m k : entries_of (delete k m) = delete k (entries_of m).
Proof. apply fmap_delete. Qed.

Lemma entries_insert m k l : entries_of (<[k := l]> m) = <[k := entry_of l]> (entries_of m).
Proof. apply fmap_insert. Qed.

(** A nested bucket is deleted with everything below it. *)
Lemma represents_drop st st' tf tf' R A p r b ht es ps name m bs :
  represents pages st R A → R !! p = Some r → open_at pages R A p b ht es ps → leaf_map es !! name = Some (LBucket name m) →
  bucket_deleted st st' tf tf' r b name ht es ps bs →
  represents pages st' (prune (p ++ [name]) R) (prune (p ++ [name]) (<[p := delete name (entries_of (leaf_map es))]> A)).
Proof.
  intros HR Hp [H1 H2 H3 H4 H5 H6 H7 H8] Hname [(b' & es' & Hb' & Hw' & Em & Ebk & Emt & Epg & Edl) Href (c & child & Hcr & _ & _ & Hc & Hnew & Hoth) _ _ _ _].
  pose proof HR as [Q1 Q2 Q3 Q4 Q5]. assert (is_Some (R !! p)) as Hop by (by rewrite Hp).
  set (A' := prune (p ++ [name]) (<[p := delete name (entries_of (leaf_map es))]> A)).
  assert (¬ p ++ [name] `prefix_of` p) as Hself by apply prefix_snoc_not.
  assert (∀ q, q ≠ p → ¬ p ++ [name] `prefix_of` q → A' !! q = A !! q) as HA by (intros q Hq Hpre; unfold A'; by rewrite prune_other, lookup_insert_ne).
  assert (A' !! p = Some (entries_of (leaf_map es'))) as HAp by (unfold A'; by rewrite prune_other, lookup_insert_eq, Em, entries_delete).
  assert (∀ p' r', R !! p' = Some r' → ¬ p ++ [name] `prefix_of` p' → r' ≠ c) as Hold.
  { intros p' r' Hp' Hpre ->. destruct (ib_buckets b !! name) as [c0|] eqn:Ec.
    - rewrite (Hc c0 eq_refl) in Ec. apply H7 in Ec. apply Hpre. by rewrite (Q3 _ _ _ Hp' Ec).
    - destruct (Q5 p' c Hp') as (b0 & ? & ? & ? & Hb0 & _). rewrite Hnew in Hb0; done. }
  split; [done| | | |].
  - rewrite prune_other; [done|]. intros Hpre%prefix_nil_inv. by destruct p.
  - intros p1 p2 r0 [E1 _]%prune_Some [E2 _]%prune_Some. by eapply Q3.
  - intros p' n' c' [Hc' Hpre]%prune_Some. destruct (Q4 p' n' c' Hc') as [Ho (m' & Hm' & Hn')].
    assert (¬ p ++ [name] `prefix_of` p') as Hpre' by (intros H'; apply Hpre; by apply prefix_app_r). split; [by rewrite prune_other|].
    destruct (decide (p' = p)) as [->|Hne]; [|exists m'; by rewrite HA].
    eexists. split; [exact HAp|]. rewrite Em, entries_delete, lookup_delete_ne; [congruence|]. intros ->. by apply Hpre.
  - intros p' r' [Hp' Hpre]%prune_Some. destruct (decide (p' = p)) as [->|Hne].
    + rewrite Hp in Hp'. injection Hp' as <-. exists b', ht, es', ps. split; [done|]. split; try done; [congruence|congruence|unfold root_of; by rewrite Emt| |].
      * intros n' c'. rewrite Ebk. destruct (decide (name = n')) as [<-|Hnn]; [rewrite lookup_delete_eq, prune_below by done; done|].
        rewrite lookup_delete_ne, prune_other by (done || by intros [[_ ?]|?]%snoc_prefix). apply H7.
      * intros n' m' Hn'. destruct (decide (name = n')) as [<-|Hnn]; [by rewrite Em, lookup_delete_eq in Hn'|]. rewrite Em, lookup_delete_ne in Hn' by done.
        rewrite prune_other by (by intros [[_ ?]|?]%snoc_prefix). intros Hc'. destruct (H8 n' m' Hn' Hc') as [depth Hs]. exists depth. eapply stored_at_same; [|exact Hs].
        intros q Hq. apply HA; [by apply (prefix_longer p q n')|]. intros Hq'. by apply Hnn, (siblings p q).
    + destruct (Q5 p' r' Hp') as (b0 & ht0 & es0 & ps0 & Hb0 & Ho). exists b0, ht0, es0, ps0. assert (is_Some (R !! p')) as Hop' by (by rewrite Hp').
      split; [rewrite Hoth; [done|by eapply open_other|by eapply Hold]|].
      assert (∀ n', ¬ p ++ [name] `prefix_of` p' ++ [n']) as Hchild by (intros n' [[? _]|?]%snoc_prefix; congruence).
      eapply open_at_same; [exact Ho|by apply HA|intros n'; by apply prune_other|].
      intros n' q Hc' Hq. apply HA; [intros ->; by eapply (closed_apart st R A p (p' ++ [n']))|]. intros Hq'.
      destruct (prefix_weak_total _ _ _ Hq Hq') as [H|H]; [|by apply (Hchild n')]. destruct (snoc_prefix _ _ _ _ H) as [[? _]|H']; [congruence|].
      exact (closed_apart st R A p (p' ++ [n']) HR Hop Hc' H').
Qed.

End frame.

(** ** One operation on one bucket *)

Section steps.
Context (pages : Pages) (st : Buckets) (R : gmap Path BucketRef) (A : Spec) (p : Path) (r : BucketRef) (m : Entries).
Hypothesis (HR : represents pages st R A) (Hp : R !! p = Some r) (Hm : A !! p = Some m).

Lemma opened : ∃ b ht es ps, st !! r = Some b ∧ open_at pages R A p b ht es ps ∧ m = entries_of (leaf_map es).
Proof.
  destruct (rp_open _ _ _ _ HR p r Hp) as (b & ht & es & ps & Hb & Ho). exists b, ht, es, ps. split_and!; try done.
  pose proof (oa_entries _ _ _ _ _ _ _ _ Ho). congruence.
Qed.

Lemma get_step key :
  ∃ b, st !! r = Some b ∧ ib_deleted b = false ∧ ∃ l, inner_get fuel b key = Ok l ∧ match l with Some l => kv_of_leaf l | None => None end =
    match m !! key with Some (Some v) => Some (key, v) | _ => None end.
Proof.
  destruct opened as (b & ht & es & ps & Hb & Ho & ->). exists b. split; [done|]. split; [apply Ho|].
  rewrite (inner_get_assoc fuel b ht es ps key (oa_wf _ _ _ _ _ _ _ _ Ho) (oa_fuel _ _ _ _ _ _ _ _ Ho)). eexists. split; [done|].
  rewrite entries_lookup. pose proof (leaf_map_key es key) as Hk. rewrite leaf_map_assoc in *.
  destruct (assoc leaf_key es key) as [[nm mt|k v]|]; [done| |done]. cbn. by rewrite (Hk k v eq_refl).
Qed.

Lemma put_step key value :
  ∃ b, st !! r = Some b ∧ ib_deleted b = false ∧
    match m !! key with
    | Some None => inner_put fuel b key value = Err IncompatibleValue
    | old => ∃ b', inner_put fuel b key value = Ok (match old with Some (Some v) => Some (key, v) | _ => None end, b') ∧
        represents pages (<[r := b']> st) R (<[p := <[key := Some value]> m]> A)
    end.
Proof.
  destruct opened as (b & ht & es & ps & Hb & Ho & ->). pose proof Ho as [H1 H2 H3 H4 H5 H6 H7 H8]. exists b. split; [done|]. split; [done|].
  pose proof (put_leaf_ok fuel b ht es ps (LKv key value) H3 H4) as Hput. cbn [leaf_key leaf_is_kv] in Hput. unfold inner_put.
  pose proof (leaf_map_key es key) as Hk. rewrite entries_lookup. rewrite leaf_map_assoc in *.
  set (es' := ordered_put leaf_key es (LKv key value)) in *.
  assert (leaf_map es' = <[key := LKv key value]> (leaf_map es)) as Em by (apply (leaf_map_put es (LKv key value)), (wf_sorted _ _ _ _ H3)).
  assert (entries_of (leaf_map es') = <[key := Some value]> (entries_of (leaf_map es))) as Ee by (rewrite Em; apply entries_insert).
  assert (∀ b', root_of b' = root_of b → ib_buckets b' = ib_buckets b → ib_pages b' = ib_pages b → ib_deleted b' = ib_deleted b → bucket_wf b' ht es' ps →
    (∀ nm mt, assoc leaf_key es key ≠ Some (LBucket nm mt)) → represents pages (<[r := b']> st) R (<[p := <[key := Some value]> (entries_of (leaf_map es))]> A)) as Hrep.
  { intros b' E1 E2 E3 E4 Hw' Hnb. rewrite <-Ee. eapply represents_values; try done; [congruence|]. intros name mt. rewrite Em, lookup_insert. case_decide as E; [|done].
    subst name. split; [done|]. rewrite leaf_map_assoc. intros C. by destruct (Hnb _ _ C). }
  destruct (assoc leaf_key es key) as [[nm mt|k v]|] eqn:Ea; cbn [leaf_is_kv eqb entry_of fmap option_fmap option_map] in *.
  - by rewrite Hput.
  - destruct Hput as (b' & -> & Hw' & E1 & E2 & E3 & E4 & _). cbn [mbind res_bind]. rewrite (Hk k v eq_refl). exists b'. split; [done|]. apply Hrep; try done. unfold root_of. by rewrite E1.
  - destruct Hput as (b' & -> & Hw' & E1 & E2 & E3 & E4 & _). cbn [mbind res_bind]. exists b'. split; [done|]. apply Hrep; try done. unfold root_of. by rewrite E1.
Qed.

Lemma delete_step key :
  ∃ b, st !! r = Some b ∧ ib_deleted b = false ∧
    match m !! key with
    | Some (Some v) => ∃ b', inner_delete fuel b key = Ok (key, v, b') ∧ represents pages (<[r := b']> st) R (<[p := delete key m]> A)
    | Some None => inner_delete fuel b key = Err IncompatibleValue
    | None => inner_delete fuel b key = Err KeyValueMissing
    end.
Proof.
  destruct opened as (b & ht & es & ps & Hb & Ho & ->). pose proof Ho as [H1 H2 H3 H4 H5 H6 H7 H8]. exists b. split; [done|]. split; [done|].
  pose proof (inner_delete_ok fuel b ht es ps key H3 H4) as Hdel. pose proof (leaf_map_key es key) as Hk. rewrite entries_lookup, leaf_map_assoc. rewrite leaf_map_assoc in Hk.
  destruct (assoc leaf_key es key) as [[nm mt|k v]|] eqn:Ea; cbn [entry_of fmap option_fmap option_map]; [done| |done].
  destruct Hdel as (b' & es' & -> & Hw' & Em & E1 & E2 & E3 & E4 & _). rewrite (Hk k v eq_refl). exists b'. split; [done|]. rewrite <-entries_delete, <-Em.
  eapply represents_values; try done; [by rewrite E4|unfold root_of; by rewrite E1|]. intros name mt. rewrite Em, lookup_delete. case_decide as E; [|done].
  subst name. split; [done|]. rewrite leaf_map_assoc. congruence.
Qed.

(** A nested bucket is open afterwards, with everything that was open before. *)
Definition reopened_at (name : bytes) (result : res (BucketRef * Buckets)) (A' : Spec) : Prop :=
  ∃ c st' R', result = Ok (c, st') ∧ represents pages st' R' A' ∧ R ⊆ R' ∧ R' !! (p ++ [name]) = Some c.

Lemma getter_step name should must :
  let result := bucket_getter fuel st r name should must in
  match m !! name with
  | Some None => if must : bool then result = Err BucketExists else reopened_at name result A
  | Some (Some _) => result = Err IncompatibleValue
  | None => if should : bool then reopened_at name result (<[p ++ [name] := ∅]> (<[p := <[name := None]> m]> A)) else result = Err BucketMissing
  end.
Proof.
  cbv zeta. destruct opened as (b & ht & es & ps & Hb & Ho & ->). pose proof Ho as [H1 H2 H3 H4 H5 H6 H7 H8].
  pose proof (bucket_getter_ok fuel st r name should must b ht es ps Hb (rp_refs _ _ _ _ HR) H3 H4) as Hg. cbv zeta in Hg.
  assert (∀ c, ib_buckets b !! name = Some c → entries_of (leaf_map es) !! name = Some None) as Hopen.
  { intros c Hc%H7. destruct (rp_parent _ _ _ _ HR p name c Hc) as [_ (m' & Hm' & ?)]. congruence. }
  assert (∀ c, R !! (p ++ [name]) = None → R ⊆ <[p ++ [name] := c]> R) as Hsub by (intros c; apply insert_subseteq).
  assert (ib_buckets b !! name = None → R !! (p ++ [name]) = None) as Hclosed.
  { intros Hn. destruct (R !! (p ++ [name])) as [c|] eqn:Ec; [|done]. apply H7 in Ec. congruence. }
  pose proof (leaf_map_name es name) as Hnm. rewrite entries_lookup in *. destruct (ib_buckets b !! name) as [c|] eqn:Ec.
  - rewrite (Hopen c eq_refl). rewrite Hg. destruct must; [done|]. exists c, st, R. split_and!; try done. by apply H7.
  - specialize (Hclosed eq_refl). destruct (leaf_map es !! name) as [[nm mt|k v]|] eqn:El; cbn [entry_of fmap option_fmap option_map] in *.
    + rewrite (Hnm nm mt eq_refl) in El. destruct must; [done|]. destruct Hg as (c & st' & b' & E & Hreg & Hw' & Emt).
      destruct (H8 name mt El Hclosed) as [[|depth] Hs]; [done|]. destruct Hs as (hc & ec & pc & C1 & C2 & C3 & C4 & C5).
      exists c, st', (<[p ++ [name] := c]> R). split_and!; try done; [|by auto|apply lookup_insert_eq].
      rewrite H2 in Hreg. eapply (represents_child pages st st' R A A p r c name b b' (from_meta mt pages) mt ht es ps es hc ec pc); try done; [unfold root_of; by rewrite Emt|].
      intros n' m' Hn'. exists depth. by apply C5.
    + done.
    + destruct should; [|done]. destruct Hg as (c & st' & b' & child & es' & E & Hreg & Hw' & Em & _ & Cw & Cd & Cb & Cpg & Cr & Hroot).
      exists c, st', (<[p ++ [name] := c]> R). split_and!; try done; [|by auto|apply lookup_insert_eq].
      assert (p ++ [name] ≠ p) as Hne by (intros E'; apply (f_equal length) in E'; rewrite length_app in E'; cbn in E'; lia).
      eapply (represents_child pages st st' R A _ p r c name b b' child bucket_meta_default ht es ps es' 0 [] [0]); try done.
      * by rewrite Em, lookup_insert_eq.
      * intros n' Hn'. by rewrite Em, lookup_insert_ne.
      * intros p' Hp' Hpre. rewrite !lookup_insert_ne; [done|done|]. intros <-. by apply Hpre.
      * rewrite lookup_insert_ne, lookup_insert_eq, Em by done. f_equal. symmetry. apply entries_insert.
      * congruence.
      * lia.
      * by left.
      * apply lookup_insert_eq.
Qed.

Lemma drop_step name tf :
  match m !! name with
  | Some None => ∃ st' tf', delete_bucket fuel st tf r name = Ok (st', tf') ∧
      represents pages st' (prune (p ++ [name]) R) (prune (p ++ [name]) (<[p := delete name m]> A))
  | Some (Some _) => delete_bucket fuel st tf r name = Err IncompatibleValue
  | None => delete_bucket fuel st tf r name = Err BucketMissing
  end.
Proof.
  pose proof (getter_step name false false) as Hg. cbv zeta in Hg. destruct (m !! name) as [[v|]|] eqn:En.
  1,3: unfold delete_bucket, get_bucket; by rewrite Hg.
  clear Hg. destruct opened as (b & ht & es & ps & Hb & Ho & ->). pose proof Ho as [H1 H2 H3 H4 H5 H6 H7 H8]. apply entries_bucket in En as [mt Hn].
  assert (∀ nm c, ib_buckets b !! nm = Some c → ∃ cb, st !! c = Some cb ∧ c ≠ r ∧ walkable pages (root_of cb)) as Hch.
  { intros nm c Hc%H7. destruct (rp_open _ _ _ _ HR _ _ Hc) as (cb & ? & ? & ? & Hcb & Hoc). exists cb. split_and!; [done| |apply Hoc].
    eapply (open_other pages st R A p (p ++ [nm])); try done. intros E. apply (f_equal length) in E. rewrite length_app in E. cbn in E. lia. }
  assert (walkable pages (child_root st b name mt)) as Hwalk.
  { unfold child_root. destruct (ib_buckets b !! name) as [c|] eqn:Ec; [destruct (Hch name c Ec) as (cb & -> & _ & Hwalk); exact Hwalk|].
    destruct (H8 name mt Hn) as [[|depth] Hs]; [destruct (R !! (p ++ [name])) as [c|] eqn:E'; [apply H7 in E'; congruence|done]|done|]. by destruct Hs as (? & ? & ? & ? & ? & ? & _). }
  assert (∃ bs, (if child_root st b name mt =? 0 then bs = [] else disk_forest b [child_root st b name mt] bs) ∧ (length bs < fuel)%nat) as (bs & Hbs & Hlen).
  { destruct (Z.eqb_spec (child_root st b name mt) 0); [exists []; split; [done|cbn; lia]|]. destruct Hwalk as [|(bs & Hbs & ?)]; [done|]. exists bs. split; [|done].
    by eapply disk_forest_pages; [|exact Hbs]. }
  destruct (delete_bucket_ok fuel st tf r name b ht es ps mt bs Hb (rp_refs _ _ _ _ HR) H3 H4) as (st' & tf' & E & Hd); try done.
  { intros nm c Hc. destruct (Hch nm c Hc) as (cb & -> & ? & _). eauto. }
  exists st', tf'. split; [done|]. by eapply represents_drop.
Qed.

End steps.

(** ** Any sequence of operations *)

Section simulation.
Context (pages : Pages).

(** A live handle is a writable handle of the object at its path. *)
Definition handle_at (R : gmap Path BucketRef) (h : Bucket) (o : option Path) : Prop :=
  match o with Some p => R !! p = Some (bk_inner h) ∧ bk_writable h = true | None => True end.

Definition simulates (c : Conc) (a : Abs) : Prop :=
  ∃ R, represents pages (ts_buckets (c_state c)) R (a_spec a) ∧ Forall2 (handle_at R) (c_handles c) (a_handles a).

Lemma handles_grow R R' hs os : R ⊆ R' → Forall2 (handle_at R) hs os → Forall2 (handle_at R') hs os.
Proof. intros Hs Hall. eapply Forall2_impl; [exact Hall|]. intros h [p|]; [|done]. intros [Hp Hw]. split; [by eapply lookup_weaken|done]. Qed.

Lemma handles_drop R q hs os : Forall2 (handle_at R) hs os → Forall2 (handle_at (prune q R)) hs (drop_handles q os).
Proof.
  intros H. apply Forall2_fmap_r. eapply Forall2_impl; [exact H|]. intros h [p|]; [|done]. cbn. intros [Hp Hw]. case_bool_decide; [done|]. split; [by rewrite prune_other|done].
Qed.

Lemma handle_found R c a h p : Forall2 (handle_at R) (c_handles c) (a_handles a) → a_path a (Some h) = Some p →
  ∃ b, c_handles c !! h = Some b ∧ R !! p = Some (bk_inner b) ∧ bk_writable b = true.
Proof.
  intros Hall. cbn. destruct (a_handles a !! h) as [o|] eqn:E; [|done]. cbn. intros ->. destruct (Forall2_lookup_r _ _ _ _ _ Hall E) as (b & Hb & ? & ?). eauto.
Qed.

(** A live bucket: the check of the methods passes. *)
Lemma opened_live st R A p h m s why :
  represents pages st R A → R !! p = Some (bk_inner h) → A !! p = Some m → ts_buckets s = st → ∃ b, live_bucket s h why = Ok b ∧ st !! bk_inner h = Some b.
Proof.
  intros HR Hp Hm <-. destruct (opened pages _ R A p _ m HR Hp Hm) as (b & ht & es & ps & Hb & Ho & _). exists b. split; [|done].
  unfold live_bucket, bucket_at. rewrite Hb. cbn. by rewrite (oa_live _ _ _ _ _ _ _ _ Ho).
Qed.

(** The bucket methods of a handle and of the transaction, up to what they record. *)
Lemma ensure_step s R A p r m name :
  represents pages (ts_buckets s) R A → R !! p = Some r → A !! p = Some m →
  let result := '(_, st) ← match get_bucket fuel (ts_buckets s) r name with Ok (_, st) => Ok (true, st) | Err _ => Ok (false, ts_buckets s) | Panic w => Panic w end;
    get_or_create_bucket fuel st r name in
  match m !! name with
  | Some None => reopened_at pages R p name result A
  | Some (Some _) => result = Err IncompatibleValue
  | None => reopened_at pages R p name result (<[p ++ [name] := ∅]> (<[p := <[name := None]> m]> A))
  end.
Proof.
  intros HR Hp Hm. cbv zeta. pose proof (getter_step pages _ R A p r m HR Hp Hm name false false) as Hget. pose proof (getter_step pages _ R A p r m HR Hp Hm name true false) as Hnew.
  cbv zeta in Hget, Hnew. unfold get_bucket, get_or_create_bucket. destruct (m !! name) as [[v|]|] eqn:En.
  - rewrite Hget. cbn [mbind res_bind]. done.
  - destruct Hget as (c & st' & R' & -> & HR' & Hsub & Hc). cbn [mbind res_bind].
    pose proof (getter_step pages st' R' A p r m HR' ltac:(by eapply lookup_weaken) Hm name true false) as Hagain. cbv zeta in Hagain. rewrite En in Hagain.
    destruct Hagain as (c2 & st2 & R2 & -> & HR2 & Hsub2 & Hc2). exists c2, st2, R2. split_and!; try done. by etrans.
  - rewrite Hget. cbn [mbind res_bind]. exact Hnew.
Qed.

Lemma push_simulates R R' c s A h p a :
  represents pages (ts_buckets s) R' A → R ⊆ R' → R' !! p = Some (bk_inner h) → bk_writable h = true → Forall2 (handle_at R) (c_handles c) (a_handles a) →
  simulates (mkConc s (c_handles c ++ [h])) (mkAbs A (a_handles a ++ [Some p])).
Proof.
  intros HR Hs Hp Hw Hall. exists R'. split; [done|]. apply Forall2_app; [by eapply handles_grow|]. by repeat constructor.
Qed.

Lemma value_step op h c a o a' R :
  represents pages (ts_buckets (c_state c)) R (a_spec a) → Forall2 (handle_at R) (c_handles c) (a_handles a) →
  (∃ key, op = OGet h key) ∨ (∃ key value, op = OPut h key value) ∨ (∃ key, op = ODelete h key) →
  a_step op a = Some (o, a') → ∃ c', c_step op c = (o, c') ∧ simulates c' a'.
Proof.
  intros HR Hall Hop Hstep.
  assert (∃ p m, a_path a (Some h) = Some p ∧ a_spec a !! p = Some m) as (p & m & Ep & Em).
  { destruct Hop as [[key ->]|[(key & value & ->)|[key ->]]]; cbn [a_step] in Hstep; destruct (a_path a (Some h)) as [p|]; try done; cbn [mbind option_bind] in Hstep;
      (destruct (a_spec a !! p) as [m|] eqn:Em; [|done]); by exists p, m. }
  destruct (handle_found R c a h p Hall Ep) as (b & Hb & Hp & Hw).
  assert (simulates c a) as Hsame by (exists R; by split).
  destruct Hop as [[key ->]|[(key & value & ->)|[key ->]]]; cbn [a_step c_step] in *; rewrite Ep in Hstep; cbn [mbind option_bind] in Hstep; rewrite Em in Hstep;
    cbn [mbind option_bind] in Hstep; unfold with_handle; rewrite Hb.
  - destruct (get_step pages _ R _ p _ m HR Hp Em key) as (ib & Hib & Hd & l & El & Eq). injection Hstep as <- <-. exists c. split; [|done].
    unfold bucket_get_kv. rewrite (live_bucket_ok _ b ib) by done. cbn [mbind res_bind]. rewrite El. cbn [mbind res_bind c_out]. by rewrite Eq.
  - destruct (put_step pages _ R _ p _ m HR Hp Em key value) as (ib & Hib & Hd & Hput). unfold bucket_put. rewrite Hw. cbn [negb fail_if mbind res_bind].
    rewrite (live_bucket_ok _ b ib) by done. cbn [mbind res_bind]. destruct (m !! key) as [[v|]|].
    + destruct Hput as (b' & -> & HR'). injection Hstep as <- <-. eexists. split; [done|]. exists R. by split.
    + rewrite Hput. injection Hstep as <- <-. by exists c.
    + destruct Hput as (b' & -> & HR'). injection Hstep as <- <-. eexists. split; [done|]. exists R. by split.
  - destruct (delete_step pages _ R _ p _ m HR Hp Em key) as (ib & Hib & Hd & Hdel). unfold bucket_delete. rewrite Hw. cbn [negb fail_if mbind res_bind].
    rewrite (live_bucket_ok _ b ib) by done. cbn [mbind res_bind]. destruct (m !! key) as [[v|]|].
    + destruct Hdel as (b' & -> & HR'). injection Hstep as <- <-. eexists. split; [done|]. exists R. by split.
    + rewrite Hdel. injection Hstep as <- <-. by exists c.
    + rewrite Hdel. injection Hstep as <- <-. by exists c.
Qed.

(** The methods of the transaction are those of a handle of the root. *)
Lemma root_methods s name b : ts_buckets s !! ROOT = Some b → ib_deleted b = false →
  let h := root_handle true in
  tx_get_bucket fuel true name s = bucket_get_bucket fuel h name s ∧ tx_create_bucket fuel true name s = bucket_create_bucket fuel h name s ∧
  tx_get_or_create_bucket fuel true name s = bucket_get_or_create_bucket fuel h name s ∧ tx_delete_bucket fuel true name s = bucket_delete_bucket fuel h name s.
Proof.
  intros Hb Hd h. assert (∀ why, live_bucket s h why = Ok b) as Hl by (intros; by apply live_bucket_ok).
  unfold bucket_get_bucket, bucket_create_bucket, bucket_get_or_create_bucket, bucket_delete_bucket. rewrite !Hl. done.
Qed.

Section owner.
Context (c : Conc) (a : Abs) (R : gmap Path BucketRef) (h : option nat) (b : Bucket) (p : Path) (m : Entries) (name : bytes).
Hypothesis (HR : represents pages (ts_buckets (c_state c)) R (a_spec a)) (Hall : Forall2 (handle_at R) (c_handles c) (a_handles a)).
Hypothesis (Hp : R !! p = Some (bk_inner b)) (Hw : bk_writable b = true) (Ep : a_path a h = Some p) (Em : a_spec a !! p = Some m).

Lemma owner_same : simulates c a.
Proof. exists R. by split. Qed.

Lemma open_step o a' : a_step (OOpen h name) a = Some (o, a') →
  ∃ c', c_out c (bucket_get_bucket fuel b name (c_state c)) (c_push c) = (o, c') ∧ simulates c' a'.
Proof.
  cbn [a_step]. rewrite Ep. cbn [mbind option_bind]. rewrite Em. cbn [mbind option_bind]. pose proof (getter_step pages _ R _ p _ m HR Hp Em name false false) as Hg. cbv zeta in Hg.
  destruct (opened_live _ R _ p b m (c_state c) "Cannot get bucket from a deleted bucket." HR Hp Em eq_refl) as (ib & Hl & _).
  unfold bucket_get_bucket. rewrite Hl. cbn [mbind res_bind]. unfold get_bucket. destruct (m !! name) as [[v|]|].
  - rewrite Hg. intros [= <- <-]. exists c. split; [done|apply owner_same].
  - destruct Hg as (r & st' & R' & -> & HR' & Hsub & Hr). intros [= <- <-]. eexists. split; [done|]. by eapply push_simulates.
  - rewrite Hg. intros [= <- <-]. exists c. split; [done|apply owner_same].
Qed.

Lemma create_step o a' : a_step (OCreate h name) a = Some (o, a') →
  ∃ c', c_out c (bucket_create_bucket fuel b name (c_state c)) (c_push c) = (o, c') ∧ simulates c' a'.
Proof.
  cbn [a_step]. rewrite Ep. cbn [mbind option_bind]. rewrite Em. cbn [mbind option_bind]. pose proof (getter_step pages _ R _ p _ m HR Hp Em name true true) as Hg. cbv zeta in Hg.
  destruct (opened_live _ R _ p b m (c_state c) "Cannot create bucket in a deleted bucket." HR Hp Em eq_refl) as (ib & Hl & _).
  unfold bucket_create_bucket. rewrite Hw. cbn [negb fail_if mbind res_bind]. rewrite Hl. cbn [mbind res_bind]. unfold create_bucket. destruct (m !! name) as [[v|]|].
  - rewrite Hg. intros [= <- <-]. exists c. split; [done|apply owner_same].
  - rewrite Hg. intros [= <- <-]. exists c. split; [done|apply owner_same].
  - destruct Hg as (r & st' & R' & -> & HR' & Hsub & Hr). intros [= <- <-]. eexists. split; [done|]. by eapply push_simulates.
Qed.

Lemma get_or_create_step o a' : a_step (OEnsure h name) a = Some (o, a') →
  ∃ c', c_out c (bucket_get_or_create_bucket fuel b name (c_state c)) (c_push c) = (o, c') ∧ simulates c' a'.
Proof.
  cbn [a_step]. rewrite Ep. cbn [mbind option_bind]. rewrite Em. cbn [mbind option_bind]. pose proof (ensure_step (c_state c) R _ p _ m name HR Hp Em) as Hg. cbv zeta in Hg.
  destruct (opened_live _ R _ p b m (c_state c) "Cannot get or create bucket from a deleted bucket." HR Hp Em eq_refl) as (ib & Hl & _).
  unfold bucket_get_or_create_bucket, bucket_existed. rewrite Hw. cbn [negb fail_if mbind res_bind]. rewrite Hl. cbn [mbind res_bind].
  destruct (match get_bucket fuel (ts_buckets (c_state c)) (bk_inner b) name with Ok (_, st) => Ok (true, st) | Err _ => Ok (false, ts_buckets (c_state c)) | Panic w => Panic w end)
    as [[existed st1]|e|w] eqn:Ee; cbn [mbind res_bind] in *.
  - destruct (m !! name) as [[v|]|].
    + rewrite Hg. intros [= <- <-]. exists c. split; [done|apply owner_same].
    + destruct Hg as (r & st' & R' & -> & HR' & Hsub & Hr). intros [= <- <-]. cbn [mbind res_bind c_out]. eexists. split; [done|]. destruct existed; by eapply push_simulates.
    + destruct Hg as (r & st' & R' & -> & HR' & Hsub & Hr). intros [= <- <-]. cbn [mbind res_bind c_out]. eexists. split; [done|]. destruct existed; by eapply push_simulates.
  - by destruct (get_bucket _ _ _ _) as [[]| |].
  - by destruct (m !! name) as [[v|]|]; [|destruct Hg as (? & ? & ? & ? & _)..].
Qed.

Lemma delete_bucket_step o a' : a_step (ODrop h name) a = Some (o, a') →
  ∃ c', c_out c (bucket_delete_bucket fuel b name (c_state c)) (λ s, (OutUnit, c_set c s)) = (o, c') ∧ simulates c' a'.
Proof.
  cbn [a_step]. rewrite Ep. cbn [mbind option_bind]. rewrite Em. cbn [mbind option_bind].
  pose proof (drop_step pages _ R _ p _ m HR Hp Em name (ts_freelist (c_state c))) as Hg.
  destruct (opened_live _ R _ p b m (c_state c) "Cannot delete bucket from a deleted bucket." HR Hp Em eq_refl) as (ib & Hl & _).
  unfold bucket_delete_bucket. rewrite Hw. cbn [negb fail_if mbind res_bind]. rewrite Hl. cbn [mbind res_bind]. destruct (m !! name) as [[v|]|].
  - rewrite Hg. intros [= <- <-]. exists c. split; [done|apply owner_same].
  - destruct Hg as (st' & tf' & -> & HR'). intros [= <- <-]. eexists. split; [done|]. exists (prune (p ++ [name]) R). split; [done|]. by apply handles_drop.
  - rewrite Hg. intros [= <- <-]. exists c. split; [done|apply owner_same].
Qed.

End owner.

Lemma with_owner_found R c a h p root next :
  represents pages (ts_buckets (c_state c)) R (a_spec a) → Forall2 (handle_at R) (c_handles c) (a_handles a) → a_path a h = Some p → root = next (root_handle true) →
  ∃ b, with_owner c h root next = next b ∧ R !! p = Some (bk_inner b) ∧ bk_writable b = true.
Proof.
  intros HR Hall Ep ->. destruct h as [i|].
  - destruct (handle_found R c a i p Hall Ep) as (b & Hb & ? & ?). exists b. cbn [with_owner]. unfold with_handle. by rewrite Hb.
  - cbn [a_path] in Ep. injection Ep as <-. exists (root_handle true). split_and!; try done. apply (rp_root _ _ _ _ HR).
Qed.

(** The path of the owner of an operation and its entries. *)
Lemma step_owner {B} (a : Abs) (h : option nat) (f : Path → Entries → option B) (x : B) :
  (p ← a_path a h; m ← a_spec a !! p; f p m) = Some x → ∃ p m, a_path a h = Some p ∧ a_spec a !! p = Some m.
Proof. destruct (a_path a h) as [p|]; [|done]. cbn. destruct (a_spec a !! p) as [m|] eqn:E; [|done]. eauto. Qed.

Lemma step_simulates op c a o a' : simulates c a → a_step op a = Some (o, a') → ∃ c', c_step op c = (o, c') ∧ simulates c' a'.
Proof.
  intros (R & HR & Hall) Hstep.
  destruct (rp_open _ _ _ _ HR _ _ (rp_root _ _ _ _ HR)) as (rb & ? & ? & ? & Hrb & Hro). pose proof (oa_live _ _ _ _ _ _ _ _ Hro) as Hlive.
  destruct op as [h key|h key value|h key|h name|h name|h name|h name]; [by eapply value_step; eauto..| | | |];
    destruct (root_methods (c_state c) name rb Hrb Hlive) as (Eg & Ec & Ee & Ed); pose proof Hstep as (p & m & Ep & Em)%step_owner; cbn [c_step]; rewrite ?Eg, ?Ec, ?Ee, ?Ed;
    match goal with |- context [with_owner c h ?root ?next] => destruct (with_owner_found R c a h p root next HR Hall Ep eq_refl) as (b & -> & Hp & Hw) end.
  - by eapply open_step.
  - by eapply create_step.
  - by eapply get_or_create_step.
  - by eapply delete_bucket_step.
Qed.

Lemma run_simulates ops c a outs a' : simulates c a → a_run ops a = Some (outs, a') → ∃ c', c_run ops c = (outs, c') ∧ simulates c' a'.
Proof.
  revert c a outs. induction ops as [|op ops IH]; intros c a outs Hs; cbn [a_run c_run]; [intros [= <- <-]; eauto|].
  destruct (a_step op a) as [[o a1]|] eqn:E1; [|done]. cbn [mbind option_bind]. destruct (a_run ops a1) as [[os a2]|] eqn:E2; [|done]. cbn [mbind option_bind]. intros [= <- <-].
  destruct (step_simulates op c a o a1 Hs E1) as (c1 & -> & Hs1). destruct (IH c1 a1 os Hs1 E2) as (c2 & -> & Hs2). eauto.
Qed.

(** A new transaction: only the root bucket is open. *)
Lemma begin_simulates depth meta A tf ch :
  stored_at depth pages meta A [] → simulates (mkConc (mkTxState {[ROOT := from_meta meta pages]} tf ch) []) (mkAbs A []).
Proof.
  destruct depth as [|depth]; [done|]. intros (ht & es & ps & Hw & Hf & Hwalk & He & Hsub). exists {[[] := ROOT]}. split; [|constructor]. cbn [c_state ts_buckets a_spec].
  assert (∀ name, ({[[] := ROOT]} : gmap Path BucketRef) !! ([] ++ [name]) = None) as Hnone by (intros; by apply lookup_singleton_ne).
  split.
  - intros r [b [<- _]%lookup_singleton_Some]. unfold ROOT, fresh_ref. vm_compute. done.
  - apply lookup_singleton_eq.
  - intros p p' r [<- _]%lookup_singleton_Some [<- _]%lookup_singleton_Some. done.
  - intros p name c [E _]%lookup_singleton_Some. by destruct p.
  - intros p r [<- <-]%lookup_singleton_Some. exists (from_meta meta pages), ht, es, ps. split; [apply lookup_singleton_eq|]. split; try done.
    + intros name c. rewrite Hnone. cbn. by rewrite lookup_empty.
    + intros name m Hn _. exists depth. by apply Hsub.
Qed.

End simulation.

End conc.

(** ** Theorems *)

(** C2: A write transaction on a file refines a tree of maps.  Let the file store the
    tree [A]: under the root page every bucket is a well-formed B+ tree whose pages can
    be walked, and so on for the buckets nested in it.  Then for every sequence of
    lookups, insertions, deletions, and openings, creations and deletions of buckets,
    through handles at any depth and in any order, several handles of one bucket
    included, that the abstract database executes, the transaction gives the same
    results and the same errors, never panics, and ends in objects that represent the
    abstract result: what one handle writes every other handle of that bucket sees, no
    other bucket changes, and a deleted bucket takes everything below it with it. *)
Theorem transaction_refines_tree `{D : Digest} fuel cfg file oldest w s depth A ops outs a' :
  tx_begin cfg file oldest = Ok (w, s) → stored_at fuel depth (mkPages file (db_pagesize cfg)) (root (w_meta w)) A [] →
  a_run ops (mkAbs A []) = Some (outs, a') →
  ∃ c', c_run fuel ops (mkConc s []) = (outs, c') ∧ simulates fuel (mkPages file (db_pagesize cfg)) c' a'.
Proof.
  intros Hb Hs Hr. eapply run_simulates; [|exact Hr]. unfold tx_begin in Hb. destruct (begin_write file (db_pagesize cfg) oldest) as [w'| |]; [|done..].
  injection Hb as <- <-. by eapply begin_simulates.
Qed.

(** C16: The objects of a transaction stay well-formed and are never confused.  After any
    sequence of operations two live handles share their object exactly when they are
    handles of the same path, and the object of every live handle is a well-formed
    B+ tree, not deleted, whose entries are those of the abstract database at the
    path. *)
Theorem live_handles_typed fuel pages c a ops outs a' c' i j hi hj p q :
  simulates fuel pages c a → a_run ops a = Some (outs, a') → c_run fuel ops c = (outs, c') →
  c_handles c' !! i = Some hi → c_handles c' !! j = Some hj → a_handles a' !! i = Some (Some p) → a_handles a' !! j = Some (Some q) →
  (bk_inner hi = bk_inner hj ↔ p = q) ∧
  ∃ b ht es ps, ts_buckets (c_state c') !! bk_inner hi = Some b ∧ ib_deleted b = false ∧ ib_pages b = pages ∧ bucket_wf b ht es ps ∧ (ht < fuel)%nat ∧
    a_spec a' !! p = Some (entries_of (leaf_map es)).
Proof.
  intros Hs Ha Hc Hi Hj Hp Hq. destruct (run_simulates fuel pages ops c a outs a' Hs Ha) as (c2 & Hc2 & R & HR & Hall). rewrite Hc in Hc2. injection Hc2 as <-.
  destruct (Forall2_lookup_lr _ _ _ _ _ _ Hall Hi Hp) as [Ep _]. destruct (Forall2_lookup_lr _ _ _ _ _ _ Hall Hj Hq) as [Eq _]. split.
  - split; [|by intros <-; congruence]. intros E. rewrite <-E in Eq. by eapply (rp_inj _ _ _ _ _ HR).
  - destruct (rp_open _ _ _ _ _ HR _ _ Ep) as (b & ht & es & ps & Hb & [? ? ? ? ? ? ? ?]). by exists b, ht, es, ps.
Qed.

(** ** A run on a file *)

Module Forests.

#[local] Existing Instance toy_digest.

Abbreviation key := ([Byte.x6b] : bytes).
Abbreviation d_name := ([Byte.x64] : bytes).

(** The bucket [b], in it [c], in it one value. *)
Definition spec : Spec :=
  <[[] := {[Demo2.b_name := None]}]> (<[[Demo2.b_name] := {[Demo2.c_name := None]}]> {[[Demo2.b_name; Demo2.c_name] := {[key := Some [Byte.x76]]}]}).

(** Two handles of [c], a new bucket in it, and the deletion of [c] and of a value. *)
Definition ops : list Op :=
  [OOpen None Demo2.b_name; OOpen (Some 0) Demo2.c_name; OOpen (Some 0) Demo2.c_name; OPut 2 key [Byte.x77]; OGet 1 key; OEnsure (Some 1) d_name;
   OPut 3 key [Byte.x61]; OGet 1 key; OPut 2 d_name [Byte.x61]; OCreate (Some 0) key; ODrop (Some 0) Demo2.c_name; OOpen (Some 0) Demo2.c_name; OGet 4 key; ODelete 4 key; ODrop None d_name]%nat.
Definition outs : list Out :=
  [OutUnit; OutUnit; OutUnit; OutPair (Some (key, [Byte.x76])); OutPair (Some (key, [Byte.x77])); OutUnit;
   OutPair None; OutPair (Some (key, [Byte.x77])); OutErr IncompatibleValue; OutUnit; OutUnit; OutErr BucketMissing; OutPair None; OutErr KeyValueMissing; OutErr BucketMissing].
Definition final : Abs := match a_run ops (mkAbs spec []) with Some x => snd x | None => mkAbs ∅ [] end.

Lemma ops_run : a_run ops (mkAbs spec []) = Some (outs, final).
Proof. vm_compute. reflexivity. Qed.

Definition begun : WriteTx * TxState := match tx_begin Demo2.cfg Demo2.disk1 None with Ok x => x | _ => (mkWriteTx (init_meta 1024 0) (ts_freelist Copied.source) 0, Copied.source) end.

Lemma begun_ok : tx_begin Demo2.cfg Demo2.disk1 None = Ok (fst begun, snd begun).
Proof. vm_compute. reflexivity. Qed.

Lemma begun_root : root (w_meta (fst begun)) = Copied.meta.
Proof. vm_compute. reflexivity. Qed.

(** The pages of a bucket and of the buckets nested in it. *)
Lemma pages_walkable : walkable 20 Copied.pages 6 ∧ walkable 20 Copied.pages 5 ∧ walkable 20 Copied.pages 4.
Proof.
  set (b := from_meta bucket_meta_default Copied.pages).
  assert (inner_node_page b 6 = Ok (Z.to_nat 6144) ∧ page_pointers Demo2.disk1 (Z.to_nat 6144) = Ok [5]) as [H6 P6] by (split; vm_compute; reflexivity).
  assert (inner_node_page b 5 = Ok (Z.to_nat 5120) ∧ page_pointers Demo2.disk1 (Z.to_nat 5120) = Ok [4]) as [H5 P5] by (split; vm_compute; reflexivity).
  assert (inner_node_page b 4 = Ok (Z.to_nat 4096) ∧ page_pointers Demo2.disk1 (Z.to_nat 4096) = Ok []) as [H4 P4] by (split; vm_compute; reflexivity).
  pose proof (forest_cons b 4 [] _ _ _ _ H4 P4 (forest_nil b) (forest_nil b)) as F4. pose proof (forest_cons b 5 [] _ _ _ _ H5 P5 F4 (forest_nil b)) as F5.
  pose proof (forest_cons b 6 [] _ _ _ _ H6 P6 F5 (forest_nil b)) as F6.
  split_and!; right; (eexists; split; [eassumption|cbn [length app]; lia]).
Qed.

Lemma one_entry depth m id e A p :
  root_page m = id → file_view Demo2.disk1 1024 id = Ok (Leaves [e]) → leaf_wf e → walkable 20 Copied.pages id → A !! p = Some {[leaf_key e := entry_of e]} →
  (∀ name m', e = LBucket name m' → stored_at 20 depth Copied.pages m' A (p ++ [name])) → stored_at 20 (S depth) Copied.pages m A p.
Proof.
  intros <- Hv Hwf Hr HA Hsub. cbn [stored_at]. exists O, [e], [root_page m]. split_and!; [|lia|done| |].
  - apply (disk_tree_bucket Demo2.disk1 1024 m 0 [e] [root_page m]); [|apply NoDup_singleton]. split_and!; try done; [by repeat constructor|].
    apply keys_sorted_cons. split; [by intros ? []%elem_of_nil|constructor].
  - rewrite HA. f_equal. apply map_eq. intros k. rewrite entries_lookup. unfold leaf_map. cbn. rewrite lookup_singleton. by rewrite lookup_insert, lookup_empty; case_decide.
  - intros name m' Hn. apply Hsub. rewrite leaf_map_assoc in Hn. apply assoc_Some_elem in Hn as [Hin _]. by apply list_elem_of_singleton in Hin.
Qed.

Lemma spec_root : spec !! [] = Some {[Demo2.b_name := None]} ∧ spec !! [Demo2.b_name] = Some {[Demo2.c_name := None]} ∧
  spec !! [Demo2.b_name; Demo2.c_name] = Some {[key := Some [Byte.x76]]}.
Proof. done. Qed.

Lemma entries_wf : leaf_wf (LBucket Demo2.b_name (mkBucketMeta 5 1)) ∧ leaf_wf (LBucket Demo2.c_name (mkBucketMeta 4 1)).
Proof. done. Qed.

Lemma meta_stored : stored_at 20 3 Copied.pages Copied.meta spec [].
Proof.
  destruct entries_wf as [E6 E5]. destruct spec_root as (S6 & S5 & S4). destruct pages_walkable as (W6 & W5 & W4).
  refine (one_entry 2 Copied.meta 6 _ spec [] eq_refl (proj1 Copied.pages_read) E6 W6 S6 _). intros name m [= <- <-].
  refine (one_entry 1 (mkBucketMeta 5 1) 5 _ spec [Demo2.b_name] eq_refl (proj1 (proj2 Copied.pages_read)) E5 W5 S5 _). intros name m [= <- <-].
  refine (one_entry 0 (mkBucketMeta 4 1) 4 _ spec [Demo2.b_name; Demo2.c_name] eq_refl (proj1 (proj2 (proj2 Copied.pages_read))) I W4 S4 _). discriminate.
Qed.

Lemma spec_stored : stored_at 20 3 (mkPages Demo2.disk1 (db_pagesize Demo2.cfg)) (root (w_meta (fst begun))) spec [].
Proof. rewrite begun_root. exact meta_stored. Qed.

Lemma begun_simulates : simulates 20 Copied.pages (mkConc (snd begun) []) (mkAbs spec []).
Proof.
  assert (snd begun = mkTxState {[ROOT := from_meta (root (w_meta (fst begun))) Copied.pages]} (w_freelist (fst begun)) (tracker_new true)) as -> by (vm_compute; reflexivity).
  eapply begin_simulates, spec_stored.
Qed.

(** Five operations that leave two handles of [c] and one of [b]. *)
Definition opened_ops : list Op := take 5 ops.
Definition opened_abs : Abs := match a_run opened_ops (mkAbs spec []) with Some x => snd x | None => mkAbs ∅ [] end.
Definition opened_conc : Conc := snd (c_run 20 opened_ops (mkConc (snd begun) [])).

Lemma opened_run : a_run opened_ops (mkAbs spec []) = Some (take 5 outs, opened_abs).
Proof. vm_compute. reflexivity. Qed.
Lemma opened_ok : c_run 20 opened_ops (mkConc (snd begun) []) = (take 5 outs, opened_conc).
Proof. unfold opened_conc. destruct (run_simulates 20 Copied.pages opened_ops _ _ _ _ begun_simulates opened_run) as (c' & -> & _). done. Qed.

Lemma opened_handles : ∃ h1 h2, c_handles opened_conc !! 1%nat = Some h1 ∧ c_handles opened_conc !! 2%nat = Some h2 ∧
  a_handles opened_abs !! 1%nat = Some (Some [Demo2.b_name; Demo2.c_name]) ∧ a_handles opened_abs !! 2%nat = Some (Some [Demo2.b_name; Demo2.c_name]).
Proof. eexists _, _. split_and!; vm_compute; reflexivity. Qed.

End Forests.

Lemma transaction_refines_tree_witness :
  ∃ c', c_run 20 Forests.ops (mkConc (snd Forests.begun) []) = (Forests.outs, c') ∧ simulates 20 (mkPages Demo2.disk1 (db_pagesize Demo2.cfg)) c' Forests.final.
Proof. exact (transaction_refines_tree (D := toy_digest) 20 Demo2.cfg Demo2.disk1 None _ _ 3 Forests.spec Forests.ops _ _ Forests.begun_ok Forests.spec_stored Forests.ops_run). Defined.

Lemma live_handles_typed_witness : ∃ h1 h2, c_handles Forests.opened_conc !! 1%nat = Some h1 ∧ c_handles Forests.opened_conc !! 2%nat = Some h2 ∧ bk_inner h1 = bk_inner h2.
Proof.
  destruct Forests.opened_handles as (h1 & h2 & H1 & H2 & A1 & A2). exists h1, h2. split; [exact H1|split; [exact H2|]].
  exact (proj2 (proj1 (live_handles_typed 20 Copied.pages _ _ Forests.opened_ops _ _ _ 1 2 h1 h2 _ _ Forests.begun_simulates Forests.opened_run Forests.opened_ok H1 H2 A1 A2)) eq_refl).
Defined.
