(* ===== verification/Ofd.v ===== *)
(** * The locks of the operating system: [src/src/storage/coordination/ofd.rs]

    The lock calls of the crate over [fcntl].  The kernel keeps the open file
    descriptions of the database file and the advisory locks they hold; [fcntl],
    opening and closing enter through the class [Fcntl] with their documented
    behaviour ([FcntlLaws]).  The operations of [Coordination] are written over it,
    and [os_table] shows that probing it is a [LockTable], so that what
    [Coordination] proves of the readers holds of the locks of the system, however
    the calls of several processes interleave. *)

From S2P Require Import Prelude Support Coordination Session.

(** ** [fcntl] *)

(** An open file description. *)
Abbreviation File := Z.

Inductive LockKind := F_RDLCK | F_WRLCK | F_UNLCK.
Inductive Command := F_OFD_GETLK | F_OFD_SETLK | F_OFD_SETLKW.

#[global] Instance lock_kind_eq_dec : EqDecision LockKind.
Proof. solve_decision. Defined.
#[global] Instance command_eq_dec : EqDecision Command.
Proof. solve_decision. Defined.

Record Flock := mkFlock { l_type : LockKind; l_whence : Z; l_start : Z; l_len : Z; l_pid : Z }.

Definition SEEK_SET : Z := 0.
Definition EAGAIN : Z := 11.
Definition EACCES : Z := 13.

(** A lock held by an open file description. *)
Record Lock := mkLock { lk_owner : File; lk_kind : LockKind; lk_range : LockRange }.

#[global] Instance lock_eq_dec : EqDecision Lock.
Proof. solve_decision. Defined.

Record Kernel := mkKernel { k_open : gset File; k_locks : list Lock }.

(** What a call gives: the error code when it returns [-1], the structure it
    filled in, the locks afterwards. *)
Record FcntlOut := mkFcntlOut { errno : option Z; out_lock : Flock; out_kernel : Kernel }.

Class Fcntl := {
  fcntl : Command → File → Flock → Kernel → FcntlOut;
  open_path : string → Kernel → Z + (File * Kernel);
  close : File → Kernel → Kernel;
  as_raw_fd : File → Z
}.

Definition flock_range (l : Flock) : LockRange := mkLockRange (l_start l) (l_len l).

(** A lock of another description stands in the way of a lock of a kind. *)
Definition conflicts (f : File) (kind : LockKind) (r : LockRange) (lk : Lock) : Prop :=
  lk_owner lk ≠ f ∧ overlaps (lk_range lk) (lock_start r) (lock_length r) ∧ (kind = F_WRLCK ∨ lk_kind lk = F_WRLCK).
#[global] Instance conflicts_dec f kind r lk : Decision (conflicts f kind r lk).
Proof. unfold conflicts. apply _. Defined.

(** The description has a lock in or next to a range: a new lock would merge with it. *)
Definition touches (f : File) (r : LockRange) (lk : Lock) : Prop :=
  lk_owner lk = f ∧ lock_start (lk_range lk) <= lock_start r + lock_length r ∧ lock_start r <= lock_start (lk_range lk) + lock_length (lk_range lk).
#[global] Instance touches_dec f r lk : Decision (touches f r lk).
Proof. unfold touches. apply _. Defined.

Definition valid_lock (f : File) (l : Flock) (k : Kernel) : Prop := f ∈ k_open k ∧ l_whence l = SEEK_SET ∧ l_pid l = 0 ∧ valid_range (l_start l) (l_len l).

(** The documented behaviour.  A waiting call returns when the lock is granted or
    with an error; its state is the one it returns in. *)
Class FcntlLaws (F : Fcntl) := {
  fcntl_failed cmd f l k : errno (fcntl cmd f l k) ≠ None → out_kernel (fcntl cmd f l k) = k;
  fcntl_busy f l k lk :
    valid_lock f l k → l_type l ≠ F_UNLCK → lk ∈ k_locks k → conflicts f (l_type l) (flock_range l) lk →
    errno (fcntl F_OFD_SETLK f l k) = Some EAGAIN ∨ errno (fcntl F_OFD_SETLK f l k) = Some EACCES;
  fcntl_locked cmd f l k :
    cmd ≠ F_OFD_GETLK → valid_lock f l k → l_type l ≠ F_UNLCK → errno (fcntl cmd f l k) = None →
    let k' := out_kernel (fcntl cmd f l k) in
    (∀ lk, lk ∈ k_locks k → ¬ conflicts f (l_type l) (flock_range l) lk) ∧ k_open k' = k_open k ∧
    ((∀ lk, lk ∈ k_locks k → ¬ touches f (flock_range l) lk) →
     ∀ lk, lk ∈ k_locks k' ↔ lk = mkLock f (l_type l) (flock_range l) ∨ lk ∈ k_locks k);
  fcntl_unlocked cmd f l k :
    cmd ≠ F_OFD_GETLK → valid_lock f l k → l_type l = F_UNLCK → errno (fcntl cmd f l k) = None →
    let k' := out_kernel (fcntl cmd f l k) in
    k_open k' = k_open k ∧
    ((∀ lk, lk ∈ k_locks k → touches f (flock_range l) lk → lk_range lk = flock_range l) →
     ∀ lk, lk ∈ k_locks k' ↔ lk ∈ k_locks k ∧ ¬ (lk_owner lk = f ∧ lk_range lk = flock_range l));
  fcntl_probed f l k :
    valid_lock f l k → l_type l = F_WRLCK →
    let o := fcntl F_OFD_GETLK f l k in
    errno o = None ∧ out_kernel o = k ∧
    ((l_type (out_lock o) = F_UNLCK ∧ ∀ lk, lk ∈ k_locks k → ¬ conflicts f F_WRLCK (flock_range l) lk) ∨
     (l_type (out_lock o) ≠ F_UNLCK ∧ ∃ lk, lk ∈ k_locks k ∧ conflicts f F_WRLCK (flock_range l) lk ∧ flock_range (out_lock o) = lk_range lk));
  opened_fresh path k f k' :
    open_path path k = inr (f, k') → (f ∉ k_open k) ∧ k_open k' = {[f]} ∪ k_open k ∧ k_locks k' = k_locks k;
  closed_locks f k :
    k_open (close f k) = k_open k ∖ {[f]} ∧ ∀ lk, lk ∈ k_locks (close f k) ↔ lk ∈ k_locks k ∧ lk_owner lk ≠ f
}.

(** ** Operations with the kernel as their state *)

Definition os (A : Type) : Type := Kernel → res A * Kernel.
#[global] Instance os_ret : MRet os := λ A a k, (Ok a, k).
#[global] Instance os_bind : MBind os := λ A B f m k,
  match m k with (Ok a, k) => f a k | (Err e, k) => (Err e, k) | (Panic w, k) => (Panic w, k) end.
Definition lift {A} (r : res A) : os A := λ k, (r, k).

Section ofd.
Context {F : Fcntl}.

Definition last_os_error (code : Z) : Error := Io (mkIoError (RawOs code) "").

(** [i64::try_from] on an unsigned value. *)
Definition i64_of (z : Z) (message : string) : res Z := ok_or (if z <=? 2 ^ 63 - 1 then Some z else None) (InvalidDB message).

Definition raw_lock (start length : Z) (kind : LockKind) : res Flock :=
  l_start ← i64_of start "coordination lock offset is unsupported";
  l_len ← i64_of length "coordination lock length is unsupported";
  Ok (mkFlock kind SEEK_SET l_start l_len 0).

(** [libc::fcntl] and, when it returns [-1], the error of the system. *)
Definition call_fcntl (command : Command) (file : File) (lock : Flock) : os Flock := λ k,
  let o := fcntl command file lock k in
  (match errno o with Some code => Err (last_os_error code) | None => Ok (out_lock o) end, out_kernel o).

Definition set_lock (file : File) (start length : Z) (kind : LockKind) (wait : bool) : os unit :=
  lock ← lift (raw_lock start length kind);
  _ ← call_fcntl (if wait then F_OFD_SETLKW else F_OFD_SETLK) file lock;
  mret ().

(** [matches!(error.raw_os_error(), Some(EACCES | EAGAIN))] *)
Definition is_busy (e : Error) : bool :=
  match e with Io (mkIoError (RawOs code) _) => (code =? EACCES) || (code =? EAGAIN) | _ => false end.

Definition try_set_lock (file : File) (start length : Z) (kind : LockKind) : os bool := λ k,
  match set_lock file start length kind false k with
  | (Ok _, k) => (Ok true, k)
  | (Err e, k) => if is_busy e then (Ok false, k) else (Err e, k)
  | (Panic w, k) => (Panic w, k)
  end.

(** The part of a probe that reads the structure. *)
Definition found_lock (lock : Flock) : res (option LockRange) :=
  match l_type lock with
  | F_UNLCK => Ok None
  | _ =>
      _ ← fail_if (l_start lock <? 0) (InvalidDB "negative coordination lock offset");
      _ ← fail_if (l_len lock <? 0) (InvalidDB "negative coordination lock length");
      Ok (Some (mkLockRange (l_start lock) (l_len lock)))
  end.

Definition probe_lock (file : File) (start length : Z) : os (option LockRange) :=
  lock ← lift (raw_lock start length F_WRLCK);
  lock ← call_fcntl F_OFD_GETLK file lock;
  lift (found_lock lock).

(** [OpenOptions::new().read(true).write(true).open(path)] *)
Definition open_file (path : string) : os File := λ k,
  match open_path path k with inl code => (Err (last_os_error code), k) | inr (f, k) => (Ok f, k) end.

Definition open_independent (file : File) : os File := open_file ("/proc/self/fd/" +:+ dec (as_raw_fd file)).

(** A file that is dropped when the rest fails. *)
Definition owning {A} (file : File) (m : os A) : os A := λ k,
  match m k with (Ok a, k) => (Ok a, k) | (Err e, k) => (Err e, close file k) | (Panic w, k) => (Panic w, close file k) end.

(** ** [Coordination] *)

Record Coordination := mkCoordination { gate : File; probe : File }.

Definition coordination_open (database : string) : os Coordination :=
  gate ← open_file database;
  owning gate (probe ← open_file database; mret (mkCoordination gate probe)).

(** [Mutex::lock]; a mutex is poisoned when a thread panicked while it held it. *)
Definition mutex_lock (poisoned : bool) : res unit := fail_if poisoned (Sync "lock poisoned").

(** The mutex of the gate: what the first try says, and whether the mutex is
    poisoned when it was waited for. *)
Definition gate_mutex (try : TryMutex) (poisoned : bool) (wait : bool) : res bool :=
  match try with
  | Locked => Ok true
  | WouldBlockMutex => if wait then _ ← mutex_lock poisoned; Ok true else Ok false
  | Poisoned => Err (Sync "lock poisoned")
  end.

Definition lock_gate (c : Coordination) (try : TryMutex) (poisoned : bool) (kind : LockKind) (wait : bool) : os (option File) :=
  locked ← lift (gate_mutex try poisoned wait);
  if negb locked then mret None
  else if wait then _ ← set_lock (gate c) GATE_OFFSET 1 kind true; mret (Some (gate c))
  else got ← try_set_lock (gate c) GATE_OFFSET 1 kind; mret (if (got : bool) then Some (gate c) else None).

Definition shared_gate (c : Coordination) (try : TryMutex) (poisoned : bool) : os File :=
  o ← lock_gate c try poisoned F_RDLCK true; lift (unwrap o "called `Option::unwrap()` on a `None` value").
Definition exclusive_gate (c : Coordination) (try : TryMutex) (poisoned : bool) : os File :=
  o ← lock_gate c try poisoned F_WRLCK true; lift (unwrap o "called `Option::unwrap()` on a `None` value").
Definition try_exclusive_gate (c : Coordination) (try : TryMutex) (poisoned : bool) : os (option File) :=
  lock_gate c try poisoned F_WRLCK false.

(** [Drop for GateGuard]: the result of the call is ignored. *)
Definition drop_gate (guard : File) (k : Kernel) : Kernel := snd (set_lock guard GATE_OFFSET 1 F_UNLCK false k).

(** [poisoned]: the state of the mutex of the probe. *)
Definition open_registration_file (c : Coordination) (poisoned : bool) : os File :=
  _ ← lift (mutex_lock poisoned); open_independent (probe c).

Fixpoint registration_loop (file : File) (first tx : Z) (remaining : nat) (attempt : Z) : os File :=
  match remaining with
  | O => lift (Err (Sync "reader registration table is full"))
  | S remaining =>
      let slot := (first + attempt) mod MAX_READER_SLOTS in
      free ← try_set_lock file (token_offset slot) 1 F_WRLCK;
      if negb free then registration_loop file first tx remaining (attempt + 1)
      else
        let range := encode_tx_id slot tx in
        _ ← set_lock file (lock_start range) (lock_length range) F_RDLCK false;
        mret file
  end.

(** [counter] is the value of [READER_SLOT] this registration takes. *)
Definition register_reader (c : Coordination) (poisoned : bool) (counter tx : Z) : os File :=
  file ← open_registration_file c poisoned;
  owning file (registration_loop file (counter mod MAX_READER_SLOTS) tx (Z.to_nat MAX_READER_SLOTS) 0).

(** [Drop for ReaderRegistration] closes the file. *)
Definition drop_registration (registration : File) (k : Kernel) : Kernel := close registration k.

(** [Coordination::readers]: a probe leaves the locks as they are. *)
Definition os_probe (file : File) (k : Kernel) : LockProbe := {| get_lock start length := fst (probe_lock file start length k) |}.
Definition find_readers (c : Coordination) (poisoned : bool) : os (Z * option Z) := λ k, ((_ ← mutex_lock poisoned; @readers (os_probe (probe c) k)), k).

End ofd.

(** ** Probing is a lock table *)

Lemma raw_lock_valid start length kind : valid_range start length → raw_lock start length kind = Ok (mkFlock kind SEEK_SET start length 0).
Proof. unfold valid_range, raw_lock, i64_of. intros (H1 & H2 & H3). by rewrite !(proj2 (Z.leb_le _ _)) by lia. Qed.

Definition ranges_positive (k : Kernel) : Prop := ∀ lk, lk ∈ k_locks k → 0 <= lock_start (lk_range lk) ∧ 0 <= lock_length (lk_range lk).

Section table.
Context {F : Fcntl} {HF : FcntlLaws F}.

Lemma probe_lock_ok file k start length :
  file ∈ k_open k → ranges_positive k → valid_range start length →
  (probe_lock file start length k = (Ok None, k) ∧ ∀ lk, lk ∈ k_locks k → lk_owner lk ≠ file → ¬ overlaps (lk_range lk) start length) ∨
  (∃ lk, probe_lock file start length k = (Ok (Some (lk_range lk)), k) ∧ lk ∈ k_locks k ∧ lk_owner lk ≠ file ∧ overlaps (lk_range lk) start length).
Proof.
  intros Hopen Hpos Hv. unfold probe_lock. rewrite raw_lock_valid by done. unfold lift, call_fcntl, mbind, os_bind.
  destruct (fcntl_probed file (mkFlock F_WRLCK SEEK_SET start length 0) k) as (E1 & E2 & Hcase); [done|done|]. rewrite E1, E2. unfold found_lock.
  destruct Hcase as [[E Hno]|(Hne & lk & Hin & (Ho & Hov & _) & Er)].
  - left. rewrite E. split; [done|]. intros lk Hin Ho Hov. apply (Hno lk Hin). split_and!; try done. by left.
  - right. exists lk. split_and!; try done. destruct (Hpos lk Hin) as [P1 P2]. unfold flock_range in Er. rewrite <-Er in P1, P2. cbn [lock_start lock_length] in P1, P2.
    rewrite !(proj2 (Z.ltb_ge _ _)) by done. cbn [fail_if mbind res_bind]. rewrite Er. by destruct (l_type _).
Qed.

(** The interface of [Coordination], discharged. *)
Program Definition os_table (file : File) (k : Kernel) (Hopen : file ∈ k_open k) (Hpos : ranges_positive k) : LockTable :=
  {| table_probe := os_probe file k; held := lk_range <$> filter (λ lk, lk_owner lk ≠ file) (k_locks k) |}.
Next Obligation.
  intros file k Hopen Hpos start len r Hv E. cbn in E. destruct (probe_lock_ok file k start len Hopen Hpos Hv) as [[E' _]|(lk & E' & Hin & Ho & Hov)]; rewrite E' in E; [done|].
  injection E as <-. split; [|done]. apply list_elem_of_fmap. exists lk. split; [done|]. by apply list_elem_of_filter.
Qed.
Next Obligation.
  intros file k Hopen Hpos start len Hv E r Hr. cbn in E. destruct (probe_lock_ok file k start len Hopen Hpos Hv) as [[_ Hno]|(lk & E' & _)]; [|by rewrite E' in E].
  apply list_elem_of_fmap in Hr as (lk & -> & [Ho Hin]%list_elem_of_filter). by apply Hno.
Qed.

Lemma os_table_probing file k Hopen Hpos : probing (os_table file k Hopen Hpos).
Proof. intros start len Hv. cbn. destruct (probe_lock_ok file k start len Hopen Hpos Hv) as [[-> _]|(lk & -> & _)]; by eexists. Qed.

End table.

(** ** The locks of readers and writers *)

(** A registration has taken a slot and, if it has come that far, announced its
    snapshot; a gate is held for reading or writing. *)
Abbreviation Registrations := (gmap File (Z * option Z)).
Abbreviation Gates := (gmap File LockKind).

Definition token_lock (f : File) (slot : Z) : Lock := mkLock f F_WRLCK (mkLockRange (token_offset slot) 1).
Definition payload_lock (f : File) (slot tx : Z) : Lock := mkLock f F_RDLCK (encode_tx_id slot tx).
Definition gate_lock (g : File) (kind : LockKind) : Lock := mkLock g kind (mkLockRange GATE_OFFSET 1).

Inductive listed (R : Registrations) (G : Gates) : Lock → Prop :=
  | listed_token f slot o : R !! f = Some (slot, o) → listed R G (token_lock f slot)
  | listed_payload f slot tx : R !! f = Some (slot, Some tx) → listed R G (payload_lock f slot tx)
  | listed_gate g kind : G !! g = Some kind → listed R G (gate_lock g kind).

Record announces (R : Registrations) (G : Gates) (k : Kernel) : Prop := {
  an_locks : ∀ lk, lk ∈ k_locks k ↔ listed R G lk;
  an_open : ∀ f, is_Some (R !! f) ∨ is_Some (G !! f) → f ∈ k_open k;
  an_slot : ∀ f slot o, R !! f = Some (slot, o) → 0 <= slot < MAX_READER_SLOTS;
  an_tx : ∀ f slot tx, R !! f = Some (slot, Some tx) → in_u64 tx;
  an_slots : ∀ f f' slot o o', R !! f = Some (slot, o) → R !! f' = Some (slot, o') → f = f';
  an_apart : ∀ f, is_Some (R !! f) → G !! f = None;
  an_kind : ∀ g kind, G !! g = Some kind → kind ≠ F_UNLCK;
  an_gates : ∀ g g' kind kind', G !! g = Some kind → G !! g' = Some kind' → g ≠ g' → kind = F_RDLCK ∧ kind' = F_RDLCK
}.

Definition unused (R : Registrations) (G : Gates) (f : File) : Prop := R !! f = None ∧ G !! f = None.

(** Where the locks are. *)
Lemma token_below_payload slot slot' : 0 <= slot < MAX_READER_SLOTS → 0 <= slot' → token_offset slot + 1 < payload_block slot'.
Proof. unfold token_offset, payload_block, TOKEN_BASE, PAYLOAD_BASE, PAYLOAD_STRIDE, MAX_READER_SLOTS. lia. Qed.

Lemma gate_below_token slot : 0 <= slot → GATE_OFFSET + 1 < token_offset slot.
Proof. unfold token_offset, TOKEN_BASE, GATE_OFFSET. lia. Qed.

Lemma payload_valid slot tx : 0 <= slot < MAX_READER_SLOTS → in_u64 tx → valid_range (lock_start (encode_tx_id slot tx)) (lock_length (encode_tx_id slot tx)).
Proof.
  intros Hs Htx. destruct (encode_bounds slot tx Htx) as (B1 & B2 & B3).
  unfold valid_range, payload_block, PAYLOAD_BASE, PAYLOAD_STRIDE, LOCK_BASE, MAX_READER_SLOTS in *. lia.
Qed.

Lemma token_valid slot : 0 <= slot < MAX_READER_SLOTS → valid_range (token_offset slot) 1.
Proof. unfold valid_range, token_offset, TOKEN_BASE, LOCK_BASE, MAX_READER_SLOTS. lia. Qed.

Lemma gate_valid : valid_range GATE_OFFSET 1.
Proof. unfold valid_range, GATE_OFFSET, LOCK_BASE. lia. Qed.

Section announce.
Context (R : Registrations) (G : Gates) (k : Kernel).
Hypothesis (HA : announces R G k).

Lemma listed_owner lk : listed R G lk → is_Some (R !! lk_owner lk) ∨ is_Some (G !! lk_owner lk).
Proof. intros [f slot o H|f slot tx H|g kind H]; cbn; rewrite H; eauto. Qed.

Lemma unused_owner f lk : unused R G f → lk ∈ k_locks k → lk_owner lk ≠ f.
Proof. intros [H1 H2] Hin%(an_locks _ _ _ HA)%listed_owner <-. rewrite H1, H2 in Hin. by destruct Hin as [[]|[]]. Qed.

Lemma announced_positive : ranges_positive k.
Proof.
  intros lk Hin. apply (an_locks _ _ _ HA) in Hin as [f slot o H|f slot tx H|g kind H]; cbn [lk_range token_lock payload_lock gate_lock].
  - pose proof (token_valid slot (an_slot _ _ _ HA _ _ _ H)) as (? & ? & _). cbn. lia.
  - pose proof (payload_valid slot tx (an_slot _ _ _ HA _ _ _ H) (an_tx _ _ _ HA _ _ _ H)) as (? & ? & _). lia.
  - pose proof gate_valid as (? & ? & _). cbn. lia.
Qed.

(** A new description is unused. *)
Lemma fresh_unused f : f ∉ k_open k → unused R G f.
Proof. intros Hf. split; apply eq_None_not_Some; intros Hs; apply Hf, (an_open _ _ _ HA); auto. Qed.

(** The kernel changes nothing of the locks. *)
Lemma announces_open f k' : k_open k' = {[f]} ∪ k_open k → k_locks k' = k_locks k → announces R G k'.
Proof. intros Ho Hl. destruct HA as [H1 H2 H3 H4 H5 H6 H7 H8]. split; try done; [by rewrite Hl|]. intros f' Hs. rewrite Ho. apply elem_of_union_r. by apply H2. Qed.

(** A description is closed. *)
Lemma announces_close f k' :
  k_open k' = k_open k ∖ {[f]} → (∀ lk, lk ∈ k_locks k' ↔ lk ∈ k_locks k ∧ lk_owner lk ≠ f) → announces (delete f R) (delete f G) k'.
Proof.
  intros Ho Hl. destruct HA as [H1 H2 H3 H4 H5 H6 H7 H8]. split.
  - intros lk. rewrite Hl, H1. split.
    + intros [[f' slot o H|f' slot tx H|g kind H] Hne]; cbn in Hne; econstructor; by rewrite lookup_delete_ne.
    + intros [f' slot o [Hne H]%lookup_delete_Some|f' slot tx [Hne H]%lookup_delete_Some|g kind [Hne H]%lookup_delete_Some]; (split; [by econstructor|done]).
  - intros f'. rewrite !lookup_delete. case_decide; [by intros [[]|[]]|]. intros Hs. rewrite Ho. set_solver.
  - intros f' slot o [_ H]%lookup_delete_Some. by eapply H3.
  - intros f' slot tx [_ H]%lookup_delete_Some. by eapply H4.
  - intros f1 f2 slot o1 o2 [_ E1]%lookup_delete_Some [_ E2]%lookup_delete_Some. by eapply H5.
  - intros f' [x [Hne H]%lookup_delete_Some]. rewrite lookup_delete_ne by done. apply H6. by eexists.
  - intros g kd [_ E]%lookup_delete_Some. by eapply H7.
  - intros g g' kd kd' [_ E1]%lookup_delete_Some [_ E2]%lookup_delete_Some. by eapply H8.
Qed.

(** A token is taken: no other registration has the slot. *)
Lemma announces_token f slot k' :
  unused R G f → f ∈ k_open k → 0 <= slot < MAX_READER_SLOTS → (∀ lk, lk ∈ k_locks k → ¬ conflicts f F_WRLCK (mkLockRange (token_offset slot) 1) lk) →
  k_open k' = k_open k → (∀ lk, lk ∈ k_locks k' ↔ lk = token_lock f slot ∨ lk ∈ k_locks k) →
  (∀ f' o, R !! f' ≠ Some (slot, o)) ∧ announces (<[f := (slot, None)]> R) G k'.
Proof.
  intros Hun Hf Hs Hno Ho Hl. pose proof Hun as [U1 U2]. destruct HA as [H1 H2 H3 H4 H5 H6 H7 H8].
  assert (∀ f' o, R !! f' ≠ Some (slot, o)) as Hfree.
  { intros f' o E. apply (Hno (token_lock f' slot)); [apply H1; by econstructor|]. split_and!; [cbn; congruence| |by left]. unfold overlaps. cbn. lia. }
  split; [done|]. split.
  - intros lk. rewrite Hl, H1. split.
    + intros [->|[f' s o H|f' s tx H|g kind H]]; [apply (listed_token _ _ _ _ None), lookup_insert_eq|..]; econstructor; (try rewrite lookup_insert_ne by congruence); done.
    + intros [f' s o [[<- [= <- <-]]|[_ H]]%lookup_insert_Some|f' s tx [[<- [=]]|[_ H]]%lookup_insert_Some|g kind H]; [by left|right; by econstructor..].
  - intros f'. rewrite lookup_insert, Ho. case_decide; [by subst|apply H2].
  - intros f' s o [[<- [= <- <-]]|[_ H]]%lookup_insert_Some; [done|by eapply H3].
  - intros f' s tx [[<- [=]]|[_ H]]%lookup_insert_Some. by eapply H4.
  - intros f1 f2 s o1 o2 [[<- [= <- <-]]|[_ E1]]%lookup_insert_Some [[<- [= E]]|[_ E2]]%lookup_insert_Some; subst; [done|by destruct (Hfree _ _ E2)|by destruct (Hfree _ _ E1)|by eapply H5].
  - intros f' [x [[<- _]|[_ H]]%lookup_insert_Some]; [done|apply H6; by eexists].
  - done.
  - done.
Qed.

(** The snapshot is announced. *)
Lemma announces_payload f slot tx k' :
  R !! f = Some (slot, None) → in_u64 tx → k_open k' = k_open k → (∀ lk, lk ∈ k_locks k' ↔ lk = payload_lock f slot tx ∨ lk ∈ k_locks k) →
  announces (<[f := (slot, Some tx)]> R) G k'.
Proof.
  intros Hf Htx Ho Hl. destruct HA as [H1 H2 H3 H4 H5 H6 H7 H8]. split.
  - intros lk. rewrite Hl, H1. split.
    + intros [->|[f' s o H|f' s tx' H|g kind H]]; [apply listed_payload, lookup_insert_eq| |apply listed_payload; rewrite lookup_insert_ne; [done|congruence]|by constructor].
      destruct (decide (f = f')) as [<-|Hne]; [|eapply listed_token; by rewrite lookup_insert_ne].
      rewrite Hf in H. injection H as <- <-. eapply listed_token, lookup_insert_eq.
    + intros [f' s o [[<- [= <- <-]]|[_ H]]%lookup_insert_Some|f' s t [[<- [= <- <-]]|[_ H]]%lookup_insert_Some|g kind H]; try (right; by econstructor). by left.
  - intros f'. rewrite lookup_insert, Ho. case_decide; [subst; intros _; apply H2; left; by eexists|apply H2].
  - intros f' s o [[<- [= <- <-]]|[_ H]]%lookup_insert_Some; by eapply H3.
  - intros f' s t [[<- [= <- <-]]|[_ H]]%lookup_insert_Some; [done|by eapply H4].
  - intros f1 f2 s o1 o2 [[<- [= <- <-]]|[_ E1]]%lookup_insert_Some [[<- [= E]]|[_ E2]]%lookup_insert_Some; subst; [done|by eapply H5..].
  - intros f' [x [[<- _]|[_ H]]%lookup_insert_Some]; apply H6; by eexists.
  - done.
  - done.
Qed.

(** A gate is taken. *)
Lemma announces_gate g kind k' :
  unused R G g → g ∈ k_open k → (∀ lk, lk ∈ k_locks k → ¬ conflicts g kind (mkLockRange GATE_OFFSET 1) lk) → kind ≠ F_UNLCK →
  k_open k' = k_open k → (∀ lk, lk ∈ k_locks k' ↔ lk = gate_lock g kind ∨ lk ∈ k_locks k) → announces R (<[g := kind]> G) k'.
Proof.
  intros [U1 U2] Hg Hno Hk Ho Hl. destruct HA as [H1 H2 H3 H4 H5 H6 H7 H8].
  assert (∀ g' kd, G !! g' = Some kd → kind = F_RDLCK ∧ kd = F_RDLCK) as Hshared.
  { intros g' kd E. destruct (decide (kind = F_WRLCK ∨ kd = F_WRLCK)) as [Hw|Hw]; [|pose proof (H7 _ _ E); destruct kind, kd; naive_solver].
    destruct (Hno (gate_lock g' kd)); [apply H1; by constructor|]. split_and!; [cbn; congruence| |done]. unfold overlaps. cbn. lia. }
  split; try done.
  - intros lk. rewrite Hl, H1. split.
    + intros [->|[f s o H|f s tx H|g' kd H]]; [apply listed_gate, lookup_insert_eq|by econstructor..|]. apply listed_gate. rewrite lookup_insert_ne; [done|congruence].
    + intros [f s o H|f s tx H|g' kd [[<- <-]|[_ H]]%lookup_insert_Some]; [right; by econstructor..|by left|right; by econstructor].
  - intros f. rewrite lookup_insert, Ho. case_decide; [by subst|apply H2].
  - intros f Hs. rewrite lookup_insert_ne; [by apply H6|]. intros <-. by rewrite U1 in Hs; destruct Hs.
  - intros g' kd [[<- <-]|[_ E]]%lookup_insert_Some; [done|by eapply H7].
  - intros g1 g2 k1 k2 [[<- <-]|[_ E1]]%lookup_insert_Some [[<- <-]|[_ E2]]%lookup_insert_Some Hne; [done|by eapply Hshared|by destruct (Hshared _ _ E1)|by eapply H8].
Qed.

(** A gate is released. *)
Lemma announces_ungate g kind k' :
  G !! g = Some kind → k_open k' = k_open k → (∀ lk, lk ∈ k_locks k' ↔ lk ∈ k_locks k ∧ ¬ (lk_owner lk = g ∧ lk_range lk = mkLockRange GATE_OFFSET 1)) →
  announces R (delete g G) k'.
Proof.
  intros Hg Ho Hl. destruct HA as [H1 H2 H3 H4 H5 H6 H7 H8].
  assert (R !! g = None) as Hr by (apply eq_None_not_Some; intros Hs; rewrite H6 in Hg; done).
  split; try done.
  - intros lk. rewrite Hl, H1. split.
    + intros [[f s o H|f s tx H|g' kd H] Hne]; [by econstructor..|]. apply listed_gate. rewrite lookup_delete_ne; [done|]. intros <-. by apply Hne.
    + intros [f s o H|f s tx H|g' kd [Hne H]%lookup_delete_Some]; (split; [by econstructor|]); cbn; [intros [-> _]; congruence..|intros [<- _]; done].
  - intros f Hs. rewrite Ho. apply H2. destruct Hs as [|[x [_ E]%lookup_delete_Some]]; [by left|right; by eexists].
  - intros f Hs. rewrite lookup_delete_None. right. by apply H6.
  - intros g' kd [_ E]%lookup_delete_Some. by eapply H7.
  - intros g1 g2 k1 k2 [_ E1]%lookup_delete_Some [_ E2]%lookup_delete_Some. by eapply H8.
Qed.

End announce.

(** ** The calls *)

Section calls.
Context {F : Fcntl} {HF : FcntlLaws F}.

Lemma set_lock_ok f start length kind wait k :
  f ∈ k_open k → valid_range start length → kind ≠ F_UNLCK →
  match set_lock f start length kind wait k with
  | (Ok _, k') => (∀ lk, lk ∈ k_locks k → ¬ conflicts f kind (mkLockRange start length) lk) ∧ k_open k' = k_open k ∧
      ((∀ lk, lk ∈ k_locks k → ¬ touches f (mkLockRange start length) lk) → ∀ lk, lk ∈ k_locks k' ↔ lk = mkLock f kind (mkLockRange start length) ∨ lk ∈ k_locks k)
  | (Err e, k') => k' = k ∧ ∃ code, e = last_os_error code ∧ errno (fcntl (if wait then F_OFD_SETLKW else F_OFD_SETLK) f (mkFlock kind SEEK_SET start length 0) k) = Some code
  | (Panic _, _) => False
  end.
Proof.
  intros Hf Hv Hk. unfold set_lock. rewrite raw_lock_valid by done. unfold lift, call_fcntl, mbind, os_bind, mret, os_ret. set (l := mkFlock kind SEEK_SET start length 0).
  set (cmd := if wait then F_OFD_SETLKW else F_OFD_SETLK). assert (cmd ≠ F_OFD_GETLK) as Hcmd by (subst cmd; by destruct wait).
  destruct (errno (fcntl cmd f l k)) as [code|] eqn:E.
  - split; [apply fcntl_failed; congruence|by exists code].
  - exact (fcntl_locked cmd f l k Hcmd (conj Hf (conj eq_refl (conj eq_refl Hv))) Hk E).
Qed.

(** A lock that clashes is refused. *)
Lemma try_set_lock_busy f start length kind k lk :
  f ∈ k_open k → valid_range start length → kind ≠ F_UNLCK → lk ∈ k_locks k → conflicts f kind (mkLockRange start length) lk →
  try_set_lock f start length kind k = (Ok false, k).
Proof.
  intros Hf Hv Hk Hin Hc. pose proof (set_lock_ok f start length kind false k Hf Hv Hk) as Hs. unfold try_set_lock.
  destruct (set_lock f start length kind false k) as [[u|e|w] k'].
  - by destruct Hs as (Hno & _); destruct (Hno lk Hin).
  - destruct Hs as (-> & code & -> & E). destruct (fcntl_busy f (mkFlock kind SEEK_SET start length 0) k lk) as [E'|E']; try done; rewrite E' in E; by injection E as <-.
  - done.
Qed.

Section announced.
Context (R : Registrations) (G : Gates) (k : Kernel).
Hypothesis (HA : announces R G k).

Lemma unused_untouched f r : unused R G f → ∀ lk, lk ∈ k_locks k → ¬ touches f r lk.
Proof. intros Hun lk Hin [Ho _]. by apply (unused_owner R G k HA f lk). Qed.

Lemma token_call f slot :
  unused R G f → f ∈ k_open k → 0 <= slot < MAX_READER_SLOTS →
  match try_set_lock f (token_offset slot) 1 F_WRLCK k with
  | (Ok true, k') => (∀ f' o, R !! f' ≠ Some (slot, o)) ∧ announces (<[f := (slot, None)]> R) G k'
  | (Ok false, k') => k' = k ∧ errno (fcntl F_OFD_SETLK f (mkFlock F_WRLCK SEEK_SET (token_offset slot) 1 0) k) ≠ None
  | (Err e, k') => k' = k ∧ ∃ code, e = last_os_error code ∧ errno (fcntl F_OFD_SETLK f (mkFlock F_WRLCK SEEK_SET (token_offset slot) 1 0) k) = Some code ∧ code ≠ EAGAIN ∧ code ≠ EACCES
  | (Panic _, _) => False
  end.
Proof.
  intros Hun Hf Hs. pose proof (set_lock_ok f (token_offset slot) 1 F_WRLCK false k Hf (token_valid slot Hs) ltac:(done)) as Hset. unfold try_set_lock.
  destruct (set_lock f (token_offset slot) 1 F_WRLCK false k) as [[u|e|w] k']; [| |done].
  - destruct Hset as (Hno & Ho & Hadd). eapply announces_token; try done. by apply Hadd, unused_untouched.
  - destruct Hset as (-> & code & -> & E). cbn [is_busy last_os_error]. destruct (Z.eqb_spec code EACCES), (Z.eqb_spec code EAGAIN); cbn [orb]; try (split; [done|congruence]). eauto 10.
Qed.

Lemma payload_call f slot tx :
  R !! f = Some (slot, None) → in_u64 tx → let r := encode_tx_id slot tx in
  match set_lock f (lock_start r) (lock_length r) F_RDLCK false k with
  | (Ok _, k') => announces (<[f := (slot, Some tx)]> R) G k'
  | (Err e, k') => k' = k ∧ ∃ code, errno (fcntl F_OFD_SETLK f (mkFlock F_RDLCK SEEK_SET (lock_start r) (lock_length r) 0) k) = Some code
  | (Panic _, _) => False
  end.
Proof.
  intros Hf Htx r. pose proof (an_slot _ _ _ HA _ _ _ Hf) as Hs. assert (f ∈ k_open k) as Ho by (apply (an_open _ _ _ HA); left; by eexists).
  pose proof (set_lock_ok f (lock_start r) (lock_length r) F_RDLCK false k Ho (payload_valid slot tx Hs Htx) ltac:(done)) as Hset.
  destruct (set_lock f (lock_start r) (lock_length r) F_RDLCK false k) as [[u|e|w] k']; [|naive_solver|done].
  destruct Hset as (_ & Hop & Hadd). eapply announces_payload; try done. intros lk. rewrite Hadd; [reflexivity|].
  intros lk' Hin (Hown & _ & Hend). apply (an_locks _ _ _ HA) in Hin. destruct Hin as [f' s o H|f' s t H|g kind H]; cbn in Hown; subst; [|congruence|].
  - rewrite Hf in H. injection H as <- <-. destruct (encode_bounds slot tx Htx) as (B1 & _). pose proof (token_below_payload slot slot Hs ltac:(lia)).
    fold r in B1. change (lock_start r <= token_offset slot + 1) in Hend. lia.
  - pose proof (an_apart _ _ _ HA f ltac:(by eexists)). congruence.
Qed.

Lemma gate_call g kind wait :
  unused R G g → g ∈ k_open k → kind ≠ F_UNLCK →
  match set_lock g GATE_OFFSET 1 kind wait k with
  | (Ok _, k') => announces R (<[g := kind]> G) k' ∧ ∀ g' kd, G !! g' = Some kd → kind = F_RDLCK ∧ kd = F_RDLCK
  | (Err e, k') => k' = k
  | (Panic _, _) => False
  end.
Proof.
  intros Hun Hg Hk. pose proof (set_lock_ok g GATE_OFFSET 1 kind wait k Hg gate_valid Hk) as Hset.
  destruct (set_lock g GATE_OFFSET 1 kind wait k) as [[u|e|w] k']; [|naive_solver|done]. destruct Hset as (Hno & Ho & Hadd).
  assert (announces R (<[g := kind]> G) k') as HA' by (eapply announces_gate; try done; by apply Hadd, unused_untouched).
  split; [done|]. intros g' kd Hg'. apply (an_gates _ _ _ HA' g g'); [apply lookup_insert_eq| |].
  - rewrite lookup_insert_ne; [done|]. destruct Hun. congruence.
  - destruct Hun. congruence.
Qed.

Lemma ungate_call g kind :
  G !! g = Some kind →
  match set_lock g GATE_OFFSET 1 F_UNLCK false k with
  | (Ok _, k') => announces R (delete g G) k'
  | (Err e, k') => k' = k
  | (Panic _, _) => False
  end.
Proof.
  intros Hg. assert (g ∈ k_open k) as Ho by (apply (an_open _ _ _ HA); right; by eexists).
  unfold set_lock. rewrite raw_lock_valid by apply gate_valid. unfold lift, call_fcntl, mbind, os_bind, mret, os_ret. set (l := mkFlock F_UNLCK SEEK_SET GATE_OFFSET 1 0).
  destruct (errno (fcntl F_OFD_SETLK g l k)) as [code|] eqn:E; [apply fcntl_failed; congruence|].
  destruct (fcntl_unlocked F_OFD_SETLK g l k) as [Hop Hdel]; [done|exact (conj Ho (conj eq_refl (conj eq_refl gate_valid)))|done|done|].
  eapply announces_ungate; try done. apply Hdel. intros lk Hin [Hown _].
  apply (an_locks _ _ _ HA) in Hin. destruct Hin as [f s o H|f s t H|g' kd H]; cbn in Hown; subst; [| |done]; rewrite (an_apart _ _ _ HA) in Hg by (by eexists); done.
Qed.

End announced.

(** The operations of the processes that share the database, one call at a time. *)
Record Sys := mkSys { sy_kernel : Kernel; sy_regs : Registrations; sy_gates : Gates }.

Inductive os_step : Sys → Sys → Prop :=
  | step_open k R G path f k' : open_file path k = (Ok f, k') → os_step (mkSys k R G) (mkSys k' R G)
  | step_token k R G f slot r k' :
      unused R G f → f ∈ k_open k → 0 <= slot < MAX_READER_SLOTS → try_set_lock f (token_offset slot) 1 F_WRLCK k = (r, k') →
      os_step (mkSys k R G) (mkSys k' (match r with Ok true => <[f := (slot, None)]> R | _ => R end) G)
  | step_payload k R G f slot tx r k' :
      R !! f = Some (slot, None) → in_u64 tx → set_lock f (lock_start (encode_tx_id slot tx)) (lock_length (encode_tx_id slot tx)) F_RDLCK false k = (r, k') →
      os_step (mkSys k R G) (mkSys k' (match r with Ok _ => <[f := (slot, Some tx)]> R | _ => R end) G)
  | step_close k R G f : os_step (mkSys k R G) (mkSys (close f k) (delete f R) (delete f G))
  | step_gate k R G g kind wait r k' :
      unused R G g → g ∈ k_open k → kind ≠ F_UNLCK → set_lock g GATE_OFFSET 1 kind wait k = (r, k') →
      os_step (mkSys k R G) (mkSys k' R (match r with Ok _ => <[g := kind]> G | _ => G end))
  | step_ungate k R G g kind r k' :
      G !! g = Some kind → set_lock g GATE_OFFSET 1 F_UNLCK false k = (r, k') →
      os_step (mkSys k R G) (mkSys k' R (match r with Ok _ => delete g G | _ => G end)).

Definition sys_ok (s : Sys) : Prop := announces (sy_regs s) (sy_gates s) (sy_kernel s).

Lemma open_call R G k path : announces R G k →
  match open_file path k with
  | (Ok f, k') => unused R G f ∧ f ∈ k_open k' ∧ announces R G k'
  | (Err e, k') => k' = k
  | (Panic _, _) => False
  end.
Proof.
  intros HA. unfold open_file. destruct (open_path path k) as [code|[f k']] eqn:E; [done|]. destruct (opened_fresh path k f k' E) as (Hf & Ho & Hl).
  split; [by eapply fresh_unused|]. split; [rewrite Ho; set_solver|by eapply announces_open].
Qed.

Lemma os_step_ok s s' : os_step s s' → sys_ok s → sys_ok s'.
Proof.
  unfold sys_ok. intros [k R G path f k' E|k R G f slot r k' Hun Hf Hs E|k R G f slot tx r k' Hf Htx E|k R G f|k R G g kind wait r k' Hun Hg Hk E|k R G g kind r k' Hg E] HA; cbn [sy_regs sy_gates sy_kernel] in *.
  - pose proof (open_call R G k path HA) as H. rewrite E in H. apply H.
  - pose proof (token_call R G k HA f slot Hun Hf Hs) as H. rewrite E in H. destruct r as [[]|e|w]; [by apply H|by destruct H as [-> _]|by destruct H as [-> _]|done].
  - pose proof (payload_call R G k HA f slot tx Hf Htx) as H. cbv zeta in H. rewrite E in H. destruct r as [u|e|w]; [done|by destruct H as [-> _]|done].
  - destruct (closed_locks f k) as [Ho Hl]. by apply announces_close with k.
  - pose proof (gate_call R G k HA g kind wait Hun Hg Hk) as H. rewrite E in H. destruct r as [u|e|w]; [apply H|by subst|done].
  - pose proof (ungate_call R G k HA g kind Hg) as H. rewrite E in H. destruct r as [u|e|w]; [done|by subst|done].
Qed.

End calls.

(** ** Finding the readers *)

(** The slots that are taken, with the snapshots announced. *)
Definition slots_of (R : Registrations) : gmap Z (option Z) := list_to_map (snd <$> map_to_list R).

Lemma size_filter_list {K A} `{Countable K} (P : K * A → Prop) `{∀ x, Decision (P x)} (m : gmap K A) : size (filter P m) = length (filter P (map_to_list m)).
Proof.
  rewrite map_filter_alt, <-length_map_to_list. apply Permutation_length, map_to_list_to_map.
  apply (sublist_NoDup _ (map_to_list m).*1); [apply NoDup_fst_map_to_list|apply fmap_sublist, sublist_filter].
Qed.

Section find.
Context {F : Fcntl} {HF : FcntlLaws F} (R : Registrations) (G : Gates) (k : Kernel).
Hypothesis (HA : announces R G k).

Lemma slots_NoDup : NoDup (snd <$> map_to_list R).*1.
Proof.
  rewrite <-list_fmap_compose. apply NoDup_fmap_2_strong; [|apply NoDup_map_to_list].
  intros [f [slot o]] [f' [slot' o']] H1%elem_of_map_to_list H2%elem_of_map_to_list E. cbn in E. subst slot'.
  pose proof (an_slots _ _ _ HA _ _ _ _ _ H1 H2) as ->. congruence.
Qed.

Lemma slots_lookup slot o : slots_of R !! slot = Some o ↔ ∃ f, R !! f = Some (slot, o).
Proof.
  unfold slots_of. rewrite <-elem_of_list_to_map by apply slots_NoDup. rewrite list_elem_of_fmap. split.
  - intros ([f p] & -> & H%elem_of_map_to_list). by exists f.
  - intros [f H%elem_of_map_to_list]. by exists (f, (slot, o)).
Qed.

Lemma slots_size : size (filter (λ kv : Z * option Z, is_Some kv.2) (slots_of R)) = size (filter (λ kv : File * (Z * option Z), is_Some kv.2.2) R).
Proof.
  rewrite !size_filter_list. transitivity (length (filter (λ kv : Z * option Z, is_Some kv.2) (snd <$> map_to_list R))).
  - apply Permutation_length. f_equiv. by apply map_to_list_to_map, slots_NoDup.
  - generalize (map_to_list R). intros l. induction l as [|[f p] l IH]; [done|]. cbn [fmap list_fmap]. rewrite !filter_cons. cbn [snd].
    case_decide; cbn [length]; by rewrite IH.
Qed.

Lemma announced_registered file (Hopen : file ∈ k_open k) (Hpos : ranges_positive k) : unused R G file → @registered (os_table file k Hopen Hpos) (slots_of R).
Proof.
  intros Hun. assert (∀ lk, listed R G lk → lk_range lk ∈ @held (os_table file k Hopen Hpos)) as Hheld.
  { intros lk Hl. cbn. apply list_elem_of_fmap. exists lk. split; [done|]. apply (an_locks _ _ _ HA) in Hl. apply list_elem_of_filter. split; [|done].
    by apply (unused_owner R G k HA). }
  split.
  - intros slot o [f H]%slots_lookup. by eapply an_slot.
  - intros slot tx [f H]%slots_lookup. by eapply an_tx.
  - intros r Hr. cbn in Hr. apply list_elem_of_fmap in Hr as (lk & -> & [_ Hin]%list_elem_of_filter). apply (an_locks _ _ _ HA) in Hin. unfold lock_of.
    destruct Hin as [f slot o H|f slot tx H|g kind H]; [right|right|by left].
    + exists slot, o. split; [apply slots_lookup; by exists f|by left].
    + exists slot, (Some tx). split; [apply slots_lookup; by exists f|right; by exists tx].
  - intros slot o [f H]%slots_lookup. split.
    + apply (Hheld (token_lock f slot)). by econstructor.
    + intros tx ->. apply (Hheld (payload_lock f slot tx)). by constructor.
  - apply os_table_probing.
Qed.

Lemma find_readers_ok c :
  probe c ∈ k_open k → unused R G (probe c) →
  ∃ n oldest, find_readers c false k = (Ok (n, oldest), k) ∧ n = Z.of_nat (size (filter (λ kv : File * (Z * option Z), is_Some kv.2.2) R)) ∧
    match oldest with
    | Some t => (∃ f slot, R !! f = Some (slot, Some t)) ∧ ∀ f slot tx, R !! f = Some (slot, Some tx) → t <= tx
    | None => ∀ f slot tx, R !! f ≠ Some (slot, Some tx)
    end.
Proof.
  intros Hopen Hun. pose proof (announced_positive R G k HA) as Hpos.
  destruct (@readers_found (os_table (probe c) k Hopen Hpos) _ (announced_registered (probe c) Hopen Hpos Hun)) as (n & oldest & E & -> & Ho).
  exists (Z.of_nat (size (filter (λ kv : Z * option Z, is_Some kv.2) (slots_of R)))), oldest. unfold find_readers. cbn [mutex_lock fail_if mbind res_bind].
  split; [by f_equal|]. split; [by rewrite slots_size|]. destruct oldest as [t|].
  - destruct Ho as [(slot & [f Hf]%slots_lookup) Hle]. split; [eauto|]. intros f' slot' tx H. apply (Hle slot'), slots_lookup. by exists f'.
  - intros f slot tx H. apply (Ho slot tx), slots_lookup. by exists f.
Qed.

(** A gate that clashes with one that is held is refused. *)
Lemma gate_refused c g kind kind' poisoned :
  G !! g = Some kind → gate c ≠ g → gate c ∈ k_open k → kind' ≠ F_UNLCK → kind = F_WRLCK ∨ kind' = F_WRLCK →
  lock_gate c Locked poisoned kind' false k = (Ok None, k).
Proof.
  intros Hg Hne Hopen Hk Hw. unfold lock_gate, gate_mutex, lift, mbind, os_bind, mret, os_ret. cbn [negb].
  rewrite (try_set_lock_busy (gate c) GATE_OFFSET 1 kind' k (gate_lock g kind)); try done; [apply (an_locks _ _ _ HA); by constructor|].
  split; [cbn; congruence|]. split; [unfold overlaps; cbn; lia|]. destruct Hw; [by right|by left].
Qed.

End find.

(** ** Registering *)

(** Files can be opened, and a lock is only refused for a lock that is in its way. *)
Definition reliable (F : Fcntl) : Prop :=
  (∀ path k, ∃ x, open_path path k = inr x) ∧
  ∀ f l k, valid_lock f l k → l_type l ≠ F_UNLCK → errno (fcntl F_OFD_SETLK f l k) ≠ None → ∃ lk, lk ∈ k_locks k ∧ conflicts f (l_type l) (flock_range l) lk.

Section register.
Context {F : Fcntl} {HF : FcntlLaws F} (R : Registrations) (G : Gates).

(** What stands in the way of a token is the token of the slot. *)
Lemma token_taken k f slot lk :
  announces R G k → 0 <= slot < MAX_READER_SLOTS → lk ∈ k_locks k → conflicts f F_WRLCK (mkLockRange (token_offset slot) 1) lk → ∃ f' o, R !! f' = Some (slot, o).
Proof.
  intros HA Hs Hin (_ & [Ho1 Ho2] & _). apply (an_locks _ _ _ HA) in Hin. destruct Hin as [f' s o H|f' s t H|g kd H]; cbn [lk_range token_lock payload_lock gate_lock lock_start lock_length] in Ho1, Ho2.
  - exists f', o. unfold token_offset in *. by assert (s = slot) as <- by lia.
  - pose proof (an_slot _ _ _ HA _ _ _ H). destruct (encode_bounds s t (an_tx _ _ _ HA _ _ _ H)) as (B1 & _). pose proof (token_below_payload slot s Hs ltac:(lia)). lia.
  - pose proof (gate_below_token slot ltac:(lia)). lia.
Qed.

(** Nothing stands in the way of a payload. *)
Lemma payload_free k f slot tx lk :
  announces R G k → R !! f = Some (slot, None) → in_u64 tx → lk ∈ k_locks k → ¬ conflicts f F_RDLCK (encode_tx_id slot tx) lk.
Proof.
  intros HA Hf Htx Hin (_ & [Ho1 Ho2] & [?|Hw]); [done|]. pose proof (an_slot _ _ _ HA _ _ _ Hf) as Hs. destruct (encode_bounds slot tx Htx) as (B1 & _).
  pose proof (token_below_payload slot slot Hs ltac:(lia)). apply (an_locks _ _ _ HA) in Hin.
  destruct Hin as [f' s o H'|f' s t H'|g kd H']; [|done|]; cbn [lk_range token_lock gate_lock lock_start lock_length] in Ho1, Ho2.
  - pose proof (token_below_payload s slot (an_slot _ _ _ HA _ _ _ H') ltac:(lia)). lia.
  - pose proof (gate_below_token slot ltac:(lia)). lia.
Qed.

Definition FULL : Error := Sync "reader registration table is full".
Definition taken (slot : Z) : Prop := ∃ f o, R !! f = Some (slot, o).

End register.

Section loop.
Context {F : Fcntl} {HF : FcntlLaws F} (R : Registrations) (G : Gates).

Lemma registration_loop_ok f first tx remaining attempt k :
  announces R G k → unused R G f → f ∈ k_open k → in_u64 tx →
  match registration_loop f first tx remaining attempt k with
  | (Ok f', k') => f' = f ∧ ∃ slot, ¬ taken R slot ∧ announces (<[f := (slot, Some tx)]> R) G k'
  | (Err e, k') => (announces R G k' ∨ ∃ slot, announces (<[f := (slot, None)]> R) G k') ∧
      (reliable F → e = FULL ∧ ∀ i, attempt <= i < attempt + Z.of_nat remaining → taken R ((first + i) mod MAX_READER_SLOTS))
  | (Panic _, _) => False
  end.
Proof.
  intros HA Hun Hf Htx. revert attempt. induction remaining as [|remaining IH]; intros attempt; cbn [registration_loop].
  { split; [by left|]. intros _. split; [done|lia]. }
  set (slot := (first + attempt) mod MAX_READER_SLOTS). assert (0 <= slot < MAX_READER_SLOTS) as Hs by (by apply Z.mod_pos_bound).
  pose proof (token_call R G k HA f slot Hun Hf Hs) as Ht. unfold mbind, os_bind at 1.
  assert (valid_lock f (mkFlock F_WRLCK SEEK_SET (token_offset slot) 1 0) k) as Hv by exact (conj Hf (conj eq_refl (conj eq_refl (token_valid slot Hs)))).
  destruct (try_set_lock f (token_offset slot) 1 F_WRLCK k) as [[[]|e|w] k1]; cbn [negb]; [| | |done].
  - destruct Ht as [Hfree HA1]. pose proof (payload_call _ G k1 HA1 f slot tx (lookup_insert_eq _ _ _) Htx) as Hp. cbv zeta in Hp.
    cbv zeta. unfold mbind, os_bind. destruct (set_lock f _ _ F_RDLCK false k1) as [[u|e|w] k2]; [cbn [mret os_ret]| |done].
    + rewrite insert_insert_eq in Hp. split; [done|]. exists slot. split; [|done]. intros (f' & o & H). by apply (Hfree f' o).
    + destruct Hp as [-> (code & Hc)]. split; [right; by exists slot|]. intros [_ Hrel]. exfalso.
      destruct (Hrel f (mkFlock F_RDLCK SEEK_SET (lock_start (encode_tx_id slot tx)) (lock_length (encode_tx_id slot tx)) 0) k1) as (lk & Hin & Hcf); [|done|congruence|].
      * split_and!; [|done|done|by apply payload_valid]. apply (an_open _ _ _ HA1). left. by rewrite lookup_insert_eq.
      * by eapply (payload_free _ G k1 f slot tx lk HA1 (lookup_insert_eq _ _ _) Htx Hin).
  - destruct Ht as [-> He]. specialize (IH (attempt + 1)).
    destruct (registration_loop f first tx remaining (attempt + 1) k) as [[f'|e|w] k2]; [done| |done]. destruct IH as [Hann Hrel]. split; [done|].
    intros Hr. destruct (Hrel Hr) as [-> Hall]. split; [done|]. intros i Hi. destruct (decide (i = attempt)) as [->|Hne]; [|apply Hall; lia].
    destruct (proj2 Hr _ _ _ Hv ltac:(done) He) as (lk & Hin & Hcf). by eapply token_taken.
  - destruct Ht as [-> (code & -> & He & N1 & N2)]. split; [by left|]. intros Hr. exfalso.
    destruct (proj2 Hr _ _ _ Hv ltac:(done) ltac:(congruence)) as (lk & Hin & Hcf).
    destruct (fcntl_busy f _ k lk Hv ltac:(done) Hin Hcf); congruence.
Qed.

Lemma drop_registration_ok f p k : announces (<[f := p]> R) G k → unused R G f → announces R G (drop_registration f k).
Proof.
  intros HA [U1 U2]. destruct (closed_locks f k) as [Ho Hl]. pose proof (announces_close _ G k HA f _ Ho Hl) as H.
  rewrite delete_insert_id, (delete_id G) in H by done. done.
Qed.

Lemma drop_unused_ok f k : announces R G k → unused R G f → announces R G (close f k).
Proof. intros HA [U1 U2]. destruct (closed_locks f k) as [Ho Hl]. pose proof (announces_close R G k HA f _ Ho Hl) as H. by rewrite !delete_id in H. Qed.

End loop.

(** What a token call says when nothing has changed since. *)
Definition token_free {F : Fcntl} (file : File) (k : Kernel) (slot : Z) : res bool := fst (try_set_lock file (token_offset slot) 1 F_WRLCK k).

(** The loop chooses the slot that [Coordination.register_loop] chooses, then locks
    its payload. *)
Lemma registration_loop_register {F : Fcntl} file first tx remaining attempt k :
  (∀ slot k', try_set_lock file (token_offset slot) 1 F_WRLCK k = (Ok false, k') → k' = k) →
  match register_loop (token_free file k) first tx remaining attempt with
  | Ok (slot, r) =>
      registration_loop file first tx remaining attempt k =
        match set_lock file (lock_start r) (lock_length r) F_RDLCK false (snd (try_set_lock file (token_offset slot) 1 F_WRLCK k)) with
        | (Ok _, k) => (Ok file, k) | (Err e, k) => (Err e, k) | (Panic w, k) => (Panic w, k)
        end
  | Err e => fst (registration_loop file first tx remaining attempt k) = Err e
  | Panic w => fst (registration_loop file first tx remaining attempt k) = Panic w
  end.
Proof.
  intros Hk. revert attempt. induction remaining as [|remaining IH]; intros attempt; cbn [registration_loop register_loop]; [done|].
  set (slot := (first + attempt) mod MAX_READER_SLOTS). specialize (IH (attempt + 1)).
  change (token_free file k slot) with (fst (try_set_lock file (token_offset slot) 1 F_WRLCK k)). unfold mbind, os_bind, res_bind.
  destruct (try_set_lock file (token_offset slot) 1 F_WRLCK k) as [[[]|e|w] k1] eqn:E; cbn [fst negb]; [|rewrite (Hk _ _ E); exact IH|done|done].
  by rewrite E.
Qed.

(** ** Theorems *)

(** C19: The locks of the readers and of the writer say the truth, however the calls of
    any number of processes interleave: opening and closing descriptions, taking
    tokens, announcing snapshots, taking and releasing the gate, each call succeeding
    or failing.  At any moment a writer that looks for the readers counts exactly the
    registrations that have announced a snapshot and finds the oldest of the
    snapshots, and leaves the locks alone; an exclusive gate has no other gate beside
    it; a try for a gate that clashes with one that is held is refused. *)
Theorem locks_sound (F : Fcntl) (HF : FcntlLaws F) k0 k R G :
  k_locks k0 = [] → rtc os_step (mkSys k0 ∅ ∅) (mkSys k R G) →
  (∀ c, probe c ∈ k_open k → unused R G (probe c) →
    ∃ n oldest, find_readers c false k = (Ok (n, oldest), k) ∧ n = Z.of_nat (size (filter (λ kv : File * (Z * option Z), is_Some kv.2.2) R)) ∧
      match oldest with
      | Some t => (∃ f slot, R !! f = Some (slot, Some t)) ∧ ∀ f slot tx, R !! f = Some (slot, Some tx) → t <= tx
      | None => ∀ f slot tx, R !! f ≠ Some (slot, Some tx)
      end) ∧
  (∀ g g' kind kind', G !! g = Some kind → G !! g' = Some kind' → g ≠ g' → kind = F_RDLCK ∧ kind' = F_RDLCK) ∧
  (∀ c g kind kind' poisoned, G !! g = Some kind → gate c ≠ g → gate c ∈ k_open k → kind' ≠ F_UNLCK → kind = F_WRLCK ∨ kind' = F_WRLCK →
    lock_gate c Locked poisoned kind' false k = (Ok None, k)).
Proof.
  intros Hk0 Hrun. assert (announces ∅ ∅ k0) as H0.
  { split; try done; [|by intros f [[]|[]]].
    intros lk. rewrite Hk0. split; [by intros ?%elem_of_nil|]. by intros [f slot o H|f slot tx H|g kind H]. }
  assert (announces R G k) as HA.
  { change (sys_ok (mkSys k R G)). remember (mkSys k0 ∅ ∅) as s0 eqn:E0. remember (mkSys k R G) as s eqn:Es. assert (sys_ok s0) as Hs by (by subst). clear E0 Es H0.
    induction Hrun as [|s1 s2 s3 Hstep _ IH]; [done|]. apply IH. by eapply os_step_ok. }
  split; [|split].
  - intros c Hopen Hun. by apply find_readers_ok with G.
  - by apply (an_gates _ _ _ HA).
  - intros. by eapply gate_refused.
Qed.

(** C20: What a registration leaves behind on every outcome.  When it succeeds it holds
    a slot nobody had, its snapshot is announced beside those of the others, and
    dropping it withdraws exactly that.  When it fails, whatever the error and however
    far it had come, the locks are those of the others: nothing stays announced.  It
    never panics, and when descriptions can be opened and locks are only refused for
    locks in their way it fails only when every slot is taken. *)
Theorem register_outcomes (F : Fcntl) (HF : FcntlLaws F) R G k c poisoned counter tx :
  announces R G k → in_u64 tx →
  match register_reader c poisoned counter tx k with
  | (Ok f, k') => unused R G f ∧ ∃ slot, ¬ taken R slot ∧ announces (<[f := (slot, Some tx)]> R) G k' ∧ announces R G (drop_registration f k')
  | (Err e, k') => announces R G k' ∧ (reliable F → poisoned = false → e = FULL ∧ ∀ slot, 0 <= slot < MAX_READER_SLOTS → taken R slot)
  | (Panic _, _) => False
  end.
Proof.
  intros HA Htx. unfold register_reader, open_registration_file, open_independent, lift, mbind, os_bind. destruct poisoned; cbn [mutex_lock fail_if]; [done|].
  set (path := "/proc/self/fd/" +:+ dec (as_raw_fd (probe c))). pose proof (open_call R G k path HA) as Hopen.
  destruct (open_file path k) as [[f|e|w] k1] eqn:Eo; [| |done].
  - destruct Hopen as (Hun & Hf & HA1). unfold owning. set (first := counter mod MAX_READER_SLOTS).
    pose proof (registration_loop_ok R G f first tx (Z.to_nat MAX_READER_SLOTS) 0 k1 HA1 Hun Hf Htx) as H.
    destruct (registration_loop f first tx (Z.to_nat MAX_READER_SLOTS) 0 k1) as [[f'|e|w] k2]; [| |done].
    + destruct H as (-> & slot & Hs & HA2). split; [done|]. exists slot. split; [done|]. split; [done|]. by eapply drop_registration_ok.
    + destruct H as [Hann Hrel]. split; [destruct Hann as [?|[slot ?]]; [by apply drop_unused_ok|by eapply drop_registration_ok]|].
      intros Hr _. destruct (Hrel Hr) as [-> Hall]. split; [done|]. intros slot Hs. specialize (Hall ((slot - first) mod MAX_READER_SLOTS)).
      rewrite Zplus_mod_idemp_r in Hall. replace (first + (slot - first)) with slot in Hall by lia. rewrite (Z.mod_small slot) in Hall by done. apply Hall.
      pose proof (Z.mod_pos_bound (slot - first) MAX_READER_SLOTS ltac:(by unfold MAX_READER_SLOTS)). lia.
  - subst k1. split; [done|]. intros [Hr _] _. destruct (Hr path k) as [[f k'] E]. unfold open_file in Eo. rewrite E in Eo. done.
Qed.

(** ** A kernel *)

Module SimpleKernel.

Definition next_file (k : Kernel) : File := foldr Z.max 0 (elements (k_open k)) + 1.

Definition find_conflict (f : File) (kind : LockKind) (r : LockRange) (locks : list Lock) : option Lock := snd <$> list_find (conflicts f kind r) locks.

Definition set (f : File) (l : Flock) (k : Kernel) : FcntlOut :=
  match l_type l with
  | F_UNLCK => mkFcntlOut None l (mkKernel (k_open k) (filter (λ lk, ¬ (lk_owner lk = f ∧ lk_range lk = flock_range l)) (k_locks k)))
  | kind =>
      match find_conflict f kind (flock_range l) (k_locks k) with
      | Some _ => mkFcntlOut (Some EAGAIN) l k
      | None => mkFcntlOut None l (mkKernel (k_open k) (mkLock f kind (flock_range l) :: k_locks k))
      end
  end.

Definition probe (f : File) (l : Flock) (k : Kernel) : FcntlOut :=
  match find_conflict f F_WRLCK (flock_range l) (k_locks k) with
  | Some lk =>
      mkFcntlOut None (mkFlock (match lk_kind lk with F_UNLCK => F_WRLCK | kind => kind end) SEEK_SET (lock_start (lk_range lk)) (lock_length (lk_range lk)) 0) k
  | None => mkFcntlOut None (mkFlock F_UNLCK (l_whence l) (l_start l) (l_len l) (l_pid l)) k
  end.

#[global] Instance kernel : Fcntl := {|
  fcntl cmd f l k := match cmd with F_OFD_GETLK => probe f l k | _ => set f l k end;
  open_path path k := inr (next_file k, mkKernel ({[next_file k]} ∪ k_open k) (k_locks k));
  close f k := mkKernel (k_open k ∖ {[f]}) (filter (λ lk, lk_owner lk ≠ f) (k_locks k));
  as_raw_fd f := f
|}.

Lemma conflict_found f kind r locks lk : find_conflict f kind r locks = Some lk → lk ∈ locks ∧ conflicts f kind r lk.
Proof.
  unfold find_conflict. destruct (list_find _ locks) as [[i lk']|] eqn:E; [|done]. intros [= <-].
  apply list_find_Some in E as (Hi & Hc & _). split; [by eapply list_elem_of_lookup_2|done].
Qed.

Lemma conflict_free f kind r locks : find_conflict f kind r locks = None → ∀ lk, lk ∈ locks → ¬ conflicts f kind r lk.
Proof.
  unfold find_conflict. destruct (list_find _ locks) eqn:E; [done|]. intros _. apply list_find_None in E. by rewrite Forall_forall in E.
Qed.

Lemma set_cases f l k : l_type l ≠ F_UNLCK →
  (∃ lk, lk ∈ k_locks k ∧ conflicts f (l_type l) (flock_range l) lk ∧ set f l k = mkFcntlOut (Some EAGAIN) l k) ∨
  ((∀ lk, lk ∈ k_locks k → ¬ conflicts f (l_type l) (flock_range l) lk) ∧
   set f l k = mkFcntlOut None l (mkKernel (k_open k) (mkLock f (l_type l) (flock_range l) :: k_locks k))).
Proof.
  intros Hk. unfold set. destruct (find_conflict f (l_type l) (flock_range l) (k_locks k)) as [lk|] eqn:E.
  - left. exists lk. destruct (conflict_found _ _ _ _ _ E) as [? ?]. split_and!; try done. by destruct (l_type l); rewrite ?E.
  - right. split; [by apply conflict_free|]. by destruct (l_type l); rewrite ?E.
Qed.

Lemma max_file x l : x ∈ l → x <= foldr Z.max 0 l.
Proof. induction l as [|y l IH]; [by intros ?%elem_of_nil|]. intros [->|H]%elem_of_cons; cbn; [lia|]. specialize (IH H). lia. Qed.

#[global] Instance kernel_laws : FcntlLaws kernel.
Proof.
  split.
  - intros cmd f l k He. destruct (decide (cmd = F_OFD_GETLK)) as [->|Hc].
    + cbn in *. unfold probe in *. by destruct (find_conflict _ _ _ _).
    + assert (fcntl cmd f l k = set f l k) as E by (by destruct cmd). rewrite E in *. destruct (decide (l_type l = F_UNLCK)) as [Ek|Hk].
      * unfold set in *. by rewrite Ek in *.
      * destruct (set_cases f l k Hk) as [(lk & _ & _ & ->)|[_ E']]; [done|]. by rewrite E' in He.
  - intros f l k lk _ Hk Hin Hc. cbn. left. destruct (set_cases f l k Hk) as [(lk' & _ & _ & ->)|[Hno _]]; [done|]. by destruct (Hno lk Hin).
  - intros cmd f l k Hcmd _ Hk He. assert (fcntl cmd f l k = set f l k) as E by (by destruct cmd). rewrite E in *.
    destruct (set_cases f l k Hk) as [(lk & _ & _ & E')|[Hno ->]]; [by rewrite E' in He|]. split; [done|]. split; [done|]. intros _ lk. apply elem_of_cons.
  - intros cmd f l k Hcmd _ Hk _. assert (fcntl cmd f l k = set f l k) as E by (by destruct cmd). rewrite E. unfold set. rewrite Hk. cbn. split; [done|].
    intros _ lk. rewrite list_elem_of_filter. tauto.
  - intros f l k _ _. cbn. unfold probe. destruct (find_conflict f F_WRLCK (flock_range l) (k_locks k)) as [lk|] eqn:E; cbn; (split; [done|split; [done|]]).
    + right. split; [by destruct (lk_kind lk)|]. exists lk. destruct (conflict_found _ _ _ _ _ E). split_and!; try done. unfold flock_range. cbn. by destruct (lk_range lk).
    + left. split; [done|]. by apply conflict_free.
  - intros path k f k'. cbn. intros [= <- <-]. split; [|done]. intros H%elem_of_elements%max_file. unfold next_file in H. lia.
  - intros f k. cbn. split; [done|]. intros lk. rewrite list_elem_of_filter. tauto.
Qed.

Lemma kernel_reliable : reliable kernel.
Proof.
  split; [intros; by eexists|]. intros f l k _ Hk He. cbn in He. destruct (set_cases f l k Hk) as [(lk & Hin & Hc & _)|[_ E]]; [by exists lk|by rewrite E in He].
Qed.

(** A probe, a gate, and a reader in slot 5 with snapshot 9. *)
Definition k0 : Kernel := mkKernel ∅ [].
Definition k4 : Kernel := mkKernel {[1; 2; 3]} [gate_lock 2 F_WRLCK; payload_lock 3 5 9; token_lock 3 5].

Lemma locks_run : rtc os_step (mkSys k0 ∅ ∅) (mkSys k4 (<[3 := (5, Some 9)]> (<[3 := (5, None)]> ∅)) (<[2 := F_WRLCK]> ∅)).
Proof.
  eapply rtc_l; [eapply (step_open k0 ∅ ∅ "db" 1); vm_compute; reflexivity|].
  eapply rtc_l; [eapply (step_open _ ∅ ∅ "db" 2); vm_compute; reflexivity|].
  eapply rtc_l; [eapply (step_open _ ∅ ∅ "db" 3); vm_compute; reflexivity|].
  eapply rtc_l; [apply (step_token _ ∅ ∅ 3 5 (Ok true) (mkKernel {[1; 2; 3]} [token_lock 3 5])); [done|vm_compute; tauto|unfold MAX_READER_SLOTS; lia|vm_compute; reflexivity]|].
  eapply rtc_l; [apply (step_payload _ _ ∅ 3 5 9 (Ok ()) (mkKernel {[1; 2; 3]} [payload_lock 3 5 9; token_lock 3 5])); [reflexivity|unfold in_u64, u64_mod; lia|vm_compute; reflexivity]|].
  apply rtc_once. apply (step_gate _ _ ∅ 2 F_WRLCK false (Ok ()) k4); [done|vm_compute; tauto|done|vm_compute; reflexivity].
Qed.

Lemma announced0 : announces ∅ ∅ k0.
Proof. split; try done; [|by intros f [[]|[]]]. intros lk. split; [by intros ?%elem_of_nil|]. by intros [f slot o H|f slot tx H|g kind H]. Qed.

Lemma registered_run : ∃ k', register_reader (mkCoordination 2 1) false 7 9 k0 = (Ok 1, k').
Proof. eexists. vm_compute. reflexivity. Qed.

End SimpleKernel.

Lemma locks_sound_witness : ∃ n oldest, find_readers (mkCoordination 4 1) false SimpleKernel.k4 = (Ok (n, oldest), SimpleKernel.k4) ∧ n = 1.
Proof.
  destruct (proj1 (locks_sound SimpleKernel.kernel SimpleKernel.kernel_laws SimpleKernel.k0 _ _ _ eq_refl SimpleKernel.locks_run) (mkCoordination 4 1)) as (n & oldest & E & -> & _); [by vm_compute; tauto|by split; vm_compute|].
  exists 1, oldest. split; [exact E|reflexivity].
Defined.

Lemma register_outcomes_witness :
  ∃ f k', register_reader (mkCoordination 2 1) false 7 9 SimpleKernel.k0 = (Ok f, k') ∧ announces ∅ ∅ (drop_registration f k').
Proof.
  assert (in_u64 9) as Htx by (unfold in_u64, u64_mod; lia).
  pose proof (register_outcomes SimpleKernel.kernel SimpleKernel.kernel_laws ∅ ∅ SimpleKernel.k0 (mkCoordination 2 1) false 7 9 SimpleKernel.announced0 Htx) as H.
  destruct SimpleKernel.registered_run as (k' & E). rewrite E in H. exists 1, k'. split; [exact E|]. destruct H as (_ & slot & _ & _ & H). exact H.
Defined.
